(* ===== verification/_CoqProject ===== *)
-Q . S2P
Prelude.v
Util.v
Cells.v
LibcAlloc.v
Bitmap.v
Constants.v
Block.v
BlockTyping.v
SpaceBitmap.v
BitmapUnsync.v
BitmapSync.v
Object.v
BlockAllocator.v
WindowsMemory.v
Allocation.v
AllocatorLaws.v
Allocators.v
ImmixSpace.v
Threads.v
LargeObjectSpace.v
Teardown.v
Collector.v
Sweep.v
Marking.v
EvacRoom.v
Moving.v
Collection.v
EvacCollect.v
Immix.v
Roots.v
Evacuation.v
Heap.v
HeapCollect.v
EvacHeap.v
Termination.v
HeapAlloc.v
HeapEmergency.v
Mutator.v
ThreadHeap.v
ThreadCollect.v
Api.v
Registry.v
Stats.v
Format.v
Signals.v
Safepoint.v
Locks.v
Mutex.v
ReentrantMutex.v
