(* ===== verification/Prelude.v ===== *)
(** * libimmixcons: a conservative mark-region collector

    A verification of the Rust crate under src/src/: an Immix heap of 32 KiB blocks
    of 128-byte lines, with a space for large objects, a conservative scan of the
    stack and a handshake that stops the threads of the program.  The model is a
    shallow embedding: each Rust function is a definition of the same name over
    explicit state, in a monad [R] whose outcome [Panic] stands for a panic of the
    program (failed assertion, overflow, index out of range) or for an access outside
    a mapping.

    ** The program and the files that model it

    - [Prelude]: the monad, integers of a given width with their overflow checks,
      loops over ranges, and the lemmas, hints and tactics all files share.
    - [Util] (util.rs, align_usize of object.rs): tagged pointers, rounding,
      addresses and regions.  [Cells] (util.rs): the atomic and volatile accessors, and
      the order of addresses.  [LibcAlloc] (util.rs): the allocator over malloc, over a
      class [CHeap] for the C library.
    - [Bitmap] (util/bitmap_const.rs) and [SpaceBitmap] (space_bitmap.rs): the bitmap
      a macro generates for the lines of one block, and the one over the whole heap
      that records where objects start.  [BitmapUnsync] is the version of a build
      without threads, [BitmapSync] the other one accessed by several threads.
    - [Constants] (constants.rs) and [Block] (block.rs): the header of a block, the
      marks of its lines, and the search for holes between marked lines;
      [BlockTyping] is the type of the header under all updates.
    - [Object] (object.rs): the header word of an object, with mark, forwarding and
      pin bits, and the run-time type information.
    - [BlockAllocator] (block_allocator.rs): the mapping, the allocator of blocks,
      and as a step relation its compare-and-exchange loop run by several threads.
      [WindowsMemory] is the mapping of the Windows build, over a class
      [VirtualMemory], with the block allocator on it.
    - [Allocation] and [ImmixSpace] (allocation.rs): the trait [Allocator] as a
      class with its three implementations, and the space that owns them.
      [AllocatorLaws] says what an implementation of the trait has to satisfy and
      proves the provided methods from that alone; [Allocators] has the instances.
      [Threads] runs the space with several threads, each with its own blocks.
    - [LargeObjectSpace] (large_object_space.rs): objects with a region of their own.
      [Teardown]: the destructors, and what a heap gives back at its end.
    - [Collector] (collector.rs): marking, with its queue, and the phases of a
      collection around it.  [Marking] and [Sweep] are the theory of the two halves,
      [Collection] that of [Collector::collect] as a whole, for collections that move
      nothing.  [EvacRoom], [Moving] and [EvacCollect] are the same for collections that
      move objects: the room they are moved to, marking with moves, and the whole.
    - [Immix] (lib.rs): the structure behind the global heap, and its entry points.
      [Roots] is the theory of the stack scan; [Heap] states the invariant of the
      heap, which [HeapCollect] shows for a collection that moves nothing, [EvacHeap] for
      one that moves objects, [HeapAlloc] for the start and for an allocation,
      [HeapEmergency] for an allocation that collects, and [Mutator] for every run of a
      program of one thread.
      [ThreadHeap] and [ThreadCollect] are the heap of several threads, with the blocks
      each of them has, and every run of a program of several threads.  [Termination] is
      about the fuel of a collection.  [Api] (lib.rs, object.rs) is the allocation of
      a Rust value and the access to it.
    - [Evacuation]: which blocks a collection evacuates, what happens to objects with
      several references, and to dead ones that have finalizers.
    - [Safepoint] (safepoint.rs, threading.rs): the handshake between the collecting
      thread and the others, as a transition system over interleavings.
    - [Registry] (stack_bounds.rs, threading.rs, the macro get_sp! of util.rs): the
      bounds of stacks, the state of a thread, and the registered threads.  [Signals] (signals/): the handlers that turn
      a fault into a safepoint.
    - [Locks], [Mutex] and [ReentrantMutex] (util/locks.rs): the recursive spin lock,
      the mutex on a parking lot (a class [ParkingLot], for the queue of
      parking_lot_core), and the recursive mutex on top of it, as transition systems.
    - [Stats] (util/timer.rs, lib.rs): timers, statistics and the summary, in binary
      floating point.  [Format] (util.rs, lib.rs): how sizes, addresses, regions and
      pauses are printed.

    [Immix::allocate] asks the immix space, or for a large size the large object
    space, for memory; the immix space asks its normal allocator, or from
    [MEDIUM_OBJECT] bytes on its overflow allocator; these take holes from recycled
    blocks and fresh blocks from the block allocator.  When the
    threshold is passed [collect_internal] gathers roots from the callbacks and the
    stacks, pins what the stacks refer to, has [Collector::collect] mark and sweep,
    runs finalizers and flips the value that means "live".

    ** How state is represented

    Addresses and machine integers are [Z].  Where the source computes on a [u8],
    [u16] or [usize] the width and the check of the development profile are written
    out ([u_add], [u_sub], [u_mul], [trunc]); debug assertions are part of the
    definitions.  The memory of the heap is [Store]: block headers by block address
    and words by word address, where what was never written or was given back with
    [MADV_DONTNEED] reads as zero.  The blocks an allocator holds are addresses, so
    that two parts of the program that hold the same block see the same header.
    Headers of large objects are in a memory [pmem] of their own.

    What comes from outside is an argument: the addresses [mmap] and [malloc]
    return, the page size, the stack pointer, the root callbacks, and the user's
    run-time type information [rtti_of] (size of an object, slots of an object that
    hold references, finalizer).  What the collector needs of the last is a named
    condition of the theorems, [heap_ok] and [object_ok].

    ** Loops and fuel

    Loops over ranges are folds.  The search of [scan_for_hole] goes at most once
    through the 256 lines of a block and gets 258 rounds, and [scan_for_hole_spec]
    shows that it never runs out.  The marking loop gets its fuel as an argument; for
    a heap of objects [objs], one round for each root and for each reference of the
    heap is enough, and the theorems say that with that much fuel the loop ends with
    a result.  The theorems on collections and allocations state that the operation
    returns, and what it returns.

    ** What is shown

    - A collection that moves nothing (a plain one, or an evacuating one that has no
      headroom to move objects to) marks the reachable objects and no others (Collection.marking_exact), leaves all of them with their words intact
      and outside the memory it makes available (collect_keeps_live), gives back
      every block in which nothing is reachable (collect_frees_garbage), and loses or
      doubles no block (collect_accounts_for_blocks).
    - Regions of different allocations do not overlap, lie in the heap and leave
      every older object alone (allocate_correct, allocations_disjoint); behind it is
      the agreement of line marks and holes (marked_object_outside_holes,
      scan_block_correct).
    - The roots found on a stack are the words that are starts of objects, and
      these are pinned (collect_roots_exact).
    - A collection that moves objects keeps the heap up to a renaming of the reachable
      objects, which have their types and data, with references and precise roots
      renamed, apart from each other and outside the memory it makes available
      (evacuation_relocates for marking, evacuation_keeps_heap for [Collector::collect]);
      a block from which everything was moved is given back (evacuation_frees_blocks).
      This holds if each object that may move has one precise root or one reference.
    - Every state that a program reaches from [immix_init] by allocating small
      objects, writing and collecting has a heap in order (program_keeps_heap), with
      the separate statements for a collection, an allocation, and an allocation that
      has to collect first (immix_collect_correct and moving_collection_keeps_heap,
      allocate_keeps_heap, allocate_collects and allocate_moves).  They also say which
      objects are finalized.  The heaps that are collected have to meet the conditions
      [ready_for] or [ready_to_move] below; in runs of programs they are a condition on the
      program ([collectible]).
    - The same for several threads: a collection keeps exactly what the stacks of all
      registered threads and the callbacks reach, whatever blocks the threads have
      (threads_collect_correct), and every run of threads that register, allocate, write
      and collect has a heap in order (threaded_program_keeps_heap); a thread that
      unregisters with objects in its blocks takes them out of it
      (unregister_loses_block).
    - A collection ends, with a bound on its rounds and a result that does not depend
      on the fuel (collection_terminates).
    - Header words refine a record of four fields (header_refines,
      forward_roundtrip); the bitmaps are exact as sets of granules
      (unsync_refines_set, clear_range_exact, walk_visits_marked); the header of a
      block keeps its type (block_updates_typed).
    - A value of at most 8 bytes allocated through the Rust interface reads back, byte for
      byte and with its type (alloc_safe_prim).
    - Large objects: the layout of the region, membership by binary search, and
      the sweep (try_create_layout, contains_iff, los_sweep_correct).
    - Threads: allocations of several threads do not overlap
      (threads_allocations_disjoint), the blocks that racing threads get are distinct
      (concurrent_blocks_distinct), bits of different words can be set at the same time
      (modify_atomic), a bit is won by one thread (test_and_set_wins_once) and a tagged
      pointer is swapped by one (cas_one_winner); at most one thread collects
      (one_collector).
    - Locks: at most one thread holds a spin lock, a mutex or a recursive mutex
      (spin_lock_exclusive, mutex_exclusive, reentrant_exclusive); no thread is left
      asleep in the queue of a free mutex (no_lost_wakeup), a thread that waits can get the
      mutex by the work of the calls already made and unlocks of the owners
      (mutex_obtainable), and while it waits it does not hold up a collection
      (parked_thread_safe).
    - The system: which words of a stack are scanned (stack_words_scanned), which
      threads are registered (registry_exact), faults are safepoints or fatal
      (fault_outcome), blocks in use are committed on Windows unless the
      system refused it, which the code does not notice (windows_blocks_committed), no memory of malloc is lost or freed twice
      (libc_alloc_accounting), timers and statistics (timer_intervals,
      stats_of_collections); what is printed of a size, an address or a region can be
      read back (formatted_size_accurate, address_display_roundtrip,
      region_display_roundtrip).
    - Where the code does something else than it means to, the theorem states what it
      does: the handshake lets a collection run beside a running thread
      (world_not_stopped, yieldpoint_never_stops) and can deadlock
      (unregister_deadlock); a thread cannot register twice (reregister_ignored); an
      object with two references is moved twice
      (trace_copies_twice); an object that moves is finalized while it is reachable
      (moved_object_finalized); finalizers of objects in returned blocks are not reached
      (finalize_returned_panics); the order on which the binary search relies is lost
      by an allocation (alloc_breaks_order); no large object survives a collection
      (los_sweep_frees_all); a value of 16 bytes runs into the object behind it
      (alloc_safe_overwrites); bits of one word set at the same time are lost
      (set_race_loses_mark); the end of the heap is outside the
      bitmap (filter_end_of_heap_oob); the bitmap of the heap may lack its last word
      (bitmap_size_rounds_to_even); the visitor of the generated
      bitmaps visits nothing (visit_marked_range_visits_nothing, space_visits_nothing);
      the walk over garbage keeps the last entries to itself and writes wrong addresses
      (sweep_walk_buffers); a second summary is
      wrong (second_summary_wrong); the space of a dropped heap stays allocated
      (unregister_leaks_space), on Windows its mapping in any case
      (drop_releases_nothing); on AArch64 two words of a stack are not scanned
      (stack_pointer_skips).

    ** What is not modelled

    Logging and the fixed texts of the summary; the branch for OpenBSD of
    stack_bounds.rs; the [Condvar] hooks beyond [mark_parked]; spinning and memory
    orderings (transition systems are sequentially consistent); [TracerPtr], which only
    passes a slot on, and the one-line accessors of fields; benchmarks, examples and
    tests.  In the sequential model of the heap the locks around vectors are left out;
    [Threads] and [ThreadCollect] take one call of [allocate] or [immix_collect] as one
    step, and a collection of [ThreadCollect] finds the other threads stopped, which the
    handshake of [Safepoint] does not ensure.  [Immix], [Allocation] and [Collector] cover
    both builds, and so do the invariant of [Heap], [HeapAlloc], and the lemmas of
    [HeapCollect] and [EvacHeap] behind their theorems; these theorems, [HeapEmergency],
    [Mutator] and [Termination] are about the build without [threaded], [ThreadHeap] and
    [ThreadCollect] about the other one.  All of them are about heaps without large
    objects, which no collection leaves alive ([los_sweep_frees_all]).

    What a collection needs of the heap is [ready_for] of [HeapCollect] where nothing moves and
    [ready_to_move] of [EvacHeap] where objects may move.  In both the scanned ranges are below
    2^63 and hold no object, no word in them is the end of the heap or 8 bytes behind it (the
    bitmap is then read out of range: filter_end_of_heap_oob), precise roots are slots that
    refer to objects, and with verbose statistics the count of allocated bytes is no less
    than the sizes of the objects (the statistics subtract these).  An object to finalize is
    reachable, or a reachable object keeps its block: the header of a dead one is read
    after the sweep (finalize_returned_panics).  Where objects may move, besides, one that is not
    pinned and not on the stack has one precise root or one reference, as the code copies it
    once for each (trace_copies_twice); a reachable object to finalize, and one that keeps the
    block of another, does not move, as [to_finalize] keeps its old address
    (moved_object_finalized); types do not depend on addresses.  Nothing is said of
    collections of other heaps. *)

From stdpp Require Import functions base numbers list list_numbers gmap sorting.
From Stdlib Require Import ZArith Lia Btauto.
Local Open Scope Z_scope.

(** ** Outcomes of Rust code

    A Rust function either returns, or panics, or (in a model with fuel) runs
    out of the fuel the model gives it.  [R A] is that outcome; it is a monad
    and uses stdpp's [x ← e; k] notation. *)

Inductive panic : Type :=
| Overflow
| IndexOutOfBounds
| AssertFailed
| UnwrapNone
(** an access through a raw pointer outside the memory it points into; Rust does
    not check it, the model refuses to give it a meaning *)
| BadAccess.

Inductive R (A : Type) : Type :=
| Ok (a : A)
| Panic (p : panic)
| NoFuel.
Arguments Ok {A} a.
Arguments Panic {A} p.
Arguments NoFuel {A}.

#[global] Instance panic_eq_dec : EqDecision panic.
Proof. solve_decision. Defined.

#[global] Instance R_eq_dec {A} `{EqDecision A} : EqDecision (R A).
Proof. solve_decision. Defined.

#[global] Instance R_ret : MRet R := λ A a, Ok a.
#[global] Instance R_bind : MBind R := λ A B f m,
  match m with Ok a => f a | Panic p => Panic p | NoFuel => NoFuel end.
#[global] Instance R_fmap : FMap R := λ A B f m,
  match m with Ok a => Ok (f a) | Panic p => Panic p | NoFuel => NoFuel end.

(** ** Machine-width integers: unsigned integers of [w] bits are values in
    [0, 2^w); an operation that leaves that range panics, as it does in a build
    with overflow checks. *)

Definition usize_bits : Z := 64.
Definition word_bytes : Z := 8.
Definition in_width (w x : Z) : Prop := 0 <= x < 2 ^ w.
Definition u_add (w x y : Z) : R Z :=
  if decide (x + y < 2 ^ w) then Ok (x + y) else Panic Overflow.
Definition u_sub (x y : Z) : R Z :=
  if decide (y <= x) then Ok (x - y) else Panic Overflow.
Definition u_mul (w x y : Z) : R Z :=
  if decide (x * y < 2 ^ w) then Ok (x * y) else Panic Overflow.
(** [1 << n] on a [w]-bit word. *)
Definition u_shl1 (w n : Z) : R Z :=
  if decide (n < w) then Ok (Z.shiftl 1 n) else Panic Overflow.
(** [x as uN]: truncation. *)
Definition trunc (w x : Z) : Z := x mod 2 ^ w.
(** [!x] on a [w]-bit word. *)
Definition u_not (w x : Z) : Z := Z.lxor x (Z.ones w).

#[global] Instance in_width_dec w x : Decision (in_width w x).
Proof. unfold in_width. apply _. Defined.

(** ** Loops

    [for_each] is a [for] loop whose body updates the state [S];
    [for_find] is a [for] loop that breaks at the first index its test accepts. *)

Fixpoint for_each {A S : Type} (f : S → A → R S) (l : list A) (s : S) : R S :=
  match l with
  | [] => Ok s
  | a :: l' => s' ← f s a; for_each f l' s'
  end.

Fixpoint for_find {A : Type} (p : A → R bool) (l : list A) : R (option A) :=
  match l with
  | [] => Ok None
  | a :: l' => b ← p a; if b : bool then Ok (Some a) else for_find p l'
  end.

(** The half-open range [lo..hi] of a Rust [for]. *)
Definition range (lo hi : Z) : list Z := seqZ lo (hi - lo).

(** [Vec::pop]: the last element and the rest. *)
Definition vec_pop {A : Type} (v : list A) : option (A * list A) :=
  match rev v with
  | [] => None
  | x :: r => Some (x, rev r)
  end.

(** Pure counterpart of [for_find]. *)
Fixpoint first_such {A : Type} (p : A → bool) (l : list A) : option A :=
  match l with
  | [] => None
  | a :: l' => if p a then Some a else first_such p l'
  end.

(** Indexing a fixed array of words, with Rust's bounds check. *)
Definition idx {A : Type} (l : list A) (i : Z) : R A :=
  if decide (0 <= i) then
    match l !! Z.to_nat i with Some x => Ok x | None => Panic IndexOutOfBounds end
  else Panic IndexOutOfBounds.
Definition upd {A : Type} (l : list A) (i : Z) (x : A) : R (list A) :=
  if decide (0 <= i < Z.of_nat (length l)) then Ok (<[Z.to_nat i := x]> l)
  else Panic IndexOutOfBounds.

(** The same through a raw pointer. *)
Definition raw_idx {A : Type} (l : list A) (i : Z) : R A :=
  if decide (0 <= i) then
    match l !! Z.to_nat i with Some x => Ok x | None => Panic BadAccess end
  else Panic BadAccess.
Definition raw_upd {A : Type} (l : list A) (i : Z) (x : A) : R (list A) :=
  if decide (0 <= i < Z.of_nat (length l)) then Ok (<[Z.to_nat i := x]> l)
  else Panic BadAccess.

(** [x as isize] of a [usize]. *)
Definition to_isize (x : Z) : Z := if decide (x < 2 ^ 63) then x else x - 2 ^ 64.
(** Checked [isize] subtraction. *)
Definition i_sub (x y : Z) : R Z :=
  if decide (- 2 ^ 63 <= x - y < 2 ^ 63) then Ok (x - y) else Panic Overflow.

(** ** Tactics *)

(** A closed decidable proposition, by evaluation of its decision procedure. *)
Ltac vm_decide := apply (bool_decide_unpack _); vm_compute; exact I.

(** Case analysis on every decision and boolean comparison of the goal. *)
Ltac split_ifs :=
  repeat (case_decide || match goal with
    | |- context [if ?b then _ else _] => let E := fresh "E" in destruct b eqn:E
    end).

(** Bit-level goals: equality of integers by their bits. *)
Create Rewrite HintDb bits.
#[export] Hint Rewrite Z.lor_spec Z.land_spec Z.lxor_spec Z.ldiff_spec Z.bits_0 : bits.
#[export] Hint Rewrite Z.shiftl_spec Z.shiftr_spec Z.lnot_spec using lia : bits.

Create HintDb imx.
Create Rewrite HintDb imx.

(** ** Outcome lemmas *)

Lemma bind_Ok {A B} (a : A) (f : A → R B) : Ok a ≫= f = f a.
Proof. reflexivity. Qed.

Lemma bind_Ok_inv {A B} (m : R A) (f : A → R B) b :
  m ≫= f = Ok b → ∃ a, m = Ok a ∧ f a = Ok b.
Proof. destruct m; cbn; intros; try discriminate; eauto. Qed.

Lemma bind_assoc {A B C} (m : R A) (f : A → R B) (g : B → R C) :
  (m ≫= f) ≫= g = m ≫= (λ a, f a ≫= g).
Proof. by destruct m. Qed.

(** Step through a monadic equation [e = Ok v]. *)
Ltac ok_inv :=
  repeat match goal with
  | H : Ok _ = Ok _ |- _ => injection H as H; try subst
  | H : Panic _ = Ok _ |- _ => discriminate H
  | H : NoFuel = Ok _ |- _ => discriminate H
  | H : mret _ = Ok _ |- _ => unfold mret, R_ret in H
  | H : _ ≫= _ = Ok _ |- _ =>
      apply bind_Ok_inv in H; let x := fresh "x" in let E := fresh "E" in
      destruct H as (x & E & H)
  end.

#[export] Hint Rewrite @bind_Ok : imx.

(** ** Width lemmas *)

Lemma u_add_ok w x y : x + y < 2 ^ w → u_add w x y = Ok (x + y).
Proof. intros. unfold u_add. by rewrite decide_True. Qed.

Lemma u_sub_ok x y : y <= x → u_sub x y = Ok (x - y).
Proof. intros. unfold u_sub. by rewrite decide_True. Qed.

Lemma u_mul_ok w x y : x * y < 2 ^ w → u_mul w x y = Ok (x * y).
Proof. intros. unfold u_mul. by rewrite decide_True. Qed.

Lemma u_shl1_ok w n : n < w → u_shl1 w n = Ok (Z.shiftl 1 n).
Proof. intros. unfold u_shl1. by rewrite decide_True. Qed.

Lemma u_sub_panic x y : x < y → u_sub x y = Panic Overflow.
Proof. intros. unfold u_sub. rewrite decide_False by lia. done. Qed.

Lemma trunc_small w x : in_width w x → trunc w x = x.
Proof. intros. unfold trunc, in_width in *. by apply Z.mod_small. Qed.

(** Bits of a word of [w] bits. *)
Lemma testbit_above w x i : in_width w x → 0 <= w <= i → Z.testbit x i = false.
Proof.
  intros [Hx Hw] Hi. rewrite <- (Z.mod_small x (2 ^ w)) by done.
  apply Z.mod_pow2_bits_high. lia.
Qed.

Lemma bit1_spec k i : 0 <= k → 0 <= i → Z.testbit (Z.shiftl 1 k) i = bool_decide (i = k).
Proof.
  intros. rewrite Z.shiftl_spec by lia. case_bool_decide as E.
  - subst. by rewrite Z.sub_diag.
  - destruct (Z.ltb_spec (i - k) 0).
    + by rewrite Z.testbit_neg_r.
    + change 1 with (2 ^ 0). apply Z.pow2_bits_false. lia.
Qed.

Lemma u_not_spec w x i : 0 <= w → 0 <= i →
  Z.testbit (u_not w x) i = xorb (Z.testbit x i) (i <? w).
Proof.
  intros. unfold u_not. rewrite Z.lxor_spec. f_equal. by apply Z.testbit_ones_nonneg.
Qed.

(** A non-negative number whose bits at and above [w] are clear is a [w]-bit word. *)
Lemma in_width_bits w x : 0 <= w → 0 <= x →
  (∀ i, w <= i → Z.testbit x i = false) → in_width w x.
Proof.
  intros Hw Hx Hb. split; [done|].
  destruct (Z.eq_dec x 0) as [->|Hx0]; [apply Z.pow_pos_nonneg; lia|].
  apply Z.log2_lt_pow2; [lia|].
  destruct (Z.lt_ge_cases (Z.log2 x) w) as [|Hge]; [done|].
  specialize (Hb (Z.log2 x) Hge). rewrite Z.bit_log2 in Hb by lia. discriminate.
Qed.

(** ** List lemmas *)

Lemma filter_none {A} (P : A → Prop) `{!∀ x, Decision (P x)} (l : list A) :
  (∀ x, x ∈ l → ¬ P x) → filter P l = [].
Proof.
  induction l as [|a l IH]; intros Hn; [done|].
  rewrite filter_cons_False by (apply Hn; left). apply IH. intros. apply Hn. by right.
Qed.

Lemma filter_ext_in {A} (P Q : A → Prop) `{!∀ x, Decision (P x)} `{!∀ x, Decision (Q x)} (l : list A) :
  (∀ x, x ∈ l → P x ↔ Q x) → filter P l = filter Q l.
Proof.
  induction l as [|a l IH]; intros Hpq; [done|].
  assert (Ha := Hpq a ltac:(left)). rewrite !filter_cons.
  rewrite (IH ltac:(intros; apply Hpq; by right)).
  by destruct (decide (P a)), (decide (Q a)); try tauto.
Qed.

Lemma elem_of_range lo hi i : i ∈ range lo hi ↔ lo <= i < hi.
Proof. unfold range. rewrite elem_of_seqZ. lia. Qed.

Lemma range_nil lo hi : hi <= lo → range lo hi = [].
Proof. intros. apply seqZ_nil. lia. Qed.

Lemma range_cons lo hi : lo < hi → range lo hi = lo :: range (lo + 1) hi.
Proof.
  intros. unfold range. rewrite seqZ_cons by lia. do 2 f_equal; lia.
Qed.

Lemma range_app lo mid hi : lo <= mid <= hi → range lo hi = range lo mid ++ range mid hi.
Proof.
  intros. unfold range. replace (hi - lo) with ((mid - lo) + (hi - mid)) by lia.
  rewrite seqZ_app by lia. do 2 f_equal. lia.
Qed.

(** [for_find] whose test cannot fail is [first_such]. *)
Lemma for_find_pure {A} (p : A → R bool) (q : A → bool) l :
  (∀ a, a ∈ l → p a = Ok (q a)) → for_find p l = Ok (first_such q l).
Proof.
  induction l as [|a l IH]; intros H; [done|]. cbn [for_find first_such].
  rewrite H by left. cbn. destruct (q a); [done|]. apply IH. intros. apply H. by right.
Qed.

Lemma for_each_pure {A S} (f : S → A → R S) (g : S → A → S) l s :
  (∀ s a, a ∈ l → f s a = Ok (g s a)) → for_each f l s = Ok (foldl g s l).
Proof.
  revert s. induction l as [|a l IH]; intros s H; [done|]. cbn [for_each foldl].
  rewrite H by left. cbn. apply IH. intros. apply H. by right.
Qed.

(** What [first_such] on an integer range finds. *)
Lemma first_such_range (q : Z → bool) lo hi :
  match first_such q (range lo hi) with
  | Some i => lo <= i < hi ∧ q i = true ∧ ∀ j, lo <= j < i → q j = false
  | None => ∀ j, lo <= j < hi → q j = false
  end.
Proof.
  destruct (Z.le_gt_cases hi lo) as [Hle|Hlt].
  { rewrite range_nil by done. cbn. lia. }
  remember (Z.to_nat (hi - lo)) as n eqn:Hn. revert lo Hlt Hn.
  induction n as [|n IH]; intros lo Hlt Hn; [lia|].
  rewrite range_cons by done. cbn [first_such]. destruct (q lo) eqn:Eq.
  { repeat split; try lia || done. }
  destruct (Z.eq_dec (lo + 1) hi) as [E|E].
  - rewrite range_nil by lia. cbn. intros j Hj. assert (j = lo) by lia. by subst.
  - specialize (IH (lo + 1) ltac:(lia) ltac:(lia)).
    assert (Hc : ∀ i, lo + 1 <= i → (∀ j, lo + 1 <= j < i → q j = false) →
                 ∀ j, lo <= j < i → q j = false).
    { intros i Hi Hq j Hj. destruct (Z.eq_dec j lo) as [->|]; [done|]. apply Hq. lia. }
    destruct (first_such q (range (lo + 1) hi)) as [i|].
    + destruct IH as (? & ? & ?). repeat split; try lia || done. apply Hc; done || lia.
    + apply Hc; done || lia.
Qed.

Lemma vec_pop_spec {A} (v : list A) :
  match vec_pop v with Some (x, r) => v = r ++ [x] | None => v = [] end.
Proof.
  unfold vec_pop. destruct (rev v) as [|x r] eqn:E.
  - apply (f_equal (@rev A)) in E. by rewrite rev_involutive in E.
  - apply (f_equal (@rev A)) in E. rewrite rev_involutive in E. by rewrite E.
Qed.

Lemma vec_pop_app {A} (r : list A) x : vec_pop (r ++ [x]) = Some (x, r).
Proof. unfold vec_pop. rewrite rev_app_distr. cbn. by rewrite rev_involutive. Qed.

Lemma first_such_Some (q : Z → bool) lo hi i : lo <= i < hi → q i = true →
  (∀ j, lo <= j < i → q j = false) → first_such q (range lo hi) = Some i.
Proof.
  intros Hi Hq Hn. pose proof (first_such_range q lo hi) as H.
  destruct (first_such q (range lo hi)) as [k|].
  - destruct H as (Hk & Hqk & Hnk). f_equal.
    destruct (Z.lt_trichotomy k i) as [L|[E|L]]; [|done|].
    + by rewrite Hn in Hqk by lia.
    + by rewrite Hnk in Hq by lia.
  - by rewrite H in Hq.
Qed.

Lemma first_such_None (q : Z → bool) lo hi :
  (∀ j, lo <= j < hi → q j = false) → first_such q (range lo hi) = None.
Proof.
  intros Hn. pose proof (first_such_range q lo hi) as H.
  destruct (first_such q (range lo hi)) as [k|]; [|done].
  destruct H as (Hk & Hqk & _). by rewrite Hn in Hqk.
Qed.

Lemma first_such_skip (q : Z → bool) lo mid hi : lo <= mid →
  (∀ j, lo <= j < mid → q j = false) →
  first_such q (range lo hi) = first_such q (range mid hi).
Proof.
  intros Hle Hn. pose proof (first_such_range q mid hi) as H.
  destruct (first_such q (range mid hi)) as [k|].
  - destruct H as (Hk & Hqk & Hnk). apply first_such_Some; [lia|done|].
    intros j Hj. destruct (Z.lt_ge_cases j mid); [apply Hn|apply Hnk]; lia.
  - apply first_such_None. intros j Hj.
    destruct (Z.lt_ge_cases j mid); [apply Hn|apply H]; lia.
Qed.

Lemma for_each_app {A S} (f : S → A → R S) l1 l2 s :
  for_each f (l1 ++ l2) s = s' ← for_each f l1 s; for_each f l2 s'.
Proof.
  revert s. induction l1 as [|a l1 IH]; intros s; [done|]. cbn [for_each app].
  rewrite bind_assoc. destruct (f s a); try done. apply IH.
Qed.

(** A loop over an integer range keeps an invariant indexed by the next index. *)
Lemma for_each_range {S} (f : S → Z → R S) (I : Z → S → Prop) lo hi s :
  lo <= hi → I lo s →
  (∀ i s, lo <= i < hi → I i s → ∃ s', f s i = Ok s' ∧ I (i + 1) s') →
  ∃ s', for_each f (range lo hi) s = Ok s' ∧ I hi s'.
Proof.
  intros Hle. remember (Z.to_nat (hi - lo)) as n eqn:Hn. revert lo s Hle Hn.
  induction n as [|n IH]; intros lo s Hle Hn HI Hstep.
  - rewrite range_nil by lia. exists s. by replace hi with lo by lia.
  - rewrite range_cons by lia. cbn [for_each].
    destruct (Hstep lo s ltac:(lia) HI) as (s1 & -> & H1). rewrite bind_Ok.
    apply IH; try lia; [done|]. intros i s2 Hi. apply Hstep. lia.
Qed.

Definition sum_list (l : list Z) : Z := foldr Z.add 0 l.

Lemma orb_decide (b : bool) P `{!Decision P} : b || bool_decide P = if decide P then true else b.
Proof. case_bool_decide; case_decide; try done; by destruct b. Qed.

Lemma andb_decide (b : bool) P `{!Decision P} :
  b && negb (bool_decide P) = if decide P then false else b.
Proof. case_bool_decide; case_decide; try done; by destruct b. Qed.

Lemma filter_fmap {A B} (f : A → B) (P : B → Prop) `{!∀ x, Decision (P x)} (l : list A) :
  filter P (f <$> l) = f <$> filter (λ x, P (f x)) l.
Proof.
  induction l as [|a l IH]; [done|]. rewrite fmap_cons, !filter_cons, IH.
  by destruct (decide (P (f a))).
Qed.

#[export] Instance list_disjoint_sym {A} : Symmetric (disjoint (A := list A)).
Proof. intros X Y H x Hx Hy. exact (H x Hy Hx). Qed.

Lemma fmap_ext_in {A B} (f g : A → B) (l : list A) : (∀ x, x ∈ l → f x = g x) → f <$> l = g <$> l.
Proof.
  induction l as [|a l IH]; intros E; [done|]. rewrite !fmap_cons, (E a) by left.
  f_equal. apply IH. intros. apply E. by right.
Qed.

(** Two sums over a list without repetition that differ at one element. *)
Lemma sum_update {A} (f g : A → Z) (l : list A) x : NoDup l → x ∈ l →
  (∀ y, y ∈ l → y ≠ x → g y = f y) →
  sum_list (f <$> l) = f x - g x + sum_list (g <$> l).
Proof.
  unfold sum_list. induction l as [|a l IH]; intros Hn Hx Hfg; [by apply not_elem_of_nil in Hx|].
  apply NoDup_cons in Hn as [Ha Hn]. rewrite !fmap_cons. cbn [foldr].
  apply elem_of_cons in Hx as [->|Hx].
  - assert (E : f <$> l = g <$> l).
    { apply fmap_ext_in. intros y Hy. symmetry. apply Hfg; [by right|]. by intros ->. }
    rewrite E. lia.
  - rewrite IH; [|done|done|intros; apply Hfg; [by right|done]].
    rewrite (Hfg a); [lia|left|]. by intros ->.
Qed.

#[global] Instance sum_list_perm : Proper ((≡ₚ) ==> (=)) sum_list.
Proof. intros l1 l2 Hp. unfold sum_list. induction Hp; cbn; lia. Qed.

Lemma sum_nonneg {A} (f : A → Z) (l : list A) : (∀ x, x ∈ l → 0 <= f x) → 0 <= sum_list (f <$> l).
Proof.
  unfold sum_list. induction l as [|a l IH]; intros Hf; [done|]. rewrite fmap_cons. cbn [foldr].
  pose proof (Hf a ltac:(left)). specialize (IH ltac:(intros; apply Hf; by right)). lia.
Qed.

Lemma sum_filter_le {A} (P : A → Prop) `{∀ x, Decision (P x)} (f : A → Z) (l : list A) : (∀ x, x ∈ l → 0 <= f x) →
  sum_list (f <$> filter P l) <= sum_list (f <$> l).
Proof.
  unfold sum_list. induction l as [|a l IH]; intros Hf; [done|]. rewrite filter_cons.
  pose proof (Hf a ltac:(left)). pose proof (IH (λ x Hx, Hf x (list_elem_of_further _ _ _ Hx))).
  case_decide; rewrite ?fmap_cons; cbn [foldr]; lia.
Qed.

(** ** Per-thread state: functions updated at one thread *)

Lemma fn_insert_eq {A} (f : nat → A) t x u : (<[t := x]> f) u = if decide (u = t) then x else f u.
Proof. case_decide as C; [subst; apply fn_lookup_insert|by apply fn_lookup_insert_ne]. Qed.
