(* ===== verification/Util.v ===== *)
(** * util.rs: pointer tagging, rounding, addresses and regions

    [Bits] holds the free functions on tagged words and [TaggedPointer] the
    wrapper around them; [Rounding] holds [round_down]/[round_up] of util.rs and
    [align_usize] of object.rs; [Address] and [Region] are the address types.
    An [Address] is the [usize] it wraps. *)

From stdpp Require Import base numbers list.
From Stdlib Require Import ZArith Lia Btauto.
From S2P Require Import Prelude.
Local Open Scope Z_scope.

Module Bits.

(** The mask to use for untagging a pointer: [!0x7]. *)
Definition UNTAG_MASK : Z := u_not 64 7.

Definition bit_is_set (pointer bit : Z) : R bool :=
  shifted ← u_shl1 64 bit;
  Ok (bool_decide (Z.land pointer shifted = shifted)).

Definition with_bit (pointer bit : Z) : R Z :=
  shifted ← u_shl1 64 bit;
  Ok (Z.lor pointer shifted).

Definition without_bit (pointer bit : Z) : R Z :=
  shifted ← u_shl1 64 bit;
  Ok (Z.land pointer (u_not 64 shifted)).

Definition untagged (pointer : Z) : Z := Z.land pointer UNTAG_MASK.

(** ** Bits of the results *)

Lemma UNTAG_MASK_spec i : 0 <= i →
  Z.testbit UNTAG_MASK i = (3 <=? i) && (i <? 64).
Proof.
  intros Hi. unfold UNTAG_MASK. rewrite u_not_spec by lia.
  change 7 with (Z.ones 3). rewrite Z.testbit_ones_nonneg by lia.
  destruct (Z.ltb_spec i 3), (Z.leb_spec 3 i), (Z.ltb_spec i 64); try done; lia.
Qed.

Lemma untagged_spec p i : 0 <= i →
  Z.testbit (untagged p) i = Z.testbit p i && (3 <=? i) && (i <? 64).
Proof.
  intros. unfold untagged. by rewrite Z.land_spec, UNTAG_MASK_spec, andb_assoc.
Qed.

Lemma bit_is_set_ok p b : 0 <= b < 64 → bit_is_set p b = Ok (Z.testbit p b).
Proof.
  intros Hb. unfold bit_is_set. rewrite u_shl1_ok by lia. cbn. f_equal.
  case_bool_decide as E.
  - assert (H : Z.testbit (Z.land p (Z.shiftl 1 b)) b = true).
    { rewrite E, bit1_spec by lia. by case_bool_decide. }
    rewrite Z.land_spec in H. by apply andb_true_iff in H as [-> _].
  - destruct (Z.testbit p b) eqn:Hp; [|done]. exfalso. apply E.
    apply Z.bits_inj'. intros i Hi. rewrite Z.land_spec, bit1_spec by lia.
    case_bool_decide; subst; [by rewrite Hp|apply andb_false_r].
Qed.

Lemma with_bit_ok p b : 0 <= b < 64 → with_bit p b = Ok (Z.lor p (Z.shiftl 1 b)).
Proof. intros. unfold with_bit. by rewrite u_shl1_ok by lia. Qed.

Lemma without_bit_ok p b : 0 <= b < 64 →
  without_bit p b = Ok (Z.land p (u_not 64 (Z.shiftl 1 b))).
Proof. intros. unfold without_bit. by rewrite u_shl1_ok by lia. Qed.

Lemma with_bit_bits p b i : 0 <= b → 0 <= i →
  Z.testbit (Z.lor p (Z.shiftl 1 b)) i = Z.testbit p i || bool_decide (i = b).
Proof. intros. by rewrite Z.lor_spec, bit1_spec. Qed.

Lemma without_bit_bits p b i : 0 <= b < 64 → 0 <= i → in_width 64 p →
  Z.testbit (Z.land p (u_not 64 (Z.shiftl 1 b))) i =
    Z.testbit p i && negb (bool_decide (i = b)).
Proof.
  intros Hb Hi Hp. rewrite Z.land_spec, u_not_spec, bit1_spec by lia.
  destruct (Z.ltb_spec i 64).
  - by rewrite xorb_true_r.
  - by rewrite (testbit_above 64) by (done || lia).
Qed.

End Bits.

Module TaggedPointer.
Import Bits.

(** [TaggedPointer<T>] wraps [raw : u64]; the model is that word. *)
Definition new (raw : Z) : Z := raw.
Definition with_bit (raw bit : Z) : R Z := Bits.with_bit (new raw) bit.
Definition null : Z := 0.
Definition untagged (self : Z) : Z := Bits.untagged self.
Definition set_bit_x (self : Z) (x : bool) (bit : Z) : R Z :=
  m ← u_shl1 64 bit;
  Ok (Z.lor (Z.land self (u_not 64 m)) (Z.shiftl (Z.b2z x) bit)).
Definition bit_is_set (self bit : Z) : R bool := Bits.bit_is_set self bit.
Definition toggle (self bit : Z) : R (bool * Z) :=
  x ← bit_is_set self bit;
  m ← u_shl1 64 bit;
  Ok (x, Z.lxor self m).
Definition clear_bit (self bit : Z) : R Z := Bits.without_bit self bit.
Definition without_tags (self : Z) : Z := new (untagged self).
Definition set_bit (self bit : Z) : R Z := Bits.with_bit self bit.
Definition is_null (self : Z) : bool := bool_decide (untagged self = 0).

Lemma b2z_bit x b i : 0 <= b → 0 <= i →
  Z.testbit (Z.shiftl (Z.b2z x) b) i = x && bool_decide (i = b).
Proof.
  intros. destruct x; cbn [Z.b2z andb].
  - by apply bit1_spec.
  - by rewrite Z.shiftl_0_l, Z.bits_0.
Qed.

Lemma set_bit_x_bits p x b p' i : 0 <= b < 64 → 0 <= i → in_width 64 p →
  set_bit_x p x b = Ok p' →
  Z.testbit p' i = if bool_decide (i = b) then x else Z.testbit p i.
Proof.
  intros Hb Hi Hp. unfold set_bit_x. rewrite u_shl1_ok by lia. cbn. intros [= <-].
  rewrite Z.lor_spec, without_bit_bits, b2z_bit by (done || lia).
  case_bool_decide; cbn [negb].
  - by rewrite andb_false_r, andb_true_r.
  - by rewrite andb_true_r, andb_false_r, orb_false_r.
Qed.

(** [set_bit_x] agrees with the commented-out branch it replaced: [set_bit] when
    [x], [clear_bit] otherwise. *)
Lemma set_bit_x_branch p x b : 0 <= b < 64 → in_width 64 p →
  set_bit_x p x b = if x then set_bit p b else clear_bit p b.
Proof.
  intros Hb Hp. unfold set_bit_x, set_bit, clear_bit.
  rewrite with_bit_ok, without_bit_ok, u_shl1_ok by lia. cbn.
  destruct x; f_equal; apply Z.bits_inj'; intros i Hi.
  - rewrite Z.lor_spec, without_bit_bits, with_bit_bits by (done || lia).
    rewrite (b2z_bit true) by lia. case_bool_decide; cbn [negb andb].
    + by rewrite !orb_true_r.
    + by rewrite andb_true_r.
  - rewrite Z.lor_spec, (b2z_bit false) by lia. apply orb_false_r.
Qed.

End TaggedPointer.

Module Rounding.

Definition round_down (x n : Z) : Z := Z.land x (u_not 64 n).

Definition round_up (x n : Z) : R Z :=
  s ← u_add 64 x n;
  d ← u_sub s 1;
  Ok (round_down d n).

(** object.rs: rounds [value] up to the nearest multiple of [align]. *)
Definition align_usize (value align : Z) : R Z :=
  if decide (align = 0) then Ok value
  else
    s ← u_add 64 value align;
    d ← u_sub s 1;
    u_mul 64 (d / align) align.

(** The ceiling the callers of [round_up] want. *)
Definition ceil_div (x n : Z) : Z := (x + n - 1) / n.

Lemma align_usize_ok v a : 0 < a → 0 <= v → v + a < 2 ^ 64 →
  align_usize v a = Ok (ceil_div v a * a).
Proof.
  intros. unfold align_usize, ceil_div. rewrite decide_False by lia.
  rewrite u_add_ok by done. cbn -[Z.pow]. rewrite u_sub_ok by lia. cbn -[Z.pow].
  assert ((v + a - 1) / a * a <= v + a - 1) by (Z.div_mod_to_equations; nia).
  apply u_mul_ok. lia.
Qed.

Lemma ceil_div_bounds v a : 0 < a → v <= ceil_div v a * a < v + a.
Proof. intros. unfold ceil_div. Z.div_mod_to_equations. nia. Qed.

Lemma ceil_div_mul k a : 0 < a → ceil_div (k * a) a = k.
Proof. intros. unfold ceil_div. Z.div_mod_to_equations. nia. Qed.

Lemma align_usize_aligned v a : 0 < a → 0 <= v → v + a < 2 ^ 64 → v mod a = 0 →
  align_usize v a = Ok v.
Proof.
  intros. rewrite align_usize_ok by done. f_equal.
  pose proof (Z.div_mod v a ltac:(lia)).
  replace v with (v / a * a) at 1 by lia. rewrite ceil_div_mul by done. lia.
Qed.

(** Clearing the single bit [2^k] of [d]. *)
Lemma round_down_pow2 d k : 0 <= k < 64 → in_width 64 d →
  round_down d (2 ^ k) = d - (if Z.testbit d k then 2 ^ k else 0).
Proof.
  intros Hk Hd. unfold round_down.
  rewrite <- (Z.shiftl_1_l k).
  assert (E : Z.land d (u_not 64 (Z.shiftl 1 k)) =
              Z.ldiff d (if Z.testbit d k then Z.shiftl 1 k else 0)).
  { apply Z.bits_inj'. intros i Hi.
    rewrite Bits.without_bit_bits, Z.ldiff_spec by (done || lia).
    destruct (Z.testbit d k) eqn:Ek.
    - by rewrite bit1_spec by lia.
    - rewrite Z.bits_0. case_bool_decide; subst; by rewrite ?Ek. }
  rewrite E. symmetry. apply Z.sub_nocarry_ldiff.
  destruct (Z.testbit d k) eqn:Ek; [|apply Z.ldiff_0_l].
  apply Z.bits_inj'. intros i Hi. rewrite Z.ldiff_spec, bit1_spec, Z.bits_0 by lia.
  case_bool_decide; subst; by rewrite ?Ek.
Qed.

(** What [round_up] computes for a power of two: the number of [2^k]-sized
    units it yields is the ceiling rounded down to an even number. *)
Lemma round_up_even x k r : 0 <= k < 64 → 0 <= x →
  round_up x (2 ^ k) = Ok r →
  r / 2 ^ k = 2 * (ceil_div x (2 ^ k) / 2).
Proof.
  intros Hk Hx. assert (Hp : 0 < 2 ^ k) by (apply Z.pow_pos_nonneg; lia).
  unfold round_up, u_add. case_decide as Hlt; [|done]. cbn -[Z.pow].
  rewrite u_sub_ok by lia. cbn -[Z.pow]. intros [= <-].
  rewrite round_down_pow2 by (unfold in_width; lia).
  unfold ceil_div. set (d := x + 2 ^ k - 1) in *.
  pose proof (Z.testbit_spec' d k ltac:(lia)) as Hb.
  assert (Hdiv : ∀ b : bool, (d - (if b then 2 ^ k else 0)) / 2 ^ k = d / 2 ^ k - Z.b2z b).
  { intros []; cbn [Z.b2z].
    - replace (d - 2 ^ k) with (d + (-1) * 2 ^ k) by lia.
      rewrite Z.div_add by lia. lia.
    - by rewrite !Z.sub_0_r. }
  rewrite Hdiv, Hb. Z.div_mod_to_equations. lia.
Qed.

End Rounding.

Module Address.

Definition from (val : Z) : Z := val.
Definition offset (self off : Z) : R Z := u_add 64 self off.
Definition sub (self off : Z) : R Z := u_sub self off.
Definition offset_from (self base : Z) : R Z :=
  if decide (base <= self) then u_sub self base else Panic AssertFailed.
Definition add_ptr (self words : Z) : R Z :=
  o ← u_mul 64 words word_bytes; u_add 64 self o.
Definition sub_ptr (self words : Z) : R Z :=
  o ← u_mul 64 words word_bytes; u_sub self o.
Definition null : Z := 0.
Definition is_null (self : Z) : bool := bool_decide (self = 0).
Definition is_non_null (self : Z) : bool := bool_decide (self ≠ 0).

End Address.

Module Region.

Record Region : Type := { start : Z; end_ : Z }.

Definition new (s e : Z) : R Region :=
  if decide (s <= e) then Ok {| start := s; end_ := e |} else Panic AssertFailed.
Definition region_start (self size : Z) : R Region :=
  e ← Address.offset self size; new self e.
Definition contains (r : Region) (a : Z) : bool :=
  bool_decide (start r <= a) && bool_decide (a < end_ r).
Definition valid_top (r : Region) (a : Z) : bool :=
  bool_decide (start r <= a) && bool_decide (a <= end_ r).
Definition size (r : Region) : R Z := u_sub (end_ r) (start r).
Definition empty (r : Region) : bool := bool_decide (start r = end_ r).
Definition disjunct (r o : Region) : bool :=
  bool_decide (end_ r <= start o) || bool_decide (start r >= end_ o).
Definition overlaps (r o : Region) : bool := negb (disjunct r o).
Definition fully_contains (r o : Region) : bool :=
  contains r (start o) && valid_top r (end_ o).

Lemma contains_spec r a : contains r a = true ↔ start r <= a < end_ r.
Proof. unfold contains. rewrite andb_true_iff, !bool_decide_eq_true. lia. Qed.

Lemma overlaps_spec r o : overlaps r o = true ↔ start o < end_ r ∧ start r < end_ o.
Proof.
  unfold overlaps, disjunct. rewrite negb_true_iff, orb_false_iff, !bool_decide_eq_false. lia.
Qed.

Lemma fully_contains_spec r o : fully_contains r o = true ↔
  (start r <= start o < end_ r) ∧ start r <= end_ o <= end_ r.
Proof.
  unfold fully_contains, contains, valid_top.
  rewrite !andb_true_iff, !bool_decide_eq_true. lia.
Qed.

End Region.
