(* ===== verification/Cells.v ===== *)
(** * util.rs: words shared between threads

    The atomic operations of [TaggedPointer], which look at its word as an [AtomicPtr],
    and [VolatileCell].  An operation is one step on the word.  [compare_exchange_weak]
    may fail although the word is the expected one; whether it does is an argument.
    References are addresses, and [None] is the reference to null. *)

From stdpp Require Import base numbers list list_numbers.
From Stdlib Require Import ZArith Lia.
From S2P Require Import Prelude Util.
Local Open Scope Z_scope.

Module TaggedCell.

(** ** References and traits *)

Definition as_ref (self : Z) : option Z := if decide (TaggedPointer.untagged self = 0) then None else Some (TaggedPointer.untagged self).
Definition as_mut (self : Z) : option Z := if decide (TaggedPointer.untagged self = 0) then None else Some (TaggedPointer.untagged self).
Definition eq (self other : Z) : bool := bool_decide (self = other).
Definition clone (self : Z) : Z := TaggedPointer.new self.
(** [H::write_u64] is the hasher's. *)
Definition hash {H} (write_u64 : H → Z → H) (self : Z) (state : H) : H := write_u64 state self.

(** ** Atomic access *)

Definition atomic_load (self : Z) : Z := self.
Definition atomic_store (self other : Z) : Z := other.
Definition atomic_bit_is_set (self bit : Z) : R bool := TaggedPointer.bit_is_set (TaggedPointer.new (atomic_load self)) bit.

(** [AtomicPtr::compare_exchange_weak]: the old word as [inl] on success, as [inr]
    otherwise, and the word afterwards. *)
Definition compare_exchange_weak (spurious : bool) (self current other : Z) : (Z + Z) * Z :=
  if decide (self = current ∧ spurious = false) then (inl self, other) else (inr self, self).

Definition compare_and_swap (spurious : bool) (self current other : Z) : bool * Z :=
  let '(r, self') := compare_exchange_weak spurious self current other in
  (bool_decide (r = inl current), self').

(** ** Threads that compete for the word *)

(** Calls of [compare_and_swap] in the order in which they take effect, each with the new
    word and whether it fails spuriously; their results. *)
Fixpoint compete (self current : Z) (calls : list (Z * bool)) : list bool * Z :=
  match calls with
  | [] => ([], self)
  | (other, spurious) :: calls' =>
      let '(r, self1) := compare_and_swap spurious self current other in
      let '(rs, self2) := compete self1 current calls' in
      (r :: rs, self2)
  end.

Lemma compete_lost self current calls : self ≠ current →
  compete self current calls = (replicate (length calls) false, self).
Proof.
  intros Hne. induction calls as [|[o s] calls IH]; [done|]. cbn [compete compare_and_swap].
  unfold compare_and_swap, compare_exchange_weak. rewrite decide_False by tauto. rewrite IH. cbn. by rewrite bool_decide_eq_false_2.
Qed.

End TaggedCell.

(** ** [VolatileCell] *)

Module VolatileCell.

(** The cell is its contents; [as_ptr] is the address of the cell. *)
Definition new {T} (value : T) : T := value.
Definition get {T} (self : T) : T := self.
Definition set {T} (self value : T) : T := value.
Definition as_ptr (address : Z) : Z := address.

End VolatileCell.

(** ** [Address] *)

Module AddressOrd.

Definition to_usize (self : Z) : Z := self.
Definition from_ptr (ptr : Z) : Z := ptr.
Definition to_ptr (self : Z) : Z := self.
Definition to_mut_ptr (self : Z) : Z := self.
Definition cmp (self other : Z) : comparison := Z.compare (to_usize self) (to_usize other).
Definition partial_cmp (self other : Z) : option comparison := Some (cmp self other).
Definition from (val : Z) : Z := val.

End AddressOrd.

(** [Region::default] *)
Definition Region_default : Region.Region := {| Region.start := Address.null; Region.end_ := Address.null |}.

(** ** Properties *)

(** Of the threads that [compare_and_swap] a word from the same expected value, one
    wins: the first whose call does not fail spuriously returns true and its value stays,
    all others return false; if all fail spuriously the word is as it was. *)
Theorem cas_one_winner current calls : Forall (λ c, c.1 ≠ current) calls →
  let '(results, self') := TaggedCell.compete current current calls in
  (∃ i other, calls !! i = Some (other, false) ∧ (∀ j c, (j < i)%nat → calls !! j = Some c → c.2 = true) ∧ self' = other ∧
     ∀ j r, results !! j = Some r → r = bool_decide (j = i)) ∨
  (Forall (λ c, c.2 = true) calls ∧ self' = current ∧ Forall (λ r, r = false) results).
Proof.
  induction calls as [|[other []] calls IH]; intros Hne; [right; by split_and!; constructor|..];
    apply Forall_cons in Hne as [Hno Hne]; cbn [TaggedCell.compete]; unfold TaggedCell.compare_and_swap, TaggedCell.compare_exchange_weak.
  - rewrite decide_False by (intros [_ ?]; done). specialize (IH Hne).
    destruct (TaggedCell.compete current current calls) as [rs self2]. rewrite bool_decide_eq_false_2 by done.
    destruct IH as [(i & o & Hi & Hb & -> & Hr)|(Ha & -> & Hr)]; [left|right; split_and!; try done; by constructor].
    exists (S i), o. split_and!; try done.
    + intros [|j] c Hj Hc; [by injection Hc as <-|]. apply (Hb j c); [lia|exact Hc].
    + intros [|j] r Hjr; [injection Hjr as <-; by rewrite bool_decide_eq_false_2|].
      cbn in Hjr. rewrite (Hr j r Hjr). apply bool_decide_ext. lia.
  - rewrite decide_True by done. cbn in Hno. rewrite TaggedCell.compete_lost by done. rewrite bool_decide_eq_true_2 by done.
    left. exists 0%nat, other. split_and!; try done; [intros j c Hj; lia|].
    intros [|j] r Hjr; [by injection Hjr as <-|]. cbn in Hjr. apply lookup_replicate in Hjr as [-> _]. by rewrite bool_decide_eq_false_2.
Qed.

Lemma cas_one_winner_witness : TaggedCell.compete 8 8 [(16, true); (24, false); (32, false)] = ([false; true; false], 24) ∧
  ∃ i, ([(16, true); (24, false); (32, false)] : list (Z * bool)) !! i = Some (24, false).
Proof.
  split; [reflexivity|]. pose proof (cas_one_winner 8 [(16, true); (24, false); (32, false)]) as Hc.
  destruct Hc as [(i & o & Hi & _ & E & _)|(_ & E & _)]; [vm_decide| |discriminate E].
  vm_compute in E. subst o. exists i. exact Hi.
Defined.
