(* ===== verification/LibcAlloc.v ===== *)
(** * util.rs: the allocator over malloc

    [LibcAlloc] implements the trait [Allocator] for vectors and for large objects.
    [CHeap] is what it relies on of the C library: the blocks that are live, with their
    sizes; [None] as a result stands for undefined behaviour, such as freeing what is not
    live.  A layout is its size and alignment. *)

From stdpp Require Import base numbers list list_numbers gmap relations.
From Stdlib Require Import ZArith Lia.
From S2P Require Import Prelude.
Local Open Scope Z_scope.

Class CHeap (H : Type) : Type := {
  live : H → gmap Z Z;
  malloc : H → Z → Z * H;
  free : H → Z → option H;
  realloc : H → Z → Z → option (Z * H)
}.

(** A request for [n] bytes is met with a block at [p], or fails and changes nothing. *)
Definition granted (before after : gmap Z Z) (rest : gmap Z Z) (p n : Z) : Prop :=
  (p = 0 ∧ after = before) ∨ (p ≠ 0 ∧ p mod 16 = 0 ∧ rest !! p = None ∧ after = <[p := n]> rest).

Class CHeapLaws (H : Type) `{CHeap H} : Prop := {
  malloc_law : ∀ h n p h', 0 < n → malloc h n = (p, h') → granted (live h) (live h') (live h) p n;
  free_law : ∀ h p n, live h !! p = Some n → ∃ h', free h p = Some h' ∧ live h' = delete p (live h);
  realloc_law : ∀ h p n m, live h !! p = Some n → 0 < m →
    ∃ q h', realloc h p m = Some (q, h') ∧ granted (live h) (live h') (delete p (live h)) q m
}.

(** A heap that always finds a multiple of 16 that is not in use. *)
Definition unused (m : gmap Z Z) : Z := 16 * fresh ({[0]} ∪ set_map (λ p, p / 16) (dom m) : gset Z).

Lemma unused_ok m : unused m ≠ 0 ∧ unused m mod 16 = 0 ∧ m !! unused m = None.
Proof.
  unfold unused. set (q := fresh _). assert (Hq : q ∉ ({[0]} ∪ set_map (λ p, p / 16) (dom m) : gset Z)) by apply is_fresh.
  split_and!; [intros E; apply Hq; assert (q = 0) by lia; set_solver|by rewrite Z.mul_comm, Z.mod_mul|].
  apply not_elem_of_dom. intros Hin. apply Hq. apply elem_of_union_r, elem_of_map. exists (16 * q). split; [|done].
  by rewrite Z.mul_comm, Z.div_mul.
Qed.

#[global] Instance endless : CHeap (gmap Z Z) := {
  live := id;
  malloc := λ m n, (unused m, <[unused m := n]> m);
  free := λ m p, _ ← m !! p; Some (delete p m);
  realloc := λ m p n, _ ← m !! p; let q := unused (delete p m) in Some (q, <[q := n]> (delete p m))
}.
#[global] Instance endless_laws : CHeapLaws (gmap Z Z).
Proof.
  constructor; cbn.
  - intros m n p m' _ [= <- <-]. right. destruct (unused_ok m) as (? & ? & ?). done.
  - intros m p n ->. cbn. by eexists.
  - intros m p n k -> _. cbn. eexists _, _. split; [done|]. right. destruct (unused_ok (delete p m)) as (? & ? & ?). done.
Qed.

Module LibcAlloc.

Record Layout : Type := mkLayout { size : Z; align : Z }.

Section Ops.
Context {H : Type} `{CHeap H}.

(** [Ok(ptr, size)] or [Err(AllocError)]; [layout.dangling()] is the alignment. *)
Definition allocate (h : H) (layout : Layout) : option (Z * Z) * H :=
  if decide (size layout = 0) then (Some (align layout, 0), h)
  else
    let '(raw_ptr, h') := malloc h (size layout) in
    (if decide (raw_ptr = 0) then None else Some (raw_ptr, size layout), h').

Definition deallocate (h : H) (ptr : Z) (layout : Layout) : option H :=
  if decide (size layout ≠ 0) then free h ptr else Some h.

Definition grow (h : H) (ptr : Z) (old_layout new_layout : Layout) : option (option (Z * Z) * H) :=
  if decide (size old_layout = 0) then Some (allocate h new_layout)
  else
    '(raw_ptr, h') ← realloc h ptr (size new_layout);
    Some (if decide (raw_ptr = 0) then None else Some (raw_ptr, size new_layout), h').

(** ** Use by containers that keep to the contract of the trait

    [own] are the allocations a container has, with the layouts they were made for. *)

Inductive step : H * list (Z * Layout) → H * list (Z * Layout) → Prop :=
| step_allocate h h' own l r : 0 <= size l → allocate h l = (r, h') →
    step (h, own) (h', match r with Some (p, _) => (p, l) :: own | None => own end)
| step_deallocate h h' own own' p l : own ≡ₚ (p, l) :: own' → deallocate h p l = Some h' → step (h, own) (h', own')
| step_grow h h' own own' p l l' r : own ≡ₚ (p, l) :: own' → size l <= size l' → grow h p l l' = Some (r, h') →
    step (h, own) (h', match r with Some (q, _) => (q, l') :: own' | None => (p, l) :: own' end).

(** The allocations with memory behind them. *)
Definition sized (own : list (Z * Layout)) : list (Z * Z) :=
  (λ a : Z * Layout, (a.1, size a.2)) <$> filter (λ a : Z * Layout, size a.2 ≠ 0) own.

(** What is live is what is owned. *)
Definition inv (h : H) (own : list (Z * Layout)) : Prop :=
  live h = list_to_map (sized own) ∧ NoDup (sized own).*1 ∧ Forall (λ a : Z * Layout, 0 <= size a.2) own.

Context `{!CHeapLaws H}.

Lemma sized_cons p l own : sized ((p, l) :: own) = if decide (size l ≠ 0) then (p, size l) :: sized own else sized own.
Proof. unfold sized. rewrite filter_cons. cbn. by case_decide. Qed.

Lemma owned_perm h own own' : own ≡ₚ own' → inv h own → inv h own'.
Proof.
  intros Hp (El & Hnd & Hs). assert (Hq : sized own ≡ₚ sized own') by (unfold sized; by rewrite Hp).
  split_and!; [|by rewrite <-Hq|by rewrite <-Hp]. rewrite El. by apply list_to_map_proper.
Qed.

(** An allocation of size 0 has no memory. *)
Lemma inv_empty h own p l : size l = 0 → inv h ((p, l) :: own) ↔ inv h own.
Proof.
  intros Hl. unfold inv. rewrite sized_cons, decide_False by (by intros ?). rewrite Forall_cons. cbn.
  assert (0 <= size l) by lia. tauto.
Qed.

(** A block granted on top of what is owned. *)
Lemma granted_inv h h' own p l : inv h own → 0 < size l → granted (live h) (live h') (live h) p (size l) →
  if decide (p = 0) then inv h' own else inv h' ((p, l) :: own).
Proof.
  intros (El & Hnd & Hs) Hl [[-> E]|(Hp & _ & Hn & E)]; [by rewrite decide_True by done; rewrite <-E in El|].
  rewrite decide_False by done. unfold inv. rewrite sized_cons, decide_True by lia. cbn. rewrite E, El.
  split_and!; [done| |constructor; [cbn; lia|done]]. apply NoDup_cons. split; [|done].
  rewrite El in Hn. by apply not_elem_of_list_to_map.
Qed.

Lemma allocate_inv h h' own l r : inv h own → 0 <= size l → allocate h l = (r, h') →
  inv h' (match r with Some (p, _) => (p, l) :: own | None => own end).
Proof.
  intros Hi Hl. unfold allocate. case_decide as C.
  - intros [= <- <-]. by apply inv_empty.
  - destruct (malloc h (size l)) as [p h1] eqn:E. intros [= <- <-].
    assert (Hpos : 0 < size l) by lia.
    pose proof (granted_inv h h1 own p l Hi Hpos (malloc_law _ _ _ _ Hpos E)) as Hg. by case_decide.
Qed.

(** The owner of a block with memory can take it out. *)
Lemma owned_live h own p l : inv h ((p, l) :: own) → size l ≠ 0 →
  live h !! p = Some (size l) ∧ delete p (live h) = list_to_map (sized own) ∧ NoDup (sized own).*1 ∧
  Forall (λ a : Z * Layout, 0 <= size a.2) own.
Proof.
  intros (El & Hnd & Hs) Hl. rewrite sized_cons, decide_True in El, Hnd by done. cbn in *.
  apply NoDup_cons in Hnd as [Hn Hnd]. apply Forall_cons in Hs as [_ Hs].
  rewrite El. split_and!; [apply lookup_insert_eq| |done|done]. rewrite delete_insert_eq. apply delete_id.
  by apply not_elem_of_list_to_map.
Qed.

Lemma deallocate_inv h own p l : inv h ((p, l) :: own) → ∃ h', deallocate h p l = Some h' ∧ inv h' own.
Proof.
  intros Hi. unfold deallocate. case_decide as C.
  - destruct (owned_live h own p l Hi C) as (Ep & Ed & Hnd & Hs). destruct (free_law h p _ Ep) as (h' & Ef & El).
    exists h'. split; [done|]. unfold inv. by rewrite El.
  - exists h. split; [done|]. by apply (inv_empty h own p l C).
Qed.

Lemma grow_inv h own p l l' : inv h ((p, l) :: own) → size l <= size l' → ∃ r h', grow h p l l' = Some (r, h') ∧
  inv h' (match r with Some (q, _) => (q, l') :: own | None => (p, l) :: own end).
Proof.
  intros Hi Hl. assert (Hpos : 0 <= size l) by (destruct Hi as (_ & _ & [Hs _]%Forall_cons); done).
  unfold grow. case_decide as C.
  - destruct (allocate h l') as [r h'] eqn:E. exists r, h'. split; [done|].
    apply (inv_empty h own p l C) in Hi. pose proof (allocate_inv h h' own l' r Hi ltac:(lia) E) as Ha.
    destruct r as [[q n]|]; [done|by apply inv_empty].
  - destruct (owned_live h own p l Hi C) as (Ep & Ed & Hnd & Hs).
    destruct (realloc_law h p _ (size l') Ep ltac:(lia)) as (q & h' & E & Hg). rewrite E. cbn.
    eexists _, h'. split; [done|]. destruct Hg as [[-> El]|(Hq & _ & Hn & El)].
    + rewrite decide_True by done. unfold inv. by rewrite El.
    + rewrite decide_False by done. unfold inv. rewrite sized_cons, decide_True by lia. cbn. rewrite El, Ed.
      split_and!; [done| |constructor; [cbn; lia|done]]. apply NoDup_cons. split; [|done].
      rewrite Ed in Hn. by apply not_elem_of_list_to_map.
Qed.

Lemma owned_reachable h0 h own : live h0 = ∅ → rtc step (h0, []) (h, own) → inv h own.
Proof.
  intros Hem Hr. change (inv (h, own).1 (h, own).2).
  refine (rtc_ind_r (λ s : H * list (Z * Layout), inv s.1 s.2) _ _ _ _ Hr); [split_and!; [done|constructor|constructor]|].
  intros y z _ Hst Hi. destruct Hst as [h1 h2 o l r Hl E|h1 h2 o o' p l Hp E|h1 h2 o o' p l l' r Hp Hl E]; cbn in *.
  - by eapply allocate_inv.
  - destruct (deallocate_inv h1 o' p l) as (h' & E' & Hi'); [by eapply owned_perm|]. by rewrite E in E'; simplify_eq.
  - destruct (grow_inv h1 o' p l l') as (r' & h' & E' & Hi'); [by eapply owned_perm|done|]. by rewrite E in E'; simplify_eq.
Qed.

(** ** Properties *)

(** [LibcAlloc] neither leaks nor frees twice: for containers that keep to the contract
    of [Allocator], the blocks live in the C heap are at any time exactly the allocations
    of non-zero size that are owned, with their sizes, and every [deallocate] and [grow]
    of an owned allocation is defined. *)
Theorem libc_alloc_accounting h0 h own : live h0 = ∅ → rtc step (h0, []) (h, own) →
  (∀ p n, live h !! p = Some n ↔ n ≠ 0 ∧ ∃ a, (p, mkLayout n a) ∈ own) ∧
  (∀ p l own', own ≡ₚ (p, l) :: own' → (∃ h', deallocate h p l = Some h') ∧
     ∀ l', size l <= size l' → ∃ r, grow h p l l' = Some r).
Proof.
  intros Hem Hr. pose proof (owned_reachable h0 h own Hem Hr) as Hi. split.
  - destruct Hi as (-> & Hnd & _). intros p n. rewrite <-elem_of_list_to_map by done. unfold sized.
    rewrite list_elem_of_fmap. setoid_rewrite list_elem_of_filter. split.
    + intros ([q [m a]] & [= -> ->] & ? & ?). eauto.
    + intros (Hn & a & Ha). by exists (p, mkLayout n a).
  - intros p l own' Hp. assert (Hi' : inv h ((p, l) :: own')) by (by eapply owned_perm). split.
    + destruct (deallocate_inv h own' p l Hi') as (h' & E & _). eauto.
    + intros l' Hl. destruct (grow_inv h own' p l l' Hi' Hl) as (r & h' & E & _). eauto.
Qed.

End Ops.

Lemma libc_alloc_accounting_witness : ∃ (h : gmap Z Z) p, rtc step (∅, []) (h, [(p, mkLayout 64 8); (1, mkLayout 0 1)]) ∧
  live h !! p = Some 64 ∧ ∃ h', deallocate h p (mkLayout 64 8) = Some h'.
Proof.
  assert (Hr : ∃ (h : gmap Z Z) p, rtc step (∅, []) (h, [(p, mkLayout 64 8); (1, mkLayout 0 1)])).
  { eexists _, _. eapply rtc_l; [eapply (step_allocate _ _ _ (mkLayout 0 1)); [cbn; lia|reflexivity]|].
    eapply rtc_once. eapply (step_allocate _ _ _ (mkLayout 64 8) (Some (unused ∅, 64))); [cbn; lia|].
    unfold allocate. rewrite decide_False by discriminate. cbn [malloc endless].
    rewrite decide_False by apply unused_ok. reflexivity. }
  destruct Hr as (h & p & Hr). exists h, p. split; [exact Hr|].
  destruct (libc_alloc_accounting (∅ : gmap Z Z) h [(p, mkLayout 64 8); (1, mkLayout 0 1)]) as [Hl Hd]; [reflexivity|exact Hr|]. split.
  - apply Hl. split; [lia|]. exists 8. left.
  - apply (Hd p _ [(1, mkLayout 0 1)]). reflexivity.
Defined.
End LibcAlloc.
