(* ===== verification/Bitmap.v ===== *)
(** * util/bitmap_const.rs: the fixed-size bitmap generated by [space_bitmap_gen!]

    [Words] holds what every bitmap of the program shares: a bitmap is a list of
    64-bit words, granule [i] is bit [i mod 64] of word [i / 64].  [BitmapConst]
    translates the macro, whose two parameters are the granule size [align] and
    the size of the region covered; [LineMap] of block.rs is its instance. *)

From stdpp Require Import base numbers list list_numbers.
From Stdlib Require Import ZArith Lia Btauto.
From S2P Require Import Prelude Util.
Local Open Scope Z_scope.

Module Words.

(** Number of trailing zero bits of a 64-bit word ([usize::trailing_zeros]). *)
Fixpoint pos_trailing_zeros (p : positive) : Z :=
  match p with
  | xO q => 1 + pos_trailing_zeros q
  | _ => 0
  end.
Definition trailing_zeros (w : Z) : Z :=
  match w with Zpos p => pos_trailing_zeros p | _ => 64 end.

(** The [while { visitor(..); w ^= 1 << shift; w != 0 } {}] loop over the set
    bits of a non-zero word; the result is the sequence of visitor calls. *)
Fixpoint visit_word (fuel : nat) (align ptr_base w : Z) : R (list Z) :=
  match fuel with
  | O => NoFuel
  | S fuel' =>
      let shift := trailing_zeros w in
      let obj := ptr_base + shift * align in
      m ← u_shl1 64 shift;
      let w' := Z.lxor w m in
      if decide (w' ≠ 0) then
        rest ← visit_word fuel' align ptr_base w'; Ok (obj :: rest)
      else Ok [obj]
  end.

(** The indices of the set bits of [w] from [k] up, in increasing order. *)
Definition bits_from (w k : Z) : list Z :=
  filter (λ i, Z.testbit w i = true) (seqZ k (64 - k)).

(** Granule [i] of a list of words. *)
Definition bit (bm : list Z) (i : Z) : bool :=
  Z.testbit (default 0 (bm !! Z.to_nat (i / 64))) (i mod 64).
Definition wf (bm : list Z) : Prop := Forall (in_width 64) bm.
Definition capacity (bm : list Z) : Z := 64 * Z.of_nat (length bm).

Lemma idx_ok bm i : 0 <= i < Z.of_nat (length bm) →
  idx bm i = Ok (default 0 (bm !! Z.to_nat i)).
Proof.
  intros Hi. unfold idx. rewrite decide_True by lia.
  destruct (bm !! Z.to_nat i) eqn:E; [done|].
  apply lookup_ge_None in E. lia.
Qed.

Lemma idx_oob bm i : Z.of_nat (length bm) <= i → idx (A:=Z) bm i = Panic IndexOutOfBounds.
Proof.
  intros Hi. unfold idx. rewrite decide_True by lia.
  by rewrite (proj2 (lookup_ge_None _ _)) by lia.
Qed.

Lemma upd_ok (bm : list Z) i w : 0 <= i < Z.of_nat (length bm) →
  upd bm i w = Ok (<[Z.to_nat i := w]> bm).
Proof. intros. unfold upd. by rewrite decide_True. Qed.

Lemma wf_word bm i : wf bm → in_width 64 (default 0 (bm !! i)).
Proof.
  intros Hw. destruct (bm !! i) eqn:E; cbn.
  - by eapply (Forall_lookup_1 (in_width 64)).
  - split; [lia|done].
Qed.

Lemma wf_insert bm i w : wf bm → in_width 64 w → wf (<[i := w]> bm).
Proof. intros. by apply Forall_insert. Qed.

Lemma bit_insert bm k w j : (k < length bm)%nat → 0 <= j →
  bit (<[k := w]> bm) j = if decide (Z.to_nat (j / 64) = k) then Z.testbit w (j mod 64) else bit bm j.
Proof.
  intros Hk Hj. unfold bit. case_decide as E.
  - rewrite E. by rewrite list_lookup_insert_eq.
  - by rewrite list_lookup_insert_ne.
Qed.

(** [(w & mask) != 0] for a one-bit mask. *)
Lemma land_mask_nz w k : 0 <= k →
  bool_decide (Z.land w (Z.shiftl 1 k) ≠ 0) = Z.testbit w k.
Proof.
  intros Hk. destruct (Z.testbit w k) eqn:E.
  - apply bool_decide_eq_true. intros H.
    assert (C : Z.testbit (Z.land w (Z.shiftl 1 k)) k = true).
    { rewrite Z.land_spec, E, bit1_spec by lia. by case_bool_decide. }
    by rewrite H, Z.bits_0 in C.
  - apply bool_decide_eq_false. intros H. apply H.
    apply Z.bits_inj'. intros i Hi. rewrite Z.land_spec, bit1_spec, Z.bits_0 by lia.
    case_bool_decide; subst; by rewrite ?E, ?andb_false_r.
Qed.

Lemma land_mask_z w k : 0 <= k →
  bool_decide (Z.land w (Z.shiftl 1 k) = 0) = negb (Z.testbit w k).
Proof.
  intros. rewrite <- land_mask_nz by done. repeat case_bool_decide; done.
Qed.

Lemma in_width_lor a b : in_width 64 a → in_width 64 b → in_width 64 (Z.lor a b).
Proof.
  intros Ha Hb. apply in_width_bits; [lia|apply Z.lor_nonneg; split; apply Ha || apply Hb|].
  intros i Hi. rewrite Z.lor_spec, !(testbit_above 64) by (done || lia). done.
Qed.

Lemma in_width_land a b : in_width 64 a → 0 <= b → in_width 64 (Z.land a b).
Proof.
  intros Ha Hb. apply in_width_bits; [lia|apply Z.land_nonneg; left; apply Ha|].
  intros i Hi. rewrite Z.land_spec, (testbit_above 64 a) by (done || lia). done.
Qed.

Lemma in_width_bit1 k : 0 <= k < 64 → in_width 64 (Z.shiftl 1 k).
Proof.
  intros. rewrite Z.shiftl_1_l. split; [apply Z.pow_nonneg; lia|].
  apply Z.pow_lt_mono_r; lia.
Qed.

Lemma u_not_nonneg x : 0 <= x → 0 <= u_not 64 x.
Proof. intros. unfold u_not. apply Z.lxor_nonneg. split; [done|]. intros. lia || done. Qed.

(** Setting and clearing granule [i] word-wise. *)
Lemma bit_set_word bm i j : 0 <= i < capacity bm → 0 <= j →
  bit (<[Z.to_nat (i / 64) := Z.lor (default 0 (bm !! Z.to_nat (i / 64))) (Z.shiftl 1 (i mod 64))]> bm) j
  = bit bm j || bool_decide (j = i).
Proof.
  unfold capacity. intros Hi Hj. pose proof (Z.mod_pos_bound j 64). pose proof (Z.mod_pos_bound i 64).
  rewrite bit_insert by (Z.div_mod_to_equations; lia). case_decide as E.
  - rewrite Z.lor_spec, bit1_spec by lia. unfold bit. rewrite E. f_equal.
    apply bool_decide_ext. split; intros; subst; [|done].
    apply Z2Nat.inj in E; Z.div_mod_to_equations; lia.
  - rewrite bool_decide_eq_false_2 by congruence. by rewrite orb_false_r.
Qed.

Lemma bit_clear_word bm i j : wf bm → 0 <= i < capacity bm → 0 <= j →
  bit (<[Z.to_nat (i / 64) := Z.land (default 0 (bm !! Z.to_nat (i / 64))) (u_not 64 (Z.shiftl 1 (i mod 64)))]> bm) j
  = bit bm j && negb (bool_decide (j = i)).
Proof.
  unfold capacity. intros Hw Hi Hj. pose proof (Z.mod_pos_bound j 64). pose proof (Z.mod_pos_bound i 64).
  rewrite bit_insert by (Z.div_mod_to_equations; lia). case_decide as E.
  - rewrite Bits.without_bit_bits by (try apply wf_word; done || lia). unfold bit. rewrite E. do 2 f_equal.
    apply bool_decide_ext. split; intros; subst; [|done].
    apply Z2Nat.inj in E; Z.div_mod_to_equations; lia.
  - rewrite bool_decide_eq_false_2 by congruence. by rewrite andb_true_r.
Qed.

(** A negative index reads the first word. *)
Lemma bit_neg bm i : i < 0 → bit bm i = bit bm (i mod 64).
Proof.
  intros Hi. pose proof (Z.mod_pos_bound i 64 ltac:(lia)). unfold bit. rewrite Z.mod_mod, (Z.div_small (i mod 64)) by lia.
  by rewrite (Z2Nat.nonpos (i / 64)) by (Z.div_mod_to_equations; lia).
Qed.

Lemma bit_zeros n i : bit (replicate n 0) i = false.
Proof.
  unfold bit. destruct (replicate n 0 !! _) eqn:E; cbn.
  - apply lookup_replicate in E as [-> _]. apply Z.bits_0.
  - apply Z.bits_0.
Qed.

Lemma wf_zeros n : wf (replicate n 0).
Proof. apply Forall_replicate. split; [lia|done]. Qed.

(** A word is zero exactly when all its 64 granules are clear. *)
Lemma word_zero w : in_width 64 w → (∀ k, 0 <= k < 64 → Z.testbit w k = false) → w = 0.
Proof.
  intros Hw Hk. apply Z.bits_inj'. intros i Hi. rewrite Z.bits_0.
  destruct (Z.lt_ge_cases i 64); [by apply Hk; lia|]. apply (testbit_above 64); done || lia.
Qed.

Lemma trailing_zeros_lt w i : 0 < w → i < trailing_zeros w → Z.testbit w i = false.
Proof.
  destruct w as [|p|p]; try lia. intros _. cbn [trailing_zeros].
  revert i. induction p as [p IH|p IH|]; cbn [pos_trailing_zeros]; intros i Hi.
  - by apply Z.testbit_neg_r.
  - destruct (Z.lt_ge_cases i 0); [by apply Z.testbit_neg_r|].
    rewrite Pos2Z.inj_xO. destruct (Z.eq_dec i 0) as [->|]; [apply Z.testbit_even_0|].
    rewrite <- (IH (i - 1)) by lia. replace i with (Z.succ (i - 1)) at 1 by lia.
    apply Z.testbit_even_succ. lia.
  - by apply Z.testbit_neg_r.
Qed.

Lemma trailing_zeros_set w : 0 < w → 0 <= trailing_zeros w ∧ Z.testbit w (trailing_zeros w) = true.
Proof.
  destruct w as [|p|p]; try lia. intros _. cbn [trailing_zeros].
  induction p as [p IH|p [IH0 IH]|]; cbn [pos_trailing_zeros]; try (split; done || lia).
  split; [lia|]. rewrite Pos2Z.inj_xO, Z.add_1_l, Z.testbit_even_succ by lia. done.
Qed.

Lemma trailing_zeros_bound w : 0 < w → in_width 64 w → trailing_zeros w < 64.
Proof.
  intros Hw Hb. destruct (trailing_zeros_set w Hw) as [_ E].
  destruct (Z.lt_ge_cases (trailing_zeros w) 64); [done|].
  rewrite (testbit_above 64) in E; done || lia.
Qed.

(** Dropping the lowest set bit drops the head of [bits_from]. *)
Lemma bits_from_step w k : 0 < w → in_width 64 w → 0 <= k →
  (∀ i, 0 <= i < k → Z.testbit w i = false) →
  let t := trailing_zeros w in
  k <= t ∧ bits_from w k = t :: bits_from (Z.lxor w (Z.shiftl 1 t)) (t + 1).
Proof.
  intros Hw Hb Hk Hlow t. destruct (trailing_zeros_set w Hw) as [H0 Ht].
  pose proof (trailing_zeros_bound w Hw Hb) as H64. fold t in H0, Ht, H64.
  assert (Hkt : k <= t).
  { destruct (Z.le_gt_cases k t); [done|]. by rewrite Hlow in Ht by lia. }
  split; [done|]. unfold bits_from.
  replace (64 - k) with ((t - k) + (64 - t)) by lia.
  rewrite seqZ_app, filter_app by lia. replace (k + (t - k)) with t by lia.
  rewrite (seqZ_cons t) by lia. rewrite filter_cons_True by done.
  rewrite (filter_none _ (seqZ k (t - k))); cbn [app].
  - f_equal. replace (Z.pred (64 - t)) with (64 - (t + 1)) by lia.
    apply filter_ext_in. intros i Hi%elem_of_seqZ.
    rewrite Z.lxor_spec, bit1_spec by lia. rewrite bool_decide_eq_false_2 by lia.
    by rewrite xorb_false_r.
  - intros i Hi%elem_of_seqZ. rewrite (trailing_zeros_lt w i) by (done || (unfold t in *; lia)).
    done.
Qed.

Lemma bits_from_0 k : bits_from 0 k = [].
Proof. apply filter_none. intros i _. by rewrite Z.bits_0. Qed.

Lemma lxor_bit_width w t : in_width 64 w → 0 <= t < 64 → in_width 64 (Z.lxor w (Z.shiftl 1 t)).
Proof.
  intros Hw Ht. pose proof (in_width_bit1 t Ht) as [? ?].
  apply in_width_bits; [lia| |].
  - apply Z.lxor_nonneg. unfold in_width in *. tauto.
  - intros i Hi. rewrite Z.lxor_spec, !(testbit_above 64) by (done || lia). done.
Qed.

(** The bit loop visits the set bits of the word in increasing order; 64 rounds
    are enough. *)
Lemma visit_word_spec align base fuel w k : 0 < w → in_width 64 w → 0 <= k →
  (∀ i, 0 <= i < k → Z.testbit w i = false) → 64 - k <= Z.of_nat fuel →
  visit_word fuel align base w = Ok ((λ i, base + i * align) <$> bits_from w k).
Proof.
  revert w k. induction fuel as [|fuel IH]; intros w k Hw Hb Hk Hlow Hf.
  - rewrite (word_zero w) in Hw; [lia|done|]. intros. apply Hlow. lia.
  - cbn [visit_word]. destruct (bits_from_step w k Hw Hb Hk Hlow) as [Hkt ->].
    pose proof (trailing_zeros_bound w Hw Hb) as H64. set (t := trailing_zeros w) in *.
    rewrite u_shl1_ok by done. cbn [mbind R_bind]. cbn [fmap list_fmap].
    pose proof (lxor_bit_width w t Hb ltac:(lia)) as Hb'.
    case_decide as Hz.
    + rewrite (IH _ (t + 1)); try done; try (unfold in_width in *; lia).
      intros i Hi. rewrite Z.lxor_spec, bit1_spec by lia.
      case_bool_decide as E; [subst i; unfold t; by rewrite (proj2 (trailing_zeros_set w Hw))|].
      rewrite trailing_zeros_lt; [done|done|unfold t in *; lia].
    + by rewrite Hz, bits_from_0.
Qed.

(** All the set granules of word [i], as addresses from [base]. *)
Lemma visit_word_all align base w : w ≠ 0 → in_width 64 w →
  visit_word 64 align base w = Ok ((λ i, base + i * align) <$> bits_from w 0).
Proof.
  intros Hz Hb. apply visit_word_spec; try done; try lia. unfold in_width in Hb. lia.
Qed.

End Words.

Module BitmapConst.
Import Words Rounding.

Section Macro.
(** The macro's [$align] and [$region_size]. *)
Context (align region_size : Z).

Definition BITMAP_SIZE : R Z :=
  let bytes_covered_per_word := align * (word_bytes * 8) in
  r ← round_up region_size bytes_covered_per_word;
  Ok (r / bytes_covered_per_word * word_bytes).

Definition offset_bit_index (offset : Z) : Z := (offset / align) mod (word_bytes * 8).
Definition offset_to_index (offset : Z) : Z := offset / align / (word_bytes * 8).
Definition index_to_offset (index : Z) : Z := index * align * (word_bytes * 8).
Definition offset_to_mask (offset : Z) : Z := Z.shiftl 1 ((offset / align) mod (word_bytes * 8)).

(** The struct's only field is [bitmap_: [usize; BITMAP_SIZE / 8]]. *)
Definition new : R (list Z) :=
  n ← BITMAP_SIZE; Ok (replicate (Z.to_nat (n / word_bytes)) 0).

Definition clear_all (self : list Z) : list Z := (λ _, 0) <$> self.

Definition is_empty (self : list Z) : bool := forallb (λ byte, bool_decide (byte = 0)) self.

Definition test (self : list Z) (object heap_begin : Z) : R bool :=
  offset ← u_sub object heap_begin;
  entry ← idx self (offset_to_index offset);
  Ok (bool_decide (Z.land entry (offset_to_mask offset) ≠ 0)).

Definition set (self : list Z) (object heap_begin : Z) : R (bool * list Z) :=
  offset ← u_sub object heap_begin;
  let index := offset_to_index offset in
  let mask := offset_to_mask offset in
  entry ← idx self index;
  if decide (Z.land entry mask = 0) then
    self' ← upd self index (Z.lor entry mask); Ok (true, self')
  else Ok (false, self).

Definition clear (self : list Z) (object heap_begin : Z) : R (bool * list Z) :=
  offset ← u_sub object heap_begin;
  let index := offset_to_index offset in
  let mask := offset_to_mask offset in
  entry ← idx self index;
  if decide (Z.land entry mask ≠ 0) then
    self' ← upd self index (Z.land entry (u_not 64 mask)); Ok (true, self')
  else Ok (false, self).

(** [visit_marked_range]; the result is the sequence of calls of [visitor]. *)
Definition visit_marked_range (self : list Z) (heap_begin visit_begin visit_end : Z) : R (list Z) :=
  offset_start ← u_sub visit_begin heap_begin;
  offset_end ← u_sub visit_end heap_begin;
  let index_start := offset_to_index offset_start in
  let index_end := offset_to_index offset_end in
  bit_start ← u_mul 64 (offset_start / align) (word_bytes * 8);
  bit_end ← u_mul 64 (offset_end / align) (word_bytes * 8);
  left0 ← idx self index_start;
  ms ← u_shl1 64 bit_start;
  let left_edge := Z.land left0 (u_not 64 (ms - 1)) in
  '(visited, right0) ←
    (if decide (index_start < index_end) then
       v1 ← (if decide (left_edge ≠ 0)
             then visit_word 64 align (index_to_offset index_start + heap_begin) left_edge
             else Ok []);
       v2 ← for_each (λ acc i,
              w ← idx self i;
              if decide (w ≠ 0) then
                v ← visit_word 64 align (index_to_offset i + heap_begin) w; Ok (acc ++ v)
              else Ok acc) (range (index_start + 1) index_end) [];
       r ← (if decide (bit_end = 0) then Ok 0 else idx self index_end);
       Ok (v1 ++ v2, r)
     else Ok ([], left_edge));
  me ← u_shl1 64 bit_end;
  let right_edge := Z.land right0 (me - 1) in
  v3 ← (if decide (right_edge ≠ 0)
        then visit_word 64 align (index_to_offset index_end + heap_begin) right_edge
        else Ok []);
  Ok (visited ++ v3).

(** ** What the operations do to granules *)

Context (Halign : 0 < align).

(** Granule number of an address. *)
Definition granule (object heap_begin : Z) : Z := (object - heap_begin) / align.

Lemma granule_line b i : granule (b + i * align) b = i.
Proof. unfold granule. replace (b + i * align - b) with (i * align) by lia. apply Z.div_mul. lia. Qed.

Lemma const_test_ok bm o b : b <= o → granule o b < capacity bm →
  test bm o b = Ok (bit bm (granule o b)).
Proof.
  intros Hb Hc. unfold test. rewrite u_sub_ok by done. cbn -[Z.div Z.modulo].
  unfold granule, capacity in *. assert (0 <= (o - b) / align) by (apply Z.div_pos; lia).
  unfold offset_to_index, offset_to_mask, word_bytes in *. change (8 * 8) with 64 in *.
  rewrite idx_ok by (Z.div_mod_to_equations; lia). cbn -[Z.div Z.modulo]. f_equal.
  rewrite land_mask_nz by (apply Z.mod_pos_bound; lia). done.
Qed.

Lemma const_test_oob bm o b : b <= o → capacity bm <= granule o b →
  test bm o b = Panic IndexOutOfBounds.
Proof.
  intros Hb Hc. unfold test. rewrite u_sub_ok by done. cbn -[Z.div Z.modulo].
  unfold granule, capacity in *. unfold offset_to_index, word_bytes. change (8 * 8) with 64.
  rewrite idx_oob by (apply Z.div_le_lower_bound; lia). done.
Qed.

Lemma const_set_ok bm o b : b <= o → granule o b < capacity bm → wf bm →
  ∃ bm', set bm o b = Ok (negb (bit bm (granule o b)), bm') ∧ wf bm' ∧
    length bm' = length bm ∧
    ∀ j, 0 <= j → bit bm' j = bit bm j || bool_decide (j = granule o b).
Proof.
  intros Hb Hc Hw. unfold set. rewrite u_sub_ok by done. cbn -[Z.div Z.modulo].
  unfold granule in *. set (g := (o - b) / align) in *.
  assert (Hg : 0 <= g) by (apply Z.div_pos; lia).
  unfold offset_to_index, offset_to_mask, word_bytes. change (8 * 8) with 64. fold g.
  assert (Hi : 0 <= g / 64 < Z.of_nat (length bm)) by (unfold capacity in *; Z.div_mod_to_equations; lia).
  pose proof (Z.mod_pos_bound g 64) as Hm.
  rewrite idx_ok by done. cbn -[Z.div Z.modulo].
  assert (Ez := land_mask_z (default 0 (bm !! Z.to_nat (g / 64))) (g mod 64) ltac:(lia)).
  fold (bit bm g) in Ez. case_decide as E.
  - rewrite bool_decide_eq_true_2 in Ez by done. rewrite upd_ok by done. cbn -[Z.div Z.modulo].
    eexists. split; [by rewrite <- Ez|]. split_and!.
    + apply wf_insert; [done|]. apply in_width_lor; [by apply wf_word|apply in_width_bit1; lia].
    + apply length_insert.
    + intros j Hj. apply bit_set_word; unfold capacity in *; lia.
  - rewrite bool_decide_eq_false_2 in Ez by done. exists bm. rewrite <- Ez. split_and!; try done.
    intros j Hj. case_bool_decide; subst; [|by rewrite orb_false_r].
    destruct (bit bm g); done.
Qed.

Lemma const_clear_ok bm o b : b <= o → granule o b < capacity bm → wf bm →
  ∃ bm', clear bm o b = Ok (bit bm (granule o b), bm') ∧ wf bm' ∧
    length bm' = length bm ∧
    ∀ j, 0 <= j → bit bm' j = bit bm j && negb (bool_decide (j = granule o b)).
Proof.
  intros Hb Hc Hw. unfold clear. rewrite u_sub_ok by done. cbn -[Z.div Z.modulo].
  unfold granule in *. set (g := (o - b) / align) in *.
  assert (Hg : 0 <= g) by (apply Z.div_pos; lia).
  unfold offset_to_index, offset_to_mask, word_bytes. change (8 * 8) with 64. fold g.
  assert (Hi : 0 <= g / 64 < Z.of_nat (length bm)) by (unfold capacity in *; Z.div_mod_to_equations; lia).
  pose proof (Z.mod_pos_bound g 64) as Hm.
  rewrite idx_ok by done. cbn -[Z.div Z.modulo].
  assert (Ez := land_mask_nz (default 0 (bm !! Z.to_nat (g / 64))) (g mod 64) ltac:(lia)).
  fold (bit bm g) in Ez. destruct (decide (Z.land _ _ ≠ 0)) as [E|E].
  - rewrite bool_decide_eq_true_2 in Ez by done. rewrite upd_ok by done. cbn -[Z.div Z.modulo].
    eexists. split; [by rewrite <- Ez|]. split_and!.
    + apply wf_insert; [done|]. apply in_width_land; [by apply wf_word|].
      apply u_not_nonneg. apply in_width_bit1. lia.
    + apply length_insert.
    + intros j Hj. apply bit_clear_word; unfold capacity in *; done || lia.
  - rewrite bool_decide_eq_false_2 in Ez by done. exists bm. rewrite <- Ez. split_and!; try done.
    intros j Hj. case_bool_decide; subst; [|by rewrite andb_true_r].
    destruct (bit bm g); done.
Qed.

Lemma clear_all_zeros bm : clear_all bm = replicate (length bm) 0.
Proof. unfold clear_all. induction bm; cbn; congruence. Qed.

Lemma is_empty_spec bm : wf bm →
  is_empty bm = true ↔ ∀ i, 0 <= i < capacity bm → bit bm i = false.
Proof.
  intros Hw. unfold is_empty. rewrite forallb_forall. split.
  - intros H i Hi. unfold bit. destruct (bm !! Z.to_nat (i / 64)) as [w|] eqn:E; cbn.
    + assert (Hin : In w bm) by (apply list_elem_of_In; by apply list_elem_of_lookup_2 in E).
      specialize (H w Hin). apply bool_decide_eq_true in H. subst. apply Z.bits_0.
    + apply Z.bits_0.
  - intros H w Hin%list_elem_of_In. apply list_elem_of_lookup in Hin as [k Hk].
    apply bool_decide_eq_true. apply word_zero.
    + by eapply (Forall_lookup_1 (in_width 64)).
    + intros j Hj. pose proof (lookup_lt_Some _ _ _ Hk).
      specialize (H (64 * Z.of_nat k + j) ltac:(unfold capacity; lia)). unfold bit in H.
      replace ((64 * Z.of_nat k + j) / 64) with (Z.of_nat k) in H by (Z.div_mod_to_equations; lia).
      replace ((64 * Z.of_nat k + j) mod 64) with j in H by (Z.div_mod_to_equations; lia).
      rewrite Nat2Z.id, Hk in H. done.
Qed.

Lemma BITMAP_SIZE_pow2 k n : align * 64 = 2 ^ k → 0 <= k < 64 → 0 <= region_size →
  BITMAP_SIZE = Ok n → n = 8 * (2 * (ceil_div region_size (align * 64) / 2)).
Proof.
  intros Hk Hk64 Hr. unfold BITMAP_SIZE, word_bytes. change (8 * 8) with 64. rewrite Hk.
  intros H. apply bind_Ok_inv in H as (r & Hr' & [= <-]).
  apply round_up_even in Hr'; [|done..]. lia.
Qed.

End Macro.

(** [visit_marked_range] of the generated bitmaps never calls its visitor: the
    edge masks are shifted by [64 * (offset / align)] instead of
    [(offset / align) % 64], so the shift overflows as soon as the range reaches
    past the first granule, and a range inside the first granule is empty. *)
Theorem visit_marked_range_visits_nothing align bm b vb ve l :
  0 < align → visit_marked_range align bm b vb ve = Ok l → l = [].
Proof.
  intros Ha H. unfold visit_marked_range in H. ok_inv.
  destruct x5 as [visited right0]. ok_inv.
  assert (Hend : x0 / align * 64 < 64 ∧ 0 <= x0 ∧ 0 <= x).
  { unfold u_sub, u_mul, u_shl1, word_bytes in *. repeat case_decide; ok_inv; lia. }
  destruct Hend as (He & Hx0 & Hx).
  assert (Hz : x0 / align = 0) by (pose proof (Z.div_pos x0 align); lia).
  assert (0 <= x / align / 64) by (do 2 (apply Z.div_pos; [|lia]); done).
  unfold u_mul, u_shl1, offset_to_index, word_bytes in *. rewrite Hz in *.
  change (8 * 8) with 64 in *. change (0 / 64) with 0 in *. change (0 * 64) with 0 in *.
  rewrite (decide_False (P := x / align / 64 < 0)) in * by lia.
  rewrite (decide_True (P := 0 < 64)) in * by lia. repeat case_decide; ok_inv; try done.
  all: change (Z.shiftl 1 0 - 1) with 0 in *; rewrite Z.land_0_r in *; done.
Qed.

Lemma visit_marked_range_visits_nothing_witness : ∃ l,
  visit_marked_range 128 [Z.ones 64] 0 0 100 = Ok l ∧ l = [].
Proof.
  exists []. split; [reflexivity|].
  apply (visit_marked_range_visits_nothing 128 [Z.ones 64] 0 0 100); [lia|reflexivity].
Defined.

End BitmapConst.
