(* ===== verification/Constants.v ===== *)
(** * constants.rs *)

From stdpp Require Import base numbers.
From Stdlib Require Import ZArith Lia.
From S2P Require Import Prelude.
Local Open Scope Z_scope.

Definition BLOCK_SIZE : Z := 32 * 1024.
Definition LINE_SIZE : Z := 128.
Definition NUM_LINES_PER_BLOCK : Z := BLOCK_SIZE / LINE_SIZE.
Definition MEDIUM_OBJECT : Z := LINE_SIZE.
Definition LARGE_OBJECT : Z := 8 * 1024.
Definition USE_EVACUATION : bool := true.
Definition EVAC_HEADROOM : Z := 5.

(** [EVAC_TRIGGER_THRESHHOLD: f64 = 0.25], used only in
    [(total_blocks as f64 * EVAC_TRIGGER_THRESHHOLD) as usize].  For a block count
    below 2^53 the conversion is exact, the product scales by a power of two and
    the cast truncates: the result is the integer quotient by 4. *)
Definition evac_trigger (total_blocks : Z) : Z := total_blocks / 4.

Lemma NUM_LINES_eq : NUM_LINES_PER_BLOCK = 256.
Proof. reflexivity. Qed.

Lemma LINE_SIZE_eq : LINE_SIZE = 128.
Proof. reflexivity. Qed.

Lemma BLOCK_SIZE_eq : BLOCK_SIZE = 32768.
Proof. reflexivity. Qed.

(** Unfold the constants to numerals. *)
Ltac consts := rewrite ?NUM_LINES_eq, ?LINE_SIZE_eq, ?BLOCK_SIZE_eq in *.
