(* ===== verification/Block.v ===== *)
(** * block.rs: Immix blocks

    An [ImmixBlock] is the header at the start of a 32 KiB block; the address of
    the header ([self.begin()]) is passed along as [begin].  The object passed to
    [line_object_mark] is given by its address and its [object_size()]. *)

From stdpp Require Import base numbers list list_numbers.
From Stdlib Require Import ZArith Lia.
From S2P Require Import Prelude Util Bitmap Constants.
Local Open Scope Z_scope.

Module LineMap.

Definition new : R (list Z) := BitmapConst.new LINE_SIZE BLOCK_SIZE.
Definition test : list Z → Z → Z → R bool := BitmapConst.test LINE_SIZE.
Definition set : list Z → Z → Z → R (bool * list Z) := BitmapConst.set LINE_SIZE.
Definition clear : list Z → Z → Z → R (bool * list Z) := BitmapConst.clear LINE_SIZE.
Definition clear_all : list Z → list Z := BitmapConst.clear_all.

End LineMap.

Record ImmixBlock : Type := mkBlock {
  line_map : list Z;
  allocated : bool;
  hole_count : Z;
  evacuation_candidate : bool
}.

(** Block lines are numbered 0 .. 255; [line_bit blk l] is the mark of line [l]. *)
Definition line_bit (self : ImmixBlock) (l : Z) : bool := Words.bit (line_map self) l.

(** Well-formedness of a header: four 64-bit words of marks. *)
Definition block_wf (self : ImmixBlock) : Prop :=
  length (line_map self) = 4%nat ∧ Words.wf (line_map self).

Module Block.

(** [size_of::<ImmixBlock>()]: a [#[repr(C)]] struct of a 32-byte array, a bool,
    a u32 and a bool, aligned to 8. *)
Definition size_of_ImmixBlock : Z := 48.

Definition get_block_ptr (object : Z) : Z :=
  let off := object mod BLOCK_SIZE in object - off.

Definition new (at_ : Z) : R ImmixBlock :=
  if decide (at_ mod 32 * 1024 = 0) then
    lm ← LineMap.new;
    Ok (mkBlock lm false 0 false)
  else Panic AssertFailed.

(** Freshly mapped memory reads as zeros: the header a block has before anything
    is written to it. *)
Definition zeroed : ImmixBlock := mkBlock [0; 0; 0; 0] false 0 false.

Definition is_in_block (self : ImmixBlock) (begin p : Z) : bool :=
  if allocated self then
    let e := begin + BLOCK_SIZE in
    bool_decide (begin < p) && bool_decide (p <= e)
  else false.

Definition line_is_marked (self : ImmixBlock) (begin line : Z) : R bool :=
  LineMap.test (line_map self) (begin + line * LINE_SIZE) begin.

(** The two [for] loops of [scan_block] and the recursive rescan; [fuel] bounds
    the rescans. *)
Fixpoint scan_block_loop (fuel : nat) (self : ImmixBlock) (begin last_high_offset : Z)
    : R (option (Z * Z)) :=
  match fuel with
  | O => NoFuel
  | S fuel' =>
    let last_high_index := last_high_offset / LINE_SIZE in
    low ← for_find (λ index,
            b ← LineMap.test (line_map self) (begin + index * LINE_SIZE) begin;
            Ok (negb b)) (range (last_high_index + 1) NUM_LINES_PER_BLOCK);
    let low_index := match low with Some index => index + 1 | None => NUM_LINES_PER_BLOCK - 1 end in
    high ← for_find (λ index,
            LineMap.test (line_map self) (begin + LINE_SIZE * index) begin)
            (range low_index NUM_LINES_PER_BLOCK);
    let high_index := match high with Some index => index | None => NUM_LINES_PER_BLOCK end in
    if decide (low_index = high_index ∧ high_index ≠ NUM_LINES_PER_BLOCK - 1) then
      scan_block_loop fuel' self begin (trunc 16 (high_index * LINE_SIZE - 1))
    else if decide (low_index < NUM_LINES_PER_BLOCK - 1) then
      lo ← Rounding.align_usize (low_index * LINE_SIZE) 16;
      Ok (Some (trunc 16 lo, trunc 16 (high_index * LINE_SIZE - 1)))
    else Ok None
  end.

(** 258 rounds: one per line and two to notice that there is none left. *)
Definition scan_block (self : ImmixBlock) (begin last_high_offset : Z) : R (option (Z * Z)) :=
  scan_block_loop 258 self begin last_high_offset.

Definition count_holes (self : ImmixBlock) (begin : Z) : R (Z * ImmixBlock) :=
  '(holes, _) ← for_each (λ '(holes, in_hole) i,
      marked ← LineMap.test (line_map self) (begin + LINE_SIZE * i) begin;
      match in_hole : bool, marked : bool with
      | false, false => Ok (holes + 1, true)
      | _, _ => Ok (holes, false)
      end) (range 0 NUM_LINES_PER_BLOCK) (0, false);
  Ok (holes, mkBlock (line_map self) (allocated self) (trunc 32 holes) (evacuation_candidate self)).

Definition offset (begin off : Z) : Z := begin + off.

Definition is_empty (self : ImmixBlock) (begin : Z) : R bool :=
  r ← for_find (λ i, LineMap.test (line_map self) (begin + i * LINE_SIZE) begin)
        (range 0 NUM_LINES_PER_BLOCK);
  Ok (match r with Some _ => false | None => true end).

Definition object_to_line_num (object : Z) : Z := (object mod BLOCK_SIZE) / LINE_SIZE.

Definition set_line_map (self : ImmixBlock) (lm : list Z) : ImmixBlock :=
  mkBlock lm (allocated self) (hole_count self) (evacuation_candidate self).

Definition modify_line (self : ImmixBlock) (begin object size : Z) (mark : bool) : R ImmixBlock :=
  let line_num := object_to_line_num object in
  lm ← for_each (λ lm line,
      '(_, lm') ← (if mark then LineMap.set lm (begin + line * LINE_SIZE) begin
                   else LineMap.clear lm (begin + line * LINE_SIZE) begin);
      Ok lm') (range line_num (line_num + size / LINE_SIZE + 1)) (line_map self);
  Ok (set_line_map self lm).

Definition count_marked (self : ImmixBlock) (begin : Z) (wanted : bool) : R Z :=
  for_each (λ count line,
      b ← LineMap.test (line_map self) (line * LINE_SIZE + begin) begin;
      Ok (if bool_decide (b = wanted) then count + 1 else count))
    (range 0 NUM_LINES_PER_BLOCK) 0.

Definition count_holes_and_marked_lines (self : ImmixBlock) (begin : Z) : R (Z * Z) :=
  count ← count_marked self begin true; Ok (hole_count self, count).

Definition count_holes_and_available_lines (self : ImmixBlock) (begin : Z) : R (Z * Z) :=
  count ← count_marked self begin false; Ok (hole_count self, count).

Definition reset (self : ImmixBlock) : ImmixBlock :=
  mkBlock (LineMap.clear_all (line_map self)) false 0 false.

Definition line_object_mark (self : ImmixBlock) (begin object size : Z) : R ImmixBlock :=
  modify_line self begin object size true.

Definition line_object_unmark (self : ImmixBlock) (begin object size : Z) : R ImmixBlock :=
  modify_line self begin object size false.

(** ** Reference definitions *)

(** The next hole after line [last]: the first two adjacent unmarked lines, the
    first of which is given up (an object that starts in the marked line before
    it may spill into it); the hole starts at the second and ends before the next
    marked line.  The last line of the block is not used as a hole of its own. *)
Definition next_hole (marked : Z → bool) (last : Z) : option (Z * Z) :=
  match first_such (λ i, negb (marked i) && negb (marked (i + 1))) (range (last + 1) 254) with
  | Some i =>
      Some (i + 1, match first_such marked (range (i + 1) 256) with Some j => j | None => 256 end)
  | None => None
  end.

(** Byte offsets of a hole given by line numbers. *)
Definition hole_offsets (h : Z * Z) : Z * Z := (h.1 * 128, h.2 * 128 - 1).

(** Lengths of the maximal runs of unmarked lines. *)
Fixpoint free_runs (cur : Z) (ls : list bool) : list Z :=
  match ls with
  | [] => if decide (cur = 0) then [] else [cur]
  | false :: ls' => free_runs (cur + 1) ls'
  | true :: ls' => if decide (cur = 0) then free_runs 0 ls' else cur :: free_runs 0 ls'
  end.

Definition line_marks (self : ImmixBlock) : list bool := line_bit self <$> range 0 256.

(** The lines [line_object_mark] marks for an object at block offset [o]. *)
Definition covered_line (o size l : Z) : Prop := o / 128 <= l <= o / 128 + size / 128.

(** ** Line marks *)

Lemma line_map_capacity self : block_wf self → Words.capacity (line_map self) = 256.
Proof. intros [H _]. unfold Words.capacity. by rewrite H. Qed.

Lemma test_line self b l : block_wf self → 0 <= l < 256 →
  LineMap.test (line_map self) (b + l * 128) b = Ok (line_bit self l).
Proof.
  intros Hw Hl. unfold LineMap.test. consts.
  rewrite BitmapConst.const_test_ok by (rewrite ?BitmapConst.granule_line, ?line_map_capacity; done || lia).
  by rewrite BitmapConst.granule_line by lia.
Qed.

Lemma test_line' self b l : block_wf self → 0 <= l < 256 →
  LineMap.test (line_map self) (b + 128 * l) b = Ok (line_bit self l).
Proof. intros. rewrite (Z.mul_comm 128). by apply test_line. Qed.

Lemma find_line self b (neg : bool) lo : block_wf self → 0 <= lo →
  for_find (λ index, b0 ← LineMap.test (line_map self) (b + index * 128) b; Ok (xorb neg b0))
    (range lo 256)
  = Ok (first_such (λ l, xorb neg (line_bit self l)) (range lo 256)).
Proof.
  intros Hw Hlo. apply for_find_pure. intros l Hl%elem_of_range.
  by rewrite test_line by (done || lia).
Qed.

Lemma align_16_line l : 0 <= l <= 256 → Rounding.align_usize (l * 128) 16 = Ok (l * 128).
Proof.
  intros. apply Rounding.align_usize_aligned; try lia.
  replace (l * 128) with (l * 8 * 16) by lia. apply Z.mod_mul. lia.
Qed.

Lemma trunc16_line l : 0 <= l <= 256 → trunc 16 (l * 128) = l * 128.
Proof. intros. apply trunc_small. unfold in_width. lia. Qed.

Lemma trunc16_high l : 0 < l <= 256 → trunc 16 (l * 128 - 1) = l * 128 - 1.
Proof. intros. apply trunc_small. unfold in_width. lia. Qed.

Lemma high_index_div l : (l * 128 - 1) / 128 = l - 1.
Proof. Z.div_mod_to_equations. lia. Qed.

(** One round of [scan_block] on a well-formed header. *)
Lemma scan_block_round fuel self b off : block_wf self → 0 <= off →
  let low_index := match first_such (λ l, negb (line_bit self l)) (range (off / 128 + 1) 256) with
                   | Some i => i + 1 | None => 255 end in
  let high_index := match first_such (line_bit self) (range low_index 256) with
                    | Some i => i | None => 256 end in
  scan_block_loop (S fuel) self b off =
    if decide (low_index = high_index ∧ high_index ≠ 255) then
      scan_block_loop fuel self b (high_index * 128 - 1)
    else if decide (low_index < 255) then Ok (Some (low_index * 128, high_index * 128 - 1))
    else Ok None.
Proof.
  intros Hw Hoff low high. cbn [scan_block_loop]. consts. change (256 - 1) with 255.
  rewrite (for_find_pure _ (λ l, negb (line_bit self l))); cycle 1.
  { intros l Hl%elem_of_range. rewrite test_line; [done..|].
    pose proof (Z.div_pos off 128). lia. }
  rewrite bind_Ok. fold low.
  assert (Hlow : 0 < low <= 256).
  { unfold low. pose proof (first_such_range (λ l, negb (line_bit self l)) (off / 128 + 1) 256) as F.
    pose proof (Z.div_pos off 128). destruct (first_such _ _); lia. }
  rewrite (for_find_pure _ (line_bit self)); cycle 1.
  { intros l Hl%elem_of_range. rewrite test_line'; [done..|lia]. }
  rewrite bind_Ok. clearbody low. fold high.
  assert (Hhigh : low <= high <= 256).
  { unfold high. pose proof (first_such_range (line_bit self) low 256) as F.
    destruct (first_such _ _); lia. }
  case_decide as C1; [by rewrite trunc16_high by lia|].
  case_decide as C2; [|done]. rewrite align_16_line by lia. rewrite bind_Ok.
  by rewrite trunc16_line, trunc16_high by lia.
Qed.

(** [scan_block] computes [next_hole], with fuel to spare. *)
Lemma scan_block_loop_spec fuel self b off : block_wf self → 0 <= off →
  257 - off / 128 < Z.of_nat fuel → 1 < Z.of_nat fuel →
  scan_block_loop fuel self b off = Ok (hole_offsets <$> next_hole (line_bit self) (off / 128)).
Proof.
  revert off. induction fuel as [|fuel IH]; intros off Hw Hoff Hf Hf1; [lia|].
  rewrite scan_block_round by done. set (L := off / 128) in *.
  assert (HL : 0 <= L) by (apply Z.div_pos; lia).
  pose proof (first_such_range (λ l, negb (line_bit self l)) (L + 1) 256) as Flow.
  destruct (first_such (λ l, negb (line_bit self l)) (range (L + 1) 256)) as [i|].
  - destruct Flow as (Hi & Hui & Hmi). apply negb_true_iff in Hui.
    pose proof (first_such_range (line_bit self) (i + 1) 256) as Fhigh.
    destruct (first_such (line_bit self) (range (i + 1) 256)) as [h|] eqn:Eh.
    + destruct Fhigh as (Hh & Hmh & Huh). case_decide as C1.
      * rewrite IH by (try done; rewrite ?high_index_div; lia). rewrite high_index_div.
        do 2 f_equal. unfold next_hole. f_equal. replace (h - 1 + 1) with h by lia.
        rewrite (first_such_skip _ (L + 1) h); [done|lia|].
        intros j Hj. destruct (Z.eq_dec j i) as [->|].
        { replace (i + 1) with h by lia. by rewrite Hmh, andb_false_r. }
        specialize (Hmi j ltac:(lia)). by rewrite Hmi.
      * case_decide as C2.
        -- unfold next_hole. rewrite (first_such_Some _ (L + 1) 254 i).
           ++ cbn. by rewrite Eh.
           ++ lia.
           ++ rewrite Hui. rewrite Huh by lia. done.
           ++ intros j Hj. by rewrite (Hmi j) by lia.
        -- unfold next_hole. rewrite first_such_None; [done|].
           intros j Hj. by rewrite (Hmi j) by lia.
    + case_decide as C1.
      * assert (i = 255) by lia. subst i.
        rewrite IH by (try done; rewrite ?high_index_div; lia). rewrite high_index_div.
        do 2 f_equal. unfold next_hole. rewrite !first_such_None; [done| |].
        -- intros j Hj. by rewrite (Hmi j) by lia.
        -- intros j Hj. lia.
      * case_decide as C2.
        -- unfold next_hole. rewrite (first_such_Some _ (L + 1) 254 i).
           ++ cbn. by rewrite Eh.
           ++ lia.
           ++ rewrite Hui. rewrite Fhigh by lia. done.
           ++ intros j Hj. by rewrite (Hmi j) by lia.
        -- unfold next_hole. rewrite first_such_None; [done|].
           intros j Hj. by rewrite (Hmi j) by lia.
  - pose proof (first_such_range (line_bit self) 255 256) as Fhigh.
    rewrite decide_False.
    + rewrite decide_False by lia. unfold next_hole. rewrite first_such_None; [done|].
      intros j Hj. by rewrite (Flow j) by lia.
    + destruct (first_such (line_bit self) (range 255 256)); lia.
Qed.

Lemma scan_block_spec self b off : block_wf self → 0 <= off →
  scan_block self b off = Ok (hole_offsets <$> next_hole (line_bit self) (off / 128)).
Proof.
  intros. apply scan_block_loop_spec; try done. pose proof (Z.div_pos off 128). lia.
Qed.

(** What a hole is: its lines and the line before it are unmarked, it lies after
    the line the scan started from and it ends at a marked line or at the end. *)
Lemma next_hole_spec m last lo hi : next_hole m last = Some (lo, hi) →
  last + 2 <= lo < 255 ∧ lo < hi <= 256 ∧
  (∀ l, lo - 1 <= l < hi → m l = false) ∧ (hi = 256 ∨ m hi = true).
Proof.
  unfold next_hole. pose proof (first_such_range (λ i, negb (m i) && negb (m (i + 1))) (last + 1) 254) as F.
  destruct (first_such _ (range (last + 1) 254)) as [i|]; [|done].
  destruct F as (Hi & Hq & _). apply andb_true_iff in Hq as [Hq1%negb_true_iff Hq2%negb_true_iff].
  intros [= <- <-].
  pose proof (first_such_range m (i + 1) 256) as G.
  destruct (first_such m (range (i + 1) 256)) as [j|].
  - destruct G as (Hj & Hmj & Hn).
    assert (j ≠ i + 1) by (intros ->; congruence).
    split_and!; try lia; [|by right]. intros l Hl.
    destruct (Z.eq_dec l i) as [->|]; [done|]. apply Hn. lia.
  - split_and!; try lia. intros l Hl.
    destruct (Z.eq_dec l i) as [->|]; [done|]. apply G. lia.
Qed.

Lemma next_hole_None m last : next_hole m last = None ↔
  ∀ i, last < i < 254 → m i = true ∨ m (i + 1) = true.
Proof.
  unfold next_hole. pose proof (first_such_range (λ i, negb (m i) && negb (m (i + 1))) (last + 1) 254) as F.
  destruct (first_such _ (range (last + 1) 254)) as [i|].
  - destruct F as (Hi & Hq & _). split; [done|]. intros H. exfalso.
    destruct (H i ltac:(lia)) as [E|E]; rewrite E, ?andb_false_r in Hq; done.
  - split; [|done]. intros _ i Hi. specialize (F i ltac:(lia)).
    apply andb_false_iff in F as [F|F]; apply negb_false_iff in F; auto.
Qed.

(** Scanning again after a hole only finds later lines. *)
Lemma next_hole_bounds m last lo hi : 0 <= last → next_hole m last = Some (lo, hi) →
  256 <= lo * 128 ∧ last * 128 + 256 <= lo * 128 ∧ lo * 128 + 127 <= hi * 128 - 1 <= 32767.
Proof. intros ? H%next_hole_spec. lia. Qed.

(** ** Marking and unmarking the lines of an object *)

Definition modify_step (begin : Z) (mark : bool) (lm : list Z) (line : Z) : R (list Z) :=
  '(_, lm') ← (if mark then LineMap.set lm (begin + line * LINE_SIZE) begin
               else LineMap.clear lm (begin + line * LINE_SIZE) begin);
  Ok lm'.

Lemma modify_step_ok b mark lm line : length lm = 4%nat → Words.wf lm → 0 <= line < 256 →
  ∃ lm', modify_step b mark lm line = Ok lm' ∧ length lm' = 4%nat ∧ Words.wf lm' ∧
    ∀ l, 0 <= l → Words.bit lm' l = if decide (l = line) then mark else Words.bit lm l.
Proof.
  intros Hlen Hw Hl. unfold modify_step, LineMap.set, LineMap.clear. consts.
  assert (Hc : Words.capacity lm = 256) by (unfold Words.capacity; by rewrite Hlen).
  destruct mark.
  - destruct (BitmapConst.const_set_ok 128 ltac:(lia) lm (b + line * 128) b) as (lm' & -> & Hw' & Hl' & Hb);
      rewrite ?BitmapConst.granule_line, ?Hc; try done; try lia.
    cbn. exists lm'. rewrite BitmapConst.granule_line in Hb by lia. split_and!; try done; [congruence|].
    intros l Hl0. rewrite Hb by done. case_decide; case_bool_decide; try done.
    + apply orb_true_r.
    + apply orb_false_r.
  - destruct (BitmapConst.const_clear_ok 128 ltac:(lia) lm (b + line * 128) b) as (lm' & -> & Hw' & Hl' & Hb);
      rewrite ?BitmapConst.granule_line, ?Hc; try done; try lia.
    cbn. exists lm'. rewrite BitmapConst.granule_line in Hb by lia. split_and!; try done; [congruence|].
    intros l Hl0. rewrite Hb by done. case_decide; case_bool_decide; try done.
    + apply andb_false_r.
    + apply andb_true_r.
Qed.

Lemma modify_lines_ok b mark lm lo hi : length lm = 4%nat → Words.wf lm → 0 <= lo <= hi → hi <= 256 →
  ∃ lm', for_each (modify_step b mark) (range lo hi) lm = Ok lm' ∧
    length lm' = 4%nat ∧ Words.wf lm' ∧
    ∀ l, 0 <= l → Words.bit lm' l = if decide (lo <= l < hi) then mark else Words.bit lm l.
Proof.
  intros Hlen Hw Hlo Hhi.
  destruct (for_each_range (modify_step b mark)
    (λ i lm', length lm' = 4%nat ∧ Words.wf lm' ∧
      ∀ l, 0 <= l → Words.bit lm' l = if decide (lo <= l < i) then mark else Words.bit lm l)
    lo hi lm) as (lm' & E & H); [lia| | |by eauto].
  - split_and!; try done. intros. by rewrite decide_False by lia.
  - intros i s Hi (Hs & Hws & Hb).
    destruct (modify_step_ok b mark s i Hs Hws ltac:(lia)) as (s' & E & Hs' & Hws' & Hb').
    exists s'. split_and!; try done. intros l Hl. rewrite Hb', Hb by done.
    repeat case_decide; try done; lia.
Qed.

Lemma modify_line_ok self b object size mark : block_wf self → 0 <= size →
  object_to_line_num object + size / 128 < 256 →
  ∃ self', modify_line self b object size mark = Ok self' ∧ block_wf self' ∧
    self' = set_line_map self (line_map self') ∧
    ∀ l, 0 <= l → line_bit self' l =
      if decide (covered_line (object mod 32768) size l) then mark else line_bit self l.
Proof.
  intros [Hlen Hw] Hs Hfit. unfold modify_line, object_to_line_num, covered_line in *. consts.
  pose proof (Z.mod_pos_bound object 32768). set (n := object mod 32768 / 128) in *.
  assert (0 <= n) by (apply Z.div_pos; lia). assert (0 <= size / 128) by (apply Z.div_pos; lia).
  destruct (modify_lines_ok b mark (line_map self) n (n + size / 128 + 1) Hlen Hw)
    as (lm' & E & Hl' & Hw' & Hb); [lia..|].
  unfold modify_step in E. consts. rewrite E, bind_Ok. eexists. split; [done|].
  split; [by split|]. split; [done|]. intros l Hl. unfold line_bit. cbn. rewrite Hb by done.
  repeat case_decide; try done; lia.
Qed.

(** An object whose last line number is past the block makes the marker index
    past the line map. *)
Lemma modify_line_oob self b object size mark : block_wf self → 0 <= size →
  256 <= object_to_line_num object + size / 128 →
  modify_line self b object size mark = Panic IndexOutOfBounds.
Proof.
  intros [Hlen Hw] Hs Hfit. unfold modify_line, object_to_line_num in *. consts.
  pose proof (Z.mod_pos_bound object 32768). set (n := object mod 32768 / 128) in *.
  assert (0 <= n < 256) by (unfold n; Z.div_mod_to_equations; lia).
  rewrite (range_app n 256) by lia. rewrite for_each_app.
  destruct (modify_lines_ok b mark (line_map self) n 256 Hlen Hw) as (lm' & E & Hl' & Hw' & _); [lia..|].
  unfold modify_step in E. consts. rewrite E, bind_Ok. rewrite (range_cons 256) by lia. cbn [for_each].
  assert (Hc : Words.capacity lm' = 256) by (unfold Words.capacity; by rewrite Hl').
  unfold LineMap.set, LineMap.clear, BitmapConst.set, BitmapConst.clear. consts.
  destruct mark; (rewrite u_sub_ok by lia); replace (b + 256 * 128 - b) with 32768 by lia;
    rewrite bind_Ok; change (BitmapConst.offset_to_index 128 32768) with 4;
    by rewrite Words.idx_oob by (rewrite Hl'; lia).
Qed.

(** The bytes of a marked object lie in marked lines, except that its last bytes
    may lie in the line after the last marked one. *)
Lemma object_lines_marked m o size x : 0 <= o → 0 < size →
  (∀ l, covered_line o size l → m l = true) → o <= x < o + size →
  m (x / 128) = true ∨ m (x / 128 - 1) = true.
Proof.
  intros Ho Hs Hm Hx. unfold covered_line in Hm.
  assert (Hc : x / 128 <= o / 128 + size / 128 ∨ x / 128 - 1 = o / 128 + size / 128)
    by (Z.div_mod_to_equations; lia).
  assert (o / 128 <= x / 128) by (apply Z.div_le_mono; lia).
  assert (0 <= size / 128) by (apply Z.div_pos; lia).
  destruct Hc; [left|right]; apply Hm; lia.
Qed.

(** No hole of [next_hole] meets an object whose lines are marked. *)
Lemma hole_avoids_object m last lo hi o size x : 0 <= o → 0 < size → 0 <= last →
  (∀ l, covered_line o size l → m l = true) →
  next_hole m last = Some (lo, hi) → lo * 128 <= x <= hi * 128 - 1 → ¬ (o <= x < o + size).
Proof.
  intros Ho Hs Hlast Hm Hh Hx Hin.
  destruct (next_hole_spec _ _ _ _ Hh) as (Hlo & Hhi & Hun & _).
  destruct (object_lines_marked m o size x Ho Hs Hm Hin) as [E|E];
    rewrite Hun in E; try done; Z.div_mod_to_equations; lia.
Qed.

(** ** Emptiness and hole counting *)

Lemma is_empty_ok self b : block_wf self →
  ∃ r, is_empty self b = Ok r ∧ (r = true ↔ ∀ l, 0 <= l < 256 → line_bit self l = false).
Proof.
  intros Hw. unfold is_empty. consts.
  rewrite (for_find_pure _ (line_bit self)); cycle 1.
  { intros l Hl%elem_of_range. by rewrite test_line by (done || lia). }
  rewrite bind_Ok. eexists. split; [done|].
  pose proof (first_such_range (line_bit self) 0 256) as F.
  destruct (first_such _ _) as [i|]; [|done].
  destruct F as (Hi & Hm & _). split; [done|]. intros H. by rewrite H in Hm.
Qed.

Definition hole_step (st : Z * bool) (marked : bool) : Z * bool :=
  match st.2, marked with
  | false, false => (st.1 + 1, true)
  | _, _ => (st.1, false)
  end.

Definition half_up (n : Z) : Z := (n + 1) / 2.

Lemma count_holes_fold self b : block_wf self →
  ∃ r, count_holes self b = Ok (r, mkBlock (line_map self) (allocated self) (trunc 32 r) (evacuation_candidate self))
     ∧ r = (foldl hole_step (0, false) (line_marks self)).1.
Proof.
  intros Hw. unfold count_holes. consts.
  rewrite (for_each_pure _ (λ st i, hole_step st (line_bit self i))); cycle 1.
  { intros [h ih] l Hl%elem_of_range. rewrite test_line' by (done || lia). cbn.
    unfold hole_step. by destruct ih, (line_bit self l). }
  unfold line_marks. rewrite bind_Ok, foldl_fmap.
  destruct (foldl _ _ (range 0 256)) as [r ih] eqn:E. cbn. by eexists.
Qed.

Lemma hole_fold_runs ls c h : 0 <= c →
  (foldl hole_step (h, Z.odd c) ls).1 + half_up c = h + sum_list (half_up <$> free_runs c ls).
Proof.
  revert c h. induction ls as [|m ls IH]; intros c h Hc; cbn [foldl free_runs].
  - case_decide; subst; cbn; unfold half_up; try lia; done.
  - destruct m.
    + replace (hole_step (h, Z.odd c) true) with (h, Z.odd 0) by (by unfold hole_step; cbn; destruct (Z.odd c)).
      pose proof (IH 0 h ltac:(lia)) as E. change (half_up 0) with 0 in E.
      case_decide; subst; [change (half_up 0) with 0; lia|].
      unfold sum_list in *. rewrite fmap_cons. cbn [foldr]. lia.
    + specialize (IH (c + 1)). rewrite Z.odd_add in IH. change (Z.odd 1) with true in IH.
      unfold hole_step at 2; cbn [fst snd].
      destruct (Z.odd c) eqn:Eo; cbn [xorb] in IH;
        [specialize (IH h ltac:(lia))|specialize (IH (h + 1) ltac:(lia))];
        unfold half_up in *; rewrite Zodd_mod in Eo; 
        [apply Z.eqb_eq in Eo|apply Z.eqb_neq in Eo]; Z.div_mod_to_equations; lia.
Qed.

Lemma free_runs_pos c ls : 0 <= c → Forall (λ n, 0 < n) (free_runs c ls).
Proof.
  revert c. induction ls as [|[] ls IH]; intros c Hc; cbn.
  - case_decide; repeat constructor. lia.
  - case_decide; [apply IH; lia|]. constructor; [lia|apply IH; lia].
  - apply IH. lia.
Qed.

Lemma zeroed_wf : block_wf zeroed.
Proof. split; [done|]. apply (Words.wf_zeros 4). Qed.

Lemma zeroed_line l : line_bit zeroed l = false.
Proof. apply (Words.bit_zeros 4). Qed.

(** [ImmixBlock::new] writes the header that freshly mapped memory already has. *)
Lemma new_zeroed at_ : at_ mod 32 = 0 → new at_ = Ok zeroed.
Proof. intros H. unfold new. rewrite decide_True by (rewrite H; done). reflexivity. Qed.

Lemma reset_wf self : block_wf self → block_wf (reset self) ∧ reset self = zeroed.
Proof.
  intros [Hl Hw]. assert (E : reset self = zeroed).
  { unfold reset, LineMap.clear_all, zeroed. rewrite BitmapConst.clear_all_zeros, Hl. done. }
  split; [|done]. rewrite E. apply zeroed_wf.
Qed.

Lemma object_line_fits b object size : b mod 32768 = 0 → b <= object → 0 <= size →
  object + size < b + 32768 →
  object mod 32768 = object - b ∧ object_to_line_num object + size / 128 < 256.
Proof.
  intros Hb Ho Hs Hf.
  assert (E : object mod 32768 = object - b).
  { symmetry. apply (Z.mod_unique _ _ (b / 32768)); [lia|].
    pose proof (Z.div_mod b 32768 ltac:(lia)). lia. }
  split; [done|]. unfold object_to_line_num. consts. rewrite E. Z.div_mod_to_equations. lia.
Qed.

(** ** Properties *)

(** C25: [scan_block] terminates without panicking on every well-formed header and
    returns exactly the next hole of the reference definition: the first two
    adjacent unmarked lines after the line of [last_high_offset], the hole starting
    at the second and ending before the next marked line. *)
Theorem scan_block_correct self b off : block_wf self → 0 <= off →
  scan_block self b off = Ok (hole_offsets <$> next_hole (line_bit self) (off / 128)).
Proof. apply scan_block_spec. Qed.

Lemma scan_block_correct_witness :
  scan_block (mkBlock [Z.lor 4 (Z.shiftl 1 40); 0; 0; 0] true 0 false) 65536 47 =
    Ok (Some (4 * 128, 40 * 128 - 1)).
Proof.
  rewrite (scan_block_correct (mkBlock [Z.lor 4 (Z.shiftl 1 40); 0; 0; 0] true 0 false) 65536 47).
  - vm_compute. reflexivity.
  - split; [done|]. repeat constructor; done.
  - lia.
Defined.

(** [scan_block] gives up only when there is no usable hole: it returns [None]
    exactly when, after the line it starts from, no two adjacent lines up to line
    254 are both unmarked. *)
Lemma scan_block_none_iff self b off : block_wf self → 0 <= off →
  scan_block self b off = Ok None ↔
  ∀ i, off / 128 < i < 254 → line_bit self i = true ∨ line_bit self (i + 1) = true.
Proof.
  intros Hw Hoff. rewrite scan_block_spec by done. rewrite <- next_hole_None.
  destruct (next_hole _ _); cbn; split; try done; by intros [=].
Qed.

(** C16: Marking is enough to protect an object: after [line_object_mark] of an object
    inside the block no hole that [scan_block] returns, from any starting offset,
    contains a byte of the object, although the mark covers one line less than the
    object when the object straddles a line; marks set before stay set. *)
Theorem marked_object_outside_holes self b object size :
  block_wf self → b mod BLOCK_SIZE = 0 → b <= object → 0 < size →
  object + size < b + BLOCK_SIZE →
  ∃ self', line_object_mark self b object size = Ok self' ∧ block_wf self' ∧
    (∀ l, 0 <= l → line_bit self l = true → line_bit self' l = true) ∧
    ∀ off lo hi x, 0 <= off → scan_block self' b off = Ok (Some (lo, hi)) →
      b + lo <= x <= b + hi → ¬ (object <= x < object + size).
Proof.
  intros Hw Hb Ho Hs Hf. consts.
  destruct (object_line_fits b object size Hb Ho ltac:(lia) Hf) as [Em Hfit].
  destruct (modify_line_ok self b object size true Hw ltac:(lia) Hfit) as (self' & E & Hw' & _ & Hbit).
  exists self'. split_and!; [done..| |].
  { intros l Hl Hl1. rewrite Hbit by done. by case_decide. }
  intros off lo hi x Hoff. rewrite scan_block_spec by done. intros Hscan Hx Hin.
  destruct (next_hole (line_bit self') (off / 128)) as [[lo' hi']|] eqn:Eh; [|done].
  cbn in Hscan. injection Hscan as <- <-.
  apply (hole_avoids_object (line_bit self') (off / 128) lo' hi' (object mod 32768) size (x - b)); try done;
    try (rewrite Em; lia); try lia.
  - apply Z.div_pos; lia.
  - intros l Hl. rewrite Hbit; [by rewrite decide_True|].
    unfold covered_line in Hl. pose proof (Z.mod_pos_bound object 32768).
    pose proof (Z.div_pos (object mod 32768) 128). lia.
Qed.

Lemma marked_object_outside_holes_witness :
  ∃ self', line_object_mark zeroed 65536 (65536 + 240) 208 = Ok self' ∧
    scan_block self' 65536 47 = Ok (Some (512, 32767)) ∧
    ¬ (65536 + 240 <= 65536 + 512 < 65536 + 240 + 208).
Proof.
  destruct (marked_object_outside_holes zeroed 65536 (65536 + 240) 208) as (self' & E & _ & _ & H);
    [apply zeroed_wf|reflexivity|lia|lia|reflexivity|].
  exists self'. split; [exact E|]. vm_compute in E. injection E as <-.
  assert (Es : scan_block (mkBlock [6; 0; 0; 0] false 0 false) 65536 47 = Ok (Some (512, 32767)))
    by (vm_compute; reflexivity).
  split; [exact Es|]. apply (H 47 512 32767 (65536 + 512)); [lia|exact Es|lia].
Defined.

(** An object that does not fit its block makes the marker panic: when the last
    line number exceeds 255, [line_object_mark] indexes past the four words of the
    line map. *)
Theorem line_mark_past_block_panics self b object size : block_wf self → 0 <= size →
  NUM_LINES_PER_BLOCK <= object_to_line_num object + size / LINE_SIZE →
  line_object_mark self b object size = Panic IndexOutOfBounds.
Proof. intros Hw Hs H. consts. by apply modify_line_oob. Qed.

Lemma line_mark_past_block_panics_witness :
  line_object_mark zeroed 0 (32768 - 128) 128 = Panic IndexOutOfBounds.
Proof.
  apply (line_mark_past_block_panics zeroed 0 (32768 - 128) 128);
    [apply zeroed_wf|lia|vm_compute; discriminate].
Defined.

(** [count_holes] does not count the holes of the block: a maximal run of [n]
    unmarked lines adds [(n + 1) / 2] to the result instead of one, because every
    second line of the run leaves the [in_hole] state. *)
Theorem count_holes_counts_half_runs self b : block_wf self →
  let n := sum_list (half_up <$> free_runs 0 (line_marks self)) in
  count_holes self b =
    Ok (n, mkBlock (line_map self) (allocated self) (trunc 32 n) (evacuation_candidate self)).
Proof.
  intros Hw n. destruct (count_holes_fold self b Hw) as (r & -> & ->).
  pose proof (hole_fold_runs (line_marks self) 0 0 ltac:(lia)) as E.
  change (half_up 0) with 0 in E. change (Z.odd 0) with false in E.
  rewrite Z.add_0_r, Z.add_0_l in E. by rewrite E.
Qed.

Lemma count_holes_counts_half_runs_witness :
  free_runs 0 (line_marks zeroed) = [256] ∧
  count_holes zeroed 0 = Ok (128, mkBlock [0; 0; 0; 0] false 128 false).
Proof.
  split; [vm_compute; reflexivity|].
  rewrite (count_holes_counts_half_runs zeroed 0 zeroed_wf). vm_compute. reflexivity.
Defined.

End Block.
