(* ===== verification/BlockTyping.v ===== *)
(** * block.rs: the header of a block keeps its type

    The operations on a header as one language of updates, and the type of the header:
    four words of marks, and a hole count that fits its [u32] with room to spare. *)

From stdpp Require Import base numbers list list_numbers.
From Stdlib Require Import ZArith Lia.
From S2P Require Import Prelude Util Constants Bitmap Block.
Local Open Scope Z_scope.

Module BlockTyping.
Import Block.

(** An update of the header; objects are given with their size. *)
Inductive Update : Type :=
| LineObjectMark (object size : Z)
| LineObjectUnmark (object size : Z)
| CountHoles
| Reset
| SetAllocated (allocated : bool)
| SetCandidate (evacuation_candidate : bool).

Definition update (begin : Z) (self : ImmixBlock) (u : Update) : R ImmixBlock :=
  match u with
  | LineObjectMark o n => line_object_mark self begin o n
  | LineObjectUnmark o n => line_object_unmark self begin o n
  | CountHoles => '(_, self') ← count_holes self begin; Ok self'
  | Reset => Ok (reset self)
  | SetAllocated a => Ok (mkBlock (line_map self) a (hole_count self) (evacuation_candidate self))
  | SetCandidate c => Ok (mkBlock (line_map self) (allocated self) (hole_count self) c)
  end.

Definition typed (self : ImmixBlock) : Prop := block_wf self ∧ 0 <= hole_count self <= 128.

(** The bound of the loop of [modify_line], which counts the lines of an object from the one
    its address is in, and one more for each 128 bytes: the last index is one of the line
    map.  An object that ends exactly with its block is out of bounds; one of fewer
    than 128 bytes in the last line never is, even where it reaches over the end. *)
Definition in_line_map (u : Update) : bool :=
  match u with
  | LineObjectMark o n | LineObjectUnmark o n => bool_decide (object_to_line_num o + n / LINE_SIZE < NUM_LINES_PER_BLOCK)
  | _ => true
  end.
Definition sized (u : Update) : Prop :=
  match u with LineObjectMark _ n | LineObjectUnmark _ n => 0 <= n | _ => True end.

(** A hole is counted at most at every second line. *)
Lemma hole_fold_bound ls h (ih : bool) :
  h <= (foldl hole_step (h, ih) ls).1 ∧
  2 * (foldl hole_step (h, ih) ls).1 <= 2 * h + Z.of_nat (length ls) + (if ih then 0 else 1).
Proof.
  revert h ih. induction ls as [|m ls IH]; intros h ih; cbn [foldl length]; [destruct ih; cbn; lia|].
  unfold hole_step at 2 4. cbn [fst snd]. destruct ih, m; cbn; 
    match goal with |- context [foldl hole_step (?h', ?b) ls] => pose proof (IH h' b) as Hb end; cbn in Hb; lia.
Qed.

Lemma count_holes_typed self b : typed self → ∃ n self', count_holes self b = Ok (n, self') ∧ typed self' ∧ hole_count self' = n.
Proof.
  intros [Hw _]. destruct (count_holes_fold self b Hw) as (r & -> & Er).
  assert (Hl : length (line_marks self) = 256%nat) by (unfold line_marks, range; by rewrite length_fmap, length_seqZ).
  pose proof (hole_fold_bound (line_marks self) 0 false) as Hb. rewrite <-Er, Hl in Hb.
  assert (Et : trunc 32 r = r) by (apply Z.mod_small; lia).
  eexists _, _. split; [done|]. rewrite Et. split; [|done]. split; [done|]. cbn. lia.
Qed.

Lemma update_typed b self u : typed self → sized u →
  if in_line_map u then ∃ self', update b self u = Ok self' ∧ typed self' else update b self u = Panic IndexOutOfBounds.
Proof.
  intros Ht Hs. pose proof Ht as [Hw Hh].
  assert (Hline : ∀ o n mark, 0 <= n →
    if bool_decide (object_to_line_num o + n / LINE_SIZE < NUM_LINES_PER_BLOCK)
    then ∃ self', modify_line self b o n mark = Ok self' ∧ typed self'
    else modify_line self b o n mark = Panic IndexOutOfBounds).
  { intros o n mark Hn. change LINE_SIZE with 128. change NUM_LINES_PER_BLOCK with 256. case_bool_decide as C.
    - destruct (modify_line_ok self b o n mark Hw Hn C) as (s' & E & Hw' & Es & _). exists s'. split; [done|].
      split; [done|]. rewrite Es. done.
    - apply modify_line_oob; [done|done|lia]. }
  destruct u as [o n|o n| | |a|c]; cbn [in_line_map update]; try (by apply Hline); try by eexists.
  - destruct (count_holes_typed self b Ht) as (n & s' & -> & Ht' & _). by exists s'.
  - eexists. split; [done|]. destruct (reset_wf self Hw) as [Hr E]. split; [done|]. rewrite E. cbn. lia.
Qed.



End BlockTyping.
