(* ===== verification/SpaceBitmap.v ===== *)
(** * space_bitmap.rs: the bitmap over the whole heap

    [SpaceBitmap<ALIGNMENT>] maps every [ALIGNMENT] bytes of the heap to one bit of
    an anonymous mapping; the mapping is the list [words].  The code is the [sync]
    module (feature [threaded]) read sequentially, where an atomic load and store
    are a read and a write.  Accesses through
    [bitmap_begin] are raw: one past the mapping is [Panic BadAccess]. *)

From stdpp Require Import base numbers list list_numbers.
From Stdlib Require Import ZArith Lia.
From S2P Require Import Prelude Util Bitmap.
Local Open Scope Z_scope.

Record SpaceBitmap : Type := mkSpaceBitmap {
  words : list Z;
  bitmap_size : Z;
  heap_begin : Z;
  heap_limit : Z
}.

Module Space.
Import Words Rounding.

Section Align.
Context (ALIGNMENT : Z).

Definition offset_bit_index (offset : Z) : Z := (offset / ALIGNMENT) mod (word_bytes * 8).
Definition offset_to_index (offset : Z) : Z := offset / ALIGNMENT / (word_bytes * 8).
Definition index_to_offset (index : Z) : Z := index * ALIGNMENT * (word_bytes * 8).
Definition offset_to_mask (offset : Z) : Z := Z.shiftl 1 (offset_bit_index offset).

Definition compute_bitmap_size (capacity : Z) : R Z :=
  let bytes_covered_per_word := ALIGNMENT * (word_bytes * 8) in
  r ← round_up capacity bytes_covered_per_word;
  Ok (r / bytes_covered_per_word * word_bytes).

Definition compute_heap_size (bitmap_bytes : Z) : R Z :=
  bits ← u_mul 64 bitmap_bytes 8; u_mul 64 bits ALIGNMENT.

Definition new (mem_map : list Z) (bitmap_size heap_begin heap_capacity : Z) : R SpaceBitmap :=
  limit ← u_add 64 heap_begin heap_capacity;
  Ok (mkSpaceBitmap mem_map bitmap_size heap_begin limit).

Definition create_from_memmap (mem_map : list Z) (heap_begin heap_capacity : Z) : R SpaceBitmap :=
  bitmap_size ← compute_bitmap_size heap_capacity;
  limit ← u_add 64 heap_begin heap_capacity;
  Ok (mkSpaceBitmap mem_map bitmap_size heap_begin limit).

(** [MmapMut::map_anon(bitmap_size).unwrap()] is zeroed memory of that many bytes;
    a length of zero is an error of the crate. *)
Definition create (heap_begin heap_capacity : Z) : R SpaceBitmap :=
  bitmap_size ← compute_bitmap_size heap_capacity;
  if decide (bitmap_size = 0) then Panic UnwrapNone
  else create_from_memmap (replicate (Z.to_nat (bitmap_size / word_bytes)) 0) heap_begin heap_capacity.

Definition with_words (self : SpaceBitmap) (w : list Z) : SpaceBitmap :=
  mkSpaceBitmap w (bitmap_size self) (heap_begin self) (heap_limit self).

(** [object as isize - heap_begin as isize], used as [usize] afterwards. *)
Definition object_offset (self : SpaceBitmap) (object : Z) : R Z :=
  d ← i_sub (to_isize object) (to_isize (heap_begin self)); Ok (trunc 64 d).

Definition test (self : SpaceBitmap) (object : Z) : R bool :=
  offset ← object_offset self object;
  entry ← raw_idx (words self) (offset_to_index offset);
  Ok (bool_decide (Z.land entry (offset_to_mask offset) ≠ 0)).

(** Without another thread the compare-and-exchange loop ends in its first round. *)
Definition atomic_test_and_set (self : SpaceBitmap) (object : Z) : R (bool * SpaceBitmap) :=
  offset ← object_offset self object;
  let index := offset_to_index offset in
  let mask := offset_to_mask offset in
  old_word ← raw_idx (words self) index;
  if decide (Z.land old_word mask ≠ 0) then Ok (true, self)
  else
    w ← raw_upd (words self) index (Z.lor old_word mask);
    Ok (false, with_words self w).

Definition modify (SET_BIT : bool) (self : SpaceBitmap) (obj : Z) : R (bool * SpaceBitmap) :=
  offset ← u_sub obj (heap_begin self);
  let index := offset_to_index offset in
  let mask := offset_to_mask offset in
  old_word ← raw_idx (words self) index;
  w ← (if SET_BIT then
         if decide (Z.land old_word mask = 0) then raw_upd (words self) index (Z.lor old_word mask)
         else Ok (words self)
       else raw_upd (words self) index (Z.land old_word (u_not 64 mask)));
  Ok (bool_decide (Z.land old_word mask ≠ 0), with_words self w).

Definition clear (self : SpaceBitmap) (obj : Z) : R SpaceBitmap :=
  '(_, s) ← modify false self obj; Ok s.
Definition set (self : SpaceBitmap) (obj : Z) : R SpaceBitmap :=
  '(_, s) ← modify true self obj; Ok s.

Definition walk (self : SpaceBitmap) : R (list Z) :=
  len ← u_sub (heap_limit self) (heap_begin self);
  last ← u_sub len 1;
  let end_ := offset_to_index last in
  for_each (λ acc i,
      w ← raw_idx (words self) i;
      if decide (w ≠ 0) then
        v ← visit_word 64 ALIGNMENT (index_to_offset i + heap_begin self) w; Ok (acc ++ v)
      else Ok acc) (range 0 (end_ + 1)) [].

Definition visit_marked_range (self : SpaceBitmap) (visit_begin visit_end : Z) : R (list Z) :=
  offset_start ← u_sub visit_begin (heap_begin self);
  offset_end ← u_sub visit_end (heap_begin self);
  let index_start := offset_to_index offset_start in
  let index_end := offset_to_index offset_end in
  bit_start ← u_mul 64 (offset_start / ALIGNMENT) (word_bytes * 8);
  bit_end ← u_mul 64 (offset_end / ALIGNMENT) (word_bytes * 8);
  left0 ← raw_idx (words self) index_start;
  ms ← u_shl1 64 bit_start;
  let left_edge := Z.land left0 (u_not 64 (ms - 1)) in
  '(visited, right0) ←
    (if decide (index_start < index_end) then
       v1 ← (if decide (left_edge ≠ 0)
             then visit_word 64 ALIGNMENT (index_to_offset index_start + heap_begin self) left_edge
             else Ok []);
       v2 ← for_each (λ acc i,
              w ← raw_idx (words self) i;
              if decide (w ≠ 0) then
                v ← visit_word 64 ALIGNMENT (index_to_offset i + heap_begin self) w; Ok (acc ++ v)
              else Ok acc) (range (index_start + 1) index_end) [];
       r ← (if decide (bit_end = 0) then Ok 0 else raw_idx (words self) index_end);
       Ok (v1 ++ v2, r)
     else Ok ([], left_edge));
  me ← u_shl1 64 bit_end;
  let right_edge := Z.land right0 (me - 1) in
  v3 ← (if decide (right_edge ≠ 0)
        then visit_word 64 ALIGNMENT (index_to_offset index_end + heap_begin self) right_edge
        else Ok []);
  Ok (visited ++ v3).

(** The inner loop of [sweep_walk]: it appends [ptr_base + shift + ALIGNMENT] for
    every garbage bit. *)
Fixpoint sweep_word (fuel : nat) (ptr_base garbage : Z) (buf : list Z) : R (list Z) :=
  match fuel with
  | O => NoFuel
  | S fuel' =>
      let shift := trailing_zeros garbage in
      m ← u_shl1 64 shift;
      let garbage' := Z.lxor garbage m in
      let buf' := buf ++ [ptr_base + shift + ALIGNMENT] in
      if decide (garbage' ≠ 0) then sweep_word fuel' ptr_base garbage' buf' else Ok buf'
  end.

(** [sweep_walk]; the result is the list of buffers handed to [callback]. *)
Definition sweep_walk (live_bitmap mark_bitmap : SpaceBitmap) (sweep_begin sweep_end : Z)
    : R (list (list Z)) :=
  if decide (sweep_end <= sweep_begin) then Ok []
  else
    let buffer_size := word_bytes * (word_bytes * 8) in
    let pointer_end := buffer_size - word_bytes * 8 in
    so ← u_sub sweep_begin (heap_begin live_bitmap);
    eo ← u_sub sweep_end (heap_begin live_bitmap);
    eo' ← u_sub eo 1;
    '(buf, calls) ← for_each (λ '(buf, calls) i,
        live ← raw_idx (words live_bitmap) i;
        mark ← raw_idx (words mark_bitmap) i;
        let garbage := Z.land live (u_not 64 mark) in
        if decide (garbage ≠ 0) then
          buf' ← sweep_word 64 (index_to_offset i + heap_begin live_bitmap) garbage buf;
          if decide (pointer_end <= Z.of_nat (length buf')) then Ok ([], calls ++ [buf'])
          else Ok (buf', calls)
        else Ok (buf, calls)) (range (offset_to_index so) (offset_to_index eo' + 1)) ([], []);
    Ok (if decide (pointer_end <= Z.of_nat (length buf)) then calls ++ [buf] else calls).

Definition set_heap_limit (self : SpaceBitmap) (new_end : Z) : R SpaceBitmap :=
  o ← u_sub new_end (heap_begin self);
  let new_size := offset_to_index o * word_bytes in
  Ok (mkSpaceBitmap (words self)
        (if decide (new_size < bitmap_size self) then new_size else bitmap_size self)
        (heap_begin self) new_end).

Definition clear_to_zeros (self : SpaceBitmap) : SpaceBitmap :=
  with_words self ((λ _, 0) <$> words self).

(** The two [while] loops of [clear_range]. *)
Fixpoint clear_front (fuel : nat) (self : SpaceBitmap) (begin_offset end_offset : Z)
    : R (Z * SpaceBitmap) :=
  match fuel with
  | O => NoFuel
  | S fuel' =>
      if decide (begin_offset < end_offset ∧ offset_bit_index begin_offset ≠ 0) then
        self' ← clear self (heap_begin self + begin_offset);
        clear_front fuel' self' (begin_offset + ALIGNMENT) end_offset
      else Ok (begin_offset, self)
  end.

Fixpoint clear_back (fuel : nat) (self : SpaceBitmap) (begin_offset end_offset : Z)
    : R (Z * SpaceBitmap) :=
  match fuel with
  | O => NoFuel
  | S fuel' =>
      if decide (begin_offset < end_offset ∧ offset_bit_index end_offset ≠ 0) then
        end_offset' ← u_sub end_offset ALIGNMENT;
        self' ← clear self (heap_begin self + end_offset');
        clear_back fuel' self' begin_offset end_offset'
      else Ok (end_offset, self)
  end.

(** [write_bytes(bitmap_begin.add(start), 0, count * 8)]. *)
Definition zero_words (w : list Z) (start count : Z) : R (list Z) :=
  for_each (λ w i, raw_upd w i 0) (range start (start + count)) w.

(** Each of the two loops stops within 64 rounds, at a word boundary. *)
Definition clear_range (self : SpaceBitmap) (begin end_ : Z) : R SpaceBitmap :=
  begin_offset ← u_sub begin (heap_begin self);
  end_offset ← u_sub end_ (heap_begin self);
  '(begin_offset', s1) ← clear_front 65 self begin_offset end_offset;
  '(end_offset', s2) ← clear_back 65 s1 begin_offset' end_offset;
  let start_index := offset_to_index begin_offset' in
  let end_index := offset_to_index end_offset' in
  count ← u_sub end_index start_index;
  w ← zero_words (words s2) start_index count;
  Ok (with_words s2 w).

Definition set_heap_size (self : SpaceBitmap) (bytes : Z) : R SpaceBitmap :=
  limit ← u_add 64 (heap_begin self) bytes;
  Ok (mkSpaceBitmap (words self) (offset_to_index bytes * word_bytes) (heap_begin self) limit).

Definition copy_from (self source : SpaceBitmap) : R SpaceBitmap :=
  w ← for_each (λ w i, x ← raw_idx (words source) i; raw_upd w i x)
        (range 0 (bitmap_size source / word_bytes)) (words self);
  Ok (with_words self w).

(** ** Granules *)

(** The mark of granule [g]; the address of granule [g] is [heap_begin + g * ALIGNMENT]. *)
Definition marked (self : SpaceBitmap) (g : Z) : bool := bit (words self) g.
Definition granule (self : SpaceBitmap) (obj : Z) : Z := (obj - heap_begin self) / ALIGNMENT.
Definition granules (self : SpaceBitmap) : Z := Words.capacity (words self).
Definition space_wf (self : SpaceBitmap) : Prop := Words.wf (words self).

(** [s'] is [s] with other marks. *)
Definition same_shape (s s' : SpaceBitmap) : Prop :=
  s' = with_words s (words s') ∧ length (words s') = length (words s).

Context (Halign : 0 < ALIGNMENT).

Lemma raw_idx_ok (l : list Z) i : 0 <= i < Z.of_nat (length l) →
  raw_idx l i = Ok (default 0 (l !! Z.to_nat i)).
Proof.
  intros Hi. unfold raw_idx. rewrite decide_True by lia.
  destruct (l !! Z.to_nat i) eqn:E; [done|]. apply lookup_ge_None in E. lia.
Qed.

Lemma raw_upd_ok (l : list Z) i w : 0 <= i < Z.of_nat (length l) →
  raw_upd l i w = Ok (<[Z.to_nat i := w]> l).
Proof. intros. unfold raw_upd. by rewrite decide_True. Qed.

Lemma same_shape_trans s1 s2 s3 : same_shape s1 s2 → same_shape s2 s3 → same_shape s1 s3.
Proof.
  intros [E1 L1] [E2 L2]. split; [|congruence]. rewrite E2, E1. done.
Qed.

Lemma same_shape_refl s : same_shape s s.
Proof. split; [by destruct s|done]. Qed.

Lemma same_shape_begin s s' : same_shape s s' → heap_begin s' = heap_begin s.
Proof. by intros [-> _]. Qed.

Lemma same_shape_granules s s' : same_shape s s' → granules s' = granules s.
Proof. intros [_ L]. unfold granules, Words.capacity. by rewrite L. Qed.

(** [g / 64] indexes the words of the map. *)
Lemma word_index self g : 0 <= g < granules self → 0 <= g / 64 < Z.of_nat (length (words self)).
Proof. unfold granules, Words.capacity. intros. Z.div_mod_to_equations. lia. Qed.

Lemma modify_ok b self obj : space_wf self → heap_begin self <= obj →
  granule self obj < granules self →
  ∃ s', modify b self obj = Ok (marked self (granule self obj), s') ∧ space_wf s' ∧
    same_shape self s' ∧
    ∀ j, 0 <= j → marked s' j = if decide (j = granule self obj) then b else marked self j.
Proof.
  intros Hw Hb Hg. unfold modify. rewrite u_sub_ok by done. rewrite bind_Ok.
  unfold offset_to_index, offset_to_mask, offset_bit_index, word_bytes. change (8 * 8) with 64.
  fold (granule self obj). set (g := granule self obj) in *.
  assert (Hg0 : 0 <= g) by (apply Z.div_pos; lia).
  pose proof (word_index self g ltac:(lia)) as Hi. pose proof (Z.mod_pos_bound g 64) as Hm.
  rewrite raw_idx_ok by done. rewrite bind_Ok. set (w := default 0 (words self !! Z.to_nat (g / 64))).
  assert (Ew : bool_decide (Z.land w (Z.shiftl 1 (g mod 64)) ≠ 0) = marked self g)
    by (by rewrite land_mask_nz by lia).
  rewrite Ew. assert (Hww : in_width 64 w) by (by apply wf_word).
  destruct b.
  - destruct (decide (Z.land w (Z.shiftl 1 (g mod 64)) = 0)) as [E|E].
    + rewrite raw_upd_ok by done. rewrite bind_Ok. eexists. split; [done|]. split_and!.
      * apply wf_insert; [done|]. apply in_width_lor; [done|apply in_width_bit1; lia].
      * split; [done|]. apply length_insert.
      * intros j Hj. unfold marked. cbn [words with_words]. unfold w. rewrite bit_set_word by (unfold granules in *; lia).
        apply orb_decide.
    + rewrite bind_Ok. eexists. split; [done|]. split_and!; [done|by split|].
      intros j Hj. destruct (decide (j = g)) as [->|]; [|done]. change (marked self g = true). rewrite <- Ew.
      by apply bool_decide_eq_true.
  - rewrite raw_upd_ok by done. rewrite bind_Ok. eexists. split; [done|]. split_and!.
    + apply wf_insert; [done|]. apply in_width_land; [done|]. apply u_not_nonneg, in_width_bit1. lia.
    + split; [done|]. apply length_insert.
    + intros j Hj. unfold marked. cbn [words with_words]. unfold w.
      rewrite bit_clear_word by (unfold granules in *; done || lia).
      apply andb_decide.
Qed.

Lemma clear_ok self obj : space_wf self → heap_begin self <= obj → granule self obj < granules self →
  ∃ s', clear self obj = Ok s' ∧ space_wf s' ∧ same_shape self s' ∧
    ∀ j, 0 <= j → marked s' j = if decide (j = granule self obj) then false else marked self j.
Proof.
  intros Hw Hb Hg. unfold clear. destruct (modify_ok false self obj Hw Hb Hg) as (s' & -> & H).
  exists s'. by split.
Qed.

Lemma set_ok self obj : space_wf self → heap_begin self <= obj → granule self obj < granules self →
  ∃ s', set self obj = Ok s' ∧ space_wf s' ∧ same_shape self s' ∧
    ∀ j, 0 <= j → marked s' j = if decide (j = granule self obj) then true else marked self j.
Proof.
  intros Hw Hb Hg. unfold set. destruct (modify_ok true self obj Hw Hb Hg) as (s' & -> & H).
  exists s'. by split.
Qed.

Lemma object_offset_ok self obj : 0 <= heap_begin self <= obj → obj < 2 ^ 63 →
  object_offset self obj = Ok (obj - heap_begin self).
Proof.
  intros Hb Ho. unfold object_offset.
  assert (E : ∀ x, x < 2 ^ 63 → to_isize x = x) by (intros; unfold to_isize; by rewrite decide_True).
  rewrite !E by lia. unfold i_sub. rewrite decide_True by lia. rewrite bind_Ok.
  by rewrite trunc_small by (unfold in_width; lia).
Qed.

Lemma test_ok self obj : 0 <= heap_begin self <= obj → obj < 2 ^ 63 →
  granule self obj < granules self → test self obj = Ok (marked self (granule self obj)).
Proof.
  intros Hb Ho Hg. unfold test. rewrite object_offset_ok by done. rewrite bind_Ok.
  unfold offset_to_index, offset_to_mask, offset_bit_index, word_bytes. change (8 * 8) with 64.
  fold (granule self obj). assert (0 <= granule self obj) by (apply Z.div_pos; lia).
  rewrite raw_idx_ok by (apply word_index; lia). rewrite bind_Ok. f_equal.
  apply land_mask_nz. apply Z.mod_pos_bound. lia.
Qed.

Lemma test_oob self obj : 0 <= heap_begin self <= obj → obj < 2 ^ 63 →
  granules self <= granule self obj → test self obj = Panic BadAccess.
Proof.
  intros Hb Ho Hg. unfold test. rewrite object_offset_ok by done. rewrite bind_Ok.
  unfold offset_to_index, word_bytes. change (8 * 8) with 64. fold (granule self obj).
  unfold granules, Words.capacity in Hg. unfold raw_idx.
  assert (Z.of_nat (length (words self)) <= granule self obj / 64) by (apply Z.div_le_lower_bound; lia).
  rewrite decide_True by lia. by rewrite (proj2 (lookup_ge_None _ _)) by lia.
Qed.

(** ** Clearing a range *)

Lemma granule_addr self g : granule self (heap_begin self + g * ALIGNMENT) = g.
Proof.
  unfold granule. replace (heap_begin self + g * ALIGNMENT - heap_begin self) with (g * ALIGNMENT) by lia.
  apply Z.div_mul. lia.
Qed.

Lemma bit_index_mul g : offset_bit_index (g * ALIGNMENT) = g mod 64.
Proof. unfold offset_bit_index. by rewrite Z.div_mul by lia. Qed.

Lemma clear_front_ok fuel self g1 g2 : space_wf self → 0 <= g1 <= g2 → g2 <= granules self →
  (- g1) mod 64 < Z.of_nat fuel →
  ∃ g1' s', clear_front fuel self (g1 * ALIGNMENT) (g2 * ALIGNMENT) = Ok (g1' * ALIGNMENT, s') ∧
    g1 <= g1' <= g2 ∧ (g1' = g2 ∨ g1' mod 64 = 0) ∧ space_wf s' ∧ same_shape self s' ∧
    ∀ j, 0 <= j → marked s' j = if decide (g1 <= j < g1') then false else marked self j.
Proof.
  revert self g1. induction fuel as [|fuel IH]; intros self g1 Hw Hg1 Hg2 Hf.
  { pose proof (Z.mod_pos_bound (- g1) 64). lia. }
  cbn [clear_front]. rewrite bit_index_mul. case_decide as C.
  - destruct C as [C1 C2]. assert (g1 < g2) by nia.
    destruct (clear_ok self (heap_begin self + g1 * ALIGNMENT)) as (s1 & -> & Hw1 & Hs1 & Hm1);
      rewrite ?granule_addr; [done|nia|lia|]. rewrite bind_Ok.
    rewrite granule_addr in Hm1.
    replace (g1 * ALIGNMENT + ALIGNMENT) with ((g1 + 1) * ALIGNMENT) by lia.
    destruct (IH s1 (g1 + 1)) as (g1' & s' & -> & Hr & Hor & Hw' & Hs' & Hm'); [done|lia| |Z.div_mod_to_equations; lia|].
    { by rewrite (same_shape_granules _ _ Hs1). }
    exists g1', s'. split_and!; try done; try lia; [by eapply same_shape_trans|].
    intros j Hj. rewrite Hm', Hm1 by done. repeat case_decide; try done; lia.
  - exists g1, self. split_and!; try done; try lia; [|apply same_shape_refl|].
    + destruct (Z.eq_dec g1 g2); [by left|right].
      destruct (Z.eq_dec (g1 mod 64) 0); [done|]. exfalso. apply C. split; [nia|done].
    + intros j Hj. by rewrite decide_False by lia.
Qed.

Lemma clear_back_ok fuel self g1 g2 : space_wf self → 0 <= g1 <= g2 → g2 <= granules self →
  g2 mod 64 < Z.of_nat fuel →
  ∃ g2' s', clear_back fuel self (g1 * ALIGNMENT) (g2 * ALIGNMENT) = Ok (g2' * ALIGNMENT, s') ∧
    g1 <= g2' <= g2 ∧ (g2' = g1 ∨ g2' mod 64 = 0) ∧ space_wf s' ∧ same_shape self s' ∧
    ∀ j, 0 <= j → marked s' j = if decide (g2' <= j < g2) then false else marked self j.
Proof.
  revert self g2. induction fuel as [|fuel IH]; intros self g2 Hw Hg1 Hg2 Hf.
  { pose proof (Z.mod_pos_bound g2 64). lia. }
  cbn [clear_back]. rewrite bit_index_mul. case_decide as C.
  - destruct C as [C1 C2]. assert (g1 < g2) by nia.
    rewrite u_sub_ok by nia. rewrite bind_Ok.
    replace (g2 * ALIGNMENT - ALIGNMENT) with ((g2 - 1) * ALIGNMENT) by lia.
    destruct (clear_ok self (heap_begin self + (g2 - 1) * ALIGNMENT)) as (s1 & -> & Hw1 & Hs1 & Hm1);
      rewrite ?granule_addr; [done|nia|lia|]. rewrite bind_Ok.
    rewrite granule_addr in Hm1.
    destruct (IH s1 (g2 - 1)) as (g2' & s' & -> & Hr & Hor & Hw' & Hs' & Hm'); [done|lia| |Z.div_mod_to_equations; lia|].
    { rewrite (same_shape_granules _ _ Hs1). lia. }
    exists g2', s'. split_and!; try done; try lia; [by eapply same_shape_trans|].
    intros j Hj. rewrite Hm', Hm1 by done. repeat case_decide; try done; lia.
  - exists g2, self. split_and!; try done; try lia; [|apply same_shape_refl|].
    + destruct (Z.eq_dec g1 g2); [by left|right].
      destruct (Z.eq_dec (g2 mod 64) 0); [done|]. exfalso. apply C. split; [nia|done].
    + intros j Hj. by rewrite decide_False by lia.
Qed.

Lemma zero_words_ok l start count : wf l → 0 <= start → 0 <= count →
  start + count <= Z.of_nat (length l) →
  ∃ l', zero_words l start count = Ok l' ∧ wf l' ∧ length l' = length l ∧
    ∀ j, 0 <= j → bit l' j = if decide (start <= j / 64 < start + count) then false else bit l j.
Proof.
  intros Hw Hs Hc Hlen. unfold zero_words.
  destruct (for_each_range (λ w i, raw_upd w i 0)
    (λ i l', wf l' ∧ length l' = length l ∧
       ∀ j, 0 <= j → bit l' j = if decide (start <= j / 64 < i) then false else bit l j)
    start (start + count) l) as (l' & E & H); [lia| | |by eauto].
  - split_and!; try done. intros. by rewrite decide_False by lia.
  - intros i s Hi (Hws & Hls & Hbs). rewrite raw_upd_ok by lia. eexists. split; [done|].
    split_and!; [apply wf_insert; [done|split; [lia|done]]|by rewrite length_insert|].
    intros j Hj. rewrite bit_insert by lia. pose proof (Z.div_pos j 64 Hj).
    case_decide as E1.
    + rewrite Z.bits_0. by rewrite decide_True by lia.
    + rewrite Hbs by done. repeat case_decide; try done; lia.
Qed.

Lemma clear_range_ok self g1 g2 : space_wf self → 0 <= g1 <= g2 → g2 <= granules self →
  ∃ s', clear_range self (heap_begin self + g1 * ALIGNMENT) (heap_begin self + g2 * ALIGNMENT) = Ok s' ∧
    space_wf s' ∧ same_shape self s' ∧
    ∀ j, 0 <= j → marked s' j = if decide (g1 <= j < g2) then false else marked self j.
Proof.
  intros Hw Hg1 Hg2. unfold clear_range. rewrite !u_sub_ok by nia. rewrite !bind_Ok.
  replace (heap_begin self + g1 * ALIGNMENT - heap_begin self) with (g1 * ALIGNMENT) by lia.
  replace (heap_begin self + g2 * ALIGNMENT - heap_begin self) with (g2 * ALIGNMENT) by lia.
  pose proof (Z.mod_pos_bound (- g1) 64). pose proof (Z.mod_pos_bound g2 64).
  destruct (clear_front_ok 65 self g1 g2 Hw Hg1 Hg2 ltac:(lia))
    as (a & s1 & -> & Ha & Hora & Hw1 & Hs1 & Hm1). rewrite bind_Ok.
  destruct (clear_back_ok 65 s1 a g2 Hw1 ltac:(lia)) as (c & s2 & -> & Hc & Horc & Hw2 & Hs2 & Hm2);
    [by rewrite (same_shape_granules _ _ Hs1)|lia|]. rewrite bind_Ok.
  unfold offset_to_index, word_bytes. change (8 * 8) with 64. rewrite !Z.div_mul by lia.
  assert (a / 64 <= c / 64) by (apply Z.div_le_mono; lia).
  rewrite u_sub_ok by done. rewrite bind_Ok.
  pose proof (same_shape_trans _ _ _ Hs1 Hs2) as Hs12.
  assert (Hcap : granules s2 = granules self) by (by apply same_shape_granules).
  assert (0 <= a / 64) by (apply Z.div_pos; lia).
  destruct (zero_words_ok (words s2) (a / 64) (c / 64 - a / 64) Hw2) as (l & -> & Hwl & Hll & Hbl); [lia|lia| |].
  { unfold granules, Words.capacity in *. Z.div_mod_to_equations. lia. }
  rewrite bind_Ok. eexists. split; [done|]. split_and!; [done| |].
  { split; [|cbn; rewrite Hll; apply Hs12]. destruct Hs12 as [E _]. rewrite E. done. }
  intros j Hj. unfold marked. cbn [words with_words]. rewrite Hbl by done.
  replace (a / 64 + (c / 64 - a / 64)) with (c / 64) by lia.
  change (bit (words s2) j) with (marked s2 j). rewrite Hm2, Hm1 by done.
  assert (Hj64 : a < c → (a / 64 <= j / 64 < c / 64 ↔ a <= j < c)).
  { intros. assert (a mod 64 = 0) by lia. assert (c mod 64 = 0) by lia. Z.div_mod_to_equations. lia. }
  assert (Heq : c <= a → ¬ (a / 64 <= j / 64 < c / 64)) by (intros; replace c with a by lia; lia).
  repeat case_decide; try done; try lia.
Qed.

(** ** Walking the marked granules *)

Definition marked_addresses (self : SpaceBitmap) (n : Z) : list Z :=
  (λ g, heap_begin self + g * ALIGNMENT) <$> filter (λ g, marked self g = true) (range 0 n).

Lemma word_granules (l : list Z) i : 0 <= i →
  filter (λ g, bit l g = true) (range (64 * i) (64 * i + 64)) =
  Z.add (64 * i) <$> bits_from (default 0 (l !! Z.to_nat i)) 0.
Proof.
  intros Hi. unfold range, bits_from.
  replace (64 * i + 64 - 64 * i) with (64 - 0) by lia.
  rewrite <- (Z.add_0_r (64 * i)) at 1. rewrite <- fmap_add_seqZ.
  rewrite filter_fmap. f_equal. apply filter_ext_in. intros k Hk%elem_of_seqZ.
  unfold bit. replace ((64 * i + k) / 64) with i by (Z.div_mod_to_equations; lia).
  by replace ((64 * i + k) mod 64) with k by (Z.div_mod_to_equations; lia).
Qed.

Lemma marked_addresses_word self i : 0 <= i →
  marked_addresses self (64 * (i + 1)) = marked_addresses self (64 * i) ++
    ((λ k, index_to_offset i + heap_begin self + k * ALIGNMENT) <$>
       bits_from (default 0 (words self !! Z.to_nat i)) 0).
Proof.
  intros Hi. unfold marked_addresses. rewrite (range_app 0 (64 * i)) by lia.
  rewrite filter_app, fmap_app. f_equal. replace (64 * (i + 1)) with (64 * i + 64) by lia.
  unfold marked. rewrite word_granules, <- list_fmap_compose by done.
  apply list_fmap_ext. intros _ k _. cbn. unfold index_to_offset, word_bytes. lia.
Qed.

Lemma walk_ok self : space_wf self → heap_begin self < heap_limit self →
  let n := (heap_limit self - heap_begin self - 1) / ALIGNMENT / 64 + 1 in
  n <= Z.of_nat (length (words self)) →
  walk self = Ok (marked_addresses self (64 * n)).
Proof.
  intros Hw Hl n Hn. unfold walk. rewrite !u_sub_ok by lia. rewrite bind_Ok, u_sub_ok by lia. rewrite bind_Ok.
  unfold offset_to_index, word_bytes. change (8 * 8) with 64. fold n.
  assert (0 <= n). { unfold n. assert (0 <= (heap_limit self - heap_begin self - 1) / ALIGNMENT / 64); [|lia].
    do 2 (apply Z.div_pos; [|lia]). lia. }
  match goal with |- for_each ?f _ _ = _ =>
    destruct (for_each_range f (λ i acc, acc = marked_addresses self (64 * i)) 0 n []) as (acc & -> & ->) end;
    try done.
  intros i acc Hi ->. rewrite raw_idx_ok by lia. rewrite bind_Ok.
  set (w := default 0 (words self !! Z.to_nat i)) in *.
  rewrite marked_addresses_word by lia. fold w.
  destruct (decide (w ≠ 0)) as [Hz|Hz].
  - rewrite visit_word_all by (try done; by apply wf_word). rewrite bind_Ok. by eexists.
  - assert (w = 0) as -> by lia. rewrite bits_from_0. cbn. rewrite app_nil_r. by eexists.
Qed.

(** What [sweep_walk] writes for the garbage bits of a word. *)
Lemma sweep_word_spec base buf fuel g k : 0 < g → in_width 64 g → 0 <= k →
  (∀ i, 0 <= i < k → Z.testbit g i = false) → 64 - k <= Z.of_nat fuel →
  sweep_word fuel base g buf = Ok (buf ++ ((λ i, base + i + ALIGNMENT) <$> bits_from g k)).
Proof.
  revert g k buf. induction fuel as [|fuel IH]; intros g k buf Hg Hb Hk Hlow Hf.
  - rewrite (word_zero g) in Hg; [lia|done|]. intros. apply Hlow. lia.
  - cbn [sweep_word]. destruct (bits_from_step g k Hg Hb Hk Hlow) as [Hkt ->].
    pose proof (trailing_zeros_bound g Hg Hb) as H64. set (t := trailing_zeros g) in *.
    rewrite u_shl1_ok, bind_Ok by done. cbn [fmap list_fmap]. pose proof (lxor_bit_width g t Hb ltac:(lia)) as Hb'.
    case_decide as Hz; [|by rewrite Hz, bits_from_0].
    rewrite (IH _ (t + 1)); try done; try (unfold in_width in *; lia); [by rewrite <- app_assoc|].
    intros i Hi. rewrite Z.lxor_spec, bit1_spec by lia.
    case_bool_decide as E; [subst i; unfold t; by rewrite (proj2 (trailing_zeros_set g Hg))|].
    rewrite trailing_zeros_lt; [done|done|unfold t in *; lia].
Qed.

(** The bits of word [i] that are live and not marked, and what is written for them. *)
Definition garbage_word (live mark : SpaceBitmap) (i : Z) : Z :=
  Z.land (default 0 (words live !! Z.to_nat i)) (u_not 64 (default 0 (words mark !! Z.to_nat i))).
Definition garbage_entries (live mark : SpaceBitmap) (lo hi : Z) : list Z :=
  range lo hi ≫= λ i, (λ s, index_to_offset i + heap_begin live + s + ALIGNMENT) <$> bits_from (garbage_word live mark i) 0.

Lemma garbage_entries_next live mark lo i : lo <= i →
  garbage_entries live mark lo (i + 1) = garbage_entries live mark lo i ++
    ((λ s, index_to_offset i + heap_begin live + s + ALIGNMENT) <$> bits_from (garbage_word live mark i) 0).
Proof.
  intros Hi. unfold garbage_entries. rewrite (range_app lo i (i + 1)), bind_app by lia. f_equal.
  rewrite (range_cons i), range_nil by lia. cbn. apply app_nil_r.
Qed.

Lemma length_bits_from g : Z.of_nat (length (bits_from g 0)) <= 64.
Proof.
  unfold bits_from. etrans; [apply inj_le, length_filter|]. rewrite length_seqZ. lia.
Qed.

Lemma sweep_walk_ok live mark sweep_begin sweep_end : space_wf live → space_wf mark →
  let start := (sweep_begin - heap_begin live) / ALIGNMENT / 64 in
  let stop := (sweep_end - heap_begin live - 1) / ALIGNMENT / 64 + 1 in
  0 <= heap_begin live <= sweep_begin → sweep_begin < sweep_end →
  stop <= Z.of_nat (length (words live)) → stop <= Z.of_nat (length (words mark)) →
  ∃ calls rest, sweep_walk live mark sweep_begin sweep_end = Ok calls ∧
    concat calls ++ rest = garbage_entries live mark start stop ∧
    Forall (λ buf, 448 <= Z.of_nat (length buf) <= 512) calls ∧ Z.of_nat (length rest) < 448.
Proof.
  intros Hwl Hwm start stop Hb Hlt Hl Hm. unfold sweep_walk. rewrite decide_False by lia.
  rewrite !u_sub_ok by lia. rewrite !bind_Ok, u_sub_ok, bind_Ok by lia. unfold offset_to_index, word_bytes. change (8 * 8) with 64.
  fold start stop. change (8 * 64 - 64) with 448.
  assert (0 <= start <= stop).
  { unfold start, stop. split; [do 2 (apply Z.div_pos; [|lia]); lia|].
    assert ((sweep_begin - heap_begin live) / ALIGNMENT / 64 <= (sweep_end - heap_begin live - 1) / ALIGNMENT / 64); [|lia].
    do 2 (apply Z.div_le_mono; [lia|]). lia. }
  match goal with |- context [for_each ?f _ _] => destruct (for_each_range f (λ i '(buf, calls),
    concat calls ++ buf = garbage_entries live mark start i ∧ Forall (λ b, 448 <= Z.of_nat (length b) <= 512) calls ∧
    Z.of_nat (length buf) < 448) start stop ([], [])) as ([buf calls] & -> & Hc & Hf & Hr) end.
  - lia.
  - split_and!; [|constructor|done]. unfold garbage_entries. by rewrite range_nil.
  - intros i [buf calls] Hi (Hc & Hf & Hr). rewrite !raw_idx_ok, !bind_Ok by lia. fold (garbage_word live mark i).
    rewrite garbage_entries_next by lia. set (g := garbage_word live mark i).
    assert (Hg : in_width 64 g) by (apply in_width_land; [by apply wf_word|]; apply u_not_nonneg; by apply wf_word).
    destruct (decide (g ≠ 0)) as [Hz|Hz].
    + rewrite (sweep_word_spec _ _ 64 g 0); [|unfold in_width in Hg; lia|done|lia|intros; lia|lia]. rewrite bind_Ok.
      pose proof (length_bits_from g) as Hlen. case_decide as C; rewrite length_app, length_fmap in C; eexists; (split; [done|]).
      * split_and!; [|apply Forall_app; split; [done|]; repeat constructor; rewrite length_app, length_fmap; lia|done].
        rewrite concat_app, app_nil_r. cbn. by rewrite app_nil_r, app_assoc, Hc.
      * split_and!; [by rewrite app_assoc, Hc|done|rewrite length_app, length_fmap; lia].
    + assert (g = 0) as -> by lia. rewrite bits_from_0, app_nil_r. eexists. split; [done|]. by split_and!.
  - rewrite bind_Ok, decide_False by lia. exists calls, buf. by split_and!.
Qed.

End Align.

(** ** Properties *)

(** A heap bitmap stores one mark per granule: after [set] of an object the test
    of any object of the covered heap succeeds without panicking, is true for
    objects of that granule and unchanged for all others. *)
Theorem set_then_test A self obj obj' : 0 < A → space_wf self →
  0 <= heap_begin self <= obj → granule A self obj < granules self →
  heap_begin self <= obj' < 2 ^ 63 → granule A self obj' < granules self →
  ∃ s', set A self obj = Ok s' ∧
    test A s' obj' = if decide (granule A self obj' = granule A self obj) then Ok true else test A self obj'.
Proof.
  intros HA Hw Hb Hg Hb' Hg'.
  destruct (set_ok A HA self obj Hw ltac:(lia) Hg) as (s' & E & Hw' & Hs & Hm).
  exists s'. split; [done|].
  pose proof (same_shape_begin _ _ Hs) as Eb. pose proof (same_shape_granules _ _ Hs) as Eg.
  assert (Egr : granule A s' obj' = granule A self obj') by (unfold granule; by rewrite Eb).
  rewrite !test_ok by (rewrite ?Egr, ?Eg, ?Eb; done || lia). rewrite Egr.
  rewrite Hm by (apply Z.div_pos; lia). by case_decide.
Qed.

Lemma set_then_test_witness : ∃ s', set 16 (mkSpaceBitmap [0; 0] 16 4096 6144) 4128 = Ok s' ∧
  test 16 s' 4128 = Ok true.
Proof.
  destruct (set_then_test 16 (mkSpaceBitmap [0; 0] 16 4096 6144) 4128 4128) as (s' & E & T);
    [lia|repeat constructor; done|cbn; lia|reflexivity|cbn; lia|reflexivity|].
  exists s'. split; [exact E|exact T].
Defined.

(** [clear_range] over granule-aligned bounds inside the map terminates without
    panicking and clears exactly the granules of the range, keeping every other
    mark, the whole-word fast path and the two edge loops included. *)
Theorem clear_range_exact A self g1 g2 : 0 < A → space_wf self →
  0 <= g1 <= g2 → g2 <= granules self →
  ∃ s', clear_range A self (heap_begin self + g1 * A) (heap_begin self + g2 * A) = Ok s' ∧
    space_wf s' ∧ same_shape self s' ∧
    ∀ j, 0 <= j → marked s' j = if decide (g1 <= j < g2) then false else marked self j.
Proof. intros. by apply clear_range_ok. Qed.

Lemma clear_range_exact_witness : ∃ s',
  clear_range 16 (mkSpaceBitmap [Z.ones 64; Z.ones 64; Z.ones 64] 24 4096 7168)
    (4096 + 3 * 16) (4096 + 130 * 16) = Ok s' ∧ marked s' 2 = true ∧ marked s' 64 = false.
Proof.
  destruct (clear_range_exact 16 (mkSpaceBitmap [Z.ones 64; Z.ones 64; Z.ones 64] 24 4096 7168) 3 130)
    as (s' & E & _ & _ & H); [lia|repeat constructor; done|lia|cbv; discriminate|].
  exists s'. split; [exact E|]. rewrite !H by lia. split; reflexivity.
Defined.

(** [walk] visits exactly the marked granules of the heap, in increasing order of
    address, and each one once. *)
Theorem walk_visits_marked A self : 0 < A → space_wf self → heap_begin self < heap_limit self →
  (heap_limit self - heap_begin self - 1) / A / 64 < Z.of_nat (length (words self)) →
  walk A self = Ok (marked_addresses A self
                      (64 * ((heap_limit self - heap_begin self - 1) / A / 64 + 1))).
Proof. intros HA Hw Hl Hn. apply walk_ok; try done. lia. Qed.

Lemma walk_visits_marked_witness :
  walk 16 (mkSpaceBitmap [5; Z.shiftl 1 63] 16 4096 6144) = Ok [4096; 4128; 6128].
Proof.
  rewrite (walk_visits_marked 16 (mkSpaceBitmap [5; Z.shiftl 1 63] 16 4096 6144));
    [vm_compute; reflexivity|lia|repeat constructor; done|cbn; lia|vm_compute; reflexivity].
Defined.

(** [sweep_walk] stays within its buffer of 512 entries and returns, for bitmaps that
    cover the range: the buffers it passes to the callback have 448 to 512 entries, and
    are together all entries for garbage but the last ones, fewer than 448, which no callback
    gets.  The entry for bit [s] of a word is the address of the word plus [s + ALIGNMENT] instead of [s * ALIGNMENT]. *)
Theorem sweep_walk_buffers A live mark sweep_begin sweep_end : 0 < A → space_wf live → space_wf mark →
  let start := (sweep_begin - heap_begin live) / A / 64 in
  let stop := (sweep_end - heap_begin live - 1) / A / 64 + 1 in
  0 <= heap_begin live <= sweep_begin → sweep_begin < sweep_end →
  stop <= Z.of_nat (length (words live)) → stop <= Z.of_nat (length (words mark)) →
  ∃ calls rest, sweep_walk A live mark sweep_begin sweep_end = Ok calls ∧
    concat calls ++ rest = garbage_entries A live mark start stop ∧
    Forall (λ buf, 448 <= Z.of_nat (length buf) <= 512) calls ∧ Z.of_nat (length rest) < 448.
Proof. intros HA Hl Hm start stop Hb. by apply sweep_walk_ok. Qed.

Lemma sweep_walk_buffers_witness : let live := mkSpaceBitmap [5; 0] 16 4096 6144 in let mark := mkSpaceBitmap [1; 0] 16 4096 6144 in
  sweep_walk 16 live mark 4096 6144 = Ok [] ∧ garbage_entries 16 live mark 0 2 = [4114].
Proof.
  intros live mark. destruct (sweep_walk_buffers 16 live mark 4096 6144) as (calls & rest & E & Hc & Hf & _);
    [lia|repeat constructor; done|repeat constructor; done|cbn; lia|lia|vm_compute; discriminate|vm_compute; discriminate|].
  split; [|vm_compute; reflexivity]. rewrite E. destruct calls as [|b calls]; [done|]. exfalso.
  apply Forall_cons in Hf as [Hb _]. assert (El : (length b <= length (garbage_entries 16 live mark 0 2))%nat).
  { change (garbage_entries 16 live mark 0 2) with (garbage_entries 16 live mark ((4096 - heap_begin live) / 16 / 64) ((6144 - heap_begin live - 1) / 16 / 64 + 1)).
    rewrite <- Hc. cbn. rewrite !length_app. lia. }
  assert (E1 : length (garbage_entries 16 live mark 0 2) = 1%nat) by (vm_compute; reflexivity). lia.
Defined.

(** [visit_marked_range] of the heap's bitmap has the same error as that of the generated
    ones, and never calls its visitor. *)
Theorem space_visits_nothing A self visit_begin visit_end l :
  0 < A → visit_marked_range A self visit_begin visit_end = Ok l → l = [].
Proof.
  intros Ha H. unfold visit_marked_range in H. ok_inv. destruct x5 as [visited right0]. ok_inv.
  assert (Hend : x0 / A * 64 < 64 ∧ 0 <= x0 ∧ 0 <= x).
  { unfold u_sub, u_mul, u_shl1, word_bytes in *. repeat case_decide; ok_inv; lia. }
  destruct Hend as (He & Hx0 & Hx). assert (Hz : x0 / A = 0) by (pose proof (Z.div_pos x0 A); lia).
  assert (0 <= x / A / 64) by (do 2 (apply Z.div_pos; [|lia]); done).
  unfold u_mul, u_shl1, offset_to_index, word_bytes in *. rewrite Hz in *.
  change (8 * 8) with 64 in *. change (0 / 64) with 0 in *. change (0 * 64) with 0 in *.
  rewrite (decide_False (P := x / A / 64 < 0)) in * by lia.
  rewrite (decide_True (P := 0 < 64)) in * by lia. repeat case_decide; ok_inv; try done.
  all: change (Z.shiftl 1 0 - 1) with 0 in *; rewrite Z.land_0_r in *; done.
Qed.

Lemma space_visits_nothing_witness : ∃ l,
  visit_marked_range 16 (mkSpaceBitmap [Z.ones 64] 8 4096 5120) 4096 4108 = Ok l ∧ l = [].
Proof.
  exists []. split; [reflexivity|].
  apply (space_visits_nothing 16 (mkSpaceBitmap [Z.ones 64] 8 4096 5120) 4096 4108); [lia|reflexivity].
Defined.

(** The size [compute_bitmap_size] reserves is right only for an even number of
    words: [round_down] clears the single bit of the unit instead of the bits below
    it, so the number of words is the ceiling of [capacity / (64 * ALIGNMENT)]
    rounded down to an even number, and a heap that needs an odd number of words
    gets one word less than it needs. *)
Theorem bitmap_size_rounds_to_even A k capacity n : A * 64 = 2 ^ k → 0 <= k < 64 → 0 <= capacity →
  compute_bitmap_size A capacity = Ok n →
  n = 8 * (2 * (Rounding.ceil_div capacity (A * 64) / 2)).
Proof.
  intros Hk Hk64 Hr. unfold compute_bitmap_size, word_bytes. change (8 * 8) with 64. rewrite Hk.
  intros H. apply bind_Ok_inv in H as (r & Hr' & [= <-]).
  apply Rounding.round_up_even in Hr'; [|done..]. lia.
Qed.

Lemma bitmap_size_rounds_to_even_witness :
  ∃ n, compute_bitmap_size 16 3072 = Ok n ∧ n = 16 ∧ Rounding.ceil_div 3072 1024 = 3.
Proof.
  exists 16. split; [reflexivity|]. split; [|reflexivity].
  apply (bitmap_size_rounds_to_even 16 10 3072 16); [reflexivity|lia|lia|reflexivity].
Defined.

End Space.
