(* ===== verification/BitmapUnsync.v ===== *)
(** * space_bitmap.rs: the bitmap of a build without threads

    The module [unsync]: the operations of [SpaceBitmap] on plain words, without
    [sweep_walk], [atomic_test_and_set], [walk], [visit_marked_range] and [copy_from],
    which only [sync] has.  The structure is that of [SpaceBitmap]; the arithmetic on offsets
    and the operations are written out here.  The
    contract is that of a finite set of granules. *)

From stdpp Require Import base numbers list list_numbers gmap sets.
From Stdlib Require Import ZArith Lia.
From S2P Require Import Prelude Util Bitmap SpaceBitmap.
Local Open Scope Z_scope.

Module Unsync.
Import Space(space_wf, marked, granule, granules, same_shape, same_shape_refl, same_shape_trans, same_shape_begin,
  same_shape_granules, set_ok, clear_ok, clear_range_ok, test_ok, object_offset, with_words, zero_words).

Section Align.
Context (ALIGNMENT : Z).

Definition offset_bit_index (offset : Z) : Z := (offset / ALIGNMENT) mod (word_bytes * 8).
Definition offset_to_index (offset : Z) : Z := offset / ALIGNMENT / (word_bytes * 8).
Definition index_to_offset (index : Z) : Z := index * ALIGNMENT * (word_bytes * 8).
Definition offset_to_mask (offset : Z) : Z := Z.shiftl 1 (offset_bit_index offset).

Definition compute_bitmap_size (capacity : Z) : R Z :=
  let bytes_covered_per_word := ALIGNMENT * (word_bytes * 8) in
  r ← Rounding.round_up capacity bytes_covered_per_word;
  Ok (r / bytes_covered_per_word * word_bytes).

Definition compute_heap_size (bitmap_bytes : Z) : R Z :=
  bits ← u_mul 64 bitmap_bytes 8; u_mul 64 bits ALIGNMENT.

Definition new (mem_map : list Z) (bitmap_size heap_begin heap_capacity : Z) : R SpaceBitmap :=
  limit ← u_add 64 heap_begin heap_capacity;
  Ok (mkSpaceBitmap mem_map bitmap_size heap_begin limit).

Definition create_from_memmap (mem_map : list Z) (heap_begin heap_capacity : Z) : R SpaceBitmap :=
  bitmap_size ← compute_bitmap_size heap_capacity;
  limit ← u_add 64 heap_begin heap_capacity;
  Ok (mkSpaceBitmap mem_map bitmap_size heap_begin limit).

(** [MmapMut::map_anon(bitmap_size).unwrap()], as in [SpaceBitmap]. *)
Definition create (heap_begin heap_capacity : Z) : R SpaceBitmap :=
  bitmap_size ← compute_bitmap_size heap_capacity;
  if decide (bitmap_size = 0) then Panic UnwrapNone
  else create_from_memmap (replicate (Z.to_nat (bitmap_size / word_bytes)) 0) heap_begin heap_capacity.

Definition test (self : SpaceBitmap) (object : Z) : R bool :=
  offset ← object_offset self object;
  atomic_entry ← raw_idx (words self) (offset_to_index offset);
  Ok (bool_decide (Z.land atomic_entry (offset_to_mask offset) ≠ 0)).

(** [atomic_entry] is [&mut *bitmap_begin.add(index)]: one place, read and written. *)
Definition modify (SET_BIT : bool) (self : SpaceBitmap) (obj : Z) : R (bool * SpaceBitmap) :=
  offset ← u_sub obj (heap_begin self);
  let index := offset_to_index offset in
  let mask := offset_to_mask offset in
  old_word ← raw_idx (words self) index;
  let write x := raw_upd (words self) index x in
  w ← (if SET_BIT then if decide (Z.land old_word mask = 0) then write (Z.lor old_word mask) else Ok (words self)
       else write (Z.land old_word (u_not 64 mask)));
  Ok (bool_decide (Z.land old_word mask ≠ 0), with_words self w).

Definition set_heap_limit (self : SpaceBitmap) (new_end : Z) : R SpaceBitmap :=
  o ← u_sub new_end (heap_begin self);
  let new_size := offset_to_index o * word_bytes in
  Ok (mkSpaceBitmap (words self) (if decide (new_size < bitmap_size self) then new_size else bitmap_size self)
        (heap_begin self) new_end).

Definition clear_to_zeros (self : SpaceBitmap) : SpaceBitmap := with_words self ((λ _, 0) <$> words self).

Definition clear (self : SpaceBitmap) (obj : Z) : R SpaceBitmap := '(_, s) ← modify false self obj; Ok s.
Definition set (self : SpaceBitmap) (obj : Z) : R SpaceBitmap := '(_, s) ← modify true self obj; Ok s.

Fixpoint clear_front (fuel : nat) (self : SpaceBitmap) (begin_offset end_offset : Z) : R (Z * SpaceBitmap) :=
  match fuel with
  | O => NoFuel
  | S fuel' =>
      if decide (begin_offset < end_offset ∧ offset_bit_index begin_offset ≠ 0) then
        self' ← clear self (heap_begin self + begin_offset);
        clear_front fuel' self' (begin_offset + ALIGNMENT) end_offset
      else Ok (begin_offset, self)
  end.

Fixpoint clear_back (fuel : nat) (self : SpaceBitmap) (begin_offset end_offset : Z) : R (Z * SpaceBitmap) :=
  match fuel with
  | O => NoFuel
  | S fuel' =>
      if decide (begin_offset < end_offset ∧ offset_bit_index end_offset ≠ 0) then
        end_offset' ← u_sub end_offset ALIGNMENT;
        self' ← clear self (heap_begin self + end_offset');
        clear_back fuel' self' begin_offset end_offset'
      else Ok (end_offset, self)
  end.

(** Each loop stops within 64 rounds, at the boundary of a word. *)
Definition clear_range (self : SpaceBitmap) (begin end_ : Z) : R SpaceBitmap :=
  begin_offset ← u_sub begin (heap_begin self);
  end_offset ← u_sub end_ (heap_begin self);
  '(begin_offset', s1) ← clear_front 65 self begin_offset end_offset;
  '(end_offset', s2) ← clear_back 65 s1 begin_offset' end_offset;
  let start_index := offset_to_index begin_offset' in
  let end_index := offset_to_index end_offset' in
  count ← u_sub end_index start_index;
  w ← zero_words (words s2) start_index count;
  Ok (with_words s2 w).

Definition set_heap_size (self : SpaceBitmap) (bytes : Z) : R SpaceBitmap :=
  limit ← u_add 64 (heap_begin self) bytes;
  Ok (mkSpaceBitmap (words self) (offset_to_index bytes * word_bytes) (heap_begin self) limit).

(** ** Operations as a client issues them, and on the set of granules *)

Inductive Op : Type :=
| OpSet (obj : Z)
| OpClear (obj : Z)
| OpClearRange (begin end_ : Z)
| OpClearAll.

Definition exec (s : SpaceBitmap) (op : Op) : R SpaceBitmap :=
  match op with
  | OpSet obj => set s obj
  | OpClear obj => clear s obj
  | OpClearRange b e => clear_range s b e
  | OpClearAll => Ok (clear_to_zeros s)
  end.

Definition spec (hb : Z) (G : gset Z) (op : Op) : gset Z :=
  match op with
  | OpSet obj => {[(obj - hb) / ALIGNMENT]} ∪ G
  | OpClear obj => G ∖ {[(obj - hb) / ALIGNMENT]}
  | OpClearRange b e => filter (λ g, ¬ ((b - hb) / ALIGNMENT <= g < (e - hb) / ALIGNMENT)) G
  | OpClearAll => ∅
  end.

(** The arguments are in the heap the bitmap covers; a range consists of granules. *)
Definition op_ok (s : SpaceBitmap) (op : Op) : Prop :=
  match op with
  | OpSet obj | OpClear obj => heap_begin s <= obj ∧ granule ALIGNMENT s obj < granules s
  | OpClearRange b e => heap_begin s <= b <= e ∧ (b - heap_begin s) mod ALIGNMENT = 0 ∧
      (e - heap_begin s) mod ALIGNMENT = 0 ∧ granule ALIGNMENT s e <= granules s
  | OpClearAll => True
  end.

#[global] Instance op_ok_dec s op : Decision (op_ok s op).
Proof. destruct op; apply _. Defined.

(** The bits are the characteristic function of [G]. *)
Definition refines (s : SpaceBitmap) (G : gset Z) : Prop :=
  space_wf s ∧ ∀ g, 0 <= g → marked s g = bool_decide (g ∈ G).

Context (Halign : 0 < ALIGNMENT).

Lemma op_ok_shape s s' op : same_shape s s' → op_ok s op ↔ op_ok s' op.
Proof.
  intros Hs. destruct op; cbn; unfold granule; rewrite <-?(same_shape_granules _ _ Hs); destruct Hs as [-> _]; done.
Qed.

Lemma granule_exact s b : heap_begin s <= b → (b - heap_begin s) mod ALIGNMENT = 0 →
  b = heap_begin s + granule ALIGNMENT s b * ALIGNMENT.
Proof. intros Hb Hm. unfold granule. Z.div_mod_to_equations. nia. Qed.

Lemma clear_to_zeros_ok s : space_wf (clear_to_zeros s) ∧ same_shape s (clear_to_zeros s) ∧
  ∀ g, 0 <= g → marked (clear_to_zeros s) g = false.
Proof.
  split_and!.
  - apply Forall_fmap, Forall_true. intros x. cbn. unfold in_width. lia.
  - split; [done|]. cbn. by rewrite length_fmap.
  - intros g _. unfold marked, Words.bit. cbn. rewrite list_lookup_fmap.
    destruct (words s !! _); cbn; apply Z.testbit_0_l.
Qed.

(** A new bitmap is the empty set of as many granules as its mapping has bits. *)
Lemma create_ok hb capacity n : compute_bitmap_size capacity = Ok n → 0 < n → 0 <= hb → 0 <= capacity → hb + capacity < 2 ^ 64 →
  ∃ s, create hb capacity = Ok s ∧ refines s ∅ ∧ heap_begin s = hb ∧ heap_limit s = hb + capacity ∧ granules s = n * 8.
Proof.
  intros En Hn Hb Hc Hs. unfold create, create_from_memmap. rewrite En, bind_Ok, decide_False by lia. rewrite u_add_ok by lia.
  rewrite !bind_Ok. assert (Hm : n mod 8 = 0).
  { unfold compute_bitmap_size in En. apply bind_Ok_inv in En as (r & _ & [= <-]). apply Z.mod_mul. done. }
  eexists. split; [done|]. split_and!; [|done|done|].
  - split; [apply Words.wf_zeros|]. intros g Hg. rewrite bool_decide_eq_false_2 by set_solver.
    unfold marked. cbn. apply Words.bit_zeros.
  - unfold granules, Words.capacity. cbn [words]. rewrite length_replicate. unfold word_bytes. Z.div_mod_to_equations. lia.
Qed.

(** The loops are those of the other build. *)
Lemma clear_front_eq fuel s b e : clear_front fuel s b e = Space.clear_front ALIGNMENT fuel s b e.
Proof.
  revert s b. induction fuel as [|fuel IH]; intros s b; [done|]. cbn [clear_front Space.clear_front].
  change (offset_bit_index b) with (Space.offset_bit_index ALIGNMENT b). case_decide; [|done].
  change (clear s (heap_begin s + b)) with (Space.clear ALIGNMENT s (heap_begin s + b)).
  destruct (Space.clear _ _ _); [apply IH|done..].
Qed.

Lemma clear_back_eq fuel s b e : clear_back fuel s b e = Space.clear_back ALIGNMENT fuel s b e.
Proof.
  revert s e. induction fuel as [|fuel IH]; intros s e; [done|]. cbn [clear_back Space.clear_back].
  change (offset_bit_index e) with (Space.offset_bit_index ALIGNMENT e). case_decide; [|done].
  destruct (u_sub e ALIGNMENT) as [e'| |]; [|done..]. rewrite !bind_Ok.
  change (clear s (heap_begin s + e')) with (Space.clear ALIGNMENT s (heap_begin s + e')).
  destruct (Space.clear _ _ _); [apply IH|done..].
Qed.

Lemma clear_range_eq s b e : clear_range s b e = Space.clear_range ALIGNMENT s b e.
Proof.
  unfold clear_range, Space.clear_range. generalize 65%nat. intros n. destruct (u_sub b _) as [bo| |]; [|done..]. destruct (u_sub e _) as [eo| |]; [|done..].
  rewrite !bind_Ok, clear_front_eq. destruct (Space.clear_front _ _ _ _ _) as [[b' s1]| |]; [|done..].
  rewrite !bind_Ok, clear_back_eq. by destruct (Space.clear_back _ _ _ _ _) as [[e' s2]| |].
Qed.

(** Every operation succeeds on its contract and does to the bits what it does to the set. *)
Lemma exec_ok s op : space_wf s → op_ok s op → ∃ s', exec s op = Ok s' ∧ space_wf s' ∧ same_shape s s' ∧
  ∀ G, refines s G → refines s' (spec (heap_begin s) G op).
Proof.
  intros Hw Ho. destruct op as [obj|obj|b e|]; cbn [exec op_ok spec] in *.
  - destruct (set_ok ALIGNMENT Halign s obj Hw) as (s' & E & Hw' & Hs & Hm); [tauto..|]. exists s'. split_and!; try done.
    intros G [_ HG]. split; [done|]. intros g Hg. rewrite Hm, HG by done. unfold granule.
    case_decide as C; symmetry; [apply bool_decide_eq_true; set_solver|apply bool_decide_ext; set_solver].
  - destruct (clear_ok ALIGNMENT Halign s obj Hw) as (s' & E & Hw' & Hs & Hm); [tauto..|]. exists s'. split_and!; try done.
    intros G [_ HG]. split; [done|]. intros g Hg. rewrite Hm, HG by done. unfold granule.
    case_decide as C; symmetry; [apply bool_decide_eq_false; set_solver|apply bool_decide_ext; set_solver].
  - destruct Ho as (Hb & Hmb & Hme & Hg).
    destruct (clear_range_ok ALIGNMENT Halign s (granule ALIGNMENT s b) (granule ALIGNMENT s e) Hw) as (s' & E & Hw' & Hs & Hm);
      [split; [apply Z.div_pos; lia|apply Z.div_le_mono; lia]|done|].
    rewrite <-!granule_exact in E by (done || lia). exists s'. rewrite clear_range_eq. split_and!; try done.
    intros G [_ HG]. split; [done|]. intros g Hg'. rewrite Hm, HG by done. unfold granule.
    case_decide as C; symmetry; [apply bool_decide_eq_false|apply bool_decide_ext]; rewrite elem_of_filter; tauto.
  - destruct (clear_to_zeros_ok s) as (Hw' & Hs & Hm). exists (clear_to_zeros s). split_and!; try done.
Qed.

Lemma ops_ok ops s G : refines s G → Forall (op_ok s) ops →
  ∃ s', for_each exec ops s = Ok s' ∧ same_shape s s' ∧ refines s' (foldl (spec (heap_begin s)) G ops).
Proof.
  revert s G. induction ops as [|op ops IH]; intros s G HG Hops; [exists s; split_and!; try done; apply same_shape_refl|].
  apply Forall_cons in Hops as [Ho Hops]. destruct (exec_ok s op (proj1 HG) Ho) as (s1 & E1 & Hw1 & Hs1 & HG1).
  destruct (IH s1 (spec (heap_begin s) G op) (HG1 G HG)) as (s2 & E2 & Hs2 & HG2).
  { eapply Forall_impl; [exact Hops|]. intros op'. by apply (op_ok_shape s s1 op' Hs1). }
  exists s2. cbn [for_each foldl]. rewrite E1, bind_Ok, E2. split_and!; [done|by eapply same_shape_trans|].
  by rewrite (same_shape_begin _ _ Hs1) in HG2.
Qed.

End Align.

(** C23: The bitmap is a set of granules: from a bitmap whose bits are those of [G], any
    sequence of [set], [clear], [clear_range] and [clear_to_zeros] inside the heap
    succeeds, and afterwards [test] of every address of the heap answers whether its
    granule is in the set that the same operations on sets give. *)
Theorem unsync_refines_set A s G ops obj : 0 < A → refines s G → Forall (op_ok A s) ops →
  0 <= heap_begin s <= obj → obj < 2 ^ 63 → granule A s obj < granules s →
  ∃ s', for_each (exec A) ops s = Ok s' ∧
    test A s' obj = Ok (bool_decide (granule A s obj ∈ foldl (spec A (heap_begin s)) G ops)).
Proof.
  intros HA HG Hops Hb Ho Hg. destruct (ops_ok A HA ops s G HG Hops) as (s' & E & Hs & _ & HG').
  exists s'. split; [done|]. rewrite <-HG' by (apply Z.div_pos; lia).
  replace (granule A s obj) with (granule A s' obj) in Hg |- * by (unfold granule; by rewrite (same_shape_begin _ _ Hs)).
  apply (test_ok A HA); rewrite ?(same_shape_begin _ _ Hs), ?(same_shape_granules _ _ Hs); done.
Qed.

Lemma unsync_refines_set_witness : ∃ s',
  for_each (exec 16) [OpSet 4096; OpSet 5136; OpClearRange 4096 4608; OpSet 4112] (mkSpaceBitmap [0; 0] 16 4096 6144) = Ok s' ∧
  test 16 s' 4096 = Ok false ∧ test 16 s' 5136 = Ok true.
Proof.
  set (s := mkSpaceBitmap [0; 0] 16 4096 6144).
  set (ops := [OpSet 4096; OpSet 5136; OpClearRange 4096 4608; OpSet 4112]).
  assert (HG : refines s ∅).
  { split; [repeat constructor; discriminate|]. intros g Hg. rewrite bool_decide_eq_false_2 by set_solver.
    unfold marked, Words.bit. cbn. destruct (Z.to_nat (g / 64)) as [|[|n]]; apply Z.testbit_0_l. }
  assert (Hops : Forall (op_ok 16 s) ops) by (vm_decide).
  destruct (unsync_refines_set 16 s ∅ ops 4096) as (s1 & E1 & T1); [lia|exact HG|exact Hops|cbn; lia|lia|reflexivity|].
  destruct (unsync_refines_set 16 s ∅ ops 5136) as (s2 & E2 & T2); [lia|exact HG|exact Hops|cbn; lia|lia|reflexivity|].
  rewrite E1 in E2. injection E2 as <-. exists s1. split; [exact E1|]. split; [exact T1|exact T2].
Defined.

End Unsync.
