(* ===== verification/BitmapSync.v ===== *)
(** * space_bitmap.rs: the bitmap under several threads

    The [sync] module of space_bitmap.rs as a transition system: each rule is one load,
    store or compare-and-exchange of a word of the bitmap.  [modify] loads the word and
    stores it back in two accesses; [atomic_test_and_set] is a compare-and-exchange loop,
    whose [compare_exchange_weak] may fail spuriously. *)

From stdpp Require Import functions base numbers list list_numbers relations.
From Stdlib Require Import ZArith Lia.
From S2P Require Import Prelude Util Constants Bitmap Block SpaceBitmap.
Local Open Scope Z_scope.

Module BitmapSync.
Import Words Space.

(** Where a thread is: outside; in [modify] before and after the load; in
    [atomic_test_and_set] before and after the load; at the end with the result. *)
Inductive bpc : Type :=
| Idle
| Modify (SET_BIT : bool) (obj : Z)
| Loaded (SET_BIT : bool) (obj old_word : Z)
| TestAndSet (obj : Z)
| TasLoaded (obj old_word : Z)
| Done (result : bool).

Record State : Type := mkState { bm : SpaceBitmap; pc : nat → bpc }.

Section Steps.
Context (ALIGNMENT : Z).

(** [self.bitmap_begin.add(index)], its contents and an update of it. *)
Definition index (s : State) (obj : Z) : Z := offset_to_index ALIGNMENT (obj - heap_begin (bm s)).
Definition mask (s : State) (obj : Z) : Z := offset_to_mask ALIGNMENT (obj - heap_begin (bm s)).
Definition load (s : State) (obj : Z) : Z := default 0 (words (bm s) !! Z.to_nat (index s obj)).
Definition store (s : State) (obj w : Z) : State :=
  mkState (with_words (bm s) (<[Z.to_nat (index s obj) := w]> (words (bm s)))) (pc s).
Definition at_ (s : State) (t : nat) (p : bpc) : State := mkState (bm s) (<[t := p]> (pc s)).

(** The object lies in the part of the heap the bitmap covers. *)
Definition inside (s : State) (obj : Z) : Prop :=
  heap_begin (bm s) <= obj ∧ granule ALIGNMENT (bm s) obj < granules (bm s).

Inductive bstep (t : nat) (s : State) : State → Prop :=
(** [set], [clear] *)
| b_modify b obj : pc s t = Idle → inside s obj → bstep t s (at_ s t (Modify b obj))
| b_load b obj : pc s t = Modify b obj → bstep t s (at_ s t (Loaded b obj (load s obj)))
| b_set obj old : pc s t = Loaded true obj old → Z.land old (mask s obj) = 0 →
    bstep t s (at_ (store s obj (Z.lor old (mask s obj))) t (Done false))
| b_is_set obj old : pc s t = Loaded true obj old → Z.land old (mask s obj) ≠ 0 → bstep t s (at_ s t (Done true))
| b_clear obj old : pc s t = Loaded false obj old →
    bstep t s (at_ (store s obj (Z.land old (u_not 64 (mask s obj)))) t (Done (bool_decide (Z.land old (mask s obj) ≠ 0))))
(** [atomic_test_and_set] *)
| b_tas obj : pc s t = Idle → inside s obj → bstep t s (at_ s t (TestAndSet obj))
| b_tas_set obj : pc s t = TestAndSet obj → Z.land (load s obj) (mask s obj) ≠ 0 → bstep t s (at_ s t (Done true))
| b_tas_load obj : pc s t = TestAndSet obj → Z.land (load s obj) (mask s obj) = 0 →
    bstep t s (at_ s t (TasLoaded obj (load s obj)))
| b_tas_win obj old : pc s t = TasLoaded obj old → load s obj = old →
    bstep t s (at_ (store s obj (Z.lor old (mask s obj))) t (Done false))
| b_tas_retry obj old : pc s t = TasLoaded obj old → bstep t s (at_ s t (TestAndSet obj))
| b_return r : pc s t = Done r → bstep t s (at_ s t Idle).

Definition step (s s' : State) : Prop := ∃ t, bstep t s s'.

(** The object a thread is working on. *)
Definition target (p : bpc) : option Z :=
  match p with Modify _ o | Loaded _ o _ | TestAndSet o | TasLoaded o _ => Some o | _ => None end.

(** No two threads work on the same word. *)
Definition apart (s : State) : Prop := ∀ t u o1 o2, t ≠ u →
  target (pc s t) = Some o1 → target (pc s u) = Some o2 → index s o1 ≠ index s o2.

(** A step between two states in which threads work on words of their own. *)
Definition step_apart (s s' : State) : Prop := apart s ∧ step s s' ∧ apart s'.

(** ** What a store does *)

Context (Halign : 0 < ALIGNMENT).

Lemma index_granule s obj : index s obj = granule ALIGNMENT (bm s) obj / 64.
Proof. done. Qed.

Lemma mask_granule s obj : mask s obj = Z.shiftl 1 (granule ALIGNMENT (bm s) obj mod 64).
Proof. done. Qed.

Lemma inside_granule s obj : inside s obj → 0 <= granule ALIGNMENT (bm s) obj < granules (bm s).
Proof. intros [H1 H2]. split; [apply Z.div_pos; lia|done]. Qed.

(** Storing the loaded word with one bit set or cleared changes that granule only. *)
Lemma store_or s obj j : inside s obj → 0 <= j →
  marked (bm (store s obj (Z.lor (load s obj) (mask s obj)))) j =
    if decide (j = granule ALIGNMENT (bm s) obj) then true else marked (bm s) j.
Proof.
  intros Hi%inside_granule Hj. unfold marked, store, load. cbn. rewrite index_granule, mask_granule.
  rewrite bit_set_word by done. apply orb_decide.
Qed.

Lemma store_and s obj j : space_wf (bm s) → inside s obj → 0 <= j →
  marked (bm (store s obj (Z.land (load s obj) (u_not 64 (mask s obj))))) j =
    if decide (j = granule ALIGNMENT (bm s) obj) then false else marked (bm s) j.
Proof.
  intros Hw Hi%inside_granule Hj. unfold marked, store, load. cbn. rewrite index_granule, mask_granule.
  rewrite bit_clear_word by done. apply andb_decide.
Qed.

Lemma land_load s obj : inside s obj →
  bool_decide (Z.land (load s obj) (mask s obj) ≠ 0) = marked (bm s) (granule ALIGNMENT (bm s) obj).
Proof.
  intros Hi%inside_granule. rewrite mask_granule. unfold load, marked, bit. rewrite index_granule.
  apply land_mask_nz. apply Z.mod_pos_bound. lia.
Qed.


(** ** Invariant *)

(** What a thread has loaded is still there. *)
Record inv (s : State) : Prop := {
  bi_wf : space_wf (bm s);
  bi_inside t o : target (pc s t) = Some o → inside s o;
  bi_loaded t b o old : pc s t = Loaded b o old → old = load s o
}.

Lemma load_wf s o : space_wf (bm s) → in_width 64 (load s o).
Proof. intros Hw. by apply wf_word. Qed.

Lemma mask_wf s o : in_width 64 (mask s o).
Proof. rewrite mask_granule. apply in_width_bit1. apply Z.mod_pos_bound. lia. Qed.

Lemma store_wf s o w : space_wf (bm s) → in_width 64 w → space_wf (bm (store s o w)).
Proof. intros Hs Hw. by apply wf_insert. Qed.

Lemma inside_store s o w o' : inside (store s o w) o' ↔ inside s o'.
Proof. unfold inside, granules, Words.capacity, store. cbn. by rewrite length_insert. Qed.

Lemma load_store s o w o' : index s o' ≠ index s o → inside s o → inside s o' → load (store s o w) o' = load s o'.
Proof.
  intros Hne H1%inside_granule H2%inside_granule. unfold load, store, index in *. cbn. rewrite list_lookup_insert_ne; [done|].
  intros E. apply Hne. change (offset_to_index ALIGNMENT (o' - heap_begin (bm s))) with (granule ALIGNMENT (bm s) o' / 64) in *.
  change (offset_to_index ALIGNMENT (o - heap_begin (bm s))) with (granule ALIGNMENT (bm s) o / 64) in *.
  apply Z2Nat.inj; [apply Z.div_pos; lia..|done].
Qed.

(** A step that stores nothing. *)
Lemma inv_local s t p : inv s → (∀ o, target p = Some o → inside s o) →
  (∀ b o old, p = Loaded b o old → old = load s o) → inv (at_ s t p).
Proof.
  intros [H1 H2 H3] Ht Hl. constructor; [done|..]; intros u; cbn; rewrite fn_insert_eq; case_decide; eauto.
Qed.

(** A store by the thread that has its word for itself. *)
Lemma inv_store s t o w r : inv s → apart s → target (pc s t) = Some o → in_width 64 w →
  inv (at_ (store s o w) t (Done r)).
Proof.
  intros [H1 H2 H3] Ha Ht Hw. constructor; [by apply store_wf|..]; intros u; cbn; rewrite fn_insert_eq; case_decide as C; try done.
  - intros o' Ho'. apply inside_store. eauto.
  - intros b o' old E. rewrite (H3 u b o' old E). symmetry.
    assert (Eo : target (pc s u) = Some o') by (by rewrite E).
    change (load (store s o w) o' = load s o'). apply load_store; [|by eapply H2|by eapply H2].
    by eapply (Ha u t).
Qed.

Lemma bstep_inv s s' t : inv s → apart s → bstep t s s' → inv s'.
Proof.
  intros Hi Ha Hs. pose proof Hi as [H1 H2 H3].
  destruct Hs as [b obj E Hin|b obj E|obj old E Hm|obj old E Hm|obj old E|obj E Hin|obj E Hm|obj E Hm|obj old E El|obj old E|r E].
  - apply inv_local; [done|by intros o [= <-]|done].
  - apply inv_local; [done|intros o [= <-]; apply (H2 t); by rewrite E|by intros ??? [= <- <- <-]].
  - apply (inv_store s t obj); [done|done|by rewrite E|]. rewrite (H3 _ _ _ _ E). apply in_width_lor; [by apply load_wf|apply mask_wf].
  - by apply inv_local.
  - apply (inv_store s t obj); [done|done|by rewrite E|]. rewrite (H3 _ _ _ _ E).
    apply in_width_land; [by apply load_wf|]. apply u_not_nonneg, mask_wf.
  - apply inv_local; [done|by intros o [= <-]|done].
  - by apply inv_local.
  - apply inv_local; [done|intros o [= <-]; apply (H2 t); by rewrite E|done].
  - apply (inv_store s t obj); [done|done|by rewrite E|]. rewrite <- El. apply in_width_lor; [by apply load_wf|apply mask_wf].
  - apply inv_local; [done|intros o [= <-]; apply (H2 t); by rewrite E|done].
  - by apply inv_local.
Qed.

Lemma apart_inv s0 s : space_wf (bm s0) → (∀ t, pc s0 t = Idle) → rtc step_apart s0 s → inv s.
Proof.
  intros Hw Hp Hr. refine (rtc_ind_r inv s0 _ _ s Hr).
  - constructor; [done|..]; intros t; by rewrite Hp.
  - intros y z _ (Ha & [t Hs] & _) Hy. by eapply bstep_inv.
Qed.

End Steps.

(** ** Threads that use [atomic_test_and_set] *)

Definition tas_only (p : bpc) : bool := match p with Modify _ _ | Loaded _ _ _ => false | _ => true end.
Definition step_tas (A : Z) (s s' : State) : Prop := step A s s' ∧ ∀ t, tas_only (pc s' t) = true.

(** A word that was loaded did not have the bit. *)
Definition tas_ok (A : Z) (s : State) (p : bpc) : Prop :=
  match p with
  | Modify _ _ | Loaded _ _ _ => False
  | TestAndSet o => inside A s o
  | TasLoaded o old => inside A s o ∧ Z.land old (mask A s o) = 0
  | _ => True
  end.

Lemma tas_inv A s0 s : (∀ t, pc s0 t = Idle) → rtc (step_tas A) s0 s → ∀ t, tas_ok A s (pc s t).
Proof.
  intros Hp Hr. refine (rtc_ind_r (λ s, ∀ t, tas_ok A s (pc s t)) s0 _ _ s Hr); [intros t; by rewrite Hp|].
  intros y z _ ([t Hs] & Ht) Hy u. pose proof (Hy t) as Hyt. specialize (Ht u). specialize (Hy u).
  destruct Hs as [b obj E Hin|b obj E|obj old E Hm|obj old E Hm|obj old E|obj E Hin|obj E Hm|obj E Hm|obj old E El|obj old E|r E];
    rewrite E in Hyt; try done; cbn in Ht |- *; rewrite fn_insert_eq in *; case_decide; cbn in *; try done; try tauto.
  destruct (pc y u) as [| | |o|o w|]; try done; cbn in *; [|split; [|apply Hy]];
    apply (inside_store A y obj (Z.lor old (mask A y obj)) o); apply Hy.
Qed.

(** ** Properties *)

(** C28: [set] and [clear] are atomic as long as no two threads work on the same word of
    the bitmap: the store of a thread changes the granule of its object and no other,
    whatever the threads did since its load, and the result it returns is the granule's
    mark at that moment. *)
Theorem modify_atomic A s0 s t s' b obj old : 0 < A → space_wf (bm s0) → (∀ u, pc s0 u = Idle) →
  rtc (step_apart A) s0 s → apart A s → bstep A t s s' → pc s t = Loaded b obj old →
  pc s' t = Done (marked (bm s) (granule A (bm s) obj)) ∧
  ∀ j, 0 <= j → marked (bm s') j = if decide (j = granule A (bm s) obj) then b else marked (bm s) j.
Proof.
  intros HA Hw Hp Hr Ha Hs E. pose proof (apart_inv A HA s0 s Hw Hp Hr) as [H1 H2 H3].
  assert (Hin : inside A s obj) by (apply (H2 t); by rewrite E). pose proof (land_load A HA s obj Hin) as Hb.
  pose proof (H3 _ _ _ _ E) as Eo.
  inversion Hs as [b' o' E' Hin'|b' o' E'|o' old' E' Hm|o' old' E' Hm|o' old' E'|o' E' Hin'|o' E' Hm|o' E' Hm|o' old' E' El|o' old' E'|r E'];
    rewrite E in E'; simplify_eq; (split; [cbn; rewrite fn_insert_eq, decide_True by done|intros j Hj]).
  - by rewrite <- Hb, Hm.
  - by apply store_or.
  - rewrite <- Hb. by rewrite bool_decide_eq_true_2.
  - cbn [bm at_]. destruct (decide (j = granule A (bm s) o')) as [C|C]; [|done]. rewrite C, <- Hb. by rewrite bool_decide_eq_true_2.
  - by rewrite Hb.
  - by apply store_and.
Qed.

(** Without that a mark can get lost: two threads that call [set] for two objects of
    the same word can both return with the first object unmarked. *)
Theorem set_race_loses_mark A m t u o1 o2 : 0 < A → space_wf m → t ≠ u →
  heap_begin m <= o1 → heap_begin m <= o2 → granule A m o1 < granules m → granule A m o2 < granules m →
  granule A m o1 ≠ granule A m o2 → granule A m o1 / 64 = granule A m o2 / 64 →
  marked m (granule A m o1) = false → marked m (granule A m o2) = false →
  ∃ s, rtc (step A) (mkState m (λ _, Idle)) s ∧ pc s t = Done false ∧ pc s u = Done false ∧
    marked (bm s) (granule A m o1) = false ∧ marked (bm s) (granule A m o2) = true.
Proof.
  intros HA Hw Htu H1 H2 H3 H4 Hne Hword M1 M2. set (s0 := mkState m (λ _, Idle)).
  assert (I1 : inside A s0 o1) by done. assert (I2 : inside A s0 o2) by done.
  assert (L1 : Z.land (load A s0 o1) (mask A s0 o1) = 0).
  { pose proof (land_load A HA s0 o1 I1) as E. cbn in E. rewrite M1 in E. apply bool_decide_eq_false in E. by apply dec_stable. }
  assert (L2 : Z.land (load A s0 o2) (mask A s0 o2) = 0).
  { pose proof (land_load A HA s0 o2 I2) as E. cbn in E. rewrite M2 in E. apply bool_decide_eq_false in E. by apply dec_stable. }
  set (f1 := <[u := Modify true o2]> (<[t := Modify true o1]> (λ _ : nat, Idle))).
  set (f2 := <[u := Loaded true o2 (load A s0 o2)]> (<[t := Loaded true o1 (load A s0 o1)]> f1)).
  set (m1 := bm (store A s0 o1 (Z.lor (load A s0 o1) (mask A s0 o1)))).
  set (m2 := bm (store A s0 o2 (Z.lor (load A s0 o2) (mask A s0 o2)))).
  assert (Em : bm (store A (mkState m1 f2) o2 (Z.lor (load A s0 o2) (mask A s0 o2))) = m2).
  { unfold m1, m2, store, with_words. cbn. f_equal. rewrite !(index_granule A). cbn.
    replace (granule A _ o2 / 64) with (granule A m o2 / 64) by done. rewrite Hword. apply list_insert_insert_eq. }
  exists (mkState m2 (<[u := Done false]> (<[t := Done false]> f2))). split.
  - eapply rtc_l; [exists t; by apply (b_modify A t s0 true o1)|].
    eapply rtc_l; [exists u; apply (b_modify A u _ true o2); [cbn; by rewrite fn_insert_eq, decide_False|done]|].
    eapply rtc_l; [exists t; apply (b_load A t _ true o1); cbn; by rewrite !fn_insert_eq, decide_False, decide_True|].
    eapply rtc_l; [exists u; apply (b_load A u _ true o2); cbn; by rewrite !fn_insert_eq, decide_False, decide_True|].
    eapply rtc_l; [exists t; eapply (b_set A t _ o1); [cbn; by rewrite !fn_insert_eq, decide_False, decide_True|exact L1]|].
    eapply rtc_l; [exists u; eapply (b_set A u _ o2); [cbn; by rewrite !fn_insert_eq, decide_False, decide_True|exact L2]|].
    rewrite <- Em. apply rtc_refl.
  - cbn [pc bm]. split_and!; [by rewrite !fn_insert_eq, decide_False, decide_True|by rewrite fn_insert_eq, decide_True|..];
      unfold m2; rewrite store_or by (done || apply (inside_granule A HA s0); done).
    + by rewrite decide_False.
    + by rewrite decide_True.
Qed.

(** [atomic_test_and_set] needs no such care: in any run of threads that use it, no
    call clears a mark, and a call that returns [false] has set the granule of its
    object, which was unset until then, and nothing else; so of several calls for one
    object one at most returns [false]. *)
Theorem test_and_set_wins_once A s0 s t s' : 0 < A → (∀ u, pc s0 u = Idle) →
  rtc (step_tas A) s0 s → bstep A t s s' → (∀ u, tas_only (pc s' u) = true) →
  (∀ j, 0 <= j → marked (bm s) j = true → marked (bm s') j = true) ∧
  (∀ o old, pc s t = TasLoaded o old → pc s' t = Done false →
     marked (bm s) (granule A (bm s) o) = false ∧
     ∀ j, 0 <= j → marked (bm s') j = if decide (j = granule A (bm s) o) then true else marked (bm s) j).
Proof.
  intros HA Hp Hr Hs Ht. pose proof (tas_inv A s0 s Hp Hr) as Hi.
  assert (Hnl : ∀ b o old, pc s t ≠ Loaded b o old) by (intros b o old E; specialize (Hi t); by rewrite E in Hi).
  inversion Hs as [b' o' E' Hin'|b' o' E'|o' old' E' Hm'|o' old' E' Hm'|o' old' E'|o' E' Hin'|o' E' Hm'|o' E' Hm'|o' old' E' El|o' old' E'|r E'];
    subst s'; try (by destruct (Hnl _ _ _ E')); try (split; [done|intros o old E; congruence]).
  - pose proof (Hi t) as Hit. rewrite E' in Hit. destruct Hit as [Hin Hm]. rewrite <- El. split.
    + intros j Hj Hmk. rewrite (store_or A HA s o' j Hin Hj : marked (bm (at_ _ _ _)) j = _). by destruct (decide _).
    + intros o old E _. rewrite E in E'. injection E' as -> ->. split; [|intros j Hj; by apply store_or].
      by rewrite <- (land_load A HA s o' Hin), El, Hm.
  - split; [done|]. intros o old E. cbn. by rewrite fn_insert_eq, decide_True.
Qed.

(** ** Blocks and words *)

(** When the heap begins at a multiple of 1024, a word covers 1024 aligned bytes, so
    objects of different blocks have different words: threads that allocate from blocks
    of their own are apart. *)
Lemma blocks_words m o1 o2 : heap_begin m mod 1024 = 0 → Block.get_block_ptr o1 ≠ Block.get_block_ptr o2 →
  granule 16 m o1 / 64 ≠ granule 16 m o2 / 64.
Proof.
  unfold granule, Block.get_block_ptr. intros Hb Hne E. apply Hne. consts. revert E. rewrite !Z.div_div by lia.
  change (16 * 64) with 1024. intros E. Z.div_mod_to_equations. lia.
Qed.

(** ** Witnesses *)

Definition sample : SpaceBitmap := mkSpaceBitmap [0; 0] 16 4096 6144.

Lemma sample_wf : space_wf sample.
Proof. by repeat constructor. Qed.

Lemma sample_apart s : (∀ t, (2 <= t)%nat → pc s t = Idle) → heap_begin (bm s) = 4096 →
  (∀ o, target (pc s 0%nat) = Some o → o = 4112) → (∀ o, target (pc s 1%nat) = Some o → o = 5136) → apart 16 s.
Proof.
  intros Hi Hb H0 H1 t u o1 o2 Hne Ht Hu. assert (∀ v o, target (pc s v) = Some o → v = 0%nat ∧ o = 4112 ∨ v = 1%nat ∧ o = 5136) as Hv.
  { intros [|[|v]] o Ho; [left; auto|right; auto|]. rewrite Hi in Ho by lia. done. }
  unfold index. rewrite Hb. destruct (Hv t o1 Ht) as [[-> ->]|[-> ->]], (Hv u o2 Hu) as [[-> ->]|[-> ->]]; done.
Qed.

Ltac apart_now := apply sample_apart; [intros [|[|?]] ?; [lia|lia|reflexivity]|reflexivity|intros ? [=]; congruence..].
Ltac go t r := eapply rtc_l; [split; [apart_now|split; [exists t; eapply r; first [reflexivity|done]|apart_now]]|].

(** Threads 0 and 1 have loaded the words of two objects. *)
Lemma two_loaded : ∃ s, rtc (step_apart 16) (mkState sample (λ _, Idle)) s ∧ apart 16 s ∧ bm s = sample ∧
  pc s 0%nat = Loaded true 4112 0 ∧ pc s 1%nat = Loaded true 5136 0.
Proof.
  eexists. split; [|shelve].
  go 0%nat (b_modify 16 0%nat (mkState sample (λ _, Idle)) true 4112).
  eapply rtc_l; [split; [apart_now|split; [exists 1%nat; apply (b_modify 16 1%nat _ true 5136); done|apart_now]]|].
  go 0%nat b_load. go 1%nat b_load. apply rtc_refl.
  Unshelve. split; [apart_now|]. split_and!; reflexivity.
Qed.

Lemma modify_atomic_witness : ∃ s s', rtc (step_apart 16) (mkState sample (λ _, Idle)) s ∧
  bstep 16 0%nat s s' ∧ pc s' 0%nat = Done false ∧ marked (bm s') 1 = true ∧ marked (bm s') 65 = false.
Proof.
  destruct two_loaded as (s & Hr & Ha & Eb & E0 & E1).
  assert (Hs : bstep 16 0%nat s (at_ (store 16 s 4112 (Z.lor 0 (mask 16 s 4112))) 0%nat (Done false)))
    by (apply b_set; [exact E0|reflexivity]).
  eexists s, _. split; [exact Hr|]. split; [exact Hs|].
  destruct (modify_atomic 16 (mkState sample (λ _, Idle)) s 0%nat _ true 4112 0 eq_refl sample_wf (λ _, eq_refl) Hr Ha Hs E0)
    as [Hd Hm]. rewrite Eb in Hd, Hm. split; [exact Hd|]. split; [apply Hm; discriminate|]. rewrite (Hm 65) by discriminate. reflexivity.
Defined.

Lemma set_race_loses_mark_witness : ∃ s, rtc (step 16) (mkState sample (λ _, Idle)) s ∧
  pc s 0%nat = Done false ∧ pc s 1%nat = Done false ∧ marked (bm s) 1 = false ∧ marked (bm s) 2 = true.
Proof.
  apply (set_race_loses_mark 16 sample 0%nat 1%nat 4112 4128); try done. exact sample_wf.
Defined.

Lemma test_and_set_wins_once_witness : ∃ s s', rtc (step_tas 16) (mkState sample (λ _, Idle)) s ∧
  bstep 16 0%nat s s' ∧ pc s' 0%nat = Done false ∧ marked (bm s) 1 = false ∧ marked (bm s') 1 = true.
Proof.
  assert (Hr : ∃ s, rtc (step_tas 16) (mkState sample (λ _, Idle)) s ∧ bm s = sample ∧ pc s 0%nat = TasLoaded 4112 0 ∧
    ∀ u, u ≠ 0%nat → pc s u = Idle).
  { eexists. split; [|shelve].
    eapply rtc_l; [split; [exists 0%nat; by apply (b_tas 16 0%nat (mkState sample (λ _, Idle)) 4112)|by intros [|t]]|].
    eapply rtc_l; [split; [exists 0%nat; eapply b_tas_load; reflexivity|by intros [|t]]|]. apply rtc_refl.
    Unshelve. split; [reflexivity|]. split; [reflexivity|]. by intros [|u] Hu. }
  destruct Hr as (s & Hr & Eb & E0 & Eu).
  assert (Hs : bstep 16 0%nat s (at_ (store 16 s 4112 (Z.lor 0 (mask 16 s 4112))) 0%nat (Done false))).
  { apply b_tas_win; [exact E0|]. unfold load, index. rewrite Eb. reflexivity. }
  eexists s, _. split; [exact Hr|]. split; [exact Hs|]. split; [reflexivity|].
  destruct (test_and_set_wins_once 16 (mkState sample (λ _, Idle)) s 0%nat _ eq_refl (λ _, eq_refl) Hr Hs) as [_ Hw].
  { intros u. cbn. rewrite fn_insert_eq. case_decide; [done|]. by rewrite Eu. }
  destruct (Hw 4112 0 E0 eq_refl) as [H1 H2]. rewrite Eb in H1, H2. split; [rewrite Eb; exact H1|]. apply H2. discriminate.
Defined.

End BitmapSync.
