(* ===== verification/Object.v ===== *)
(** * object.rs: object headers and run-time type information

    A [RawGc] is one 64-bit word: the address of the object's [GCRTTI] (or its
    forwarding address), with the mark in bit 0, "forwarded" in bit 1 and "pinned"
    in bit 2.  [RawGc] holds the operations on that word; the debug assertions of
    the source are part of them.  [Header] is the abstract view: the four fields.

    Object memory is [mem], a map from 8-byte aligned addresses to words in which
    unwritten memory reads as zero.  A [GCRTTI] holds functions of the user's
    program: [heap_size] and the list of reference slots [visit_references] passes
    to the tracer, both of which may read memory. *)

From stdpp Require Import base numbers list gmap.
From Stdlib Require Import ZArith Lia.
From S2P Require Import Prelude Util.
Local Open Scope Z_scope.

(** Words of memory. *)
Abbreviation mem := (gmap Z Z).
Definition mem_read (m : mem) (a : Z) : Z := default 0 (m !! a).

Record GCRTTI : Type := mkRTTI {
  heap_size : mem → Z → Z;
  visit_references : mem → Z → list Z;
  needs_finalization : bool;
  finalizer : bool
}.

(** The macro [make_rtti_for!]: the type's own functions get the address of the
    data, 8 bytes after the header; the plain form adds the header to the size, the
    [finalize] form does not. *)
Definition make_rtti_for (hs : mem → Z → Z) (vr : mem → Z → list Z) : GCRTTI :=
  mkRTTI (λ m data, hs m (data + 8) + 8) (λ m data, vr m (data + 8)) false true.
Definition make_rtti_for_finalize (hs : mem → Z → Z) (vr : mem → Z → list Z) : GCRTTI :=
  mkRTTI (λ m data, hs m (data + 8)) (λ m data, vr m (data + 8)) true true.
(** [impl_for_prim!]: no references, [size_of_val(self)] bytes. *)
Definition rtti_for_prim (size : Z) : GCRTTI := make_rtti_for (λ _ _, size) (λ _ _, []).

(** ** The trait [HeapObject]

    A type that implements it: its size, the methods it overrides, and which form of
    [make_rtti_for!] its [RTTI] is made with. *)
Module HeapObject.

Record HeapType : Type := mkType {
  size_of : Z;
  own_visit_references : option (mem → Z → list Z);
  own_heap_size : option (mem → Z → Z);
  own_needs_finalization : option bool;
  finalize_form : bool
}.

(** The methods: what the type has of its own, or the default of the trait. *)
Definition visit_references (T : HeapType) : mem → Z → list Z := default (λ _ _, []) (own_visit_references T).
Definition heap_size (T : HeapType) : mem → Z → Z := default (λ _ _, size_of T) (own_heap_size T).
Definition needs_finalization (T : HeapType) : bool := default false (own_needs_finalization T).

Definition RTTI (T : HeapType) : GCRTTI :=
  (if finalize_form T then make_rtti_for_finalize else make_rtti_for) (heap_size T) (visit_references T).

(** The types of [impl_for_prim!] override nothing. *)
Definition prim (size : Z) : HeapType := mkType size None None None false.
Definition prim_types : list HeapType :=
  prim <$> [1; 1; 2; 2; 4; 4; 8; 8; 16; 16; 4; 8; 1].

(** [object_ty_of], [object_ty_of_type]; [rtti_at] is where the constant of the type is. *)
Definition object_ty_of (rtti_at : HeapType → Z) (T : HeapType) : Z := rtti_at T.
Definition object_ty_of_type (rtti_at : HeapType → Z) (T : HeapType) : R Z :=
  let result := object_ty_of rtti_at T in
  if decide (result = 0) then Panic AssertFailed else Ok result.

(** The method [needs_finalization] of the trait is not consulted: whether objects of a
    type are finalized is decided by the form of the macro. *)
Lemma needs_finalization_unused T : Object.needs_finalization (RTTI T) = finalize_form T.
Proof. unfold RTTI. by destruct (finalize_form T). Qed.

End HeapObject.

Module RawGc.
Import TaggedPointer.

(** [debug_assert!(!self.vtable.untagged().is_null())]. *)
Definition assert_non_null (h : Z) : R unit :=
  if decide (untagged h = 0) then Panic AssertFailed else Ok ().

Definition new (vtable : Z) : Z := TaggedPointer.new vtable.
Definition vtable (h : Z) : R Z := assert_non_null h;; Ok (untagged h).
Definition mark (h : Z) (m : bool) : R (bool * Z) :=
  prev ← bit_is_set h 0;
  assert_non_null h;;
  h' ← set_bit_x h m 0;
  now ← bit_is_set h' 0;
  if decide (now = m) then Ok (bool_decide (prev = m), h') else Panic AssertFailed.
Definition get_mark (h : Z) : R bool := assert_non_null h;; bit_is_set h 0.
Definition pin (h : Z) : R Z := assert_non_null h;; set_bit h 2.
Definition is_pinned (h : Z) : R bool := assert_non_null h;; bit_is_set h 2.
Definition unpin (h : Z) : R Z := assert_non_null h;; clear_bit h 2.
Definition is_forwarded (h : Z) : R bool := bit_is_set h 1.
Definition set_forwarded (h addr : Z) : R Z := assert_non_null h;; set_bit (TaggedPointer.new addr) 1.

(** [size_of::<RawGc>()]. *)
Definition size_of_RawGc : Z := 8.
(** [data]: the address of the object's data; [Gc::from_raw] goes back. *)
Definition data (self : Z) : Z := self + size_of_RawGc.
Definition from_raw (ptr : Z) : Z := ptr - size_of_RawGc.

(** [object_size]: what the type reports, rounded up to 16. *)
Definition object_size (rtti : GCRTTI) (m : mem) (self : Z) : R Z :=
  Rounding.align_usize (heap_size rtti m self) 16.

End RawGc.

(** [ConservativeTracer::add]: remember a memory range to scan. *)
Definition ConservativeTracer_add (roots : list (Z * Z)) (start end_ : Z) : list (Z * Z) :=
  roots ++ [(start, end_)].

Definition conservative_roots_add : list (Z * Z) → Z → Z → list (Z * Z) := ConservativeTracer_add.

(** ** The abstract header *)

Record Header : Type := mkHeader {
  hd_mark : bool;
  hd_forwarded : bool;
  hd_pinned : bool;
  hd_pointer : Z
}.

Definition decode (h : Z) : Header :=
  mkHeader (Z.testbit h 0) (Z.testbit h 1) (Z.testbit h 2) (Bits.untagged h).

(** A header word the program can have: 64 bits, with a non-null pointer part. *)
Definition header_wf (h : Z) : Prop := in_width 64 h ∧ Bits.untagged h ≠ 0.

Module HeaderFacts.
Import Bits TaggedPointer RawGc.

Lemma assert_ok h : header_wf h → assert_non_null h = Ok ().
Proof. intros [_ H]. unfold assert_non_null. by rewrite decide_False. Qed.

(** Words that agree from bit 3 on have the same pointer part. *)
Lemma untagged_ext p q : (∀ i, 3 <= i → Z.testbit p i = Z.testbit q i) →
  Bits.untagged p = Bits.untagged q.
Proof.
  intros H. apply Z.bits_inj'. intros i Hi. rewrite !untagged_spec by done.
  destruct (Z.leb_spec 3 i); [by rewrite H|by rewrite !andb_false_r].
Qed.

Lemma untagged_aligned a : in_width 64 a → a mod 8 = 0 → Bits.untagged a = a.
Proof.
  intros Hw Ha. apply Z.bits_inj'. intros i Hi. rewrite untagged_spec by done.
  destruct (Z.leb_spec 3 i), (Z.ltb_spec i 64); rewrite ?andb_true_r, ?andb_false_r; try done.
  - symmetry. apply (testbit_above 64); done || lia.
  - symmetry.
    replace a with (a / 8 * 2 ^ 3) by (pose proof (Z.div_mod a 8); change (2 ^ 3) with 8; lia).
    apply Z.mul_pow2_bits_low. lia.
  - lia.
Qed.

Lemma bit0_aligned a k : a mod 8 = 0 → 0 <= k < 3 → Z.testbit a k = false.
Proof.
  intros Ha Hk. replace a with (a / 8 * 2 ^ 3) by (pose proof (Z.div_mod a 8); change (2 ^ 3) with 8; lia).
  apply Z.mul_pow2_bits_low. lia.
Qed.

(** Changing one of the three tag bits. *)
Lemma decode_set_bit_x h m b h' : header_wf h → 0 <= b < 3 → set_bit_x h m b = Ok h' →
  header_wf h' ∧ decode h' =
    mkHeader (if decide (b = 0) then m else Z.testbit h 0)
             (if decide (b = 1) then m else Z.testbit h 1)
             (if decide (b = 2) then m else Z.testbit h 2) (Bits.untagged h).
Proof.
  intros [Hw Hn] Hb E.
  assert (Hbit : ∀ i, 0 <= i → Z.testbit h' i = if bool_decide (i = b) then m else Z.testbit h i).
  { intros i Hi. eapply set_bit_x_bits; eauto. lia. }
  assert (Eu : Bits.untagged h' = Bits.untagged h).
  { apply untagged_ext. intros i Hi. rewrite Hbit by lia. by rewrite bool_decide_eq_false_2 by lia. }
  assert (Hpos : 0 <= h').
  { unfold set_bit_x in E. rewrite u_shl1_ok in E by lia. cbn in E. injection E as <-.
    apply Z.lor_nonneg. split; [apply Z.land_nonneg; left; apply Hw|].
    apply Z.shiftl_nonneg. by destruct m. }
  split; [split; [|by rewrite Eu]|].
  - apply in_width_bits; [lia|done|]. intros i Hi. rewrite Hbit by lia.
    rewrite bool_decide_eq_false_2 by lia. apply (testbit_above 64); done || lia.
  - unfold decode. rewrite !Hbit, Eu by lia.
    f_equal; case_decide; case_bool_decide; done || lia.
Qed.

Lemma set_bit_x_total h m b : 0 <= b < 64 → ∃ h', set_bit_x h m b = Ok h'.
Proof. intros. unfold set_bit_x. rewrite u_shl1_ok by lia. by eexists. Qed.

Lemma mark_ok h m : header_wf h →
  ∃ h', mark h m = Ok (bool_decide (hd_mark (decode h) = m), h') ∧ header_wf h' ∧
    decode h' = mkHeader m (hd_forwarded (decode h)) (hd_pinned (decode h)) (hd_pointer (decode h)).
Proof.
  intros Hh. destruct (set_bit_x_total h m 0 ltac:(lia)) as [h' E].
  destruct (decode_set_bit_x h m 0 h' Hh ltac:(lia) E) as [Hw' Hd].
  exists h'. split_and!; [|done|by rewrite Hd].
  unfold mark, bit_is_set. rewrite bit_is_set_ok, bind_Ok, assert_ok, bind_Ok, E, bind_Ok by (done || lia).
  rewrite bit_is_set_ok, bind_Ok by lia.
  assert (Em : Z.testbit h' 0 = m) by (apply (f_equal hd_mark) in Hd; done).
  by rewrite Em, decide_True.
Qed.

Lemma pin_ok h : header_wf h → ∃ h', pin h = Ok h' ∧ header_wf h' ∧
  decode h' = mkHeader (hd_mark (decode h)) (hd_forwarded (decode h)) true (hd_pointer (decode h)).
Proof.
  intros Hh. destruct (set_bit_x_total h true 2 ltac:(lia)) as [h' E].
  destruct (decode_set_bit_x h true 2 h' Hh ltac:(lia) E) as [Hw' Hd].
  exists h'. split_and!; [|done|by rewrite Hd].
  unfold pin. rewrite assert_ok, bind_Ok by done.
  rewrite set_bit_x_branch in E; [done|lia|apply Hh].
Qed.

Lemma unpin_ok h : header_wf h → ∃ h', unpin h = Ok h' ∧ header_wf h' ∧
  decode h' = mkHeader (hd_mark (decode h)) (hd_forwarded (decode h)) false (hd_pointer (decode h)).
Proof.
  intros Hh. destruct (set_bit_x_total h false 2 ltac:(lia)) as [h' E].
  destruct (decode_set_bit_x h false 2 h' Hh ltac:(lia) E) as [Hw' Hd].
  exists h'. split_and!; [|done|by rewrite Hd].
  unfold unpin. rewrite assert_ok, bind_Ok by done.
  rewrite set_bit_x_branch in E; [done|lia|apply Hh].
Qed.

Lemma get_mark_ok h : header_wf h → get_mark h = Ok (hd_mark (decode h)).
Proof. intros. unfold get_mark, bit_is_set. by rewrite assert_ok, bind_Ok, bit_is_set_ok by (done || lia). Qed.

Lemma is_pinned_ok h : header_wf h → is_pinned h = Ok (hd_pinned (decode h)).
Proof. intros. unfold is_pinned, bit_is_set. by rewrite assert_ok, bind_Ok, bit_is_set_ok by (done || lia). Qed.

Lemma is_forwarded_ok h : is_forwarded h = Ok (hd_forwarded (decode h)).
Proof. unfold is_forwarded, bit_is_set. by rewrite bit_is_set_ok by lia. Qed.

Lemma vtable_ok h : header_wf h → vtable h = Ok (hd_pointer (decode h)).
Proof. intros. unfold vtable. by rewrite assert_ok, bind_Ok. Qed.

Lemma new_decode v : in_width 64 v → v mod 8 = 0 → v ≠ 0 →
  header_wf (new v) ∧ decode (new v) = mkHeader false false false v.
Proof.
  intros Hw Ha Hz. unfold new, TaggedPointer.new, header_wf, decode.
  rewrite untagged_aligned, !bit0_aligned by (done || lia). done.
Qed.

Lemma set_forwarded_ok h addr : header_wf h → in_width 64 addr → addr mod 8 = 0 → addr ≠ 0 →
  ∃ h', set_forwarded h addr = Ok h' ∧ header_wf h' ∧ decode h' = mkHeader false true false addr.
Proof.
  intros Hh Hw Ha Hz. destruct (new_decode addr Hw Ha Hz) as [Hn Hd].
  unfold new in *. set (w := TaggedPointer.new addr) in *.
  destruct (set_bit_x_total w true 1 ltac:(lia)) as [h' E].
  destruct (decode_set_bit_x w true 1 h' Hn ltac:(lia) E) as [Hw' Hd'].
  exists h'. split_and!; [|done|].
  - unfold set_forwarded. rewrite assert_ok, bind_Ok by done. fold w. rewrite set_bit_x_branch in E; [done|lia|apply Hn].
  - rewrite Hd'. change (mkHeader (hd_mark (decode w)) true (hd_pinned (decode w)) (hd_pointer (decode w))
      = mkHeader false true false addr). by rewrite Hd.
Qed.

(** ** Properties *)

(** C34: The header word implements the four-field header: [mark], [pin] and [unpin]
    never trip their assertions on a header with a non-null pointer, change exactly
    their own field of the abstract header, and [mark] reports whether the mark was
    already the wanted one. *)
Theorem header_refines h m : header_wf h →
  (∃ h', mark h m = Ok (bool_decide (hd_mark (decode h) = m), h') ∧ header_wf h' ∧
     decode h' = mkHeader m (hd_forwarded (decode h)) (hd_pinned (decode h)) (hd_pointer (decode h))) ∧
  (∃ h', pin h = Ok h' ∧ header_wf h' ∧
     decode h' = mkHeader (hd_mark (decode h)) (hd_forwarded (decode h)) true (hd_pointer (decode h))) ∧
  (∃ h', unpin h = Ok h' ∧ header_wf h' ∧
     decode h' = mkHeader (hd_mark (decode h)) (hd_forwarded (decode h)) false (hd_pointer (decode h))) ∧
  get_mark h = Ok (hd_mark (decode h)) ∧ is_pinned h = Ok (hd_pinned (decode h)) ∧
  is_forwarded h = Ok (hd_forwarded (decode h)) ∧ vtable h = Ok (hd_pointer (decode h)).
Proof.
  intros Hh. split_and!; [by apply mark_ok|by apply pin_ok|by apply unpin_ok
    |by apply get_mark_ok|by apply is_pinned_ok|apply is_forwarded_ok|by apply vtable_ok].
Qed.

Lemma header_refines_witness :
  get_mark 69 = Ok true ∧ is_pinned 69 = Ok true ∧ vtable 69 = Ok 64 ∧ mark 69 false = Ok (false, 68).
Proof.
  assert (Hh : header_wf 69) by (split; [split; [lia|reflexivity]|discriminate]).
  destruct (header_refines 69 false Hh) as (_ & _ & _ & G & P & _ & V).
  split_and!; [exact G|exact P|exact V|reflexivity].
Defined.

(** C35: Forwarding round trip: after [set_forwarded] to an 8-byte aligned address the
    header is forwarded and [vtable] reads that address back; the mark and the pin
    are gone. *)
Theorem forward_roundtrip h addr : header_wf h → in_width 64 addr → addr mod 8 = 0 → addr ≠ 0 →
  ∃ h', set_forwarded h addr = Ok h' ∧ is_forwarded h' = Ok true ∧ vtable h' = Ok addr ∧
    get_mark h' = Ok false ∧ is_pinned h' = Ok false.
Proof.
  intros Hh Hw Ha Hz. destruct (set_forwarded_ok h addr Hh Hw Ha Hz) as (h' & E & Hw' & Hd).
  exists h'. by rewrite is_forwarded_ok, vtable_ok, get_mark_ok, is_pinned_ok, Hd by done.
Qed.

Lemma forward_roundtrip_witness : ∃ h', set_forwarded 69 4096 = Ok h' ∧ vtable h' = Ok 4096.
Proof.
  destruct (forward_roundtrip 69 4096) as (h' & E & _ & V & _);
    [split; [split; [lia|reflexivity]|discriminate]|split; [lia|reflexivity]|reflexivity|lia|].
  exists h'. split; [exact E|exact V].
Defined.

(** The size the plain [make_rtti_for!] reports exceeds what [immix_alloc_safe]
    requests for the same value by the 8 bytes of the header, so for a value of 16
    bytes the reported object size is 32 while only 16 bytes are requested. *)
Lemma prim_object_size size m a : 0 <= size < 2 ^ 32 →
  RawGc.object_size (rtti_for_prim size) m a = Ok (Rounding.ceil_div (size + 8) 16 * 16) ∧
  (size mod 16 = 0 ∨ 8 < size mod 16 →
   Rounding.ceil_div size 16 * 16 < size + 8).
Proof.
  intros Hs. split.
  - unfold RawGc.object_size. cbn. apply Rounding.align_usize_ok; lia.
  - unfold Rounding.ceil_div. Z.div_mod_to_equations. lia.
Qed.

End HeaderFacts.
