(* ===== verification/BlockAllocator.v ===== *)
(** * block_allocator.rs: the mapping and the allocator of blocks

    [Mmap] is the mapped range (the [_unix] module); the address [libc::mmap]
    returns is an argument of [Mmap_new].  [BlockAllocator] hands out aligned
    blocks, first those that were returned, then by moving [data] up.

    [Store] is the memory of the heap: block headers by block address and object
    words by address.  Memory that was never written, or was given back with
    [MADV_DONTNEED], reads as zero, so a missing header is the zeroed one.

    [BuildBlock] is the compare-and-exchange loop of [build_block] run by several
    threads, as a step relation. *)

From stdpp Require Import base numbers list list_numbers gmap relations sorting.
From Stdlib Require Import ZArith Lia.
From S2P Require Import Prelude Util Constants Block Object.
Local Open Scope Z_scope.

Record Store : Type := mkStore {
  headers : gmap Z ImmixBlock;
  words : mem
}.

Definition header (s : Store) (b : Z) : ImmixBlock := default Block.zeroed (headers s !! b).
Definition set_header (s : Store) (b : Z) (blk : ImmixBlock) : Store :=
  mkStore (<[b := blk]> (headers s)) (words s).
Definition set_word (s : Store) (a w : Z) : Store := mkStore (headers s) (<[a := w]> (words s)).
Definition word (s : Store) (a : Z) : Z := mem_read (words s) a.

Record Mmap : Type := mkMmap { mm_start : Z; mm_end : Z; mm_size : Z }.

Definition MAP_FAILED : Z := 2 ^ 64 - 1.

(** [Mmap::new]; [map] is what [libc::mmap] returned. *)
Definition Mmap_new (map size : Z) : R Mmap :=
  if decide (map = MAP_FAILED) then Panic AssertFailed
  else e ← u_add 64 map size; Ok (mkMmap map e size).

Definition Mmap_aligned (self : Mmap) : Z :=
  let offset := BLOCK_SIZE - mm_start self mod BLOCK_SIZE in mm_start self + offset.

(** [madvise(MADV_DONTNEED)] over one block. *)
Definition Mmap_dontneed (s : Store) (page size : Z) : Store :=
  mkStore (filter (λ '(b, _), ¬ (page <= b < page + size)) (headers s))
          (filter (λ '(a, _), ¬ (page <= a < page + size)) (words s)).
(** [madvise(MADV_WILLNEED)] does not change the contents. *)
Definition Mmap_commit (s : Store) (page size : Z) : Store := s.

Record BlockAllocator : Type := mkBA {
  free_blocks : list Z;
  data_bound : Z;
  data : Z;
  mmap : Mmap
}.

Module BA.

Definition total_blocks (self : BlockAllocator) : R Z :=
  n ← u_sub (mm_end (mmap self)) (Mmap_aligned (mmap self)); Ok (n / BLOCK_SIZE).

Definition new (map size : Z) : R BlockAllocator :=
  m ← Mmap_new map size;
  let this := mkBA [] (mm_end m) (Mmap_aligned m) m in
  if decide (data this mod BLOCK_SIZE = 0) then Ok this else Panic AssertFailed.

Definition is_in_space (self : BlockAllocator) (object : Z) : bool :=
  bool_decide (mm_start (mmap self) < object) && bool_decide (object <= data_bound self).

(** [build_block] without interference: the first compare-and-exchange succeeds. *)
Definition build_block (self : BlockAllocator) (s : Store) : R (option Z * BlockAllocator * Store) :=
  let old := data self in
  new ← u_add 64 old BLOCK_SIZE;
  if decide (new > data_bound self) then Ok (None, self, s)
  else if decide (old mod BLOCK_SIZE = 0) then
    Ok (Some old, mkBA (free_blocks self) (data_bound self) new (mmap self), Mmap_commit s old BLOCK_SIZE)
  else Panic AssertFailed.

Definition get_block (self : BlockAllocator) (s : Store) : R (option Z * BlockAllocator * Store) :=
  if decide (free_blocks self = []) then build_block self s
  else match vec_pop (free_blocks self) with
  | None => build_block self s
  | Some (x, rest) =>
      let s1 := Mmap_commit s x BLOCK_SIZE in
      blk ← Block.new x;
      Ok (Some x, mkBA rest (data_bound self) (data self) (mmap self), set_header s1 x blk)
  end.

Definition return_blocks (self : BlockAllocator) (s : Store) (blocks : list Z) : BlockAllocator * Store :=
  foldl (λ '(ba, s) block,
      (mkBA (free_blocks ba ++ [block]) (data_bound ba) (data ba) (mmap ba),
       Mmap_dontneed s block BLOCK_SIZE)) (self, s) blocks.

Definition available_blocks (self : BlockAllocator) : R Z :=
  n ← u_sub (data_bound self) (data self);
  Ok (n / BLOCK_SIZE + Z.of_nat (length (free_blocks self))).

(** ** Invariant *)

(** A block of the space: aligned and inside the mapping. *)
Definition in_range (self : BlockAllocator) (b : Z) : Prop :=
  b mod BLOCK_SIZE = 0 ∧ Mmap_aligned (mmap self) <= b ∧ b + BLOCK_SIZE <= data_bound self.

Record inv (self : BlockAllocator) : Prop := {
  inv_start : 0 <= mm_start (mmap self);
  inv_bound : data_bound self = mm_end (mmap self) ∧ data_bound self < 2 ^ 63;
  inv_data : data self mod BLOCK_SIZE = 0 ∧ Mmap_aligned (mmap self) <= data self <= data_bound self;
  inv_nodup : NoDup (free_blocks self);
  inv_free : ∀ b, b ∈ free_blocks self →
    b mod BLOCK_SIZE = 0 ∧ Mmap_aligned (mmap self) <= b ∧ b + BLOCK_SIZE <= data self
}.

(** The blocks [get_block] may still hand out. *)
Definition available (self : BlockAllocator) (b : Z) : Prop :=
  b ∈ free_blocks self ∨ (b mod BLOCK_SIZE = 0 ∧ data self <= b ∧ b + BLOCK_SIZE <= data_bound self).

(** ** Lemmas *)

Lemma aligned_spec m : Mmap_aligned m mod BLOCK_SIZE = 0 ∧
  mm_start m < Mmap_aligned m <= mm_start m + BLOCK_SIZE.
Proof.
  unfold Mmap_aligned. consts. pose proof (Z.mod_pos_bound (mm_start m) 32768). split; [|lia].
  replace (mm_start m + (32768 - mm_start m mod 32768)) with ((mm_start m / 32768 + 1) * 32768)
    by (pose proof (Z.div_mod (mm_start m) 32768); lia).
  apply Z.mod_mul. lia.
Qed.

Lemma new_inv map size ba : 0 <= map → map + size < 2 ^ 63 → BLOCK_SIZE <= size →
  new map size = Ok ba → inv ba ∧ free_blocks ba = [] ∧ data ba = Mmap_aligned (mmap ba) ∧
    mm_start (mmap ba) = map ∧ data_bound ba = map + size.
Proof.
  intros Hm Hb Hs H. unfold new, Mmap_new in H. case_decide; [done|]. unfold u_add in H.
  case_decide; [|lia]. cbn -[Mmap_aligned] in H. case_decide as Ha; [|done]. injection H as <-.
  pose proof (aligned_spec (mkMmap map (map + size) size)) as [A1 A2]. cbn in A2.
  split; [|done]. constructor; cbn -[Mmap_aligned]; try lia; try done.
  - constructor.
  - intros b Hb0. by apply not_elem_of_nil in Hb0.
Qed.

Lemma aligned_ne_disjoint a b : a mod 32768 = 0 → b mod 32768 = 0 → a ≠ b →
  a + 32768 <= b ∨ b + 32768 <= a.
Proof. intros. Z.div_mod_to_equations. lia. Qed.

(** What [get_block] does, on every branch. *)
Lemma get_block_spec self s : inv self →
  (∃ b self' s', get_block self s = Ok (Some b, self', s') ∧ inv self' ∧ in_range self b ∧
     available self b ∧ ¬ available self' b ∧ (∀ c, available self c ↔ c = b ∨ available self' c) ∧
     mmap self' = mmap self ∧ data_bound self' = data_bound self ∧
     (s' = s ∧ data self <= b ∨ s' = set_header s b Block.zeroed ∧ b + BLOCK_SIZE <= data self)) ∨
  (get_block self s = Ok (None, self, s) ∧ ∀ c, ¬ available self c).
Proof.
  intros [Hst [Hbd Hbd'] [Hda Hd] Hnd Hfr]. unfold get_block, available, in_range.
  pose proof (vec_pop_spec (free_blocks self)) as Hp.
  destruct (vec_pop (free_blocks self)) as [[x rest]|].
  - left. rewrite decide_False by (rewrite Hp; by destruct rest). destruct (Hfr x) as (Hx1 & Hx2 & Hx3); [rewrite Hp; apply elem_of_app; right; left|].
    rewrite Block.new_zeroed by (consts; Z.div_mod_to_equations; lia). rewrite bind_Ok.
    rewrite Hp in Hnd. apply NoDup_app in Hnd as (Hn1 & Hn2 & _).
    do 3 eexists. split; [done|]. cbn. rewrite Hp. split_and!; try done; try lia.
    + constructor; cbn; try done; try lia. intros c Hc. apply Hfr. rewrite Hp. apply elem_of_app. by left.
    + left. apply elem_of_app. right. left.
    + intros [Hin|Hin]; [apply (Hn2 x Hin); left|consts; lia].
    + intros c. rewrite elem_of_app, list_elem_of_singleton. tauto.
    + right. done.
  - rewrite decide_True by done. unfold build_block. rewrite u_add_ok by (consts; lia). rewrite bind_Ok.
    case_decide as C.
    + right. split; [done|]. intros c [Hc|Hc]; [rewrite Hp in Hc; by apply not_elem_of_nil in Hc|].
      lia.
    + rewrite decide_True by done. left. do 3 eexists. split; [done|]. cbn. rewrite Hp.
      split_and!; try done; try lia.
      * constructor; cbn; try done; try lia.
        { split; [|consts; lia]. consts. Z.div_mod_to_equations. lia. }
        { constructor. }
        intros c Hc. by apply not_elem_of_nil in Hc.
      * intros [Hc|Hc]; [by apply not_elem_of_nil in Hc|consts; lia].
      * intros c. split.
        -- intros [Hc|Hc]; [by apply not_elem_of_nil in Hc|].
           destruct (Z.eq_dec c (data self)) as [->|Hne]; [by left|right; right].
           destruct (aligned_ne_disjoint c (data self)); consts; try done; lia.
        -- intros [->|[Hc|Hc]]; [right; lia|by apply not_elem_of_nil in Hc|right; consts; lia].
      * left. done.
Qed.

Lemma return_blocks_free self s bs :
  (return_blocks self s bs).1 = mkBA (free_blocks self ++ bs) (data_bound self) (data self) (mmap self).
Proof.
  unfold return_blocks. revert self s. induction bs as [|b bs IH]; intros self s.
  - cbn. rewrite app_nil_r. by destruct self.
  - cbn [foldl]. rewrite IH. cbn. by rewrite <- app_assoc.
Qed.

Lemma header_dontneed s p b :
  header (Mmap_dontneed s p BLOCK_SIZE) b =
    if decide (p <= b < p + BLOCK_SIZE) then Block.zeroed else header s b.
Proof.
  unfold header, Mmap_dontneed. cbn [headers]. destruct (headers s !! b) as [blk|] eqn:E.
  - case_decide as C.
    + rewrite (proj2 (map_lookup_filter_None _ _ _)); [done|]. right. intros x Hx. tauto.
    + rewrite (proj2 (map_lookup_filter_Some _ _ _ _) (conj E C)). done.
  - rewrite (proj2 (map_lookup_filter_None _ _ _)) by (by left). by case_decide.
Qed.

Lemma return_blocks_header self s bs b :
  (∀ c, c ∈ bs → c mod BLOCK_SIZE = 0) → b mod BLOCK_SIZE = 0 →
  header (return_blocks self s bs).2 b = if decide (b ∈ bs) then Block.zeroed else header s b.
Proof.
  unfold return_blocks. revert self s. induction bs as [|c bs IH]; intros self s Hal Hb; [done|].
  cbn [foldl]. rewrite IH by (try done; intros; apply Hal; by right).
  rewrite header_dontneed. assert (Hc : c mod BLOCK_SIZE = 0) by (apply Hal; left).
  assert (E : c <= b < c + BLOCK_SIZE ↔ b = c).
  { split; [|intros ->; consts; lia]. intros. destruct (Z.eq_dec b c); [done|].
    destruct (aligned_ne_disjoint b c); consts; try done; lia. }
  repeat case_decide; try done; exfalso; rewrite elem_of_cons in *; tauto.
Qed.

Lemma return_blocks_inv self s bs : inv self → NoDup bs →
  (∀ b, b ∈ bs → b mod BLOCK_SIZE = 0 ∧ Mmap_aligned (mmap self) <= b ∧ b + BLOCK_SIZE <= data self ∧
     b ∉ free_blocks self) →
  inv (return_blocks self s bs).1.
Proof.
  intros [? ? ? Hnd Hfr] Hnb Hb. rewrite return_blocks_free. constructor; cbn; try done.
  - apply NoDup_app. split_and!; try done. intros x Hx Hx'. by apply (Hb x Hx').
  - intros b [Hin|Hin]%elem_of_app; [by apply Hfr|]. destruct (Hb b Hin) as (? & ? & ? & _). done.
Qed.

Lemma available_blocks_ok self : inv self →
  available_blocks self =
    Ok ((data_bound self - data self) / BLOCK_SIZE + Z.of_nat (length (free_blocks self))).
Proof. intros [_ _ [_ Hd] _ _]. unfold available_blocks. by rewrite u_sub_ok by lia. Qed.

(** ** Properties *)

(** [get_block] on a consistent allocator never panics.  It returns a block that is
    aligned, inside the mapping and was available before, and then is not available
    any more while every other available block still is; the header of the block is
    the zeroed one if it came from the free list, and untouched memory otherwise; it
    returns [None] only when no block at all is available. *)
Theorem get_block_correct self s : inv self →
  (∃ b self' s', get_block self s = Ok (Some b, self', s') ∧ inv self' ∧ in_range self b ∧
     available self b ∧ ¬ available self' b ∧ (∀ c, available self c ↔ c = b ∨ available self' c) ∧
     (s' = s ∧ data self <= b ∨ s' = set_header s b Block.zeroed ∧ b + BLOCK_SIZE <= data self)) ∨
  (get_block self s = Ok (None, self, s) ∧ ∀ c, ¬ available self c).
Proof.
  intros H. destruct (get_block_spec self s H) as [(b & self' & s' & ? & ? & ? & ? & ? & ? & _ & _ & ?)|H'];
    [left|by right]. by exists b, self', s'.
Qed.

Lemma get_block_correct_witness : ∃ ba,
  new 4096 (4096 + 2 * 32768) = Ok ba ∧ get_block ba (mkStore ∅ ∅) =
    Ok (Some 32768, mkBA [] (4096 + (4096 + 2 * 32768)) 65536 (mmap ba), mkStore ∅ ∅) ∧ inv ba.
Proof.
  destruct (new 4096 (4096 + 2 * 32768)) as [ba| |] eqn:E; try discriminate E.
  assert (Hi : inv ba). { apply (new_inv 4096 (4096 + 2 * 32768) ba); [lia|reflexivity|discriminate|exact E]. }
  exists ba. split; [reflexivity|].
  destruct (get_block_correct ba (mkStore ∅ ∅) Hi) as [(b & self' & s' & G & _)|[G _]];
    vm_compute in E; injection E as <-; split; try exact Hi; reflexivity.
Defined.

(** Returned blocks come back: [return_blocks] followed by [get_block] yields the
    last block returned, with a zeroed header, and leaves the others available. *)
Theorem return_then_get self s bs b : inv self → NoDup (bs ++ [b]) →
  (∀ c, c ∈ bs ++ [b] → c mod BLOCK_SIZE = 0 ∧ Mmap_aligned (mmap self) <= c ∧ c + BLOCK_SIZE <= data self ∧
     c ∉ free_blocks self) →
  ∃ self' s', get_block (return_blocks self s (bs ++ [b])).1 (return_blocks self s (bs ++ [b])).2
                = Ok (Some b, self', s') ∧ inv self' ∧
    free_blocks self' = free_blocks self ++ bs ∧ header s' b = Block.zeroed.
Proof.
  intros Hi Hn Hb. pose proof (return_blocks_inv self s (bs ++ [b]) Hi Hn Hb) as Hi'.
  set (r := return_blocks self s (bs ++ [b])) in *.
  assert (Hf : free_blocks r.1 = (free_blocks self ++ bs) ++ [b]).
  { unfold r. rewrite return_blocks_free. cbn. by rewrite app_assoc. }
  destruct (get_block_spec r.1 r.2 Hi') as [(b' & self' & s' & E & Hi2 & _)|[_ Hno]].
  - unfold get_block in *. rewrite Hf in *. rewrite vec_pop_app in *.
    rewrite decide_False in * by (by destruct (free_blocks self ++ bs)).
    destruct (Hb b) as (Hal & _); [apply elem_of_app; right; left|].
    rewrite Block.new_zeroed in * by (consts; Z.div_mod_to_equations; lia). rewrite bind_Ok in *.
    injection E as <- <- <-. do 2 eexists. split_and!; try done. unfold header. cbn. by rewrite lookup_insert_eq.
  - exfalso. apply (Hno b). left. rewrite Hf. apply elem_of_app. right. left.
Qed.

Lemma return_then_get_witness : ∃ self' s',
  get_block (return_blocks (mkBA [] 200000 98304 (mkMmap 4096 200000 195904)) (mkStore ∅ ∅) [32768; 65536]).1
            (mkStore ∅ ∅) = Ok (Some 65536, self', s') ∧ free_blocks self' = [32768].
Proof.
  destruct (return_then_get (mkBA [] 200000 98304 (mkMmap 4096 200000 195904)) (mkStore ∅ ∅) [32768] 65536)
    as (self' & s' & E & _ & F & _).
  - constructor; [cbn; lia|cbn; lia|split; [reflexivity|split; vm_compute; discriminate]|constructor|].
    intros b Hb. by apply not_elem_of_nil in Hb.
  - vm_decide.
  - intros c Hc. cbn in Hc. rewrite !elem_of_cons in Hc.
    destruct Hc as [->|[->|Hc]]; [..|by apply not_elem_of_nil in Hc];
      (split_and!; [reflexivity|vm_compute; discriminate|vm_compute; discriminate|apply not_elem_of_nil]).
  - exists self', s'. split; [exact E|exact F].
Defined.

(** [is_in_space] accepts the first address after the mapping, and the bitmap over
    the mapping has no bit for it; addresses strictly inside are accepted. *)
Lemma is_in_space_iff self a : inv self →
  is_in_space self a = true ↔ mm_start (mmap self) < a <= mm_end (mmap self).
Proof.
  intros [_ [Hb _] _ _ _]. unfold is_in_space. rewrite andb_true_iff, !bool_decide_eq_true. lia.
Qed.

End BA.

(** ** [build_block] under interference *)

Module BuildBlock.

(** Where a thread is in [build_block]. *)
Inductive pc : Type :=
| Start
| Loop (old : Z).

(** The shared [data], the position of every thread, and the blocks returned so
    far (most recent first), with the thread that got each. *)
Record state : Type := mkState { sh_data : Z; pcs : gmap nat pc; issued : list (nat * Z) }.

Section Steps.
Context (bound : Z).

Inductive step : state → state → Prop :=
(** [data.load(Relaxed)] *)
| step_load t st : pcs st !! t = Some Start →
    step st (mkState (sh_data st) (<[t := Loop (sh_data st)]> (pcs st)) (issued st))
(** [new > data_bound]: return [None] *)
| step_none t old st : pcs st !! t = Some (Loop old) → old + BLOCK_SIZE > bound →
    step st (mkState (sh_data st) (<[t := Start]> (pcs st)) (issued st))
(** [compare_exchange_weak] succeeds: return [Some old] *)
| step_ok t old st : pcs st !! t = Some (Loop old) → old + BLOCK_SIZE <= bound → sh_data st = old →
    step st (mkState (old + BLOCK_SIZE) (<[t := Start]> (pcs st)) ((t, old) :: issued st))
(** it fails, because [data] moved or spuriously: [old] becomes the value read *)
| step_retry t old st : pcs st !! t = Some (Loop old) → old + BLOCK_SIZE <= bound →
    step st (mkState (sh_data st) (<[t := Loop (sh_data st)]> (pcs st)) (issued st)).

Definition init (data0 : Z) (n : nat) : state :=
  mkState data0 (list_to_map ((λ t, (t, Start)) <$> seq 0 n)) [].

(** The blocks handed out are consecutive, from [data0] up to [data]. *)
Definition Inv (data0 : Z) (st : state) : Prop :=
  sh_data st = data0 + BLOCK_SIZE * Z.of_nat (length (issued st)) ∧
  (issued st).*2 = rev ((λ k, data0 + BLOCK_SIZE * Z.of_nat k) <$> seq 0 (length (issued st))) ∧
  (∀ t old, pcs st !! t = Some (Loop old) → old <= sh_data st) ∧
  (issued st = [] ∨ sh_data st <= bound).

Lemma step_inv data0 st st' : step st st' → Inv data0 st → Inv data0 st'.
Proof.
  intros Hs (Hd & Hi & Hl & Hb). destruct Hs as [t st H|t old st H Hgt|t old st H Hle <-|t old st H Hle];
    unfold Inv; cbn [sh_data pcs issued].
  - split_and!; try done. intros t' old. rewrite lookup_insert. case_decide; [intros [= <-]; lia|eauto].
  - split_and!; try done. intros t' old'. rewrite lookup_insert. case_decide; [done|eauto].
  - split_and!.
    + cbn [length]. lia.
    + cbn [length fmap list_fmap snd]. rewrite seq_S, fmap_app, rev_app_distr. cbn. f_equal; [lia|]. done.
    + intros t' old'. rewrite lookup_insert. case_decide; [done|]. intros Ho%Hl. consts. lia.
    + by right.
  - split_and!; try done. intros t' old'. rewrite lookup_insert. case_decide; [intros [= <-]; lia|eauto].
Qed.

Lemma claimed_inv data0 n st : rtc step (init data0 n) st → Inv data0 st.
Proof.
  intros H. remember (init data0 n) as s0 eqn:E.
  assert (H0 : Inv data0 s0).
  { subst. unfold Inv, init; cbn. split_and!; try done; try lia; [|by left].
    intros t old Ht. apply elem_of_list_to_map_2, list_elem_of_fmap in Ht as (? & [=] & _). }
  clear E. induction H; eauto using step_inv.
Qed.

End Steps.

(** C32: Concurrent [build_block]: whatever the interleaving of any number of threads, and
    with spurious failures of the weak compare-and-exchange, the blocks returned are
    pairwise distinct, aligned like the first one, disjoint from one another, and
    all of them lie between the initial [data] and [data_bound]. *)
Theorem concurrent_blocks_distinct bound data0 n st : data0 mod BLOCK_SIZE = 0 →
  rtc (step bound) (init data0 n) st →
  NoDup ((issued st).*2) ∧
  ∀ t b, (t, b) ∈ issued st → b mod BLOCK_SIZE = 0 ∧ data0 <= b ∧ b + BLOCK_SIZE <= bound.
Proof.
  intros Ha H. destruct (claimed_inv bound data0 n st H) as (Hd & Hi & _ & Hb). rewrite Hi. split.
  - rewrite <- Permutation_rev. apply NoDup_fmap_2; [|apply NoDup_seq].
    intros x y Hxy. consts. lia.
  - intros t b Hin. assert (Hin2 : b ∈ (issued st).*2) by (apply list_elem_of_fmap; by exists (t, b)).
    rewrite Hi, <- Permutation_rev in Hin2.
    apply list_elem_of_fmap in Hin2 as (k & -> & Hk%elem_of_seq).
    destruct Hb as [Hb|Hb]; [rewrite Hb in Hin; by apply not_elem_of_nil in Hin|].
    consts. split; [|nia].
    replace (data0 + 32768 * Z.of_nat k) with (data0 + Z.of_nat k * 32768) by lia.
    rewrite Z.mod_add by lia. done.
Qed.

Lemma concurrent_blocks_distinct_witness : ∃ st,
  rtc (step 131072) (init 32768 2) st ∧ issued st = [(0%nat, 65536); (1%nat, 32768)] ∧
  NoDup ((issued st).*2).
Proof.
  assert (Hr : rtc (step 131072) (init 32768 2)
    (mkState 98304 (<[0%nat := Start]> (<[0%nat := Loop 65536]> (<[1%nat := Start]>
       (<[1%nat := Loop 32768]> (<[0%nat := Loop 32768]> (pcs (init 32768 2))))))) [(0%nat, 65536); (1%nat, 32768)])).
  { eapply rtc_l; [apply (step_load _ 0); reflexivity|].
    eapply rtc_l; [apply (step_load _ 1); reflexivity|].
    eapply rtc_l; [apply (step_ok _ 1 32768); [reflexivity|discriminate|reflexivity]|].
    eapply rtc_l; [apply (step_retry _ 0 32768); [reflexivity|discriminate]|].
    eapply rtc_l; [apply (step_ok _ 0 65536); [reflexivity|discriminate|reflexivity]|].
    apply rtc_refl. }
  eexists. split; [exact Hr|]. split; [reflexivity|].
  apply (concurrent_blocks_distinct 131072 32768 2 _ eq_refl Hr).
Defined.

End BuildBlock.
