(* ===== verification/WindowsMemory.v ===== *)
(** * block_allocator.rs: the mapping of the Windows build

    On Windows the heap is reserved address space whose pages have to be committed before
    they are used.  [VirtualMemory] is what the code relies on of [VirtualAlloc] and
    [VirtualFree], which may fail; an access to memory that is not committed is
    [Panic BadAccess].  The block allocator is the one of [BlockAllocator], with the
    commits in it, used by one thread, so that an exchange of [build_block] fails at most
    spuriously. *)

From stdpp Require Import base numbers list list_numbers relations.
From Stdlib Require Import ZArith Lia.
From S2P Require Import Prelude Util Constants Block.
Local Open Scope Z_scope.

(** [VirtualAlloc] with [MEM_COMMIT] and [VirtualFree] with [MEM_DECOMMIT] on the range
    from [page], [size] bytes long: [None] where the call fails, which changes nothing. *)
Class VirtualMemory (V : Type) : Type := {
  vm_none : V;
  vm_commit : V → Z → Z → option V;
  vm_decommit : V → Z → Z → option V;
  committed : V → Z → bool
}.

(** What a call does when it succeeds; reserved memory is not committed. *)
Class VirtualMemoryLaws (V : Type) `{VirtualMemory V} : Prop := {
  none_law : ∀ x, committed vm_none x = false;
  commit_law : ∀ v page size v' x, vm_commit v page size = Some v' →
    committed v' x = bool_decide (page <= x < page + size) || committed v x;
  decommit_law : ∀ v page size v' x, vm_decommit v page size = Some v' →
    committed v' x = negb (bool_decide (page <= x < page + size)) && committed v x
}.

(** A system with memory for one block: a list of the ranges that are committed, and a commit
    that fails beyond a number of bytes. *)
Record Limited : Type := mkLimited { used : list (Z * Z); limit : Z }.

Definition limited_committed (v : Limited) (x : Z) : bool :=
  bool_decide (Exists (λ r, r.1 <= x < r.1 + r.2) (used v)).

#[global] Instance limited : VirtualMemory Limited := {
  vm_none := mkLimited [] BLOCK_SIZE;
  vm_commit := λ v page size,
    if decide (sum_list (snd <$> used v) + size <= limit v) then Some (mkLimited ((page, size) :: used v) (limit v)) else None;
  vm_decommit := λ v page size,
    if decide ((page, size) ∈ used v ∧ Forall (λ r, r = (page, size) ∨ r.1 + r.2 <= page ∨ page + size <= r.1) (used v))
    then Some (mkLimited (filter (λ r, r ≠ (page, size)) (used v)) (limit v)) else None;
  committed := limited_committed
}.

#[global] Instance limited_laws : VirtualMemoryLaws Limited.
Proof.
  constructor; [done|..]; intros v page size v' x; cbn; case_decide as C; intros [= <-]; unfold limited_committed; cbn [used];
    apply eq_true_iff_eq; rewrite ?orb_true_iff, ?andb_true_iff, ?negb_true_iff, ?bool_decide_eq_true, ?bool_decide_eq_false, ?Exists_cons;
    [done|]. destruct C as [_ C]. rewrite Forall_forall in C. rewrite !Exists_exists. split.
  - intros (r & [Hne Hr]%list_elem_of_filter & Hx). split; [|eauto]. destruct (C r Hr); [done|lia].
  - intros (Hx & r & Hr & Hrx). exists r. split; [|done]. apply list_elem_of_filter. split; [|done]. intros ->. by apply Hx.
Qed.

Module Win.

Record Mmap : Type := mkMmap { start : Z; end_ : Z; size : Z }.

(** [mem] is what [VirtualAlloc] with [MEM_RESERVE] returned. *)
Definition Mmap_new (mem size : Z) : Mmap := mkMmap mem (mem + size) size.

Definition aligned (self : Mmap) : Z := start self + (BLOCK_SIZE - start self mod BLOCK_SIZE).

Section Allocator.
Context {V : Type} `{VirtualMemory V}.

(** Neither looks at what the call returns. *)
Definition dontneed (v : V) (page size : Z) : V := default v (vm_decommit v page size).
Definition commit (v : V) (page size : Z) : V := default v (vm_commit v page size).

Record BlockAllocator : Type := mkBA {
  free_blocks : list Z;
  data_bound : Z;
  data : Z;
  mmap : Mmap;
  vm : V
}.

Definition new (mem size : Z) : R BlockAllocator :=
  let map := Mmap_new mem size in
  let this := mkBA [] (end_ map) (aligned map) map vm_none in
  if decide (data this mod BLOCK_SIZE = 0) then Ok this else Panic AssertFailed.

(** [ImmixBlock::new] writes the header at the start of the block. *)
Definition write_header (v : V) (x : Z) : R () := if committed v x then _ ← Block.new x; Ok () else Panic BadAccess.

(** The loop of [build_block]; the first [spurious] exchanges fail with the value that is there. *)
Fixpoint exchange_loop (spurious : nat) (s : BlockAllocator) (old : Z) : R (option (Z * Z)) :=
  new ← u_add 64 old BLOCK_SIZE;
  if decide (data_bound s < new) then Ok None
  else match spurious with
    | O => Ok (Some (old, new))
    | S spurious' => exchange_loop spurious' s (data s)
    end.

Definition build_block (spurious : nat) (s : BlockAllocator) : R (option Z * BlockAllocator) :=
  r ← exchange_loop spurious s (data s);
  match r with
  | None => Ok (None, s)
  | Some (old, new) =>
      if decide (old mod BLOCK_SIZE = 0)
      then Ok (Some old, mkBA (free_blocks s) (data_bound s) new (mmap s) (commit (vm s) old BLOCK_SIZE))
      else Panic AssertFailed
  end.

Definition get_block (spurious : nat) (s : BlockAllocator) : R (option Z * BlockAllocator) :=
  if decide (free_blocks s = []) then build_block spurious s
  else match vec_pop (free_blocks s) with
  | None => build_block spurious s
  | Some (x, rest) =>
      let v := commit (vm s) x BLOCK_SIZE in
      write_header v x;;
      Ok (Some x, mkBA rest (data_bound s) (data s) (mmap s) v)
  end.

Definition return_block (s : BlockAllocator) (block : Z) : BlockAllocator :=
  mkBA (free_blocks s ++ [block]) (data_bound s) (data s) (mmap s) (dontneed (vm s) block BLOCK_SIZE).
Definition return_blocks (s : BlockAllocator) (bs : list Z) : BlockAllocator := foldl return_block s bs.

(** ** Use by a client that returns only blocks it has *)

(** The blocks that were handed out although their commit failed. *)
Definition lost_after (v : V) (b : Z) (lost : list Z) : list Z :=
  match vm_commit v b BLOCK_SIZE with Some _ => filter (.≠ b) lost | None => b :: lost end.

Inductive step : BlockAllocator * list Z * list Z → BlockAllocator * list Z * list Z → Prop :=
| step_get spurious s s' held lost b : get_block spurious s = Ok (Some b, s') →
    step (s, held, lost) (s', b :: held, lost_after (vm s) b lost)
| step_return s held lost bs held' : held ≡ₚ bs ++ held' → step (s, held, lost) (return_blocks s bs, held', lost).

Record inv (s : BlockAllocator) (held lost : list Z) : Prop := {
  i_nodup : NoDup (free_blocks s ++ held);
  i_block : ∀ b, b ∈ free_blocks s ++ held → b mod BLOCK_SIZE = 0 ∧ b + BLOCK_SIZE <= data s ∧ b + BLOCK_SIZE <= data_bound s;
  i_data : data s mod BLOCK_SIZE = 0 ∧ 0 <= data s ∧ data_bound s + 2 * BLOCK_SIZE < 2 ^ 64;
  i_bound : data s <= data_bound s + BLOCK_SIZE;
  i_fresh : ∀ x, data s <= x → committed (vm s) x = false;
  i_committed : ∀ b x, b ∈ held → b ∉ lost → b <= x < b + BLOCK_SIZE → committed (vm s) x = true
}.

Context `{!VirtualMemoryLaws V}.

(** Different blocks have no address in common. *)
Lemma blocks_apart b c x : b mod BLOCK_SIZE = 0 → c mod BLOCK_SIZE = 0 → b ≠ c →
  b <= x < b + BLOCK_SIZE → ¬ (c <= x < c + BLOCK_SIZE).
Proof. unfold BLOCK_SIZE. intros. Z.div_mod_to_equations. lia. Qed.

(** A commit adds at most the block, and the whole block where it succeeds. *)
Lemma commit_facts v b x :
  (committed v x = true → committed (commit v b BLOCK_SIZE) x = true) ∧
  (¬ (b <= x < b + BLOCK_SIZE) → committed (commit v b BLOCK_SIZE) x = committed v x) ∧
  (is_Some (vm_commit v b BLOCK_SIZE) → b <= x < b + BLOCK_SIZE → committed (commit v b BLOCK_SIZE) x = true) ∧
  (vm_commit v b BLOCK_SIZE = None → commit v b BLOCK_SIZE = v).
Proof.
  unfold commit. destruct (vm_commit v b BLOCK_SIZE) as [v'|] eqn:E; cbn; [|split_and!; try done; by intros [? [=]]].
  rewrite (commit_law _ _ _ _ x E). split_and!; [by intros ->; rewrite orb_true_r| |by intros _ ?; rewrite bool_decide_eq_true_2|done].
  intros C. by rewrite bool_decide_eq_false_2.
Qed.

(** A block that becomes held is committed unless it is lost, and so is what was held before. *)
Lemma commit_held v b held lost :
  (∀ c x, c ∈ held → c ∉ lost → c <= x < c + BLOCK_SIZE → committed v x = true) →
  ∀ c x, c ∈ b :: held → c ∉ lost_after v b lost → c <= x < c + BLOCK_SIZE →
    committed (commit v b BLOCK_SIZE) x = true.
Proof.
  intros Hc c x Hin Hl Hx. unfold lost_after in Hl. destruct (commit_facts v b x) as (C1 & _ & C3 & _). destruct (decide (c = b)) as [->|Hne].
  - apply C3; [|done]. destruct (vm_commit v b BLOCK_SIZE); [done|]. exfalso. apply Hl. left.
  - apply C1, (Hc c x); [by apply elem_of_cons in Hin as [?|?]| |done].
    destruct (vm_commit v b BLOCK_SIZE); intros ?; apply Hl; [by apply list_elem_of_filter|by right].
Qed.

Lemma exchange_ok spurious s : 0 <= data s → data s + BLOCK_SIZE < 2 ^ 64 →
  exchange_loop spurious s (data s) =
    Ok (if decide (data_bound s < data s + BLOCK_SIZE) then None else Some (data s, data s + BLOCK_SIZE)).
Proof.
  intros H0 Hb. induction spurious as [|k IH]; cbn [exchange_loop];
    (rewrite u_add_ok, bind_Ok by (unfold BLOCK_SIZE in *; lia)); case_decide; done.
Qed.

(** [get_block] on every branch. *)
Lemma get_block_eq spurious s held lost : inv s held lost → get_block spurious s =
  match vec_pop (free_blocks s) with
  | None => if decide (data_bound s < data s + BLOCK_SIZE) then Ok (None, s)
      else Ok (Some (data s), mkBA [] (data_bound s) (data s + BLOCK_SIZE) (mmap s) (commit (vm s) (data s) BLOCK_SIZE))
  | Some (x, rest) => let v := commit (vm s) x BLOCK_SIZE in
      if committed v x then Ok (Some x, mkBA rest (data_bound s) (data s) (mmap s) v) else Panic BadAccess
  end.
Proof.
  intros [Hnd Hb (Hd1 & Hd2 & Hd3) Hbd _ _]. unfold get_block. pose proof (vec_pop_spec (free_blocks s)) as Hp.
  destruct (vec_pop (free_blocks s)) as [[x rest]|].
  - rewrite decide_False by (rewrite Hp; by destruct rest). unfold write_header.
    destruct (committed _ x); [|done]. rewrite Block.new_zeroed; [done|].
    destruct (Hb x) as [Hm _]; [rewrite Hp; set_solver|]. unfold BLOCK_SIZE in Hm. Z.div_mod_to_equations. lia.
  - rewrite decide_True by done. unfold build_block. rewrite exchange_ok, bind_Ok by (unfold BLOCK_SIZE in *; lia).
    case_decide; [done|]. by rewrite decide_True, Hp.
Qed.

Lemma get_block_inv spurious s held lost b s' : inv s held lost → get_block spurious s = Ok (Some b, s') →
  inv s' (b :: held) (lost_after (vm s) b lost).
Proof.
  intros Hi. rewrite (get_block_eq spurious s held lost Hi). destruct Hi as [Hnd Hb Hd Hbd Hf Hc].
  pose proof (vec_pop_spec (free_blocks s)) as Hp. destruct (vec_pop (free_blocks s)) as [[x rest]|].
  - cbn. destruct (committed _ x); [|done]. intros [= <- <-]. rewrite Hp in Hnd, Hb. rewrite <-app_assoc in Hnd, Hb.
    constructor; cbn; try done; [|by apply commit_held].
    intros y Hy. rewrite (proj1 (proj2 (commit_facts (vm s) x y))); [by apply Hf|].
    destruct (Hb x) as (_ & ? & _); [set_solver|lia].
  - case_decide; [done|]. intros [= <- <-]. constructor; cbn; rewrite ?Hp in *; cbn in *; try lia.
    + apply NoDup_cons. split; [|done]. intros Hin. apply Hb in Hin. unfold BLOCK_SIZE in *. lia.
    + intros b [->|Hin]%elem_of_cons; [lia|]. destruct (Hb b Hin) as (? & ? & ?). unfold BLOCK_SIZE in *. lia.
    + unfold BLOCK_SIZE in *. Z.div_mod_to_equations. lia.
    + intros y Hy. rewrite (proj1 (proj2 (commit_facts (vm s) (data s) y))); [apply Hf|]; unfold BLOCK_SIZE in *; lia.
    + by apply commit_held.
Qed.

Lemma return_block_inv s b held lost : inv s (b :: held) lost → inv (return_block s b) held lost.
Proof.
  intros [Hnd Hb Hd Hbd Hf Hc].
  assert (Hout : ∀ x, ¬ (b <= x < b + BLOCK_SIZE) → committed (dontneed (vm s) b BLOCK_SIZE) x = committed (vm s) x).
  { intros x Hx. unfold dontneed. destruct (vm_decommit (vm s) b BLOCK_SIZE) as [v|] eqn:E; [|done]. cbn.
    by rewrite (decommit_law _ _ _ _ x E), bool_decide_eq_false_2. }
  constructor; cbn; rewrite <-?app_assoc; try done.
  - intros x Hx. rewrite Hout; [by apply Hf|]. destruct (Hb b) as (_ & ? & _); [set_solver|lia].
  - intros c x Hin Hl Hx. rewrite Hout; [apply (Hc c x); try done; by right|]. apply (blocks_apart c b x); try done.
    + apply Hb. apply elem_of_app. right. by right.
    + apply Hb. apply elem_of_app. right. by left.
    + apply NoDup_app in Hnd as (_ & _ & [Hn _]%NoDup_cons). congruence.
Qed.

Lemma win_return_inv bs s held lost : inv s (bs ++ held) lost → inv (return_blocks s bs) held lost.
Proof.
  unfold return_blocks. revert s. induction bs as [|b bs IH]; intros s Hi; [done|]. by apply IH, return_block_inv.
Qed.

Lemma held_perm s held held' lost : held ≡ₚ held' → inv s held lost → inv s held' lost.
Proof.
  intros Hp [Hnd Hb Hd Hbd Hf Hc]. constructor; try done.
  - by rewrite <-Hp.
  - intros b. rewrite <-Hp. apply Hb.
  - intros b x. rewrite <-Hp. apply Hc.
Qed.

Lemma reserved_inv mem size : 0 < mem → 0 <= size → mem + size + 2 * BLOCK_SIZE < 2 ^ 64 →
  ∃ s, new mem size = Ok s ∧ inv s [] [].
Proof.
  intros Hm Hs Hz. unfold new. cbn [data].
  assert (Ha : aligned (Mmap_new mem size) mod BLOCK_SIZE = 0)
    by (unfold aligned, BLOCK_SIZE; cbn; Z.div_mod_to_equations; lia).
  rewrite decide_True by exact Ha. eexists. split; [done|]. constructor; cbn; try (by intros ? ?%not_elem_of_nil); try constructor;
    try (by intros ? ? ?%not_elem_of_nil); try done; try (intros; apply none_law);
    unfold aligned, BLOCK_SIZE in *; cbn in *; Z.div_mod_to_equations; lia.
Qed.

Lemma held_reachable s0 s held lost : inv s0 [] [] → rtc step (s0, [], []) (s, held, lost) → inv s held lost.
Proof.
  intros Hi0 Hr. change (inv (s, held, lost).1.1 (s, held, lost).1.2 (s, held, lost).2).
  refine (rtc_ind_r (λ p : BlockAllocator * list Z * list Z, inv p.1.1 p.1.2 p.2) _ _ _ _ Hr); [done|].
  intros y z _ Hst Hi. destruct Hst as [k s1 s2 h l b E|s1 h l bs h' Hp]; cbn in *.
  - by eapply get_block_inv.
  - apply win_return_inv. by eapply held_perm.
Qed.

(** ** Properties *)


End Allocator.


(** ** [Mmap::drop]

    [VirtualFree address size type] with the reservations that are held, and whether it
    succeeds; with [MEM_RELEASE] the size has to be 0. *)
Section Release.
Context (VirtualFree_release : Z → Z → list (Z * Z) → bool * list (Z * Z)).
Hypothesis release_law : ∀ address size held, size ≠ 0 → VirtualFree_release address size held = (false, held).

Definition drop (self : Mmap) (held : list (Z * Z)) : list (Z * Z) := (VirtualFree_release (start self) (size self) held).2.

(** The mapping of a heap is never released: its size is passed where 0 is required, and
    the failure is not looked at. *)
Lemma drop_releases_nothing mem size held : 0 < size → drop (Mmap_new mem size) held = held.
Proof. intros Hs. unfold drop, Mmap_new. cbn. by rewrite release_law by lia. Qed.

End Release.

(** The hypothesis can hold: a function that frees a reservation by its address. *)
Definition virtual_free (address size : Z) (held : list (Z * Z)) : bool * list (Z * Z) :=
  if decide (size ≠ 0) then (false, held) else (true, filter (λ r, r.1 ≠ address) held).

Lemma drop_releases_nothing_sample : drop virtual_free (Mmap_new 65536 32768) [(65536, 32768)] = [(65536, 32768)].
Proof. apply drop_releases_nothing; [|lia]. intros a n held Hn. unfold virtual_free. by rewrite decide_True. Qed.

End Win.
