(* ===== verification/Allocation.v ===== *)
(** * allocation.rs: the allocators of the immix space

    The trait [Allocator] is the class of the same name: its required methods are
    the fields, its provided methods ([allocate], [scan_for_hole],
    [allocate_from_block]) are definitions over any instance.  The three instances
    are [NormalAllocator], [OverflowAllocator] and [EvacAllocator].

    Both allocators that take blocks from the global [BlockAllocator] hold a
    pointer to it, so it is part of the [World] the methods thread through, with
    the memory and the per-thread current blocks ([TLSState]).  [Cfg] says whether
    the crate is built with the feature [threaded]; with it the current block of
    the normal and overflow allocators lives in the thread-local state.  The locks
    around the vectors are not part of this sequential model. *)

From stdpp Require Import base numbers list list_numbers gmap.
From Stdlib Require Import ZArith Lia.
From S2P Require Import Prelude Util Constants Block SpaceBitmap Object BlockAllocator.
Local Open Scope Z_scope.

(** A block, the current low and the current high offset. *)
Abbreviation BlockTuple := (Z * Z * Z)%type.

(** The fields of [TLSState] the allocators use. *)
Record TLSBlocks : Type := mkTLS {
  tls_current_block : option BlockTuple;
  tls_current_ovf_block : option BlockTuple
}.

Record World : Type := mkWorld {
  w_ba : BlockAllocator;
  w_store : Store;
  w_tls : TLSBlocks
}.

(** The build configuration: is the feature [threaded] on? *)
Class Cfg : Type := threaded : bool.

Class Allocator (A : Type) : Type := {
  get_all_blocks : A → list Z * A;
  take_current_block : A → World → option BlockTuple * A * World;
  put_current_block : A → World → BlockTuple → A * World;
  get_new_block : A → World → R (option BlockTuple * A * World);
  handle_no_hole : A → World → Z → R (option BlockTuple * A * World);
  handle_full_block : A → Z → A
}.

(** [scan_for_hole] calls [handle_full_block] of the implementation; [fuel] bounds
    the number of holes tried. *)
Fixpoint scan_for_hole_loop {A} (full : A → Z → A) (fuel : nat) (self : A) (s : Store) (size : Z)
    (block_tuple : BlockTuple) : R (option BlockTuple * A) :=
  match fuel with
  | O => NoFuel
  | S fuel' =>
      let '(block, low, high) := block_tuple in
      room ← u_sub high low;
      if decide (size <= room) then Ok (Some block_tuple, self)
      else
        r ← Block.scan_block (header s block) block high;
        match r with
        | None => Ok (None, full self block)
        | Some (low', high') => scan_for_hole_loop full fuel' self s size (block, low', high')
        end
  end.

(** A block has at most 128 holes; 258 rounds are enough. *)
Definition scan_for_hole {A} (full : A → Z → A) : A → Store → Z → BlockTuple → R (option BlockTuple * A) :=
  scan_for_hole_loop full 258.

Definition allocate_from_block (size : Z) (block_tuple : BlockTuple) : R (BlockTuple * Z) :=
  let '(block, low, high) := block_tuple in
  low' ← Rounding.align_usize low 16;
  let low'' := trunc 16 low' in
  let object := Block.offset block low'' in
  new_low ← u_add 16 low'' (trunc 16 size);
  Ok ((block, new_low, high), object).

Section Provided.
Context {A : Type} `{Allocator A}.

(** [allocate]: the chain of [and_then], [or_else] and [map]; null is 0. *)
Definition allocate (self : A) (w : World) (size : Z) : R (Z * A * World) :=
  let '(cur, self1, w1) := take_current_block self w in
  '(hole, self2) ← match cur with
                   | Some tp => scan_for_hole handle_full_block self1 (w_store w1) size tp
                   | None => Ok (None, self1)
                   end;
  '(hole', self3, w3) ← match hole with
                        | Some tp => Ok (Some tp, self2, w1)
                        | None => handle_no_hole self2 w1 size
                        end;
  '(hole'', self4, w4) ← match hole' with
                         | Some tp => Ok (Some tp, self3, w3)
                         | None => get_new_block self3 w3
                         end;
  match hole'' with
  | None => Ok (Address.null, self4, w4)
  | Some tp =>
      '(tp', object) ← allocate_from_block size tp;
      let '(self5, w5) := put_current_block self4 w4 tp' in
      Ok (object, self5, w5)
  end.

End Provided.

(** ** NormalAllocator *)

Record NormalAllocator : Type := mkNormal {
  n_unavailable_blocks : list Z;
  n_recyclable_blocks : list Z;
  n_current_block : option BlockTuple
}.

Module Normal.
Section Methods.
Context `{Cfg}.

Definition new : NormalAllocator := mkNormal [] [] None.
Definition set_recyclable_blocks (self : NormalAllocator) (blocks : list Z) : NormalAllocator :=
  mkNormal (n_unavailable_blocks self) blocks (n_current_block self).

Definition get_all_blocks (self : NormalAllocator) : list Z * NormalAllocator :=
  (n_unavailable_blocks self ++ n_recyclable_blocks self ++
     ((λ b : BlockTuple, b.1.1) <$> option_list (n_current_block self)),
   mkNormal [] [] None).

Definition take_current_block (self : NormalAllocator) (w : World)
    : option BlockTuple * NormalAllocator * World :=
  if threaded then
    (tls_current_block (w_tls w), self,
     mkWorld (w_ba w) (w_store w) (mkTLS None (tls_current_ovf_block (w_tls w))))
  else (n_current_block self, mkNormal (n_unavailable_blocks self) (n_recyclable_blocks self) None, w).

Definition put_current_block (self : NormalAllocator) (w : World) (tp : BlockTuple)
    : NormalAllocator * World :=
  if threaded then
    (self, mkWorld (w_ba w) (w_store w) (mkTLS (Some tp) (tls_current_ovf_block (w_tls w))))
  else (mkNormal (n_unavailable_blocks self) (n_recyclable_blocks self) (Some tp), w).

Definition handle_full_block (self : NormalAllocator) (block : Z) : NormalAllocator :=
  mkNormal (n_unavailable_blocks self ++ [block]) (n_recyclable_blocks self) (n_current_block self).

Fixpoint handle_no_hole_loop (fuel : nat) (self : NormalAllocator) (s : Store) (size : Z)
    : R (option BlockTuple * NormalAllocator) :=
  match fuel with
  | O => NoFuel
  | S fuel' =>
      if decide (LINE_SIZE <= size) then Ok (None, self)
      else match vec_pop (n_recyclable_blocks self) with
      | None => Ok (None, self)
      | Some (block, rest) =>
          let self1 := mkNormal (n_unavailable_blocks self) rest (n_current_block self) in
          r ← Block.scan_block (header s block) block (trunc 16 (Block.size_of_ImmixBlock - 1));
          match r with
          | None => handle_no_hole_loop fuel' (handle_full_block self1 block) s size
          | Some (low, high) =>
              if decide (Block.size_of_ImmixBlock <= low) then
                '(hole, self2) ← scan_for_hole handle_full_block self1 s size (block, low, high);
                match hole with
                | Some tp => Ok (Some tp, self2)
                | None => handle_no_hole_loop fuel' self2 s size
                end
              else Panic AssertFailed
          end
      end
  end.

(** Every recursive call has popped a recyclable block. *)
Definition handle_no_hole (self : NormalAllocator) (w : World) (size : Z)
    : R (option BlockTuple * NormalAllocator * World) :=
  '(r, self') ← handle_no_hole_loop (S (length (n_recyclable_blocks self))) self (w_store w) size;
  Ok (r, self', w).

End Methods.
End Normal.

(** [allocated = true] on the header of a block just obtained. *)
Definition set_allocated (blk : ImmixBlock) : ImmixBlock :=
  mkBlock (line_map blk) true (hole_count blk) (evacuation_candidate blk).

(** [get_new_block] of the two allocators that ask the block allocator. *)
Definition get_global_block (w : World) : R (option BlockTuple * World) :=
  '(r, ba, s) ← BA.get_block (w_ba w) (w_store w);
  match r with
  | None => Ok (None, mkWorld ba s (w_tls w))
  | Some block =>
      let s' := set_header s block (set_allocated (header s block)) in
      Ok (Some (block, trunc 16 LINE_SIZE, trunc 16 (BLOCK_SIZE - 1)), mkWorld ba s' (w_tls w))
  end.

#[export] Instance NormalAllocator_Allocator `{Cfg} : Allocator NormalAllocator := {|
  get_all_blocks := Normal.get_all_blocks;
  take_current_block := Normal.take_current_block;
  put_current_block := Normal.put_current_block;
  get_new_block self w := '(r, w') ← get_global_block w; Ok (r, self, w');
  handle_no_hole := Normal.handle_no_hole;
  handle_full_block := Normal.handle_full_block
|}.

(** ** OverflowAllocator *)

Record OverflowAllocator : Type := mkOverflow {
  o_unavailable_blocks : list Z;
  o_current_block : option BlockTuple
}.

Module Overflow.
Section Methods.
Context `{Cfg}.

Definition new : OverflowAllocator := mkOverflow [] None.

Definition get_all_blocks (self : OverflowAllocator) : list Z * OverflowAllocator :=
  (o_unavailable_blocks self ++ ((λ b : BlockTuple, b.1.1) <$> option_list (o_current_block self)),
   mkOverflow [] None).

Definition take_current_block (self : OverflowAllocator) (w : World)
    : option BlockTuple * OverflowAllocator * World :=
  if threaded then
    (tls_current_ovf_block (w_tls w), self,
     mkWorld (w_ba w) (w_store w) (mkTLS (tls_current_block (w_tls w)) None))
  else (o_current_block self, mkOverflow (o_unavailable_blocks self) None, w).

Definition put_current_block (self : OverflowAllocator) (w : World) (tp : BlockTuple)
    : OverflowAllocator * World :=
  if threaded then
    (self, mkWorld (w_ba w) (w_store w) (mkTLS (tls_current_block (w_tls w)) (Some tp)))
  else (mkOverflow (o_unavailable_blocks self) (Some tp), w).

Definition handle_full_block (self : OverflowAllocator) (block : Z) : OverflowAllocator :=
  mkOverflow (o_unavailable_blocks self ++ [block]) (o_current_block self).

End Methods.
End Overflow.

#[export] Instance OverflowAllocator_Allocator `{Cfg} : Allocator OverflowAllocator := {|
  get_all_blocks := Overflow.get_all_blocks;
  take_current_block := Overflow.take_current_block;
  put_current_block := Overflow.put_current_block;
  get_new_block self w := '(r, w') ← get_global_block w; Ok (r, self, w');
  handle_no_hole self w size := Ok (None, self, w);
  handle_full_block := Overflow.handle_full_block
|}.

(** ** EvacAllocator *)

Record EvacAllocator : Type := mkEvac {
  e_unavailable_blocks : list Z;
  e_evac_headroom : list Z;
  e_current_block : option BlockTuple
}.

Module Evac.

Definition new : EvacAllocator := mkEvac [] [] None.

Definition extend_evac_headroom (self : EvacAllocator) (blocks : list Z) : EvacAllocator :=
  mkEvac (e_unavailable_blocks self) (e_evac_headroom self ++ blocks) (e_current_block self).

Definition evac_headroom (self : EvacAllocator) : Z := Z.of_nat (length (e_evac_headroom self)).

Definition get_all_blocks (self : EvacAllocator) : list Z * EvacAllocator :=
  (e_unavailable_blocks self ++ ((λ b : BlockTuple, b.1.1) <$> option_list (e_current_block self)),
   mkEvac [] (e_evac_headroom self) None).

Definition take_current_block (self : EvacAllocator) (w : World)
    : option BlockTuple * EvacAllocator * World :=
  (e_current_block self, mkEvac (e_unavailable_blocks self) (e_evac_headroom self) None, w).

Definition put_current_block (self : EvacAllocator) (w : World) (tp : BlockTuple)
    : EvacAllocator * World :=
  (mkEvac (e_unavailable_blocks self) (e_evac_headroom self) (Some tp), w).

Definition get_new_block (self : EvacAllocator) (w : World)
    : R (option BlockTuple * EvacAllocator * World) :=
  match vec_pop (e_evac_headroom self) with
  | None => Ok (None, self, w)
  | Some (b, rest) =>
      let s := w_store w in
      let s' := set_header s b (set_allocated (header s b)) in
      Ok (Some (b, trunc 16 LINE_SIZE, trunc 16 (BLOCK_SIZE - 1)),
          mkEvac (e_unavailable_blocks self) rest (e_current_block self),
          mkWorld (w_ba w) s' (w_tls w))
  end.

Definition handle_full_block (self : EvacAllocator) (block : Z) : EvacAllocator :=
  mkEvac (e_unavailable_blocks self ++ [block]) (e_evac_headroom self) (e_current_block self).

End Evac.

#[export] Instance EvacAllocator_Allocator : Allocator EvacAllocator := {|
  get_all_blocks := Evac.get_all_blocks;
  take_current_block := Evac.take_current_block;
  put_current_block := Evac.put_current_block;
  get_new_block := Evac.get_new_block;
  handle_no_hole self w size := Ok (None, self, w);
  handle_full_block := Evac.handle_full_block
|}.
