(* ===== verification/AllocatorLaws.v ===== *)
(** * What an allocator of the immix space promises

    Each allocator is seen through its [View]: the block it allocates from, the
    blocks it may still use and the blocks it has given up on.  [AllocatorLaws]
    states how every method of the trait acts on the view; the three allocators are
    instances, and the theorems on [allocate] are proved from the laws alone, once
    for all of them. *)

From stdpp Require Import base numbers list list_numbers gmap.
From Stdlib Require Import ZArith Lia.
From S2P Require Import Prelude Util Constants Block Object BlockAllocator Allocation.
Local Open Scope Z_scope.

Record View : Type := mkView {
  v_cur : option BlockTuple;
  v_pool : list Z;
  v_full : list Z
}.

Definition cur_block (v : View) : list Z := (λ b : BlockTuple, b.1.1) <$> option_list (v_cur v).
(** All blocks an allocator holds. *)
Definition v_blocks (v : View) : list Z := cur_block v ++ v_pool v ++ v_full v.

(** ** Well-formedness *)

Definition marked_line (w : World) (b l : Z) : bool := line_bit (header (w_store w) b) l.

(** A tuple to allocate from: the hole lies behind the header, its low end is
    aligned, and all its lines and the line before it are unmarked. *)
Definition tuple_ok (w : World) (tp : BlockTuple) : Prop :=
  let '(b, low, high) := tp in
  128 <= low <= high ∧ high <= 32767 ∧ low mod 16 = 0 ∧
  ∀ l, low / 128 - 1 <= l <= high / 128 → marked_line w b l = false.

Record world_ok (w : World) : Prop := {
  wo_ba : BA.inv (w_ba w);
  wo_wf : ∀ b, block_wf (header (w_store w) b);
  wo_fresh : ∀ b, BA.available (w_ba w) b → header (w_store w) b = Block.zeroed
}.

(** [clean] says that the blocks of the pool carry no marks. *)
Record view_ok (clean : bool) (w : World) (v : View) : Prop := {
  vo_cur : ∀ tp, v_cur v = Some tp → tuple_ok w tp;
  vo_nodup : NoDup (v_blocks v);
  vo_range : ∀ b, b ∈ v_blocks v → BA.in_range (w_ba w) b ∧ ¬ BA.available (w_ba w) b;
  vo_clean : clean = true → ∀ b, b ∈ v_pool v → ∀ l, marked_line w b l = false
}.

(** What an allocation may do to the rest of the heap: hand out blocks, write block
    headers but not their line marks, and write no object. *)
Record world_le (w w' : World) : Prop := {
  le_mmap : mmap (w_ba w') = mmap (w_ba w) ∧ data_bound (w_ba w') = data_bound (w_ba w);
  le_avail : ∀ b, BA.available (w_ba w') b → BA.available (w_ba w) b;
  le_lines : ∀ b l, marked_line w' b l = marked_line w b l;
  le_words : words (w_store w') = words (w_store w)
}.

(** An address an allocator may still hand out of a block from offset [low] on: it is
    before the last byte of the block, which a hole never includes, its line is unmarked, and so is the line before, from which an object that is marked
    could reach into it. *)
Definition in_span (w : World) (b low x : Z) : Prop :=
  b + low <= x < b + 32767 ∧ ∀ l, (x - b) / 128 - 1 <= l <= (x - b) / 128 → marked_line w b l = false.

Definition free_in_view (w : World) (v : View) (x : Z) : Prop :=
  (∃ b low high, v_cur v = Some (b, low, high) ∧ in_span w b low x) ∨
  (∃ b, b ∈ v_pool v ∧ in_span w b 128 x).

(** The addresses an allocator may still hand out: those of its view and those of
    the blocks the block allocator has left. *)
Definition free_at (w : World) (v : View) (x : Z) : Prop :=
  free_in_view w v x ∨ ∃ b, BA.available (w_ba w) b ∧ in_span w b 128 x.

(** ** The interface *)

Class AllocatorLaws (A : Type) `{Allocator A} : Type := {
  view : A → World → View;
  (** blocks come from the pool, not from the block allocator *)
  from_headroom : bool;
  (** the part of the thread-local state the allocator does not touch *)
  foreign : TLSBlocks → list (option BlockTuple);

  take_law : ∀ a w, let '(c, a', w') := take_current_block a w in
    c = v_cur (view a w) ∧ view a' w' = mkView None (v_pool (view a w)) (v_full (view a w)) ∧
    w_ba w' = w_ba w ∧ w_store w' = w_store w ∧ foreign (w_tls w') = foreign (w_tls w);

  put_law : ∀ a w tp, let '(a', w') := put_current_block a w tp in
    view a' w' = mkView (Some tp) (v_pool (view a w)) (v_full (view a w)) ∧
    w_ba w' = w_ba w ∧ w_store w' = w_store w ∧ foreign (w_tls w') = foreign (w_tls w);

  full_law : ∀ a w b,
    view (handle_full_block a b) w = mkView (v_cur (view a w)) (v_pool (view a w)) (v_full (view a w) ++ [b]);

  no_hole_law : ∀ a w size, world_ok w → 0 <= size → v_cur (view a w) = None →
    ∃ r a', handle_no_hole a w size = Ok (r, a', w) ∧ v_cur (view a' w) = None ∧
      (∀ b, b ∈ v_pool (view a' w) → b ∈ v_pool (view a w)) ∧
      match r with
      | None => v_blocks (view a' w) ≡ₚ v_blocks (view a w)
      | Some (b, low, high) =>
          b :: v_blocks (view a' w) ≡ₚ v_blocks (view a w) ∧ b ∈ v_pool (view a w) ∧
          tuple_ok w (b, low, high) ∧ size <= high - low
      end;

  new_law : ∀ a w, world_ok w → v_cur (view a w) = None → view_ok from_headroom w (view a w) →
    ∃ r a' w', get_new_block a w = Ok (r, a', w') ∧ v_cur (view a' w') = None ∧
      world_ok w' ∧ world_le w w' ∧ foreign (w_tls w') = foreign (w_tls w) ∧
      (∀ b, b ∈ v_pool (view a' w') → b ∈ v_pool (view a w)) ∧
      match r with
      | None => w' = w ∧ view a' w' = view a w ∧
          if from_headroom then v_pool (view a w) = [] else ∀ b, ¬ BA.available (w_ba w) b
      | Some (b, low, high) =>
          low = 128 ∧ high = 32767 ∧ (∀ l, marked_line w b l = false) ∧
          if from_headroom then
            w_ba w' = w_ba w ∧ b ∈ v_pool (view a w) ∧ b :: v_blocks (view a' w') ≡ₚ v_blocks (view a w)
          else view a' w' = view a w ∧ BA.in_range (w_ba w) b ∧ ¬ BA.available (w_ba w') b ∧
               ∀ c, BA.available (w_ba w) c ↔ c = b ∨ BA.available (w_ba w') c
      end
}.

(** ** Scanning for a hole *)

Lemma scan_tuple_ok w b off lo hi : block_wf (header (w_store w) b) → 0 <= off →
  Block.scan_block (header (w_store w) b) b off = Ok (Some (lo, hi)) →
  tuple_ok w (b, lo, hi) ∧ 256 <= lo ∧ off / 128 * 128 + 256 <= lo.
Proof.
  intros Hw Ho. rewrite Block.scan_block_spec by done.
  destruct (Block.next_hole _ _) as [[l h]|] eqn:E; [|done]. cbn. intros [= <- <-].
  assert (0 <= off / 128) by (apply Z.div_pos; lia).
  destruct (Block.next_hole_bounds _ _ _ _ ltac:(done) E) as (B1 & B2 & B3).
  destruct (Block.next_hole_spec _ _ _ _ E) as (_ & _ & Hun & _).
  unfold tuple_ok, marked_line. split_and!; try lia.
  - Z.div_mod_to_equations. lia.
  - intros k Hk. apply Hun. Z.div_mod_to_equations. lia.
Qed.

(** [scan_for_hole] returns, and either finds a hole of the same block that is large
    enough, not before the one it started from, or reports the block as full. *)
Lemma scan_for_hole_spec {A} (full : A → Z → A) a w size tp :
  world_ok w → 0 <= size → tuple_ok w tp →
  ∃ r a', scan_for_hole full a (w_store w) size tp = Ok (r, a') ∧
    match r with
    | Some (b, low, high) => a' = a ∧ b = tp.1.1 ∧ tp.1.2 <= low ∧ tuple_ok w (b, low, high) ∧ size <= high - low
    | None => a' = full a tp.1.1
    end.
Proof.
  intros Hw Hs. unfold scan_for_hole.
  assert (Hg : ∀ n b low high, tuple_ok w (b, low, high) → 256 - high / 128 < Z.of_nat n →
    ∃ r a', scan_for_hole_loop full n a (w_store w) size (b, low, high) = Ok (r, a') ∧
    match r with
    | Some (b', low', high') => a' = a ∧ b' = b ∧ low <= low' ∧ tuple_ok w (b', low', high') ∧ size <= high' - low'
    | None => a' = full a b
    end).
  - induction n as [|n IH]; intros b low high Ht Hn.
    { destruct Ht as (? & ? & _). exfalso. Z.div_mod_to_equations. lia. }
    cbn [scan_for_hole_loop]. destruct Ht as (H1 & H2 & H3 & H4). rewrite u_sub_ok, bind_Ok by lia.
    destruct (decide (size <= high - low)) as [C|C].
    { do 2 eexists. split; [done|]. by split_and!. }
    destruct (Block.scan_block (header (w_store w) b) b high) as [[[lo hi]|]| |] eqn:E.
    + destruct (scan_tuple_ok w b high lo hi (wo_wf w Hw b) ltac:(lia) E) as (Ht' & _ & Hlo).
      assert (Hh' : lo <= hi) by (destruct Ht'; lia). rewrite bind_Ok.
      destruct (IH b lo hi Ht') as (r & a' & -> & Hr); [Z.div_mod_to_equations; lia|].
      do 2 eexists. split; [done|]. destruct r as [[[b' low'] high']|]; [|done].
      destruct Hr as (-> & -> & Hl & Hr). split_and!; try done; try apply Hr. Z.div_mod_to_equations. lia.
    + do 2 eexists. by split.
    + rewrite Block.scan_block_spec in E by (try apply Hw; lia). done.
    + rewrite Block.scan_block_spec in E by (try apply Hw; lia). done.
  - destruct tp as [[b low] high]. intros Ht. apply Hg; [done|]. destruct Ht as (? & ? & _).
    Z.div_mod_to_equations. lia.
Qed.

Lemma allocate_from_block_ok w size b low high : tuple_ok w (b, low, high) → 0 <= size <= high - low →
  allocate_from_block size (b, low, high) = Ok ((b, low + size, high), b + low).
Proof.
  intros (H1 & H2 & H3 & _) Hs. unfold allocate_from_block.
  rewrite Rounding.align_usize_aligned by lia. rewrite bind_Ok, !trunc_small by (unfold in_width; lia).
  by rewrite u_add_ok, bind_Ok by lia.
Qed.

(** ** World order *)

Lemma world_le_refl w : world_le w w.
Proof. by constructor. Qed.

Lemma world_le_trans w1 w2 w3 : world_le w1 w2 → world_le w2 w3 → world_le w1 w3.
Proof.
  intros [[A1 A2] B1 C1 D1] [[A3 A4] B2 C2 D2]. constructor; [split; congruence|auto| |congruence].
  intros. by rewrite C2, C1.
Qed.

#[export] Instance world_le_preorder : PreOrder world_le.
Proof. split; [exact world_le_refl|exact world_le_trans]. Qed.

Lemma tuple_ok_lines w w' tp : (∀ b l, marked_line w' b l = marked_line w b l) →
  tuple_ok w tp → tuple_ok w' tp.
Proof.
  destruct tp as [[b low] high]. intros E (? & ? & ? & Hl). unfold tuple_ok. split_and!; try lia.
  intros. rewrite E. auto.
Qed.

Lemma in_range_le w w' b : world_le w w' → BA.in_range (w_ba w) b → BA.in_range (w_ba w') b.
Proof. intros [[E1 E2] _ _ _]. unfold BA.in_range. by rewrite E1, E2. Qed.

(** The invariant of an allocator survives what another allocator does. *)
Lemma view_ok_frame clean w w' v : world_le w w' → view_ok clean w v → view_ok clean w' v.
Proof.
  intros Hle [Hc Hn Hr Hcl]. pose proof Hle as [_ Ha Hl _]. constructor; try done.
  - intros tp Htp. eapply tuple_ok_lines; [exact Hl|]. auto.
  - intros b Hb. destruct (Hr b Hb). split; [by eapply in_range_le|]. auto.
  - intros Ht b Hb l. rewrite Hl. auto.
Qed.

Lemma in_span_le w w' b low x : world_le w w' → in_span w' b low x ↔ in_span w b low x.
Proof. intros [_ _ Hl _]. unfold in_span. by setoid_rewrite Hl. Qed.

Lemma in_span_mono w b low low' x : low <= low' → in_span w b low' x → in_span w b low x.
Proof. unfold in_span. intros ? [? ?]. split; [lia|done]. Qed.

(** Blocks do not overlap: an address in the span of two aligned blocks is in one. *)
Lemma span_block w w' b c low low' x : 0 <= low → 0 <= low' → b mod 32768 = 0 → c mod 32768 = 0 →
  in_span w b low x → in_span w' c low' x → b = c.
Proof.
  intros ? ? Hb Hc [H1 _] [H2 _]. destruct (Z.eq_dec b c) as [|Hne]; [done|].
  destruct (BA.aligned_ne_disjoint b c Hb Hc Hne); lia.
Qed.

(** ** What the steps of [allocate] do to the view *)

Definition with_cur (r : option BlockTuple) (v : View) : View := mkView r (v_pool v) (v_full v).

(** [progress]: from world [w] with view [v] to [w'] with [v'], nothing is lost and
    nothing new becomes free. *)
Record progress (fh : bool) (w : World) (v : View) (w' : World) (v' : View) : Prop := {
  pg_world : world_ok w';
  pg_le : world_le w w';
  pg_view : view_ok fh w' v';
  pg_free : ∀ x, free_at w' v' x → free_at w v x;
  pg_blocks : ∀ b, b ∈ v_blocks v' ∨ BA.available (w_ba w') b ↔ b ∈ v_blocks v ∨ BA.available (w_ba w) b
}.

Lemma progress_refl fh w v : world_ok w → view_ok fh w v → progress fh w v w v.
Proof. by constructor. Qed.

Lemma progress_trans fh w1 v1 w2 v2 w3 v3 :
  progress fh w1 v1 w2 v2 → progress fh w2 v2 w3 v3 → progress fh w1 v1 w3 v3.
Proof.
  intros [A1 B1 C1 D1 E1] [A2 B2 C2 D2 E2].
  constructor; try done; [by etrans|auto|]. intros b. by rewrite E2, E1.
Qed.

(** In the same world, the blocks are permuted and only spans that were free stay. *)
Lemma progress_local fh w v v' : world_ok w → view_ok fh w v →
  v_blocks v' ≡ₚ v_blocks v → (∀ tp, v_cur v' = Some tp → tuple_ok w tp) →
  (∀ b, b ∈ v_pool v' → b ∈ v_pool v) →
  (∀ b low high, v_cur v' = Some (b, low, high) →
     b ∈ v_pool v ∨ ∃ low0 high0, v_cur v = Some (b, low0, high0) ∧ low0 <= low) →
  progress fh w v w v'.
Proof.
  intros Hw [Hc Hn Hr Hcl] Hp Ht Hpool Hcur. constructor; [done..| | |].
  - constructor; [done|by rewrite Hp| |auto]. intros b. rewrite Hp. auto.
  - intros x [[(b & low & high & E & Hs)|(b & Hb & Hs)]|Hav]; [| |by right]; left.
    + destruct (Hcur b low high E) as [Hb|(low0 & high0 & E0 & Hle)].
      * right. exists b. split; [done|]. eapply in_span_mono; [|exact Hs]. specialize (Ht _ E). destruct Ht. lia.
      * left. exists b, low0, high0. split; [done|]. by eapply in_span_mono.
    + right. exists b. auto.
  - intros b. by rewrite Hp.
Qed.

Section Generic.
Context {A : Type} `{AllocatorLaws A}.

Abbreviation vw := (view (A := A)).
Abbreviation fh := (from_headroom (A := A)).

Lemma blocks_with_cur r v : v_cur v = None →
  v_blocks (with_cur r v) = ((λ b : BlockTuple, b.1.1) <$> option_list r) ++ v_blocks v.
Proof. intros E. unfold v_blocks, cur_block, with_cur. cbn. by rewrite E. Qed.

(** [handle_no_hole] as a step. *)
Lemma no_hole_progress a w size : world_ok w → 0 <= size → view_ok fh w (vw a w) → v_cur (vw a w) = None →
  ∃ r a', handle_no_hole a w size = Ok (r, a', w) ∧ v_cur (vw a' w) = None ∧
    progress fh w (vw a w) w (with_cur r (vw a' w)) ∧
    ∀ b low high, r = Some (b, low, high) → size <= high - low.
Proof.
  intros Hw Hs Hv Hc. destruct (no_hole_law a w size Hw Hs Hc) as (r & a' & E & Hc' & Hp & Hr).
  exists r, a'. split_and!; try done.
  - apply progress_local; try done.
    + rewrite blocks_with_cur by done. by destruct r as [[[b low] high]|]; [destruct Hr as (Hr & _)|].
    + intros tp E'. cbn in E'. subst r. by destruct tp as [[b low] high], Hr as (_ & _ & ? & _).
    + intros b low high E'. cbn in E'. subst r. left. by apply Hr.
  - intros b low high ->. by apply Hr.
Qed.

(** There is no current block and nowhere to take a new one from. *)
Definition exhausted (w : World) (v : View) : Prop :=
  v_cur v = None ∧ if fh then v_pool v = [] else ∀ b, ¬ BA.available (w_ba w) b.

(** [get_new_block] as a step. *)
Lemma new_progress a w : world_ok w → view_ok fh w (vw a w) → v_cur (vw a w) = None →
  ∃ r a' w', get_new_block a w = Ok (r, a', w') ∧ v_cur (vw a' w') = None ∧
    foreign (w_tls w') = foreign (w_tls w) ∧
    progress fh w (vw a w) w' (with_cur r (vw a' w')) ∧
    match r with
    | Some (b, low, high) => high - low = 32639
    | None => exhausted w' (vw a' w')
    end.
Proof.
  intros Hw Hv Hc. pose proof Hv as [_ Hn Hr Hcl].
  destruct (new_law a w Hw Hc Hv) as (r & a' & w' & E & Hc' & Hw' & Hle & Hf & Hp & Hr').
  exists r, a', w'. split_and!; try done. 2: { destruct r as [[[b low] high]|]; [lia|]. destruct Hr' as (-> & -> & ?). by split. }
  destruct r as [[[b low] high]|].
  - destruct Hr' as (-> & -> & Hl & Hk).
    assert (Ht : tuple_ok w (b, 128, 32767)) by (split_and!; done || lia).
    destruct fh eqn:Hfh.
    + destruct Hk as (Eb & Hb & Hperm).
      apply (progress_trans _ _ _ w' (vw a w)).
      * constructor; [done..| | |]; [by eapply view_ok_frame| |by rewrite Eb].
        intros x [[(b' & low' & high' & E' & Hs)|(b' & Hb' & Hs)]|(b' & Hb' & Hs)];
          rewrite in_span_le in Hs by done; [left; left|left; right|right]; eauto 10. by rewrite Eb in Hb'; eauto.
      * apply progress_local; try done.
        -- by eapply view_ok_frame.
        -- by rewrite blocks_with_cur.
        -- intros tp [= <-]. eapply tuple_ok_lines; [|exact Ht]. apply Hle.
        -- intros b' low' high' [= <- <- <-]. by left.
    + destruct Hk as (Ev & Hin & Hna & Hav).
      assert (Hbl : v_blocks (with_cur (Some (b, 128, 32767)) (vw a' w')) = b :: v_blocks (vw a w)).
      { by rewrite blocks_with_cur, Ev. }
      assert (Hnb : b ∉ v_blocks (vw a w)).
      { intros Hb. destruct (Hr b Hb) as [_ []]. apply Hav. by left. }
      constructor; [done..| | |].
      * constructor.
        -- intros tp [= <-]. eapply tuple_ok_lines; [|exact Ht]. apply Hle.
        -- rewrite Hbl. by constructor.
        -- intros c. rewrite Hbl, elem_of_cons. intros [->|Hcb]; [split; [by eapply in_range_le|done]|].
           destruct (Hr c Hcb) as [? Hn2]. split; [by eapply in_range_le|]. intros Hc2. apply Hn2, Hav. by right.
        -- done.
      * intros x [[(b' & low' & high' & E' & Hs)|(b' & Hb' & Hs)]|(b' & Hb' & Hs)];
          rewrite in_span_le in Hs by done.
        -- injection E' as <- <- <-. right. exists b. split; [|done]. apply Hav. by left.
        -- left. right. exists b'. cbn in Hb'. by rewrite Ev in Hb'.
        -- right. exists b'. split; [|done]. apply Hav. by right.
      * intros c. rewrite Hbl, elem_of_cons, Hav. tauto.
  - destruct Hr' as (-> & Ev & _).
    assert (with_cur None (vw a' w) = vw a w) as -> by (rewrite Ev; destruct (vw a w); cbn in *; by subst).
    by apply progress_refl.
Qed.

(** Only the thread-local state differs. *)
Lemma progress_tls clean w w' v : w_ba w' = w_ba w → w_store w' = w_store w →
  world_ok w → view_ok clean w v → progress clean w v w' v.
Proof.
  destruct w as [ba s t], w' as [ba' s' t']. cbn. intros -> -> [] [].
  constructor; try done; constructor; try done.
Qed.

(** The first two steps: the current block, scanned for a hole. *)
Lemma scan_progress a w size tp : world_ok w → 0 <= size → view_ok fh w (with_cur (Some tp) (vw a w)) →
  v_cur (vw a w) = None →
  ∃ r a', scan_for_hole handle_full_block a (w_store w) size tp = Ok (r, a') ∧ v_cur (vw a' w) = None ∧
    progress fh w (with_cur (Some tp) (vw a w)) w (with_cur r (vw a' w)) ∧
    ∀ b low high, r = Some (b, low, high) → size <= high - low.
Proof.
  intros Hw Hs Hv Hc. pose proof Hv as [Ht _ _ _]. specialize (Ht tp eq_refl).
  destruct (scan_for_hole_spec handle_full_block a w size tp Hw Hs Ht) as (r & a' & E & Hr).
  exists r, a'. split_and!; try done; destruct r as [[[b low] high]|]; try done.
  - by destruct Hr as (-> & _).
  - subst a'. by rewrite full_law.
  - destruct Hr as (-> & -> & Hl & Ht' & _). apply progress_local; try done.
    + by intros ? [= <-].
    + intros b' low' high' [= <- <- <-]. right. destruct tp as [[b low0] high0]. eauto.
  - subst a'. apply progress_local; try done; [|by rewrite full_law].
    rewrite !blocks_with_cur by (by rewrite ?full_law). rewrite full_law. unfold v_blocks, cur_block. cbn.
    rewrite Hc. cbn. rewrite app_assoc. symmetry. apply Permutation_cons_append.
  - intros b' low' high' [= <- <- <-]. by apply Hr.
Qed.

(** Moving the low end of the current hole over a region of [size] bytes. *)
Lemma bump_progress w v b low high size : world_ok w → view_ok fh w v → v_cur v = Some (b, low, high) →
  0 < size <= high - low → size mod 16 = 0 →
  progress fh w v w (with_cur (Some (b, low + size, high)) v) ∧
  0 < b + low ∧ (b + low) mod 16 = 0 ∧
  ∀ x, b + low <= x < b + low + size →
    free_at w v x ∧ ¬ free_at w (with_cur (Some (b, low + size, high)) v) x.
Proof.
  intros Hw Hv Hc Hs Hm. pose proof Hv as [Ht Hn Hr _]. pose proof (Ht _ Hc) as (H1 & H2 & H3 & H4).
  set (v' := with_cur (Some (b, low + size, high)) v).
  assert (Hbl : v_blocks v' = b :: v_pool v ++ v_full v) by done.
  assert (Hbl0 : v_blocks v = b :: v_pool v ++ v_full v) by (unfold v_blocks, cur_block; by rewrite Hc).
  destruct (Hr b) as ((Hal & Hlo & Hhi) & Hna); [rewrite Hbl0; left|]. consts.
  assert (Hpos : 0 <= b).
  { destruct Hw as [[Hst _ _ _ _] _ _]. pose proof (BA.aligned_spec (mmap (w_ba w))). lia. }
  split_and!; [|lia|rewrite Z.add_mod, H3 by lia; Z.div_mod_to_equations; lia|].
  - apply progress_local; try done.
    + by rewrite Hbl, Hbl0.
    + intros tp [= <-]. unfold tuple_ok. split_and!; try lia; [rewrite Z.add_mod, H3, Hm; done|].
      intros l Hl. apply H4. Z.div_mod_to_equations. lia.
    + intros b' low' high' [= <- <- <-]. right. exists low, high. split; [done|lia].
  - intros x Hx.
    assert (Hsp : in_span w b low x). { split; [lia|]. intros l Hl. apply H4. Z.div_mod_to_equations. lia. }
    split; [left; left; by exists b, low, high|].
    rewrite Hbl0 in Hn. apply NoDup_cons in Hn as [Hnb _].
    intros [[(c & low' & high' & [= <- <- <-] & [Hs' _])|(c & Hcb & Hs')]|(c & Hcb & Hs')]; [lia| |].
    + destruct (Hr c) as ((Hcal & _) & _); [rewrite Hbl0; right; apply elem_of_app; by left|]. consts.
      assert (b = c) as -> by (eapply (span_block w w b c low 128); try done; lia).
      apply Hnb, elem_of_app. by left.
    + assert (Hcal : c mod 32768 = 0).
      { destruct Hw as [[_ _ _ _ Hfr] _ _]. destruct Hcb as [Hcb|[Hcb _]]; [|done]. by apply Hfr in Hcb as [? _]. }
      assert (b = c) as -> by (eapply (span_block w w b c low 128); try done; lia). done.
Qed.

(** The state between two steps of the chain in [allocate]: [hole] is what the steps
    so far have found. *)
Record stage (a0 : A) (w0 : World) (size : Z) (hole : option BlockTuple) (a : A) (w : World) : Prop := {
  st_cur : v_cur (vw a w) = None;
  st_foreign : foreign (w_tls w) = foreign (w_tls w0);
  st_progress : progress fh w0 (vw a0 w0) w (with_cur hole (vw a w));
  st_size : ∀ b low high, hole = Some (b, low, high) → size <= high - low
}.

Lemma with_cur_None v : v_cur v = None → with_cur None v = v.
Proof. destruct v. cbn. by intros ->. Qed.

Lemma stage_scan a w size : world_ok w → view_ok fh w (vw a w) → 0 <= size →
  let '(cur, a1, w1) := take_current_block a w in
  ∃ hole a2, match cur with
             | Some tp => scan_for_hole handle_full_block a1 (w_store w1) size tp
             | None => Ok (None, a1) end = Ok (hole, a2) ∧ stage a w size hole a2 w1.
Proof.
  intros Hw Hv Hs. pose proof (take_law a w) as Htk.
  destruct (take_current_block a w) as [[cur a1] w1]. destruct Htk as (Ec & Ev1 & Eb1 & Es1 & Ef1).
  assert (P1 : progress fh w (vw a w) w1 (with_cur cur (vw a1 w1))).
  { rewrite Ev1, Ec. destruct (vw a w) eqn:E0. by apply progress_tls. }
  assert (Hc1 : v_cur (vw a1 w1) = None) by (by rewrite Ev1).
  destruct cur as [tp|]; [|by exists None, a1].
  destruct (scan_progress a1 w1 size tp) as (r & a2 & ? & ? & P2 & ?); [apply P1|lia|apply P1|done|].
  exists r, a2. split; [done|]. constructor; try done. by eapply progress_trans.
Qed.

Lemma stage_no_hole a w size hole a2 w1 : 0 <= size → stage a w size hole a2 w1 →
  ∃ hole' a3, match hole with
              | Some tp => Ok (Some tp, a2, w1)
              | None => handle_no_hole a2 w1 size end = Ok (hole', a3, w1) ∧ stage a w size hole' a3 w1.
Proof.
  intros Hs S. pose proof S as [Hc Hf P _]. destruct hole as [tp|]; [by exists (Some tp), a2|].
  rewrite with_cur_None in P by done.
  destruct (no_hole_progress a2 w1 size) as (r & a3 & ? & ? & P3 & ?); [apply P|lia|apply P|done|].
  exists r, a3. split; [done|]. constructor; try done. by eapply progress_trans.
Qed.

Lemma stage_new a w size hole a3 w3 : size <= 32639 → stage a w size hole a3 w3 →
  ∃ hole' a4 w4, match hole with
                 | Some tp => Ok (Some tp, a3, w3)
                 | None => get_new_block a3 w3 end = Ok (hole', a4, w4) ∧ stage a w size hole' a4 w4 ∧
                 (hole' = None → exhausted w4 (vw a4 w4)).
Proof.
  intros Hs S. pose proof S as [Hc Hf P _]. destruct hole as [tp|]; [by exists (Some tp), a3, w3|].
  rewrite with_cur_None in P by done.
  destruct (new_progress a3 w3) as (r & a4 & w4 & ? & ? & ? & P4 & Hr); [apply P|apply P|done|].
  exists r, a4, w4. split; [done|]. split; [|by intros ->].
  constructor; try done; [congruence|by eapply progress_trans|]. intros b low high ->. lia.
Qed.

(** [allocate], from the laws of the allocator alone. *)
Lemma allocate_spec a w size : world_ok w → view_ok fh w (vw a w) → 0 < size <= 32639 → size mod 16 = 0 →
  ∃ r a' w', allocate a w size = Ok (r, a', w') ∧ progress fh w (vw a w) w' (vw a' w') ∧
    foreign (w_tls w') = foreign (w_tls w) ∧
    (r = 0 ∧ exhausted w' (vw a' w') ∨
     0 < r ∧ r mod 16 = 0 ∧ ∀ x, r <= x < r + size → free_at w (vw a w) x ∧ ¬ free_at w' (vw a' w') x).
Proof.
  intros Hw Hv Hs Hm. unfold allocate. pose proof (stage_scan a w size Hw Hv ltac:(lia)) as S2.
  destruct (take_current_block a w) as [[cur a1] w1]. destruct S2 as (hole & a2 & -> & S2). rewrite bind_Ok.
  destruct (stage_no_hole a w size hole a2 w1 ltac:(lia) S2) as (hole' & a3 & -> & S3). rewrite bind_Ok.
  destruct (stage_new a w size hole' a3 w1 ltac:(lia) S3) as (hole'' & a4 & w4 & -> & S4 & Hex). rewrite bind_Ok.
  destruct S4 as [Hc Hf P Hsz]. destruct hole'' as [[[b low] high]|].
  - pose proof (Hsz b low high eq_refl) as Hsize. pose proof P as [Hw4 _ Hv4 _ _].
    pose proof (vo_cur _ _ _ Hv4 _ eq_refl) as Ht.
    rewrite (allocate_from_block_ok w4) by (done || lia). rewrite bind_Ok.
    pose proof (put_law a4 w4 (b, low + size, high)) as Hput.
    destruct (put_current_block a4 w4 (b, low + size, high)) as [a5 w5]. destruct Hput as (Ev5 & Eb5 & Es5 & Ef5).
    destruct (bump_progress w4 _ b low high size Hw4 Hv4 eq_refl ltac:(lia) Hm) as (P5 & Hpos & Hal & Hx).
    pose proof P5 as [_ _ Hv5 _ _]. pose proof (progress_tls _ w4 w5 _ Eb5 Es5 Hw4 Hv5) as P6.
    exists (b + low), a5, w5. split; [done|].
    assert (Ev5' : vw a5 w5 = with_cur (Some (b, low + size, high)) (with_cur (Some (b, low, high)) (vw a4 w4))) by done.
    rewrite Ev5'. split; [|split; [congruence|right; split_and!; try done]].
    + eapply progress_trans; [exact P|]. eapply progress_trans; [exact P5|exact P6].
    + intros x Hin. destruct (Hx x Hin) as [F1 F2]. split; [by apply P|]. intros F3. by apply F2, P6.
  - rewrite with_cur_None in P by done. exists 0, a4, w4. split_and!; try done. left. auto.
Qed.

End Generic.
