(* ===== verification/Allocators.v ===== *)
(** * The three allocators keep the laws

    [NormalAllocator], [OverflowAllocator] and [EvacAllocator] as instances of
    [AllocatorLaws]. *)

From stdpp Require Import base numbers list list_numbers gmap.
From Stdlib Require Import ZArith Lia.
From S2P Require Import Prelude Util Constants Block Object BlockAllocator Allocation AllocatorLaws.
Local Open Scope Z_scope.

(** ** New blocks *)

Lemma header_set s b blk c : header (set_header s b blk) c = if decide (c = b) then blk else header s c.
Proof.
  unfold header, set_header. cbn. case_decide as C; [subst; by rewrite lookup_insert_eq|].
  by rewrite lookup_insert_ne.
Qed.

Lemma set_header_lines s b blk c l : line_map blk = line_map (header s b) →
  line_bit (header (set_header s b blk) c) l = line_bit (header s c) l.
Proof. intros E. rewrite header_set. unfold line_bit. case_decide; subst; by rewrite ?E. Qed.

Lemma set_header_wf s b blk : block_wf blk → (∀ c, block_wf (header s c)) →
  ∀ c, block_wf (header (set_header s b blk) c).
Proof. intros. rewrite header_set. by case_decide. Qed.

Lemma zeroed_allocated_wf : block_wf (set_allocated Block.zeroed).
Proof. apply Block.zeroed_wf. Qed.

(** Marking a block that is not free as allocated. *)
Lemma take_block_ok w b : world_ok w → ¬ BA.available (w_ba w) b →
  let w' := mkWorld (w_ba w) (set_header (w_store w) b (set_allocated (header (w_store w) b))) (w_tls w) in
  world_ok w' ∧ world_le w w'.
Proof.
  intros [Hba Hwf Hfr] Hna w'. split.
  - constructor; [done|apply set_header_wf; [apply (Hwf b)|done]|].
    intros c Hc. cbn in *. rewrite header_set, decide_False; [auto|]. by intros ->.
  - constructor; try done. intros c l. by apply set_header_lines.
Qed.

(** [get_new_block] of the normal and the overflow allocator. *)
Lemma get_global_block_ok w : world_ok w →
  ∃ r w', get_global_block w = Ok (r, w') ∧ world_ok w' ∧ world_le w w' ∧ w_tls w' = w_tls w ∧
    match r with
    | None => w' = w ∧ ∀ b, ¬ BA.available (w_ba w) b
    | Some (b, low, high) =>
        low = 128 ∧ high = 32767 ∧ (∀ l, marked_line w b l = false) ∧ BA.in_range (w_ba w) b ∧
        ¬ BA.available (w_ba w') b ∧ ∀ c, BA.available (w_ba w) c ↔ c = b ∨ BA.available (w_ba w') c
    end.
Proof.
  intros Hw. pose proof Hw as [Hba Hwf Hfr]. unfold get_global_block.
  destruct (BA.get_block_spec (w_ba w) (w_store w) Hba)
    as [(b & ba & s' & -> & Hba' & Hin & Hav & Hna & Hiff & Em & Ed & Hs)|[-> Hno]]; rewrite bind_Ok.
  - assert (Hh : ∀ c, header s' c = header (w_store w) c).
    { intros c. destruct Hs as [[-> _]|[-> _]]; [done|]. rewrite header_set. case_decide; [|done].
      subst. symmetry. by apply Hfr. }
    assert (Hwd : words s' = words (w_store w)) by (by destruct Hs as [[-> _]|[-> _]]).
    assert (Hw1 : world_ok (mkWorld ba s' (w_tls w))).
    { constructor; [done|intros c; cbn; rewrite Hh; apply Hwf|]. intros c Hc. cbn in *. rewrite Hh.
      apply Hfr, Hiff. by right. }
    destruct (take_block_ok _ b Hw1 Hna) as [Hw2 Hle2].
    do 2 eexists. split; [done|]. split_and!; try done.
    + etrans; [|exact Hle2]. constructor; try done.
      * intros c Hc. apply Hiff. by right.
      * intros c l. unfold marked_line. cbn. by rewrite Hh.
    + intros l. unfold marked_line. rewrite (Hfr b Hav). apply Block.zeroed_line.
  - do 2 eexists. split; [done|]. assert (mkWorld (w_ba w) (w_store w) (w_tls w) = w) as -> by (by destruct w).
    by split_and!.
Qed.

(** ** NormalAllocator *)

Section WithCfg.
Context `{Cfg}.

Definition normal_view (a : NormalAllocator) (w : World) : View :=
  mkView (if threaded then tls_current_block (w_tls w) else n_current_block a)
         (n_recyclable_blocks a) (n_unavailable_blocks a).

(** What [handle_no_hole] has done when it returns [r]: every block is kept, and a
    block that is returned came from the recyclable ones and has a hole. *)
Definition no_hole_post (w : World) (size : Z) (a : NormalAllocator) (r : option BlockTuple)
    (a' : NormalAllocator) : Prop :=
    n_current_block a' = n_current_block a ∧
    (∀ b, b ∈ n_recyclable_blocks a' → b ∈ n_recyclable_blocks a) ∧
    match r with
    | None => n_recyclable_blocks a' ++ n_unavailable_blocks a' ≡ₚ n_recyclable_blocks a ++ n_unavailable_blocks a
    | Some (b, low, high) =>
        b :: n_recyclable_blocks a' ++ n_unavailable_blocks a' ≡ₚ n_recyclable_blocks a ++ n_unavailable_blocks a ∧
        b ∈ n_recyclable_blocks a ∧ tuple_ok w (b, low, high) ∧ size <= high - low
    end.

Lemma no_hole_loop_ok fuel a w size : world_ok w → 0 <= size →
  (length (n_recyclable_blocks a) < fuel)%nat →
  ∃ r a', Normal.handle_no_hole_loop fuel a (w_store w) size = Ok (r, a') ∧
    no_hole_post w size a r a'.
Proof.
  intros Hw Hs. revert a. induction fuel as [|fuel IH]; intros a Hf; [lia|]. cbn [Normal.handle_no_hole_loop].
  case_decide; [by exists None, a|].
  pose proof (vec_pop_spec (n_recyclable_blocks a)) as Hp.
  destruct (vec_pop (n_recyclable_blocks a)) as [[block rest]|]; [|by exists None, a].
  rewrite Hp in Hf. rewrite length_app in Hf. cbn in Hf.
  set (a1 := mkNormal (n_unavailable_blocks a) rest (n_current_block a)).
  (* after giving up on [block] *)
  assert (Hrec : ∃ r a', Normal.handle_no_hole_loop fuel (Normal.handle_full_block a1 block) (w_store w) size
      = Ok (r, a') ∧ no_hole_post w size a r a').
  { destruct (IH (Normal.handle_full_block a1 block)) as (r & a' & E & Hc & Hsub & Hr); [cbn; lia|].
    assert (Hperm : rest ++ n_unavailable_blocks a ++ [block] ≡ₚ n_recyclable_blocks a ++ n_unavailable_blocks a)
      by (rewrite Hp, <- app_assoc; f_equiv; apply Permutation_app_comm).
    exists r, a'. unfold no_hole_post. split_and!; try done.
    - intros b Hb. rewrite Hp. apply elem_of_app. left. by apply Hsub.
    - destruct r as [[[b low] high]|]; cbn in Hr; [|by rewrite Hr].
      destruct Hr as (Hr & Hb & Ht & Hsz). split_and!; [by rewrite Hr| |exact Ht|exact Hsz].
      rewrite Hp. apply elem_of_app. by left. }
  change (trunc 16 (Block.size_of_ImmixBlock - 1)) with 47.
  destruct (Block.scan_block (header (w_store w) block) block 47) as [[[lo hi]|]| |] eqn:E;
    try (rewrite Block.scan_block_spec in E by (try apply Hw; lia); discriminate E); rewrite bind_Ok; [|exact Hrec].
  destruct (scan_tuple_ok w block 47 lo hi (wo_wf w Hw block) ltac:(lia) E) as (Ht & Hlo & _).
  rewrite decide_True by (unfold Block.size_of_ImmixBlock; lia).
  destruct (scan_for_hole_spec Normal.handle_full_block a1 w size (block, lo, hi) Hw Hs Ht) as (r & a2 & -> & Hr).
  rewrite bind_Ok. destruct r as [[[b low] high]|]; [|subst a2; exact Hrec].
  destruct Hr as (-> & -> & _ & Ht' & Hsz). do 2 eexists. split; [done|].
  unfold no_hole_post. cbn. rewrite Hp. split_and!; try done; try apply Ht'.
  - intros b Hb. apply elem_of_app. by left.
  - rewrite <- app_assoc. cbn. apply Permutation_middle.
  - apply elem_of_app. right. left.
Qed.

#[export] Instance NormalAllocator_Laws : AllocatorLaws NormalAllocator.
Proof.
  refine {| view := normal_view; from_headroom := false;
            foreign t := [tls_current_ovf_block t] |}.
  - intros a w. unfold normal_view. cbn. unfold Normal.take_current_block. by destruct threaded.
  - intros a w tp. unfold normal_view. cbn. unfold Normal.put_current_block. by destruct threaded.
  - done.
  - intros a w size Hw Hs Hc. cbn [handle_no_hole NormalAllocator_Allocator]. unfold Normal.handle_no_hole.
    destruct (no_hole_loop_ok (S (length (n_recyclable_blocks a))) a w size Hw Hs ltac:(lia))
      as (r & a' & -> & Ec & Hsub & Hr). rewrite bind_Ok. exists r, a'. split; [done|].
    assert (Hc' : v_cur (normal_view a' w) = None) by (cbn in *; destruct threaded; congruence).
    split_and!; try done. unfold v_blocks, cur_block. rewrite Hc, Hc'. exact Hr.
  - intros a w Hw Hc _. cbn [get_new_block NormalAllocator_Allocator].
    destruct (get_global_block_ok w Hw) as (r & w' & -> & Hw' & Hle & Et & Hr). rewrite bind_Ok.
    assert (Ev : normal_view a w' = normal_view a w) by (unfold normal_view; by rewrite Et).
    exists r, a, w'. rewrite Ev, Et. split_and!; try done.
    destruct r as [[[b low] high]|]; [|by destruct Hr as [-> ?]].
    destruct Hr as (? & ? & ? & ? & ? & ?). by split_and!.
Defined.

(** ** The field [current_block]

    In a build with the feature [threaded] the current blocks are in the thread-local
    state, and no operation writes the fields of the allocators. *)

Lemma scan_for_hole_keeps {A} (full : A → Z → A) fuel self s size tp r self' :
  scan_for_hole_loop full fuel self s size tp = Ok (r, self') → self' = self ∨ ∃ b, self' = full self b.
Proof.
  revert tp. induction fuel as [|fuel IH]; intros [[b low] high] E; [discriminate E|]. cbn [scan_for_hole_loop] in E.
  apply bind_Ok_inv in E as (room & _ & E). case_decide; [injection E as _ <-; by left|].
  apply bind_Ok_inv in E as ([[lo hi]|] & _ & E); [by eapply IH|]. injection E as _ <-. right. by exists b.
Qed.

Lemma no_hole_keeps fuel self s size r self' :
  Normal.handle_no_hole_loop fuel self s size = Ok (r, self') → n_current_block self' = n_current_block self.
Proof.
  revert self. induction fuel as [|fuel IH]; intros self E; [discriminate E|]. cbn [Normal.handle_no_hole_loop] in E.
  case_decide; [by injection E as _ <-|]. destruct (vec_pop _) as [[b rest]|]; [|by injection E as _ <-].
  apply bind_Ok_inv in E as ([[lo hi]|] & _ & E); [|by apply IH in E].
  case_decide; [|discriminate E]. apply bind_Ok_inv in E as ([hole self2] & E2 & E).
  assert (E3 : n_current_block self2 = n_current_block self) by (by apply scan_for_hole_keeps in E2 as [->|[c ->]]).
  destruct hole; [by injection E as _ <-|]. apply IH in E. congruence.
Qed.

Lemma normal_keeps self w size r self' w' : threaded = true →
  Allocation.allocate self w size = Ok (r, self', w') → n_current_block self' = n_current_block self.
Proof.
  intros Hth. unfold Allocation.allocate.
  cbn [take_current_block handle_no_hole get_new_block put_current_block handle_full_block NormalAllocator_Allocator].
  unfold Normal.take_current_block. rewrite Hth. intros E.
  apply bind_Ok_inv in E as ([hole a2] & E2 & E). apply bind_Ok_inv in E as ([[hole3 a3] w3] & E3 & E).
  apply bind_Ok_inv in E as ([[hole4 a4] w4] & E4 & E).
  assert (K2 : n_current_block a2 = n_current_block self).
  { destruct (tls_current_block _); [|by injection E2 as _ <-]. by apply scan_for_hole_keeps in E2 as [->|[b ->]]. }
  assert (K3 : n_current_block a3 = n_current_block a2).
  { destruct hole; [by injection E3 as _ <- _|]. unfold Normal.handle_no_hole in E3.
    apply bind_Ok_inv in E3 as ([r3 a3'] & E3 & E'). injection E' as _ <- _. by eapply no_hole_keeps. }
  assert (K4 : n_current_block a4 = n_current_block a3).
  { destruct hole3; [by injection E4 as _ <- _|]. apply bind_Ok_inv in E4 as ([r4 w4'] & _ & E'). by injection E' as _ <- _. }
  destruct hole4 as [tp|]; [|injection E as _ <- _; congruence].
  apply bind_Ok_inv in E as ([tp' object] & _ & E). unfold Normal.put_current_block in E. rewrite Hth in E.
  injection E as _ <- _. congruence.
Qed.

(** ** OverflowAllocator *)

Definition overflow_view (a : OverflowAllocator) (w : World) : View :=
  mkView (if threaded then tls_current_ovf_block (w_tls w) else o_current_block a)
         [] (o_unavailable_blocks a).

#[export] Instance OverflowAllocator_Laws : AllocatorLaws OverflowAllocator.
Proof.
  refine {| view := overflow_view; from_headroom := false;
            foreign t := [tls_current_block t] |}.
  - intros a w. unfold overflow_view. cbn. unfold Overflow.take_current_block. by destruct threaded.
  - intros a w tp. unfold overflow_view. cbn. unfold Overflow.put_current_block. by destruct threaded.
  - done.
  - intros a w size Hw Hs Hc. by exists None, a.
  - intros a w Hw Hc _. cbn [get_new_block OverflowAllocator_Allocator].
    destruct (get_global_block_ok w Hw) as (r & w' & -> & Hw' & Hle & Et & Hr). rewrite bind_Ok.
    assert (Ev : overflow_view a w' = overflow_view a w) by (unfold overflow_view; by rewrite Et).
    exists r, a, w'. rewrite Ev, Et. split_and!; try done.
    destruct r as [[[b low] high]|]; [|by destruct Hr as [-> ?]].
    destruct Hr as (? & ? & ? & ? & ? & ?). by split_and!.
Defined.

Lemma overflow_keeps self w size r self' w' : threaded = true →
  Allocation.allocate self w size = Ok (r, self', w') → o_current_block self' = o_current_block self.
Proof.
  intros Hth. unfold Allocation.allocate.
  cbn [take_current_block handle_no_hole get_new_block put_current_block handle_full_block OverflowAllocator_Allocator].
  unfold Overflow.take_current_block. rewrite Hth. intros E.
  apply bind_Ok_inv in E as ([hole a2] & E2 & E). apply bind_Ok_inv in E as ([[hole3 a3] w3] & E3 & E).
  apply bind_Ok_inv in E as ([[hole4 a4] w4] & E4 & E).
  assert (K2 : o_current_block a2 = o_current_block self).
  { destruct (tls_current_ovf_block _); [|by injection E2 as _ <-]. by apply scan_for_hole_keeps in E2 as [->|[b ->]]. }
  assert (K3 : a3 = a2) by (destruct hole; by injection E3 as _ <- _).
  assert (K4 : a4 = a3).
  { destruct hole3; [by injection E4 as _ <- _|]. apply bind_Ok_inv in E4 as ([r4 w4'] & _ & E'). by injection E' as _ <- _. }
  destruct hole4 as [tp|]; [|injection E as _ <- _; congruence].
  apply bind_Ok_inv in E as ([tp' object] & _ & E). unfold Overflow.put_current_block in E. rewrite Hth in E.
  injection E as _ <- _. congruence.
Qed.

End WithCfg.

(** ** EvacAllocator *)

Definition evac_view (a : EvacAllocator) (w : World) : View :=
  mkView (e_current_block a) (e_evac_headroom a) (e_unavailable_blocks a).

#[export] Instance EvacAllocator_Laws : AllocatorLaws EvacAllocator.
Proof.
  refine {| view := evac_view; from_headroom := true;
            foreign t := [tls_current_block t; tls_current_ovf_block t] |}; try done.
  - intros a w size Hw Hs Hc. by exists None, a.
  - intros a w Hw Hc Hv. cbn. unfold Evac.get_new_block. pose proof (vec_pop_spec (e_evac_headroom a)) as Hp.
    destruct (vec_pop (e_evac_headroom a)) as [[b rest]|]; [|by exists None, a, w].
    assert (Hb : b ∈ v_pool (evac_view a w)) by (cbn; rewrite Hp; apply elem_of_app; right; left).
    destruct (vo_range _ _ _ Hv b) as [Hin Hna].
    { unfold v_blocks. rewrite !elem_of_app. tauto. }
    destruct (take_block_ok w b Hw Hna) as [Hw' Hle].
    do 3 eexists. split; [done|]. cbn. split_and!; try done.
    + intros c Hc'. rewrite Hp. apply elem_of_app. by left.
    + intros l. by apply (vo_clean _ _ _ Hv eq_refl).
    + unfold v_blocks, cur_block. cbn in Hc |- *. rewrite Hc, Hp, <- app_assoc. cbn. apply Permutation_middle.
Defined.
