(* ===== verification/ImmixSpace.v ===== *)
(** * allocation.rs: the immix space

    [ImmixSpace] holds the three allocators and the bitmap of object starts; the
    block allocator it points to is in the [World].  The run-time type information
    behind an object's vtable pointer belongs to the user's program: the table
    [rtti_of] is a parameter. *)

From stdpp Require Import base numbers list list_numbers gmap.
From Stdlib Require Import ZArith Lia.
From S2P Require Import Prelude Util Constants Bitmap Block SpaceBitmap Object BlockAllocator.
From S2P Require Import Allocation AllocatorLaws Allocators.
Local Open Scope Z_scope.

Record ImmixSpace : Type := mkSpace {
  bitmap : SpaceBitmap;
  allocator : NormalAllocator;
  overflow_allocator : OverflowAllocator;
  evac_allocator : EvacAllocator;
  current_live_mark : bool
}.

Definition set_bitmap (self : ImmixSpace) (b : SpaceBitmap) : ImmixSpace :=
  mkSpace b (allocator self) (overflow_allocator self) (evac_allocator self) (current_live_mark self).
Definition set_normal (self : ImmixSpace) (a : NormalAllocator) : ImmixSpace :=
  mkSpace (bitmap self) a (overflow_allocator self) (evac_allocator self) (current_live_mark self).
Definition set_overflow (self : ImmixSpace) (a : OverflowAllocator) : ImmixSpace :=
  mkSpace (bitmap self) (allocator self) a (evac_allocator self) (current_live_mark self).
Definition set_evac (self : ImmixSpace) (a : EvacAllocator) : ImmixSpace :=
  mkSpace (bitmap self) (allocator self) (overflow_allocator self) a (current_live_mark self).

(** [copy_nonoverlapping] of [size] bytes, a multiple of the word size here. *)
Definition copy_words (s : Store) (from to size : Z) : Store :=
  foldl (λ s' i, set_word s' (to + 8 * i) (word s (from + 8 * i))) s (range 0 (size / 8)).

Module ImmixSpaceM.
Section Methods.
Context `{Cfg}.

Definition filter_fast (self : ImmixSpace) (w : World) (addr : Z) : bool :=
  if negb (BA.is_in_space (w_ba w) addr) then false else true.

Definition filter (self : ImmixSpace) (w : World) (addr : Z) : R (option Z) :=
  if decide (addr mod 16 ≠ 0) then Ok None
  else if BA.is_in_space (w_ba w) addr then
    t ← Space.test 16 (bitmap self) addr;
    Ok (if t : bool then Some addr else None)
  else Ok None.

(** [new]; [map] is the address of the mapping of the block allocator. *)
Definition new (map heap_size : Z) : R (ImmixSpace * World) :=
  ba ← BA.new map heap_size;
  bm ← Space.create 16 (mm_start (mmap ba)) heap_size;
  Ok (mkSpace bm Normal.new Overflow.new Evac.new false, mkWorld ba (mkStore ∅ ∅) (mkTLS None None)).

Definition evac_headroom (self : ImmixSpace) : Z := Evac.evac_headroom (evac_allocator self).

Definition return_blocks (w : World) (blocks : list Z) : World :=
  let '(ba, s) := BA.return_blocks (w_ba w) (w_store w) blocks in mkWorld ba s (w_tls w).

Definition set_current_live_mark (self : ImmixSpace) (m : bool) : ImmixSpace :=
  mkSpace (bitmap self) (allocator self) (overflow_allocator self) (evac_allocator self) m.

Definition set_recyclable_blocks (self : ImmixSpace) (blocks : list Z) : ImmixSpace :=
  set_normal self (Normal.set_recyclable_blocks (allocator self) blocks).

Definition extend_evac_headroom (self : ImmixSpace) (blocks : list Z) : ImmixSpace :=
  set_evac self (Evac.extend_evac_headroom (evac_allocator self) blocks).

Definition get_all_blocks (self : ImmixSpace) : list Z * ImmixSpace :=
  let '(normal_blocks, n) := Allocation.get_all_blocks (allocator self) in
  let '(overflow_blocks, o) := Allocation.get_all_blocks (overflow_allocator self) in
  let '(evac_blocks, e) := Allocation.get_all_blocks (evac_allocator self) in
  (normal_blocks ++ overflow_blocks ++ evac_blocks,
   mkSpace (bitmap self) n o e (current_live_mark self)).

Definition set_gc_object (self : ImmixSpace) (object : Z) : R ImmixSpace :=
  bm ← Space.set 16 (bitmap self) object; Ok (set_bitmap self bm).
Definition unset_gc_object (self : ImmixSpace) (object : Z) : R ImmixSpace :=
  bm ← Space.clear 16 (bitmap self) object; Ok (set_bitmap self bm).

Definition allocate (self : ImmixSpace) (w : World) (size : Z) : R (Z * ImmixSpace * World) :=
  '(ptr, self', w') ←
    (if decide (size < MEDIUM_OBJECT) then
       '(p, a, w') ← Allocation.allocate (allocator self) w size; Ok (p, set_normal self a, w')
     else
       '(p, a, w') ← Allocation.allocate (overflow_allocator self) w size; Ok (p, set_overflow self a, w'));
  if Address.is_non_null ptr then
    self'' ← set_gc_object self' ptr; Ok (ptr, self'', w')
  else Ok (ptr, self', w').

Section Rtti.
Context (rtti_of : Z → GCRTTI).

(** [object_size] of the object at [addr]. *)
Definition object_size_at (s : Store) (addr : Z) : R Z :=
  v ← RawGc.vtable (word s addr); RawGc.object_size (rtti_of v) (words s) addr.

Definition maybe_evacuate (self : ImmixSpace) (w : World) (addr : Z) : R (option Z * ImmixSpace * World) :=
  let block_info := Block.get_block_ptr addr in
  is_pinned ← RawGc.is_pinned (word (w_store w) addr);
  let is_candidate := evacuation_candidate (header (w_store w) block_info) in
  if is_pinned || negb is_candidate then Ok (None, self, w)
  else
    size ← object_size_at (w_store w) addr;
    asize ← Rounding.align_usize size 16;
    '(new_object, e, w1) ← Allocation.allocate (evac_allocator self) w asize;
    let self1 := set_evac self e in
    if Address.is_non_null new_object then
      let w2 := mkWorld (w_ba w1) (copy_words (w_store w1) addr new_object size) (w_tls w1) in
      self2 ← set_gc_object self1 new_object;
      Ok (Some new_object, self2, w2)
    else Ok (None, self1, w1).

End Rtti.

(** ** The invariant of the space *)

Definition normal_v (self : ImmixSpace) (w : World) : View := view (allocator self) w.
Definition overflow_v (self : ImmixSpace) (w : World) : View := view (overflow_allocator self) w.
(** The evacuation allocator while a collection moves objects, and between collections:
    then nobody allocates from its current block, and the next collection takes it. *)
Definition evac_open_v (self : ImmixSpace) (w : World) : View := view (evac_allocator self) w.
Definition closed_view (v : View) : View := mkView None (v_pool v) (v_full v ++ cur_block v).
Definition evac_v (self : ImmixSpace) (w : World) : View := closed_view (evac_open_v self w).

(** The bitmap has a granule for every address of the mapping. *)
Definition covers (bm : SpaceBitmap) (ba : BlockAllocator) : Prop :=
  Space.space_wf bm ∧ heap_begin bm = mm_start (mmap ba) ∧
  data_bound ba <= heap_begin bm + Space.granules bm * 16.

Record space_ok (self : ImmixSpace) (w : World) : Prop := {
  so_world : world_ok w;
  so_normal : view_ok false w (normal_v self w);
  so_overflow : view_ok false w (overflow_v self w);
  so_evac : view_ok true w (evac_v self w);
  so_no : v_blocks (normal_v self w) ## v_blocks (overflow_v self w);
  so_ne : v_blocks (normal_v self w) ## v_blocks (evac_v self w);
  so_oe : v_blocks (overflow_v self w) ## v_blocks (evac_v self w);
  so_bitmap : covers (bitmap self) (w_ba w)
}.

(** The addresses the mutator may still be given. *)
Definition free_space (self : ImmixSpace) (w : World) (x : Z) : Prop :=
  free_in_view w (normal_v self w) x ∨ free_in_view w (overflow_v self w) x ∨
  free_in_view w (evac_v self w) x ∨ ∃ b, BA.available (w_ba w) b ∧ in_span w b 128 x.

(** What the evacuation allocator relies on, and what it may still hand out. *)
Record evac_ok (self : ImmixSpace) (w : World) : Prop := {
  eo_space : space_ok self w;
  eo_open : view_ok true w (evac_open_v self w)
}.
Definition evac_free (self : ImmixSpace) (w : World) (x : Z) : Prop :=
  free_space self w x ∨ free_in_view w (evac_open_v self w) x.

(** ** Lemmas *)

Lemma closed_blocks v : v_blocks (closed_view v) ≡ₚ v_blocks v.
Proof. unfold v_blocks, closed_view, cur_block. cbn. solve_Permutation. Qed.

Lemma closed_ok clean w v : view_ok clean w v → view_ok clean w (closed_view v).
Proof.
  intros [H1 H2 H3 H4]. constructor; [done|by rewrite closed_blocks| |done]. intros b. rewrite closed_blocks. apply H3.
Qed.

(** An address that is free for a view lies in one of its blocks. *)
Lemma free_in_view_block clean w v x : view_ok clean w v → free_in_view w v x →
  ∃ b, b ∈ v_blocks v ∧ BA.in_range (w_ba w) b ∧ ¬ BA.available (w_ba w) b ∧ in_span w b 128 x.
Proof.
  intros [Ht _ Hr _] [(b & low & high & E & Hs)|(b & Hb & Hs)]; exists b.
  - assert (Hin : b ∈ v_blocks v) by (unfold v_blocks, cur_block; rewrite E; left).
    destruct (Hr b Hin). split_and!; try done. eapply in_span_mono; [|exact Hs]. by destruct (Ht _ E) as [[? _] _].
  - assert (Hin : b ∈ v_blocks v) by (unfold v_blocks; rewrite !elem_of_app; tauto).
    by destruct (Hr b Hin).
Qed.

Lemma available_range ba b : BA.inv ba → BA.available ba b → BA.in_range ba b.
Proof.
  intros [_ _ Hd _ Hfr] [Hb|Hb]; [apply Hfr in Hb|]; unfold BA.in_range; lia.
Qed.

Lemma free_at_block clean w v x : world_ok w → view_ok clean w v → free_at w v x →
  ∃ b, (b ∈ v_blocks v ∨ BA.available (w_ba w) b) ∧ BA.in_range (w_ba w) b ∧ in_span w b 128 x.
Proof.
  intros [Hi _ _] Hv [Hx|(b & Hb & Hs)].
  - destruct (free_in_view_block clean w v x Hv Hx) as (b & ? & ? & _ & ?). eauto.
  - exists b. split_and!; try done; [by right|by apply available_range].
Qed.

(** One allocator at work leaves another one alone: its invariant holds still, the
    two share no block, and what was free for it is not handed out. *)
Lemma progress_other fh clean w v w' v' u : world_ok w → view_ok fh w v → progress fh w v w' v' →
  view_ok clean w u → v_blocks v ## v_blocks u →
  view_ok clean w' u ∧ v_blocks v' ## v_blocks u ∧
  (∀ x, free_in_view w' u x ↔ free_in_view w u x) ∧
  (∀ x, free_at w v x → ¬ free_in_view w u x).
Proof.
  intros Hw Hv [Hw' Hle Hv' Hf Hb] Hu Hd. split_and!.
  - by eapply view_ok_frame.
  - intros b Hb1 Hb2. destruct (vo_range _ _ _ Hu b Hb2) as [_ Hna].
    destruct (proj1 (Hb b) (or_introl Hb1)) as [Hb3|Hb3]; [by apply (Hd b)|done].
  - intros x. unfold free_in_view. by setoid_rewrite (in_span_le w w' _ _ _ Hle).
  - intros x Hx Hux. destruct (free_at_block fh w v x Hw Hv Hx) as (b & Hbv & [Hba _] & Hbs).
    destruct (free_in_view_block clean w u x Hu Hux) as (c & Hcu & [Hca _] & Hcn & Hcs).
    assert (b = c) as -> by (eapply (span_block w w b c 128 128); done || lia).
    destruct Hbv; [by apply (Hd c)|done].
Qed.

(** A free address is one the bitmap covers. *)
Lemma covers_granule bm ba x : covers bm ba → mm_start (mmap ba) <= x < data_bound ba →
  heap_begin bm <= x ∧ Space.granule 16 bm x < Space.granules bm.
Proof.
  intros (_ & Hb & Hg) Hx. split; [lia|]. unfold Space.granule. apply Z.div_lt_upper_bound; lia.
Qed.

(** A free address lies in the mapping, behind the first block's start. *)
Lemma free_at_range clean w v x : world_ok w → view_ok clean w v → free_at w v x →
  mm_start (mmap (w_ba w)) < x < data_bound (w_ba w).
Proof.
  intros Hw Hv Hx. destruct (free_at_block clean w v x Hw Hv Hx) as (b & _ & (_ & Hlo & Hhi) & [Hs _]).
  pose proof (BA.aligned_spec (mmap (w_ba w))). consts. lia.
Qed.

(** The allocation itself, before the object is entered in the bitmap. *)
Definition raw_allocate (self : ImmixSpace) (w : World) (size : Z) : R (Z * ImmixSpace * World) :=
  if decide (size < MEDIUM_OBJECT) then
    '(p, a, w') ← Allocation.allocate (allocator self) w size; Ok (p, set_normal self a, w')
  else
    '(p, a, w') ← Allocation.allocate (overflow_allocator self) w size; Ok (p, set_overflow self a, w').

Definition region_taken (self : ImmixSpace) (w : World) (self' : ImmixSpace) (w' : World) (r size : Z) : Prop :=
  0 < r ∧ r mod 16 = 0 ∧ ∀ x, r <= x < r + size →
    mm_start (mmap (w_ba w)) < x < data_bound (w_ba w) ∧ free_space self w x ∧ ¬ free_space self' w' x.

(** The same of the evacuation allocator. *)
Definition region_moved (self : ImmixSpace) (w : World) (self' : ImmixSpace) (w' : World) (r size : Z) : Prop :=
  0 < r ∧ r mod 16 = 0 ∧ ∀ x, r <= x < r + size →
    mm_start (mmap (w_ba w)) < x < data_bound (w_ba w) ∧ evac_free self w x ∧ ¬ evac_free self' w' x.

(** What the mutator may still be given, from the point of view of one allocator
    [v] and the two others. *)
Definition free3 (w : World) (v u1 u2 : View) (x : Z) : Prop :=
  free_at w v x ∨ free_in_view w u1 x ∨ free_in_view w u2 x.

Lemma free3_step fh c1 c2 w v w' v' u1 u2 r size : world_ok w → view_ok fh w v → progress fh w v w' v' →
  view_ok c1 w u1 → v_blocks v ## v_blocks u1 → view_ok c2 w u2 → v_blocks v ## v_blocks u2 →
  (∀ x, free3 w' v' u1 u2 x → free3 w v u1 u2 x) ∧
  ((∀ x, r <= x < r + size → free_at w v x ∧ ¬ free_at w' v' x) →
   ∀ x, r <= x < r + size →
    mm_start (mmap (w_ba w)) < x < data_bound (w_ba w) ∧ free3 w v u1 u2 x ∧ ¬ free3 w' v' u1 u2 x).
Proof.
  intros Hw Hv P H1 D1 H2 D2.
  destruct (progress_other _ _ w _ w' _ _ Hw Hv P H1 D1) as (_ & _ & F1 & N1).
  destruct (progress_other _ _ w _ w' _ _ Hw Hv P H2 D2) as (_ & _ & F2 & N2).
  unfold free3. split.
  - intros x. rewrite F1, F2. pose proof (pg_free _ _ _ _ _ P x). tauto.
  - intros Hr x Hx. destruct (Hr x Hx) as [A1 A2]. specialize (N1 x A1). specialize (N2 x A1).
    rewrite F1, F2. split; [exact (free_at_range fh w v x Hw Hv A1)|]. tauto.
Qed.

Lemma free_space_normal self w x :
  free_space self w x ↔ free3 w (normal_v self w) (overflow_v self w) (evac_v self w) x.
Proof. unfold free_space, free3, free_at. tauto. Qed.

Lemma free_space_overflow self w x :
  free_space self w x ↔ free3 w (overflow_v self w) (normal_v self w) (evac_v self w) x.
Proof. unfold free_space, free3, free_at. tauto. Qed.

Lemma evac_free_open self w x :
  evac_free self w x ↔ free3 w (evac_open_v self w) (normal_v self w) (overflow_v self w) x.
Proof.
  unfold evac_free, free_space, free3, free_at.
  assert (free_in_view w (evac_v self w) x → free_in_view w (evac_open_v self w) x) by (intros [(? & ? & ? & [=] & _)|?]; by right).
  tauto.
Qed.

Lemma covers_le bm w w' : world_le w w' → covers bm (w_ba w) → covers bm (w_ba w').
Proof. intros [[Em Ed] _ _ _]. unfold covers. by rewrite Em, Ed. Qed.

Lemma raw_allocate_spec self w size : space_ok self w → 0 < size <= 32639 → size mod 16 = 0 →
  ∃ r self' w', raw_allocate self w size = Ok (r, self', w') ∧ space_ok self' w' ∧ world_le w w' ∧
    bitmap self' = bitmap self ∧
    (∀ x, free_space self' w' x → free_space self w x) ∧
    (r = 0 ∧ (∀ b, ¬ BA.available (w_ba w') b) ∨ region_taken self w self' w' r size).
Proof.
  intros [Hw Hn Ho He Dno Dne Doe Hbm] Hs Hm. unfold raw_allocate, region_taken.
  destruct (decide (size < MEDIUM_OBJECT)).
  - pose proof (allocate_spec (allocator self) w size Hw) as Hal.
    destruct (Hal Hn Hs Hm) as (r & a' & w' & -> & P & Hf & Hr).
    rewrite bind_Ok. exists r, (set_normal self a'), w'. split; [done|].
    assert (Eo : overflow_v (set_normal self a') w' = overflow_v self w).
    { cbn. unfold overflow_view. injection Hf as ->. done. }
    setoid_rewrite free_space_normal. rewrite Eo.
    destruct (free3_step _ _ _ w _ w' _ _ _ r size Hw Hn P Ho Dno He Dne) as [Hsub Hreg].
    destruct (progress_other _ _ w _ w' _ _ Hw Hn P Ho Dno) as (Ho' & Dno' & _ & _).
    destruct (progress_other _ _ w _ w' _ _ Hw Hn P He Dne) as (He' & Dne' & _ & _).
    pose proof P as [Hw' Hle Hn' Hfree _].
    split_and!; [constructor; rewrite ?Eo; try done; by eapply covers_le|done|done|done|].
    destruct Hr as [[-> [_ Hex]]|(Hr1 & Hr2 & Hr3)]; [by left|right]. split_and!; try done. by apply Hreg.
  - pose proof (allocate_spec (overflow_allocator self) w size Hw) as Hal.
    destruct (Hal Ho Hs Hm) as (r & a' & w' & -> & P & Hf & Hr).
    rewrite bind_Ok. exists r, (set_overflow self a'), w'. split; [done|].
    assert (En : normal_v (set_overflow self a') w' = normal_v self w).
    { cbn. unfold normal_view. injection Hf as ->. done. }
    pose proof (symmetry Dno) as Don.
    setoid_rewrite free_space_overflow. rewrite En.
    destruct (free3_step _ _ _ w _ w' _ _ _ r size Hw Ho P Hn Don He Doe) as [Hsub Hreg].
    destruct (progress_other _ _ w _ w' _ _ Hw Ho P Hn Don) as (Hn' & Don' & _ & _).
    destruct (progress_other _ _ w _ w' _ _ Hw Ho P He Doe) as (He' & Doe' & _ & _).
    pose proof P as [Hw' Hle Ho' Hfree _].
    split_and!; [constructor; rewrite ?En; try done; by eapply covers_le|done|done|done|].
    destruct Hr as [[-> [_ Hex]]|(Hr1 & Hr2 & Hr3)]; [by left|right]. split_and!; try done. by apply Hreg.
Qed.

(** ** Object starts *)

Lemma set_gc_object_ok self w x : covers (bitmap self) (w_ba w) →
  mm_start (mmap (w_ba w)) <= x < data_bound (w_ba w) →
  ∃ bm, set_gc_object self x = Ok (set_bitmap self bm) ∧ covers bm (w_ba w) ∧
    Space.same_shape (bitmap self) bm ∧
    ∀ g, 0 <= g → Space.marked bm g =
      if decide (g = Space.granule 16 (bitmap self) x) then true else Space.marked (bitmap self) g.
Proof.
  intros Hc Hx. destruct (covers_granule _ _ x Hc Hx) as [Hb Hg]. destruct Hc as (Hwf & Hbeg & Hcap).
  destruct (Space.set_ok 16 ltac:(lia) (bitmap self) x Hwf Hb Hg) as (bm & E & Hwf' & Hsh & Hm).
  exists bm. unfold set_gc_object. rewrite E, bind_Ok. split; [done|]. split; [|by split].
  unfold covers. rewrite (Space.same_shape_begin _ _ Hsh), (Space.same_shape_granules _ _ Hsh). by split_and!.
Qed.

Lemma space_ok_bitmap self w bm : space_ok self w → covers bm (w_ba w) → space_ok (set_bitmap self bm) w.
Proof. intros [] ?. by constructor. Qed.

(** What [allocate] does, on every branch. *)
Lemma allocate_ok self w size : space_ok self w → 0 < size <= 32639 → size mod 16 = 0 →
  ∃ r self' w', allocate self w size = Ok (r, self', w') ∧ space_ok self' w' ∧ world_le w w' ∧
    (∀ x, free_space self' w' x → free_space self w x) ∧
    (r = 0 ∧ (∀ b, ¬ BA.available (w_ba w') b) ∧ bitmap self' = bitmap self ∨
     region_taken self w self' w' r size ∧ Space.same_shape (bitmap self) (bitmap self') ∧
     ∀ g, 0 <= g → Space.marked (bitmap self') g =
       if decide (g = Space.granule 16 (bitmap self) r) then true else Space.marked (bitmap self) g).
Proof.
  intros Hok Hs Hm. destruct (raw_allocate_spec self w size Hok Hs Hm) as (r & s1 & w1 & E & Hok1 & Hle & Eb & Hfree & Hr).
  unfold allocate. fold (raw_allocate self w size). rewrite E, bind_Ok.
  unfold Address.is_non_null. destruct (bool_decide (r ≠ 0)) eqn:Er.
  - apply bool_decide_eq_true in Er. destruct Hr as [[-> _]|Hr]; [done|].
    pose proof Hr as (_ & _ & Hr3). destruct (Hr3 r ltac:(lia)) as (Hrange & _).
    pose proof Hle as [[Em Ed] _ _ _].
    destruct (set_gc_object_ok s1 w1 r (so_bitmap _ _ Hok1)) as (bm & -> & Hc & Hsh & Hmk); [rewrite Em, Ed; lia|].
    rewrite bind_Ok. exists r, (set_bitmap s1 bm), w1. split_and!; try done.
    + by apply space_ok_bitmap.
    + right. rewrite <- Eb. by split_and!.
  - apply bool_decide_eq_false in Er. exists r, s1, w1. split_and!; try done.
    left. destruct Hr as [[-> ?]|(Hr & _)]; [done|lia].
Qed.

(** The blocks the space holds. *)
Definition held (self : ImmixSpace) (w : World) (b : Z) : Prop :=
  b ∈ v_blocks (normal_v self w) ∨ b ∈ v_blocks (overflow_v self w) ∨ b ∈ v_blocks (evac_v self w).

(** An allocation moves blocks from the block allocator to the space and loses none;
    the blocks for evacuation stay as they are. *)
Lemma raw_allocate_blocks self w size r self' w' : space_ok self w → 0 < size <= 32639 → size mod 16 = 0 →
  raw_allocate self w size = Ok (r, self', w') →
  evac_allocator self' = evac_allocator self ∧
  ∀ b, held self' w' b ∨ BA.available (w_ba w') b ↔ held self w b ∨ BA.available (w_ba w) b.
Proof.
  intros [Hw Hn Ho _ _ _ _ _] Hs Hm. unfold raw_allocate, held. destruct (decide (size < MEDIUM_OBJECT)).
  - pose proof (allocate_spec (allocator self) w size Hw) as Hal.
    destruct (Hal Hn Hs Hm) as (r1 & a1 & w1 & -> & P & Hf & _). rewrite bind_Ok. intros [= <- <- <-].
    assert (Eo : overflow_v (set_normal self a1) w1 = overflow_v self w).
    { cbn. unfold overflow_view. injection Hf as ->. done. }
    split; [done|]. intros b. rewrite Eo. pose proof (pg_blocks _ _ _ _ _ P b).
    change (view a1 w1) with (normal_v (set_normal self a1) w1) in *. change (view (allocator self) w) with (normal_v self w) in *.
    change (evac_v (set_normal self a1) w1) with (evac_v self w). tauto.
  - pose proof (allocate_spec (overflow_allocator self) w size Hw) as Hal.
    destruct (Hal Ho Hs Hm) as (r1 & a1 & w1 & -> & P & Hf & _). rewrite bind_Ok. intros [= <- <- <-].
    assert (En : normal_v (set_overflow self a1) w1 = normal_v self w).
    { cbn. unfold normal_view. injection Hf as ->. done. }
    split; [done|]. intros b. rewrite En. pose proof (pg_blocks _ _ _ _ _ P b).
    change (view a1 w1) with (overflow_v (set_overflow self a1) w1) in *.
    change (view (overflow_allocator self) w) with (overflow_v self w) in *.
    change (evac_v (set_overflow self a1) w1) with (evac_v self w). tauto.
Qed.

Lemma allocate_blocks self w size r self' w' : space_ok self w → 0 < size <= 32639 → size mod 16 = 0 →
  allocate self w size = Ok (r, self', w') →
  evac_allocator self' = evac_allocator self ∧
  ∀ b, held self' w' b ∨ BA.available (w_ba w') b ↔ held self w b ∨ BA.available (w_ba w) b.
Proof.
  intros Hok Hs Hm. unfold allocate. fold (raw_allocate self w size).
  destruct (raw_allocate self w size) as [[[r1 s1] w1]| |] eqn:E; [|discriminate..]. rewrite bind_Ok.
  destruct (raw_allocate_blocks _ _ _ _ _ _ Hok Hs Hm E) as [He Hb].
  destruct (Address.is_non_null r1); [|by intros [= <- <- <-]]. unfold set_gc_object.
  destruct (Space.set 16 (bitmap s1) r1); [|discriminate..]. cbn. by intros [= <- <- <-].
Qed.

(** With threads the allocators have no current block of their own. *)
Definition fields_none (self : ImmixSpace) : Prop :=
  n_current_block (allocator self) = None ∧ o_current_block (overflow_allocator self) = None.

Lemma allocate_fields self w size r self' w' : threaded = true → allocate self w size = Ok (r, self', w') →
  fields_none self → fields_none self'.
Proof.
  intros Hth E [Fn Fo]. unfold allocate in E. apply bind_Ok_inv in E as ([[r1 s1] w1] & E1 & E).
  assert (F1 : fields_none s1).
  { case_decide; apply bind_Ok_inv in E1 as ([[r2 a2] w2] & E2 & E3); injection E3 as _ <- _; (split; [cbn|cbn]); try done.
    - apply normal_keeps in E2; [congruence|done].
    - apply overflow_keeps in E2; [congruence|done]. }
  destruct (Address.is_non_null r1); [|by injection E as _ <- _].
  apply bind_Ok_inv in E as (s2 & E2 & E). injection E as _ <- _. unfold set_gc_object in E2.
  apply bind_Ok_inv in E2 as (bm & _ & E2). by injection E2 as <-.
Qed.

(** ** A new space *)

Lemma bitmap_size_ok heap_size : 0 <= heap_size < 2 ^ 63 → heap_size mod 2048 = 0 →
  Space.compute_bitmap_size 16 heap_size = Ok (heap_size / 1024 * 8).
Proof.
  intros Hh Hm. unfold Space.compute_bitmap_size, word_bytes. change (16 * (8 * 8)) with (2 ^ 10).
  destruct (Rounding.round_up heap_size (2 ^ 10)) as [r| |] eqn:E.
  - rewrite bind_Ok. apply Rounding.round_up_even in E; [|lia..]. rewrite E. do 2 f_equal.
    unfold Rounding.ceil_div. change (2 ^ 10) with 1024. Z.div_mod_to_equations. lia.
  - unfold Rounding.round_up in E. rewrite u_add_ok, bind_Ok, u_sub_ok in E by lia. done.
  - unfold Rounding.round_up in E. rewrite u_add_ok, bind_Ok, u_sub_ok in E by lia. done.
Qed.

Lemma block_allocator_new map size : 0 <= map → 0 <= size → map + size < 2 ^ 63 →
  ∃ ba, BA.new map size = Ok ba.
Proof.
  intros. unfold BA.new, Mmap_new, MAP_FAILED. rewrite decide_False by lia.
  rewrite u_add_ok, !bind_Ok by lia. cbn -[Mmap_aligned].
  rewrite decide_True by apply BA.aligned_spec. eauto.
Qed.

Lemma new_ok map heap_size : 0 <= map → BLOCK_SIZE <= heap_size → map + heap_size < 2 ^ 63 →
  heap_size mod 2048 = 0 →
  ∃ self w, new map heap_size = Ok (self, w) ∧ space_ok self w ∧ words (w_store w) = ∅ ∧ w_tls w = mkTLS None None ∧
    mm_start (mmap (w_ba w)) = map ∧ data_bound (w_ba w) = map + heap_size ∧
    self = mkSpace (bitmap self) Normal.new Overflow.new Evac.new false ∧
    ∀ g, Space.marked (bitmap self) g = false.
Proof.
  intros Hmap Hsz Hb Hm. unfold new.
  destruct (block_allocator_new map heap_size Hmap ltac:(consts; lia) Hb) as [ba E].
  destruct (BA.new_inv map heap_size ba Hmap Hb Hsz E) as (Hi & Hfr & Hda & Est & Ebd).
  rewrite E, bind_Ok. unfold Space.create. rewrite bitmap_size_ok, bind_Ok by (consts; lia).
  assert (32 <= heap_size / 1024) by (consts; apply Z.div_le_lower_bound; lia).
  rewrite decide_False by lia. unfold Space.create_from_memmap.
  rewrite bitmap_size_ok, bind_Ok, u_add_ok, !bind_Ok by (consts; lia).
  do 2 eexists. split; [done|]. split; [|split_and!; try done; intros g; apply Words.bit_zeros].
  assert (Hnil : ∀ clean, view_ok clean (mkWorld ba (mkStore ∅ ∅) (mkTLS None None)) (mkView None [] [])).
  { intros. constructor; [done|constructor|..]; [intros b Hb0|intros _ b Hb0]; by apply not_elem_of_nil in Hb0. }
  assert (Hv : (if threaded then @None BlockTuple else None) = None) by (by destruct threaded).
  constructor; unfold normal_v, overflow_v, evac_v; cbn -[Space.space_wf];
    unfold normal_view, overflow_view, evac_view; cbn; rewrite ?Hv; try apply Hnil;
    try (intros b Hb0 _; by apply not_elem_of_nil in Hb0).
  - constructor; [done|..]; intros; unfold header; cbn; rewrite ?lookup_empty; [apply Block.zeroed_wf|done].
  - split_and!; [apply Words.wf_zeros|done|]. cbn. unfold Space.granules, Words.capacity. cbn.
    rewrite length_replicate. unfold word_bytes. rewrite Ebd, Est. Z.div_mod_to_equations. lia.
Qed.

(** ** Sequences of allocations *)

(** Allocate objects of the given sizes one after the other; the result pairs each
    address with its size. *)
Fixpoint allocate_all (self : ImmixSpace) (w : World) (sizes : list Z)
    : R (list (Z * Z) * ImmixSpace * World) :=
  match sizes with
  | [] => Ok ([], self, w)
  | n :: sizes' =>
      '(r, self1, w1) ← allocate self w n;
      '(rs, self2, w2) ← allocate_all self1 w1 sizes';
      Ok ((r, n) :: rs, self2, w2)
  end.

(** A size [Immix::allocate] passes on: rounded up to 16 and not large. *)
Definition small_size (n : Z) : Prop := 0 < n < LARGE_OBJECT ∧ n mod 16 = 0.

#[global] Instance small_size_dec n : Decision (small_size n).
Proof. unfold small_size. apply _. Defined.

(** Two regions are apart, unless one is the null of a failed allocation. *)
Definition apart (p q : Z * Z) : Prop :=
  p.1 = 0 ∨ q.1 = 0 ∨ p.1 + p.2 <= q.1 ∨ q.1 + q.2 <= p.1.

Definition region_of (self : ImmixSpace) (w : World) (p : Z * Z) : Prop :=
  p.1 = 0 ∨ p.1 mod 16 = 0 ∧ mm_start (mmap (w_ba w)) < p.1 ∧ p.1 + p.2 <= data_bound (w_ba w) ∧
    ∀ x, p.1 <= x < p.1 + p.2 → free_space self w x.

Lemma small_size_bound n : small_size n → 0 < n <= 32639 ∧ n mod 16 = 0.
Proof. unfold small_size, LARGE_OBJECT. lia. Qed.

Lemma allocate_all_ok sizes self w : space_ok self w → Forall small_size sizes →
  ∃ rs self' w', allocate_all self w sizes = Ok (rs, self', w') ∧ space_ok self' w' ∧ world_le w w' ∧
    rs.*2 = sizes ∧ Forall (region_of self w) rs ∧ List.ForallOrdPairs apart rs.
Proof.
  revert self w. induction sizes as [|n sizes IH]; intros self w Hok Hsz.
  { exists [], self, w. split_and!; try done; constructor. }
  apply Forall_cons in Hsz as [Hn Hsz]. pose proof (small_size_bound n Hn) as [Hn1 Hn2].
  cbn [allocate_all]. destruct (allocate_ok self w n Hok Hn1 Hn2) as (r & s1 & w1 & -> & Hok1 & Hle & Hsub & Hr).
  rewrite bind_Ok. destruct (IH s1 w1 Hok1 Hsz) as (rs & s2 & w2 & -> & Hok2 & Hle2 & Hmap & Hreg & Hap).
  rewrite bind_Ok. exists ((r, n) :: rs), s2, w2. pose proof Hle as [[Em Ed] _ _ _].
  split_and!; [done|done|by etrans|by rewrite fmap_cons, Hmap|constructor|constructor; [|done]].
  - unfold region_of. cbn. destruct Hr as [[-> _]|[(H0 & H16 & Hr) _]]; [by left|right].
    destruct (Hr r ltac:(lia)) as (B1 & _). destruct (Hr (r + n - 1) ltac:(lia)) as (B2 & _).
    split_and!; try lia. intros x Hx. by apply Hr.
  - eapply Forall_impl; [exact Hreg|]. unfold region_of. rewrite Em, Ed.
    intros q [Hq|(? & ? & ? & Hq)]; [by left|right]. split_and!; try done. auto.
  - apply List.Forall_forall. intros q Hq%list_elem_of_In. rewrite Forall_forall in Hreg.
    assert (Hq2 : 0 < q.2).
    { pose proof (list_elem_of_fmap_2 snd rs q Hq) as Hq2. rewrite Hmap in Hq2. rewrite Forall_forall in Hsz.
      destruct (Hsz _ Hq2) as [? _]. lia. }
    destruct (Hreg q Hq) as [E|(_ & _ & _ & Hfr)]; [by right; left|].
    destruct Hr as [[-> _]|[(_ & _ & Hr) _]]; [by left|]. unfold apart. cbn.
    destruct (decide (r + n <= q.1 ∨ q.1 + q.2 <= r)) as [|C]; [tauto|exfalso].
    destruct (Hr (Z.max r q.1) ltac:(lia)) as (_ & _ & Hno). apply Hno, Hfr. lia.
Qed.

(** ** Evacuation *)

Lemma copy_words_headers s from to size : headers (copy_words s from to size) = headers s.
Proof.
  unfold copy_words. set (s0 := s) at 1. clearbody s0. generalize (range 0 (size / 8)). intros l.
  revert s. induction l as [|i l IH]; intros s; [done|]. cbn [foldl]. by rewrite IH.
Qed.

(** The words of the target are those of the source; all others stay. *)
Lemma copy_words_word s from to size a : 0 <= size →
  word (copy_words s from to size) a =
    if decide (to <= a < to + size / 8 * 8 ∧ (a - to) mod 8 = 0) then word s (from + (a - to)) else word s a.
Proof.
  intros Hs. unfold copy_words. assert (Hn : 0 <= size / 8) by (apply Z.div_pos; lia).
  remember (Z.to_nat (size / 8)) as n eqn:En. replace (size / 8) with (Z.of_nat n) by lia. clear Hs Hn En.
  induction n as [|n IH].
  { cbn. rewrite decide_False; [done|]. lia. }
  rewrite (range_app 0 (Z.of_nat n)) by lia. rewrite foldl_app.
  rewrite (range_cons (Z.of_nat n)) by lia. rewrite (range_nil (Z.of_nat n + 1)) by lia. cbn [foldl].
  set (s1 := foldl _ s _) in *. unfold word at 1, set_word, mem_read. cbn [words].
  destruct (decide (a = to + 8 * Z.of_nat n)) as [->|Hne].
  - rewrite lookup_insert_eq, decide_True by (Z.div_mod_to_equations; lia). cbn. f_equal. lia.
  - rewrite lookup_insert_ne by done. change (default 0 (words s1 !! a)) with (word s1 a). rewrite IH.
    apply decide_ext. Z.div_mod_to_equations. lia.
Qed.

(** The invariant does not depend on the contents of objects. *)
Lemma space_ok_words self w s : headers s = headers (w_store w) → space_ok self w →
  space_ok self (mkWorld (w_ba w) s (w_tls w)).
Proof.
  destruct w as [ba [h ws] t], s as [h' ws']. cbn. intros -> [[] [] [] [] Dno Dne Doe Hbm].
  constructor; try exact Dno; try exact Dne; try exact Doe; try exact Hbm; by constructor.
Qed.

Lemma free_space_words self w s x : headers s = headers (w_store w) →
  free_space self (mkWorld (w_ba w) s (w_tls w)) x ↔ free_space self w x.
Proof. destruct w as [ba [h ws] t], s as [h' ws']. cbn. by intros ->. Qed.

(** The evacuation allocator at work. *)
Lemma evac_allocate_ok self w size : evac_ok self w → 0 < size <= 32639 → size mod 16 = 0 →
  ∃ r e w', Allocation.allocate (evac_allocator self) w size = Ok (r, e, w') ∧
    evac_ok (set_evac self e) w' ∧ world_le w w' ∧
    (∀ x, evac_free (set_evac self e) w' x → evac_free self w x) ∧
    (r = 0 ∧ e_evac_headroom e = [] ∨ region_moved self w (set_evac self e) w' r size).
Proof.
  intros [[Hw Hn Ho _ Dno Dne Doe Hbm] He] Hs Hm. unfold region_moved.
  pose proof (allocate_spec (evac_allocator self) w size Hw) as Hal.
  destruct (Hal He Hs Hm) as (r & e & w' & -> & P & Hf & Hr). exists r, e, w'. split; [done|].
  injection Hf as Hf1 Hf2.
  assert (En : normal_v (set_evac self e) w' = normal_v self w) by (cbn; unfold normal_view; by rewrite Hf1).
  assert (Eo : overflow_v (set_evac self e) w' = overflow_v self w) by (cbn; unfold overflow_view; by rewrite Hf2).
  assert (Den : v_blocks (evac_open_v self w) ## v_blocks (normal_v self w))
    by (intros b Hb1 Hb2; apply (Dne b Hb2); unfold evac_v; by rewrite closed_blocks).
  assert (Deo : v_blocks (evac_open_v self w) ## v_blocks (overflow_v self w))
    by (intros b Hb1 Hb2; apply (Doe b Hb2); unfold evac_v; by rewrite closed_blocks).
  setoid_rewrite evac_free_open. rewrite En, Eo.
  destruct (free3_step _ _ _ w _ w' _ _ _ r size Hw He P Hn Den Ho Deo) as [Hsub Hreg].
  destruct (progress_other _ _ w _ w' _ _ Hw He P Hn Den) as (Hn' & Den' & _ & _).
  destruct (progress_other _ _ w _ w' _ _ Hw He P Ho Deo) as (Ho' & Deo' & _ & _).
  pose proof P as [Hw' Hle He' Hfree _].
  split_and!; [|done|done|].
  - constructor; [|exact He']. constructor; rewrite ?En, ?Eo; try done; [by apply closed_ok|..|by eapply covers_le];
      intros b Hb1; unfold evac_v; rewrite closed_blocks; intros Hb2; [by apply (Den' b)|by apply (Deo' b)].
  - destruct Hr as [[-> [_ Hex]]|(Hr1 & Hr2 & Hr3)]; [by left|right]. split_and!; try done. by apply Hreg.
Qed.

Lemma evac_ok_words self w s : headers s = headers (w_store w) → evac_ok self w → evac_ok self (mkWorld (w_ba w) s (w_tls w)).
Proof.
  intros E [Hs Ho]. constructor; [by apply space_ok_words|]. destruct w as [ba [h ws] t], s as [h' ws']. cbn in E. subst. by destruct Ho.
Qed.

Lemma evac_free_words self w s x : headers s = headers (w_store w) →
  evac_free self (mkWorld (w_ba w) s (w_tls w)) x ↔ evac_free self w x.
Proof. destruct w as [ba [h ws] t], s as [h' ws']. cbn. by intros ->. Qed.

(** Without a current block there is no difference. *)
Lemma evac_idle self w : e_current_block (evac_allocator self) = None → (space_ok self w → evac_ok self w) ∧
  ∀ x, evac_free self w x → free_space self w x.
Proof.
  intros Hc. assert (E : evac_v self w = evac_open_v self w).
  { unfold evac_v, closed_view, evac_open_v, cur_block. cbn. unfold evac_view. by rewrite Hc, app_nil_r. }
  split; [intros Hok; constructor; [done|rewrite <- E; apply Hok]|]. intros x [Hx|Hx]; [done|]. right. right. left. by rewrite E.
Qed.

Lemma object_size_mod rtti_of s addr n : object_size_at rtti_of s addr = Ok n → n mod 16 = 0.
Proof.
  unfold object_size_at, RawGc.object_size, Rounding.align_usize. intros E. ok_inv.
  rewrite decide_False in E by lia. ok_inv. unfold u_mul in E. case_decide; [|done]. ok_inv.
  apply Z.mod_mul. lia.
Qed.

Definition pinned (w : World) (addr : Z) : bool := hd_pinned (decode (word (w_store w) addr)).
Definition candidate (w : World) (addr : Z) : bool :=
  evacuation_candidate (header (w_store w) (Block.get_block_ptr addr)).

(** [maybe_evacuate] on an object of [n] bytes. *)
Lemma maybe_evacuate_ok rtti_of self w addr n : evac_ok self w → header_wf (word (w_store w) addr) →
  object_size_at rtti_of (w_store w) addr = Ok n → 0 < n <= 32639 →
  (∀ x, addr <= x < addr + n → ¬ evac_free self w x) →
  ∃ r self' w', maybe_evacuate rtti_of self w addr = Ok (r, self', w') ∧ evac_ok self' w' ∧
    (mmap (w_ba w') = mmap (w_ba w) ∧ data_bound (w_ba w') = data_bound (w_ba w)) ∧
    (∀ x, evac_free self' w' x → evac_free self w x) ∧
    match r with
    | None => words (w_store w') = words (w_store w) ∧ bitmap self' = bitmap self ∧
        (pinned w addr = true ∨ candidate w addr = false ∨ evac_headroom self' = 0)
    | Some new_object =>
        pinned w addr = false ∧ candidate w addr = true ∧
        region_moved self w self' w' new_object n ∧ apart (addr, n) (new_object, n) ∧
        (∀ a, word (w_store w') a =
           if decide (new_object <= a < new_object + n ∧ (a - new_object) mod 8 = 0)
           then word (w_store w) (addr + (a - new_object)) else word (w_store w) a) ∧
        Space.marked (bitmap self') (Space.granule 16 (bitmap self) new_object) = true
    end.
Proof.
  intros Hok Hh Hn Hsz Hused. unfold maybe_evacuate. rewrite HeaderFacts.is_pinned_ok, bind_Ok by done.
  fold (pinned w addr) (candidate w addr).
  destruct (pinned w addr || negb (candidate w addr)) eqn:Eg.
  { exists None, self, w. split_and!; try done. apply orb_true_iff in Eg as [?|?%negb_true_iff]; tauto. }
  apply orb_false_iff in Eg as [Ep Ec%negb_false_iff].
  pose proof (object_size_mod rtti_of (w_store w) addr n Hn) as Hm.
  rewrite Hn, bind_Ok, Rounding.align_usize_aligned, bind_Ok by lia.
  destruct (evac_allocate_ok self w n Hok Hsz Hm) as (r & e & w1 & -> & Hok1 & Hle & Hsub & Hr). rewrite bind_Ok.
  unfold Address.is_non_null. destruct (bool_decide (r ≠ 0)) eqn:Er; cycle 1.
  { apply bool_decide_eq_false in Er. exists None, (set_evac self e), w1. split_and!; try done; [apply (le_mmap _ _ Hle)..|apply Hle|].
    right. right. destruct Hr as [[_ Hr]|[? _]]; [|lia]. unfold evac_headroom, Evac.evac_headroom. cbn. by rewrite Hr. }
  apply bool_decide_eq_true in Er. destruct Hr as [[-> _]|Hr]; [done|].
  pose proof Hr as (_ & _ & Hr3). destruct (Hr3 r ltac:(lia)) as (Hrange & _). pose proof Hle as [[Em Ed] _ _ Ew].
  destruct (set_gc_object_ok (set_evac self e) w1 r (so_bitmap _ _ (eo_space _ _ Hok1))) as (bm & -> & Hc & Hsh & Hmk);
    [rewrite Em, Ed; lia|]. rewrite bind_Ok.
  exists (Some r), (set_bitmap (set_evac self e) bm),
    (mkWorld (w_ba w1) (copy_words (w_store w1) addr r n) (w_tls w1)).
  pose proof (copy_words_headers (w_store w1) addr r n) as Eh.
  assert (Hfw : ∀ x, evac_free (set_bitmap (set_evac self e) bm)
      (mkWorld (w_ba w1) (copy_words (w_store w1) addr r n) (w_tls w1)) x ↔ evac_free (set_evac self e) w1 x).
  { intros x. rewrite (evac_free_words _ w1) by done. done. }
  split_and!; try done.
  - apply evac_ok_words; [done|]. destruct Hok1 as [Hs1 Ho1]. constructor; [by apply space_ok_bitmap|exact Ho1].
  - intros x. rewrite Hfw. auto.
  - split_and!; [apply Hr..|]. intros x Hx. rewrite Hfw. by apply Hr3.
  - unfold apart. cbn. destruct (decide (addr + n <= r ∨ r + n <= addr)) as [|C]; [tauto|exfalso].
    apply (Hused (Z.max addr r) ltac:(lia)). apply Hr3. lia.
  - intros a. cbn [w_store]. rewrite copy_words_word by lia. unfold word at 1 2. rewrite Ew.
    replace (n / 8 * 8) with n by (Z.div_mod_to_equations; lia). done.
  - rewrite Hmk; [by rewrite decide_True|]. apply Z.div_pos; [|lia].
    destruct (so_bitmap _ _ (eo_space _ _ Hok)) as (_ & Hb & _). cbn. lia.
Qed.

(** [filter] on an address other than the end of the heap. *)
Lemma filter_ok self w addr : space_ok self w → 0 <= addr < 2 ^ 63 → addr ≠ data_bound (w_ba w) →
  filter self w addr = Ok (if decide (addr mod 16 = 0 ∧ mm_start (mmap (w_ba w)) < addr < data_bound (w_ba w) ∧
                             Space.marked (bitmap self) (Space.granule 16 (bitmap self) addr) = true)
                           then Some addr else None).
Proof.
  intros Hok Ha Hne. unfold filter, BA.is_in_space. destruct (decide (addr mod 16 ≠ 0)) as [E|E].
  { by rewrite decide_False by tauto. }
  do 2 case_bool_decide; cbn; try (rewrite decide_False by lia; done).
  pose proof (so_bitmap _ _ Hok) as Hc. destruct (covers_granule _ _ addr Hc) as [Hb Hg]; [lia|].
  destruct (so_world _ _ Hok) as [[Hst _ _ _ _] _ _]. destruct Hc as (_ & Hbeg & _).
  rewrite Space.test_ok by lia. rewrite bind_Ok. f_equal.
  destruct (Space.marked _ _); [rewrite decide_True by lia|rewrite decide_False by (intros (_ & _ & ?); done)]; done.
Qed.

End Methods.

(** ** Properties *)

(** On a consistent space [allocate] of a small object (a multiple of 16 below
    [LARGE_OBJECT]) never panics and keeps the invariant.  It either returns null,
    when no block is left, or a 16-byte aligned address whose region was free, lies
    inside the mapping, in unmarked lines and behind the block header, and is not
    free afterwards; nothing becomes free, no object and no line mark is written,
    and exactly the start of the new object is entered in the bitmap. *)
Theorem allocate_correct `{Cfg} self w size : space_ok self w → small_size size →
  ∃ r self' w', allocate self w size = Ok (r, self', w') ∧ space_ok self' w' ∧ world_le w w' ∧
    (∀ x, free_space self' w' x → free_space self w x) ∧
    (r = 0 ∧ (∀ b, ¬ BA.available (w_ba w') b) ∧ bitmap self' = bitmap self ∨
     region_taken self w self' w' r size ∧ Space.same_shape (bitmap self) (bitmap self') ∧
     ∀ g, 0 <= g → Space.marked (bitmap self') g =
       if decide (g = Space.granule 16 (bitmap self) r) then true else Space.marked (bitmap self) g).
Proof. intros Hok [Hs Hm]%small_size_bound. by apply allocate_ok. Qed.

(** The space used in the witnesses: 4 KiB and two blocks mapped at 28672. *)
Definition sample_space : R (ImmixSpace * World) := new 28672 (4096 + 2 * 32768).

Lemma sample_space_ok `{Cfg} : ∃ self w, sample_space = Ok (self, w) ∧ space_ok self w.
Proof.
  destruct (new_ok 28672 (4096 + 2 * 32768)) as (self & w & E & Hok & _); [lia|done|lia|done|]. eauto.
Qed.

Lemma allocate_correct_witness : let _ : Cfg := false in
  ∃ self w r self' w', sample_space = Ok (self, w) ∧ allocate self w 48 = Ok (r, self', w') ∧ r = 32768 + 128 ∧
    space_ok self' w'.
Proof.
  intros cfg. destruct sample_space_ok as (self & w & E & Hok). exists self, w.
  destruct (allocate_correct self w 48 Hok) as (r & self' & w' & Ea & Hok' & _); [done|].
  exists r, self', w'. split; [exact E|]. split; [exact Ea|]. split; [|exact Hok'].
  vm_compute in E. injection E as <- <-. clear - Ea.
  assert (Er : (λ x, x.1.1) <$> allocate _ _ 48 = Ok r) by (by rewrite Ea). clear Ea.
  vm_compute in Er. by injection Er as <-.
Defined.

(** C3: Objects never overlap: any sequence of small allocations, of whatever sizes and
    spread over the normal and the overflow allocator, succeeds without panic and
    returns regions that are aligned, inside the mapping and pairwise disjoint (null
    results aside). *)
Theorem allocations_disjoint `{Cfg} sizes self w : space_ok self w → Forall small_size sizes →
  ∃ rs self' w', allocate_all self w sizes = Ok (rs, self', w') ∧ space_ok self' w' ∧
    rs.*2 = sizes ∧ Forall (region_of self w) rs ∧ List.ForallOrdPairs apart rs.
Proof.
  intros Hok Hs. destruct (allocate_all_ok sizes self w Hok Hs) as (rs & self' & w' & ? & ? & _ & ? & ? & ?).
  by exists rs, self', w'.
Qed.

Lemma allocations_disjoint_witness : let _ : Cfg := false in
  ∃ self w rs self' w', sample_space = Ok (self, w) ∧
    allocate_all self w [48; 256; 4096; 16] = Ok (rs, self', w') ∧
    rs = [(32896, 48); (65664, 256); (65920, 4096); (32944, 16)] ∧ List.ForallOrdPairs apart rs.
Proof.
  intros cfg. destruct sample_space_ok as (self & w & E & Hok). exists self, w.
  destruct (allocations_disjoint [48; 256; 4096; 16] self w Hok) as (rs & self' & w' & Ea & _ & _ & _ & Hd);
    [vm_decide|].
  exists rs, self', w'. split; [exact E|]. split; [exact Ea|]. split; [|exact Hd].
  vm_compute in E. injection E as <- <-. clear - Ea.
  assert (Er : (λ x, x.1.1) <$> allocate_all _ _ [48; 256; 4096; 16] = Ok rs) by (by rewrite Ea). clear Ea.
  vm_compute in Er. by injection Er as <-.
Defined.

(** [filter] recognises exactly the object starts: for every address except the
    end of the heap it returns the address if it is 16-byte aligned, inside the
    mapping and entered in the bitmap, and [None] otherwise. *)
Theorem filter_correct `{Cfg} self w addr :
  space_ok self w → 0 <= addr < 2 ^ 63 → addr ≠ data_bound (w_ba w) →
  filter self w addr = Ok (if decide (addr mod 16 = 0 ∧ mm_start (mmap (w_ba w)) < addr < data_bound (w_ba w) ∧
                             Space.marked (bitmap self) (Space.granule 16 (bitmap self) addr) = true)
                           then Some addr else None).
Proof. apply filter_ok. Qed.

Lemma filter_correct_witness : let _ : Cfg := false in
  ∃ self w, sample_space = Ok (self, w) ∧ filter self w 32896 = Ok None.
Proof.
  intros cfg. destruct sample_space_ok as (self & w & E & Hok). exists self, w. split; [exact E|].
  rewrite (filter_correct self w 32896 Hok); [|lia|]; vm_compute in E; injection E as <- <-; [reflexivity|discriminate].
Defined.

(** At the very end of the heap [filter] reads outside the bitmap: the block
    allocator counts the end address as inside the space, and in a new space the
    bitmap has no granule for it. *)
Theorem filter_end_of_heap_oob `{Cfg} map heap_size self w :
  0 <= map → BLOCK_SIZE <= heap_size → map + heap_size < 2 ^ 63 → map mod 16 = 0 → heap_size mod 2048 = 0 →
  new map heap_size = Ok (self, w) → filter self w (map + heap_size) = Panic BadAccess.
Proof.
  intros Hm Hs Hb Hal Hmod E. destruct (new_ok map heap_size Hm Hs Hb Hmod) as (self' & w' & E' & Hok & _ & _ & Est & Ebd & _).
  rewrite E in E'. injection E' as <- <-. consts.
  assert (Hg : Space.granules (bitmap self) * 16 = heap_size).
  { unfold new in E. ok_inv. unfold Space.create in E1. rewrite bitmap_size_ok, bind_Ok in E1 by lia.
    assert (32 <= heap_size / 1024) by (apply Z.div_le_lower_bound; lia).
    rewrite decide_False in E1 by lia. unfold Space.create_from_memmap in E1.
    rewrite bitmap_size_ok, bind_Ok in E1 by lia. ok_inv. cbn. unfold Space.granules, Words.capacity. cbn.
    rewrite length_replicate. unfold word_bytes. Z.div_mod_to_equations. lia. }
  destruct (so_bitmap _ _ Hok) as (_ & Hbeg & _).
  unfold filter, BA.is_in_space. rewrite decide_False by (Z.div_mod_to_equations; lia).
  rewrite !bool_decide_eq_true_2 by lia. cbn.
  rewrite Space.test_oob; [done|lia..|]. unfold Space.granule. rewrite Hbeg, Est. apply Z.div_le_lower_bound; lia.
Qed.

Lemma filter_end_of_heap_oob_witness : let _ : Cfg := false in
  ∃ self w, new 28672 69632 = Ok (self, w) ∧ filter self w 98304 = Panic BadAccess.
Proof.
  intros cfg. destruct (new_ok 28672 69632) as (self & w & E & _); [lia|done|lia|done|].
  exists self, w. split; [exact E|].
  apply (filter_end_of_heap_oob 28672 69632 self w); [lia|done|lia|done|done|exact E].
Defined.

(** [maybe_evacuate] moves an object only if it is not pinned and its block is a
    candidate.  Then the copy lies in space that was free, apart from the original,
    every word of it equals the original's, all other words are unchanged and the
    copy is entered in the bitmap; otherwise no word and no bitmap entry changes.
    The invariant of the space holds again in both cases. *)
Theorem maybe_evacuate_correct `{Cfg} rtti_of self w addr n :
  evac_ok self w → header_wf (word (w_store w) addr) →
  object_size_at rtti_of (w_store w) addr = Ok n → 0 < n <= 32639 →
  (∀ x, addr <= x < addr + n → ¬ evac_free self w x) →
  ∃ r self' w', maybe_evacuate rtti_of self w addr = Ok (r, self', w') ∧ evac_ok self' w' ∧
    (mmap (w_ba w') = mmap (w_ba w) ∧ data_bound (w_ba w') = data_bound (w_ba w)) ∧
    (∀ x, evac_free self' w' x → evac_free self w x) ∧
    match r with
    | None => words (w_store w') = words (w_store w) ∧ bitmap self' = bitmap self ∧
        (pinned w addr = true ∨ candidate w addr = false ∨ evac_headroom self' = 0)
    | Some new_object =>
        pinned w addr = false ∧ candidate w addr = true ∧
        region_moved self w self' w' new_object n ∧ apart (addr, n) (new_object, n) ∧
        (∀ a, word (w_store w') a =
           if decide (new_object <= a < new_object + n ∧ (a - new_object) mod 8 = 0)
           then word (w_store w) (addr + (a - new_object)) else word (w_store w) a) ∧
        Space.marked (bitmap self') (Space.granule 16 (bitmap self) new_object) = true
    end.
Proof. apply maybe_evacuate_ok. Qed.

(** A space whose only full block is a candidate, with one block of headroom. *)
Definition evac_sample : ImmixSpace :=
  mkSpace (mkSpaceBitmap (replicate 68 0) 544 28672 98304)
    (mkNormal [32768] [] None) Overflow.new (mkEvac [] [65536] None) false.
Definition evac_sample_world : World :=
  mkWorld (mkBA [] 98304 98304 (mkMmap 28672 98304 69632))
    (mkStore {[32768 := mkBlock [0; 0; 0; 0] true 0 true]} {[32896 := 8; 32904 := 7]}) (mkTLS None None).

Lemma evac_sample_unavailable b : ¬ BA.available (w_ba evac_sample_world) b.
Proof. intros [Hb|Hb]; [by apply not_elem_of_nil in Hb|]. cbn in Hb. consts. lia. Qed.

Lemma evac_sample_ok : let _ : Cfg := false in space_ok evac_sample evac_sample_world.
Proof.
  intros cfg. assert (Hh : ∀ b, line_map (header (w_store evac_sample_world) b) = [0; 0; 0; 0]).
  { intros b. unfold header. cbn. destruct (decide (b = 32768)) as [->|]; [by rewrite lookup_singleton_eq|].
    by rewrite lookup_singleton_ne. }
  assert (Hr : ∀ b, b = 32768 ∨ b = 65536 → BA.in_range (w_ba evac_sample_world) b).
  { intros b [->| ->]; split; [done|split; vm_compute; discriminate|done|split; vm_compute; discriminate]. }
  pose proof evac_sample_unavailable as Hu.
  constructor; unfold normal_v, overflow_v, evac_v; cbn -[evac_sample_world].
  - constructor.
    + constructor; cbn; try lia; [split; [done|split; vm_compute; discriminate]|constructor|].
      intros b Hb. by apply not_elem_of_nil in Hb.
    + intros b. split; rewrite Hh; [done|]. apply (Words.wf_zeros 4).
    + intros b Hb. by apply Hu in Hb.
  - constructor; [done|by apply NoDup_singleton| |done].
    intros b Hb%list_elem_of_singleton. split; [apply Hr; by left|apply Hu].
  - constructor; [done|constructor| |done]. intros b Hb. by apply not_elem_of_nil in Hb.
  - constructor; [done|by apply NoDup_singleton| |].
    + intros b Hb%list_elem_of_singleton. split; [apply Hr; by right|apply Hu].
    + intros _ b _ l. unfold marked_line, line_bit. rewrite Hh. apply (Words.bit_zeros 4).
  - intros b _ Hb. by apply not_elem_of_nil in Hb.
  - intros b Hb1%list_elem_of_singleton Hb2%list_elem_of_singleton. congruence.
  - intros b Hb. by apply not_elem_of_nil in Hb.
  - split_and!; [apply (Words.wf_zeros 68)|done|vm_compute; discriminate].
Qed.

Lemma maybe_evacuate_correct_witness : let _ : Cfg := false in
  ∃ self' w', maybe_evacuate (λ _, rtti_for_prim 8) evac_sample evac_sample_world 32896
    = Ok (Some 65664, self', w') ∧ word (w_store w') 65672 = 7.
Proof.
  intros cfg.
  destruct (maybe_evacuate_correct (λ _, rtti_for_prim 8) evac_sample evac_sample_world 32896 16)
    as (r & self' & w' & E & _ & _ & _ & Hr).
  - apply (evac_idle evac_sample); [reflexivity|apply evac_sample_ok].
  - split; [split; [discriminate|reflexivity]|discriminate].
  - reflexivity.
  - lia.
  - intros x Hx Hf. apply (evac_idle evac_sample) in Hf; [|reflexivity]. revert Hf. intros [[(b & low & high & [=] & _)|(b & Hb & _)]|[[(b & low & high & [=] & _)|(b & Hb & _)]|
      [[(b & low & high & [=] & _)|(b & Hb%list_elem_of_singleton & [Hs _])]|(b & Hb & _)]]];
      try (by apply not_elem_of_nil in Hb); [lia|]. by apply evac_sample_unavailable in Hb.
  - exists self', w'. assert (Er : (λ x, x.1.1) <$> maybe_evacuate (λ _, rtti_for_prim 8) evac_sample evac_sample_world 32896
      = Ok r) by (by rewrite E). vm_compute in Er. injection Er as <-. split; [exact E|].
    destruct Hr as (_ & _ & _ & _ & Hw & _). rewrite Hw. reflexivity.
Defined.

End ImmixSpaceM.
