(* ===== verification/Threads.v ===== *)
(** * Several threads allocating

    In a build with the feature [threaded] every thread has its own current blocks and
    all share the block allocator, the memory, the bitmap and the vectors of the
    allocators.  [Shared] is that state; the world a thread works in is the shared part
    with its own blocks.  One call of [allocate] is one step: what it does with the
    shared vectors is a pop or a push under their locks. *)

From stdpp Require Import functions base numbers list list_numbers gmap.
From Stdlib Require Import ZArith Lia.
From S2P Require Import Prelude Util Constants Bitmap Block SpaceBitmap Object BlockAllocator.
From S2P Require Import Allocation AllocatorLaws Allocators ImmixSpace.
Import ImmixSpaceM.
Local Open Scope Z_scope.

Record Shared : Type := mkShared {
  t_space : ImmixSpace;
  t_ba : BlockAllocator;
  t_store : Store;
  t_tls : nat → TLSBlocks
}.

(** What thread [t] sees. *)
Definition world_of (s : Shared) (t : nat) : World := mkWorld (t_ba s) (t_store s) (t_tls s t).

(** The state after thread [t] has worked in its world. *)
Definition back (s : Shared) (t : nat) (sp : ImmixSpace) (w : World) : Shared :=
  mkShared sp (w_ba w) (w_store w) (<[t := w_tls w]> (t_tls s)).

Section Allocate.
Context `{Cfg}.

Definition thread_allocate (s : Shared) (t : nat) (size : Z) : R (Z * Shared) :=
  '(r, sp, w) ← ImmixSpaceM.allocate (t_space s) (world_of s t) size;
  Ok (r, back s t sp w).

(** Allocations by threads in the given order; each address with its size. *)
Fixpoint run (s : Shared) (calls : list (nat * Z)) : R (list (Z * Z) * Shared) :=
  match calls with
  | [] => Ok ([], s)
  | (t, n) :: calls' =>
      '(r, s1) ← thread_allocate s t n;
      '(rs, s2) ← run s1 calls';
      Ok ((r, n) :: rs, s2)
  end.

(** ** Invariant *)

Definition tuple_block (o : option BlockTuple) : list Z := (λ b : BlockTuple, b.1.1) <$> option_list o.
(** The blocks that only thread [t] has. *)
Definition own_blocks (tls : TLSBlocks) : list Z :=
  tuple_block (tls_current_block tls) ++ tuple_block (tls_current_ovf_block tls).

Record threads_ok (s : Shared) : Prop := {
  th_space t : space_ok (t_space s) (world_of s t);
  th_own t u : t ≠ u → own_blocks (t_tls s t) ## own_blocks (t_tls s u)
}.

(** Memory some thread may still be given. *)
Definition free_for_some (s : Shared) (x : Z) : Prop := ∃ t, free_space (t_space s) (world_of s t) x.

Context (Hth : threaded = true).

(** Blocks of a view: those of the thread, then the shared ones. *)
Lemma normal_blocks sp w :
  v_blocks (normal_v sp w) = tuple_block (tls_current_block (w_tls w)) ++
    n_recyclable_blocks (allocator sp) ++ n_unavailable_blocks (allocator sp).
Proof. unfold normal_v. cbn. unfold normal_view, v_blocks, cur_block. by rewrite Hth. Qed.

Lemma overflow_blocks sp w :
  v_blocks (overflow_v sp w) = tuple_block (tls_current_ovf_block (w_tls w)) ++
    o_unavailable_blocks (overflow_allocator sp).
Proof. unfold overflow_v. cbn. unfold overflow_view, v_blocks, cur_block. by rewrite Hth. Qed.

Lemma own_held sp w b : b ∈ own_blocks (w_tls w) → held sp w b.
Proof. unfold held, own_blocks. rewrite normal_blocks, overflow_blocks, !elem_of_app. tauto. Qed.

(** The blocks every thread sees. *)
Definition evac_blocks (sp : ImmixSpace) : list Z := v_blocks (ImmixSpaceM.closed_view (evac_view (evac_allocator sp) (mkWorld (mkBA [] 0 0 (mkMmap 0 0 0)) (mkStore ∅ ∅) (mkTLS None None)))).
Definition common (sp : ImmixSpace) (b : Z) : Prop :=
  b ∈ n_recyclable_blocks (allocator sp) ++ n_unavailable_blocks (allocator sp) ∨
  b ∈ o_unavailable_blocks (overflow_allocator sp) ∨ b ∈ evac_blocks sp.

Lemma held_iff sp w b : held sp w b ↔ b ∈ own_blocks (w_tls w) ∨ common sp b.
Proof.
  unfold held, own_blocks, common. change (v_blocks (evac_v sp w)) with (evac_blocks sp).
  rewrite normal_blocks, overflow_blocks, !elem_of_app. tauto.
Qed.

Lemma own_facts sp w b : space_ok sp w → b ∈ own_blocks (w_tls w) →
  ¬ common sp b ∧ BA.in_range (w_ba w) b ∧ ¬ BA.available (w_ba w) b.
Proof.
  intros [_ Hn Ho _ Dno Dne Doe _]. unfold own_blocks, common. rewrite elem_of_app.
  pose proof (vo_nodup _ _ _ Hn) as Nn. pose proof (vo_nodup _ _ _ Ho) as No.
  pose proof (vo_range _ _ _ Hn b) as Rn. pose proof (vo_range _ _ _ Ho b) as Ro.
  specialize (Dno b). specialize (Dne b). specialize (Doe b).
  change (v_blocks (evac_v sp w)) with (evac_blocks sp) in *.
  rewrite normal_blocks in *. rewrite overflow_blocks in *.
  apply NoDup_app in Nn as (_ & Nn & _). apply NoDup_app in No as (_ & No & _). specialize (Nn b). specialize (No b).
  rewrite !elem_of_app in *. tauto.
Qed.

(** A space in order for one thread is in order for another whose own blocks are. *)
Lemma space_ok_other sp w tls : space_ok sp w →
  (∀ tp, tls_current_block tls = Some tp ∨ tls_current_ovf_block tls = Some tp → tuple_ok w tp) →
  NoDup (own_blocks tls) →
  (∀ b, b ∈ own_blocks tls → ¬ common sp b ∧ BA.in_range (w_ba w) b ∧ ¬ BA.available (w_ba w) b) →
  space_ok sp (mkWorld (w_ba w) (w_store w) tls).
Proof.
  intros [[Hba Hwf Hfr] Hn Ho He Dno Dne Doe Hbm] Ht Hnd Hown. set (w' := mkWorld (w_ba w) (w_store w) tls).
  assert (Ev : ∀ tp, tuple_ok w tp → tuple_ok w' tp) by (intros [[b lo] hi]; exact id).
  apply NoDup_app in Hnd as (N1 & N2 & N3). unfold own_blocks, common in Hown.
  pose proof (vo_nodup _ _ _ Hn) as Nn. pose proof (vo_nodup _ _ _ Ho) as No.
  pose proof (vo_range _ _ _ Hn) as Rn. pose proof (vo_range _ _ _ Ho) as Ro.
  change (v_blocks (evac_v sp w)) with (evac_blocks sp) in *.
  rewrite normal_blocks in Dno, Dne, Nn, Rn. rewrite overflow_blocks in Dno, Doe, No, Ro.
  apply NoDup_app in Nn as (_ & _ & Nn). apply NoDup_app in No as (_ & _ & No).
  constructor.
  - by constructor.
  - constructor.
    + unfold normal_v. cbn. unfold normal_view. rewrite Hth. intros tp E. apply Ev, Ht. by left.
    + rewrite normal_blocks. apply NoDup_app. split_and!; [done| |done].
      intros b Hb Hc. destruct (Hown b) as [Hno _]; [rewrite elem_of_app; by left|]. tauto.
    + intros b. rewrite normal_blocks. rewrite elem_of_app. intros [Hb|Hb].
      * destruct (Hown b) as [_ Hr]; [rewrite elem_of_app; by left|done].
      * apply Rn. rewrite elem_of_app. by right.
    + done.
  - constructor.
    + unfold overflow_v. cbn. unfold overflow_view. rewrite Hth. intros tp E. apply Ev, Ht. by right.
    + rewrite overflow_blocks. apply NoDup_app. split_and!; [done| |done].
      intros b Hb Hc. destruct (Hown b) as [Hno _]; [rewrite elem_of_app; by right|]. tauto.
    + intros b. rewrite overflow_blocks. rewrite elem_of_app. intros [Hb|Hb].
      * destruct (Hown b) as [_ Hr]; [rewrite elem_of_app; by right|done].
      * apply Ro. rewrite elem_of_app. by right.
    + done.
  - destruct He as [E1 E2 E3 E4]. constructor; [|done|done|done]. intros tp E. apply Ev. by apply E1.
  - intros b. rewrite normal_blocks, overflow_blocks. cbn [w_tls w']. specialize (Dno b). specialize (Hown b). specialize (N2 b).
    rewrite !elem_of_app in *. tauto.
  - intros b. change (v_blocks (evac_v sp w')) with (evac_blocks sp). rewrite normal_blocks. cbn [w_tls w'].
    specialize (Dne b). specialize (Hown b). rewrite !elem_of_app in *. tauto.
  - intros b. change (v_blocks (evac_v sp w')) with (evac_blocks sp). rewrite overflow_blocks. cbn [w_tls w'].
    specialize (Doe b). specialize (Hown b). rewrite !elem_of_app in *. tauto.
  - done.
Qed.

Lemma own_shape sp w : space_ok sp w → NoDup (own_blocks (w_tls w)) ∧
  ∀ tp, tls_current_block (w_tls w) = Some tp ∨ tls_current_ovf_block (w_tls w) = Some tp → tuple_ok w tp.
Proof.
  intros [_ Hn Ho _ Dno _ _ _]. split.
  - pose proof (vo_nodup _ _ _ Hn) as Nn. pose proof (vo_nodup _ _ _ Ho) as No.
    rewrite normal_blocks in *. rewrite overflow_blocks in *.
    apply NoDup_app in Nn as (Nn & _). apply NoDup_app in No as (No & _). unfold own_blocks. apply NoDup_app.
    split_and!; [done| |done]. intros b Hb Hb'. apply (Dno b); rewrite elem_of_app; by left.
  - intros tp [E|E]; [apply (vo_cur _ _ _ Hn)|apply (vo_cur _ _ _ Ho)]; unfold normal_v, overflow_v; cbn;
      unfold normal_view, overflow_view; by rewrite Hth.
Qed.

(** The free memory of a thread: that of its own blocks, and what all threads share. *)
Definition own_free (w : World) (x : Z) : Prop := ∃ b low high,
  (tls_current_block (w_tls w) = Some (b, low, high) ∨ tls_current_ovf_block (w_tls w) = Some (b, low, high)) ∧
  in_span w b low x.
Definition common_free (sp : ImmixSpace) (w : World) (x : Z) : Prop :=
  (∃ b, b ∈ n_recyclable_blocks (allocator sp) ∧ in_span w b 128 x) ∨ free_in_view w (evac_v sp w) x ∨
  ∃ b, BA.available (w_ba w) b ∧ in_span w b 128 x.

Lemma free_split sp w x : free_space sp w x ↔ own_free w x ∨ common_free sp w x.
Proof.
  unfold free_space, own_free, common_free. unfold free_in_view at 1 2. unfold normal_v, overflow_v. cbn.
  unfold normal_view, overflow_view. rewrite Hth. cbn. split.
  - intros [[(b & lo & hi & E & Hs)|Hp]|[[(b & lo & hi & E & Hs)|(b & Hb & _)]|Hr]]; [..|by apply not_elem_of_nil in Hb|];
      [left; exists b, lo, hi; tauto|tauto|left; exists b, lo, hi; tauto|tauto].
  - intros [(b & lo & hi & [E|E] & Hs)|Hr]; [left; left; eauto 10|right; left; left; eauto 10|tauto].
Qed.

(** Free memory lies in a block the thread holds or one that is available. *)
Lemma free_space_block sp w x : space_ok sp w → free_space sp w x →
  ∃ b, (held sp w b ∨ BA.available (w_ba w) b) ∧ BA.in_range (w_ba w) b ∧ in_span w b 128 x.
Proof.
  intros [Hw Hn Ho He _ _ _ _] [Hx|[Hx|[Hx|(b & Hb & Hs)]]].
  - destruct (free_in_view_block _ _ _ _ Hn Hx) as (b & ? & ? & _ & ?). exists b. unfold held. tauto.
  - destruct (free_in_view_block _ _ _ _ Ho Hx) as (b & ? & ? & _ & ?). exists b. unfold held. tauto.
  - destruct (free_in_view_block _ _ _ _ He Hx) as (b & ? & ? & _ & ?). exists b. unfold held. tauto.
  - exists b. split_and!; [by right|by apply available_range; [apply Hw|]|done].
Qed.

Lemma own_free_block sp w x : space_ok sp w → own_free w x →
  ∃ b, b ∈ own_blocks (w_tls w) ∧ BA.in_range (w_ba w) b ∧ in_span w b 128 x.
Proof.
  intros Hok (b & lo & hi & E & Hs). exists b.
  assert (Hb : b ∈ own_blocks (w_tls w)).
  { unfold own_blocks, tuple_block. rewrite elem_of_app. destruct E as [-> | ->]; cbn; [left|right]; left. }
  split_and!; [done|by eapply own_facts|]. eapply in_span_mono; [|exact Hs].
  destruct (own_shape sp w Hok) as [_ Ht]. destruct (Ht _ E) as [[? _] _]. done.
Qed.

(** A block of another thread is neither held by [t] nor available. *)
Lemma foreign_block s t u b : threads_ok s → t ≠ u → b ∈ own_blocks (t_tls s u) →
  ¬ (held (t_space s) (world_of s t) b ∨ BA.available (t_ba s) b).
Proof.
  intros [Hs Hd] Hne Hb. destruct (own_facts _ _ b (Hs u) Hb) as (Hc & _ & Ha). rewrite held_iff.
  intros [[?|?]|?]; [by apply (Hd t u Hne b)|done|done].
Qed.

Lemma thread_allocate_ok s t n : threads_ok s → small_size n →
  ∃ r s', thread_allocate s t n = Ok (r, s') ∧ threads_ok s' ∧
    mmap (t_ba s') = mmap (t_ba s) ∧ data_bound (t_ba s') = data_bound (t_ba s) ∧
    (∀ x, free_for_some s' x → free_for_some s x) ∧
    (r = 0 ∨ 0 < r ∧ r mod 16 = 0 ∧ ∀ x, r <= x < r + n →
       mm_start (mmap (t_ba s)) < x < data_bound (t_ba s) ∧ free_for_some s x ∧ ¬ free_for_some s' x).
Proof.
  intros Hok Hn. pose proof Hok as [Hsp Hd]. apply small_size_bound in Hn as [Hn1 Hn2].
  destruct (allocate_ok (t_space s) (world_of s t) n (Hsp t) Hn1 Hn2) as (r & sp & w & E & Hok' & Hle & Hsub & Hr).
  destruct (allocate_blocks _ _ _ _ _ _ (Hsp t) Hn1 Hn2 E) as [_ Hbl].
  unfold thread_allocate. rewrite E, bind_Ok. exists r, (back s t sp w). split; [done|].
  assert (Et : world_of (back s t sp w) t = w).
  { unfold world_of, back. cbn. rewrite fn_insert_eq, decide_True by done. by destruct w. }
  assert (Eu : ∀ u, u ≠ t → world_of (back s t sp w) u = mkWorld (w_ba w) (w_store w) (t_tls s u)).
  { intros u Hu. unfold world_of, back. cbn. by rewrite fn_insert_eq, decide_False. }
  assert (Hlu : ∀ u b lo x, in_span (mkWorld (w_ba w) (w_store w) (t_tls s u)) b lo x ↔ in_span (world_of s u) b lo x).
  { intros u b lo x. apply (in_span_le (world_of s t) w b lo x Hle). }
  assert (Hfor : ∀ u b, u ≠ t → b ∈ own_blocks (t_tls s u) →
    ¬ held sp w b ∧ BA.in_range (w_ba w) b ∧ ¬ BA.available (w_ba w) b).
  { intros u b Hu Hb. pose proof (foreign_block s t u b Hok (not_eq_sym Hu) Hb) as Hf. rewrite <- Hbl in Hf.
    destruct (own_facts _ _ b (Hsp u) Hb) as (_ & Hrg & _). split_and!; [tauto| |tauto].
    by apply (in_range_le (world_of s t) w). }
  assert (Hspu : ∀ u, u ≠ t → space_ok sp (world_of (back s t sp w) u)).
  { intros u Hu. rewrite Eu by done. destruct (own_shape _ _ (Hsp u)) as [Hnd Htp].
    apply space_ok_other; [done| |done|].
    - intros tp Htls. apply (tuple_ok_lines (world_of s t) w tp (le_lines _ _ Hle)). exact (Htp tp Htls).
    - intros b Hb. destruct (Hfor u b Hu Hb) as (Hh & Hrg & Ha). split_and!; [|done|done].
      intros Hc. apply Hh. apply held_iff. by right. }
  assert (Hcom : ∀ u x, u ≠ t → common_free sp (world_of (back s t sp w) u) x → common_free sp w x).
  { intros u x Hu. by rewrite Eu. }
  assert (Hown : ∀ u x, u ≠ t → own_free (world_of (back s t sp w) u) x → own_free (world_of s u) x).
  { intros u x Hu. rewrite Eu by done. intros (b & lo & hi & Ht' & Hs'). exists b, lo, hi. split; [done|by apply Hlu]. }
  split_and!; [constructor|apply Hle|apply Hle| |].
  - intros u. destruct (decide (u = t)) as [->|Hu]; [by rewrite Et|by apply Hspu].
  - assert (Ht : ∀ b u, u ≠ t → b ∈ own_blocks (w_tls w) → b ∈ own_blocks (t_tls s u) → False).
    { intros b u Hu H1 H2. destruct (Hfor u b Hu H2) as [Hh _]. apply Hh. apply held_iff. by left. }
    intros u v Huv b. unfold back. cbn. rewrite !fn_insert_eq. repeat case_decide; subst; try done; intros Hb1 Hb2.
    + by eapply Ht.
    + by eapply Ht.
    + by apply (Hd u v Huv b).
  - intros x (u & Hx). destruct (decide (u = t)) as [->|Hu].
    + rewrite Et in Hx. exists t. auto.
    + apply free_split in Hx as [Hx|Hx].
      * exists u. apply free_split. left. by apply Hown.
      * exists t. apply Hsub, free_split. right. by eapply Hcom.
  - destruct Hr as [(-> & _)|[(H0 & H16 & Hr) _]]; [by left|right]. split_and!; try done.
    intros x Hx. destruct (Hr x Hx) as (Hrg & Hf & Hnf). split_and!; try apply Hrg; [by exists t|].
    intros (u & Hux). destruct (decide (u = t)) as [->|Hu]; [by rewrite Et in Hux|].
    apply free_split in Hux as [Hux|Hux]; [|apply Hnf, free_split; right; by eapply Hcom].
    apply Hown in Hux; [|done]. destruct (own_free_block _ _ x (Hsp u) Hux) as (c & Hc & [Hca _] & Hcs).
    destruct (free_space_block _ _ x (Hsp t) Hf) as (b & Hb & [Hba _] & Hbs).
    assert (b = c) as -> by (eapply (span_block _ _ b c 128 128); [lia|lia|exact Hba|exact Hca|exact Hbs|exact Hcs]).
    by apply (foreign_block s t u c Hok (not_eq_sym Hu) Hc).
Qed.

(** ** Runs *)

(** A region of the mapping that was free, or the null of a failed allocation. *)
Definition region_for (s : Shared) (p : Z * Z) : Prop :=
  p.1 = 0 ∨ p.1 mod 16 = 0 ∧ mm_start (mmap (t_ba s)) < p.1 ∧ p.1 + p.2 <= data_bound (t_ba s) ∧
    ∀ x, p.1 <= x < p.1 + p.2 → free_for_some s x.

Lemma run_ok calls s : threads_ok s → Forall small_size calls.*2 →
  ∃ rs s', run s calls = Ok (rs, s') ∧ threads_ok s' ∧ rs.*2 = calls.*2 ∧
    Forall (region_for s) rs ∧ List.ForallOrdPairs apart rs.
Proof.
  revert s. induction calls as [|[t n] calls IH]; intros s Hok Hsz.
  { exists [], s. split_and!; try done; constructor. }
  rewrite fmap_cons in Hsz. apply Forall_cons in Hsz as [Hn Hsz]. cbn [run].
  destruct (thread_allocate_ok s t n Hok Hn) as (r & s1 & -> & Hok1 & Em & Ed & Hsub & Hr).
  rewrite bind_Ok. destruct (IH s1 Hok1 Hsz) as (rs & s2 & -> & Hok2 & Hmap & Hreg & Hap).
  rewrite bind_Ok. exists ((r, n) :: rs), s2. destruct Hn as [Hn _]. cbn [snd] in Hn.
  split_and!; [done|done|by rewrite !fmap_cons, Hmap|constructor|constructor; [|done]].
  - unfold region_for. cbn. destruct Hr as [->|(H0 & H16 & Hr)]; [by left|right].
    destruct (Hr r ltac:(lia)) as (B1 & _). destruct (Hr (r + n - 1) ltac:(lia)) as (B2 & _).
    split_and!; try lia. intros x Hx. by apply Hr.
  - eapply Forall_impl; [exact Hreg|]. unfold region_for. rewrite Em, Ed.
    intros q [Hq|(? & ? & ? & Hq)]; [by left|right]. split_and!; try done. auto.
  - apply List.Forall_forall. intros q Hq%list_elem_of_In. rewrite Forall_forall in Hreg. rewrite Forall_forall in Hsz.
    assert (Hq2 : 0 < q.2).
    { pose proof (list_elem_of_fmap_2 snd rs q Hq) as Hq2. rewrite Hmap in Hq2. destruct (Hsz _ Hq2) as [? _]. lia. }
    destruct (Hreg q Hq) as [E|(_ & _ & _ & Hfr)]; [by right; left|].
    destruct Hr as [->|(_ & _ & Hr)]; [by left|]. unfold apart. cbn.
    destruct (decide (r + n <= q.1 ∨ q.1 + q.2 <= r)) as [|C]; [tauto|exfalso].
    destruct (Hr (Z.max r q.1) ltac:(lia)) as (_ & _ & Hno). apply Hno, Hfr. lia.
Qed.

(** No thread has a block at the start. *)
Definition start (sp : ImmixSpace) (w : World) : Shared := mkShared sp (w_ba w) (w_store w) (λ _, mkTLS None None).

Lemma start_ok sp w : space_ok sp w → threads_ok (start sp w).
Proof.
  intros Hok. constructor.
  - intros t. apply space_ok_other; [done|by intros tp [?|?]|constructor|]. intros b Hb. by apply not_elem_of_nil in Hb.
  - intros t u _ b Hb. by apply not_elem_of_nil in Hb.
Qed.

End Allocate.

(** ** Properties *)

(** C8: Threads do not get each other's memory: whatever threads allocate in whatever
    order, with the current blocks of each in its thread-local state and all else
    shared, every call returns, and the regions they get are aligned, inside the
    mapping and pairwise disjoint (null results aside). *)
Theorem threads_allocations_disjoint `{Cfg} s calls : threaded = true → threads_ok s → Forall small_size calls.*2 →
  ∃ rs s', run s calls = Ok (rs, s') ∧ threads_ok s' ∧ rs.*2 = calls.*2 ∧
    Forall (region_for s) rs ∧ List.ForallOrdPairs apart rs.
Proof. intros Hth. by apply run_ok. Qed.

Lemma threads_allocations_disjoint_witness : let _ : Cfg := true in
  ∃ self w rs s', sample_space = Ok (self, w) ∧
    run (start self w) [(0%nat, 48); (1%nat, 48); (0%nat, 16); (1%nat, 4096)] = Ok (rs, s') ∧
    List.ForallOrdPairs apart rs.
Proof.
  intros cfg. destruct sample_space_ok as (self & w & E & Hok). exists self, w.
  destruct (threads_allocations_disjoint (start self w) [(0%nat, 48); (1%nat, 48); (0%nat, 16); (1%nat, 4096)])
    as (rs & s' & Er & _ & _ & _ & Hap); [reflexivity|by apply start_ok|vm_decide|].
  exists rs, s'. split; [exact E|]. split; [exact Er|exact Hap].
Defined.
