(* ===== verification/LargeObjectSpace.v ===== *)
(** * large_object_space.rs: large objects

    Every large object has its own [malloc]ed region with a [PreciseAllocation]
    header in front of the cell.  [pmem] is the memory of these headers, by header
    address; the words of the cells are in [mem].  What [libc::malloc] returns is an
    argument, and so is [freed_size], what the [cell_size] field of a header reads
    as after the region was given back.  Calls of finalizers are returned as a
    list. *)

From stdpp Require Import base numbers list list_numbers gmap sorting.
From Stdlib Require Import ZArith Lia.
From S2P Require Import Prelude Util Object.
Local Open Scope Z_scope.

Record PreciseAllocation : Type := mkPrecise {
  cell_size : Z;
  is_marked : bool;
  index_in_space : Z;
  adjusted_alignment : bool;
  has_valid_cell : bool
}.

Abbreviation pmem := (gmap Z PreciseAllocation).

(** Access to a header; a header that is not there is freed memory. *)
Definition pread (pm : pmem) (p : Z) : R PreciseAllocation :=
  match pm !! p with Some h => Ok h | None => Panic BadAccess end.

Module Precise.

Definition ALIGNMENT : Z := 16.
Definition HALF_ALIGNMENT : Z := ALIGNMENT / 2.
(** [size_of::<PreciseAllocation>()], a [#[repr(C)]] struct aligned to 8. *)
Definition size_of_PreciseAllocation : Z := 24.

Definition header_size : Z :=
  Z.lor (Z.land (size_of_PreciseAllocation + HALF_ALIGNMENT - 1) (u_not 64 (HALF_ALIGNMENT - 1))) HALF_ALIGNMENT.

Definition is_precise (raw_ptr : Z) : bool := bool_decide (Z.land raw_ptr HALF_ALIGNMENT ≠ 0).
Definition from_cell (ptr : Z) : Z := ptr - header_size.
Definition base_pointer (self : Z) (h : PreciseAllocation) : Z :=
  if adjusted_alignment h then self - HALF_ALIGNMENT else self.

Definition set_marked (h : PreciseAllocation) (m : bool) : PreciseAllocation :=
  mkPrecise (cell_size h) m (index_in_space h) (adjusted_alignment h) (has_valid_cell h).
Definition clear_marked (h : PreciseAllocation) : PreciseAllocation := set_marked h false.
Definition test_and_set_marked (h : PreciseAllocation) : bool * PreciseAllocation :=
  if is_marked h then (true, h) else (false, set_marked h true).
Definition flip (h : PreciseAllocation) : PreciseAllocation := clear_marked h.
Definition is_live (h : PreciseAllocation) : bool := is_marked h.
Definition is_empty (h : PreciseAllocation) : bool := negb (is_marked h).

Definition cell (self : Z) : Z := self + header_size.
Definition above_lower_bound (self raw_ptr : Z) : bool := bool_decide (cell self <= raw_ptr).
Definition below_upper_bound (self : Z) (h : PreciseAllocation) (raw_ptr : Z) : bool :=
  bool_decide (raw_ptr <= cell self + cell_size h + 8).
Definition contains (self : Z) (h : PreciseAllocation) (raw_ptr : Z) : bool :=
  above_lower_bound self raw_ptr && below_upper_bound self h raw_ptr.

Definition is_aligned_for_precise_allocation (m : Z) : bool := bool_decide (Z.land m (ALIGNMENT - 1) = 0).

(** [try_create]; [space] is the address [malloc] returned, 0 for a failure. *)
Definition try_create (space size index : Z) (pm : pmem) : R (Z * pmem) :=
  n ← u_add 64 header_size size;
  total ← u_add 64 n HALF_ALIGNMENT;
  if decide (2 ^ 63 <= total) then Panic UnwrapNone
  else if decide (space = 0) then Panic UnwrapNone
  else
    '(at_, adjusted) ←
      (if negb (is_aligned_for_precise_allocation space) then
         let space' := space + HALF_ALIGNMENT in
         if is_aligned_for_precise_allocation space' then Ok (space', true) else Panic AssertFailed
       else Ok (space, false));
    if decide (size = 0) then Panic AssertFailed
    else if is_precise (cell at_) then
      Ok (at_, <[at_ := mkPrecise size false index adjusted true]> pm)
    else Panic AssertFailed.

(** [destroy]: the region behind the header is freed. *)
Definition destroy (self : Z) (h : PreciseAllocation) (pm : pmem) : R pmem :=
  n ← u_add 64 header_size (cell_size h);
  total ← u_add 64 n HALF_ALIGNMENT;
  if decide (2 ^ 63 <= total) then Panic UnwrapNone else Ok (delete self pm).

Section Rtti.
Context (rtti_of : Z → GCRTTI).

(** [sweep]: retain? The finalizer of a dead cell is called. *)
Definition sweep (self : Z) (pm : pmem) (m : mem) : R (bool * pmem * list Z) :=
  h ← pread pm self;
  if has_valid_cell h && negb (is_live h) then
    let h' := mkPrecise (cell_size h) (is_marked h) (index_in_space h) (adjusted_alignment h) false in
    v ← RawGc.vtable (mem_read m (cell self));
    Ok (false, <[self := h']> pm, if finalizer (rtti_of v) then [cell self] else [])
  else Ok (true, pm, []).

End Rtti.

End Precise.

Record LargeObjectSpace : Type := mkLOS {
  allocations : list Z;
  los_live_mark : bool
}.

(** ** slice::binary_search *)

Fixpoint bsearch_loop (fuel : nat) (l : list Z) (x : Z) (base size : nat) : nat :=
  match fuel with
  | O => base
  | S fuel' =>
      if decide (1 < size)%nat then
        let half := (size / 2)%nat in
        let mid := (base + half)%nat in
        let base' := if decide (x < default 0 (l !! mid)) then base else mid in
        bsearch_loop fuel' l x base' (size - half)%nat
      else base
  end.

Definition binary_search (l : list Z) (x : Z) : option nat :=
  if decide (l = []) then None
  else let base := bsearch_loop (length l) l x 0 (length l) in
       if decide (l !! base = Some x) then Some base else None.

(** [sort_unstable] of a vector of addresses. *)
Definition sort_unstable : list Z → list Z := merge_sort Z.le.

Module LOS.
Import Precise.

Definition new : LargeObjectSpace := mkLOS [] false.

Definition contains (self : LargeObjectSpace) (pm : pmem) (p : Z) : R bool :=
  match allocations self with
  | [] => Ok false
  | first :: _ =>
      if above_lower_bound first p then
        let last := default first (list.last (allocations self)) in
        h ← pread pm last;
        if below_upper_bound last h p then
          Ok (match binary_search (allocations self) (from_cell p) with Some _ => true | None => false end)
        else Ok false
      else Ok false
  end.

(** [alloc]; [space] is the address [malloc] returned. *)
Definition alloc (self : LargeObjectSpace) (pm : pmem) (m : mem) (space size vtable : Z)
    : R (Z * LargeObjectSpace * pmem * mem) :=
  let ix := trunc 32 (Z.of_nat (length (allocations self))) in
  '(c, pm') ← try_create space size ix pm;
  let pushed := allocations self ++ [c] in
  last ← idx pushed (Z.of_nat (length pushed) - 1);
  first ← idx pushed 0;
  let sorted := if decide (c < last ∨ c < first) then sort_unstable pushed else pushed in
  let raw := cell c in
  '(_, h) ← RawGc.mark (RawGc.new vtable) (los_live_mark self);
  Ok (raw, mkLOS sorted (los_live_mark self), pm', <[raw := h]> m).

Section Sweep.
Context (rtti_of : Z → GCRTTI) (freed_size : Z → Z).

(** One step of [retain]: the vector so far, the bytes swept, the headers and the
    finalizer calls. *)
Definition sweep_step (m : mem) (st : list Z * Z * pmem * list Z) (ptr : Z) : R (list Z * Z * pmem * list Z) :=
  let '(kept, sweeped, pm, fins) := st in
  '(retain, pm1, fin) ← Precise.sweep rtti_of ptr pm m;
  if retain : bool then Ok (kept ++ [ptr], sweeped, pm1, fins ++ fin)
  else
    h ← pread pm1 ptr;
    pm2 ← destroy ptr h pm1;
    sweeped' ← u_add 64 sweeped (freed_size ptr);
    Ok (kept, sweeped', pm2, fins ++ fin).

Definition sweep (self : LargeObjectSpace) (pm : pmem) (m : mem)
    : R (Z * LargeObjectSpace * pmem * list Z) :=
  '(kept, sweeped, pm', fins) ← for_each (sweep_step m) (allocations self) ([], 0, pm, []);
  Ok (sweeped, mkLOS (sort_unstable kept) (los_live_mark self), pm', fins).

End Sweep.

(** [Drop]: the vector is popped from its end and every region freed. *)
Definition drop (self : LargeObjectSpace) (pm : pmem) : R pmem :=
  for_each (λ pm p, h ← pread pm p; destroy p h pm) (rev (allocations self)) pm.

(** ** Invariant *)

(** A header of the space: valid, of a size its region was allocated with, and with
    an object header in its cell. *)
Definition entry_ok (pm : pmem) (m : mem) (p : Z) : Prop :=
  ∃ h, pm !! p = Some h ∧ has_valid_cell h = true ∧ 0 <= cell_size h < 2 ^ 62 ∧
    header_wf (mem_read m (cell p)).

Definition los_wf (self : LargeObjectSpace) (pm : pmem) (m : mem) : Prop :=
  NoDup (allocations self) ∧ ∀ p, p ∈ allocations self → entry_ok pm m p.

Definition live (pm : pmem) (p : Z) : bool :=
  match pm !! p with Some h => is_live h | None => false end.
Definition dead (pm : pmem) (p : Z) : bool := negb (live pm p).

Definition fin_of (rtti_of : Z → GCRTTI) (m : mem) (p : Z) : list Z :=
  if finalizer (rtti_of (Bits.untagged (mem_read m (cell p)))) then [cell p] else [].

Lemma pread_ok pm p h : pm !! p = Some h → pread pm p = Ok h.
Proof. intros E. unfold pread. by rewrite E. Qed.

Lemma header_size_eq : header_size = 24.
Proof. reflexivity. Qed.

Lemma land_8 x : x mod 16 = 8 → is_precise x = true.
Proof.
  intros H. unfold is_precise. apply bool_decide_eq_true. change HALF_ALIGNMENT with (Z.land (Z.ones 4) 8).
  rewrite Z.land_assoc, Z.land_ones by lia. change (2 ^ 4) with 16. rewrite H. done.
Qed.

Lemma aligned_iff x : is_aligned_for_precise_allocation x = bool_decide (x mod 16 = 0).
Proof.
  unfold is_aligned_for_precise_allocation. change (ALIGNMENT - 1) with (Z.ones 4).
  by rewrite Z.land_ones by lia.
Qed.

Lemma destroy_ok p h pm : 0 <= cell_size h < 2 ^ 62 → destroy p h pm = Ok (delete p pm).
Proof.
  intros. unfold destroy. rewrite header_size_eq. change HALF_ALIGNMENT with 8.
  rewrite u_add_ok, bind_Ok, u_add_ok, bind_Ok by lia. by rewrite decide_False by lia.
Qed.

(** What [try_create] does with a region of [malloc]. *)
Lemma try_create_ok space size index pm : 0 < space → space mod 8 = 0 → 0 < size → size < 2 ^ 62 →
  let at_ := if decide (space mod 16 = 0) then space else space + 8 in
  try_create space size index pm =
    Ok (at_, <[at_ := mkPrecise size false index (bool_decide (space mod 16 ≠ 0)) true]> pm) ∧
  at_ mod 16 = 0.
Proof.
  intros Hs Hm Hz Hb at_.
  assert (Ha : at_ mod 16 = 0) by (unfold at_; case_decide; Z.div_mod_to_equations; lia). split; [|done].
  unfold try_create. rewrite header_size_eq. change HALF_ALIGNMENT with 8.
  rewrite u_add_ok, bind_Ok, u_add_ok, bind_Ok by lia. rewrite !decide_False by lia.
  rewrite !aligned_iff. unfold at_ in *. destruct (decide (space mod 16 = 0)) as [C|C].
  - rewrite (bool_decide_eq_true_2 _ C). cbn [negb]. rewrite bind_Ok, decide_False by lia.
    rewrite land_8 by (unfold cell; rewrite header_size_eq; Z.div_mod_to_equations; lia).
    by rewrite (bool_decide_eq_false_2 (space mod 16 ≠ 0)) by tauto.
  - rewrite (bool_decide_eq_false_2 _ C). cbn [negb]. rewrite (bool_decide_eq_true_2 _ Ha), bind_Ok, decide_False by lia.
    rewrite land_8 by (unfold cell; rewrite header_size_eq; Z.div_mod_to_equations; lia).
    by rewrite (bool_decide_eq_true_2 (space mod 16 ≠ 0)) by tauto.
Qed.

(** ** Binary search *)

Abbreviation sorted := (StronglySorted Z.le).

Lemma sorted_lookup l i j x y : sorted l → l !! i = Some x → l !! j = Some y → (i <= j)%nat → x <= y.
Proof.
  intros Hs. revert i j. induction Hs as [|a l Hs IH Hf]; intros i j Hi Hj Hij; [done|].
  destruct i as [|i], j as [|j]; cbn in *; try lia.
  - simplify_eq; lia.
  - injection Hi as <-. rewrite Forall_forall in Hf. apply Hf. by eapply list_elem_of_lookup_2.
  - apply (IH i j); done || lia.
Qed.

Lemma bsearch_loop_spec fuel l x base size : sorted l → (base + size <= length l)%nat → (0 < size <= fuel)%nat →
  (∃ k, l !! k = Some x ∧ (base <= k < base + size)%nat) →
  l !! bsearch_loop fuel l x base size = Some x.
Proof.
  intros Hs. revert base size. induction fuel as [|fuel IH]; intros base size Hb Hf (k & Hk & Hkb); [lia|].
  cbn [bsearch_loop]. destruct (decide (1 < size)%nat) as [C|C]; cycle 1.
  { by replace base with k by lia. }
  assert (Hh : (0 < size / 2 /\ size / 2 + size / 2 <= size)%nat).
  { pose proof (Nat.div_mod_eq size 2). pose proof (Nat.mod_upper_bound size 2). lia. }
  set (half := (size / 2)%nat) in *.
  destruct (lookup_lt_is_Some_2 l (base + half)) as [y Ey]; [lia|]. rewrite Ey. change (default 0 (Some y)) with y.
  destruct (decide (x < y)) as [L|L].
  - apply IH; [lia|lia|]. exists k. split; [done|].
    destruct (decide (base + half <= k)%nat) as [G|G]; [|lia].
    pose proof (sorted_lookup l (base + half) k y x Hs Ey Hk G). lia.
  - apply IH; [lia|lia|]. destruct (decide (base + half <= k)%nat) as [G|G]; [exists k; split; [done|lia]|].
    exists (base + half)%nat. split; [|lia]. rewrite Ey. f_equal.
    pose proof (sorted_lookup l k (base + half) x y Hs Hk Ey ltac:(lia)). lia.
Qed.

Lemma binary_search_iff l x : sorted l → is_Some (binary_search l x) ↔ x ∈ l.
Proof.
  intros Hs. unfold binary_search. destruct (decide (l = [])) as [->|Hne].
  { split; [by intros [? [=]]|]. intros H. by apply not_elem_of_nil in H. }
  case_decide as C.
  - split; [|done]. intros _. by eapply list_elem_of_lookup_2.
  - split; [by intros [? [=]]|]. intros [k Hk]%list_elem_of_lookup_1. destruct C.
    assert (0 < length l)%nat by (destruct l; cbn; [done|lia]).
    apply bsearch_loop_spec; try done; try lia. exists k. split; [done|]. apply lookup_lt_Some in Hk. lia.
Qed.

Lemma sort_sorted l : sorted (sort_unstable l).
Proof. apply (StronglySorted_merge_sort Z.le). Qed.

Lemma sort_perm l : sort_unstable l ≡ₚ l.
Proof. apply (merge_sort_Permutation Z.le). Qed.

Lemma sorted_last l x y : sorted l → list.last l = Some x → y ∈ l → y <= x.
Proof.
  intros Hs Hl [i Hi]%list_elem_of_lookup_1. rewrite last_lookup in Hl.
  apply (sorted_lookup l i (pred (length l)) y x Hs Hi Hl). apply lookup_lt_Some in Hi. lia.
Qed.

(** [contains] on a sorted vector. *)
Lemma contains_ok self pm m p : los_wf self pm m → sorted (allocations self) →
  ∃ r, contains self pm p = Ok r ∧ (r = true ↔ from_cell p ∈ allocations self).
Proof.
  intros [_ Hw] Hs. unfold contains. destruct (allocations self) as [|a l] eqn:El.
  { exists false. split; [done|]. split; [done|]. intros H. by apply not_elem_of_nil in H. }
  destruct (list.last (a :: l)) as [z|] eqn:Ez; [|by apply last_None in Ez].
  change (default a (Some z)) with z. assert (Hz : z ∈ a :: l) by (rewrite last_lookup in Ez; by eapply list_elem_of_lookup_2).
  destruct (Hw z Hz) as (h & Eh & _ & Hsz & _).
  unfold above_lower_bound, below_upper_bound, cell, from_cell. rewrite header_size_eq.
  assert (Hin : p - 24 ∈ a :: l → a + 24 <= p /\ p <= z + 24 + cell_size h + 8).
  { intros Hp. pose proof (sorted_last (a :: l) z (p - 24) Hs Ez Hp).
    assert (a <= p - 24) by (apply elem_of_cons in Hp as [->|Hp]; [lia|];
      apply StronglySorted_cons in Hs as [Hf _]; rewrite Forall_forall in Hf; auto). lia. }
  case_bool_decide as C1; [|exists false; split; [done|]; split; [done|]; intros Hp; apply Hin in Hp; lia].
  unfold pread. rewrite Eh, bind_Ok.
  case_bool_decide as C2; [|exists false; split; [done|]; split; [done|]; intros Hp; apply Hin in Hp; lia].
  eexists. split; [done|]. rewrite <- (binary_search_iff _ _ Hs). rewrite is_Some_alt.
  by destruct (binary_search _ _).
Qed.

(** ** Sweeping *)

Section SweepFacts.
Context (rtti_of : Z → GCRTTI) (freed_size : Z → Z) (Hfreed : ∀ p, 0 <= freed_size p).

Abbreviation step := (sweep_step rtti_of freed_size).
Definition dead_list (pm : pmem) (l : list Z) : list Z := filter (λ p, dead pm p = true) l.
Definition live_list (pm : pmem) (l : list Z) : list Z := filter (λ p, live pm p = true) l.

Lemma sweep_step_ok m kept n pm fins p : entry_ok pm m p → n + freed_size p < 2 ^ 64 →
  step m (kept, n, pm, fins) p =
    Ok (if live pm p then (kept ++ [p], n, pm, fins ++ [])
        else (kept, n + freed_size p, delete p pm, fins ++ fin_of rtti_of m p)).
Proof.
  intros (h & Eh & Hv & Hsz & Hm) Hn. unfold sweep_step, Precise.sweep, live.
  rewrite (pread_ok pm p h Eh), Eh, bind_Ok, Hv. cbn [andb]. destruct (is_live h); cbn [negb]; [done|].
  rewrite HeaderFacts.vtable_ok, !bind_Ok by done.
  rewrite (pread_ok _ p _ (lookup_insert_eq _ _ _)), bind_Ok.
  rewrite destroy_ok, bind_Ok, u_add_ok, bind_Ok by (cbn; lia). by rewrite delete_insert_eq.
Qed.

Lemma entry_ok_delete pm m p q : p ≠ q → entry_ok pm m p → entry_ok (delete q pm) m p.
Proof. intros Hne (h & Eh & H). exists h. by rewrite lookup_delete_ne. Qed.

Lemma live_delete pm p q : p ≠ q → live (delete q pm) p = live pm p.
Proof. intros. unfold live. by rewrite lookup_delete_ne. Qed.

(** The loop of [retain]. *)
Lemma sweep_loop_ok m l kept n pm fins : NoDup l → (∀ p, p ∈ l → entry_ok pm m p) →
  n + sum_list (freed_size <$> l) < 2 ^ 64 →
  ∃ n' pm', for_each (step m) l (kept, n, pm, fins) =
      Ok (kept ++ live_list pm l, n', pm', fins ++ (dead_list pm l ≫= fin_of rtti_of m)) ∧
    n' = n + sum_list (freed_size <$> dead_list pm l) ∧
    ∀ q, pm' !! q = if decide (q ∈ dead_list pm l) then None else pm !! q.
Proof.
  revert kept n pm fins. induction l as [|p l IH]; intros kept n pm fins Hn He Hs.
  { exists n, pm. cbn. rewrite !app_nil_r. split_and!; [done|cbn; lia|]. intros q. rewrite decide_False; [done|].
    apply not_elem_of_nil. }
  apply NoDup_cons in Hn as [Hp Hn]. rewrite fmap_cons in Hs. unfold sum_list in Hs. cbn [foldr] in Hs.
  fold (sum_list (freed_size <$> l)) in Hs.
  assert (Hpos : 0 <= sum_list (freed_size <$> l)).
  { clear - Hfreed. induction l as [|a l IH]; cbn; [lia|]. unfold sum_list in IH. specialize (Hfreed a). lia. }
  cbn [for_each]. rewrite sweep_step_ok by (try lia; apply He; left). rewrite bind_Ok.
  assert (Hne : ∀ q, q ∈ l → q ≠ p) by (intros q Hq ->; done).
  unfold live_list, dead_list, dead. rewrite !filter_cons. destruct (live pm p) eqn:El; cbn [negb].
  - rewrite (decide_True (P := true = true)), (decide_False (P := false = true)) by done.
    destruct (IH (kept ++ [p]) n pm (fins ++ []) Hn) as (n' & pm' & -> & -> & Hl); [intros; apply He; by right|specialize (Hfreed p); lia|].
    do 2 eexists. split_and!; [|done|exact Hl]. rewrite <- !app_assoc. done.
  - rewrite (decide_False (P := false = true)), (decide_True (P := true = true)) by done.
    assert (Hdl : ∀ q, q ∈ l → live (delete p pm) q = live pm q) by (intros; apply live_delete; auto).
    destruct (IH kept (n + freed_size p) (delete p pm) (fins ++ fin_of rtti_of m p) Hn) as (n' & pm' & -> & -> & Hl);
      [intros q Hq; apply entry_ok_delete; [auto|apply He; by right]|lia|].
    unfold live_list, dead_list, dead in *.
    rewrite (filter_ext_in (λ q, live (delete p pm) q = true) (λ q, live pm q = true)) by (intros; by rewrite Hdl).
    assert (Ed : filter (λ q, negb (live (delete p pm) q) = true) l = filter (λ q, negb (live pm q) = true) l)
      by (apply filter_ext_in; intros; by rewrite Hdl).
    rewrite Ed in Hl |- *. do 2 eexists. split_and!.
    + cbn. by rewrite <- app_assoc.
    + rewrite fmap_cons. unfold sum_list. cbn [foldr]. lia.
    + intros q. rewrite Hl. destruct (decide (q = p)) as [->|Hq].
      * rewrite (decide_True (P := p ∈ p :: _)) by left. rewrite lookup_delete_eq. by case_decide.
      * rewrite lookup_delete_ne by done. apply decide_ext. rewrite elem_of_cons. tauto.
Qed.

Lemma sweep_ok self pm m : los_wf self pm m → sum_list (freed_size <$> allocations self) < 2 ^ 64 →
  ∃ n self' pm', sweep rtti_of freed_size self pm m =
      Ok (n, self', pm', dead_list pm (allocations self) ≫= fin_of rtti_of m) ∧
    allocations self' ≡ₚ live_list pm (allocations self) ∧ sorted (allocations self') ∧
    los_live_mark self' = los_live_mark self ∧ los_wf self' pm' m ∧
    ∀ q, pm' !! q = if decide (q ∈ dead_list pm (allocations self)) then None else pm !! q.
Proof.
  intros [Hn He] Hs. unfold sweep.
  destruct (sweep_loop_ok m (allocations self) [] 0 pm [] Hn He ltac:(lia)) as (n & pm' & -> & _ & Hl).
  rewrite bind_Ok. do 3 eexists. split; [done|]. cbn [allocations los_live_mark app].
  pose proof (sort_perm (live_list pm (allocations self))) as Hp.
  split_and!; [done|apply sort_sorted|done| |done]. split; cbn [allocations].
  - rewrite Hp. by apply NoDup_filter.
  - intros p. rewrite Hp. unfold live_list. intros [Hlv Hin]%list_elem_of_filter.
    destruct (He p Hin) as (h & Eh & Hh). exists h. split; [|done]. rewrite Hl, decide_False; [done|].
    unfold dead_list, dead. intros [Hd _]%list_elem_of_filter. by rewrite Hlv in Hd.
Qed.

End SweepFacts.

(** ** Allocation *)

(** The header address [try_create] derives from what [malloc] returned. *)
Definition placed (space : Z) : Z := if decide (space mod 16 = 0) then space else space + 8.

Record malloc_ok (self : LargeObjectSpace) (space size : Z) : Prop := {
  mo_addr : 0 < space ∧ space mod 8 = 0;
  mo_size : 0 < size < 2 ^ 62;
  mo_fresh : placed space ∉ allocations self
}.

Lemma idx_last (l : list Z) x : idx (l ++ [x]) (Z.of_nat (length (l ++ [x])) - 1) = Ok x.
Proof.
  unfold idx. rewrite length_app. cbn. rewrite decide_True by lia.
  replace (Z.to_nat (Z.of_nat (length l + 1) - 1)) with (length l) by lia.
  by rewrite list_lookup_middle.
Qed.

(** [alloc] appends, and sorts only when the new header comes before the first one. *)
Lemma alloc_ok self pm m space size vtable : malloc_ok self space size → header_wf vtable →
  ∃ h, alloc self pm m space size vtable =
    Ok (cell (placed space),
        mkLOS (match allocations self with
               | first :: _ => if decide (placed space < first) then sort_unstable (allocations self ++ [placed space])
                               else allocations self ++ [placed space]
               | [] => [placed space] end) (los_live_mark self),
        <[placed space := mkPrecise size false (trunc 32 (Z.of_nat (length (allocations self))))
                            (bool_decide (space mod 16 ≠ 0)) true]> pm,
        <[cell (placed space) := h]> m) ∧ header_wf h ∧ hd_mark (decode h) = los_live_mark self.
Proof.
  intros [[Hs1 Hs2] Hsz Hf] Hv. unfold alloc.
  destruct (try_create_ok space size (trunc 32 (Z.of_nat (length (allocations self)))) pm Hs1 Hs2) as [E _]; [lia..|].
  rewrite E, bind_Ok. fold (placed space). rewrite idx_last, bind_Ok.
  destruct (HeaderFacts.mark_ok vtable (los_live_mark self) Hv) as (h & Em & Hh & Hd).
  exists h. unfold RawGc.new, TaggedPointer.new. rewrite Em.
  destruct (allocations self) as [|first l]; cbn [app idx].
  - change (idx [placed space] 0) with (Ok (placed space)). rewrite !bind_Ok, decide_False by lia.
    rewrite Hd. by split_and!.
  - change (idx (first :: l ++ [placed space]) 0) with (Ok first). rewrite !bind_Ok. rewrite Hd. split_and!; try done.
    do 4 f_equal. f_equal. apply decide_ext. lia.
Qed.

(** ** Reachable states *)

Section Reach.
Context (rtti_of : Z → GCRTTI) (freed_size : Z → Z).

(** The states the large object space goes through: allocation, collection (which
    sweeps) and writes to the words of objects, such as marking their headers. *)
Inductive reach : LargeObjectSpace → pmem → mem → Prop :=
| reach_new m : reach new ∅ m
| reach_alloc self pm m space size vtable r self' pm' m' :
    reach self pm m → malloc_ok self space size → header_wf vtable →
    alloc self pm m space size vtable = Ok (r, self', pm', m') → reach self' pm' m'
| reach_sweep self pm m n self' pm' fins :
    reach self pm m → sum_list (freed_size <$> allocations self) < 2 ^ 64 →
    sweep rtti_of freed_size self pm m = Ok (n, self', pm', fins) → reach self' pm' m
| reach_write self pm m m' mark :
    reach self pm m → (∀ p, p ∈ allocations self → header_wf (mem_read m' (cell p))) →
    reach (mkLOS (allocations self) mark) pm m'.

Definition all_unmarked (self : LargeObjectSpace) (pm : pmem) : Prop :=
  ∀ p, p ∈ allocations self → live pm p = false.

Lemma mem_read_insert m a b x : mem_read (<[a := x]> m) b = if decide (b = a) then x else mem_read m b.
Proof.
  unfold mem_read. case_decide; [subst; by rewrite lookup_insert_eq|by rewrite lookup_insert_ne].
Qed.

Lemma alloc_perm self pm m space size vtable r self' pm' m' : malloc_ok self space size → header_wf vtable →
  alloc self pm m space size vtable = Ok (r, self', pm', m') →
  allocations self' ≡ₚ placed space :: allocations self.
Proof.
  intros Hm Hv E. destruct (alloc_ok self pm m space size vtable Hm Hv) as (h & E' & _).
  rewrite E in E'. injection E' as -> -> -> ->. cbn [allocations].
  destruct (allocations self) as [|first l]; [done|]. case_decide; [rewrite sort_perm|]; symmetry;
    apply Permutation_cons_append.
Qed.

Lemma unmarked_inv self pm m : (∀ p, 0 <= freed_size p) → reach self pm m →
  los_wf self pm m ∧ all_unmarked self pm.
Proof.
  intros Hfr. induction 1 as [m|self pm m space size vtable r self' pm' m' Hr [[Hn He] Hu] Hm Hv E|
    self pm m n self' pm' fins Hr [Hwf Hu] Hs E|self pm m m' mark Hr [[Hn He] Hu] Hw].
  - split; [split; [constructor|]|]; intros p Hp; by apply not_elem_of_nil in Hp.
  - pose proof (alloc_perm _ _ _ _ _ _ _ _ _ _ Hm Hv E) as Hp.
    destruct (alloc_ok self pm m space size vtable Hm Hv) as (h & E' & Hh & _).
    rewrite E in E'. injection E' as -> _ -> ->.
    destruct Hm as [_ Hsz Hf].
    split; [split|].
    + rewrite Hp. by constructor.
    + intros p. rewrite Hp, elem_of_cons. intros [->|Hin].
      * eexists. rewrite lookup_insert_eq. split_and!; [done|done|cbn; lia|cbn; lia|].
        by rewrite mem_read_insert, decide_True.
      * assert (p ≠ placed space) by (intros ->; done). destruct (He p Hin) as (h' & Eh & ? & ? & ?).
        exists h'. rewrite lookup_insert_ne by done. split_and!; try done; try lia.
        rewrite mem_read_insert, decide_False; [done|]. unfold cell. lia.
    + intros p. rewrite Hp, elem_of_cons. unfold live. intros [->|Hin]; [by rewrite lookup_insert_eq|].
      rewrite lookup_insert_ne by (intros <-; done). by apply Hu.
  - destruct (sweep_ok rtti_of freed_size Hfr self pm m Hwf Hs) as (n0 & s0 & pm0 & E' & Hp & _ & _ & Hwf' & _).
    rewrite E in E'. injection E' as -> -> -> ->. split; [done|]. intros p. rewrite Hp.
    unfold live_list. intros [Hl Hin]%list_elem_of_filter. by rewrite Hu in Hl.
  - split; [split; [done|]|done]. intros p Hp. cbn in Hp. destruct (He p Hp) as (h & ? & ? & ? & _).
    exists h. auto 10.
Qed.

End Reach.

(** A header word for the examples. *)
Lemma header_wf_64 : header_wf 64.
Proof. split; [split; [discriminate|reflexivity]|discriminate]. Qed.

(** ** Properties *)

(** The layout of a precise allocation: whatever 8-byte aligned region [malloc]
    returns, [try_create] succeeds, the header is 16-byte aligned, the cell carries
    the mark by which large objects are recognised, header and cell lie inside the
    region, [from_cell] leads back from the cell to the header and [base_pointer]
    leads back to the address to free. *)
Theorem try_create_layout space size index pm :
  0 < space → space mod 8 = 0 → 0 < size < 2 ^ 62 →
  ∃ p pm' h, try_create space size index pm = Ok (p, pm') ∧ pm' !! p = Some h ∧
    cell_size h = size ∧ is_marked h = false ∧ has_valid_cell h = true ∧
    p mod 16 = 0 ∧ is_precise (cell p) = true ∧ from_cell (cell p) = p ∧ base_pointer p h = space ∧
    space <= p ∧ p + size_of_PreciseAllocation <= cell p ∧
    cell p + size <= space + (header_size + size + HALF_ALIGNMENT).
Proof.
  intros Hs Hm [Hz1 Hz2]. destruct (try_create_ok space size index pm Hs Hm Hz1 Hz2) as [E Ha].
  fold (placed space) in E, Ha. do 3 eexists. split; [exact E|]. split; [apply lookup_insert_eq|].
  unfold from_cell, base_pointer, size_of_PreciseAllocation. change HALF_ALIGNMENT with 8.
  assert (Hc : cell (placed space) = placed space + 24) by done. rewrite header_size_eq. cbn [cell_size is_marked has_valid_cell adjusted_alignment].
  split_and!; try done; try lia.
  - apply land_8. rewrite Hc. Z.div_mod_to_equations. lia.
  - unfold placed. destruct (decide (space mod 16 = 0)) as [C|C];
      [rewrite bool_decide_eq_false_2 by tauto|rewrite bool_decide_eq_true_2 by done]; lia.
  - unfold placed. destruct (decide _); lia.
  - rewrite Hc. unfold placed. destruct (decide _); lia.
Qed.

Lemma try_create_layout_witness : ∃ p pm', try_create 4104 8192 0 ∅ = Ok (p, pm') ∧ p = 4112.
Proof.
  destruct (try_create_layout 4104 8192 0 ∅) as (p & pm' & h & E & _); [lia|done|lia|].
  exists p, pm'. split; [exact E|]. vm_compute in E. by injection E as <- _.
Defined.

(** C33: On a sorted vector [contains] decides membership: an address is accepted exactly
    when it is the cell of one of the allocations; the bounds test never rejects one,
    and the binary search finds it. *)
Theorem contains_iff self pm m p : los_wf self pm m → sorted (allocations self) →
  ∃ r, contains self pm p = Ok r ∧ (r = true ↔ from_cell p ∈ allocations self).
Proof. apply contains_ok. Qed.

Lemma contains_iff_witness : ∃ r,
  contains (mkLOS [16; 9000; 20000] false)
    (<[16 := mkPrecise 8192 false 0 false true]> (<[9000 := mkPrecise 8192 false 1 false true]>
      (<[20000 := mkPrecise 8192 false 2 false true]> ∅))) 9024 = Ok r ∧ r = true.
Proof.
  destruct (contains_iff (mkLOS [16; 9000; 20000] false)
    (<[16 := mkPrecise 8192 false 0 false true]> (<[9000 := mkPrecise 8192 false 1 false true]>
      (<[20000 := mkPrecise 8192 false 2 false true]> ∅)))
    (<[40 := 64]> (<[9024 := 64]> (<[20024 := 64]> ∅))) 9024) as (r & E & Hr).
  - split; [vm_decide|]. intros p Hp. cbn in Hp. rewrite !elem_of_cons in Hp.
    destruct Hp as [->|[->|[->|Hp]]]; [..|by apply not_elem_of_nil in Hp];
      (eexists; split_and!; [reflexivity|done|cbn; lia|cbn; lia|exact header_wf_64]).
  - repeat constructor; lia.
  - exists r. split; [exact E|]. apply Hr. right. left.
Defined.

(** [sweep] frees exactly the dead: it keeps the marked allocations, sorted, runs the
    finalizers of the others in order, and removes the others' headers and no more. *)
Theorem los_sweep_correct rtti_of freed_size self pm m : (∀ p, 0 <= freed_size p) →
  los_wf self pm m → sum_list (freed_size <$> allocations self) < 2 ^ 64 →
  ∃ n self' pm', sweep rtti_of freed_size self pm m =
      Ok (n, self', pm', dead_list pm (allocations self) ≫= fin_of rtti_of m) ∧
    allocations self' ≡ₚ live_list pm (allocations self) ∧ sorted (allocations self') ∧
    los_wf self' pm' m ∧
    ∀ q, pm' !! q = if decide (q ∈ dead_list pm (allocations self)) then None else pm !! q.
Proof.
  intros Hf Hw Hs. destruct (sweep_ok rtti_of freed_size Hf self pm m Hw Hs) as (n & s' & pm' & ? & ? & ? & _ & ? & ?).
  by exists n, s', pm'.
Qed.

Lemma los_sweep_correct_witness : ∃ n self' pm',
  sweep (λ _, rtti_for_prim 8) (λ _, 0) (mkLOS [9008; 16] false)
    (<[16 := mkPrecise 8192 true 0 false true]> (<[9008 := mkPrecise 8192 false 1 false true]> ∅))
    (<[40 := 64]> (<[9032 := 64]> ∅)) = Ok (n, self', pm', [9032]) ∧ allocations self' = [16].
Proof.
  destruct (los_sweep_correct (λ _, rtti_for_prim 8) (λ _, 0) (mkLOS [9008; 16] false)
    (<[16 := mkPrecise 8192 true 0 false true]> (<[9008 := mkPrecise 8192 false 1 false true]> ∅))
    (<[40 := 64]> (<[9032 := 64]> ∅))) as (n & s' & pm' & E & Hp & _).
  - intros. lia.
  - split; [vm_decide|]. intros p Hp. cbn in Hp. rewrite !elem_of_cons in Hp.
    destruct Hp as [->|[->|Hp]]; [..|by apply not_elem_of_nil in Hp];
      (eexists; split_and!; [reflexivity|done|cbn; lia|cbn; lia|exact header_wf_64]).
  - reflexivity.
  - exists n, s', pm'. split; [exact E|]. apply Permutation_singleton_r. exact Hp.
Defined.

(** C38: No large object survives a collection: in every state the space can reach, the
    [is_marked] flag the sweep looks at is clear in every header, so [sweep] frees
    every large object, reachable or not, and leaves the space empty. *)
Theorem los_sweep_frees_all rtti_of freed_size self pm m : (∀ p, 0 <= freed_size p) →
  reach rtti_of freed_size self pm m → sum_list (freed_size <$> allocations self) < 2 ^ 64 →
  ∃ n self' pm' fins, sweep rtti_of freed_size self pm m = Ok (n, self', pm', fins) ∧
    allocations self' = [] ∧ ∀ p, p ∈ allocations self → pm' !! p = None.
Proof.
  intros Hf Hr Hs. destruct (unmarked_inv rtti_of freed_size self pm m Hf Hr) as [Hw Hu].
  destruct (sweep_ok rtti_of freed_size Hf self pm m Hw Hs) as (n & s' & pm' & E & Hp & _ & _ & _ & Hl).
  do 4 eexists. split; [exact E|]. split.
  - apply Permutation_nil_r. rewrite Hp. unfold live_list. rewrite filter_none; [done|]. intros p Hin. by rewrite Hu.
  - intros p Hin. rewrite Hl, decide_True; [done|]. unfold dead_list, dead. apply list_elem_of_filter.
    split; [by rewrite Hu|done].
Qed.

Lemma los_sweep_frees_all_witness : ∃ r self pm m n self' pm' fins,
  alloc new ∅ ∅ 4096 8192 64 = Ok (r, self, pm, m) ∧ allocations self = [4096] ∧
  sweep (λ _, rtti_for_prim 8) (λ _, 0) self pm m = Ok (n, self', pm', fins) ∧ allocations self' = [].
Proof.
  destruct (alloc new ∅ ∅ 4096 8192 64) as [[[[r self] pm] m]| |] eqn:E; try discriminate E.
  assert (Hr : reach (λ _, rtti_for_prim 8) (λ _, 0) self pm m).
  { eapply reach_alloc; [apply reach_new| | |exact E]; [constructor; [by split|lia|apply not_elem_of_nil]|exact header_wf_64]. }
  assert (Ea : allocations self = [4096]) by (vm_compute in E; by injection E as _ <- _ _).
  destruct (los_sweep_frees_all (λ _, rtti_for_prim 8) (λ _, 0) self pm m) as (n & s' & pm' & fins & Es & Hn & _);
    [intros; lia|exact Hr|by rewrite Ea|].
  exists r, self, pm, m, n, s', pm', fins. split_and!; [reflexivity|exact Ea|exact Es|exact Hn].
Defined.

(** [alloc] does not keep the vector sorted: its test compares the new header with
    itself, so a header that falls between the first and the last one is left at the
    end of the vector, on which [contains] then relies on binary search. *)
Theorem alloc_breaks_order self pm m space size vtable first last : malloc_ok self space size → header_wf vtable →
  head (allocations self) = Some first → list.last (allocations self) = Some last →
  first < placed space < last →
  ∃ r self' pm' m', alloc self pm m space size vtable = Ok (r, self', pm', m') ∧
    allocations self' = allocations self ++ [placed space] ∧ ¬ sorted (allocations self').
Proof.
  intros Hm Hv Hfi Hla Hb. destruct (alloc_ok self pm m space size vtable Hm Hv) as (h & E & _).
  do 4 eexists. split; [exact E|]. cbn [allocations]. destruct (allocations self) as [|f l] eqn:El; [done|].
  injection Hfi as ->. rewrite decide_False by lia. split; [done|]. intros Hs.
  assert (Hin : last ∈ first :: l) by (rewrite last_lookup in Hla; by eapply list_elem_of_lookup_2).
  pose proof (StronglySorted_app_1_elem_of _ (first :: l) [placed space] last (placed space) Hs Hin ltac:(left)).
  lia.
Qed.

Lemma alloc_breaks_order_witness : ∃ r self' pm' m',
  alloc (mkLOS [4096; 40000] false) (<[4096 := mkPrecise 8192 false 0 false true]>
     (<[40000 := mkPrecise 8192 false 1 false true]> ∅)) ∅ 20000 8192 64 = Ok (r, self', pm', m') ∧
  contains self' pm' r = Ok false ∧ ¬ sorted (allocations self').
Proof.
  destruct (alloc_breaks_order (mkLOS [4096; 40000] false) (<[4096 := mkPrecise 8192 false 0 false true]>
     (<[40000 := mkPrecise 8192 false 1 false true]> ∅)) ∅ 20000 8192 64 4096 40000)
    as (r & s' & pm' & m' & E & _ & Hs).
  - constructor; [by split|lia|]. cbn. rewrite !elem_of_cons. intros [?|[?|H]]; [discriminate..|by apply not_elem_of_nil in H].
  - exact header_wf_64.
  - done.
  - done.
  - split; reflexivity.
  - exists r, s', pm', m'. split; [exact E|]. split; [|exact Hs].
    vm_compute in E. injection E as <- <- <- _. vm_compute. reflexivity.
Defined.

End LOS.
