(* ===== verification/Teardown.v ===== *)
(** * The end of a heap: what is given back

    The destructors: [Drop] of [Mmap] (block_allocator.rs), of [ImmixSpace]
    (allocation.rs) and of [LargeObjectSpace] (large_object_space.rs, [LOS.drop]), and
    the [immix_unregister_thread] of a build without threads (threading.rs), which drops
    the [Immix] behind [SPACE].  What a program holds is the list of its mappings and
    regions of [malloc], and the headers of its large objects; giving back what is not
    held is [Panic BadAccess].  Rust drops the fields of a structure after its own
    [drop], and does nothing about a raw pointer.  The vectors and strings inside the
    structures, which the global allocator holds, are left out. *)

From stdpp Require Import base numbers list list_numbers gmap.
From Stdlib Require Import ZArith Lia.
From S2P Require Import Prelude Util Constants Object BlockAllocator LargeObjectSpace.
Local Open Scope Z_scope.

Inductive Resource : Type :=
| Mapping (start size : Z)   (* mmap *)
| Malloc (ptr : Z).

#[global] Instance Resource_eq_dec : EqDecision Resource.
Proof. solve_decision. Defined.

Fixpoint remove_one (r : Resource) (l : list Resource) : option (list Resource) :=
  match l with
  | [] => None
  | x :: l' => if decide (x = r) then Some l' else match remove_one r l' with Some k => Some (x :: k) | None => None end
  end.

Definition release (r : Resource) (held : list Resource) : R (list Resource) :=
  match remove_one r held with Some held' => Ok held' | None => Panic BadAccess end.

(** What an [Immix] is made of: the mapping of the blocks, that of the bitmap, the three
    structures in memory of [malloc], and the large object space. *)
Record Parts : Type := mkParts {
  p_mmap : Mmap;
  p_bitmap : Mmap;
  p_block_allocator : Z;
  p_immix_space : Z;
  p_immix : Z;
  p_los : LargeObjectSpace
}.

Definition mapping (self : Mmap) : Resource := Mapping (mm_start self) (mm_size self).

(** [Mmap::drop] *)
Definition Mmap_drop (self : Mmap) (held : list Resource) : R (list Resource) :=
  release (mapping self) held.

(** [ImmixSpace::drop]: the block allocator, whose field [mmap] has a destructor, and
    its memory; then the field [bitmap] of the space. *)
Definition ImmixSpace_drop (p : Parts) (held : list Resource) : R (list Resource) :=
  h1 ← Mmap_drop (p_mmap p) held;
  h2 ← release (Malloc (p_block_allocator p)) h1;
  Mmap_drop (p_bitmap p) h2.

(** The fields of [Immix]: [los] has a destructor, [immix] is a raw pointer. *)
Definition Immix_drop (p : Parts) (pm : pmem) : R pmem := LOS.drop (p_los p) pm.

(** [immix_unregister_thread] without the feature [threaded] *)
Definition unregister (p : Parts) (held : list Resource) (pm : pmem) : R (list Resource * pmem) :=
  pm' ← Immix_drop p pm;
  held' ← release (Malloc (p_immix p)) held;
  Ok (held', pm').

(** ** What is held *)

Definition space_parts (p : Parts) : list Resource :=
  [mapping (p_mmap p); Malloc (p_block_allocator p); mapping (p_bitmap p); Malloc (p_immix_space p)].

Lemma remove_one_ok r l : r ∈ l → ∃ k, remove_one r l = Some k ∧ l ≡ₚ r :: k.
Proof.
  induction l as [|x l IH]; intros Hr; [by apply not_elem_of_nil in Hr|]. cbn.
  case_decide as E; [subst; eauto|]. apply elem_of_cons in Hr as [->|Hr]; [done|].
  destruct (IH Hr) as (k & -> & Hk). exists (x :: k). split; [done|]. rewrite Hk. apply Permutation_swap.
Qed.

Lemma release_ok r held rest : held ≡ₚ r :: rest → ∃ held', release r held = Ok held' ∧ held' ≡ₚ rest.
Proof.
  intros Hp. destruct (remove_one_ok r held) as (k & E & Hk); [rewrite Hp; left|].
  unfold release. rewrite E. exists k. split; [done|]. rewrite Hk in Hp. by apply Permutation_cons_inv in Hp.
Qed.

(** The destructor of the large object space frees the region of every header. *)
Lemma los_drop_loop m l pm : NoDup l → (∀ p, p ∈ l → LOS.entry_ok pm m p) →
  for_each (λ pm p, h ← pread pm p; Precise.destroy p h pm) l pm = Ok (filter (λ '(p, _), p ∉ l) pm).
Proof.
  revert pm. induction l as [|q l IH]; intros pm Hn He; cbn [for_each].
  - f_equal. symmetry. apply map_filter_id. intros ???. apply not_elem_of_nil.
  - apply NoDup_cons in Hn as [Hq Hn]. destruct (He q) as (h & E & _ & Hs & _); [left|].
    rewrite (LOS.pread_ok _ _ _ E), bind_Ok, (LOS.destroy_ok _ _ _ Hs), bind_Ok, IH; [|done|].
    + f_equal. apply map_eq. intros i. apply option_eq. intros x.
      rewrite !map_lookup_filter_Some, lookup_delete_Some, not_elem_of_cons. naive_solver.
    + intros p Hp. apply LOS.entry_ok_delete; [by intros ->|]. apply He. by right.
Qed.

(** ** Properties *)

(** A heap is not given back: when the thread of a build without threads
    unregisters, the structure [Immix] and every large object are freed, and the mapping
    of all blocks, the bitmap, the block allocator and the space stay allocated with
    nothing that refers to them, because [Immix] holds its space by a raw pointer. *)
Theorem unregister_leaks_space p held pm m : held ≡ₚ Malloc (p_immix p) :: space_parts p →
  LOS.los_wf (p_los p) pm m → (∀ x, is_Some (pm !! x) → x ∈ allocations (p_los p)) →
  ∃ left, unregister p held pm = Ok (left, ∅) ∧ left ≡ₚ space_parts p.
Proof.
  intros Hp [Hn He] Hall. destruct (release_ok _ _ _ Hp) as (left & E & Hl). exists left. split; [|done].
  unfold unregister, Immix_drop, LOS.drop. rewrite List.rev_alt.
  change (List.rev_append ?l []) with (reverse l). rewrite (los_drop_loop m).
  - rewrite bind_Ok, E, bind_Ok. do 2 f_equal. apply map_empty. intros x. apply map_lookup_filter_None.
    right. intros h Hh Hx. apply Hx, elem_of_reverse, Hall. eauto.
  - by rewrite reverse_Permutation.
  - intros x Hx. apply He. by rewrite elem_of_reverse in Hx.
Qed.

Lemma unregister_leaks_space_witness :
  let p := mkParts (mkMmap 28672 98304 69632) (mkMmap 4096 4640 544) 16 32 48 (mkLOS [4112] false) in
  ∃ left, unregister p (Malloc 48 :: space_parts p) {[4112 := mkPrecise 8192 false 0 true true]} = Ok (left, ∅) ∧
    Mapping 28672 69632 ∈ left.
Proof.
  intros p. destruct (unregister_leaks_space p (Malloc 48 :: space_parts p) {[4112 := mkPrecise 8192 false 0 true true]}
    {[4136 := 64]}) as (left & E & Hl).
  - reflexivity.
  - split; [apply NoDup_singleton|]. intros x Hx%list_elem_of_singleton. subst x. eexists.
    split; [reflexivity|]. split; [reflexivity|]. split; [cbn; lia|]. exact LOS.header_wf_64.
  - intros x [h [<- _]%lookup_singleton_Some]. left.
  - exists left. split; [exact E|]. rewrite Hl. left.
Defined.

(** The destructor of the space is complete: it gives back both mappings and the block
    allocator, and only the memory of the space itself is left to the caller. *)
Theorem space_drop_complete p held rest : held ≡ₚ space_parts p ++ rest →
  ∃ left, ImmixSpace_drop p held = Ok left ∧ left ≡ₚ Malloc (p_immix_space p) :: rest.
Proof.
  intros Hp. unfold ImmixSpace_drop, Mmap_drop. destruct (release_ok _ held _ Hp) as (h1 & -> & H1). rewrite bind_Ok.
  destruct (release_ok _ h1 _ H1) as (h2 & -> & H2). rewrite bind_Ok. by apply release_ok.
Qed.
