(* ===== verification/Collector.v ===== *)
(** * collector.rs: marking and sweeping

    [trace] is the method of [Visitor], [ImmixCollector_collect] the marking loop
    with its queue, and [Collector] the phases around it.  A reference is given by
    the address of the slot that holds it; [visit_references] of an object's run-time
    type lists the slots of the object, in the order it passes them to the tracer. *)

From stdpp Require Import base numbers list list_numbers gmap.
From Stdlib Require Import ZArith Lia.
From S2P Require Import Prelude Util Constants Bitmap Block SpaceBitmap Object BlockAllocator.
From S2P Require Import Allocation AllocatorLaws Allocators ImmixSpace LargeObjectSpace.
Local Open Scope Z_scope.

Inductive CollectionType : Type := ImmixCollection | ImmixEvacCollection.

#[global] Instance CollectionType_eq_dec : EqDecision CollectionType.
Proof. solve_decision. Defined.

Definition set_store (w : World) (s : Store) : World := mkWorld (w_ba w) s (w_tls w).

Section Marking.
Context `{Cfg} (rtti_of : Z → GCRTTI).

(** The space, the memory and the object queue. *)
Abbreviation MarkState := (ImmixSpace * World * list Z)%type.

Definition trace (defrag next_live_mark : bool) (st : MarkState) (reference : Z) : R MarkState :=
  let '(immix_space, w, queue) := st in
  let child := word (w_store w) reference in
  forwarded ← RawGc.is_forwarded (word (w_store w) child);
  if forwarded : bool then
    v ← RawGc.vtable (word (w_store w) child);
    Ok (immix_space, set_store w (set_word (w_store w) reference v), queue)
  else
    m ← RawGc.get_mark (word (w_store w) child);
    if decide (m ≠ next_live_mark) then
      '(child', sp', w') ←
        (if defrag && ImmixSpaceM.filter_fast immix_space w child then
           '(r, sp1, w1) ← ImmixSpaceM.maybe_evacuate rtti_of immix_space w child;
           match r with
           | Some new_child => Ok (new_child, sp1, set_store w1 (set_word (w_store w1) reference new_child))
           | None => Ok (child, sp1, w1)
           end
         else Ok (child, immix_space, w));
      Ok (sp', w', queue ++ [child'])
    else Ok st.

(** The body of the loop over [precise_roots]; [root] is the address of the slot. *)
Definition precise_root (collection_type : CollectionType) (st : MarkState) (root : Z) : R MarkState :=
  let '(immix_space, w, queue) := st in
  let raw := word (w_store w) root in
  '(raw', sp', w') ←
    (if ImmixSpaceM.filter_fast immix_space w raw then
       forwarded ← RawGc.is_forwarded (word (w_store w) raw);
       if forwarded : bool then
         v ← RawGc.vtable (word (w_store w) raw); Ok (v, immix_space, w)
       else if decide (collection_type = ImmixEvacCollection) then
         '(r, sp1, w1) ← ImmixSpaceM.maybe_evacuate rtti_of immix_space w raw;
         match r with
         | Some new_object =>
             let s2 := set_word (w_store w1) root new_object in
             h ← RawGc.set_forwarded (word s2 raw) new_object;
             Ok (new_object, sp1, set_store w1 (set_word s2 raw h))
         | None => Ok (raw, sp1, w1)
         end
       else Ok (raw, immix_space, w)
     else Ok (raw, immix_space, w));
  Ok (sp', w', queue ++ [raw']).

(** Marking the line of an object in its block. *)
Definition mark_lines (w : World) (object_addr : Z) : R World :=
  let block := Block.get_block_ptr object_addr in
  size ← ImmixSpaceM.object_size_at rtti_of (w_store w) object_addr;
  blk ← Block.line_object_mark (header (w_store w) block) block object_addr size;
  Ok (set_store w (set_header (w_store w) block blk)).

(** One round of the [while let] loop for the object popped from the queue; the
    last component is the number of bytes visited. *)
Definition process (collection_type : CollectionType) (next_live_mark : bool)
    (st : MarkState) (visited object : Z) : R (MarkState * Z) :=
  let '(immix_space, w, queue) := st in
  '(was, h) ← RawGc.mark (word (w_store w) object) next_live_mark;
  let w1 := set_store w (set_word (w_store w) object h) in
  if was : bool then Ok ((immix_space, w1, queue), visited)
  else
    '(sp2, w2) ←
      (if ImmixSpaceM.filter_fast immix_space w1 object then
         sp' ← ImmixSpaceM.set_gc_object immix_space object;
         w' ← mark_lines w1 object;
         Ok (sp', w')
       else Ok (immix_space, w1));
    size ← ImmixSpaceM.object_size_at rtti_of (w_store w2) object;
    visited' ← u_add 64 visited size;
    v ← RawGc.vtable (word (w_store w2) object);
    st' ← for_each (trace (bool_decide (collection_type = ImmixEvacCollection)) next_live_mark)
            (visit_references (rtti_of v) (words (w_store w2)) object) (sp2, w2, queue);
    Ok (st', visited').

Fixpoint mark_loop (fuel : nat) (collection_type : CollectionType) (next_live_mark : bool)
    (st : MarkState) (visited : Z) : R (MarkState * Z) :=
  match fuel with
  | O => NoFuel
  | S fuel' =>
      let '(immix_space, w, queue) := st in
      match queue with
      | [] => Ok (st, visited)
      | object :: queue' =>
          '(st', visited') ← process collection_type next_live_mark (immix_space, w, queue') visited object;
          mark_loop fuel' collection_type next_live_mark st' visited'
      end
  end.

(** [ImmixCollector::collect]; [fuel] bounds the number of objects popped. *)
Definition ImmixCollector_collect (fuel : nat) (collection_type : CollectionType)
    (roots precise_roots : list Z) (immix_space : ImmixSpace) (w : World) (next_live_mark : bool)
    : R (Z * ImmixSpace * World) :=
  st ← for_each (precise_root collection_type) precise_roots (immix_space, w, roots);
  '(sp', w', _, visited) ← mark_loop fuel collection_type next_live_mark st 0;
  Ok (visited, sp', w').

End Marking.

(** ** Collector *)

Record Collector : Type := mkCollector {
  all_blocks : list Z;
  mark_histogram : gmap Z Z
}.

(** [contains_key], [get_mut] and [insert] on a [VecMap]: add to an entry. *)
Definition hist_add (h : gmap Z Z) (k n : Z) : R (gmap Z Z) :=
  match h !! k with
  | Some v => v' ← u_add 64 v n; Ok (<[k := v']> h)
  | None => Ok (<[k := n]> h)
  end.
(** [*h.get(k).unwrap_or(&0)]. *)
Definition hist_get (h : gmap Z Z) (k : Z) : Z := default 0 (h !! k).

Definition set_candidate (s : Store) (b : Z) (c : bool) : Store :=
  let blk := header s b in
  set_header s b (mkBlock (line_map blk) (allocated blk) (hole_count blk) c).

Module CollectorM.

Definition new : Collector := mkCollector [] ∅.

Definition extend_all_blocks (self : Collector) (blocks : list Z) : Collector :=
  mkCollector (all_blocks self ++ blocks) (mark_histogram self).

(** The loop of [establish_hole_threshhold] over the thresholds. *)
Fixpoint threshold_loop (mark_hist avail_hist : gmap Z Z) (ts : list Z) (required available : Z) : R Z :=
  match ts with
  | [] => Ok NUM_LINES_PER_BLOCK
  | threshold :: ts' =>
      required' ← u_add 64 required (hist_get mark_hist threshold);
      let available' := Z.max 0 (available - hist_get avail_hist threshold) in
      if decide (available' <= required') then Ok threshold
      else threshold_loop mark_hist avail_hist ts' required' available'
  end.

Definition establish_hole_threshhold (self : Collector) (s : Store) (evac_headroom : Z) : R Z :=
  available_histogram ← for_each (λ h block,
      '(holes, free_lines) ← Block.count_holes_and_available_lines (header s block) block;
      hist_add h holes free_lines) (all_blocks self) ∅;
  available_lines ← u_mul 64 evac_headroom (NUM_LINES_PER_BLOCK - 1);
  threshold_loop (mark_histogram self) available_histogram (range 0 NUM_LINES_PER_BLOCK) 0 available_lines.

Definition prepare_collection (self : Collector) (s : Store) (evacuation : bool)
    (available_blocks evac_headroom total_blocks : Z) (emergency : bool) : R (CollectionType * Store) :=
  if emergency && USE_EVACUATION then
    Ok (ImmixEvacCollection, foldl (λ s b, set_candidate s b true) s (all_blocks self))
  else
    let evac_threshhold := evac_trigger total_blocks in
    available_evac_blocks ← u_add 64 available_blocks evac_headroom;
    '(perform_evac, s') ←
      (if evacuation || bool_decide (available_evac_blocks < evac_threshhold) then
         hole_threshhold ← establish_hole_threshhold self s evac_headroom;
         let perform_evac := USE_EVACUATION && bool_decide (0 < hole_threshhold) in
         Ok (perform_evac,
             if perform_evac then
               foldl (λ s b, set_candidate s b (bool_decide (hole_threshhold <= hole_count (header s b))))
                 s (all_blocks self)
             else s)
       else Ok (evacuation, s));
    Ok (if perform_evac : bool then ImmixEvacCollection else ImmixCollection, s').

(** The state of [sweep_all_blocks]: the three vectors, the histogram, the memory. *)
Record SweepState : Type := mkSweep {
  sw_unavailable : list Z;
  sw_recyclable : list Z;
  sw_free : list Z;
  sw_histogram : gmap Z Z;
  sw_store : Store
}.

Definition sweep_block (st : SweepState) (block : Z) : R SweepState :=
  let s := sw_store st in
  empty ← Block.is_empty (header s block) block;
  if empty : bool then
    Ok (mkSweep (sw_unavailable st) (sw_recyclable st) (sw_free st ++ [block]) (sw_histogram st)
          (set_header s block (Block.reset (header s block))))
  else
    '(_, blk) ← Block.count_holes (header s block) block;
    let s' := set_header s block blk in
    '(holes, marked_lines) ← Block.count_holes_and_marked_lines blk block;
    h ← hist_add (sw_histogram st) holes marked_lines;
    if decide (holes = 0) then
      Ok (mkSweep (sw_unavailable st ++ [block]) (sw_recyclable st) (sw_free st) h s')
    else Ok (mkSweep (sw_unavailable st) (sw_recyclable st ++ [block]) (sw_free st) h s').

Definition sweep_all_blocks (self : Collector) (s : Store) : R (list Z * list Z * Collector * Store) :=
  st ← for_each sweep_block (all_blocks self) (mkSweep [] [] [] (mark_histogram self) s);
  Ok (sw_recyclable st, sw_free st, mkCollector (sw_unavailable st) (sw_histogram st), sw_store st).

(** The first loop of [collect]: clear the bitmap and the line marks of a block. *)
Definition clear_block (st : ImmixSpace * World) (block : Z) : R (ImmixSpace * World) :=
  let '(sp, w) := st in
  bm ← Space.clear_range 16 (bitmap sp) block (block + BLOCK_SIZE);
  let blk := header (w_store w) block in
  Ok (set_bitmap sp bm,
      set_store w (set_header (w_store w) block (Block.set_line_map blk (LineMap.clear_all (line_map blk))))).

Section Collect.
Context `{Cfg} (rtti_of : Z → GCRTTI) (freed_size : Z → Z).

(** What [collect] does after marking, up to the large objects. *)
Definition reclaim (self : Collector) (sp : ImmixSpace) (w : World) : R (Collector * ImmixSpace * World) :=
  let self1 := mkCollector (all_blocks self) ∅ in
  '(recyclable_blocks, free_blocks, self2, s2) ← sweep_all_blocks self1 (w_store w);
  let sp1 := ImmixSpaceM.set_recyclable_blocks sp recyclable_blocks in
  evac_headroom ← (if USE_EVACUATION then u_sub EVAC_HEADROOM (ImmixSpaceM.evac_headroom sp1) else Ok 0);
  let sp2 := ImmixSpaceM.extend_evac_headroom sp1 (take (Z.to_nat evac_headroom) free_blocks) in
  let w2 := ImmixSpaceM.return_blocks (set_store w s2) (drop (Z.to_nat evac_headroom) free_blocks) in
  Ok (self2, sp2, w2).

Definition collect (fuel : nat) (self : Collector) (collection_type : CollectionType)
    (roots precise_roots : list Z) (sp : ImmixSpace) (w : World)
    (los : LargeObjectSpace) (pm : pmem) (next_live_mark : bool)
    : R (Z * Collector * ImmixSpace * World * LargeObjectSpace * pmem * list Z) :=
  '(sp1, w1) ← for_each clear_block (all_blocks self) (sp, w);
  '(visited, sp2, w2) ← ImmixCollector_collect rtti_of fuel collection_type roots precise_roots sp1 w1 next_live_mark;
  '(self', sp3, w3) ← reclaim self sp2 w2;
  '(_, los', pm', fins) ← LOS.sweep rtti_of freed_size los pm (words (w_store w3));
  Ok (visited, self', sp3, w3, los', pm', fins).

End Collect.

End CollectorM.
