(* ===== verification/Sweep.v ===== *)
(** * Sweeping: what happens to the blocks of a collection

    [sweep_all_blocks] sorts the blocks of the collection into free, recyclable and
    unavailable ones; [reclaim] hands them back to the allocators. *)

From stdpp Require Import base numbers list list_numbers gmap.
From Stdlib Require Import ZArith Lia.
From S2P Require Import Prelude Util Constants Bitmap Block SpaceBitmap Object BlockAllocator.
From S2P Require Import Allocation AllocatorLaws Allocators ImmixSpace LargeObjectSpace Collector.
Import CollectorM.
Local Open Scope Z_scope.

(** ** Counting lines *)

Lemma count_marked_ok self b wanted : block_wf self →
  ∃ n, Block.count_marked self b wanted = Ok n ∧ 0 <= n <= 256.
Proof.
  intros Hw. unfold Block.count_marked. consts.
  destruct (for_each_range (λ count line,
      b0 ← LineMap.test (line_map self) (line * 128 + b) b;
      Ok (if bool_decide (b0 = wanted) then count + 1 else count)) (λ i n, 0 <= n <= i) 0 256 0)
    as (n & E & Hn); [lia..| |by eauto].
  intros i n Hi Hn. rewrite (Z.add_comm (i * 128)), Block.test_line by (done || lia). rewrite bind_Ok.
  eexists. split; [done|]. case_bool_decide; lia.
Qed.

(** The block has an unmarked line. *)
Definition has_hole (blk : ImmixBlock) : bool :=
  bool_decide (Exists (λ l, line_bit blk l = false) (range 0 256)).
Definition no_marks (blk : ImmixBlock) : bool :=
  bool_decide (Forall (λ l, line_bit blk l = false) (range 0 256)).

Lemma has_hole_iff blk : has_hole blk = true ↔ ∃ l, 0 <= l < 256 ∧ line_bit blk l = false.
Proof.
  unfold has_hole. rewrite bool_decide_eq_true, Exists_exists. by setoid_rewrite elem_of_range.
Qed.

Lemma no_marks_iff blk : no_marks blk = true ↔ ∀ l, 0 <= l < 256 → line_bit blk l = false.
Proof.
  unfold no_marks. rewrite bool_decide_eq_true, Forall_forall. by setoid_rewrite elem_of_range.
Qed.

Lemma hole_step_mono ls st : st.1 <= (foldl Block.hole_step st ls).1 <= st.1 + Z.of_nat (length ls).
Proof.
  revert st. induction ls as [|m ls IH]; intros [h ih]; cbn [foldl length]; [lia|].
  specialize (IH (Block.hole_step (h, ih) m)). unfold Block.hole_step in *. destruct ih, m; cbn in *; lia.
Qed.

(** The fold of [count_holes] is positive exactly when a line is unmarked. *)
Lemma hole_fold_pos ls : 0 < (foldl Block.hole_step (0, false) ls).1 ↔ false ∈ ls.
Proof.
  induction ls as [|m ls IH]; cbn [foldl].
  { split; [cbn; lia|]. intros H. by apply not_elem_of_nil in H. }
  rewrite elem_of_cons. destruct m.
  - change (Block.hole_step (0, false) true) with (0, false). rewrite IH. split; [by right|]. intros [?|?]; done.
  - split; [by left|]. intros _. change (Block.hole_step (0, false) false) with (1, true).
    pose proof (hole_step_mono ls (1, true)) as Hm. cbn [fst] in Hm. lia.
Qed.

Lemma count_holes_ok blk b : block_wf blk →
  ∃ r, Block.count_holes blk b =
      Ok (r, mkBlock (line_map blk) (allocated blk) r (evacuation_candidate blk)) ∧
    0 <= r <= 256 ∧ (r = 0 ↔ has_hole blk = false).
Proof.
  intros Hw. destruct (Block.count_holes_fold blk b Hw) as (r & -> & ->). eexists.
  pose proof (hole_step_mono (Block.line_marks blk) (0, false)) as Hm. cbn [fst] in Hm.
  assert (Hl : length (Block.line_marks blk) = 256%nat) by reflexivity. rewrite Hl in Hm.
  rewrite trunc_small by (unfold in_width; lia). split; [done|]. split; [lia|].
  pose proof (hole_fold_pos (Block.line_marks blk)) as Hp.
  assert (Hi : false ∈ Block.line_marks blk ↔ has_hole blk = true).
  { rewrite has_hole_iff. unfold Block.line_marks. rewrite list_elem_of_fmap. setoid_rewrite elem_of_range.
    split; intros (l & ? & ?); eauto. }
  rewrite Hi in Hp. destruct (has_hole blk); [|split; [done|]; intros _; apply Z.le_antisymm; [|lia];
    apply Z.nlt_ge; intros ?%Hp; done].
  split; [|done]. intros E. pose proof (proj2 Hp eq_refl). lia.
Qed.

(** ** Sorting the blocks *)

Definition is_free (s : Store) (b : Z) : Prop := no_marks (header s b) = true.
Definition is_recyclable (s : Store) (b : Z) : Prop :=
  no_marks (header s b) = false ∧ has_hole (header s b) = true.
Definition is_full (s : Store) (b : Z) : Prop :=
  no_marks (header s b) = false ∧ has_hole (header s b) = false.

#[global] Instance is_free_dec s b : Decision (is_free s b).
Proof. unfold is_free. apply _. Defined.
#[global] Instance is_recyclable_dec s b : Decision (is_recyclable s b).
Proof. unfold is_recyclable. apply _. Defined.
#[global] Instance is_full_dec s b : Decision (is_full s b).
Proof. unfold is_full. apply _. Defined.

(** Sum of a histogram over the hole counts up to [t]. *)
Definition hist_upto (h : gmap Z Z) (t : Z) : Z := sum_list (hist_get h <$> range 0 (t + 1)).

(** A histogram of the marked lines of [n] blocks. *)
Definition hist_ok (h : gmap Z Z) (n : Z) : Prop := (∀ k, 0 <= hist_get h k <= 256 * n) ∧ hist_upto h 255 <= 256 * n.

(** What the next collection needs of it. *)
Definition histogram_ok (h : gmap Z Z) : Prop := (∀ k, 0 <= hist_get h k) ∧ hist_upto h 255 < 2 ^ 64.

Lemma hist_ok_le h n m : hist_ok h n → n <= m → hist_ok h m.
Proof. intros [H1 H2] Hm. split; [intros k; pose proof (H1 k)|]; lia. Qed.

Lemma hist_ok_empty : hist_ok ∅ 0.
Proof. split; [intros k; unfold hist_get; by rewrite lookup_empty|vm_compute; done]. Qed.

Lemma histogram_empty : histogram_ok ∅.
Proof. destruct hist_ok_empty as [H1 H2]. split; [intros k; by apply H1|lia]. Qed.

Lemma hist_upto_add h h' k v : (∀ j, hist_get h' j = hist_get h j + (if decide (k = j) then v else 0)) → 0 <= v →
  hist_upto h' 255 <= hist_upto h 255 + v.
Proof.
  intros Hg Hv. unfold hist_upto. destruct (decide (k ∈ range 0 (255 + 1))) as [Hk|Hk].
  - rewrite (sum_update (hist_get h') (hist_get h) _ k); [|apply NoDup_seqZ|done|].
    + rewrite Hg, decide_True by done. lia.
    + intros y _ Hne. rewrite Hg, decide_False by done. lia.
  - rewrite (fmap_ext_in (hist_get h') (hist_get h)); [lia|]. intros y Hy. rewrite Hg, decide_False; [lia|]. by intros ->.
Qed.

Lemma hist_add_get h k v : hist_get h k + v < 2 ^ 64 → 0 <= hist_get h k → 0 <= v →
  ∃ h', hist_add h k v = Ok h' ∧ ∀ j, hist_get h' j = hist_get h j + (if decide (k = j) then v else 0).
Proof.
  unfold hist_add, hist_get. intros Hb Hp Hv. destruct (h !! k) as [x|] eqn:E; cbn in *.
  - rewrite u_add_ok, bind_Ok by lia. eexists. split; [done|]. intros j. case_decide as C.
    + rewrite <- C, lookup_insert_eq, E. done.
    + rewrite lookup_insert_ne by done. lia.
  - eexists. split; [done|]. intros j. case_decide as C.
    + rewrite <- C, lookup_insert_eq, E. cbn. lia.
    + rewrite lookup_insert_ne by done. lia.
Qed.

Lemma hist_add_ok h k n v : hist_ok h n → 0 <= v <= 256 → 0 <= n < 2 ^ 50 →
  ∃ h', hist_add h k v = Ok h' ∧ hist_ok h' (n + 1).
Proof.
  intros [Hh Hu] Hv Hn. pose proof (Hh k). destruct (hist_add_get h k v) as (h' & E & Hg); [lia..|]. exists h'. split; [exact E|]. split.
  - intros j. pose proof (Hh j). rewrite Hg. case_decide; lia.
  - pose proof (hist_upto_add h h' k v Hg). lia.
Qed.

(** The header a swept block ends up with. *)
Definition swept (blk blk' : ImmixBlock) : Prop :=
  block_wf blk' ∧ line_map blk' = line_map blk ∧ (no_marks blk = true → blk' = Block.zeroed).

(** Only the header of [b] changed. *)
Definition only_header (s s' : Store) (b : Z) : Prop :=
  words s' = words s ∧ ∀ c, c ≠ b → header s' c = header s c.

Lemma only_header_set s b blk : only_header s (set_header s b blk) b.
Proof. split; [done|]. intros c Hc. rewrite header_set. by rewrite decide_False. Qed.

Lemma no_marks_zero_map blk : block_wf blk → no_marks blk = true → line_map blk = [0; 0; 0; 0].
Proof.
  intros [Hl Hw] Hn. rewrite no_marks_iff in Hn.
  apply (list_eq_same_length _ _ 4); [done|done|]. intros i x y Hi Hx Hy.
  assert (Hx64 : in_width 64 x) by (eapply (proj1 (Forall_lookup (in_width 64) (line_map blk))); [exact Hw|exact Hx]).
  assert (y = 0) as -> by (destruct i as [|[|[|[|i]]]]; cbn in Hy; try congruence; lia).
  apply Z.bits_inj'. intros j Hj. rewrite Z.bits_0. destruct (Z.lt_ge_cases j 64) as [L|G].
  - specialize (Hn (Z.of_nat i * 64 + j) ltac:(lia)). unfold line_bit, Words.bit in Hn.
    replace ((Z.of_nat i * 64 + j) / 64) with (Z.of_nat i) in Hn by (Z.div_mod_to_equations; lia).
    replace ((Z.of_nat i * 64 + j) mod 64) with j in Hn by (Z.div_mod_to_equations; lia).
    rewrite Nat2Z.id, Hx in Hn. exact Hn.
  - by apply (testbit_above 64).
Qed.

(** One block. *)
Lemma sweep_block_ok st b n : block_wf (header (sw_store st) b) →
  hist_ok (sw_histogram st) n → 0 <= n < 2 ^ 50 →
  ∃ st', sweep_block st b = Ok st' ∧ hist_ok (sw_histogram st') (n + 1) ∧
    only_header (sw_store st) (sw_store st') b ∧
    swept (header (sw_store st) b) (header (sw_store st') b) ∧
    sw_free st' = sw_free st ++ filter (is_free (sw_store st)) [b] ∧
    sw_recyclable st' = sw_recyclable st ++ filter (is_recyclable (sw_store st)) [b] ∧
    sw_unavailable st' = sw_unavailable st ++ filter (is_full (sw_store st)) [b].
Proof.
  destruct st as [un rc fr hist s]. cbn [sw_store sw_histogram sw_free sw_recyclable sw_unavailable].
  intros Hw Hh Hn. unfold sweep_block.
  cbn [sw_store sw_histogram sw_free sw_recyclable sw_unavailable].
  destruct (Block.is_empty_ok (header s b) b Hw) as (e & -> & He). rewrite bind_Ok, <- no_marks_iff in *.
  destruct e.
  - assert (E : no_marks (header s b) = true) by (by apply He).
    assert (F1 : is_free s b) by done.
    assert (F2 : ¬ is_recyclable s b) by (unfold is_recyclable; rewrite E; by intros []).
    assert (F3 : ¬ is_full s b) by (unfold is_full; rewrite E; by intros []).
    rewrite filter_cons_True, !filter_cons_False, !filter_nil by done.
    destruct (Block.reset_wf (header s b) Hw) as [Hwr Er].
    eexists. split; [done|]. cbn. rewrite !app_nil_r, header_set, decide_True, Er by done.
    split; [eapply hist_ok_le; [exact Hh|lia]|]. split; [by apply only_header_set|]. split; [|done].
    rewrite Er in Hwr. split_and!; [done|by rewrite (no_marks_zero_map _ Hw E)|done].
  - assert (E : no_marks (header s b) = false) by (destruct (no_marks _); [discriminate (proj2 He eq_refl)|done]).
    destruct (count_holes_ok (header s b) b Hw) as (r & -> & Hr & Hr0). rewrite bind_Ok.
    unfold Block.count_holes_and_marked_lines.
    set (blk := mkBlock (line_map (header s b)) (allocated (header s b)) r (evacuation_candidate (header s b))).
    destruct (count_marked_ok blk b true Hw) as (k & -> & Hk). rewrite !bind_Ok. cbn beta iota.
    destruct (hist_add_ok hist (hole_count blk) n k Hh Hk Hn) as (h' & -> & Hh'). rewrite bind_Ok. cbn [hole_count blk].
    assert (Hsw : swept (header s b) (header (set_header s b blk) b)).
    { rewrite header_set, decide_True by done. split_and!; [done|done|by rewrite E]. }
    assert (F1 : ¬ is_free s b) by (unfold is_free; by rewrite E).
    rewrite (filter_cons_False (is_free s)) by done. destruct (has_hole (header s b)) eqn:Eh.
    + rewrite decide_False by (intros ->; by discriminate (proj1 Hr0 eq_refl)).
      rewrite (filter_cons_True (is_recyclable s)), (filter_cons_False (is_full s)), !filter_nil
        by (unfold is_recyclable, is_full; rewrite ?E, ?Eh; done || by intros []).
      eexists. split; [done|]. cbn. rewrite !app_nil_r. split_and!; try done; by apply only_header_set.
    + rewrite decide_True by (by apply Hr0).
      rewrite (filter_cons_False (is_recyclable s)), (filter_cons_True (is_full s)), !filter_nil
        by (unfold is_recyclable, is_full; rewrite ?E, ?Eh; done || by intros []).
      eexists. split; [done|]. cbn. rewrite !app_nil_r. split_and!; try done; by apply only_header_set.
Qed.

(** What the sweep of the blocks [l] has done. *)
Record swept_all (l : list Z) (st st' : SweepState) : Prop := {
  sa_words : words (sw_store st') = words (sw_store st);
  sa_other : ∀ c, c ∉ l → header (sw_store st') c = header (sw_store st) c;
  sa_swept : ∀ c, c ∈ l → swept (header (sw_store st) c) (header (sw_store st') c);
  sa_free : sw_free st' = sw_free st ++ filter (is_free (sw_store st)) l;
  sa_rec : sw_recyclable st' = sw_recyclable st ++ filter (is_recyclable (sw_store st)) l;
  sa_full : sw_unavailable st' = sw_unavailable st ++ filter (is_full (sw_store st)) l;
  sa_hist : histogram_ok (sw_histogram st')
}.

(** The class of a block depends on its header alone. *)
Ltac same_class := apply filter_ext_in; intros ? ?;
  unfold is_free, is_recyclable, is_full; match goal with E : ∀ c, c ∈ _ → header _ c = _ |- _ => by rewrite E end.

Lemma filter_snoc_cons {A} (P : A → Prop) `{!∀ x, Decision (P x)} (k : list A) b l :
  (k ++ filter P [b]) ++ filter P l = k ++ filter P (b :: l).
Proof.
  rewrite <- app_assoc. f_equal. rewrite (filter_cons P b l), (filter_cons P b []), filter_nil. by destruct (decide (P b)).
Qed.

Lemma sweep_blocks_ok l st n : NoDup l → (∀ b, b ∈ l → block_wf (header (sw_store st) b)) →
  hist_ok (sw_histogram st) n → 0 <= n → n + Z.of_nat (length l) < 2 ^ 50 →
  ∃ st', for_each sweep_block l st = Ok st' ∧ swept_all l st st'.
Proof.
  revert st n. induction l as [|b l IH]; intros st n Hnd Hw Hh Hn Hl.
  { exists st. split; [done|]. constructor; try done; try (rewrite filter_nil, app_nil_r; done).
    - intros c Hc. by apply not_elem_of_nil in Hc.
    - destruct Hh as [Hh1 Hh2]. split; [intros k; by apply Hh1|cbn in Hl; lia]. }
  apply NoDup_cons in Hnd as [Hb Hnd]. cbn [length] in Hl. cbn [for_each].
  destruct (sweep_block_ok st b n) as (st1 & -> & Hh1 & [Hwd Ho] & Hsw & Ef & Er & Eu); [apply Hw; left|done|lia|].
  rewrite bind_Ok. assert (Hne : ∀ c, c ∈ l → header (sw_store st1) c = header (sw_store st) c).
  { intros c Hc. apply Ho. by intros ->. }
  destruct (IH st1 (n + 1) Hnd) as (st' & E & [A1 A2 A3 A4 A5 A6 A7]); [|done|lia|lia|].
  { intros c Hc. rewrite Hne by done. apply Hw. by right. }
  exists st'. split; [exact E|]. constructor.
  - congruence.
  - intros c [Hc1 Hc2]%not_elem_of_cons. rewrite A2 by done. auto.
  - intros c [->|Hc]%elem_of_cons; [by rewrite A2|]. rewrite <- Hne by done. auto.
  - rewrite A4, Ef, <- (filter_snoc_cons _ (sw_free st) b l). f_equal. same_class.
  - rewrite A5, Er, <- (filter_snoc_cons _ (sw_recyclable st) b l). f_equal. same_class.
  - rewrite A6, Eu, <- (filter_snoc_cons _ (sw_unavailable st) b l). f_equal. same_class.
  - exact A7.
Qed.

(** ** Handing the blocks back *)

Section Reclaim.
Context `{Cfg}.
Import ImmixSpaceM(space_ok(..), free_space, normal_v, overflow_v, evac_v, evac_headroom, return_blocks, set_recyclable_blocks, available_range, so_world, so_evac, so_bitmap, covers).


(** The state during a collection: the normal and the overflow allocator are drained,
    and the blocks of the collection belong to nobody else. *)
Record collecting (self : Collector) (sp : ImmixSpace) (w : World) : Prop := {
  co_space : space_ok sp w;
  co_normal : normal_v sp w = mkView None [] [];
  co_overflow : overflow_v sp w = mkView None [] [];
  co_nodup : NoDup (all_blocks self);
  co_range : ∀ b, b ∈ all_blocks self → BA.in_range (w_ba w) b ∧ ¬ BA.available (w_ba w) b;
  co_evac : all_blocks self ## v_blocks (evac_v sp w);
  co_headroom : evac_headroom sp <= EVAC_HEADROOM
}.

(** There are fewer than 2^50 blocks in the address space. *)
Lemma aligned_count l N : 0 <= N → NoDup l → (∀ b, b ∈ l → b mod 32768 = 0 ∧ 0 <= b < N * 32768) →
  Z.of_nat (length l) <= N.
Proof.
  intros HN Hn Hr. assert (Hs : l ⊆+ (λ k, k * 32768) <$> range 0 N).
  { apply NoDup_submseteq; [done|]. intros b Hb. destruct (Hr b Hb). apply list_elem_of_fmap. exists (b / 32768).
    split; [Z.div_mod_to_equations; lia|]. apply elem_of_range. Z.div_mod_to_equations. lia. }
  apply submseteq_length in Hs. rewrite length_fmap in Hs. unfold range in Hs. rewrite length_seqZ in Hs. lia.
Qed.

Lemma blocks_bound ba l : BA.inv ba → NoDup l → (∀ b, b ∈ l → BA.in_range ba b) →
  Z.of_nat (length l) < 2 ^ 50.
Proof.
  intros [Hst Hbd _ _ _] Hn Hr. apply Z.le_lt_trans with (2 ^ 48); [|done].
  apply aligned_count; [done..|]. intros b Hb. destruct (Hr b Hb) as (Hal & Hlo & Hhi). consts.
  pose proof (BA.aligned_spec (mmap ba)). split; [done|].
  assert (2 ^ 48 * 32768 = 2 ^ 63) as -> by done. lia.
Qed.

(** The header of an arbitrary address after blocks were returned. *)
Lemma return_header_or ba s bs b :
  header (BA.return_blocks ba s bs).2 b = Block.zeroed ∨ header (BA.return_blocks ba s bs).2 b = header s b.
Proof.
  unfold BA.return_blocks. revert ba s. induction bs as [|c bs IH]; intros ba s; [by right|]. cbn [foldl].
  edestruct IH as [E|E]; rewrite E; [by left|]. rewrite BA.header_dontneed. case_decide; auto.
Qed.

Lemma return_words ba s bs a : (∀ b, b ∈ bs → ¬ (b <= a < b + BLOCK_SIZE)) →
  word (BA.return_blocks ba s bs).2 a = word s a.
Proof.
  unfold BA.return_blocks. revert ba s. induction bs as [|c bs IH]; intros ba s Hb; [done|]. cbn [foldl].
  rewrite IH by (intros; apply Hb; by right). unfold word, mem_read, Mmap_dontneed. cbn [words].
  assert (Hc : ¬ (c <= a < c + BLOCK_SIZE)) by (apply Hb; left).
  destruct (words s !! a) as [x|] eqn:E.
  - by rewrite (proj2 (map_lookup_filter_Some _ _ _ _) (conj E Hc)).
  - by rewrite (proj2 (map_lookup_filter_None _ _ _)) by (by left).
Qed.

(** A block of the space that is not available has been handed out before. *)
Lemma taken_below ba b : BA.inv ba → BA.in_range ba b → ¬ BA.available ba b →
  (b ∉ free_blocks ba) ∧ b + BLOCK_SIZE <= data ba.
Proof.
  intros [_ _ [Hd _] _ _] (Hal & _ & Hhi) Hna. split; [intros Hf; apply Hna; by left|].
  destruct (Z.lt_ge_cases b (data ba)) as [L|G]; [|destruct Hna; right; lia].
  consts. destruct (BA.aligned_ne_disjoint b (data ba)); try done; lia.
Qed.

(** Returning blocks keeps the world consistent and makes exactly them available. *)
Lemma return_blocks_world w bs : world_ok w → NoDup bs →
  (∀ b, b ∈ bs → BA.in_range (w_ba w) b ∧ ¬ BA.available (w_ba w) b) →
  let w' := return_blocks w bs in
  world_ok w' ∧ w_tls w' = w_tls w ∧
  mmap (w_ba w') = mmap (w_ba w) ∧ data_bound (w_ba w') = data_bound (w_ba w) ∧
  free_blocks (w_ba w') = free_blocks (w_ba w) ++ bs ∧
  (∀ b, BA.available (w_ba w') b ↔ b ∈ bs ∨ BA.available (w_ba w) b) ∧
  (∀ b, b mod BLOCK_SIZE = 0 → header (w_store w') b = if decide (b ∈ bs) then Block.zeroed else header (w_store w) b).
Proof.
  intros [Hi Hwf Hfr] Hn Hb w'. unfold w', return_blocks.
  pose proof (BA.return_blocks_free (w_ba w) (w_store w) bs) as Ef.
  pose proof (BA.return_blocks_inv (w_ba w) (w_store w) bs Hi Hn) as Hi'.
  pose proof (return_header_or (w_ba w) (w_store w) bs) as Hor.
  pose proof (λ b, BA.return_blocks_header (w_ba w) (w_store w) bs b) as Hh.
  destruct (BA.return_blocks (w_ba w) (w_store w) bs) as [ba s]. cbn [fst snd w_ba w_store w_tls] in *. subst ba.
  assert (Hal : ∀ c, c ∈ bs → c mod BLOCK_SIZE = 0) by (intros c Hc; by apply Hb).
  assert (Hav : ∀ b, BA.available (mkBA (free_blocks (w_ba w) ++ bs) (data_bound (w_ba w)) (data (w_ba w)) (mmap (w_ba w))) b
                  ↔ b ∈ bs ∨ BA.available (w_ba w) b).
  { intros b. unfold BA.available. cbn. rewrite elem_of_app. tauto. }
  split_and!; try done; [|intros; by apply Hh].
  constructor; cbn.
  - apply Hi'. intros b Hbb. destruct (Hb b Hbb) as [Hin Hna].
    destruct (taken_below _ b Hi Hin Hna). destruct Hin as (? & ? & _). done.
  - intros b. destruct (Hor b) as [E|E]; rewrite E; [apply Block.zeroed_wf|apply Hwf].
  - intros b Hab. rewrite Hav in Hab.
    assert (Hbal : b mod BLOCK_SIZE = 0).
    { destruct Hab as [?|Ha]; [by apply Hal|]. by apply available_range in Ha as [? _]. }
    rewrite Hh by done. case_decide; [done|]. apply Hfr. tauto.
Qed.

(** The memory after the sweep, before any block is handed back. *)
Lemma sweep_world self w : world_ok w → NoDup (all_blocks self) →
  (∀ b, b ∈ all_blocks self → BA.in_range (w_ba w) b ∧ ¬ BA.available (w_ba w) b) →
  ∃ h s, sweep_all_blocks (mkCollector (all_blocks self) ∅) (w_store w) =
      Ok (filter (is_recyclable (w_store w)) (all_blocks self), filter (is_free (w_store w)) (all_blocks self),
          mkCollector (filter (is_full (w_store w)) (all_blocks self)) h, s) ∧
    world_ok (set_store w s) ∧ words s = words (w_store w) ∧
    (∀ b, line_map (header s b) = line_map (header (w_store w) b)) ∧
    (∀ b, b ∈ all_blocks self → is_free (w_store w) b → header s b = Block.zeroed) ∧ histogram_ok h.
Proof.
  intros [Hi Hwf Hfr] Hn Hr. unfold sweep_all_blocks. cbn [all_blocks mark_histogram].
  destruct (sweep_blocks_ok (all_blocks self) (mkSweep [] [] [] ∅ (w_store w)) 0 Hn) as (st & -> & [A1 A2 A3 A4 A5 A6 A7]).
  - auto.
  - apply hist_ok_empty.
  - lia.
  - pose proof (blocks_bound (w_ba w) (all_blocks self) Hi Hn). apply H0. intros. by apply Hr.
  - cbn [sw_store sw_free sw_recyclable sw_unavailable app] in *. rewrite bind_Ok, A4, A5, A6.
    do 2 eexists. split; [done|]. split_and!; [|done| | |exact A7].
    + constructor; [done| |]; cbn.
      * intros b. destruct (decide (b ∈ all_blocks self)) as [Hb|Hb]; [apply (A3 b Hb)|by rewrite A2].
      * intros b Hb. rewrite A2; [by apply Hfr|]. intros Hin. by apply (Hr b Hin).
    + intros b. destruct (decide (b ∈ all_blocks self)) as [Hb|Hb]; [apply (A3 b Hb)|by rewrite A2].
    + intros b Hb Hf. by apply (A3 b Hb).
Qed.

(** What [reclaim] leaves behind: the views of the allocators and the free blocks. *)
Record reclaimed (self : Collector) (sp : ImmixSpace) (w : World)
    (self' : Collector) (sp' : ImmixSpace) (w' : World) : Prop := {
  rc_ba : mmap (w_ba w') = mmap (w_ba w) ∧ data_bound (w_ba w') = data_bound (w_ba w);
  rc_world : world_ok w';
  rc_tls : w_tls w' = w_tls w;
  rc_bitmap : bitmap sp' = bitmap sp;
  rc_full : all_blocks self' = filter (is_full (w_store w)) (all_blocks self);
  rc_normal : normal_v sp' w' = mkView None (filter (is_recyclable (w_store w)) (all_blocks self)) [];
  rc_overflow : overflow_v sp' w' = mkView None [] [];
  rc_fields : n_current_block (allocator sp') = n_current_block (allocator sp) ∧
    o_current_block (overflow_allocator sp') = o_current_block (overflow_allocator sp);
  rc_evac : ∃ k, evac_v sp' w' = mkView (v_cur (evac_v sp w))
      (v_pool (evac_v sp w) ++ take k (filter (is_free (w_store w)) (all_blocks self))) (v_full (evac_v sp w)) ∧
    free_blocks (w_ba w') = free_blocks (w_ba w) ++ drop k (filter (is_free (w_store w)) (all_blocks self)) ∧
    (∀ b, BA.available (w_ba w') b ↔
       b ∈ drop k (filter (is_free (w_store w)) (all_blocks self)) ∨ BA.available (w_ba w) b);
  rc_headroom : evac_headroom sp' <= EVAC_HEADROOM;
  rc_lines : ∀ b l, b mod BLOCK_SIZE = 0 → marked_line w' b l = marked_line w b l;
  rc_words : ∀ a, (∀ b, b ∈ all_blocks self → is_free (w_store w) b → ¬ (b <= a < b + BLOCK_SIZE)) →
    word (w_store w') a = word (w_store w) a;
  rc_histogram : histogram_ok (mark_histogram self')
}.

Lemma elem_of_drop_1 {A} k (l : list A) x : x ∈ drop k l → x ∈ l.
Proof. intros Hx. rewrite <- (take_drop k l). apply elem_of_app. by right. Qed.

Lemma elem_of_take_1 {A} k (l : list A) x : x ∈ take k l → x ∈ l.
Proof. intros Hx. rewrite <- (take_drop k l). apply elem_of_app. by left. Qed.

Lemma reclaim_reclaimed self sp w : collecting self sp w →
  ∃ self' sp' w', reclaim self sp w = Ok (self', sp', w') ∧ reclaimed self sp w self' sp' w'.
Proof.
  intros [Hok Hnv Hov Hn Hr _ Hh]. pose proof (so_world _ _ Hok) as Hw. unfold reclaim.
  destruct (sweep_world self w Hw Hn Hr) as (h & s & -> & Hw1 & Hwd & Hlm & Hz & Hhist). rewrite bind_Ok.
  change USE_EVACUATION with true. cbn beta iota.
  set (free := filter (is_free (w_store w)) (all_blocks self)) in *.
  change (evac_headroom (set_recyclable_blocks _ _)) with (evac_headroom sp). rewrite u_sub_ok, bind_Ok by done.
  set (k := Z.to_nat (EVAC_HEADROOM - evac_headroom sp)).
  assert (Hfr : ∀ b, b ∈ free → b ∈ all_blocks self ∧ is_free (w_store w) b).
  { intros b [? ?]%list_elem_of_filter. done. }
  destruct (return_blocks_world (set_store w s) (drop k free) Hw1) as (B1 & B2 & B3 & B4 & B5 & B6 & B7).
  { apply (NoDup_app (take k free)). rewrite take_drop. by apply NoDup_filter. }
  { intros b [Hb _]%elem_of_drop_1%Hfr. by apply Hr. }
  do 3 eexists. split; [done|]. constructor; try done.
  - injection Hnv as Ec Er Eu. unfold normal_v. cbn. unfold normal_view. rewrite B2. cbn. by rewrite Ec, Eu.
  - rewrite <- Hov. unfold overflow_v. cbn. unfold overflow_view. by rewrite B2.
  - exists k. by split_and!.
  - unfold evac_headroom, Evac.evac_headroom in *. cbn. rewrite length_app, length_take.
    unfold k, EVAC_HEADROOM in *. lia.
  - intros b l Hb. unfold marked_line, line_bit. rewrite B7 by done. case_decide as C; [|cbn; by rewrite Hlm].
    apply elem_of_drop_1, Hfr in C as [Hb1 Hb2]. rewrite (no_marks_zero_map (header (w_store w) b)); [done|apply Hw|done].
  - intros a Ha. unfold return_blocks. pose proof (return_words (w_ba (set_store w s)) s (drop k free) a) as Hrw.
    destruct (BA.return_blocks _ _ _) as [ba' s']. cbn in *. rewrite Hrw; [unfold word; by rewrite Hwd|].
    intros b [Hb1 Hb2]%elem_of_drop_1%Hfr. auto.
Qed.

Section Reclaimed.
Context (self : Collector) (sp : ImmixSpace) (w : World) (self' : Collector) (sp' : ImmixSpace) (w' : World).
Context (Hco : collecting self sp w) (Hrc : reclaimed self sp w self' sp' w').

Abbreviation freed := (filter (is_free (w_store w)) (all_blocks self)).
Abbreviation recycled := (filter (is_recyclable (w_store w)) (all_blocks self)).

Lemma freed_in b : b ∈ freed → b ∈ all_blocks self ∧ is_free (w_store w) b.
Proof. intros [? ?]%list_elem_of_filter. done. Qed.

Lemma recycled_in b : b ∈ recycled → b ∈ all_blocks self ∧ is_recyclable (w_store w) b.
Proof. intros [? ?]%list_elem_of_filter. done. Qed.

Lemma free_not_recyclable b : is_free (w_store w) b → ¬ is_recyclable (w_store w) b.
Proof. unfold is_free, is_recyclable. intros -> [[=] _]. Qed.

Lemma rc_in_range b : BA.in_range (w_ba w') b ↔ BA.in_range (w_ba w) b.
Proof. destruct (rc_ba _ _ _ _ _ _ Hrc) as [E1 E2]. unfold BA.in_range. by rewrite E1, E2. Qed.

Lemma rc_unavailable b : ¬ BA.available (w_ba w) b → b ∉ freed → ¬ BA.available (w_ba w') b.
Proof.
  intros Hna Hf. destruct (rc_evac _ _ _ _ _ _ Hrc) as (k & _ & _ & Ha). rewrite Ha.
  intros [Hd%elem_of_drop_1|?]; done.
Qed.

Lemma rc_tuple tp : BA.in_range (w_ba w) tp.1.1 → tuple_ok w tp → tuple_ok w' tp.
Proof.
  destruct tp as [[b low] high]. intros [Hb _] (? & ? & ? & Hl). unfold tuple_ok. split_and!; try lia.
  intros l ?. rewrite (rc_lines _ _ _ _ _ _ Hrc) by done. auto.
Qed.

Lemma reclaimed_normal_ok : view_ok false w' (normal_v sp' w').
Proof.
  rewrite (rc_normal _ _ _ _ _ _ Hrc). pose proof Hco as [_ _ _ Hn Hr _ _].
  constructor; [done| | |done]; unfold v_blocks, cur_block; cbn; rewrite app_nil_r.
  - by apply NoDup_filter.
  - intros b [Hb Hc]%recycled_in. destruct (Hr b Hb). rewrite rc_in_range. split; [done|].
    apply rc_unavailable; [done|]. intros [_ Hf]%freed_in. by apply free_not_recyclable in Hf.
Qed.

Lemma reclaimed_overflow_ok : view_ok false w' (overflow_v sp' w').
Proof.
  rewrite (rc_overflow _ _ _ _ _ _ Hrc). constructor; [done|constructor| |done].
  intros b Hb. by apply not_elem_of_nil in Hb.
Qed.

(** The blocks of the evacuation allocator: its own and some of the freed ones. *)
Lemma reclaimed_evac_blocks : ∃ k,
  v_blocks (evac_v sp' w') ≡ₚ v_blocks (evac_v sp w) ++ take k freed ∧
  (∀ b, BA.available (w_ba w') b ↔ b ∈ drop k freed ∨ BA.available (w_ba w) b) ∧
  v_cur (evac_v sp' w') = v_cur (evac_v sp w) ∧ v_pool (evac_v sp' w') = v_pool (evac_v sp w) ++ take k freed.
Proof.
  destruct (rc_evac _ _ _ _ _ _ Hrc) as (k & E & _ & Ha). exists k. rewrite E. split_and!; try done.
  unfold v_blocks at 1, cur_block. cbn [v_cur v_pool v_full]. unfold v_blocks, cur_block.
  rewrite <- !app_assoc. do 2 f_equiv. apply Permutation_app_comm.
Qed.

Lemma reclaimed_evac_ok : view_ok true w' (evac_v sp' w').
Proof.
  pose proof Hco as [Hok _ _ Hn Hr Hd _]. pose proof (so_evac _ _ Hok) as [Ht Hne Hre Hcl].
  destruct reclaimed_evac_blocks as (k & Hp & Ha & Ec & Epl).
  assert (Hnf : NoDup (take k freed ++ drop k freed)) by (rewrite take_drop; by apply NoDup_filter).
  apply NoDup_app in Hnf as (Hnt & Htd & _).
  assert (Hna : ∀ b, b ∈ v_blocks (evac_v sp w) ++ take k freed → BA.in_range (w_ba w) b ∧ ¬ BA.available (w_ba w') b).
  { intros b [Hb|Hb]%elem_of_app.
    - destruct (Hre b Hb). split; [done|]. apply rc_unavailable; [done|]. intros [Hf _]%freed_in. by apply (Hd b).
    - pose proof (elem_of_take_1 _ _ _ Hb) as [Hf _]%freed_in. destruct (Hr b Hf). split; [done|].
      rewrite Ha. intros [?|?]; [by apply (Htd b)|done]. }
  constructor.
  - rewrite Ec. intros tp Etp. apply rc_tuple; [|by apply Ht]. apply Hre. unfold v_blocks, cur_block. rewrite Etp. left.
  - rewrite Hp. apply NoDup_app. split_and!; try done. intros b Hb [Hf _]%elem_of_take_1%freed_in. by apply (Hd b).
  - intros b. rewrite Hp. intros Hb. rewrite rc_in_range. by apply Hna.
  - intros _ b. rewrite Epl. intros [Hb|Hb]%elem_of_app l.
    + rewrite (rc_lines _ _ _ _ _ _ Hrc); [by apply Hcl|]. apply Hre. unfold v_blocks. rewrite !elem_of_app. tauto.
    + apply elem_of_take_1, freed_in in Hb as [Hb Hf]. rewrite (rc_lines _ _ _ _ _ _ Hrc) by (by apply Hr).
      unfold marked_line, line_bit. rewrite (no_marks_zero_map (header (w_store w) b)); [|apply Hok|done].
      apply (Words.bit_zeros 4).
Qed.

Lemma reclaimed_space_ok : space_ok sp' w'.
Proof.
  pose proof Hco as [Hok _ _ Hn Hr Hd _]. destruct reclaimed_evac_blocks as (k & Hp & Ha & Ec & Epl).
  constructor.
  - apply Hrc.
  - apply reclaimed_normal_ok.
  - apply reclaimed_overflow_ok.
  - apply reclaimed_evac_ok.
  - rewrite (rc_overflow _ _ _ _ _ _ Hrc). intros b _ Hb. by apply not_elem_of_nil in Hb.
  - rewrite (rc_normal _ _ _ _ _ _ Hrc). intros b Hb. unfold v_blocks, cur_block in Hb. cbn in Hb. rewrite app_nil_r in Hb.
    apply recycled_in in Hb as [Hb Hc]. rewrite Hp. intros [He|He]%elem_of_app; [by apply (Hd b)|].
    apply elem_of_take_1, freed_in in He as [_ Hf]. by apply free_not_recyclable in Hf.
  - rewrite (rc_overflow _ _ _ _ _ _ Hrc). intros b Hb. by apply not_elem_of_nil in Hb.
  - destruct (so_bitmap _ _ Hok) as (? & Hb & ?). destruct (rc_ba _ _ _ _ _ _ Hrc) as [E1 E2].
    unfold covers. rewrite (rc_bitmap _ _ _ _ _ _ Hrc), E1, E2. by split_and!.
Qed.

(** Memory outside the space is not touched by the sweep. *)
Lemma reclaimed_outside a : BA.is_in_space (w_ba w) a = false → word (w_store w') a = word (w_store w) a.
Proof.
  intros Ha. apply (rc_words _ _ _ _ _ _ Hrc). intros b Hb _ Hx.
  destruct (co_range _ _ _ Hco b Hb) as [(_ & Hlo & Hhi) _]. pose proof (BA.aligned_spec (mmap (w_ba w))).
  unfold BA.is_in_space in Ha. apply not_true_iff_false in Ha. apply Ha. rewrite andb_true_iff, !bool_decide_eq_true. lia.
Qed.

(** What is free after the sweep was free before or lies in unmarked lines of a block
    of the collection. *)
Lemma reclaimed_free x : free_space sp' w' x →
  free_space sp w x ∨ ∃ b, b ∈ all_blocks self ∧ in_span w b 128 x.
Proof.
  pose proof Hco as [Hok _ _ _ Hr _ _]. destruct reclaimed_evac_blocks as (k & _ & Ha & Ec & Epl).
  assert (Hsp : ∀ b low, BA.in_range (w_ba w) b → in_span w' b low x → in_span w b low x).
  { intros b low [Hb _] [Hx Hl]. split; [done|]. intros l Hll. rewrite <- (rc_lines _ _ _ _ _ _ Hrc) by done. auto. }
  intros [Hx|[Hx|[Hx|(b & Hb & Hs)]]].
  - rewrite (rc_normal _ _ _ _ _ _ Hrc) in Hx. destruct Hx as [(b & low & high & [=] & _)|(b & Hb & Hs)].
    apply recycled_in in Hb as [Hb _]. right. exists b. split; [done|]. apply Hsp; [by apply Hr|done].
  - rewrite (rc_overflow _ _ _ _ _ _ Hrc) in Hx. destruct Hx as [(b & low & high & [=] & _)|(b & Hb & _)].
    by apply not_elem_of_nil in Hb.
  - unfold free_in_view in Hx. rewrite Ec, Epl in Hx. pose proof (so_evac _ _ Hok) as [_ _ Hre _].
    destruct Hx as [(b & low & high & E & Hs)|(b & [Hb|Hb]%elem_of_app & Hs)].
    + left. right. right. left. left. exists b, low, high. split; [done|]. apply Hsp; [|done].
      apply Hre. unfold v_blocks, cur_block. rewrite E. left.
    + left. right. right. left. right. exists b. split; [done|]. apply Hsp; [|done]. apply Hre.
      unfold v_blocks. rewrite !elem_of_app. tauto.
    + apply elem_of_take_1, freed_in in Hb as [Hb _]. right. exists b. split; [done|]. apply Hsp; [by apply Hr|done].
  - apply Ha in Hb as [Hb|Hb].
    + apply elem_of_drop_1, freed_in in Hb as [Hb _]. right. exists b. split; [done|]. apply Hsp; [by apply Hr|done].
    + left. right. right. right. exists b. split; [done|]. apply Hsp; [|done].
      apply ImmixSpaceM.available_range; [apply Hok|done].
Qed.

End Reclaimed.

End Reclaim.
