(* ===== verification/Marking.v ===== *)
(** * Marking: the collector marks exactly the reachable objects

    The marking loop of a collection that moves no object, over a heap of objects
    [objs]: one of the plain kind, or an evacuating one that has no block to move
    objects to ([still]).  The run-time type information of the program is a parameter; [heap_ok]
    says what the collector relies on: headers are well formed, references lead to
    objects, and the sizes and slots a type reports do not depend on mark bits. *)

From stdpp Require Import base numbers list list_numbers gmap relations.
From Stdlib Require Import ZArith Lia.
From S2P Require Import Prelude Util Constants Bitmap Block SpaceBitmap Object BlockAllocator.
From S2P Require Import Allocation AllocatorLaws Allocators ImmixSpace LargeObjectSpace Collector Sweep.
Local Open Scope Z_scope.

Lemma set_bitmap_id sp : sp = set_bitmap sp (bitmap sp).
Proof. by destruct sp. Qed.

(** ** When nothing is moved *)

(** The evacuation allocator has no block. *)
Definition exhausted (e : EvacAllocator) : Prop := e_evac_headroom e = [] ∧ e_current_block e = None.

(** A collection of kind [ct] leaves all objects where they are. *)
Definition still (ct : CollectionType) (sp : ImmixSpace) : Prop :=
  ct = ImmixEvacCollection → exhausted (evac_allocator sp).

Lemma still_plain sp : still ImmixCollection sp.
Proof. by intros [=]. Qed.

Lemma exhausted_allocate `{Cfg} e w size : exhausted e → Allocation.allocate e w size = Ok (0, e, w).
Proof. destruct e as [un hr cu]. by intros [[= ->] [= ->]]. Qed.

(** [maybe_evacuate] then changes nothing. *)
Lemma maybe_evacuate_still `{Cfg} rtti_of sp w o n : exhausted (evac_allocator sp) →
  header_wf (word (w_store w) o) → ImmixSpaceM.object_size_at rtti_of (w_store w) o = Ok n → 0 <= n < 2 ^ 64 - 16 →
  ImmixSpaceM.maybe_evacuate rtti_of sp w o = Ok (None, sp, w).
Proof.
  intros He Hw Hs Hn. unfold ImmixSpaceM.maybe_evacuate. rewrite HeaderFacts.is_pinned_ok, bind_Ok by done.
  destruct (_ || _); [done|]. rewrite Hs, bind_Ok, Rounding.align_usize_ok, bind_Ok by lia.
  rewrite exhausted_allocate, bind_Ok by done. by destruct sp.
Qed.

Section Marking.
Context `{Cfg} (rtti_of : Z → GCRTTI) (next : bool).
(** The objects of the heap and the blocks of the collection. *)
Context (objs blocks : list Z).
(** The space and the memory when marking starts. *)
Context (sp0 : ImmixSpace) (w0 : World).
Abbreviation s0 := (w_store w0).

Definition vtable_of (o : Z) : Z := Bits.untagged (word s0 o).
Definition rtti (o : Z) : GCRTTI := rtti_of (vtable_of o).
Definition slots (o : Z) : list Z := visit_references (rtti o) (words s0) o.
Definition kids (o : Z) : list Z := word s0 <$> slots o.
Definition osize (o : Z) : Z := Rounding.ceil_div (heap_size (rtti o) (words s0) o) 16 * 16.

(** Two memories agree except for the headers of objects. *)
Definition same_outside (m m' : mem) : Prop := ∀ a, a ∉ objs → mem_read m a = mem_read m' a.

(** An object of the immix space: behind the header of a block of the collection,
    and inside the block. *)
Definition placed_in (o : Z) : Prop :=
  Block.get_block_ptr o ∈ blocks ∧ Block.get_block_ptr o + 128 <= o ∧
  o + osize o < Block.get_block_ptr o + BLOCK_SIZE.

Definition immix (o : Z) : Prop := BA.is_in_space (w_ba w0) o = true.

Record heap_ok : Prop := {
  hk_header : ∀ o, o ∈ objs → header_wf (word s0 o) ∧ hd_forwarded (decode (word s0 o)) = false ∧
    hd_mark (decode (word s0 o)) = negb next;
  hk_size : ∀ o, o ∈ objs → 0 < heap_size (rtti o) (words s0) o < 2 ^ 63;
  hk_stable : ∀ o m, o ∈ objs → same_outside m (words s0) →
    heap_size (rtti o) m o = heap_size (rtti o) (words s0) o ∧
    visit_references (rtti o) m o = slots o;
  hk_slots : ∀ o a, o ∈ objs → a ∈ slots o → (a ∉ objs) ∧ word s0 a ∈ objs;
  hk_placed : ∀ o, o ∈ objs → immix o → placed_in o;
  hk_blocks : ∀ b, b ∈ blocks → BA.in_range (w_ba w0) b;
  hk_total : sum_list (osize <$> objs) < 2 ^ 64;
  hk_nodup : NoDup objs
}.

(** ** The state of the heap while marking *)

Definition marked_obj (w : World) (o : Z) : bool :=
  bool_decide (hd_mark (decode (word (w_store w) o)) = next).

(** Headers of objects differ from the start in their marks and their pins at most: both
    marking and pinning leave it so. *)
Record heap_now (w : World) : Prop := {
  hn_same : same_outside (words (w_store w)) (words s0);
  hn_header : ∀ o, o ∈ objs → header_wf (word (w_store w) o) ∧
    hd_forwarded (decode (word (w_store w) o)) = false ∧
    hd_pointer (decode (word (w_store w) o)) = vtable_of o
}.

(** The pins are those of the start. *)
Definition pins_kept (w : World) : Prop :=
  ∀ o, o ∈ objs → hd_pinned (decode (word (w_store w) o)) = hd_pinned (decode (word s0 o)).

Lemma vtable_now w o : heap_now w → o ∈ objs → RawGc.vtable (word (w_store w) o) = Ok (vtable_of o).
Proof. intros [_ Hh] Ho. destruct (Hh o Ho) as (Hw & _ & Hp). by rewrite HeaderFacts.vtable_ok, Hp. Qed.

Lemma size_now w o : heap_ok → heap_now w → o ∈ objs →
  ImmixSpaceM.object_size_at rtti_of (w_store w) o = Ok (osize o).
Proof.
  intros Hk Hn Ho. unfold ImmixSpaceM.object_size_at. rewrite vtable_now, bind_Ok by done.
  destruct (hk_stable Hk o (words (w_store w)) Ho (hn_same _ Hn)) as [E _].
  unfold RawGc.object_size. fold (rtti o). rewrite E. pose proof (hk_size Hk o Ho).
  by rewrite Rounding.align_usize_ok by lia.
Qed.

Lemma osize_pos o : heap_ok → o ∈ objs → 0 < osize o.
Proof.
  intros Hk Ho. pose proof (hk_size Hk o Ho). unfold osize.
  pose proof (Rounding.ceil_div_bounds (heap_size (rtti o) (words s0) o) 16). lia.
Qed.

Lemma word_set s a x b : word (set_word s a x) b = if decide (b = a) then x else word s b.
Proof.
  unfold word, set_word, mem_read. cbn. case_decide; [subst; by rewrite lookup_insert_eq|by rewrite lookup_insert_ne].
Qed.

(** Marking the header of [o]. *)
Lemma mark_header_ok w o : heap_now w → o ∈ objs →
  ∃ h, RawGc.mark (word (w_store w) o) next = Ok (marked_obj w o, h) ∧
    let w1 := set_store w (set_word (w_store w) o h) in
    heap_now w1 ∧ (pins_kept w → pins_kept w1) ∧
    (∀ x, x ∈ objs → marked_obj w1 x = bool_decide (x = o) || marked_obj w x).
Proof.
  intros [Hs Hh] Ho. destruct (Hh o Ho) as (Hw & Hf & Hp).
  destruct (HeaderFacts.mark_ok (word (w_store w) o) next Hw) as (h & E & Hwf & Hd).
  exists h. split; [done|]. split_and!; [constructor|..].
  - intros a Ha. cbn. rewrite <- Hs by done. change (word (set_word (w_store w) o h) a = word (w_store w) a).
    rewrite word_set, decide_False; [done|]. by intros ->.
  - intros x Hx. cbn [set_store w_store]. rewrite word_set.
    destruct (decide (x = o)) as [->|]; [rewrite Hd; by split_and!|auto].
  - intros Hpk x Hx. cbn [set_store w_store]. rewrite word_set.
    destruct (decide (x = o)) as [->|]; [rewrite Hd; by apply Hpk|auto].
  - intros x Hx. unfold marked_obj. cbn [set_store w_store]. rewrite word_set.
    destruct (decide (x = o)) as [->|Hne].
    + rewrite Hd, (bool_decide_eq_true_2 (o = o)) by done. by apply bool_decide_eq_true.
    + by rewrite (bool_decide_eq_false_2 (x = o)).
Qed.

(** The size of an object does not overflow. *)
Lemma osize_small o : heap_ok → o ∈ objs → 0 <= osize o < 2 ^ 64 - 16.
Proof.
  intros Hk Ho. pose proof (hk_size Hk o Ho). unfold osize.
  pose proof (Rounding.ceil_div_bounds (heap_size (rtti o) (words s0) o) 16). lia.
Qed.

Context (ct : CollectionType) (Hstill : still ct sp0).
Abbreviation defrag := (bool_decide (ct = ImmixEvacCollection)).

(** No object is moved. *)
Lemma stays sp w o : heap_ok → heap_now w → evac_allocator sp = evac_allocator sp0 → o ∈ objs →
  ct = ImmixEvacCollection → ImmixSpaceM.maybe_evacuate rtti_of sp w o = Ok (None, sp, w).
Proof.
  intros Hk Hn He Ho Hct. apply (maybe_evacuate_still rtti_of sp w o (osize o)).
  - rewrite He. by apply Hstill.
  - by apply (hn_header _ Hn).
  - by apply size_now.
  - by apply osize_small.
Qed.

(** Tracing one slot. *)
Lemma trace_ok sp w queue a : heap_ok → heap_now w → evac_allocator sp = evac_allocator sp0 → a ∉ objs → word s0 a ∈ objs →
  trace rtti_of defrag next (sp, w, queue) a =
    Ok (sp, w, if marked_obj w (word s0 a) then queue else queue ++ [word s0 a]).
Proof.
  intros Hk Hn He Ha Hc. assert (E : word (w_store w) a = word s0 a) by (by apply (hn_same _ Hn)).
  destruct (hn_header _ Hn _ Hc) as (Hw & Hf & _).
  unfold trace. rewrite E, HeaderFacts.is_forwarded_ok, Hf, bind_Ok.
  rewrite HeaderFacts.get_mark_ok, bind_Ok by done. unfold marked_obj.
  destruct (decide (hd_mark (decode (word (w_store w) (word s0 a))) = next)) as [C|C].
  - by rewrite decide_False, bool_decide_eq_true_2 by auto.
  - rewrite decide_True, (bool_decide_eq_false_2 (_ = next)) by auto.
    destruct (bool_decide (ct = ImmixEvacCollection)) eqn:D; [apply bool_decide_eq_true in D|done].
    destruct (ImmixSpaceM.filter_fast _ _ _); [|done]. cbn [andb]. by rewrite stays.
Qed.

(** Tracing the slots of an object queues its unmarked children. *)
Lemma trace_slots_ok sp w queue l : heap_ok → heap_now w → evac_allocator sp = evac_allocator sp0 →
  (∀ a, a ∈ l → (a ∉ objs) ∧ word s0 a ∈ objs) →
  for_each (trace rtti_of defrag next) l (sp, w, queue) =
    Ok (sp, w, queue ++ filter (λ k, marked_obj w k = false) (word s0 <$> l)).
Proof.
  intros Hk Hn He. revert queue. induction l as [|a l IH]; intros queue Hl; [cbn; by rewrite app_nil_r|].
  cbn [for_each]. destruct (Hl a ltac:(left)) as [Ha Hc]. rewrite trace_ok, bind_Ok by done.
  rewrite IH by (intros; apply Hl; by right). rewrite fmap_cons, filter_cons.
  destruct (marked_obj w (word s0 a)).
  - by rewrite decide_False.
  - by rewrite decide_True, <- app_assoc.
Qed.

(** ** Lines and object starts *)

(** Line [l] of block [b] belongs to the marked lines of object [o]. *)
Definition line_of (o b l : Z) : Prop :=
  immix o ∧ Block.get_block_ptr o = b ∧ Block.covered_line (o mod 32768) (osize o) l.

(** What is recorded about the objects that [done] holds of. *)
Record recorded (done : Z → Prop) (sp : ImmixSpace) (w : World) : Prop := {
  re_ba : w_ba w = w_ba w0 ∧ w_tls w = w_tls w0;
  re_wf : ∀ b, block_wf (header (w_store w) b);
  re_other : ∀ b, b ∉ blocks → header (w_store w) b = header s0 b;
  re_lines : ∀ b l, 0 <= l → marked_line w b l = true ↔
    marked_line w0 b l = true ∨ ∃ o, o ∈ objs ∧ done o ∧ line_of o b l;
  re_space : sp = set_bitmap sp0 (bitmap sp);
  re_bitmap : ImmixSpaceM.covers (bitmap sp) (w_ba w0);
  re_marks : ∀ g, 0 <= g → Space.marked (bitmap sp) g = true ↔
    Space.marked (bitmap sp0) g = true ∨ ∃ o, o ∈ objs ∧ done o ∧ immix o ∧ Space.granule 16 (bitmap sp) o = g
}.

Lemma recorded_iff (P Q : Z → Prop) sp w : (∀ o, o ∈ objs → P o ↔ Q o) → recorded P sp w → recorded Q sp w.
Proof.
  intros E [A B C D F G I]. constructor; try done.
  - intros b l Hl. rewrite (D b l Hl). f_equiv. f_equiv. intros o.
    split; intros (Ho & Hd & Hr); (split; [done|]; split; [by apply E|done]).
  - intros g Hg. rewrite (I g Hg). f_equiv. f_equiv. intros o.
    split; intros (Ho & Hd & Hr); (split; [done|]; split; [by apply E|done]).
Qed.

(** Records depend on object words not at all. *)
Lemma recorded_words P sp w s : headers s = headers (w_store w) → recorded P sp w → recorded P sp (set_store w s).
Proof.
  intros E. assert (Eh : ∀ b, header s b = header (w_store w) b) by (intros b; unfold header; by rewrite E).
  intros [A B C D F G I]. constructor; try done; cbn.
  - intros b. by rewrite Eh.
  - intros b Hb. rewrite Eh. auto.
  - intros b l Hl. unfold marked_line. cbn. rewrite Eh. apply (D b l Hl).
Qed.

Lemma block_ptr_facts o : Block.get_block_ptr o mod 32768 = 0 ∧ Block.get_block_ptr o <= o < Block.get_block_ptr o + 32768 ∧
  o mod 32768 = o - Block.get_block_ptr o.
Proof.
  unfold Block.get_block_ptr. consts. pose proof (Z.mod_pos_bound o 32768). split; [|lia].
  replace (o - o mod 32768) with (o / 32768 * 32768) by (pose proof (Z.div_mod o 32768); lia). apply Z.mod_mul. lia.
Qed.

(** [mark_lines] on an object placed in a block of the collection. *)
Lemma mark_lines_ok P sp w o : heap_ok → heap_now w → recorded P sp w → o ∈ objs → immix o →
  ∃ w', mark_lines rtti_of w o = Ok w' ∧ words (w_store w') = words (w_store w) ∧
    w_ba w' = w_ba w ∧ w_tls w' = w_tls w ∧ (∀ b, block_wf (header (w_store w') b)) ∧
    (∀ b, b ∉ blocks → header (w_store w') b = header (w_store w) b) ∧
    ∀ b l, 0 <= l → marked_line w' b l = true ↔ marked_line w b l = true ∨ line_of o b l.
Proof.
  intros Hk Hn [A B C D F G I] Ho Hi. destruct (hk_placed Hk o Ho Hi) as (Hb & Hlo & Hhi). consts.
  pose proof (osize_pos o Hk Ho) as Hpos. destruct (block_ptr_facts o) as (Ha & _ & Em).
  unfold mark_lines. rewrite size_now, bind_Ok by done. unfold Block.line_object_mark.
  destruct (Block.object_line_fits (Block.get_block_ptr o) o (osize o) Ha) as [_ Hfit]; [lia..|].
  destruct (Block.modify_line_ok (header (w_store w) (Block.get_block_ptr o)) (Block.get_block_ptr o) o (osize o) true)
    as (blk & -> & Hw & _ & Hbit); [apply B|lia|done|]. rewrite bind_Ok.
  eexists. split; [done|]. cbn. split_and!; try done.
  - intros b. rewrite header_set. destruct (decide (b = Block.get_block_ptr o)); auto.
  - intros b Hnb. rewrite header_set, decide_False; [done|]. by intros ->.
  - intros b l Hl. unfold marked_line, line_of. cbn. rewrite header_set.
    destruct (decide (b = Block.get_block_ptr o)) as [->|Hne].
    + rewrite Hbit by done. case_decide as Cv; [tauto|]. split; [by left|]. intros [?|(_ & _ & ?)]; done.
    + split; [by left|]. intros [?|(_ & <- & _)]; done.
Qed.

(** The record of one more object. *)
Lemma record_object P sp w o : heap_ok → heap_now w → recorded P sp w → o ∈ objs →
  ∃ sp' w', (if ImmixSpaceM.filter_fast sp w o then
         sp' ← ImmixSpaceM.set_gc_object sp o; w' ← mark_lines rtti_of w o; Ok (sp', w')
       else Ok (sp, w)) = Ok (sp', w') ∧ words (w_store w') = words (w_store w) ∧
    recorded (λ x, x = o ∨ P x) sp' w'.
Proof.
  intros Hk Hn Hr Ho. pose proof Hr as [[A1 A2] B C D F G I].
  unfold ImmixSpaceM.filter_fast. rewrite A1.
  destruct (BA.is_in_space (w_ba w0) o) eqn:Ei; cbn [negb].
  - destruct (hk_placed Hk o Ho Ei) as (Hb & Hlo & Hhi).
    destruct (mark_lines_ok P sp w o Hk Hn Hr Ho Ei) as (w' & E & Ew & Eb & Et & Hwf & Hot & Hli).
    assert (Hrange : mm_start (mmap (w_ba w)) <= o < data_bound (w_ba w)).
    { unfold BA.is_in_space in Ei. apply andb_true_iff in Ei as [?%bool_decide_eq_true _].
      destruct (hk_blocks Hk _ Hb) as (_ & _ & ?). destruct (block_ptr_facts o) as (_ & ? & _). rewrite A1. consts. lia. }
    destruct (ImmixSpaceM.set_gc_object_ok sp w o) as (bm & -> & Hc & Hsh & Hm); [by rewrite A1|done|].
    rewrite bind_Ok, E, bind_Ok. do 2 eexists. split; [done|]. split; [done|]. constructor.
    + by rewrite Eb, Et.
    + done.
    + intros b Hnb. rewrite Hot by done. auto.
    + intros b l Hl. rewrite Hli, D by done. split.
      * intros [[?|(x & ? & ? & ?)]|?]; [by left|right; exists x; auto|right; exists o; auto].
      * intros [?|(x & ? & [->|?] & ?)]; [by left; left|by right|left; right; eauto].
    + rewrite F. done.
    + by rewrite A1 in Hc.
    + intros g Hg. cbn [bitmap set_bitmap]. assert (Eg : ∀ x, Space.granule 16 bm x = Space.granule 16 (bitmap sp) x).
      { intros x. unfold Space.granule. by rewrite (Space.same_shape_begin _ _ Hsh). }
      setoid_rewrite Eg. rewrite Hm by done. destruct (decide (g = Space.granule 16 (bitmap sp) o)) as [->|Hne].
      * split; [|done]. intros _. right. exists o. auto.
      * rewrite I by done. f_equiv. split; intros (x & ? & Hd & ? & Hg'); exists x; split_and!; auto.
        destruct Hd as [->|]; [|done]. by rewrite Hg' in Hne.
  - exists sp, w. split_and!; try done. constructor; try done.
    + intros b l Hl. rewrite (D b l Hl). f_equiv. split; intros (x & Hx & Hd & Hli); exists x; split; auto.
      destruct Hd as [->|Hd]; [|auto]. destruct Hli as [Hli _]. unfold immix in Hli. congruence.
    + intros g Hg. rewrite (I g Hg). f_equiv. split; intros (x & Hx & Hd & Hli & Hg'); exists x; split_and!; auto.
      destruct Hd as [->|Hd]; [|auto]. unfold immix in Hli. congruence.
Qed.

(** ** The loop *)

(** Memories with the same words have the same objects. *)
Lemma heap_now_words w w' : words (w_store w') = words (w_store w) → heap_now w →
  heap_now w' ∧ (pins_kept w → pins_kept w') ∧ ∀ o, marked_obj w' o = marked_obj w o.
Proof.
  intros E [A B]. unfold marked_obj, pins_kept, word in *.
  split; [constructor; unfold word in *; by rewrite E|]. split; [by rewrite E|]. intros o. by rewrite E.
Qed.

(** One round, for the object [o] at the front of the queue. *)
Lemma process_ok sp w queue visited o : heap_ok → heap_now w → recorded (λ x, marked_obj w x = true) sp w →
  o ∈ objs → 0 <= visited → (marked_obj w o = false → visited + osize o < 2 ^ 64) →
  ∃ sp' w', process rtti_of ct next (sp, w, queue) visited o =
      Ok (if marked_obj w o then ((sp', w', queue), visited)
          else ((sp', w', queue ++ filter (λ k, marked_obj w' k = false) (kids o)), visited + osize o)) ∧
    heap_now w' ∧ (pins_kept w → pins_kept w') ∧ recorded (λ x, marked_obj w' x = true) sp' w' ∧
    ∀ x, x ∈ objs → marked_obj w' x = bool_decide (x = o) || marked_obj w x.
Proof.
  intros Hk Hn Hr Ho Hv Hb. unfold process.
  destruct (mark_header_ok w o Hn Ho) as (h & -> & Hn1 & Hpk1 & Hm1). rewrite bind_Ok.
  set (w1 := set_store w (set_word (w_store w) o h)) in *.
  destruct (marked_obj w o) eqn:Em.
  - exists sp, w1. split_and!; try done. apply recorded_words; [done|].
    eapply recorded_iff; [|exact Hr]. intros x Hx. cbn. rewrite Hm1 by done.
    case_bool_decide; [subst; by rewrite Em|done].
  - destruct (record_object (λ x, marked_obj w x = true) sp w1 o Hk Hn1) as (sp2 & w2 & -> & Ew & Hr2);
      [by apply recorded_words|done|]. rewrite bind_Ok.
    destruct (heap_now_words w1 w2 Ew Hn1) as (Hn2 & Hpk2 & Hm2).
    rewrite size_now, bind_Ok, u_add_ok, bind_Ok, vtable_now, bind_Ok by auto.
    destruct (hk_stable Hk o (words (w_store w2)) Ho (hn_same _ Hn2)) as [_ Ev].
    fold (rtti o). rewrite Ev.
    rewrite trace_slots_ok, bind_Ok; [|done|done|by rewrite (re_space _ _ _ Hr2)|intros a Ha; by apply (hk_slots Hk o)].
    exists sp2, w2. split; [done|]. split; [done|]. split; [auto|].
    assert (Hm : ∀ x, x ∈ objs → marked_obj w2 x = bool_decide (x = o) || marked_obj w x) by (intros; rewrite Hm2; auto).
    split; [|done]. eapply recorded_iff; [|exact Hr2]. intros x Hx. cbn. rewrite Hm by done.
    rewrite orb_true_iff, bool_decide_eq_true. done.
Qed.

Section Roots.
(** Everything the loop starts from. *)
Context (roots : list Z).

Definition edge (o k : Z) : Prop := k ∈ kids o.
Definition reachable (o : Z) : Prop := ∃ r, r ∈ roots ∧ rtc edge r o.

(** The unmarked objects still cost what their children may add to the queue. *)
Definition unmarked_sum (f : Z → Z) (w : World) : Z :=
  sum_list ((λ o, if marked_obj w o then 0 else f o) <$> objs).
Definition degree (o : Z) : Z := Z.of_nat (length (kids o)).

(** The invariant of the loop: the queue holds what is left to do. *)
Record loop_inv (sp : ImmixSpace) (w : World) (queue : list Z) (visited : Z) : Prop := {
  li_now : heap_now w;
  li_pins : pins_kept w;
  li_rec : recorded (λ x, marked_obj w x = true) sp w;
  li_queue : ∀ o, o ∈ queue → o ∈ objs ∧ reachable o;
  li_reach : ∀ o, o ∈ objs → marked_obj w o = true → reachable o;
  li_grey : ∀ o k, o ∈ objs → marked_obj w o = true → k ∈ kids o → marked_obj w k = true ∨ k ∈ queue;
  li_roots : ∀ r, r ∈ roots → marked_obj w r = true ∨ r ∈ queue;
  li_visited : 0 <= visited ∧ visited + unmarked_sum osize w = sum_list (osize <$> objs)
}.

Lemma kids_objs o k : heap_ok → o ∈ objs → k ∈ kids o → k ∈ objs.
Proof. intros Hk Ho [a [-> Ha]]%list_elem_of_fmap. by apply (hk_slots Hk o). Qed.

(** When the queue is empty the marked objects are the reachable ones. *)
Lemma loop_done sp w visited : heap_ok → (∀ r, r ∈ roots → r ∈ objs) → loop_inv sp w [] visited →
  ∀ o, o ∈ objs → marked_obj w o = true ↔ reachable o.
Proof.
  intros Hk Hr [_ _ _ _ Hre Hg Hrt _] o Ho. split; [by apply Hre|]. intros (r & Hin & Hrtc).
  assert (Hm : marked_obj w r = true) by (destruct (Hrt r Hin) as [|Hn]; [done|by apply not_elem_of_nil in Hn]).
  pose proof (Hr r Hin) as Hro. clear Hin Ho.
  induction Hrtc as [x|x y z Hxy Hyz IH]; [done|]. apply IH.
  - destruct (Hg x y Hro Hm Hxy) as [|Hn]; [done|by apply not_elem_of_nil in Hn].
  - by apply (kids_objs x y).
Qed.

(** Marking one object takes its share out of a sum over the unmarked ones. *)
Lemma unmarked_sum_step f w w' o : heap_ok → o ∈ objs → marked_obj w o = false →
  (∀ x, x ∈ objs → marked_obj w' x = bool_decide (x = o) || marked_obj w x) →
  unmarked_sum f w = f o + unmarked_sum f w'.
Proof.
  intros Hk Ho Hm Hx. unfold unmarked_sum.
  rewrite (sum_update (λ x, if marked_obj w x then 0 else f x) (λ x, if marked_obj w' x then 0 else f x) objs o);
    [|apply Hk|done|].
  - rewrite Hm, (Hx o Ho), bool_decide_eq_true_2 by done. cbn. lia.
  - intros x Hin Hne. by rewrite (Hx x Hin), bool_decide_eq_false_2.
Qed.

Lemma unmarked_sum_same f w w' : (∀ x, x ∈ objs → marked_obj w' x = marked_obj w x) →
  unmarked_sum f w' = unmarked_sum f w.
Proof. intros E. unfold unmarked_sum. f_equal. apply fmap_ext_in. intros x Hx. by rewrite E. Qed.

Lemma unmarked_nonneg f w : (∀ o, o ∈ objs → 0 <= f o) → 0 <= unmarked_sum f w.
Proof. intros Hf. apply sum_nonneg. intros o Ho. destruct (marked_obj w o); [done|auto]. Qed.

(** The share of one unmarked object. *)
Lemma unmarked_sum_ge f w o : heap_ok → (∀ x, x ∈ objs → 0 <= f x) → o ∈ objs → marked_obj w o = false →
  f o <= unmarked_sum f w.
Proof.
  intros Hk Hf Ho Hm. unfold unmarked_sum.
  rewrite (sum_update _ (λ x, if decide (x = o) then 0 else if marked_obj w x then 0 else f x) objs o);
    [|apply Hk|done|intros y _ ?; by rewrite decide_False].
  rewrite Hm, decide_True by done.
  pose proof (sum_nonneg (λ x, if decide (x = o) then 0 else if marked_obj w x then 0 else f x) objs) as Hp.
  assert (Hpos : ∀ x, x ∈ objs → 0 <= if decide (x = o) then 0 else if marked_obj w x then 0 else f x).
  { intros x Hx. destruct (decide (x = o)); [done|]. destruct (marked_obj w x); [done|auto]. }
  specialize (Hp Hpos). lia.
Qed.

Context (Hk : heap_ok) (Hroots : ∀ r, r ∈ roots → r ∈ objs).

(** The invariant when [o], popped from the queue, was marked already. *)
Lemma loop_inv_marked sp w sp' w' o queue visited : loop_inv sp w (o :: queue) visited →
  marked_obj w o = true → heap_now w' → pins_kept w' → recorded (λ x, marked_obj w' x = true) sp' w' →
  (∀ x, x ∈ objs → marked_obj w' x = marked_obj w x) → loop_inv sp' w' queue visited.
Proof.
  intros [Hn Hpk Hr Hq Hre Hg Hrt [Hv0 Hv]] Hm Hn' Hpk' Hr' Hx. constructor; try done.
  - intros x Hin. apply Hq. by right.
  - intros x Ho. rewrite Hx by done. auto.
  - intros x k Ho Hmx Hkx. pose proof (kids_objs x k Hk Ho Hkx). rewrite Hx in Hmx |- * by done.
    destruct (Hg x k Ho Hmx Hkx) as [?|[->|?]%elem_of_cons]; auto.
  - intros r Hin. rewrite Hx by auto. destruct (Hrt r Hin) as [?|[->|?]%elem_of_cons]; auto.
  - by rewrite (unmarked_sum_same _ w w' Hx).
Qed.

(** The invariant when [o] was not marked: it is now, and its children are queued. *)
Lemma loop_inv_new sp w sp' w' o queue visited : loop_inv sp w (o :: queue) visited →
  marked_obj w o = false → heap_now w' → pins_kept w' → recorded (λ x, marked_obj w' x = true) sp' w' →
  (∀ x, x ∈ objs → marked_obj w' x = bool_decide (x = o) || marked_obj w x) →
  loop_inv sp' w' (queue ++ filter (λ k, marked_obj w' k = false) (kids o)) (visited + osize o).
Proof.
  intros [Hn Hpk Hr Hq Hre Hg Hrt [Hv0 Hv]] Hm Hn' Hpk' Hr' Hx. destruct (Hq o ltac:(left)) as [Ho Hor].
  assert (Hx' : ∀ x, x ∈ objs → marked_obj w' x = true ↔ x = o ∨ marked_obj w x = true).
  { intros x Hin. by rewrite Hx, orb_true_iff, bool_decide_eq_true. }
  assert (Hkid : ∀ k, k ∈ kids o → marked_obj w' k = true ∨ k ∈ queue ++ filter (λ k, marked_obj w' k = false) (kids o)).
  { intros k Hin. destruct (marked_obj w' k) eqn:E; [by left|right]. apply elem_of_app. right. by apply list_elem_of_filter. }
  constructor; try done.
  - intros x [Hin|[_ Hin]%list_elem_of_filter]%elem_of_app; [apply Hq; by right|].
    split; [by apply (kids_objs o x)|]. destruct Hor as (r & ? & ?). exists r. split; [done|]. by eapply rtc_r.
  - intros x Hin. rewrite Hx' by done. intros [->|?]; [done|auto].
  - intros x k Hin Hmx Hkx. rewrite Hx' in Hmx by done. destruct Hmx as [->|Hmx]; [auto|].
    pose proof (kids_objs x k Hk Hin Hkx). rewrite Hx' by done.
    destruct (Hg x k Hin Hmx Hkx) as [?|[->|?]%elem_of_cons]; auto. right. apply elem_of_app. by left.
  - intros r Hin. rewrite Hx' by auto. destruct (Hrt r Hin) as [?|[->|?]%elem_of_cons]; auto.
    right. apply elem_of_app. by left.
  - rewrite (unmarked_sum_step osize w w' o) in Hv by done. pose proof (osize_pos o Hk Ho). lia.
Qed.

(** One round of the loop keeps the invariant and makes progress. *)
Lemma loop_step sp w queue visited o : loop_inv sp w (o :: queue) visited →
  ∃ sp' w' queue' visited', process rtti_of ct next (sp, w, queue) visited o =
      Ok ((sp', w', queue'), visited') ∧ loop_inv sp' w' queue' visited' ∧
    unmarked_sum degree w' + Z.of_nat (length queue') <= unmarked_sum degree w + Z.of_nat (length queue).
Proof.
  intros Hi. pose proof Hi as [Hn Hpk Hr Hq _ _ _ [Hv0 Hv]]. destruct (Hq o ltac:(left)) as [Ho _].
  assert (Hpos : ∀ x, x ∈ objs → 0 <= osize x) by (intros x Hx; pose proof (osize_pos x Hk Hx); lia).
  destruct (process_ok sp w queue visited o Hk Hn Hr Ho Hv0) as (sp' & w' & E & Hn' & Hpk' & Hr' & Hm').
  { intros Hm. pose proof (unmarked_sum_ge osize w o Hk Hpos Ho Hm). pose proof (hk_total Hk). lia. }
  destruct (marked_obj w o) eqn:Em.
  - assert (Hx : ∀ x, x ∈ objs → marked_obj w' x = marked_obj w x).
    { intros x Hx. rewrite Hm' by done. case_bool_decide; [subst; by rewrite Em|done]. }
    exists sp', w', queue, visited. split; [done|]. split; [by eapply loop_inv_marked; auto|].
    by rewrite (unmarked_sum_same _ w w' Hx).
  - do 4 eexists. split; [exact E|]. split; [by eapply loop_inv_new; auto|].
    rewrite (unmarked_sum_step degree w w' o Hk Ho Em Hm'), length_app.
    pose proof (length_filter (λ k, marked_obj w' k = false) (kids o)). unfold degree at 2. lia.
Qed.

(** The loop ends when given enough fuel. *)
Lemma mark_loop_ok fuel sp w queue visited : loop_inv sp w queue visited →
  unmarked_sum degree w + Z.of_nat (length queue) < Z.of_nat fuel →
  ∃ sp' w' visited', mark_loop rtti_of fuel ct next (sp, w, queue) visited =
      Ok ((sp', w', []), visited') ∧ loop_inv sp' w' [] visited'.
Proof.
  revert sp w queue visited. induction fuel as [|fuel IH]; intros sp w queue visited Hi Hf.
  { pose proof (unmarked_nonneg degree w ltac:(unfold degree; lia)). lia. }
  cbn [mark_loop]. destruct queue as [|o queue]; [by exists sp, w, visited|].
  destruct (loop_step sp w queue visited o Hi) as (sp' & w' & q' & v' & -> & Hi' & Hd). rewrite bind_Ok.
  apply IH; [done|]. cbn [length] in Hf. lia.
Qed.

End Roots.

(** ** The whole marking phase *)

Lemma unmarked_at_start o : heap_ok → o ∈ objs → marked_obj w0 o = false.
Proof.
  intros Hk Ho. destruct (hk_header Hk o Ho) as (_ & _ & E). unfold marked_obj. rewrite E.
  apply bool_decide_eq_false. by destruct next.
Qed.

Lemma heap_now_start : heap_ok → heap_now w0.
Proof. intros Hk. constructor; [done|]. intros o Ho. by destruct (hk_header Hk o Ho) as (? & ? & _). Qed.

Lemma recorded_start (P : Z → Prop) : (∀ b, block_wf (header s0 b)) →
  ImmixSpaceM.covers (bitmap sp0) (w_ba w0) → (∀ o, o ∈ objs → ¬ P o) → recorded P sp0 w0.
Proof.
  intros Hw Hc HP. constructor; try done.
  - intros b l Hl. split; [by left|]. intros [?|(o & Ho & Hp & _)]; [done|by apply HP in Hp].
  - apply set_bitmap_id.
  - intros g Hg. split; [by left|]. intros [?|(o & Ho & Hp & _)]; [done|by apply HP in Hp].
Qed.

(** The loop over the precise roots queues what they refer to. *)
Lemma precise_roots_ok queue l : heap_ok → (∀ a, a ∈ l → word s0 a ∈ objs) →
  for_each (precise_root rtti_of ct) l (sp0, w0, queue) = Ok (sp0, w0, queue ++ (word s0 <$> l)).
Proof.
  intros Hk. revert queue. induction l as [|a l IH]; intros queue Hl; [cbn; by rewrite app_nil_r|]. cbn [for_each].
  assert (E : precise_root rtti_of ct (sp0, w0, queue) a = Ok (sp0, w0, queue ++ [word s0 a])).
  { unfold precise_root. destruct (hk_header Hk (word s0 a) ltac:(apply Hl; left)) as (_ & Hf & _).
    destruct (ImmixSpaceM.filter_fast sp0 w0 (word s0 a)); [|done].
    rewrite HeaderFacts.is_forwarded_ok, Hf, bind_Ok. destruct (decide (ct = ImmixEvacCollection)); [|done].
    by rewrite stays; [|done|apply heap_now_start|..|apply Hl; left|]. }
  rewrite E, bind_Ok, IH by (intros; apply Hl; by right). by rewrite fmap_cons, <- app_assoc.
Qed.

Lemma sum_filter_marked w : unmarked_sum osize w + sum_list (osize <$> filter (λ o, marked_obj w o = true) objs) =
  sum_list (osize <$> objs).
Proof.
  unfold unmarked_sum, sum_list. induction objs as [|o l IH]; [done|]. rewrite !fmap_cons, filter_cons. cbn [foldr].
  destruct (marked_obj w o); [rewrite decide_True, fmap_cons by done; cbn [foldr]|rewrite decide_False by done]; lia.
Qed.

Lemma collect_marks fuel roots precise_roots : heap_ok → (∀ b, block_wf (header s0 b)) →
  ImmixSpaceM.covers (bitmap sp0) (w_ba w0) →
  (∀ r, r ∈ roots → r ∈ objs) → (∀ a, a ∈ precise_roots → word s0 a ∈ objs) →
  let all_roots := roots ++ (word s0 <$> precise_roots) in
  sum_list (degree <$> objs) + Z.of_nat (length all_roots) < Z.of_nat fuel →
  ∃ visited sp' w', ImmixCollector_collect rtti_of fuel ct roots precise_roots sp0 w0 next =
      Ok (visited, sp', w') ∧ heap_now w' ∧ pins_kept w' ∧
    (∀ o, o ∈ objs → marked_obj w' o = true ↔ reachable all_roots o) ∧
    recorded (reachable all_roots) sp' w' ∧
    visited = sum_list (osize <$> filter (λ o, marked_obj w' o = true) objs).
Proof.
  intros Hk Hw Hc Hr Hp all_roots Hf. unfold ImmixCollector_collect. rewrite precise_roots_ok, bind_Ok by done.
  fold all_roots.
  assert (Hall : ∀ r, r ∈ all_roots → r ∈ objs).
  { intros r [?|(a & -> & Ha)%list_elem_of_fmap]%elem_of_app; auto. }
  assert (Hus : ∀ f, unmarked_sum f w0 = sum_list (f <$> objs)).
  { intros f. unfold unmarked_sum. f_equal. apply fmap_ext_in. intros o Ho. by rewrite unmarked_at_start. }
  assert (Hi : loop_inv all_roots sp0 w0 all_roots 0).
  { constructor.
    - by apply heap_now_start.
    - done.
    - apply recorded_start; try done. intros o Ho. by rewrite unmarked_at_start.
    - intros o Ho. split; [auto|]. by exists o.
    - intros o Ho. by rewrite unmarked_at_start.
    - intros o k Ho. by rewrite unmarked_at_start.
    - by right.
    - rewrite Hus. lia. }
  destruct (mark_loop_ok all_roots Hk Hall fuel sp0 w0 all_roots 0 Hi) as (sp' & w' & v & E & Hi'); [by rewrite Hus|].
  rewrite E, bind_Ok. exists v, sp', w'. pose proof (loop_done all_roots sp' w' v Hk Hall Hi') as Hd.
  destruct Hi' as [Hn Hpk Hre _ _ _ _ [_ Hv]]. split_and!; try done.
  - exact (recorded_iff (λ x, marked_obj w' x = true) _ _ _ Hd Hre).
  - pose proof (sum_filter_marked w'). lia.
Qed.

End Marking.
