(* ===== verification/EvacRoom.v ===== *)
(** * Room for evacuated objects

    The evacuation allocator while the collector marks.  It takes blocks from the
    headroom and bumps a pointer through them, without a look at their line marks
    (which the collector sets for the copies meanwhile), so its invariant speaks of
    addresses only: [efree] is what it may still hand out. *)

From stdpp Require Import base numbers list list_numbers gmap.
From Stdlib Require Import ZArith Lia.
From S2P Require Import Prelude Util Constants Bitmap Block SpaceBitmap Object BlockAllocator.
From S2P Require Import Allocation AllocatorLaws Allocators ImmixSpace LargeObjectSpace Collector Sweep Marking.
Local Open Scope Z_scope.

(** The block in use with the offset of its first free byte, and the blocks of the
    headroom, which are free behind their header line. *)
Definition evac_open (e : EvacAllocator) : list (Z * Z) :=
  ((λ tp : BlockTuple, (tp.1.1, tp.1.2)) <$> option_list (e_current_block e)) ++
  ((λ b, (b, 128)) <$> e_evac_headroom e).

Definition evac_blocks (e : EvacAllocator) : list Z := (evac_open e).*1.

(** The addresses the allocator may still hand out. *)
Definition efree (e : EvacAllocator) (x : Z) : Prop :=
  ∃ b low, (b, low) ∈ evac_open e ∧ b + low <= x < b + BLOCK_SIZE.

Record room_ok (e : EvacAllocator) : Prop := {
  rm_cur : ∀ b low high, e_current_block e = Some (b, low, high) →
    high = 32767 ∧ 128 <= low <= 32767 ∧ low mod 16 = 0;
  rm_blocks : ∀ b, b ∈ evac_blocks e → 0 < b ∧ b mod 32768 = 0;
  rm_nodup : NoDup (evac_blocks e)
}.

Lemma room_low e b low : room_ok e → (b, low) ∈ evac_open e → 128 <= low <= 32767 ∧ low mod 16 = 0.
Proof.
  intros [Hc _ _] [([[b' l'] h] & [= -> ->] & Hin)%list_elem_of_fmap|(b' & [= -> ->] & _)%list_elem_of_fmap]%elem_of_app;
    [|split; [lia|done]].
  destruct (e_current_block e) as [tp|] eqn:Ec; [|by apply not_elem_of_nil in Hin].
  apply list_elem_of_singleton in Hin as <-. by destruct (Hc _ _ _ eq_refl) as (_ & ? & ?).
Qed.

(** Addresses of different blocks are different. *)
Lemma aligned_block_eq b c x y : b mod 32768 = 0 → c mod 32768 = 0 → x = y →
  b <= x < b + 32768 → c <= y < c + 32768 → b = c.
Proof. intros. Z.div_mod_to_equations. lia. Qed.

Lemma efree_none e : exhausted e → ∀ x, ¬ efree e x.
Proof.
  intros [Eh Ec] x (b & low & Hin & _). unfold evac_open in Hin. rewrite Eh, Ec in Hin.
  by apply not_elem_of_nil in Hin.
Qed.

(** A scan from the end of a block finds nothing, whatever its lines are. *)
Lemma scan_end blk b : block_wf blk → Block.scan_block blk b 32767 = Ok None.
Proof.
  intros Hw. rewrite Block.scan_block_spec by (done || lia). change (32767 / 128) with 255.
  destruct (Block.next_hole (line_bit blk) 255) as [[lo hi]|] eqn:E; [|done].
  apply Block.next_hole_spec in E. lia.
Qed.

(** What [allocate_from_block] does with an aligned bump pointer. *)
Lemma from_block_ok b low size : 128 <= low → low mod 16 = 0 → 0 < size → low + size <= 32767 →
  allocate_from_block size (b, low, 32767) = Ok ((b, low + size, 32767), b + low).
Proof.
  intros Hl Hm Hs Hf. unfold allocate_from_block. rewrite Rounding.align_usize_aligned, bind_Ok by (done || lia).
  rewrite !trunc_small by (split; lia). by rewrite u_add_ok, bind_Ok by lia.
Qed.

(** What an allocation for an object of [size] bytes leaves of the room. *)
Record room_taken (e : EvacAllocator) (r size : Z) (e' : EvacAllocator) : Prop := {
  rt_block : ∃ b, b ∈ evac_blocks e ∧ b + 128 <= r ∧ r + size < b + BLOCK_SIZE;
  rt_aligned : 0 < r ∧ r mod 16 = 0;
  rt_free : ∀ x, r <= x < r + size → efree e x ∧ ¬ efree e' x
}.

Lemma evac_blocks_eq e : evac_blocks e = ((λ tp : BlockTuple, tp.1.1) <$> option_list (e_current_block e)) ++ e_evac_headroom e.
Proof. unfold evac_blocks, evac_open. rewrite fmap_app, <- !list_fmap_compose. f_equal. apply list_fmap_id. Qed.

(** All its blocks, those it has filled too. *)
Definition evac_all (e : EvacAllocator) : list Z := e_unavailable_blocks e ++ evac_blocks e.

Record room_le (e e' : EvacAllocator) : Prop := {
  rl_free : ∀ x, efree e' x → efree e x;
  rl_blocks : ∀ b, b ∈ evac_blocks e' → b ∈ evac_blocks e;
  rl_all : evac_all e ≡ₚ evac_all e'
}.

#[export] Instance room_le_preorder : PreOrder room_le.
Proof. split; [by constructor|]. intros x y z [A1 A2 A3] [B1 B2 B3]. constructor; auto. by etrans. Qed.

(** Headers of blocks stay, but those of blocks that are taken into use. *)
Definition headers_kept (e : EvacAllocator) (s s' : Store) : Prop :=
  ∀ b, header s' b = header s b ∨ b ∈ evac_blocks e ∧ header s' b = set_allocated (header s b).

(** Bumping the pointer of the block at the front. *)
Lemma bump_ok un b low rest size : room_ok (mkEvac un rest (Some (b, low, 32767))) →
  0 < size → size mod 16 = 0 → low + size <= 32767 →
  room_ok (mkEvac un rest (Some (b, low + size, 32767))) ∧
  room_le (mkEvac un rest (Some (b, low, 32767))) (mkEvac un rest (Some (b, low + size, 32767))) ∧
  room_taken (mkEvac un rest (Some (b, low, 32767))) (b + low) size (mkEvac un rest (Some (b, low + size, 32767))).
Proof.
  intros [Hc Hb Hnd] Hs Hm Hf. destruct (Hc b low 32767 eq_refl) as (_ & Hl & Hlm).
  assert (Hm' : (low + size) mod 16 = 0) by (rewrite Z.add_mod, Hlm, Hm by lia; done).
  destruct (Hb b ltac:(left)) as [Hb0 Hbm]. split_and!.
  - constructor; [|done|done]. intros ??? [= <- <- <-]. split_and!; (done || lia).
  - constructor; [|done|done]. intros x (c & l & [[= -> ->]|Hin]%elem_of_cons & Hx).
    + exists b, low. split; [left|lia].
    + exists c, l. split; [by right|done].
  - consts. constructor; consts.
    + exists b. split; [left|lia].
    + split; [lia|]. rewrite Z.add_mod, Hlm by lia. Z.div_mod_to_equations. lia.
    + intros x Hx. split; [exists b, low; split; [left|consts; lia]|].
      intros (c & l & [[= -> ->]|Hin]%elem_of_cons & Hx'); [lia|]. consts.
      assert (c ∈ rest) as Hcr by (by apply list_elem_of_fmap in Hin as (? & [= -> ->] & ?)).
      assert (Hl' : l = 128) by (by apply list_elem_of_fmap in Hin as (? & [= -> ->] & ?)).
      assert (Hce : c ∈ evac_blocks (mkEvac un rest (Some (b, low, 32767)))).
      { unfold evac_blocks, evac_open. cbn. right. apply list_elem_of_fmap. exists (c, 128). split; [done|].
        apply list_elem_of_fmap. by exists c. }
      destruct (Hb c Hce) as [_ Hcm]. assert (c = b) as -> by (apply (aligned_block_eq c b x x); done || lia).
      unfold evac_blocks, evac_open in Hnd. cbn in Hnd. apply NoDup_cons in Hnd as [Hnd _]. apply Hnd.
      apply list_elem_of_fmap. exists (b, 128). split; [done|]. apply list_elem_of_fmap. by exists b.
Qed.

Lemma room_taken_le e e1 r size e' : room_le e e1 → room_taken e1 r size e' → room_taken e r size e'.
Proof.
  intros [F B _] [(b & Hb & ?) ? Hf]. constructor; [exists b; auto|done|]. intros x Hx. destruct (Hf x Hx). auto.
Qed.

(** Giving up the block in use. *)
Lemma drop_current_ok un un' hr cur : room_ok (mkEvac un hr cur) → un' = un ++ ((λ tp : BlockTuple, tp.1.1) <$> option_list cur) →
  room_ok (mkEvac un' hr None) ∧ room_le (mkEvac un hr cur) (mkEvac un' hr None).
Proof.
  intros [Hc Hb Hnd] Eun.
  assert (Ho : ∀ p, p ∈ evac_open (mkEvac un' hr None) → p ∈ evac_open (mkEvac un hr cur))
    by (intros p Hp; apply elem_of_app; by right).
  assert (Hbl : ∀ b, b ∈ evac_blocks (mkEvac un' hr None) → b ∈ evac_blocks (mkEvac un hr cur)).
  { intros b (p & -> & Hp)%list_elem_of_fmap. apply list_elem_of_fmap. eauto. }
  split; constructor; try done; auto.
  - unfold evac_blocks, evac_open in *. rewrite fmap_app in *. by apply NoDup_app in Hnd as (_ & _ & ?).
  - intros x (b & low & Hin & Hx). exists b, low. auto.
  - unfold evac_all. rewrite !evac_blocks_eq, Eun. cbn. by rewrite app_assoc.
Qed.

(** Taking the last block of the headroom into use. *)
Lemma open_block_ok un rest b : room_ok (mkEvac un (rest ++ [b]) None) →
  room_ok (mkEvac un rest (Some (b, 128, 32767))) ∧
  room_le (mkEvac un (rest ++ [b]) None) (mkEvac un rest (Some (b, 128, 32767))).
Proof.
  intros [Hc Hb Hnd].
  assert (Ho : evac_open (mkEvac un rest (Some (b, 128, 32767))) ≡ₚ evac_open (mkEvac un (rest ++ [b]) None)).
  { unfold evac_open. cbn. rewrite fmap_app. cbn. apply Permutation_cons_append. }
  assert (Hbl : evac_blocks (mkEvac un rest (Some (b, 128, 32767))) ≡ₚ evac_blocks (mkEvac un (rest ++ [b]) None))
    by (unfold evac_blocks; by rewrite Ho).
  split; constructor.
  - intros ??? [= <- <- <-]. split_and!; (done || lia).
  - intros c. rewrite Hbl. apply Hb.
  - by rewrite Hbl.
  - intros x (c & low & Hin & Hx). exists c, low. by rewrite Ho in Hin.
  - intros c. by rewrite Hbl.
  - unfold evac_all. by rewrite Hbl.
Qed.

(** [allocate] of the evacuation allocator, without a condition on line marks. *)
Lemma evac_allocate e w size : room_ok e → (∀ b, block_wf (header (w_store w) b)) → 0 < size <= 32639 → size mod 16 = 0 →
  ∃ r e' w', Allocation.allocate e w size = Ok (r, e', w') ∧ room_ok e' ∧ room_le e e' ∧
    w' = set_store w (w_store w') ∧ words (w_store w') = words (w_store w) ∧ headers_kept e (w_store w) (w_store w') ∧
    (r = 0 ∧ exhausted e' ∨ room_taken e r size e').
Proof.
  intros Hr Hwf Hs Hm. destruct e as [un hr cur].
  assert (Hnew : ∀ un', un' = un ++ ((λ tp : BlockTuple, tp.1.1) <$> option_list cur) → ∃ r e' w', (
      '(hole'', self4, w4) ← Evac.get_new_block (mkEvac un' hr None) w;
      match hole'' with
      | None => Ok (Address.null, self4, w4)
      | Some tp => '(tp', object) ← allocate_from_block size tp;
          let '(self5, w5) := Evac.put_current_block self4 w4 tp' in Ok (object, self5, w5)
      end) = Ok (r, e', w') ∧ room_ok e' ∧ room_le (mkEvac un hr cur) e' ∧
    w' = set_store w (w_store w') ∧ words (w_store w') = words (w_store w) ∧ headers_kept (mkEvac un hr cur) (w_store w) (w_store w') ∧
    (r = 0 ∧ exhausted e' ∨ room_taken (mkEvac un hr cur) r size e')).
  { intros un' Eun. destruct (drop_current_ok un un' hr cur Hr Eun) as [Hr1 Hle1]. unfold Evac.get_new_block. cbn [e_evac_headroom e_unavailable_blocks e_current_block].
    pose proof (vec_pop_spec hr) as Hp. destruct (vec_pop hr) as [[b rest]|]; rewrite bind_Ok.
    - subst hr. destruct (open_block_ok un' rest b Hr1) as [Hr2 Hle2].
      destruct (bump_ok un' b 128 rest size Hr2 ltac:(lia) Hm ltac:(lia)) as (Hr3 & Hle3 & Ht).
      change (trunc 16 LINE_SIZE) with 128. change (trunc 16 (BLOCK_SIZE - 1)) with 32767.
      rewrite from_block_ok, bind_Ok by (done || lia). cbn [Evac.put_current_block e_unavailable_blocks e_evac_headroom].
      do 3 eexists. split; [done|]. split; [done|]. split; [by etrans; [|etrans]|]. split_and!; try done.
      + intros c. cbn. rewrite header_set. case_decide; [subst c; right; split; [|done]|by left].
        apply Hle1. unfold evac_blocks, evac_open. cbn. rewrite !fmap_app. set_solver.
      + right. eapply room_taken_le; [|exact Ht]. by etrans.
    - subst hr. do 3 eexists. split; [done|]. split; [done|]. split; [done|]. split_and!; try done; [by destruct w|by left|by left]. }
  unfold Allocation.allocate. cbn [take_current_block put_current_block get_new_block handle_no_hole handle_full_block EvacAllocator_Allocator].
  unfold Evac.take_current_block. cbn [e_current_block e_unavailable_blocks e_evac_headroom].
  destruct cur as [[[b low] high]|].
  - destruct (rm_cur _ Hr b low high eq_refl) as (-> & Hl & Hlm).
    unfold scan_for_hole. cbn [scan_for_hole_loop]. rewrite u_sub_ok, bind_Ok by lia. case_decide as C.
    + rewrite !bind_Ok. destruct (bump_ok un b low hr size Hr ltac:(lia) Hm ltac:(lia)) as (Hr3 & Hle3 & Ht).
      rewrite from_block_ok, bind_Ok by (done || lia). cbn [Evac.put_current_block e_unavailable_blocks e_evac_headroom].
      do 3 eexists. split; [done|]. split_and!; try done; [by destruct w|by left|by right].
    + rewrite scan_end, !bind_Ok by done. cbn [Evac.handle_full_block e_unavailable_blocks e_evac_headroom e_current_block]. by apply Hnew.
  - rewrite !bind_Ok. apply Hnew. by rewrite app_nil_r.
Qed.

Lemma headers_kept_facts e s s' : headers_kept e s s' → (∀ b, block_wf (header s b)) →
  (∀ b, block_wf (header s' b)) ∧ (∀ b l, line_bit (header s' b) l = line_bit (header s b) l) ∧
  (∀ b, evacuation_candidate (header s' b) = evacuation_candidate (header s b)) ∧
  (∀ b, b ∉ evac_blocks e → header s' b = header s b).
Proof.
  intros Hk Hw. split_and!.
  - intros b. destruct (Hk b) as [->|[_ ->]]; [done|apply (Hw b)].
  - intros b l. by destruct (Hk b) as [->|[_ ->]].
  - intros b. by destruct (Hk b) as [->|[_ ->]].
  - intros b Hb. by destruct (Hk b) as [->|[? _]].
Qed.

(** ** [maybe_evacuate] while marking *)

Section MaybeEvacuate.
Context `{Cfg} (rtti_of : Z → GCRTTI).

(** The evacuation allocator of the space can be used. *)
Record evac_ready (sp : ImmixSpace) (w : World) : Prop := {
  er_room : room_ok (evac_allocator sp);
  er_range : ∀ b, b ∈ evac_blocks (evac_allocator sp) → BA.in_range (w_ba w) b;
  er_wf : ∀ b, block_wf (header (w_store w) b);
  er_bitmap : ImmixSpaceM.covers (bitmap sp) (w_ba w)
}.

(** What a call may do to everything but the words of memory. *)
Record evac_step (sp : ImmixSpace) (w : World) (sp' : ImmixSpace) (w' : World) : Prop := {
  es_ready : evac_ready sp' w';
  es_le : room_le (evac_allocator sp) (evac_allocator sp');
  es_space : sp' = set_evac (set_bitmap sp (bitmap sp')) (evac_allocator sp');
  es_world : w_ba w' = w_ba w ∧ w_tls w' = w_tls w;
  es_headers : headers_kept (evac_allocator sp) (w_store w) (w_store w');
  es_shape : Space.same_shape (bitmap sp) (bitmap sp')
}.

Lemma evac_step_refl sp w : evac_ready sp w → evac_step sp w sp w.
Proof. intros Hr. constructor; try done; [by destruct sp|by left|apply Space.same_shape_refl]. Qed.

Lemma maybe_evacuate_room sp w o n : evac_ready sp w → header_wf (word (w_store w) o) →
  ImmixSpaceM.object_size_at rtti_of (w_store w) o = Ok n → 0 < n <= 32639 →
  ∃ r sp' w', ImmixSpaceM.maybe_evacuate rtti_of sp w o = Ok (r, sp', w') ∧ evac_step sp w sp' w' ∧
    match r with
    | None => words (w_store w') = words (w_store w) ∧ bitmap sp' = bitmap sp ∧
        (ImmixSpaceM.pinned w o = true ∨ ImmixSpaceM.candidate w o = false ∨ exhausted (evac_allocator sp'))
    | Some c => ImmixSpaceM.pinned w o = false ∧ ImmixSpaceM.candidate w o = true ∧
        room_taken (evac_allocator sp) c n (evac_allocator sp') ∧
        (∀ a, word (w_store w') a =
           if decide (c <= a < c + n ∧ (a - c) mod 8 = 0) then word (w_store w) (o + (a - c)) else word (w_store w) a) ∧
        ∀ g, 0 <= g → Space.marked (bitmap sp') g =
          if decide (g = Space.granule 16 (bitmap sp) c) then true else Space.marked (bitmap sp) g
    end.
Proof.
  intros Hr Hh Hn Hsz. pose proof Hr as [Hroom Hrange Hwf Hbm]. unfold ImmixSpaceM.maybe_evacuate.
  rewrite HeaderFacts.is_pinned_ok, bind_Ok by done. fold (ImmixSpaceM.pinned w o) (ImmixSpaceM.candidate w o).
  destruct (ImmixSpaceM.pinned w o || negb (ImmixSpaceM.candidate w o)) eqn:Eg.
  { exists None, sp, w. split; [done|]. split; [by apply evac_step_refl|]. split_and!; try done.
    apply orb_true_iff in Eg as [?|?%negb_true_iff]; tauto. }
  apply orb_false_iff in Eg as [Ep Ec%negb_false_iff].
  pose proof (ImmixSpaceM.object_size_mod rtti_of (w_store w) o n Hn) as Hm.
  rewrite Hn, bind_Ok, Rounding.align_usize_aligned, bind_Ok by lia.
  destruct (evac_allocate (evac_allocator sp) w n Hroom Hwf Hsz Hm) as (r & e & w1 & -> & Hr1 & Hle & Ew & Ewd & Hk & Hres).
  rewrite bind_Ok. destruct (headers_kept_facts _ _ _ Hk Hwf) as (Hwf1 & _ & _).
  assert (Eba : w_ba w1 = w_ba w) by (by rewrite Ew). assert (Etl : w_tls w1 = w_tls w) by (by rewrite Ew).
  assert (Hrange1 : ∀ b, b ∈ evac_blocks e → BA.in_range (w_ba w) b) by (intros b Hb; apply Hrange, Hle, Hb).
  unfold Address.is_non_null. destruct (bool_decide (r ≠ 0)) eqn:Er.
  - apply bool_decide_eq_true in Er. destruct Hres as [[-> _]|Ht]; [done|].
    destruct (rt_block _ _ _ _ Ht) as (b & Hb & Hb1 & Hb2). destruct (Hrange b Hb) as (Hbm1 & Hblo & Hbhi).
    pose proof (BA.aligned_spec (mmap (w_ba w))) as [_ Hal].
    destruct (ImmixSpaceM.set_gc_object_ok (set_evac sp e) w1 r) as (bm & -> & Hc & Hsh & Hmk);
      [by rewrite Eba|rewrite Eba; consts; lia|]. rewrite bind_Ok. rewrite Eba in Hc.
    pose proof (ImmixSpaceM.copy_words_headers (w_store w1) o r n) as Eh.
    assert (Ehd : ∀ c, header (copy_words (w_store w1) o r n) c = header (w_store w1) c) by (intros c; unfold header; by rewrite Eh).
    eexists (Some r), _, _. split; [done|]. split.
    + constructor; cbn; try done.
      * constructor; cbn; rewrite ?Eba; try done. intros c. by rewrite Ehd.
      * intros c. rewrite Ehd. apply Hk.
    + split_and!; try done. intros a. cbn. rewrite ImmixSpaceM.copy_words_word by lia.
      replace (n / 8 * 8) with n by (Z.div_mod_to_equations; lia). unfold word. by rewrite Ewd.
  - apply bool_decide_eq_false in Er. eexists None, (set_evac sp e), w1. split; [done|]. split.
    + constructor; cbn; try done; [constructor; cbn; by rewrite ?Eba|apply Space.same_shape_refl].
    + split_and!; try done. right. right. destruct Hres as [[_ ?]|Ht]; [done|]. destruct (rt_aligned _ _ _ _ Ht). lia.
Qed.

End MaybeEvacuate.
