(* ===== verification/Moving.v ===== *)
(** * Marking while objects are moved

    The marking phase of an evacuating collection with room to move objects to.  The
    heap after it is the heap before it up to a renaming [g] of the objects: every
    reachable object [o] is at [g o], with its type, its size and its data, and its
    references lead to the renamed objects.

    [trace] leaves no forwarding address behind, so this holds of heaps in which each
    movable object either has a single slot that refers to it or is the object of a
    precise root, whose move does leave one ([evac_heap_ok]); [Evacuation] shows what
    happens otherwise. *)

From stdpp Require Import base numbers list list_numbers gmap relations.
From Stdlib Require Import ZArith Lia.
From S2P Require Import Prelude Util Constants Bitmap Block SpaceBitmap Object BlockAllocator.
From S2P Require Import Allocation AllocatorLaws Allocators ImmixSpace LargeObjectSpace Collector Sweep Marking EvacRoom.
Local Open Scope Z_scope.

Section Moving.
Context `{Cfg} (rtti_of : Z → GCRTTI) (next : bool).
(** The objects, the blocks of the collection, the roots and the slots of the precise roots. *)
Context (objs blocks roots precise : list Z).
(** The space and the memory when marking starts. *)
Context (sp0 : ImmixSpace) (w0 : World).

Abbreviation s0 := (w_store w0).
Abbreviation e0 := (evac_allocator sp0).
Abbreviation size_of := (osize rtti_of w0).
Abbreviation slots_of := (slots rtti_of w0).
Abbreviation type_of := (rtti rtti_of w0).
Abbreviation referents := (word s0 <$> precise).
Abbreviation reached := (reachable rtti_of w0 (roots ++ (word s0 <$> precise))).

(** The address [x] belongs to the object [o] when it is at [p]. *)
Definition within (o p x : Z) : Prop := p <= x < p + size_of o.
Definition disjoint_at (o p o' p' : Z) : Prop := p + size_of o <= p' ∨ p' + size_of o' <= p.
(** [a] is the address of the [i]-th word of [o] at [p]. *)
Definition word_at (o p a : Z) : Prop := ∃ i, 0 <= i < size_of o / 8 ∧ a = p + 8 * i.

Definition movable (o : Z) : Prop :=
  immix w0 o ∧ ImmixSpaceM.pinned w0 o = false ∧ ImmixSpaceM.candidate w0 o = true.
#[global] Instance movable_dec o : Decision (movable o).
Proof. unfold movable, immix. apply _. Defined.

(** [a] is a reference slot of an object. *)
Definition slot_in (a : Z) : Prop := ∃ o, o ∈ objs ∧ a ∈ slots_of o.

Record evac_heap_ok : Prop := {
  eh_header : ∀ o, o ∈ objs → header_wf (word s0 o) ∧ hd_forwarded (decode (word s0 o)) = false ∧
    hd_mark (decode (word s0 o)) = negb next;
  eh_size : ∀ o, o ∈ objs → 0 < heap_size (type_of o) (words s0) o < 2 ^ 63;
  (** Size and slots depend on the data of the object, not on its place. *)
  eh_local : ∀ o p m, o ∈ objs → (∀ i, 0 < i < size_of o / 8 → mem_read m (p + 8 * i) = word s0 (o + 8 * i)) →
    heap_size (type_of o) m p = heap_size (type_of o) (words s0) o ∧
    visit_references (type_of o) m p = (λ a, p + (a - o)) <$> slots_of o;
  eh_slots : ∀ o a, o ∈ objs → a ∈ slots_of o → (∃ i, 0 < i < size_of o / 8 ∧ a = o + 8 * i) ∧ word s0 a ∈ objs;
  eh_slots_nodup : ∀ o, o ∈ objs → NoDup (slots_of o);
  eh_placed : ∀ o, o ∈ objs → immix w0 o → placed_in rtti_of blocks w0 o;
  eh_blocks : ∀ b, b ∈ blocks → BA.in_range (w_ba w0) b;
  eh_bound : data_bound (w_ba w0) < 2 ^ 64;
  eh_total : sum_list (size_of <$> objs) < 2 ^ 64;
  eh_nodup : NoDup objs;
  eh_apart : ∀ o o', o ∈ objs → o' ∈ objs → o ≠ o' → disjoint_at o o o' o';
  eh_ready : evac_ready sp0 w0;
  (** No object lies where copies will be put. *)
  eh_room : ∀ o x, o ∈ objs → within o o x → ¬ efree e0 x;
  (** Conservative roots are pinned. *)
  eh_roots : ∀ r, r ∈ roots → r ∈ objs ∧ ¬ movable r;
  eh_precise : ∀ a, a ∈ precise → word s0 a ∈ objs ∧ ¬ efree e0 a ∧ ∀ o, o ∈ objs → ¬ within o o a;
  eh_precise_nodup : NoDup precise;
  (** A movable object is the object of one precise root, or has a single slot. *)
  eh_precise_once : ∀ a b, a ∈ precise → b ∈ precise → word s0 a = word s0 b → movable (word s0 a) → a = b;
  eh_once : ∀ a b, slot_in a → slot_in b → word s0 a = word s0 b → movable (word s0 a) →
    word s0 a ∉ referents → a = b
}.

(** ** The heap under a partial renaming *)

(** The word at [a] of the original heap, once the slots in [T] have been traced. *)
Definition renamed (g : gmap Z Z) (T : gset Z) (a : Z) : Z :=
  if decide (a ∈ T) then default 0 (g !! word s0 a) else word s0 a.

(** The object [o] is at [p]. *)
Definition object_at (s : Store) (g : gmap Z Z) (T : gset Z) (m : bool) (o p : Z) : Prop :=
  header_wf (word s p) ∧
  decode (word s p) = mkHeader m false (hd_pinned (decode (word s0 o))) (vtable_of w0 o) ∧
  ∀ i, 0 < i < size_of o / 8 → word s (p + 8 * i) = renamed g T (o + 8 * i).

(** A place for [o] in a block of the headroom, which the allocator [e] no longer has. *)
Record new_place (e : EvacAllocator) (o p : Z) : Prop := {
  np_movable : movable o;
  np_aligned : 0 < p ∧ p mod 16 = 0;
  np_block : ∃ b, b ∈ evac_blocks e0 ∧ b + 128 <= p ∧ p + size_of o < b + BLOCK_SIZE;
  np_room : ∀ x, within o p x → efree e0 x ∧ ¬ efree e x
}.

Definition mark_of (D : gset Z) (o : Z) : bool := if decide (o ∈ D) then next else negb next.

(** [g]: where the objects reached so far are; [D]: the objects marked so far; [T]: the
    slots traced so far; [P]: the precise roots done; [J]: the slots for which objects
    have been moved. *)
Record image (P : list Z) (J : gset Z) (g : gmap Z Z) (T D : gset Z) (e : EvacAllocator) (s : Store) : Prop := {
  im_objs : ∀ o p, g !! o = Some p → o ∈ objs ∧ reached o;
  im_old : ∀ o i, o ∈ objs → g !! o = None → 0 <= i < size_of o / 8 → word s (o + 8 * i) = word s0 (o + 8 * i);
  im_at : ∀ o p, g !! o = Some p → object_at s g T (mark_of D o) o p;
  im_place : ∀ o p, g !! o = Some p → p = o ∨ new_place e o p;
  im_apart : ∀ o o' p p', g !! o = Some p → g !! o' = Some p' → o ≠ o' → disjoint_at o p o' p';
  im_forward : ∀ o p, g !! o = Some p → p ≠ o → (∃ a, a ∈ J ∧ word s0 a = o) ∧
    (o ∈ referents → header_wf (word s o) ∧ hd_forwarded (decode (word s o)) = true ∧ hd_pointer (decode (word s o)) = p);
  im_stay : ∀ o, g !! o = Some o → movable o → exhausted e;
  im_traced : ∀ a, a ∈ T → is_Some (g !! word s0 a) ∧ ∃ o, o ∈ D ∧ a ∈ slots_of o;
  im_done : ∀ o, o ∈ D → is_Some (g !! o);
  im_frame : ∀ a, (∀ o, o ∈ objs → ¬ within o o a) → ¬ efree e0 a → a ∉ P → word s a = word s0 a;
  im_roots : ∀ a, a ∈ P → a ∈ precise ∧ g !! word s0 a = Some (word s a)
}.

(** ** Facts about places *)

Lemma size_facts o : evac_heap_ok → o ∈ objs → 0 < size_of o < 2 ^ 64 - 16 ∧ size_of o mod 16 = 0 ∧ 2 <= size_of o / 8.
Proof.
  intros Hk Ho. pose proof (eh_size Hk o Ho). unfold osize.
  pose proof (Rounding.ceil_div_bounds (heap_size (type_of o) (words s0) o) 16).
  pose proof (Z.mod_mul (Rounding.ceil_div (heap_size (type_of o) (words s0) o) 16) 16). split_and!; try lia.
  apply Z.div_le_lower_bound; lia.
Qed.

Lemma word_at_within o p a : word_at o p a → within o p a.
Proof. intros (i & Hi & ->). unfold within. Z.div_mod_to_equations. lia. Qed.

(** Where an object is now is apart from where another one was. *)
Lemma image_old P J g T D e s o p o' : evac_heap_ok → image P J g T D e s → g !! o = Some p → o' ∈ objs →
  o' ≠ o ∨ p ≠ o → ∀ x, within o p x → ¬ within o' o' x.
Proof.
  intros Hk Hi Hg Ho' Hne x Hx Hx'. destruct (im_objs _ _ _ _ _ _ _ Hi o p Hg) as [Ho _].
  destruct (im_place _ _ _ _ _ _ _ Hi o p Hg) as [->|Hp].
  - destruct Hne as [Hne|]; [|done]. destruct (eh_apart Hk o o' Ho Ho' ltac:(auto)); unfold within in *; lia.
  - apply (eh_room Hk o' x Ho' Hx'). by apply (np_room _ _ _ Hp).
Qed.

Lemma image_new P J g T D e s o p o' p' : image P J g T D e s → g !! o = Some p → g !! o' = Some p' → o ≠ o' →
  ∀ x, within o p x → ¬ within o' p' x.
Proof. intros Hi Hg Hg' Hne x. destruct (im_apart _ _ _ _ _ _ _ Hi o o' p p' Hg Hg' Hne); unfold within in *; lia. Qed.

(** Where an object is now is apart from the slots of the roots. *)
Lemma image_root_apart P J g T D e s o p a : evac_heap_ok → image P J g T D e s → g !! o = Some p → a ∈ precise → ¬ within o p a.
Proof.
  intros Hk Hi Hg Ha Hx. destruct (eh_precise Hk a Ha) as (_ & Hf & Ho).
  destruct (im_place _ _ _ _ _ _ _ Hi o p Hg) as [->|Hp].
  - by apply (Ho o); [apply (im_objs _ _ _ _ _ _ _ Hi o o Hg)|].
  - by apply Hf, (np_room _ _ _ Hp).
Qed.

Lemma object_at_frame s s' g T m o p : (∀ a, word_at o p a → word s' a = word s a) → 2 <= size_of o / 8 →
  object_at s g T m o p → object_at s' g T m o p.
Proof.
  intros Hf Hs (Hh & Hd & Hw). unfold object_at. rewrite (Hf p) by (exists 0; lia). split_and!; try done.
  intros i Hi. rewrite Hf; [by apply Hw|]. exists i. lia.
Qed.

(** A renaming that grows leaves the traced slots as they are. *)
Lemma renamed_grow g T k v a : (∀ a, a ∈ T → is_Some (g !! word s0 a)) → g !! k = None → renamed (<[k := v]> g) T a = renamed g T a.
Proof.
  intros HT Hk. unfold renamed. case_decide as C; [|done]. rewrite lookup_insert_ne; [done|].
  intros ->. destruct (HT a C) as [? E]. by rewrite Hk in E.
Qed.

Lemma object_at_grow s g T m o p k v : (∀ a, a ∈ T → is_Some (g !! word s0 a)) → g !! k = None →
  object_at s g T m o p → object_at s (<[k := v]> g) T m o p.
Proof. intros HT Hk (Hh & Hd & Hw). split_and!; try done. intros i Hi. by rewrite renamed_grow, Hw. Qed.

(** ** Steps of the renaming *)

(** A write into an object that has been reached changes nothing else. *)
Lemma image_write P J g T D e s o p x v : evac_heap_ok → image P J g T D e s → g !! o = Some p → within o p x →
  let s' := set_word s x v in
  (∀ o' i, o' ∈ objs → g !! o' = None → 0 <= i < size_of o' / 8 → word s' (o' + 8 * i) = word s (o' + 8 * i)) ∧
  (∀ o' p', g !! o' = Some p' → o' ≠ o → ∀ b, word_at o' p' b → word s' b = word s b) ∧
  (∀ o' p', g !! o' = Some p' → p' ≠ o' → word s' o' = word s o') ∧
  (∀ b, (∀ o, o ∈ objs → ¬ within o o b) → ¬ efree e0 b → word s' b = word s b) ∧
  (∀ b, b ∈ precise → word s' b = word s b).
Proof.
  intros Hk Hi Hg Hx s'. assert (Hne : ∀ b, b ≠ x → word s' b = word s b) by (intros b Hb; unfold s'; by rewrite word_set, decide_False).
  pose proof (im_objs _ _ _ _ _ _ _ Hi) as Hob. split_and!.
  - intros o' i Ho' Hg' Hi'. apply Hne. intros Ex. eapply (image_old _ _ _ _ _ _ _ o p o' Hk Hi Hg Ho'); [left; congruence|exact Hx|].
    rewrite <- Ex. apply word_at_within. by exists i.
  - intros o' p' Hg' Hoo b Hb. apply Hne. intros ->. apply (image_new _ _ _ _ _ _ _ o p o' p' Hi Hg Hg' ltac:(auto) x Hx).
    by apply word_at_within.
  - intros o' p' Hg' Hpp. apply Hne. intros <-. destruct (Hob o' p' Hg') as [Ho' _].
    eapply (image_old _ _ _ _ _ _ _ o p o' Hk Hi Hg Ho'); [|exact Hx|].
    + destruct (decide (o' = o)) as [->|]; [right; congruence|by left].
    + pose proof (size_facts o' Hk Ho'). unfold within. lia.
  - intros b Hb Hf. apply Hne. intros ->. destruct (im_place _ _ _ _ _ _ _ Hi o p Hg) as [->|Hp].
    + by apply (Hb o); [apply (Hob o o Hg)|].
    + by apply Hf, (np_room _ _ _ Hp).
  - intros b Hb. apply Hne. intros ->. by apply (image_root_apart _ _ _ _ _ _ _ o p x Hk Hi Hg Hb).
Qed.

(** Storing the new address of the object that the slot [a] of [o] refers to. *)
Lemma image_slot P J g T D e s o p a v : evac_heap_ok → image P J g T D e s → g !! o = Some p → o ∈ D →
  a ∈ slots_of o → g !! word s0 a = Some v → image P J g (T ∪ {[a]}) D e (set_word s (p + (a - o)) v).
Proof.
  intros Hk Hi Hg HoD Ha Hv. destruct (im_objs _ _ _ _ _ _ _ Hi o p Hg) as [Ho _].
  destruct (eh_slots Hk o a Ho Ha) as ((i & Hii & Ea) & _). pose proof (size_facts o Hk Ho) as (Hs1 & Hs2 & Hs3).
  assert (Hx : within o p (p + (a - o))) by (unfold within; subst a; Z.div_mod_to_equations; lia).
  destruct (image_write P J g T D e s o p (p + (a - o)) v Hk Hi Hg Hx) as (W1 & W2 & W3 & W4 & W5).
  destruct Hi as [A1 A2 A3 A4 A5 A6 A7 A8 A9 A10 A11]. constructor; try done.
  - intros o' j Ho' Hg' Hj. rewrite W1 by done. auto.
  - intros o' p' Hg'. destruct (decide (o' = o)) as [->|Hne].
    + assert (p' = p) as -> by congruence. destruct (A3 o p Hg) as (Hh & Hd & Hw).
      unfold object_at. rewrite word_set, decide_False by lia. split_and!; try done.
      intros j Hj. rewrite word_set. unfold renamed. destruct (decide (p + 8 * j = p + (a - o))) as [Ej|Ej].
      * replace (o + 8 * j) with a by lia. rewrite decide_True by set_solver. by rewrite Hv.
      * rewrite Hw by done. unfold renamed. apply decide_ext. set_unfold. intuition lia.
    + destruct (A1 o' p' Hg') as [Ho' _]. pose proof (size_facts o' Hk Ho') as (? & ? & ?).
      assert (Hat : object_at (set_word s (p + (a - o)) v) g T (mark_of D o') o' p')
        by (eapply object_at_frame; [by apply (W2 o' p')|done|auto]).
      destruct Hat as (Hh & Hd & Hw). split_and!; try done. intros j Hj. rewrite Hw by done. unfold renamed.
      apply decide_ext. enough (o' + 8 * j ≠ a) by set_solver. intros Ej.
      destruct (eh_apart Hk o o' Ho Ho' ltac:(auto)); Z.div_mod_to_equations; lia.
  - intros o' p' Hg' Hpp. rewrite (W3 o' p') by done. auto.
  - intros b [Hb| ->%elem_of_singleton]%elem_of_union; [auto|]. split; [by rewrite Hv|by exists o].
  - intros b Hb Hf HP. rewrite W4 by done. auto.
  - intros b Hb. destruct (A11 b Hb) as [Hb1 Hb2]. rewrite W5 by done. auto.
Qed.

(** Marking the header of an object that has been reached. *)
Lemma image_mark P J g T D e s o p h : evac_heap_ok → image P J g T D e s → g !! o = Some p → header_wf h →
  decode h = mkHeader next false (hd_pinned (decode (word s0 o))) (vtable_of w0 o) →
  image P J g T (D ∪ {[o]}) e (set_word s p h).
Proof.
  intros Hk Hi Hg Hh Hd. destruct (im_objs _ _ _ _ _ _ _ Hi o p Hg) as [Ho _].
  pose proof (size_facts o Hk Ho) as (Hs1 & Hs2 & Hs3).
  destruct (image_write P J g T D e s o p p h Hk Hi Hg ltac:(unfold within; lia)) as (W1 & W2 & W3 & W4 & W5).
  destruct Hi as [A1 A2 A3 A4 A5 A6 A7 A8 A9 A10 A11]. constructor; try done.
  - intros o' j Ho' Hg' Hj. rewrite W1 by done. auto.
  - intros o' p' Hg'. destruct (decide (o' = o)) as [->|Hne].
    + assert (p' = p) as -> by congruence. destruct (A3 o p Hg) as (_ & _ & Hw).
      unfold object_at, mark_of. rewrite word_set, decide_True, (decide_True _ _) by set_solver. split_and!; try done.
      intros j Hj. rewrite word_set, decide_False by lia. auto.
    + destruct (A1 o' p' Hg') as [Ho' _]. pose proof (size_facts o' Hk Ho') as (? & ? & ?).
      replace (mark_of (D ∪ {[o]}) o') with (mark_of D o') by (unfold mark_of; apply decide_ext; set_solver).
      eapply object_at_frame; [by apply (W2 o' p')|done|auto].
  - intros o' p' Hg' Hpp. rewrite (W3 o' p') by done. auto.
  - intros b Hb. destruct (A8 b Hb) as (? & x & ? & ?). split; [done|]. exists x. set_solver.
  - intros x [Hx| ->%elem_of_singleton]%elem_of_union; [auto|by rewrite Hg].
  - intros b Hb Hf HP. rewrite W4 by done. auto.
  - intros b Hb. destruct (A11 b Hb) as [Hb1 Hb2]. rewrite W5 by done. auto.
Qed.

(** Only the words of memory matter. *)
Lemma image_ext P J g T D e s s' : evac_heap_ok → (∀ a, word s' a = word s a) → image P J g T D e s → image P J g T D e s'.
Proof.
  intros Hk E [A1 A2 A3 A4 A5 A6 A7 A8 A9 A10 A11]. constructor; try done.
  - intros. rewrite E. auto.
  - intros o p Hg. destruct (A1 o p Hg) as [Ho _]. pose proof (size_facts o Hk Ho) as (_ & _ & Hs).
    apply (object_at_frame s s'); auto.
  - intros o p Hg Hp. rewrite E. auto.
  - intros. rewrite E. auto.
  - intros a Ha. rewrite E. auto.
Qed.

Lemma image_slots_mono P J J' g T D e s : J ⊆ J' → image P J g T D e s → image P J' g T D e s.
Proof.
  intros HJ [A1 A2 A3 A4 A5 A6 A7 A8 A9 A10 A11]. constructor; try done.
  intros o p Hg Hp. destruct (A6 o p Hg Hp) as [(a & Ha & Ea) Hf]. split; [|done]. exists a. split; [by apply HJ|done].
Qed.

(** The allocator has less room and no object was put into what it lost. *)
Lemma room_le_exhausted e e' : room_le e e' → exhausted e → exhausted e'.
Proof.
  intros [_ Hb] [Eh Ec]. assert (En : evac_open e' = []).
  { destruct (evac_open e') as [|p l] eqn:E; [done|]. assert (Hin : p.1 ∈ evac_blocks e') by (unfold evac_blocks; rewrite E; left).
    apply Hb in Hin. unfold evac_blocks, evac_open in Hin. rewrite Eh, Ec in Hin. by apply not_elem_of_nil in Hin. }
  unfold evac_open in En. apply app_eq_nil in En as [E1%fmap_nil_inv E2%fmap_nil_inv].
  split; [done|]. by destruct (e_current_block e').
Qed.

Lemma new_place_le e e' o p : room_le e e' → new_place e o p → new_place e' o p.
Proof.
  intros [Hf _] [A B C D]. constructor; try done. intros x Hx. destruct (D x Hx) as [D1 D2]. split; [done|]. by intros ?%Hf.
Qed.

Lemma image_room P J g T D e e' s : room_le e e' → image P J g T D e s → image P J g T D e' s.
Proof.
  intros Hle [A1 A2 A3 A4 A5 A6 A7 A8 A9 A10 A11]. constructor; try done.
  - intros o p Hg. destruct (A4 o p Hg); [by left|right]. by eapply new_place_le.
  - intros o Hg Hm. eapply room_le_exhausted; [done|by apply (A7 o)].
Qed.

(** No slot of [o] has been traced. *)
Lemma untraced P J g T D e s o i : evac_heap_ok → image P J g T D e s → o ∈ objs →
  (∀ a, a ∈ slots_of o → a ∉ T) → 0 <= i < size_of o / 8 → renamed g T (o + 8 * i) = word s0 (o + 8 * i).
Proof.
  intros Hk Hi Ho Hs Hii. unfold renamed. rewrite decide_False; [done|]. intros Ha.
  destruct (im_traced _ _ _ _ _ _ _ Hi _ Ha) as (_ & o' & Ho' & Hso). destruct (im_done _ _ _ _ _ _ _ Hi o' Ho') as [p Hp].
  destruct (im_objs _ _ _ _ _ _ _ Hi o' p Hp) as [Hoo _]. destruct (eh_slots Hk o' _ Hoo Hso) as ((j & Hj & Ej) & _).
  destruct (decide (o' = o)) as [->|Hne]; [by apply (Hs _ Hso)|].
  destruct (eh_apart Hk o' o Hoo Ho Hne); Z.div_mod_to_equations; lia.
Qed.

Lemma unmarked_untraced P J g T D e s o a : evac_heap_ok → image P J g T D e s → o ∈ objs → o ∉ D → a ∈ slots_of o → a ∉ T.
Proof.
  intros Hk Hi Ho HoD Ha HaT. destruct (eh_slots Hk o a Ho Ha) as ((i & Hii & Ei) & _).
  destruct (im_traced _ _ _ _ _ _ _ Hi _ HaT) as (_ & o' & Ho' & Hso). destruct (im_done _ _ _ _ _ _ _ Hi o' Ho') as [p Hp].
  destruct (im_objs _ _ _ _ _ _ _ Hi o' p Hp) as [Hoo _]. destruct (eh_slots Hk o' _ Hoo Hso) as ((j & Hj & Ej) & _).
  destruct (eh_apart Hk o' o Hoo Ho ltac:(congruence)); Z.div_mod_to_equations; lia.
Qed.

(** An object that has not been reached is as it was. *)
Lemma object_unreached P J g T D e s k : evac_heap_ok → image P J g T D e s → k ∈ objs → g !! k = None →
  object_at s g T (mark_of D k) k k.
Proof.
  intros Hk Hi Ho Hg. pose proof Hi as [A1 A2 A3 A4 A5 A6 A7 A8 A9 A10 A11].
  assert (HkD : k ∉ D) by (intros [? E]%A9; congruence).
  destruct (eh_header Hk k Ho) as (Hw & Hf & Hmk). pose proof (size_facts k Hk Ho) as (_ & _ & Hs3).
  assert (E0 : word s k = word s0 k) by (pose proof (A2 k 0 Ho Hg ltac:(lia)) as E; by rewrite Z.mul_0_r, !Z.add_0_r in E).
  unfold object_at, mark_of. rewrite E0, decide_False by done. split_and!; [done| |].
  - rewrite <- Hmk, <- Hf. done.
  - intros i Hii. rewrite A2 by (done || lia). symmetry. eapply untraced; [done..| |lia]. intros a. by eapply unmarked_untraced.
Qed.

(** The object [k] is reached and stays where it is. *)
Lemma image_stay P J g T D e s k : evac_heap_ok → image P J g T D e s → k ∈ objs → reached k → g !! k = None →
  (movable k → exhausted e) → image P J (<[k := k]> g) T D e s.
Proof.
  intros Hk Hi Ho Hr Hg Hm. assert (HkD : k ∉ D) by (intros [? E]%(im_done _ _ _ _ _ _ _ Hi); congruence).
  assert (Hap : ∀ o p, g !! o = Some p → o ≠ k → disjoint_at o p k k).
  { intros o p Ho' Hne. destruct (im_objs _ _ _ _ _ _ _ Hi o p Ho') as [Hoo _].
    pose proof (size_facts o Hk Hoo) as (? & _). pose proof (size_facts k Hk Ho) as (? & _).
    destruct (decide (p + size_of o <= k)) as [|N1]; [by left|]. destruct (decide (k + size_of k <= p)) as [|N2]; [by right|].
    exfalso. apply (image_old _ _ _ _ _ _ _ o p k Hk Hi Ho' Ho ltac:(auto) (Z.max p k)); unfold within; lia. }
  pose proof Hi as [A1 A2 A3 A4 A5 A6 A7 A8 A9 A10 A11].
  assert (HT : ∀ a, a ∈ T → is_Some (g !! word s0 a)) by (intros a Ha; by apply A8).
  constructor.
  - intros o p. rewrite lookup_insert_Some. intros [[<- <-]|[_ ?]]; eauto.
  - intros o i Ho' [Hgo _]%lookup_insert_None. auto.
  - intros o p. rewrite lookup_insert_Some. intros [[<- <-]|[Hne ?]]; apply object_at_grow; auto.
    by eapply object_unreached.
  - intros o p. rewrite lookup_insert_Some. intros [[<- <-]|[Hne ?]]; auto.
  - intros o o' p p'. rewrite !lookup_insert_Some. intros [[<- <-]|[N1 Hg1]] [[<- <-]|[N2 Hg2]] Hne; try done; eauto.
    + destruct (Hap o' p' Hg2 ltac:(auto)); [by right|by left].
  - intros o p. rewrite lookup_insert_Some. intros [[<- <-]|[Hne ?]]; [done|auto].
  - intros o. rewrite lookup_insert_Some. intros [[<- _]|[_ Hgo]] Hmv; [by apply Hm|by apply (A7 o)].
  - intros a Ha. destruct (A8 a Ha) as [Hs ?]. split; [|done]. rewrite lookup_insert. case_decide; [done|done].
  - intros o HoD. destruct (A9 o HoD) as [p Hp]. exists p. rewrite lookup_insert_ne; [done|]. by intros ->.
  - done.
  - intros a Ha. destruct (A11 a Ha) as [? E]. split; [done|]. rewrite lookup_insert_ne; [done|]. intros ->. congruence.
Qed.

(** What the copy of an object holds. *)
Lemma object_at_copy s s' g T m k c : 2 <= size_of k / 8 → ¬ within k c k →
  (∀ a, a ≠ k → word s' a =
     if decide (c <= a < c + size_of k ∧ (a - c) mod 8 = 0) then word s (k + (a - c)) else word s a) →
  object_at s g T m k k → object_at s' g T m k c.
Proof.
  intros Hs Hck Hw (Hh & Hd & Hww).
  assert (Hcopy : ∀ i, 0 <= i < size_of k / 8 → word s' (c + 8 * i) = word s (k + 8 * i)).
  { intros i Hi. rewrite Hw, decide_True.
    - f_equal. lia.
    - split; [Z.div_mod_to_equations; lia|]. replace (c + 8 * i - c) with (i * 8) by lia. apply Z.mod_mul. lia.
    - intros E. apply Hck. rewrite <- E at 2. apply word_at_within. by exists i. }
  pose proof (Hcopy 0 ltac:(lia)) as E0. rewrite Z.mul_0_r, !Z.add_0_r in E0. unfold object_at. rewrite E0. split_and!; try done.
  intros i Hi. rewrite Hcopy by lia. by apply Hww.
Qed.

(** A new place is apart from the others. *)
Lemma apart_new k c o p : 0 < size_of o → 0 < size_of k → (∀ x, within o p x → ¬ within k c x) → disjoint_at o p k c.
Proof.
  intros H1 H2 Hnew. destruct (decide (p + size_of o <= c)) as [|N1]; [by left|]. destruct (decide (c + size_of k <= p)) as [|N2]; [by right|].
  exfalso. apply (Hnew (Z.max p c)); unfold within; lia.
Qed.

(** The object [k] is reached and copied to [c]; the header of the old object is all
    that may change besides. *)
Lemma image_move P J g T D e e' s s' k c : evac_heap_ok → image P J g T D e s → k ∈ objs → reached k → g !! k = None →
  movable k → room_le e0 e → room_le e e' → room_taken e c (size_of k) e' →
  (∀ a, a ≠ k → word s' a =
     if decide (c <= a < c + size_of k ∧ (a - c) mod 8 = 0) then word s (k + (a - c)) else word s a) →
  (∃ a, a ∈ J ∧ word s0 a = k) →
  (k ∈ referents → header_wf (word s' k) ∧ hd_forwarded (decode (word s' k)) = true ∧ hd_pointer (decode (word s' k)) = c) →
  image P J (<[k := c]> g) T D e' s'.
Proof.
  intros Hk Hi Ho Hr Hg Hm Hle0 Hle Ht Hw HJ Hfw. pose proof (object_unreached P J g T D e s k Hk Hi Ho Hg) as Hku.
  pose proof (size_facts k Hk Ho) as (Hs1 & Hs2 & Hs3). pose proof Ht as [Hbl Hal Hfr].
  assert (Hf0 : ∀ x, within k c x → efree e0 x ∧ efree e x ∧ ¬ efree e' x).
  { intros x Hx. destruct (Hfr x Hx). split_and!; auto. by apply Hle0. }
  assert (Hold : ∀ o x, o ∈ objs → within o o x → ¬ within k c x) by (intros o x Hoo Hx Hc; by apply (eh_room Hk o x), Hf0).
  assert (Hck : c ≠ k) by (intros ->; apply (Hold k k Ho); unfold within; lia).
  assert (Hnew : ∀ o p x, g !! o = Some p → within o p x → ¬ within k c x).
  { intros o p x Hgo Hx Hc. destruct (im_place _ _ _ _ _ _ _ Hi o p Hgo) as [->|Hp].
    - by apply (Hold o x); [apply (im_objs _ _ _ _ _ _ _ Hi o o Hgo)|..].
    - by apply (np_room _ _ _ Hp x Hx), Hf0. }
  assert (Hsame : ∀ a, a ≠ k → ¬ within k c a → word s' a = word s a).
  { intros a Hak Hac. rewrite Hw, decide_False by done || (unfold within in Hac; tauto). done. }
  assert (Hwk : within k k k) by (unfold within; lia).
  assert (Hap : ∀ o p, g !! o = Some p → disjoint_at o p k c).
  { intros o p Hgo. destruct (im_objs _ _ _ _ _ _ _ Hi o p Hgo) as [Hoo _]. pose proof (size_facts o Hk Hoo) as (? & _).
    apply apart_new; [lia|lia|]. intros x. by apply Hnew. }
  pose proof Hi as [A1 A2 A3 A4 A5 A6 A7 A8 A9 A10 A11].
  assert (HT : ∀ a, a ∈ T → is_Some (g !! word s0 a)) by (intros a Ha; by apply A8).
  constructor.
  - intros o p. rewrite lookup_insert_Some. intros [[<- <-]|[_ ?]]; eauto.
  - intros o i Hoo [Hgo Hne]%lookup_insert_None Hii.
    assert (Hx : within o o (o + 8 * i)) by (apply word_at_within; by exists i).
    rewrite Hsame; [auto| |by eapply Hold]. intros E. rewrite E in Hx.
    destruct (eh_apart Hk o k Hoo Ho ltac:(auto)); unfold within in *; lia.
  - intros o p. rewrite lookup_insert_Some. intros [[<- <-]|[Hne Hgo]]; apply object_at_grow; auto.
    + apply (object_at_copy s s'); auto. by apply (Hold k k).
    + destruct (A1 o p Hgo) as [Hoo _]. pose proof (size_facts o Hk Hoo) as (_ & _ & ?).
      apply (object_at_frame s s'); auto. intros a Ha%word_at_within. apply Hsame; [|by eapply Hnew].
      intros ->. by apply (image_old _ _ _ _ _ _ _ o p k Hk Hi Hgo Ho ltac:(auto) k).
  - intros o p. rewrite lookup_insert_Some. intros [[<- <-]|[Hne Hgo]].
    + right. constructor; try done; [|intros x Hx; by destruct (Hf0 x Hx) as (? & _ & ?)].
      destruct Hbl as (b & Hb & ?). exists b. split; [by apply Hle0|done].
    + destruct (A4 o p Hgo); [by left|right]. by eapply new_place_le.
  - intros o o' p p'. rewrite !lookup_insert_Some. intros [[<- <-]|[N1 Hg1]] [[<- <-]|[N2 Hg2]] Hne; try done; eauto.
    destruct (Hap o' p' Hg2); [by right|by left].
  - intros o p. rewrite lookup_insert_Some. intros [[<- <-]|[Hne Hgo]] Hp; [done|].
    destruct (A1 o p Hgo) as [Hoo _]. pose proof (size_facts o Hk Hoo) as (? & _).
    rewrite Hsame; [auto|done|]. apply (Hold o o Hoo). unfold within. lia.
  - intros o. rewrite lookup_insert_Some. intros [[<- ?]|[_ Hgo]] Hmv; [done|]. eapply room_le_exhausted; [done|by apply (A7 o)].
  - intros a Ha. destruct (A8 a Ha) as [Hs ?]. split; [|done]. rewrite lookup_insert. case_decide; [done|done].
  - intros o HoD. destruct (A9 o HoD) as [p Hp]. exists p. rewrite lookup_insert_ne; [done|]. intros ->. congruence.
  - intros a Hout Hf HP. rewrite Hsame; [auto| |intros Hc; by destruct (Hf0 a Hc)]. intros ->. by apply (Hout k).
  - intros a Ha. destruct (A11 a Ha) as [Hpr E]. split; [done|]. destruct (eh_precise Hk a Hpr) as (_ & Hf & Hout).
    rewrite lookup_insert_ne by (intros ->; congruence). rewrite Hsame; [done| |intros Hc; by destruct (Hf0 a Hc)]. intros ->. by apply (Hout k).
Qed.

(** Storing the new address of its object into the slot [a] of a precise root. *)
Lemma image_root P J g T D e s a v : evac_heap_ok → image P J g T D e s → a ∈ precise → a ∉ P →
  g !! word s0 a = Some v → image (P ++ [a]) J g T D e (set_word s a v).
Proof.
  intros Hk Hi Ha HaP Hv. destruct (eh_precise Hk a Ha) as (_ & Hf & Hout).
  assert (Hne : ∀ b, b ≠ a → word (set_word s a v) b = word s b) by (intros b Hb; by rewrite word_set, decide_False).
  pose proof Hi as [A1 A2 A3 A4 A5 A6 A7 A8 A9 A10 A11]. constructor; try done.
  - intros o i Ho Hg Hii. rewrite Hne; [auto|]. intros E. apply (Hout o Ho). rewrite <- E. apply word_at_within. by exists i.
  - intros o p Hg. destruct (A1 o p Hg) as [Ho _]. pose proof (size_facts o Hk Ho) as (_ & _ & ?).
    apply (object_at_frame s); auto. intros b Hb%word_at_within. apply Hne. intros ->.
    by apply (image_root_apart _ _ _ _ _ _ _ o p a Hk Hi Hg Ha).
  - intros o p Hg Hp. destruct (A1 o p Hg) as [Ho _]. pose proof (size_facts o Hk Ho) as (? & _).
    rewrite Hne; [auto|]. intros ->. apply (Hout a Ho). unfold within. lia.
  - intros b Hb Hfb HP. rewrite Hne; [apply A10|]; set_solver.
  - intros b [Hb| ->%list_elem_of_singleton]%elem_of_app.
    + rewrite Hne by congruence. auto.
    + split; [done|]. by rewrite word_set, decide_True.
Qed.

(** ** What the collector records besides *)

(** Line [l] of block [b] belongs to the object [o] at [p]. *)
Definition line_at (o p b l : Z) : Prop :=
  immix w0 p ∧ Block.get_block_ptr p = b ∧ Block.covered_line (p mod 32768) (size_of o) l.

Record records (g : gmap Z Z) (D : gset Z) (sp : ImmixSpace) (w : World) : Prop := {
  rs_ready : evac_ready sp w;
  rs_le : room_le e0 (evac_allocator sp);
  rs_space : sp = set_evac (set_bitmap sp0 (bitmap sp)) (evac_allocator sp);
  rs_world : w_ba w = w_ba w0 ∧ w_tls w = w_tls w0;
  rs_shape : Space.same_shape (bitmap sp0) (bitmap sp);
  rs_candidate : ∀ b, evacuation_candidate (header (w_store w) b) = evacuation_candidate (header s0 b);
  rs_other : ∀ b, b ∉ blocks → b ∉ evac_blocks e0 → header (w_store w) b = header s0 b;
  rs_lines : ∀ b l, 0 <= l → marked_line w b l = true ↔
    marked_line w0 b l = true ∨ ∃ o p, o ∈ D ∧ g !! o = Some p ∧ line_at o p b l;
  rs_marks : ∀ q, 0 <= q → Space.marked (bitmap sp) q = true ↔
    Space.marked (bitmap sp0) q = true ∨
    ∃ o p, g !! o = Some p ∧ (o ∈ D ∨ p ≠ o) ∧ immix w0 p ∧ Space.granule 16 (bitmap sp0) p = q
}.

Lemma records_words g D sp w s : headers s = headers (w_store w) → records g D sp w → records g D sp (set_store w s).
Proof.
  intros E [[A1 A2 A3 A4] B C [D1 D2] F G O I K]. assert (Eh : ∀ b, header s b = header (w_store w) b) by (intros b; unfold header; by rewrite E).
  constructor; try done; cbn.
  - constructor; try done. intros b. cbn. by rewrite Eh.
  - intros b. by rewrite Eh.
  - intros b Hb He. rewrite Eh. auto.
  - intros b l Hl. unfold marked_line. cbn. rewrite Eh. by apply I.
Qed.

(** [maybe_evacuate] that moves nothing. *)
Lemma records_still g D sp w sp' w' : records g D sp w → evac_step sp w sp' w' → bitmap sp' = bitmap sp → records g D sp' w'.
Proof.
  intros [[A1 A2 A3 A4] B C [D1 D2] F G O I K] [R Hle Es [E1 E2] Hh Hs] Eb.
  destruct (headers_kept_facts _ _ _ Hh A3) as (_ & Hl & Hc & Hot). constructor.
  - done.
  - by etrans.
  - rewrite Es, C. done.
  - split; congruence.
  - by rewrite Eb.
  - intros b. rewrite Hc. apply G.
  - intros b Hb He. rewrite Hot; [auto|]. by intros ?%(rl_blocks _ _ B).
  - intros b l Hl0. rewrite <- I by done. unfold marked_line. by rewrite Hl.
  - intros q Hq. rewrite Eb. by apply K.
Qed.

Lemma records_stay g D sp w k : k ∉ D → g !! k = None → records g D sp w → records (<[k := k]> g) D sp w.
Proof.
  intros HkD Hg [A B C D' F G O I K]. constructor; try done.
  - intros b l Hl. rewrite (I b l Hl). f_equiv. f_equiv. intros o. f_equiv. intros p.
    split; intros (Ho & Hgo & Hl'); (split; [done|]; split; [|done]).
    + rewrite lookup_insert_ne by congruence. done.
    + by rewrite lookup_insert_ne in Hgo by congruence.
  - intros q Hq. rewrite (K q Hq). f_equiv. f_equiv. intros o. f_equiv. intros p. rewrite lookup_insert_Some.
    split; [|intros ([[<- <-]|[_ ?]] & [?|?] & ?); by auto].
    intros (Hgo & ?). split; [|done]. right. split; [congruence|done].
Qed.

(** [maybe_evacuate] that copies [k] to [c]. *)
Lemma records_move g D sp w sp' w' k c : k ∉ D → g !! k = None → c ≠ k → immix w0 c →
  records g D sp w → evac_step sp w sp' w' →
  (∀ q, 0 <= q → Space.marked (bitmap sp') q =
     if decide (q = Space.granule 16 (bitmap sp) c) then true else Space.marked (bitmap sp) q) →
  records (<[k := c]> g) D sp' w'.
Proof.
  intros HkD Hg Hck Hc [[A1 A2 A3 A4] B C [D1 D2] F G O I K] [R Hle Es [E1 E2] Hh Hs] Hm.
  destruct (headers_kept_facts _ _ _ Hh A3) as (_ & Hl & Hcd & Hot).
  assert (Eg : ∀ x, Space.granule 16 (bitmap sp) x = Space.granule 16 (bitmap sp0) x)
    by (intros x; unfold Space.granule; by rewrite (Space.same_shape_begin _ _ F)).
  constructor.
  - done.
  - by etrans.
  - rewrite Es, C. done.
  - split; congruence.
  - by eapply Space.same_shape_trans.
  - intros b. rewrite Hcd. apply G.
  - intros b Hb He. rewrite Hot; [auto|]. by intros ?%(rl_blocks _ _ B).
  - intros b l Hl0. trans (marked_line w b l = true); [unfold marked_line; by rewrite Hl|]. rewrite (I b l Hl0). f_equiv. f_equiv. intros o. f_equiv. intros p.
    split; intros (Ho & Hgo & Hl'); (split; [done|]; split; [|done]).
    + rewrite lookup_insert_ne by congruence. done.
    + by rewrite lookup_insert_ne in Hgo by congruence.
  - intros q Hq. rewrite Hm by done. case_decide as Cq.
    + split; [|done]. intros _. right. exists k, c. rewrite lookup_insert_eq, <- Eg. auto.
    + rewrite (K q Hq). f_equiv. f_equiv. intros o. f_equiv. intros p. rewrite lookup_insert_Some. split.
      * intros (Hgo & ?). split; [|done]. right. split; [congruence|done].
      * intros ([[<- <-]|[_ ?]] & ? & ? & Ep); [|by auto]. by rewrite Eg in Cq.
Qed.

(** ** Sizes and slots of objects where they are *)

Lemma object_local P J g T D e s m o p : evac_heap_ok → image P J g T D e s → o ∈ objs → object_at s g T m o p →
  (∀ a, a ∈ slots_of o → a ∉ T) →
  RawGc.vtable (word s p) = Ok (vtable_of w0 o) ∧
  ImmixSpaceM.object_size_at rtti_of s p = Ok (size_of o) ∧
  visit_references (rtti_of (vtable_of w0 o)) (words s) p = (λ a, p + (a - o)) <$> slots_of o.
Proof.
  intros Hk Hi Ho (Hh & Hd & Hw) Hs.
  destruct (eh_local Hk o p (words s) Ho) as [Es Ev].
  { intros i Hii. change (word s (p + 8 * i) = word s0 (o + 8 * i)). rewrite Hw by done. by eapply untraced; [..|lia]. }
  assert (Evt : RawGc.vtable (word s p) = Ok (vtable_of w0 o)) by (by rewrite HeaderFacts.vtable_ok, Hd).
  split_and!; [done| |done]. unfold ImmixSpaceM.object_size_at. rewrite Evt, bind_Ok. unfold RawGc.object_size.
  fold (type_of o). rewrite Es. pose proof (eh_size Hk o Ho). by rewrite Rounding.align_usize_ok by lia.
Qed.

(** ** Moving one object *)

Lemma object_size_of_movable o : evac_heap_ok → o ∈ objs → immix w0 o → size_of o <= 32639.
Proof.
  intros Hk Ho Hi. destruct (eh_placed Hk o Ho Hi) as (_ & H1 & H2). consts.
  pose proof (size_facts o Hk Ho) as (_ & Hm & _). Z.div_mod_to_equations. lia.
Qed.

(** An address in a block belongs to the space. *)
Lemma block_immix b p : BA.in_range (w_ba w0) b → b <= p < b + BLOCK_SIZE → immix w0 p ∧ p < data_bound (w_ba w0).
Proof.
  intros (_ & Hlo & Hhi) Hp. pose proof (BA.aligned_spec (mmap (w_ba w0))) as [_ Hal]. split; [|lia].
  unfold immix, BA.is_in_space. apply andb_true_iff. rewrite !bool_decide_eq_true. lia.
Qed.

Lemma taken_immix e r size e' : (∀ b, b ∈ evac_blocks e → BA.in_range (w_ba w0) b) → 0 < size →
  room_taken e r size e' → immix w0 r ∧ r < data_bound (w_ba w0).
Proof.
  intros Hr Hs [(b & Hb & H1 & H2) _ _]. apply (block_immix b); [by apply Hr|lia].
Qed.

Section State.
Context (P : list Z) (J : gset Z) (g : gmap Z Z) (T D : gset Z) (sp : ImmixSpace) (w : World).
Context (Hk : evac_heap_ok) (Hi : image P J g T D (evac_allocator sp) (w_store w)) (Hrec : records g D sp w).

Lemma unreached_unmarked k : g !! k = None → k ∉ D.
Proof. intros Hg [? E]%(im_done _ _ _ _ _ _ _ Hi). congruence. Qed.

(** Whether an object that is where it was can be moved has not changed. *)
Lemma movable_now m k : object_at (w_store w) g T m k k → immix w0 k →
  (movable k ↔ ImmixSpaceM.pinned w k = false ∧ ImmixSpaceM.candidate w k = true).
Proof.
  intros (_ & Hd & _) Him. unfold movable, ImmixSpaceM.pinned, ImmixSpaceM.candidate.
  rewrite Hd, (rs_candidate _ _ _ _ Hrec). cbn. tauto.
Qed.

(** The object [k] was reached before and stays. *)
Lemma evacuate_stays k : g !! k = Some k → k ∉ D → immix w0 k →
  ImmixSpaceM.maybe_evacuate rtti_of sp w k = Ok (None, sp, w).
Proof.
  intros Hg HkD Him. pose proof (im_at _ _ _ _ _ _ _ Hi k k Hg) as Hat. destruct (im_objs _ _ _ _ _ _ _ Hi k k Hg) as [Ho _].
  pose proof (movable_now _ k Hat Him) as Hm. pose proof (size_facts k Hk Ho) as (Hs & _).
  destruct (object_local P J g T D _ _ _ k k Hk Hi Ho Hat) as (_ & Hsz & _); [intros a; by eapply unmarked_untraced|].
  pose proof Hat as (Hh & _). destruct (decide (movable k)) as [Hmv|Hmv].
  - eapply maybe_evacuate_still; [|done|exact Hsz|lia]. by apply (im_stay _ _ _ _ _ _ _ Hi k).
  - unfold ImmixSpaceM.maybe_evacuate. rewrite HeaderFacts.is_pinned_ok, bind_Ok by done.
    fold (ImmixSpaceM.pinned w k) (ImmixSpaceM.candidate w k).
    destruct (ImmixSpaceM.pinned w k), (ImmixSpaceM.candidate w k); try done. tauto.
Qed.

(** The object [k] was not reached before. *)
Lemma evacuate_ok k : k ∈ objs → g !! k = None → immix w0 k →
  ∃ r sp' w', ImmixSpaceM.maybe_evacuate rtti_of sp w k = Ok (r, sp', w') ∧
    room_le (evac_allocator sp) (evac_allocator sp') ∧
    match r with
    | None => records (<[k := k]> g) D sp' w' ∧ words (w_store w') = words (w_store w) ∧ (movable k → exhausted (evac_allocator sp'))
    | Some c => movable k ∧ c ≠ k ∧ c mod 16 = 0 ∧ 0 < c < 2 ^ 64 ∧ room_taken (evac_allocator sp) c (size_of k) (evac_allocator sp') ∧
        records (<[k := c]> g) D sp' w' ∧
        ∀ a, word (w_store w') a =
          if decide (c <= a < c + size_of k ∧ (a - c) mod 8 = 0) then word (w_store w) (k + (a - c)) else word (w_store w) a
    end.
Proof.
  intros Ho Hg Him. pose proof (object_unreached _ _ _ _ _ _ _ k Hk Hi Ho Hg) as Hat. pose proof Hat as (Hh & _).
  pose proof (unreached_unmarked k Hg) as HkD. pose proof (size_facts k Hk Ho) as (Hs & _). pose proof (object_size_of_movable k Hk Ho Him).
  destruct (object_local P J g T D _ _ _ k k Hk Hi Ho Hat) as (_ & Hsz & _); [intros a; by eapply unmarked_untraced|].
  pose proof Hrec as [Hready Hle0 _ [Eba _] _ _ _ _ _]. pose proof (movable_now _ k Hat Him) as Hm.
  destruct (maybe_evacuate_room rtti_of sp w k (size_of k) Hready Hh Hsz ltac:(lia)) as (r & sp' & w' & E & Hst & Hr).
  exists r, sp', w'. split; [done|]. split; [apply Hst|]. destruct r as [c|].
  - destruct Hr as (Hp & Hc & Ht & Hw & Hmk). 
    destruct (taken_immix (evac_allocator sp) c (size_of k) (evac_allocator sp')) as [Hic Hcb];
      [rewrite <- Eba; apply Hready|lia|done|].
    pose proof (eh_bound Hk). destruct (rt_aligned _ _ _ _ Ht) as [Hc0 Hc16].
    assert (c ≠ k).
    { intros ->. apply (eh_room Hk k k Ho); [unfold within; lia|]. apply Hle0, (rt_free _ _ _ _ Ht). lia. }
    split_and!; try done; [tauto|lia|]. by eapply records_move.
  - destruct Hr as (Hw & Hb & Hr). split_and!; try done.
    + apply records_stay; [done..|]. by eapply records_still.
    + intros [? ?]%Hm. destruct Hr as [?|[?|?]]; [congruence..|done].
Qed.

End State.

(** ** Tracing *)

(** The slots that have been looked at. *)
Definition seen (T : gset Z) (P : list Z) : gset Z := T ∪ list_to_set P.

(** What tracing a reference to [k] does to the renaming and the queue. *)
Definition traced (k : Z) (g g' : gmap Z Z) (new : list Z) : Prop :=
  new = [] ∧ g' = g ∧ is_Some (g !! k) ∨
  ∃ v, new = [v] ∧ g' = <[k := v]> g ∧ (g !! k = None ∨ g !! k = Some v).

Lemma filter_fast_immix g D sp w k : records g D sp w → ImmixSpaceM.filter_fast sp w k = true ↔ immix w0 k.
Proof.
  intros [_ _ _ [E _] _ _ _ _ _]. unfold ImmixSpaceM.filter_fast, immix. rewrite E. by destruct (BA.is_in_space _ _).
Qed.

(** A slot whose word is the new address already. *)
Lemma image_slot_same P J g T D e s o p a v : evac_heap_ok → image P J g T D e s → g !! o = Some p → o ∈ D →
  a ∈ slots_of o → g !! word s0 a = Some v → word s (p + (a - o)) = v → image P J g (T ∪ {[a]}) D e s.
Proof.
  intros Hk Hi Hg HoD Ha Hv Ew. eapply image_ext; [done| |by apply (image_slot P J g T D e s o p a v)].
  intros b. rewrite word_set. by case_decide; subst.
Qed.

Section Trace.
Context (P : list Z) (Hall : ∀ a, a ∈ precise → a ∈ P).
Context (g : gmap Z Z) (T D : gset Z) (sp : ImmixSpace) (w : World).
Context (Hk : evac_heap_ok) (Hi : image P (seen T P) g T D (evac_allocator sp) (w_store w)) (Hrec : records g D sp w).
(** The slot [a] of an object [o] at [p]. *)
Context (o p a : Z) (Hg : g !! o = Some p) (HoD : o ∈ D) (Ha : a ∈ slots_of o) (HaT : a ∉ T).
Abbreviation k := (word s0 a).

Definition trace_post (queue : list Z) (r : R (ImmixSpace * World * list Z)) : Prop :=
  ∃ g' sp' w' new, r = Ok (sp', w', queue ++ new) ∧
    image P (seen (T ∪ {[a]}) P) g' (T ∪ {[a]}) D (evac_allocator sp') (w_store w') ∧ records g' D sp' w' ∧ traced k g g' new.

Lemma child_facts : k ∈ objs ∧ reached k ∧ word (w_store w) (p + (a - o)) = k ∧ slot_in a.
Proof.
  destruct (im_objs _ _ _ _ _ _ _ Hi o p Hg) as [Ho (r & Hr & Hrt)]. destruct (eh_slots Hk o a Ho Ha) as ((i & Hii & Ea) & Hko).
  split_and!; [done| | |by exists o].
  - exists r. split; [done|]. eapply rtc_r; [done|]. unfold edge, kids. by apply list_elem_of_fmap_2.
  - destruct (im_at _ _ _ _ _ _ _ Hi o p Hg) as (_ & _ & Hw). specialize (Hw i Hii).
    replace (p + (a - o)) with (p + 8 * i) by lia. rewrite Hw, <- Ea. unfold renamed. by rewrite decide_False.
Qed.

Lemma seen_grow : seen T P ⊆ seen (T ∪ {[a]}) P.
Proof. unfold seen. set_solver. Qed.

Lemma image_seen : image P (seen (T ∪ {[a]}) P) g T D (evac_allocator sp) (w_store w).
Proof. eapply image_slots_mono; [apply seen_grow|exact Hi]. Qed.

(** The object was moved before: there is a forwarding address. *)
Lemma trace_forwarded queue v : g !! k = Some v → v ≠ k →
  trace_post queue (trace rtti_of true next (sp, w, queue) (p + (a - o))).
Proof.
  intros Hgk Hne. destruct child_facts as (Hko & _ & Ew & Hsl). pose proof image_seen as Hi'.
  destruct (im_forward _ _ _ _ _ _ _ Hi k v Hgk Hne) as [(b & Hb & Eb) Hf].
  destruct (decide (k ∈ referents)) as [Hin|Hnin].
  - destruct (Hf Hin) as (Hh & Hfw & Hpt). unfold trace. rewrite Ew, HeaderFacts.is_forwarded_ok, bind_Ok, Hfw.
    rewrite HeaderFacts.vtable_ok, bind_Ok, Hpt by done.
    eexists g, sp, _, []. rewrite app_nil_r. split; [done|]. split_and!.
    + by apply (image_slot _ _ _ _ _ _ _ o p a v).
    + by apply records_words.
    + left. by rewrite Hgk.
  - exfalso. unfold seen in Hb. apply elem_of_union in Hb as [Hb|Hb%elem_of_list_to_set].
    + destruct (im_traced _ _ _ _ _ _ _ Hi b Hb) as (_ & o' & Ho' & Hb'). destruct (im_done _ _ _ _ _ _ _ Hi o' Ho') as [p' Hp'].
      destruct (im_objs _ _ _ _ _ _ _ Hi o' p' Hp') as [Hoo _].
      destruct (im_place _ _ _ _ _ _ _ Hi k v Hgk) as [?|Hnp]; [done|].
      assert (b = a) as ->; [|done]. apply (eh_once Hk); [by exists o'|done|done|rewrite Eb; apply Hnp|by rewrite Eb].
    + apply Hnin. rewrite <- Eb. apply list_elem_of_fmap_2. by apply (im_roots _ _ _ _ _ _ _ Hi).
Qed.

(** The object was reached before and is where it was. *)
Lemma trace_stayed queue : g !! k = Some k → trace_post queue (trace rtti_of true next (sp, w, queue) (p + (a - o))).
Proof.
  intros Hgk. destruct child_facts as (Hko & _ & Ew & _). pose proof image_seen as Hi'. pose proof (im_at _ _ _ _ _ _ _ Hi k k Hgk) as (Hh & Hd & _).
  pose proof (image_slot_same _ _ _ _ _ _ _ o p a k Hk Hi' Hg HoD Ha Hgk Ew) as Him.
  unfold trace. rewrite Ew, HeaderFacts.is_forwarded_ok, bind_Ok, Hd. cbn [hd_forwarded].
  rewrite HeaderFacts.get_mark_ok, bind_Ok, Hd by done. cbn [hd_mark]. unfold mark_of.
  destruct (decide (k ∈ D)) as [HkD|HkD].
  - rewrite decide_False by auto. exists g, sp, w, []. rewrite app_nil_r. split; [done|]. split_and!; try done. left. by rewrite Hgk.
  - rewrite decide_True by (by destruct next). exists g, sp, w, [k].
    assert (Hp : traced k g g [k]) by (right; exists k; rewrite insert_id by done; auto).
    cbn [andb]. destruct (ImmixSpaceM.filter_fast sp w k) eqn:Ef; [|done]. apply (filter_fast_immix _ _ _ _ _ Hrec) in Ef.
    by rewrite (evacuate_stays P (seen T P) g T D sp w).
Qed.

(** The object is reached for the first time. *)
Lemma trace_first queue : g !! k = None → trace_post queue (trace rtti_of true next (sp, w, queue) (p + (a - o))).
Proof.
  intros Hgk. destruct child_facts as (Hko & Hre & Ew & _). pose proof image_seen as Hi'.
  pose proof (object_unreached _ _ _ _ _ _ _ k Hk Hi Hko Hgk) as (Hh & Hd & _).
  assert (HkD : k ∉ D) by (by apply (unreached_unmarked _ _ _ _ _ _ _ Hi)).
  assert (Hgo : ∀ v, <[k := v]> g !! o = Some p) by (intros v; rewrite lookup_insert_ne by congruence; done).
  unfold trace. rewrite Ew, HeaderFacts.is_forwarded_ok, bind_Ok, Hd. cbn [hd_forwarded].
  rewrite HeaderFacts.get_mark_ok, bind_Ok, Hd by done. cbn [hd_mark andb]. unfold mark_of.
  rewrite (decide_False (P := k ∈ D)), decide_True by (done || by destruct next).
  destruct (ImmixSpaceM.filter_fast sp w k) eqn:Ef.
  - apply (filter_fast_immix _ _ _ _ _ Hrec) in Ef.
    destruct (evacuate_ok P (seen T P) g T D sp w Hk Hi Hrec k Hko Hgk Ef) as ([c|] & sp' & w' & -> & Hle & Hr); rewrite !bind_Ok.
    + destruct Hr as (Hm & Hck & Hc16 & Hc0 & Ht & Hrec' & Hw).
      eexists (<[k := c]> g), sp', _, [c]. split; [done|]. split_and!; [|by apply records_words|right; exists c; auto].
      apply image_slot; try done; [|by rewrite lookup_insert_eq].
      eapply (image_move _ _ _ _ _ (evac_allocator sp)); try done; [apply Hrec| |].
      * exists a. split; [|done]. unfold seen. set_solver.
      * intros (b & Eb & Hb)%list_elem_of_fmap. exfalso. destruct (im_roots _ _ _ _ _ _ _ Hi b (Hall b Hb)) as [_ E].
        rewrite <- Eb in E. congruence.
    + destruct Hr as (Hrec' & Hw & Hm). exists (<[k := k]> g), sp', w', [k]. split; [done|]. split_and!; [|done|right; exists k; auto].
      assert (Hww : ∀ b, word (w_store w') b = word (w_store w) b) by (intros b; unfold word; by rewrite Hw).
      eapply (image_slot_same _ _ _ _ _ _ _ o p a k); try done; [|by rewrite lookup_insert_eq|by rewrite Hww].
      apply image_stay; try done. eapply image_ext; [done|exact Hww|]. by eapply image_room.
  - assert (Hnm : ¬ immix w0 k) by (intros E; apply (filter_fast_immix _ _ _ _ _ Hrec) in E; congruence).
    rewrite bind_Ok. exists (<[k := k]> g), sp, w, [k]. split; [done|]. split_and!; [|by apply records_stay|right; exists k; auto].
    eapply (image_slot_same _ _ _ _ _ _ _ o p a k); try done; [|by rewrite lookup_insert_eq].
    apply image_stay; try done. by intros [? _].
Qed.

Lemma trace_moves queue : trace_post queue (trace rtti_of true next (sp, w, queue) (p + (a - o))).
Proof.
  destruct (g !! k) as [v|] eqn:E; [|by apply trace_first].
  destruct (decide (v = k)) as [->|Hne]; [by apply trace_stayed|by apply (trace_forwarded queue v)].
Qed.

End Trace.

(** ** One round of the marking loop *)

Section Round.
Context (P : list Z) (Hall : ∀ a, a ∈ precise → a ∈ P) (Hk : evac_heap_ok).

(** Tracing slots of an object makes the renaming grow by what it queues. *)
Record grown (g g' : gmap Z Z) (new : list Z) : Prop := {
  gr_sub : g ⊆ g';
  gr_new : ∀ x v, g' !! x = Some v → g !! x = Some v ∨ v ∈ new;
  gr_queue : ∀ v, v ∈ new → ∃ x, g' !! x = Some v
}.

Lemma traced_grown k g g' new : traced k g g' new → grown g g' new ∧ (length new <= 1)%nat.
Proof.
  intros [(-> & -> & _)|(v & -> & -> & Hv)]; (split; [|cbn; lia]); constructor; try done.
  - intros x v Hx. by left.
  - intros v Hv%not_elem_of_nil. done.
  - destruct Hv as [?|?]; [by apply insert_subseteq|by rewrite insert_id].
  - intros x u [[<- <-]|[_ ?]]%lookup_insert_Some; [right; left|by left].
  - intros u ->%list_elem_of_singleton. exists k. by rewrite lookup_insert_eq.
Qed.

Lemma grown_trans g1 g2 g3 l1 l2 : grown g1 g2 l1 → grown g2 g3 l2 → grown g1 g3 (l1 ++ l2).
Proof.
  intros [A1 A2 A3] [B1 B2 B3]. constructor; [by etrans| |].
  - intros x v Hx. rewrite elem_of_app. destruct (B2 x v Hx) as [Hx'|?]; [|tauto]. destruct (A2 x v Hx'); tauto.
  - intros v [(x & Hx)%A3|?]%elem_of_app; [|auto]. exists x. by eapply lookup_weaken.
Qed.

Lemma trace_slots o p D l : o ∈ D → ∀ g T sp w queue, NoDup l → (∀ a, a ∈ l → a ∈ slots_of o ∧ a ∉ T) →
  image P (seen T P) g T D (evac_allocator sp) (w_store w) → records g D sp w → g !! o = Some p →
  ∃ g' sp' w' new, for_each (trace rtti_of true next) ((λ a, p + (a - o)) <$> l) (sp, w, queue) = Ok (sp', w', queue ++ new) ∧
    image P (seen (T ∪ list_to_set l) P) g' (T ∪ list_to_set l) D (evac_allocator sp') (w_store w') ∧
    records g' D sp' w' ∧ grown g g' new ∧ (length new <= length l)%nat.
Proof.
  intros HoD. induction l as [|a l IH]; intros g T sp w queue Hnd Hl Hi Hrec Hg.
  { exists g, sp, w, []. rewrite app_nil_r. cbn [list_to_set]. rewrite union_empty_r_L. split_and!; try done.
    constructor; [done|by left|]. intros v Hv%not_elem_of_nil. done. }
  apply NoDup_cons in Hnd as [Hal Hnd]. destruct (Hl a ltac:(left)) as [Ha HaT]. rewrite fmap_cons. cbn [for_each].
  destruct (trace_moves P Hall g T D sp w Hk Hi Hrec o p a Hg HoD Ha HaT queue) as (g1 & sp1 & w1 & n1 & -> & Hi1 & Hrec1 & Ht).
  rewrite bind_Ok. destruct (traced_grown _ _ _ _ Ht) as [Hgr Hlen].
  destruct (IH g1 (T ∪ {[a]}) sp1 w1 (queue ++ n1) Hnd) as (g2 & sp2 & w2 & n2 & -> & Hi2 & Hrec2 & Hgr2 & Hlen2); try done.
  { intros b Hb. destruct (Hl b ltac:(by right)). split; [done|]. set_unfold. intros [?| ->]; done. }
  { by eapply lookup_weaken; [|apply Hgr]. }
  assert (ET : T ∪ {[a]} ∪ list_to_set l = T ∪ list_to_set (a :: l)) by (cbn [list_to_set]; set_solver).
  rewrite ET in Hi2. exists g2, sp2, w2, (n1 ++ n2). rewrite app_assoc. split_and!; try done.
  - by eapply grown_trans.
  - rewrite length_app. cbn [length]. lia.
Qed.

(** Where an object of the space is: behind the header of a block of the collection or
    of the headroom. *)
Lemma place_block J g T D e s o p : image P J g T D e s → g !! o = Some p → immix w0 p →
  let b := Block.get_block_ptr p in
  (b ∈ blocks ∨ b ∈ evac_blocks e0) ∧ BA.in_range (w_ba w0) b ∧ b + 128 <= p ∧ p + size_of o < b + 32768.
Proof.
  intros Hi Hg Him b. destruct (im_objs _ _ _ _ _ _ _ Hi o p Hg) as [Ho _].
  pose proof (size_facts o Hk Ho) as (Hs & _).
  destruct (im_place _ _ _ _ _ _ _ Hi o p Hg) as [->|[_ _ (c & Hc & H1 & H2) _]].
  - destruct (eh_placed Hk o Ho Him) as (Hb & ? & ?). split_and!; try done; [by left|]. by apply (eh_blocks Hk).
  - destruct (eh_ready Hk) as [[_ Hr _] Hrange _ _]. destruct (Hr c Hc) as [_ Hcm]. consts.
    destruct (block_ptr_facts p) as (Hm & ? & _). assert (b = c) as -> by (eapply (aligned_block_eq b c p p); done || lia).
    split_and!; [by right|by apply Hrange|done|done].
Qed.

(** Recording an object where it is. *)
Lemma record_at J g T D sp w o p : image P J g T (D ∪ {[o]}) (evac_allocator sp) (w_store w) → records g D sp w →
  g !! o = Some p → ImmixSpaceM.object_size_at rtti_of (w_store w) p = Ok (size_of o) →
  ∃ sp' w', (if ImmixSpaceM.filter_fast sp w p then
         sp' ← ImmixSpaceM.set_gc_object sp p; w' ← mark_lines rtti_of w p; Ok (sp', w')
       else Ok (sp, w)) = Ok (sp', w') ∧ words (w_store w') = words (w_store w) ∧
    evac_allocator sp' = evac_allocator sp ∧ records g (D ∪ {[o]}) sp' w'.
Proof.
  intros Hi Hrec Hg Hsz. pose proof Hrec as [[A1 A2 A3 A4] B C [D1 D2] F G O I K].
  destruct (im_objs _ _ _ _ _ _ _ Hi o p Hg) as [Ho _]. pose proof (size_facts o Hk Ho) as (Hs & _).
  destruct (ImmixSpaceM.filter_fast sp w p) eqn:Ef.
  - pose proof (proj1 (filter_fast_immix _ _ _ _ _ Hrec) Ef) as Him. set (b := Block.get_block_ptr p).
    destruct (place_block _ _ _ _ _ _ o p Hi Hg Him) as (Hbb & (Hb1 & Hb2 & Hb3) & Hlo & Hhi). fold b in Hbb, Hb1, Hb2, Hb3, Hlo, Hhi.
    pose proof (BA.aligned_spec (mmap (w_ba w0))) as [_ Hal]. destruct (block_ptr_facts p) as (Hbm & _ & Em). fold b in Hbm, Em.
    destruct (ImmixSpaceM.set_gc_object_ok sp w p A4) as (bm & -> & Hc & Hsh & Hm); [rewrite D1; consts; lia|]. rewrite bind_Ok.
    unfold mark_lines. rewrite Hsz, bind_Ok. fold b. unfold Block.line_object_mark.
    destruct (Block.object_line_fits b p (size_of o) Hbm) as [_ Hfit]; [lia..|].
    destruct (Block.modify_line_ok (header (w_store w) b) b p (size_of o) true) as (blk & -> & Hw & Eblk & Hbit); [apply A3|lia|done|].
    rewrite !bind_Ok. do 2 eexists. split; [done|]. cbn. split_and!; try done.
    assert (Eg : ∀ x, Space.granule 16 (bitmap sp) x = Space.granule 16 (bitmap sp0) x)
      by (intros x; unfold Space.granule; by rewrite (Space.same_shape_begin _ _ F)).
    constructor; cbn; try done.
    + constructor; cbn; try done. apply set_header_wf; done.
    + by rewrite C.
    + by eapply Space.same_shape_trans.
    + intros c. rewrite header_set. case_decide as Cb; [|apply G]. rewrite Eblk, Cb. apply G.
    + intros c Hcb Hce. rewrite header_set, decide_False; [auto|]. intros ->. by destruct Hbb.
    + intros c l Hl. trans (marked_line w c l = true ∨ line_at o p c l).
      * unfold marked_line, line_at. cbn. rewrite header_set. fold b. destruct (decide (c = b)) as [->|Hne]; [|intuition congruence].
        rewrite Hbit by done. case_decide; tauto.
      * rewrite (I c l Hl). split.
        -- intros [[?|(x & q & ? & ? & ?)]|?]; [by left|right; exists x, q; set_solver|right; exists o, p; set_solver].
        -- intros [?|(x & q & [?| ->%elem_of_singleton]%elem_of_union & Hgx & ?)]; [by left; left|left; right; eauto|].
           assert (q = p) as -> by congruence. by right.
    + intros q Hq. rewrite Hm, Eg by done. destruct (decide (q = Space.granule 16 (bitmap sp0) p)) as [->|Hne].
      * split; [|done]. intros _. right. exists o, p. set_solver.
      * rewrite (K q Hq). f_equiv. f_equiv. intros x. f_equiv. intros v. split.
        -- intros (? & ? & ?). set_solver.
        -- intros (Hgx & [[?| ->%elem_of_singleton]%elem_of_union|?] & ? & Ev); [by auto| |by auto].
           assert (v = p) as -> by congruence. by rewrite Ev in Hne.
  - assert (Hnm : ¬ immix w0 p) by (intros E; apply (filter_fast_immix _ _ _ _ _ Hrec) in E; congruence).
    exists sp, w. split_and!; try done. constructor; try done.
    + intros c l Hl. rewrite (I c l Hl). f_equiv. f_equiv. intros x. f_equiv. intros q. split.
      * intros (? & ? & ?). set_solver.
      * intros ([?| ->%elem_of_singleton]%elem_of_union & Hgx & Hli); [done|]. assert (q = p) as -> by congruence. by destruct Hli.
    + intros q Hq. rewrite (K q Hq). f_equiv. f_equiv. intros x. f_equiv. intros v. split.
      * intros (? & ? & ?). set_solver.
      * intros (Hgx & [[?| ->%elem_of_singleton]%elem_of_union|?] & Hv & ?); [by auto| |by auto].
        assert (v = p) as -> by congruence. done.
Qed.

(** Every slot of a marked object has been traced. *)
Definition scanned_all (T D : gset Z) : Prop := ∀ x a, x ∈ D → a ∈ slots_of x → a ∈ T.

Lemma process_moves g T D sp w queue visited o q :
  image P (seen T P) g T D (evac_allocator sp) (w_store w) → records g D sp w → scanned_all T D →
  g !! o = Some q → (o ∉ D → visited + size_of o < 2 ^ 64) →
  ∃ g' T' sp' w' new, process rtti_of ImmixEvacCollection next (sp, w, queue) visited q =
      Ok ((sp', w', queue ++ new), if decide (o ∈ D) then visited else visited + size_of o) ∧
    image P (seen T' P) g' T' (D ∪ {[o]}) (evac_allocator sp') (w_store w') ∧ records g' (D ∪ {[o]}) sp' w' ∧
    scanned_all T' (D ∪ {[o]}) ∧ grown g g' new ∧
    Z.of_nat (length new) <= if decide (o ∈ D) then 0 else Z.of_nat (length (slots_of o)).
Proof.
  intros Hi Hrec Hsc Hg Hv. destruct (im_objs _ _ _ _ _ _ _ Hi o q Hg) as [Ho _].
  destruct (im_at _ _ _ _ _ _ _ Hi o q Hg) as (Hh & Hd & _). unfold process.
  destruct (HeaderFacts.mark_ok (word (w_store w) q) next Hh) as (h & -> & Hhw & Hdh). rewrite bind_Ok.
  rewrite Hd in Hdh |- *. cbn [hd_mark hd_forwarded hd_pinned hd_pointer] in *.
  set (w1 := set_store w (set_word (w_store w) q h)).
  pose proof (image_mark _ _ _ _ _ _ _ o q h Hk Hi Hg Hhw Hdh) as Hi1.
  assert (Hrec1 : records g D sp w1) by (by apply records_words).
  assert (Hno : grown g g []) by (constructor; [done|by left|by intros v ?%not_elem_of_nil]).
  unfold mark_of. destruct (decide (o ∈ D)) as [HoD|HoD].
  - rewrite bool_decide_eq_true_2 by done. assert (ED : D ∪ {[o]} = D) by set_solver. rewrite ED in *.
    exists g, T, sp, w1, []. rewrite app_nil_r. by split_and!.
  - rewrite bool_decide_eq_false_2 by (by destruct next).
    assert (Hun : ∀ a, a ∈ slots_of o → a ∉ T) by (intros a; by apply (unmarked_untraced _ _ _ _ _ _ _ o a Hk Hi)).
    assert (Hloc : ∀ w2, words (w_store w2) = words (w_store w1) →
      RawGc.vtable (word (w_store w2) q) = Ok (vtable_of w0 o) ∧ ImmixSpaceM.object_size_at rtti_of (w_store w2) q = Ok (size_of o) ∧
      visit_references (rtti_of (vtable_of w0 o)) (words (w_store w2)) q = (λ a, q + (a - o)) <$> slots_of o).
    { intros w2 Ew. assert (Hi2 : image P (seen T P) g T (D ∪ {[o]}) (evac_allocator sp) (w_store w2)).
      { apply (image_ext _ _ _ _ _ _ (w_store w1)); [done| |exact Hi1]. intros b. unfold word. by rewrite Ew. }
      exact (object_local _ _ _ _ _ _ _ _ o q Hk Hi2 Ho (im_at _ _ _ _ _ _ _ Hi2 o q Hg) Hun). }
    destruct (Hloc w1 eq_refl) as (_ & Hsz1 & _).
    destruct (record_at _ g T D sp w1 o q Hi1 Hrec1 Hg Hsz1) as (sp2 & w2 & -> & Ew & Ee & Hrec2). rewrite bind_Ok.
    destruct (Hloc w2 Ew) as (Hvt & Hsz & Hvr). rewrite Hsz, bind_Ok, u_add_ok, bind_Ok, Hvt, bind_Ok, Hvr by auto.
    rewrite bool_decide_eq_true_2 by done.
    destruct (trace_slots o q (D ∪ {[o]}) (slots_of o) ltac:(set_solver) g T sp2 w2 queue) as (g' & sp' & w' & new & -> & Hi' & Hrec' & Hgr & Hln);
      [by apply (eh_slots_nodup Hk)|auto| |done|done|].
    { rewrite Ee. apply (image_ext _ _ _ _ _ _ (w_store w1)); [done| |exact Hi1]. intros b. unfold word. by rewrite Ew. }
    rewrite bind_Ok. exists g', (T ∪ list_to_set (slots_of o)), sp', w', new. split_and!; try done; [|lia].
    intros x a [Hx| ->%elem_of_singleton]%elem_of_union Ha; apply elem_of_union; [left; by eapply Hsc|right; by apply elem_of_list_to_set].
Qed.

(** ** The loop *)

(** What the objects that are not marked yet add to a sum over the heap. *)
Definition left_sum (f : Z → Z) (D : gset Z) : Z := sum_list ((λ o, if decide (o ∈ D) then 0 else f o) <$> objs).
Abbreviation degree_of := (degree rtti_of w0).

Lemma left_sum_step f D o : o ∈ objs → o ∉ D → left_sum f D = f o + left_sum f (D ∪ {[o]}).
Proof.
  intros Ho HoD. unfold left_sum.
  rewrite (sum_update (λ x, if decide (x ∈ D) then 0 else f x) (λ x, if decide (x ∈ D ∪ {[o]}) then 0 else f x) objs o);
    [|apply Hk|done|].
  - rewrite decide_False, (decide_True (P := o ∈ D ∪ {[o]})) by set_solver. lia.
  - intros x _ Hne. apply decide_ext. set_solver.
Qed.

Lemma left_sum_nonneg f D : (∀ o, o ∈ objs → 0 <= f o) → 0 <= left_sum f D.
Proof. intros Hf. apply sum_nonneg. intros o Ho. case_decide; auto. done. Qed.

Record round_inv (g : gmap Z Z) (T D : gset Z) (sp : ImmixSpace) (w : World) (queue : list Z) (visited : Z) : Prop := {
  ri_image : image P (seen T P) g T D (evac_allocator sp) (w_store w);
  ri_records : records g D sp w;
  ri_scanned : scanned_all T D;
  ri_queue : ∀ v, v ∈ queue → ∃ o, g !! o = Some v;
  ri_grey : ∀ o v, g !! o = Some v → o ∈ D ∨ v ∈ queue;
  ri_roots : ∀ r, r ∈ roots ++ referents → is_Some (g !! r);
  ri_visited : 0 <= visited ∧ visited + left_sum size_of D = sum_list (size_of <$> objs)
}.

Lemma round_step g T D sp w q queue visited : round_inv g T D sp w (q :: queue) visited →
  ∃ g' T' D' sp' w' queue' visited', process rtti_of ImmixEvacCollection next (sp, w, queue) visited q =
      Ok ((sp', w', queue'), visited') ∧ round_inv g' T' D' sp' w' queue' visited' ∧
    left_sum degree_of D' + Z.of_nat (length queue') <= left_sum degree_of D + Z.of_nat (length queue).
Proof.
  intros [Hi Hrec Hsc Hq Hgr Hrt [Hv0 Hv]]. destruct (Hq q ltac:(left)) as [o Hg].
  destruct (im_objs _ _ _ _ _ _ _ Hi o q Hg) as [Ho _]. pose proof (size_facts o Hk Ho) as (Hs & _).
  assert (Hpos : ∀ x, x ∈ objs → 0 <= size_of x) by (intros x Hx; pose proof (size_facts x Hk Hx); lia).
  destruct (process_moves g T D sp w queue visited o q Hi Hrec Hsc Hg) as (g' & T' & sp' & w' & new & E & Hi' & Hrec' & Hsc' & Hgn & Hln).
  { intros HoD. rewrite (left_sum_step size_of D o Ho HoD) in Hv. pose proof (left_sum_nonneg size_of (D ∪ {[o]}) Hpos).
    pose proof (eh_total Hk). lia. }
  do 7 eexists. split; [exact E|]. split; [constructor; try done|].
  - intros v [Hin|Hin]%elem_of_app; [|by apply (gr_queue _ _ _ Hgn)]. destruct (Hq v ltac:(by right)) as [x Hx].
    exists x. by eapply lookup_weaken; [|apply Hgn].
  - intros x v Hx. rewrite elem_of_app. destruct (gr_new _ _ _ Hgn x v Hx) as [Hx'|?]; [|tauto].
    destruct (Hgr x v Hx') as [?|[->|?]%elem_of_cons]; [set_solver| |tauto].
    left. apply elem_of_union. right. apply elem_of_singleton. destruct (decide (x = o)) as [|Hne]; [done|exfalso].
    destruct (im_objs _ _ _ _ _ _ _ Hi x q Hx') as [Hxo _]. pose proof (size_facts x Hk Hxo) as (? & _).
    destruct (im_apart _ _ _ _ _ _ _ Hi x o q q Hx' Hg Hne); lia.
  - intros r Hr. destruct (Hrt r Hr) as [v Hvr]. exists v. by eapply lookup_weaken; [|apply Hgn].
  - case_decide as HoD; [replace (D ∪ {[o]}) with D by set_solver; done|].
    rewrite (left_sum_step size_of D o Ho HoD) in Hv. lia.
  - rewrite length_app. case_decide as HoD; [replace (D ∪ {[o]}) with D by set_solver; lia|].
    rewrite (left_sum_step degree_of D o Ho HoD). unfold degree at 2, kids. rewrite length_fmap. lia.
Qed.

Lemma mark_loop_moves fuel : ∀ g T D sp w queue visited, round_inv g T D sp w queue visited →
  left_sum degree_of D + Z.of_nat (length queue) < Z.of_nat fuel →
  ∃ g' T' D' sp' w' visited', mark_loop rtti_of fuel ImmixEvacCollection next (sp, w, queue) visited =
      Ok ((sp', w', []), visited') ∧ round_inv g' T' D' sp' w' [] visited'.
Proof.
  induction fuel as [|fuel IH]; intros g T D sp w queue visited Hi Hf.
  { pose proof (left_sum_nonneg degree_of D ltac:(unfold degree; lia)). lia. }
  cbn [mark_loop]. destruct queue as [|q queue]; [by exists g, T, D, sp, w, visited|].
  destruct (round_step g T D sp w q queue visited Hi) as (g' & T' & D' & sp' & w' & q' & v' & -> & Hi' & Hd). rewrite bind_Ok.
  eapply IH; [done|]. cbn [length] in Hf. lia.
Qed.

End Round.

(** ** Precise roots *)

Section Precise.
Context (Hk : evac_heap_ok).

(** A root whose slot has the new address already. *)
Lemma image_root_same P J g T D e s a v : image P J g T D e s → a ∈ precise → a ∉ P →
  g !! word s0 a = Some v → word s a = v → image (P ++ [a]) J g T D e s.
Proof.
  intros Hi Ha HaP Hv Ew. eapply image_ext; [done| |by apply (image_root P J g T D e s a v)].
  intros b. rewrite word_set. by case_decide; subst.
Qed.

Section Root.
Context (P : list Z) (g : gmap Z Z) (sp : ImmixSpace) (w : World) (a : Z).
Context (Hi : image P (seen ∅ P) g ∅ ∅ (evac_allocator sp) (w_store w)) (Hrec : records g ∅ sp w).
Context (Ha : a ∈ precise) (HaP : a ∉ P).
Abbreviation k := (word s0 a).

Definition root_post (queue : list Z) (r : R (ImmixSpace * World * list Z)) : Prop :=
  ∃ g' sp' w' v, r = Ok (sp', w', queue ++ [v]) ∧
    image (P ++ [a]) (seen ∅ (P ++ [a])) g' ∅ ∅ (evac_allocator sp') (w_store w') ∧ records g' ∅ sp' w' ∧
    g' = <[k := v]> g ∧ (g !! k = None ∨ g !! k = Some v).

Lemma root_facts : k ∈ objs ∧ reached k ∧ word (w_store w) a = k ∧
  image P (seen ∅ (P ++ [a])) g ∅ ∅ (evac_allocator sp) (w_store w).
Proof.
  destruct (eh_precise Hk a Ha) as (Hko & Hf & Hout). split_and!; [done| |by apply (im_frame _ _ _ _ _ _ _ Hi)|].
  - exists k. split; [|done]. apply elem_of_app. right. by apply list_elem_of_fmap_2.
  - eapply image_slots_mono; [|exact Hi]. unfold seen. set_solver.
Qed.

(** The object is where it was: reached by another root, or not in the space. *)
Lemma root_stayed queue : g !! k = Some k → root_post queue (precise_root rtti_of ImmixEvacCollection (sp, w, queue) a).
Proof.
  intros Hgk. destruct root_facts as (Hko & _ & Ew & Hi'). pose proof (im_at _ _ _ _ _ _ _ Hi k k Hgk) as (Hh & Hd & _).
  assert (Hpost : root_post queue (Ok (sp, w, queue ++ [k]))).
  { exists g, sp, w, k. rewrite insert_id by done. split_and!; try done; [|by right]. by eapply image_root_same. }
  unfold precise_root. rewrite Ew. destruct (ImmixSpaceM.filter_fast sp w k) eqn:Ef; [|exact Hpost].
  apply (filter_fast_immix _ _ _ _ _ Hrec) in Ef. rewrite HeaderFacts.is_forwarded_ok, bind_Ok, Hd. cbn [hd_forwarded].
  rewrite decide_True by done. by rewrite (evacuate_stays P (seen ∅ P) g ∅ ∅ sp w Hk Hi Hrec k).
Qed.

Lemma root_first queue : g !! k = None → root_post queue (precise_root rtti_of ImmixEvacCollection (sp, w, queue) a).
Proof.
  intros Hgk. destruct root_facts as (Hko & Hre & Ew & Hi'). destruct (eh_precise Hk a Ha) as (_ & Hfa & Hout).
  pose proof (object_unreached _ _ _ _ _ _ _ k Hk Hi Hko Hgk) as (Hh & Hd & _). pose proof (size_facts k Hk Hko) as (Hs & _).
  unfold precise_root. rewrite Ew. destruct (ImmixSpaceM.filter_fast sp w k) eqn:Ef.
  - apply (filter_fast_immix _ _ _ _ _ Hrec) in Ef. rewrite HeaderFacts.is_forwarded_ok, bind_Ok, Hd. cbn [hd_forwarded].
    rewrite decide_True by done.
    destruct (evacuate_ok P (seen ∅ P) g ∅ ∅ sp w Hk Hi Hrec k Hko Hgk Ef) as ([c|] & sp' & w' & -> & Hle & Hr); rewrite !bind_Ok.
    + destruct Hr as (Hm & Hck & Hc16 & Hc0 & Ht & Hrec' & Hw).
      assert (Hak : a ≠ k) by (intros E; apply (Hout k Hko); unfold within; lia).
      assert (Hkc : word (w_store w') k = word (w_store w) k).
      { rewrite Hw, decide_False; [done|]. intros [Hx _]. apply (eh_room Hk k k Hko); [unfold within; lia|].
        apply (rs_le _ _ _ _ Hrec), (rt_free _ _ _ _ Ht k Hx). }
      rewrite word_set, decide_False, Hkc by done.
      destruct (HeaderFacts.set_forwarded_ok (word (w_store w) k) c Hh) as (h & -> & Hhw & Hdh);
        [split; lia|Z.div_mod_to_equations; lia|lia|]. rewrite !bind_Ok.
      assert (Hmv : image P (seen ∅ (P ++ [a])) (<[k := c]> g) ∅ ∅ (evac_allocator sp') (set_word (w_store w') k h)).
      { eapply (image_move _ _ _ _ _ (evac_allocator sp) _ (w_store w)); try done; [apply Hrec| | |].
        - intros b Hb. rewrite word_set, decide_False by done. apply Hw.
        - exists a. split; [unfold seen; set_solver|done].
        - intros _. by rewrite word_set, decide_True, Hdh. }
      eexists (<[k := c]> g), sp', _, c. split; [done|]. split_and!; [|by apply records_words|done|by left].
      cbn [w_store set_store]. eapply image_ext; [done| |apply (image_root _ _ _ _ _ _ _ a c Hk Hmv Ha HaP); by rewrite lookup_insert_eq].
      intros b. rewrite !word_set. by repeat case_decide; subst.
    + destruct Hr as (Hrec' & Hw & Hm). exists (<[k := k]> g), sp', w', k. split; [done|]. split_and!; [|done|done|by left].
      assert (Hww : ∀ b, word (w_store w') b = word (w_store w) b) by (intros b; unfold word; by rewrite Hw).
      apply (image_root_same _ _ _ _ _ _ _ a k); try done; [|by rewrite lookup_insert_eq|by rewrite Hww].
      apply image_stay; try done. eapply image_ext; [done|exact Hww|]. by eapply image_room.
  - assert (Hnm : ¬ immix w0 k) by (intros E; apply (filter_fast_immix _ _ _ _ _ Hrec) in E; congruence).
    rewrite bind_Ok. exists (<[k := k]> g), sp, w, k. split; [done|]. split_and!; [|by apply records_stay|done|by left].
    apply (image_root_same _ _ _ _ _ _ _ a k); try done; [|by rewrite lookup_insert_eq]. apply image_stay; try done. by intros [? _].
Qed.

Lemma root_moves queue : root_post queue (precise_root rtti_of ImmixEvacCollection (sp, w, queue) a).
Proof.
  destruct (g !! k) as [v|] eqn:E; [|by apply root_first]. destruct (decide (v = k)) as [->|Hne]; [by apply root_stayed|].
  exfalso. destruct (im_forward _ _ _ _ _ _ _ Hi k v E Hne) as [(b & Hb & Eb) _].
  destruct (im_place _ _ _ _ _ _ _ Hi k v E) as [?|Hnp]; [done|].
  assert (HbP : b ∈ P) by (unfold seen in Hb; set_solver).
  assert (b = a) as ->; [|done]. destruct (im_roots _ _ _ _ _ _ _ Hi b HbP) as [Hbp _].
  apply (eh_precise_once Hk); [done..|]. rewrite Eb. apply Hnp.
Qed.

End Root.

Lemma precise_moves l : ∀ P g sp w queue, P ++ l = precise →
  image P (seen ∅ P) g ∅ ∅ (evac_allocator sp) (w_store w) → records g ∅ sp w →
  ∃ g' sp' w' new, for_each (precise_root rtti_of ImmixEvacCollection) l (sp, w, queue) = Ok (sp', w', queue ++ new) ∧
    image precise (seen ∅ precise) g' ∅ ∅ (evac_allocator sp') (w_store w') ∧ records g' ∅ sp' w' ∧
    grown g g' new ∧ length new = length l.
Proof.
  induction l as [|a l IH]; intros P g sp w queue EP Hi Hrec.
  { rewrite app_nil_r in EP. subst P. exists g, sp, w, []. rewrite app_nil_r. split_and!; try done.
    constructor; [done|by left|by intros v ?%not_elem_of_nil]. }
  pose proof (eh_precise_nodup Hk) as Hnd. rewrite <- EP in Hnd. apply NoDup_app in Hnd as (_ & Hnd & _).
  assert (Ha : a ∈ precise) by (rewrite <- EP; apply elem_of_app; right; left).
  cbn [for_each]. destruct (root_moves P g sp w a Hi Hrec Ha ltac:(intros Hin; by apply (Hnd a Hin); left) queue)
    as (g1 & sp1 & w1 & v & -> & Hi1 & Hrec1 & Eg & Hv). rewrite bind_Ok.
  destruct (IH (P ++ [a]) g1 sp1 w1 (queue ++ [v])) as (g2 & sp2 & w2 & n2 & -> & Hi2 & Hrec2 & Hgr & Hln);
    [by rewrite <- app_assoc|done|done|].
  exists g2, sp2, w2, ([v] ++ n2). rewrite app_assoc. split_and!; try done; [|cbn; lia].
  eapply grown_trans; [|exact Hgr]. eapply (traced_grown (word s0 a)). right. by exists v.
Qed.

End Precise.

(** ** The whole marking phase *)

(** The heap after it: [g] says where the reachable objects are. *)
Record relocated (g : gmap Z Z) (visited : Z) (sp : ImmixSpace) (w : World) : Prop := {
  (** The renaming is of the reachable objects. *)
  lo_reached : ∀ o, is_Some (g !! o) ↔ o ∈ objs ∧ reached o;
  (** An object stays, or is in a block of the headroom. *)
  lo_place : ∀ o p, g !! o = Some p → p = o ∨ new_place (evac_allocator sp) o p;
  lo_apart : ∀ o o' p p', g !! o = Some p → g !! o' = Some p' → o ≠ o' → disjoint_at o p o' p';
  (** Its header is marked and has its type; its words are its own, the references renamed. *)
  lo_header : ∀ o p, g !! o = Some p → header_wf (word (w_store w) p) ∧
    decode (word (w_store w) p) = mkHeader next false (hd_pinned (decode (word s0 o))) (vtable_of w0 o);
  lo_data : ∀ o p i, g !! o = Some p → 0 < i < size_of o / 8 → o + 8 * i ∉ slots_of o →
    word (w_store w) (p + 8 * i) = word s0 (o + 8 * i);
  lo_refs : ∀ o p a, g !! o = Some p → a ∈ slots_of o → g !! word s0 a = Some (word (w_store w) (p + (a - o)));
  lo_precise : ∀ a, a ∈ precise → g !! word s0 a = Some (word (w_store w) a);
  (** Unreachable objects, and memory that belongs to no object, root or headroom, are untouched. *)
  lo_dead : ∀ o i, o ∈ objs → g !! o = None → 0 <= i < size_of o / 8 → word (w_store w) (o + 8 * i) = word s0 (o + 8 * i);
  lo_frame : ∀ a, (∀ o, o ∈ objs → ¬ within o o a) → ¬ efree e0 a → a ∉ precise → word (w_store w) a = word s0 a;
  (** Lines and object starts are recorded for the new places. *)
  lo_lines : ∀ b l, 0 <= l → marked_line w b l = true ↔
    marked_line w0 b l = true ∨ ∃ o p, g !! o = Some p ∧ line_at o p b l;
  lo_marks : ∀ q, 0 <= q → Space.marked (bitmap sp) q = true ↔
    Space.marked (bitmap sp0) q = true ∨ ∃ o p, g !! o = Some p ∧ immix w0 p ∧ Space.granule 16 (bitmap sp0) p = q;
  lo_visited : visited = sum_list (size_of <$> filter (λ o, o ∈ dom g) objs)
}.

Lemma left_sum_filter f D : left_sum f D + sum_list (f <$> filter (λ o, o ∈ D) objs) = sum_list (f <$> objs).
Proof.
  unfold left_sum, sum_list. induction objs as [|o l IH]; [done|]. rewrite !fmap_cons, filter_cons. cbn [foldr].
  destruct (decide (o ∈ D)); [rewrite fmap_cons; cbn [foldr]|]; lia.
Qed.

(** When the queue is empty everything reachable has been marked. *)
Lemma round_done g T D sp w visited : evac_heap_ok → round_inv precise g T D sp w [] visited → relocated g visited sp w.
Proof.
  intros Hk [Hi Hrec Hsc _ Hgr Hrt [_ Hv]].
  assert (HD : ∀ o, o ∈ D ↔ is_Some (g !! o)).
  { intros o. split; [apply (im_done _ _ _ _ _ _ _ Hi)|]. intros [v Ev]. by destruct (Hgr o v Ev) as [|?%not_elem_of_nil]. }
  assert (Href : ∀ o p a, g !! o = Some p → a ∈ slots_of o → g !! word s0 a = Some (word (w_store w) (p + (a - o)))).
  { intros o p a Hg Ha. destruct (im_objs _ _ _ _ _ _ _ Hi o p Hg) as [Ho _]. destruct (eh_slots Hk o a Ho Ha) as ((i & Hii & Ea) & _).
    assert (HaT : a ∈ T) by (apply (Hsc o); [by apply HD; rewrite Hg|done]).
    destruct (im_at _ _ _ _ _ _ _ Hi o p Hg) as (_ & _ & Hw). specialize (Hw i Hii). replace (p + (a - o)) with (p + 8 * i) by lia.
    rewrite Hw, <- Ea. unfold renamed. rewrite decide_True by done. by destruct (im_traced _ _ _ _ _ _ _ Hi a HaT) as ([v ->] & _). }
  constructor.
  - intros o. split; [intros [p Hp]; by apply (im_objs _ _ _ _ _ _ _ Hi o p)|]. intros [_ (r & Hr & Hrtc)].
    pose proof (Hrt r Hr) as Hgr0. clear Hr. induction Hrtc as [x|x y z Hxy _ IH]; [done|]. apply IH.
    destruct Hgr0 as [p Hp]. apply list_elem_of_fmap in Hxy as (a & -> & Ha). by rewrite (Href x p a).
  - apply Hi.
  - apply Hi.
  - intros o p Hg. destruct (im_at _ _ _ _ _ _ _ Hi o p Hg) as (Hh & Hd & _). split; [done|].
    rewrite Hd. unfold mark_of. rewrite decide_True; [done|]. apply HD. by rewrite Hg.
  - intros o p i Hg Hii Hns. destruct (im_objs _ _ _ _ _ _ _ Hi o p Hg) as [Ho _].
    destruct (im_at _ _ _ _ _ _ _ Hi o p Hg) as (_ & _ & ->); [|done]. unfold renamed. rewrite decide_False; [done|].
    intros Hin. destruct (im_traced _ _ _ _ _ _ _ Hi _ Hin) as (_ & o' & Ho' & Hs). destruct (proj1 (HD o') Ho') as [p' Hp'].
    destruct (im_objs _ _ _ _ _ _ _ Hi o' p' Hp') as [Hoo _]. destruct (eh_slots Hk o' _ Hoo Hs) as ((j & Hj & Ej) & _).
    destruct (decide (o' = o)) as [->|Hne]; [done|]. destruct (eh_apart Hk o' o Hoo Ho Hne); Z.div_mod_to_equations; lia.
  - done.
  - intros a Ha. by apply (im_roots _ _ _ _ _ _ _ Hi).
  - apply Hi.
  - apply Hi.
  - intros b l Hl. rewrite (rs_lines _ _ _ _ Hrec b l Hl). f_equiv. f_equiv. intros o. f_equiv. intros p. rewrite HD.
    split; [tauto|]. intros [-> ?]. by split_and!.
  - intros q Hq. rewrite (rs_marks _ _ _ _ Hrec q Hq). f_equiv. f_equiv. intros o. f_equiv. intros p. rewrite HD.
    split; [tauto|]. intros [-> ?]. split_and!; try done; [by left|tauto..].
  - pose proof (left_sum_filter size_of D) as Hs. rewrite (filter_ext_in (λ o, o ∈ dom g) (λ o, o ∈ D)); [lia|].
    intros o _. by rewrite elem_of_dom, HD.
Qed.

Lemma records_iff g D D' sp w : (∀ o, o ∈ D ↔ o ∈ D') → records g D sp w → records g D' sp w.
Proof.
  intros E [A B C D0 F G O I K]. constructor; try done.
  - intros b l Hl. rewrite (I b l Hl). f_equiv. f_equiv. intros o. f_equiv. intros p. by rewrite E.
  - intros q Hq. rewrite (K q Hq). f_equiv. f_equiv. intros o. f_equiv. intros p. by rewrite E.
Qed.

(** *** The start *)

Lemma image_start : evac_heap_ok → image [] (seen ∅ []) ∅ ∅ ∅ e0 s0.
Proof.
  intros Hk. constructor; try done; try (intros o p; by rewrite lookup_empty); try (intros o o' p p'; by rewrite lookup_empty).
  intros a Ha. by apply not_elem_of_nil in Ha.
Qed.

Lemma records_start : evac_heap_ok → records ∅ ∅ sp0 w0.
Proof.
  intros Hk. constructor; try done; [apply Hk|by destruct sp0|apply Space.same_shape_refl|..].
  - intros b l Hl. split; [by left|]. intros [?|(o & p & Ho & _)]; [done|]. set_solver.
  - intros q Hq. split; [by left|]. intros [?|(o & p & Hg & _)]; [done|]. by rewrite lookup_empty in Hg.
Qed.

(** The conservative roots, which stay where they are. *)
Lemma roots_start (l : list Z) : evac_heap_ok → (∀ r, r ∈ l → r ∈ roots) →
  ∃ g : gmap Z Z, image [] (seen ∅ []) g ∅ ∅ e0 s0 ∧ records g ∅ sp0 w0 ∧ (∀ r : Z, r ∈ l → g !! r = Some r) ∧
    ∀ o v : Z, g !! o = Some v → v ∈ l ∧ v = o.
Proof.
  intros Hk Hl. induction l as [|r l IH].
  { exists ∅. split; [by apply image_start|]. split; [by apply records_start|]. split; [by intros r ?%not_elem_of_nil|].
    intros o v. by rewrite lookup_empty. }
  destruct IH as (g & Hi & Hrec & Hg & Hv); [intros; apply Hl; by right|].
  destruct (eh_roots Hk r ltac:(apply Hl; left)) as [Ho Hm].
  assert (Hreach : reached r) by (exists r; split; [apply elem_of_app; left; apply Hl; left|done]).
  destruct (g !! r) as [v|] eqn:E.
  - exists g. split_and!; try done.
    + intros x [->|?]%elem_of_cons; [|auto]. destruct (Hv r v E) as [_ ->]. done.
    + intros o v' Ev. destruct (Hv o v' Ev). split; [by right|done].
  - exists (<[r := r]> g). split_and!.
    + by apply image_stay.
    + apply records_stay; [set_solver|done..].
    + intros x [->|?]%elem_of_cons; [by rewrite lookup_insert_eq|]. rewrite lookup_insert. case_decide; [by subst|auto].
    + intros o v [[<- <-]|[_ Ev]]%lookup_insert_Some; [split; [left|done]|]. destruct (Hv o v Ev). split; [by right|done].
Qed.

Lemma collect_moves fuel : evac_heap_ok →
  sum_list (degree rtti_of w0 <$> objs) + Z.of_nat (length (roots ++ referents)) < Z.of_nat fuel →
  ∃ g visited sp w, ImmixCollector_collect rtti_of fuel ImmixEvacCollection roots precise sp0 w0 next =
      Ok (visited, sp, w) ∧ relocated g visited sp w ∧ records g (dom g) sp w.
Proof.
  intros Hk Hf. unfold ImmixCollector_collect.
  destruct (roots_start roots Hk ltac:(done)) as (g0 & Hi0 & Hr0 & Hg0 & Hv0).
  destruct (precise_moves Hk precise [] g0 sp0 w0 roots eq_refl Hi0 Hr0) as (g1 & sp1 & w1 & new & -> & Hi1 & Hr1 & Hgr & Hln).
  rewrite bind_Ok.
  assert (Hls : ∀ f, left_sum f ∅ = sum_list (f <$> objs)) by done.
  destruct (mark_loop_moves precise (λ a Ha, Ha) Hk fuel g1 ∅ ∅ sp1 w1 (roots ++ new) 0) as (g & T & D & sp & w & visited & -> & Hri).
  - constructor; try done.
    + intros v [Hin|Hin]%elem_of_app; [|by apply (gr_queue _ _ _ Hgr)]. exists v. eapply lookup_weaken; [by apply Hg0|apply Hgr].
    + intros o v Ev. right. rewrite elem_of_app. destruct (gr_new _ _ _ Hgr o v Ev) as [Ev'|?]; [left; by apply (Hv0 o)|by right].
    + intros r [Hr|(a & -> & Ha)%list_elem_of_fmap]%elem_of_app.
      * exists r. eapply lookup_weaken; [by apply Hg0|apply Hgr].
      * destruct (im_roots _ _ _ _ _ _ _ Hi1 a Ha) as [_ E]. by rewrite E.
  - rewrite Hls. rewrite !length_app, length_fmap in *. lia.
  - rewrite bind_Ok. exists g, visited, sp, w. split; [done|].
    pose proof (round_done _ _ _ _ _ _ Hk Hri) as Hrl. split; [done|]. eapply records_iff; [|apply Hri].
    intros o. rewrite elem_of_dom. split; [apply (im_done _ _ _ _ _ _ _ (ri_image _ _ _ _ _ _ _ _ Hri))|].
    intros [v Ev]. by destruct (ri_grey _ _ _ _ _ _ _ _ Hri o v Ev) as [|?%not_elem_of_nil].
Qed.

End Moving.
