(* ===== verification/Collection.v ===== *)
(** * A whole collection

    The phases of [Collector::collect] put together for a collection that moves
    nothing ([still]): clearing the marks, marking, sweeping the blocks and handing them back,
    sweeping the large objects. *)

From stdpp Require Import base numbers list list_numbers gmap relations.
From Stdlib Require Import ZArith Lia.
From S2P Require Import Prelude Util Constants Bitmap Block SpaceBitmap Object BlockAllocator.
From S2P Require Import Allocation AllocatorLaws Allocators ImmixSpace LargeObjectSpace Collector Sweep Marking.
Import CollectorM.
Import ImmixSpaceM(space_ok(..), free_space, normal_v, overflow_v, evac_v, evac_headroom, available_range,
  so_world, so_normal, so_overflow, so_evac, so_bitmap, covers).
Local Open Scope Z_scope.

Section Phases.
Context `{Cfg}.

(** The state of a collection survives whatever is done to the bitmap, the words and
    the headers of the blocks of the collection. *)
Lemma collecting_frame self sp w bm s : collecting self sp w → covers bm (w_ba w) →
  (∀ b, block_wf (header s b)) → (∀ b, b ∉ all_blocks self → header s b = header (w_store w) b) →
  collecting self (set_bitmap sp bm) (set_store w s).
Proof.
  intros [Hok Hn Ho Hnd Hr He Hh] Hc Hwf Hot. pose proof Hok as [[Hi _ Hfr] _ _ [Ht Hne Hre Hcl] _ _ _ _].
  assert (Hav : ∀ b, BA.available (w_ba w) b → b ∉ all_blocks self) by (intros b Hb Hin; by apply (Hr b Hin)).
  assert (Hml : ∀ b l, b ∈ v_blocks (evac_v sp w) → marked_line (set_store w s) b l = marked_line w b l).
  { intros b l Hb. unfold marked_line. cbn. rewrite Hot; [done|]. intros Hin. by apply (He b). }
  assert (Hnil : ∀ v, v = mkView None [] [] → view_ok false (set_store w s) v).
  { intros v ->. constructor; [done|constructor| |done]. intros b Hb. by apply not_elem_of_nil in Hb. }
  constructor; try done. constructor; try done.
  - constructor; [done|done|]. intros b Hb. cbn. rewrite Hot by auto. by apply Hfr.
  - by apply Hnil.
  - by apply Hnil.
  - constructor; try done.
    intros _ b Hb l. rewrite Hml; [by apply Hcl|]. unfold v_blocks. rewrite !elem_of_app. right. by left.
  - change (normal_v _ _) with (normal_v sp w). rewrite Hn. intros b Hb. by apply not_elem_of_nil in Hb.
  - change (normal_v _ _) with (normal_v sp w). rewrite Hn. intros b Hb. by apply not_elem_of_nil in Hb.
  - change (overflow_v _ _) with (overflow_v sp w). rewrite Ho. intros b Hb. by apply not_elem_of_nil in Hb.
Qed.

(** ** Clearing *)

(** The block [b] covers the granules [first .. first + 2048). *)
Lemma block_granules bm ba b : covers bm ba → BA.in_range ba b → mm_start (mmap ba) mod 16 = 0 →
  ∃ g, b = heap_begin bm + g * 16 ∧ b + BLOCK_SIZE = heap_begin bm + (g + 2048) * 16 ∧
    0 <= g ∧ g + 2048 <= Space.granules bm.
Proof.
  intros (_ & Hb & Hc) (Hal & Hlo & Hhi) Hm. pose proof (BA.aligned_spec (mmap ba)). consts. rewrite Hb in *.
  exists ((b - mm_start (mmap ba)) / 16). Z.div_mod_to_equations. lia.
Qed.

Record cleared (l : list Z) (sp : ImmixSpace) (w : World) (sp' : ImmixSpace) (w' : World) : Prop := {
  cl_space : sp' = set_bitmap sp (bitmap sp');
  cl_bitmap : covers (bitmap sp') (w_ba w) ∧ heap_begin (bitmap sp') = heap_begin (bitmap sp);
  cl_world : w' = set_store w (w_store w') ∧ words (w_store w') = words (w_store w);
  cl_wf : ∀ b, block_wf (header (w_store w') b);
  cl_other : ∀ b, b ∉ l → header (w_store w') b = header (w_store w) b;
  cl_candidate : ∀ b, evacuation_candidate (header (w_store w') b) = evacuation_candidate (header (w_store w) b);
  cl_lines : ∀ b i, b ∈ l → marked_line w' b i = false;
  cl_marks : ∀ g, 0 <= g → Space.marked (bitmap sp') g = true →
    Space.marked (bitmap sp) g = true ∧ ∀ b, b ∈ l → ¬ (b <= heap_begin (bitmap sp) + g * 16 < b + BLOCK_SIZE)
}.

Lemma clear_block_ok sp w b : covers (bitmap sp) (w_ba w) → (∀ c, block_wf (header (w_store w) c)) →
  BA.in_range (w_ba w) b → mm_start (mmap (w_ba w)) mod 16 = 0 →
  ∃ sp' w', clear_block (sp, w) b = Ok (sp', w') ∧ cleared [b] sp w sp' w'.
Proof.
  intros Hc Hwf Hr Hm. destruct (block_granules _ _ b Hc Hr Hm) as (g & Eb & Eb' & Hg0 & Hg1).
  unfold clear_block. pose proof Hc as (Hw & Hbeg & Hcap).
  destruct (Space.clear_range_ok 16 ltac:(lia) (bitmap sp) g (g + 2048) Hw) as (bm & E & Hw' & Hsh & Hmk); [lia..|].
  rewrite <- Eb, <- Eb' in E. rewrite E, bind_Ok. do 2 eexists. split; [done|].
  assert (Hlz : LineMap.clear_all (line_map (header (w_store w) b)) = [0; 0; 0; 0]).
  { unfold LineMap.clear_all. rewrite BitmapConst.clear_all_zeros. by rewrite (proj1 (Hwf b)). }
  constructor; cbn [bitmap set_bitmap w_store set_store w_ba].
  - done.
  - unfold covers. rewrite (Space.same_shape_begin _ _ Hsh), (Space.same_shape_granules _ _ Hsh). by split_and!.
  - done.
  - apply set_header_wf; [|done]. split; cbn; rewrite Hlz; [done|]. apply (Words.wf_zeros 4).
  - intros c Hcb. rewrite header_set, decide_False; [done|]. intros ->. apply Hcb. left.
  - intros c. rewrite header_set. by case_decide; subst.
  - intros c i ->%list_elem_of_singleton. unfold marked_line. cbn. rewrite header_set, decide_True by done.
    unfold line_bit. cbn. rewrite Hlz. apply (Words.bit_zeros 4).
  - intros j Hj. rewrite Hmk by done. case_decide as C; [done|]. intros Ej. split; [done|].
    intros c ->%list_elem_of_singleton. lia.
Qed.

Lemma clear_all_ok l sp w : covers (bitmap sp) (w_ba w) → (∀ c, block_wf (header (w_store w) c)) →
  (∀ b, b ∈ l → BA.in_range (w_ba w) b) → mm_start (mmap (w_ba w)) mod 16 = 0 →
  ∃ sp' w', for_each clear_block l (sp, w) = Ok (sp', w') ∧ cleared l sp w sp' w'.
Proof.
  revert sp w. induction l as [|b l IH]; intros sp w Hc Hwf Hr Hm.
  { exists sp, w. split; [done|]. constructor; try done; [apply set_bitmap_id|by destruct w| |].
    - intros b i Hb. by apply not_elem_of_nil in Hb.
    - intros g Hg Hmk. split; [done|]. intros b Hb. by apply not_elem_of_nil in Hb. }
  cbn [for_each]. destruct (clear_block_ok sp w b Hc Hwf) as (sp1 & w1 & -> & [A1 [A2 A2'] [A3 A3'] A4 A5 A5' A6 A7]);
    [apply Hr; left|done|]. rewrite bind_Ok.
  assert (Eba : w_ba w1 = w_ba w) by (by rewrite A3).
  destruct (IH sp1 w1) as (sp2 & w2 & -> & [B1 [B2 B2'] [B3 B3'] B4 B5 B5' B6 B7]); rewrite ?Eba; try done.
  { intros c Hcl. apply Hr. by right. }
  exists sp2, w2. split; [done|]. constructor.
  - rewrite B1, A1. done.
  - rewrite Eba in B2. split; [done|congruence].
  - rewrite B3, A3. split; [done|]. cbn. congruence.
  - done.
  - intros c [Hc1 Hc2]%not_elem_of_cons. rewrite B5 by done. apply A5. by rewrite list_elem_of_singleton.
  - intros c. by rewrite B5'.
  - intros c i [->|Hcl]%elem_of_cons; [|by apply B6].
    destruct (decide (b ∈ l)) as [Hbl|Hbl]; [by apply B6|]. unfold marked_line. rewrite B5 by done. apply A6. left.
  - intros g Hg Hmk. destruct (B7 g Hg Hmk) as [Hm1 Hb1]. destruct (A7 g Hg Hm1) as [Hm0 Hb0]. split; [done|].
    intros c [->|Hcl]%elem_of_cons; [apply Hb0; left|]. rewrite <- A2'. auto.
Qed.

End Phases.

(** ** The collection *)

Lemma heap_ok_words rtti_of next objs blocks w w' : words (w_store w') = words (w_store w) → w_ba w' = w_ba w →
  heap_ok rtti_of next objs blocks w → heap_ok rtti_of next objs blocks w'.
Proof.
  destruct w as [ba [h ws] t], w' as [ba' [h' ws'] t']. cbn. intros -> ->. intros []. by constructor.
Qed.

Section Collect.
Context `{Cfg} (rtti_of : Z → GCRTTI) (next : bool) (objs : list Z).
Context (self : Collector) (sp : ImmixSpace) (w : World).

Abbreviation blocks := (all_blocks self).
Abbreviation size_of := (osize rtti_of w).
Abbreviation reach_from := (reachable rtti_of w).

(** What holds between marking and sweeping. *)
Record marked_state (all_roots : list Z) (visited : Z) (sp2 : ImmixSpace) (w2 : World) : Prop := {
  ms_collecting : collecting self sp2 w2;
  ms_ba : w_ba w2 = w_ba w;
  ms_space : sp2 = set_bitmap sp (bitmap sp2) ∧ w_tls w2 = w_tls w;
  ms_evac : evac_v sp2 w2 = evac_v sp w;
  ms_now : heap_now objs w w2;
  ms_pins : pins_kept objs w w2;
  ms_marked : ∀ o, o ∈ objs → marked_obj next w2 o = true ↔ reach_from all_roots o;
  ms_lines : ∀ b l, b ∈ blocks → 0 <= l → marked_line w2 b l = true ↔
    ∃ o, o ∈ objs ∧ reach_from all_roots o ∧ line_of rtti_of w o b l;
  ms_bitmap : heap_begin (bitmap sp2) = heap_begin (bitmap sp) ∧
    ∀ o, o ∈ objs → reach_from all_roots o → immix w o →
      Space.marked (bitmap sp2) (Space.granule 16 (bitmap sp2) o) = true;
  ms_starts : ∀ g, 0 <= g → Space.marked (bitmap sp2) g = true →
    (Space.marked (bitmap sp) g = true ∧
     ∀ b, b ∈ blocks → ¬ (b <= heap_begin (bitmap sp) + g * 16 < b + BLOCK_SIZE)) ∨
    ∃ o, o ∈ objs ∧ reach_from all_roots o ∧ immix w o ∧ Space.granule 16 (bitmap sp2) o = g;
  ms_visited : visited = sum_list (size_of <$> filter (λ o, marked_obj next w2 o = true) objs)
}.

(** The kind of the collection, which moves nothing. *)
Context (ct : CollectionType) (Hstill : still ct sp).

Lemma mark_phase_ok fuel roots precise_roots : collecting self sp w → mm_start (mmap (w_ba w)) mod 16 = 0 →
  heap_ok rtti_of next objs blocks w →
  (∀ r, r ∈ roots → r ∈ objs) → (∀ a, a ∈ precise_roots → word (w_store w) a ∈ objs) →
  let all_roots := roots ++ (word (w_store w) <$> precise_roots) in
  sum_list (degree rtti_of w <$> objs) + Z.of_nat (length all_roots) < Z.of_nat fuel →
  ∃ visited sp1 w1 sp2 w2, for_each clear_block blocks (sp, w) = Ok (sp1, w1) ∧
    ImmixCollector_collect rtti_of fuel ct roots precise_roots sp1 w1 next = Ok (visited, sp2, w2) ∧
    marked_state all_roots visited sp2 w2.
Proof.
  intros Hco Hm Hk Hr Hp all_roots Hf. pose proof Hco as [Hok _ _ _ Hrange _ _]. pose proof Hok as [[_ Hwf _] _ _ _ _ _ _ Hcov].
  destruct (clear_all_ok blocks sp w Hcov Hwf) as (sp1 & w1 & E1 & [A1 [A2 A2'] [A3 A3'] A4 A5 A5' A6 A7]);
    [intros b Hb; by apply Hrange|done|].
  assert (Eb : w_ba w1 = w_ba w) by (by rewrite A3).
  assert (Hk1 : heap_ok rtti_of next objs blocks w1) by (by eapply heap_ok_words).
  assert (Ew : w = mkWorld (w_ba w1) (mkStore (headers (w_store w)) (words (w_store w1))) (w_tls w)).
  { rewrite A3', Eb. by destruct w as [ba [h ws] t]. }
  assert (Ewd : ∀ a, word (w_store w1) a = word (w_store w) a) by (intros; unfold word; by rewrite A3').
  assert (Hst1 : still ct sp1) by (rewrite A1; exact Hstill).
  destruct (collect_marks rtti_of next objs blocks sp1 w1 ct Hst1 fuel roots precise_roots Hk1) as
    (visited & sp2 & w2 & E2 & Hn & Hpk & Hmk & Hrec & Hv); try done; try (by rewrite Eb).
  - intros a Ha. rewrite Ewd. auto.
  - assert (Ed : sum_list (degree rtti_of w1 <$> objs) = sum_list (degree rtti_of w <$> objs)) by (by rewrite Ew).
    rewrite Ed, length_app, length_fmap. unfold all_roots in Hf. by rewrite length_app, length_fmap in Hf.
  - assert (Er : roots ++ (word (w_store w1) <$> precise_roots) = all_roots).
    { unfold all_roots. f_equal. apply fmap_ext_in. intros. apply Ewd. }
    rewrite Er in Hmk, Hrec.
    destruct Hrec as [[B1 B2] B3 B4 B5 B6 B7 B8].
    assert (Hreq : ∀ o, reachable rtti_of w1 all_roots o ↔ reach_from all_roots o) by (intros o; by rewrite Ew).
    assert (Hline : ∀ o b l, line_of rtti_of w1 o b l ↔ line_of rtti_of w o b l) by (intros; by rewrite Ew).
    assert (Hco1 : collecting self sp1 w1) by (rewrite A1, A3; by apply collecting_frame).
    assert (E2w : w2 = set_store w1 (w_store w2)).
    { unfold set_store. rewrite <- B1, <- B2. by destruct w2. }
    assert (Hco2 : collecting self sp2 w2).
    { pose proof (collecting_frame self sp1 w1 (bitmap sp2) (w_store w2) Hco1 B7 B3 B4) as Hc2.
      by rewrite <- B6, <- E2w in Hc2. }
    exists visited, sp1, w1, sp2, w2. split; [done|]. split; [done|]. constructor.
    + done.
    + congruence.
    + split; [by rewrite B6, A1|]. rewrite E2w. cbn. by rewrite A3.
    + rewrite B6, A1. done.
    + clear - Hn Ew. rewrite Ew. by destruct Hn; constructor.
    + intros o Ho. rewrite <- Ewd. by apply Hpk.
    + intros o Ho. rewrite <- Hreq. auto.
    + intros b l Hb Hl. rewrite B5, A6 by done. setoid_rewrite Hreq. setoid_rewrite Hline.
      split; [by intros [[=]|?]|by right].
    + destruct B7 as (_ & Hbeg & _). destruct Hcov as (_ & Hbeg0 & _). rewrite Eb in Hbeg. split; [congruence|].
      intros o Ho Hro Hio. apply B8; [apply Z.div_pos; [|lia]|].
      * unfold immix, BA.is_in_space in Hio. apply andb_true_iff in Hio as [?%bool_decide_eq_true _]. lia.
      * right. exists o. split_and!; [done|by apply Hreq|unfold immix; by rewrite Eb|done].
    + intros g Hg Hgm. apply (B8 g Hg) in Hgm as [Hgm|(o & Ho & Hro & Hio & Hgo)]; [left; by apply A7|right].
      exists o. split_and!; [done|by apply Hreq|unfold immix in *; by rewrite Eb in Hio|done].
    + rewrite Hv. by rewrite Ew.
Qed.

Section Live.
Context (all_roots : list Z) (visited : Z) (sp2 : ImmixSpace) (w2 : World).
Context (Hms : marked_state all_roots visited sp2 w2) (Hk : heap_ok rtti_of next objs blocks w).
Context (self' : Collector) (sp' : ImmixSpace) (w' : World) (Hrc : reclaimed self sp2 w2 self' sp' w').

(** The bytes of a reachable object lie in its block. *)
Lemma object_in_block o x : o ∈ objs → immix w o → o <= x < o + size_of o →
  Block.get_block_ptr o ∈ blocks ∧ Block.get_block_ptr o + 128 <= x < Block.get_block_ptr o + 32768.
Proof.
  intros Ho Hi Hx. destruct (hk_placed _ _ _ _ _ Hk o Ho Hi) as (Hb & Hlo & Hhi). consts. split; [done|lia].
Qed.

(** A reachable object is marked in the lines of its block. *)
Lemma live_line o x : o ∈ objs → immix w o → reach_from all_roots o → o <= x < o + size_of o →
  let b := Block.get_block_ptr o in
  marked_line w2 b ((x - b) / 128) = true ∨ marked_line w2 b ((x - b) / 128 - 1) = true.
Proof.
  intros Ho Hi Hr Hx b. destruct (object_in_block o x Ho Hi Hx) as [Hb Hxb].
  destruct (block_ptr_facts o) as (Ha & Hob & Em). pose proof (osize_pos _ _ _ _ _ o Hk Ho) as Hpos.
  apply (Block.object_lines_marked (marked_line w2 b) (o mod 32768) (size_of o) (x - b)); unfold b; [lia|done| |lia].
  intros l Hl. apply (ms_lines _ _ _ _ Hms); [done|unfold Block.covered_line in Hl; pose proof (Z.div_pos (o mod 32768) 128); lia|].
  exists o. split_and!; try done.
Qed.

Lemma blocks_ne_disjoint b c x : b ∈ blocks → BA.in_range (w_ba w) c → b ≠ c →
  b <= x < b + 32768 → ¬ (c <= x < c + 32768).
Proof.
  intros Hb [Hc _] Hne Hx Hx'. destruct (hk_blocks _ _ _ _ _ Hk b Hb) as [Hb' _]. consts.
  destruct (BA.aligned_ne_disjoint b c); try done; lia.
Qed.

(** No byte of a reachable object is free after the collection. *)
Lemma live_not_free o x : o ∈ objs → immix w o → reach_from all_roots o → o <= x < o + size_of o →
  ¬ free_space sp' w' x.
Proof.
  intros Ho Hi Hr Hx Hfree. destruct (object_in_block o x Ho Hi Hx) as [Hb Hxb].
  pose proof (ms_collecting _ _ _ _ Hms) as Hco. pose proof Hco as [Hok Hn Hov _ Hrange He _].
  assert (Hlive : ∀ c, BA.in_range (w_ba w) c → in_span w2 c 128 x → c ∈ blocks ∧ c = Block.get_block_ptr o).
  { intros c Hc [Hs _]. destruct (decide (Block.get_block_ptr o = c)) as [<-|Hne]; [done|].
    exfalso. apply (blocks_ne_disjoint (Block.get_block_ptr o) c x); try done; lia. }
  destruct (reclaimed_free self sp2 w2 self' sp' w' Hco Hrc x Hfree) as [Hf|(b & Hbb & Hs)].
  - rewrite <- (ms_ba _ _ _ _ Hms) in Hlive. destruct Hf as [Hf|[Hf|[Hf|(c & Hc & Hs)]]].
    + rewrite Hn in Hf. destruct Hf as [(? & ? & ? & [=] & _)|(? & Hc & _)]. by apply not_elem_of_nil in Hc.
    + rewrite Hov in Hf. destruct Hf as [(? & ? & ? & [=] & _)|(? & Hc & _)]. by apply not_elem_of_nil in Hc.
    + destruct (ImmixSpaceM.free_in_view_block true w2 _ x (so_evac _ _ Hok) Hf) as (c & Hc & Hcr & _ & Hs).
      destruct (Hlive c Hcr Hs) as [Hcb _]. by apply (He c).
    + pose proof (available_range _ c (wo_ba _ (so_world _ _ Hok)) Hc) as Hcr.
      destruct (Hlive c Hcr Hs) as [Hcb _]. by apply (Hrange c Hcb).
  - destruct (Hlive b (hk_blocks _ _ _ _ _ Hk b Hbb) Hs) as [_ ->]. destruct Hs as [_ Hl].
    destruct (live_line o x Ho Hi Hr Hx) as [E|E]; rewrite Hl in E by lia; done.
Qed.

(** The block of a reachable object is not given back, so its words stay. *)
Lemma live_block o : o ∈ objs → immix w o → reach_from all_roots o → ¬ is_free (w_store w2) (Block.get_block_ptr o).
Proof.
  intros Ho Hi Hr Hf. unfold is_free in Hf. rewrite no_marks_iff in Hf. pose proof (osize_pos _ _ _ _ _ o Hk Ho).
  destruct (object_in_block o o Ho Hi ltac:(lia)) as [_ Hx].
  destruct (live_line o o Ho Hi Hr ltac:(lia)) as [E|E]; unfold marked_line in E; rewrite Hf in E; try done;
    Z.div_mod_to_equations; lia.
Qed.

Lemma live_kept o a : o ∈ objs → immix w o → reach_from all_roots o → o <= a < o + size_of o →
  word (w_store w') a = word (w_store w2) a.
Proof.
  intros Ho Hi Hr Ha. destruct (object_in_block o a Ho Hi Ha) as [Hb Hab].
  apply (rc_words _ _ _ _ _ _ Hrc). intros c Hc Hf. consts.
  destruct (decide (Block.get_block_ptr o = c)) as [<-|Hne]; [by apply live_block in Hf|].
  apply (blocks_ne_disjoint (Block.get_block_ptr o)); try done; [by apply (hk_blocks _ _ _ _ _ Hk)|lia].
Qed.

Lemma live_words o a : o ∈ objs → immix w o → reach_from all_roots o → o <= a < o + size_of o → a ∉ objs →
  word (w_store w') a = word (w_store w) a.
Proof. intros Ho Hi Hr Ha Hna. rewrite (live_kept o a) by done. by apply (ms_now _ _ _ _ Hms). Qed.

(** A block without reachable objects is free afterwards. *)
Lemma garbage_freed b : b ∈ blocks →
  (∀ o, o ∈ objs → reach_from all_roots o → immix w o → Block.get_block_ptr o ≠ b) →
  BA.available (w_ba w') b ∨ b ∈ v_pool (evac_v sp' w').
Proof.
  intros Hb Hno. assert (Hf : is_free (w_store w2) b).
  { unfold is_free. rewrite no_marks_iff. intros l Hl. destruct (line_bit _ l) eqn:E; [|done]. exfalso.
    apply (ms_lines _ _ _ _ Hms b l Hb) in E as (o & Ho & Hr & Hi & Hbo & _); [|lia]. by apply (Hno o). }
  assert (Hin : b ∈ filter (is_free (w_store w2)) blocks) by (by apply list_elem_of_filter).
  destruct (rc_evac _ _ _ _ _ _ Hrc) as (k & Ee & _ & Ha). rewrite <- (take_drop k) in Hin.
  apply elem_of_app in Hin as [Hin|Hin]; [right|left; apply Ha; by left].
  rewrite Ee. apply elem_of_app. by right.
Qed.

End Live.

(** ** Everything together *)

Context (freed_size : Z → Z) (los : LargeObjectSpace) (pm : pmem).

(** A heap ready for a collection from the given roots, with enough fuel: one round
    per root and per reference. *)
Record collectable (fuel : nat) (roots precise_roots : list Z) : Prop := {
  cb_collecting : collecting self sp w;
  cb_aligned : mm_start (mmap (w_ba w)) mod 16 = 0;
  cb_heap : heap_ok rtti_of next objs blocks w;
  cb_roots : ∀ r, r ∈ roots → r ∈ objs;
  cb_precise : ∀ a, a ∈ precise_roots → word (w_store w) a ∈ objs;
  cb_fuel : sum_list (degree rtti_of w <$> objs) +
    Z.of_nat (length (roots ++ (word (w_store w) <$> precise_roots))) < Z.of_nat fuel;
  cb_los : LOS.los_wf los pm (words (w_store w));
  cb_cells : ∀ p, p ∈ allocations los → Precise.cell p ∈ objs ∧ ¬ immix w (Precise.cell p);
  cb_freed : (∀ p, 0 <= freed_size p) ∧ sum_list (freed_size <$> allocations los) < 2 ^ 64
}.

(** The header of a large object survives the sweep of the blocks. *)
Lemma large_cells_kept all_roots visited sp2 w2 self' sp' w' : marked_state all_roots visited sp2 w2 →
  heap_ok rtti_of next objs blocks w → reclaimed self sp2 w2 self' sp' w' →
  LOS.los_wf los pm (words (w_store w)) →
  (∀ p, p ∈ allocations los → Precise.cell p ∈ objs ∧ ¬ immix w (Precise.cell p)) →
  LOS.los_wf los pm (words (w_store w')).
Proof.
  intros Hms Hk Hrc [Hn He] Hc. split; [done|]. intros p Hp. destruct (He p Hp) as (h & ? & ? & ? & _).
  exists h. split_and!; try done; try lia. destruct (Hc p Hp) as [Ho Hni].
  change (header_wf (word (w_store w') (Precise.cell p))). rewrite (rc_words _ _ _ _ _ _ Hrc).
  - by apply (hn_header _ _ _ (ms_now _ _ _ _ Hms)).
  - intros b Hb _ Hx. destruct (hk_blocks _ _ _ _ _ Hk b Hb) as (_ & Hlo & Hhi). apply Hni.
    pose proof (BA.aligned_spec (mmap (w_ba w))). unfold immix, BA.is_in_space. rewrite andb_true_iff, !bool_decide_eq_true.
    lia.
Qed.

Lemma collect_ok fuel roots precise_roots : collectable fuel roots precise_roots →
  ∃ visited self' sp' w' los' pm' fins sp2 w2,
    collect rtti_of freed_size fuel self ct roots precise_roots sp w los pm next =
      Ok (visited, self', sp', w', los', pm', fins) ∧
    (∃ n, LOS.sweep rtti_of freed_size los pm (words (w_store w')) = Ok (n, los', pm', fins)) ∧
    marked_state (roots ++ (word (w_store w) <$> precise_roots)) visited sp2 w2 ∧
    reclaimed self sp2 w2 self' sp' w'.
Proof.
  intros [Hco Hm Hk Hr Hp Hf Hl Hc [Hf0 Hf1]]. unfold collect.
  destruct (mark_phase_ok fuel roots precise_roots Hco Hm Hk Hr Hp Hf) as (visited & sp1 & w1 & sp2 & w2 & -> & E2 & Hms).
  rewrite bind_Ok, E2, bind_Ok.
  destruct (reclaim_reclaimed self sp2 w2 (ms_collecting _ _ _ _ Hms)) as (self' & sp' & w' & -> & Hrc). rewrite bind_Ok.
  pose proof (large_cells_kept _ _ _ _ _ _ _ Hms Hk Hrc Hl Hc) as Hl'.
  destruct (LOS.sweep_ok rtti_of freed_size Hf0 los pm _ Hl' Hf1) as (n & los' & pm' & E & _). rewrite E, bind_Ok.
  do 9 eexists. split; [done|]. split; [by exists n|]. by split.
Qed.

End Collect.

(** ** A small heap for the witnesses

    Two blocks; the object at 32896 refers to the one at 32928, and the object at
    65664 is garbage.  Type 8 has one reference slot, type 16 has none. *)

Definition pair_rtti (v : Z) : GCRTTI :=
  mkRTTI (λ _ _, 16) (λ _ o, if decide (v = 8) then [o + 8] else []) false false.
Definition pair_objs : list Z := [32896; 32928; 65664].
Definition pair_space : ImmixSpace :=
  mkSpace (mkSpaceBitmap (replicate 68 0) 544 28672 98304) Normal.new Overflow.new Evac.new false.
Definition pair_world : World :=
  mkWorld (mkBA [] 98304 98304 (mkMmap 28672 98304 69632))
    (mkStore ∅ {[32896 := 8; 32904 := 32928; 32928 := 16; 65664 := 16]}) (mkTLS None None).
Lemma pair_still : still ImmixEvacCollection pair_space.
Proof. done. Qed.
Definition pair_collector : Collector := mkCollector [32768; 65536] ∅.

Lemma pair_unavailable b : ¬ BA.available (w_ba pair_world) b.
Proof. intros [Hb|Hb]; [by apply not_elem_of_nil in Hb|]. cbn in Hb. consts. lia. Qed.

Lemma pair_range b : b ∈ [32768; 65536] → BA.in_range (w_ba pair_world) b.
Proof.
  rewrite !elem_of_cons. intros [->|[->|Hb]]; [..|by apply not_elem_of_nil in Hb];
    (split; [done|split; vm_compute; discriminate]).
Qed.

Lemma pair_space_ok : let _ : Cfg := false in space_ok pair_space pair_world.
Proof.
  intros cfg. pose proof pair_unavailable as Hu.
  assert (Hv : ∀ clean, view_ok clean pair_world (mkView None [] [])).
  { intros. constructor; [done|constructor|..]; [intros b Hb|intros _ b Hb]; by apply not_elem_of_nil in Hb. }
  constructor; unfold normal_v, overflow_v, evac_v; cbn -[pair_world]; try apply Hv;
    try (intros b Hb; by apply not_elem_of_nil in Hb).
  - constructor; [|intros b; apply Block.zeroed_wf|intros b Hb; by apply Hu in Hb].
    constructor; cbn; try lia; [split; [done|split; vm_compute; discriminate]|constructor|].
    intros b Hb. by apply not_elem_of_nil in Hb.
  - split_and!; [apply (Words.wf_zeros 68)|done|vm_compute; discriminate].
Qed.

Lemma pair_collecting : let _ : Cfg := false in collecting pair_collector pair_space pair_world.
Proof.
  intros cfg. constructor; try done.
  - apply pair_space_ok.
  - vm_decide.
  - intros b Hb. split; [by apply pair_range|apply pair_unavailable].
  - intros b _ Hb. by apply not_elem_of_nil in Hb.
Qed.

Lemma pair_heap_ok : heap_ok pair_rtti true pair_objs [32768; 65536] pair_world.
Proof.
  constructor.
  - intros o. unfold pair_objs. rewrite !elem_of_cons. intros [->|[->|[->|Ho]]]; [..|by apply not_elem_of_nil in Ho];
      (split; [split; [split; [discriminate|reflexivity]|discriminate]|split; reflexivity]).
  - intros o _. cbn. lia.
  - done.
  - intros o a. unfold pair_objs. rewrite !elem_of_cons. intros [->|[->|[->|Ho]]]; [..|by apply not_elem_of_nil in Ho].
    + intros ->%list_elem_of_singleton. split; [|right; left; reflexivity].
      vm_decide.
    + intros Ha. by apply not_elem_of_nil in Ha.
    + intros Ha. by apply not_elem_of_nil in Ha.
  - intros o. unfold pair_objs. rewrite !elem_of_cons. intros [->|[->|[->|Ho]]] _; [..|by apply not_elem_of_nil in Ho];
      (split; [change (Block.get_block_ptr _) with 32768 || change (Block.get_block_ptr _) with 65536; 
               (left || (right; left))|split; vm_compute; done]).
  - apply pair_range.
  - vm_compute. done.
  - vm_decide.
Qed.

Lemma pair_collectable : let _ : Cfg := false in
  collectable pair_rtti true pair_objs pair_collector pair_space pair_world (λ _, 0) LOS.new ∅ 4 [32896] [].
Proof.
  intros cfg. constructor.
  - apply pair_collecting.
  - done.
  - apply pair_heap_ok.
  - intros r ->%list_elem_of_singleton. left.
  - intros a Ha. by apply not_elem_of_nil in Ha.
  - vm_compute. done.
  - split; [constructor|]. intros p Hp. by apply not_elem_of_nil in Hp.
  - intros p Hp. by apply not_elem_of_nil in Hp.
  - split; [lia|done].
Qed.

(** The second object is reachable through the first. *)
Lemma pair_reachable : reachable pair_rtti pair_world ([32896] ++ (word (w_store pair_world) <$> [])) 32928.
Proof. exists 32896. split; [left|]. apply rtc_once. apply elem_of_cons. left. reflexivity. Qed.

(** ** Properties *)

(** C10: Marking is exact and ends: with one unit of fuel per root and per reference,
    [ImmixCollector::collect] of a collection that moves nothing (a plain one, or an
    evacuating one without headroom) terminates without panic and has
    marked exactly the objects reachable from the roots; the lines it has marked in
    each block are those of reachable objects, the starts of reachable objects are in
    the bitmap, of the words of memory only headers of objects have changed, and these in
    nothing but the mark (not in the type, the pin or the forwarded bit), and the number returned
    is the total size of the reachable objects. *)
Theorem marking_exact `{Cfg} rtti_of next objs self sp w ct fuel roots precise_roots :
  still ct sp → collecting self sp w → mm_start (mmap (w_ba w)) mod 16 = 0 →
  heap_ok rtti_of next objs (all_blocks self) w →
  (∀ r, r ∈ roots → r ∈ objs) → (∀ a, a ∈ precise_roots → word (w_store w) a ∈ objs) →
  sum_list (degree rtti_of w <$> objs) +
    Z.of_nat (length (roots ++ (word (w_store w) <$> precise_roots))) < Z.of_nat fuel →
  ∃ visited sp1 w1 sp2 w2, for_each clear_block (all_blocks self) (sp, w) = Ok (sp1, w1) ∧
    ImmixCollector_collect rtti_of fuel ct roots precise_roots sp1 w1 next = Ok (visited, sp2, w2) ∧
    marked_state rtti_of next objs self sp w (roots ++ (word (w_store w) <$> precise_roots)) visited sp2 w2.
Proof. intros Hst. by apply mark_phase_ok. Qed.

Lemma marking_exact_witness : let _ : Cfg := false in
  ∃ visited sp1 w1 sp2 w2, for_each clear_block [32768; 65536] (pair_space, pair_world) = Ok (sp1, w1) ∧
    ImmixCollector_collect pair_rtti 4 ImmixEvacCollection [32896] [] sp1 w1 true = Ok (visited, sp2, w2) ∧
    marked_obj true w2 32928 = true ∧ marked_obj true w2 65664 = false.
Proof.
  intros cfg. pose proof pair_collectable as [Hco Hm Hk Hr Hp Hf _ _ _].
  destruct (marking_exact pair_rtti true pair_objs pair_collector pair_space pair_world ImmixEvacCollection 4 [32896] [] pair_still Hco Hm Hk Hr Hp Hf)
    as (visited & sp1 & w1 & sp2 & w2 & E1 & E2 & Hms).
  exists visited, sp1, w1, sp2, w2. split; [exact E1|]. split; [exact E2|]. split.
  - apply (ms_marked _ _ _ _ _ _ _ _ _ _ Hms); [right; left|apply pair_reachable].
  - clear Hms. cbn [all_blocks pair_collector] in E1.
    assert (E : ('(sp1, w1) ← for_each clear_block [32768; 65536] (pair_space, pair_world);
      '(_, _, w2) ← ImmixCollector_collect pair_rtti 4 ImmixEvacCollection [32896] [] sp1 w1 true;
      Ok (marked_obj true w2 65664)) = Ok (marked_obj true w2 65664)) by (rewrite E1, bind_Ok, E2; reflexivity).
    clear E1 E2. revert E. generalize (marked_obj true w2 65664). intros m E. vm_compute in E. by injection E as <-.
Defined.


(** C1: A collection never loses a live object: after a [Collector::collect] that moves
    nothing (a plain one, or an evacuating one without headroom), no byte of a reachable object of the immix space is free for later
    allocations, its words are what they were, its header carries the live mark and
    the same type, and its start is in the bitmap. *)
Theorem collect_keeps_live `{Cfg} rtti_of next objs self sp w ct freed_size los pm fuel roots precise_roots :
  still ct sp → collectable rtti_of next objs self sp w freed_size los pm fuel roots precise_roots →
  ∃ visited self' sp' w' los' pm' fins,
    collect rtti_of freed_size fuel self ct roots precise_roots sp w los pm next =
      Ok (visited, self', sp', w', los', pm', fins) ∧
    ∀ o, o ∈ objs → immix w o → reachable rtti_of w (roots ++ (word (w_store w) <$> precise_roots)) o →
      (∀ x, o <= x < o + osize rtti_of w o → ¬ free_space sp' w' x) ∧
      (∀ a, o <= a < o + osize rtti_of w o → a ∉ objs → word (w_store w') a = word (w_store w) a) ∧
      marked_obj next w' o = true ∧
      hd_pointer (decode (word (w_store w') o)) = hd_pointer (decode (word (w_store w) o)) ∧
      Space.marked (bitmap sp') (Space.granule 16 (bitmap sp') o) = true.
Proof.
  intros Hst Hcb. destruct (collect_ok rtti_of next objs self sp w ct Hst freed_size los pm fuel roots precise_roots Hcb)
    as (visited & self' & sp' & w' & los' & pm' & fins & sp2 & w2 & E & _ & Hms & Hrc).
  do 7 eexists. split; [exact E|]. intros o Ho Hi Hr. pose proof (cb_heap _ _ _ _ _ _ _ _ _ _ _ _ Hcb) as Hk.
  pose proof (osize_pos _ _ _ _ _ o Hk Ho) as Hpos.
  assert (Ew : word (w_store w') o = word (w_store w2) o) by (eapply live_kept; done || lia).
  split_and!.
  - intros x Hx. by eapply live_not_free.
  - intros a Ha Hna. by eapply live_words.
  - unfold marked_obj. rewrite Ew. by apply (ms_marked _ _ _ _ _ _ _ _ _ _ Hms).
  - rewrite Ew. by apply (hn_header _ _ _ (ms_now _ _ _ _ _ _ _ _ _ _ Hms)).
  - rewrite (rc_bitmap _ _ _ _ _ _ Hrc). by apply (ms_bitmap _ _ _ _ _ _ _ _ _ _ Hms).
Qed.

Lemma collect_keeps_live_witness : let _ : Cfg := false in
  ∃ visited self' sp' w' los' pm' fins,
    collect pair_rtti (λ _, 0) 4 pair_collector ImmixEvacCollection [32896] [] pair_space pair_world LOS.new ∅ true =
      Ok (visited, self', sp', w', los', pm', fins) ∧
    (∀ x, 32928 <= x < 32928 + 16 → ¬ free_space sp' w' x) ∧ marked_obj true w' 32928 = true.
Proof.
  intros cfg. destruct (collect_keeps_live pair_rtti true pair_objs pair_collector pair_space pair_world ImmixEvacCollection
    (λ _, 0) LOS.new ∅ 4 [32896] [] pair_still pair_collectable) as (visited & self' & sp' & w' & los' & pm' & fins & E & Hl).
  do 7 eexists. split; [exact E|].
  destruct (Hl 32928) as (H1 & _ & H2 & _); [right; left|reflexivity|apply pair_reachable|].
  split; [exact H1|exact H2].
Defined.


(** Every block is either empty, or partly used, or full. *)
Lemma block_partition s (l : list Z) :
  l ≡ₚ filter (is_recyclable s) l ++ filter (is_free s) l ++ filter (is_full s) l.
Proof.
  induction l as [|b l IH]; [done|]. rewrite !filter_cons.
  destruct (decide (is_recyclable s b)) as [C1|C1], (decide (is_free s b)) as [C2|C2], (decide (is_full s b)) as [C3|C3];
    unfold is_recyclable, is_free, is_full in *.
  all: try (exfalso; destruct (no_marks (header s b)), (has_hole (header s b)); intuition congruence).
  - cbn. by f_equiv.
  - rewrite IH at 1. cbn. apply Permutation_middle.
  - rewrite IH at 1. rewrite !app_assoc. apply Permutation_middle.
Qed.

(** C20: A collection that moves nothing (a plain one, or an evacuating one without
    headroom) gives the space back in order: [collect] never underflows the headroom count, the allocators are consistent again with at most [EVAC_HEADROOM]
    blocks of headroom, and every block of the collection is afterwards in exactly
    one place: recyclable, headroom, the free list, or kept for the next collection. *)
Theorem collect_accounts_for_blocks `{Cfg} rtti_of next objs self sp w ct freed_size los pm fuel roots precise_roots :
  still ct sp → collectable rtti_of next objs self sp w freed_size los pm fuel roots precise_roots →
  ∃ visited self' sp' w' los' pm' fins headroom returned,
    collect rtti_of freed_size fuel self ct roots precise_roots sp w los pm next =
      Ok (visited, self', sp', w', los', pm', fins) ∧
    space_ok sp' w' ∧ evac_headroom sp' <= EVAC_HEADROOM ∧
    v_pool (evac_v sp' w') = v_pool (evac_v sp w) ++ headroom ∧
    free_blocks (w_ba w') = free_blocks (w_ba w) ++ returned ∧
    all_blocks self ≡ₚ v_pool (normal_v sp' w') ++ headroom ++ returned ++ all_blocks self'.
Proof.
  intros Hst Hcb. destruct (collect_ok rtti_of next objs self sp w ct Hst freed_size los pm fuel roots precise_roots Hcb)
    as (visited & self' & sp' & w' & los' & pm' & fins & sp2 & w2 & E & _ & Hms & Hrc).
  destruct (rc_evac _ _ _ _ _ _ Hrc) as (k & Ee & Ef & _). do 9 eexists. split; [exact E|].
  split_and!; [|apply Hrc| | |].
  - eapply reclaimed_space_ok; [|exact Hrc]. apply Hms.
  - rewrite Ee, (ms_evac _ _ _ _ _ _ _ _ _ _ Hms). done.
  - rewrite Ef, (ms_ba _ _ _ _ _ _ _ _ _ _ Hms). done.
  - rewrite (rc_normal _ _ _ _ _ _ Hrc), (rc_full _ _ _ _ _ _ Hrc). cbn [v_pool].
    rewrite (app_assoc (take k _)), take_drop. apply block_partition.
Qed.

Lemma collect_accounts_for_blocks_witness : let _ : Cfg := false in
  ∃ visited self' sp' w' los' pm' fins,
    collect pair_rtti (λ _, 0) 4 pair_collector ImmixEvacCollection [32896] [] pair_space pair_world LOS.new ∅ true =
      Ok (visited, self', sp', w', los', pm', fins) ∧ space_ok sp' w' ∧ evac_headroom sp' <= 5.
Proof.
  intros cfg. destruct (collect_accounts_for_blocks pair_rtti true pair_objs pair_collector pair_space pair_world ImmixEvacCollection
    (λ _, 0) LOS.new ∅ 4 [32896] [] pair_still pair_collectable) as (visited & self' & sp' & w' & los' & pm' & fins & hr & rt & E & H1 & H2 & _).
  do 7 eexists. split; [exact E|]. split; [exact H1|exact H2].
Defined.


(** C21: Garbage is collected: after a [collect] that moves nothing (a plain one, or an
    evacuating one without headroom), a block of the collection that holds no reachable
    object is available to the block allocator, or is headroom. *)
Theorem collect_frees_garbage `{Cfg} rtti_of next objs self sp w ct freed_size los pm fuel roots precise_roots :
  still ct sp → collectable rtti_of next objs self sp w freed_size los pm fuel roots precise_roots →
  ∃ visited self' sp' w' los' pm' fins,
    collect rtti_of freed_size fuel self ct roots precise_roots sp w los pm next =
      Ok (visited, self', sp', w', los', pm', fins) ∧
    ∀ b, b ∈ all_blocks self →
      (∀ o, o ∈ objs → reachable rtti_of w (roots ++ (word (w_store w) <$> precise_roots)) o →
         immix w o → Block.get_block_ptr o ≠ b) →
      BA.available (w_ba w') b ∨ b ∈ v_pool (evac_v sp' w').
Proof.
  intros Hst Hcb. destruct (collect_ok rtti_of next objs self sp w ct Hst freed_size los pm fuel roots precise_roots Hcb)
    as (visited & self' & sp' & w' & los' & pm' & fins & sp2 & w2 & E & _ & Hms & Hrc).
  do 7 eexists. split; [exact E|]. intros b Hb Hno. by eapply garbage_freed.
Qed.

Lemma collect_frees_garbage_witness : let _ : Cfg := false in
  ∃ visited self' sp' w' los' pm' fins,
    collect pair_rtti (λ _, 0) 4 pair_collector ImmixEvacCollection [32896] [] pair_space pair_world LOS.new ∅ true =
      Ok (visited, self', sp', w', los', pm', fins) ∧
    (BA.available (w_ba w') 65536 ∨ 65536 ∈ v_pool (evac_v sp' w')).
Proof.
  intros cfg. destruct (collect_frees_garbage pair_rtti true pair_objs pair_collector pair_space pair_world ImmixEvacCollection
    (λ _, 0) LOS.new ∅ 4 [32896] [] pair_still pair_collectable) as (visited & self' & sp' & w' & los' & pm' & fins & E & Hg).
  do 7 eexists. split; [exact E|]. apply Hg; [right; left|]. clear E Hg.
  intros o Ho (r & Hr & Hrtc) _. cbn in Hr. apply list_elem_of_singleton in Hr as ->.
  assert (Hin : o = 32896 ∨ o = 32928).
  { clear Ho. apply rtc_inv in Hrtc as [<-|(y & Hxy & Hyz)]; [by left|].
    assert (E1 : kids pair_rtti pair_world 32896 = [32928]) by (vm_compute; reflexivity).
    assert (E2 : kids pair_rtti pair_world 32928 = []) by (vm_compute; reflexivity).
    unfold edge in Hxy. rewrite E1 in Hxy. apply list_elem_of_singleton in Hxy as ->.
    apply rtc_inv in Hyz as [<-|(y & Hxy' & _)]; [by right|]. unfold edge in Hxy'. rewrite E2 in Hxy'.
    by apply not_elem_of_nil in Hxy'. }
  destruct Hin as [->| ->]; discriminate.
Defined.

