(* ===== verification/EvacCollect.v ===== *)
(** * A collection that moves objects

    [Collector::collect] of the evacuating kind with headroom, on a heap as [Moving]
    describes it: clearing, marking with moves, sweeping.  The reachable objects come
    out at new places with their contents, and nothing of them is free. *)

From stdpp Require Import base numbers list list_numbers gmap relations.
From Stdlib Require Import ZArith Lia.
From S2P Require Import Prelude Util Constants Bitmap Block SpaceBitmap Object BlockAllocator.
From S2P Require Import Allocation AllocatorLaws Allocators ImmixSpace LargeObjectSpace Collector Sweep Marking.
From S2P Require Import EvacRoom Moving Collection.
Import CollectorM.
Import ImmixSpaceM(space_ok(..), free_space, normal_v, overflow_v, evac_v, evac_headroom, available_range,
  so_world, so_normal, so_overflow, so_evac, so_bitmap, covers).
Local Open Scope Z_scope.

(** ** Two memories with the same words *)

(** What [evac_heap_ok] looks at. *)
Lemma evac_heap_ok_same `{Cfg} rtti_of next objs blocks roots precise sp w sp' w' :
  words (w_store w') = words (w_store w) → w_ba w' = w_ba w → evac_allocator sp' = evac_allocator sp →
  (∀ b, evacuation_candidate (header (w_store w') b) = evacuation_candidate (header (w_store w) b)) → evac_ready sp' w' →
  evac_heap_ok rtti_of next objs blocks roots precise sp w → evac_heap_ok rtti_of next objs blocks roots precise sp' w'.
Proof.
  destruct w as [ba [h ws] t], w' as [ba' [h' ws'] t']. cbn. intros -> -> Ee Hc Hr.
  assert (Hm : ∀ o, movable (mkWorld ba (mkStore h' ws) t') o ↔ movable (mkWorld ba (mkStore h ws) t) o).
  { intros o. unfold movable, ImmixSpaceM.candidate. cbn. by rewrite Hc. }
  intros []. constructor; rewrite ?Ee; try done.
  - intros r Hin. rewrite Hm. auto.
  - intros a b Ha Hb E. rewrite Hm. auto.
  - intros a b Ha Hb E. rewrite Hm. auto.
Qed.

Record same_heap (rtti_of : Z → GCRTTI) (w w1 : World) : Prop := {
  sh_word : ∀ a, word (w_store w1) a = word (w_store w) a;
  sh_size : ∀ o, osize rtti_of w1 o = osize rtti_of w o;
  sh_slots : ∀ o, slots rtti_of w1 o = slots rtti_of w o;
  sh_immix : ∀ o, immix w1 o ↔ immix w o;
  sh_reach : ∀ l o, reachable rtti_of w1 l o ↔ reachable rtti_of w l o;
  sh_degree : ∀ o, degree rtti_of w1 o = degree rtti_of w o
}.

Lemma same_heap_words rtti_of w w1 : words (w_store w1) = words (w_store w) → w_ba w1 = w_ba w → same_heap rtti_of w w1.
Proof. destruct w as [ba [h ws] t], w1 as [ba' [h' ws'] t']. cbn. intros -> ->. by constructor. Qed.

Section Collect.
Context `{Cfg} (rtti_of : Z → GCRTTI) (next : bool) (objs : list Z).
Context (self : Collector) (sp : ImmixSpace) (w : World).
Context (freed_size : Z → Z) (los : LargeObjectSpace) (pm : pmem).
Context (roots precise : list Z).

Abbreviation blocks := (all_blocks self).
Abbreviation size_of := (osize rtti_of w).
Abbreviation slots_of := (slots rtti_of w).
Abbreviation reached := (reachable rtti_of w (roots ++ (word (w_store w) <$> precise))).

(** A heap ready for an evacuating collection from the given roots: the current block
    of the evacuation allocator was handed to the collector with all others. *)
Record evacuable (fuel : nat) : Prop := {
  ev_collecting : collecting self sp w;
  ev_aligned : mm_start (mmap (w_ba w)) mod 16 = 0;
  ev_drained : e_current_block (evac_allocator sp) = None;
  ev_heap : evac_heap_ok rtti_of next objs blocks roots precise sp w;
  ev_fuel : sum_list (degree rtti_of w <$> objs) +
    Z.of_nat (length (roots ++ (word (w_store w) <$> precise))) < Z.of_nat fuel;
  ev_los : LOS.los_wf los pm (words (w_store w));
  ev_cells : ∀ p, p ∈ allocations los → Precise.cell p ∈ objs ∧ ¬ immix w (Precise.cell p);
  ev_precise : ∀ a, a ∈ precise → BA.is_in_space (w_ba w) a = false;
  ev_freed : (∀ p, 0 <= freed_size p) ∧ sum_list (freed_size <$> allocations los) < 2 ^ 64
}.

(** What holds between marking and sweeping, seen from the heap before the collection. *)
Record evacuated (g : gmap Z Z) (visited : Z) (sp2 : ImmixSpace) (w2 : World) : Prop := {
  ed_collecting : collecting self sp2 w2;
  ed_ready : evac_ready sp2 w2;
  ed_ba : w_ba w2 = w_ba w;
  ed_reached : ∀ o, is_Some (g !! o) ↔ o ∈ objs ∧ reached o;
  ed_place : ∀ o p, g !! o = Some p → p = o ∨ movable w o ∧ Block.get_block_ptr p ∈ evac_blocks (evac_allocator sp) ∧ p mod 16 = 0;
  ed_block : ∀ o p, g !! o = Some p → immix w o → let b := Block.get_block_ptr p in
    immix w p ∧ (b ∈ blocks ∨ b ∈ evac_blocks (evac_allocator sp)) ∧ b + 128 <= p ∧ p + size_of o < b + 32768;
  ed_apart : ∀ o o' p p', g !! o = Some p → g !! o' = Some p' → o ≠ o' → p + size_of o <= p' ∨ p' + size_of o' <= p;
  ed_header : ∀ o p, g !! o = Some p → header_wf (word (w_store w2) p) ∧
    decode (word (w_store w2) p) =
      mkHeader next false (hd_pinned (decode (word (w_store w) o))) (hd_pointer (decode (word (w_store w) o)));
  ed_data : ∀ o p i, g !! o = Some p → 0 < i < size_of o / 8 → o + 8 * i ∉ slots_of o →
    word (w_store w2) (p + 8 * i) = word (w_store w) (o + 8 * i);
  ed_refs : ∀ o p a, g !! o = Some p → a ∈ slots_of o → g !! word (w_store w) a = Some (word (w_store w2) (p + (a - o)));
  ed_roots : ∀ a, a ∈ precise → g !! word (w_store w) a = Some (word (w_store w2) a);
  ed_dead : ∀ o, o ∈ objs → g !! o = None → word (w_store w2) o = word (w_store w) o;
  ed_lines : ∀ o p l, g !! o = Some p → immix w p → Block.covered_line (p mod 32768) (size_of o) l →
    marked_line w2 (Block.get_block_ptr p) l = true;
  ed_garbage : ∀ b l, b ∈ blocks → 0 <= l → marked_line w2 b l = true →
    ∃ o p, g !! o = Some p ∧ immix w p ∧ Block.get_block_ptr p = b;
  ed_starts : ∀ o p, g !! o = Some p → immix w p → Space.marked (bitmap sp2) (Space.granule 16 (bitmap sp2) p) = true;
  ed_visited : visited = sum_list (size_of <$> filter (λ o, o ∈ dom g) objs);
  ed_space : allocator sp2 = allocator sp ∧ overflow_allocator sp2 = overflow_allocator sp ∧ w_tls w2 = w_tls w;
  ed_evac : v_blocks (evac_v sp2 w2) ≡ₚ v_blocks (evac_v sp w);
  ed_begin : heap_begin (bitmap sp2) = heap_begin (bitmap sp);
  ed_marks : ∀ q, 0 <= q → Space.marked (bitmap sp2) q = true →
    (Space.marked (bitmap sp) q = true ∧ ∀ b, b ∈ blocks → ¬ (b <= heap_begin (bitmap sp) + q * 16 < b + BLOCK_SIZE)) ∨
    ∃ o p, g !! o = Some p ∧ immix w p ∧ Space.granule 16 (bitmap sp) p = q;
  ed_frame : ∀ a, (∀ o, o ∈ objs → ¬ (o <= a < o + size_of o)) → ¬ efree (evac_allocator sp) a → a ∉ precise →
    word (w_store w2) a = word (w_store w) a
}.

(** The headroom that is left is no more than there was. *)
Lemma headroom_le e e' : e_current_block e = None → room_ok e' → room_le e e' →
  (length (e_evac_headroom e') <= length (e_evac_headroom e))%nat.
Proof.
  intros Hc [_ _ Hnd] [_ Hb _]. pose proof evac_blocks_eq as Hl.
  rewrite Hl in Hnd. apply NoDup_app in Hnd as (_ & _ & Hnd).
  apply submseteq_length, NoDup_submseteq; [done|]. intros b Hin.
  assert (Hin' : b ∈ evac_blocks e) by (apply Hb; rewrite Hl; apply elem_of_app; by right).
  rewrite Hl, Hc in Hin'. exact Hin'.
Qed.

(** The blocks of the evacuation allocator, as its view has them. *)
Lemma evac_view_blocks sp0 w0 : v_blocks (evac_v sp0 w0) ≡ₚ evac_all (evac_allocator sp0).
Proof.
  unfold evac_v. rewrite ImmixSpaceM.closed_blocks. unfold evac_all. rewrite evac_blocks_eq. unfold v_blocks, cur_block. cbn.
  solve_Permutation.
Qed.

Lemma evac_blocks_view b : b ∈ evac_blocks (evac_allocator sp) → b ∈ v_blocks (evac_v sp w).
Proof. intros Hb. rewrite evac_view_blocks. apply elem_of_app. by right. Qed.

(** From the heap that [Moving] starts with, the cleared one, to the heap before. *)
Section Phase.
Context (Hco : collecting self sp w) (Hdr : e_current_block (evac_allocator sp) = None).
Context (Hk : evac_heap_ok rtti_of next objs blocks roots precise sp w).
Context (sp1 : ImmixSpace) (w1 : World) (Hcl : cleared blocks sp w sp1 w1).

Lemma cleared_same : same_heap rtti_of w w1 ∧ evac_allocator sp1 = evac_allocator sp ∧
  evac_heap_ok rtti_of next objs blocks roots precise sp1 w1.
Proof.
  destruct Hcl as [A1 [A2 A2'] [A3 A3'] A4 A5 A5' A6 A7]. assert (Eb : w_ba w1 = w_ba w) by (by rewrite A3).
  assert (Ee : evac_allocator sp1 = evac_allocator sp) by (by rewrite A1). split_and!; [by apply same_heap_words|done|].
  eapply evac_heap_ok_same; try done. destruct (eh_ready _ _ _ _ _ _ _ _ Hk) as [R1 R2 R3 R4]. constructor; rewrite ?Ee, ?Eb; done.
Qed.

Context (g : gmap Z Z) (visited : Z) (sp2 : ImmixSpace) (w2 : World).
Context (Hrl : relocated rtti_of next objs roots precise sp1 w1 g visited sp2 w2).
Context (Hrec : records rtti_of blocks sp1 w1 g (dom g) sp2 w2).

Lemma moved_object o p : g !! o = Some p → o ∈ objs ∧ 0 < size_of o.
Proof.
  intros Hg. assert (Ho : o ∈ objs) by (apply (lo_reached _ _ _ _ _ _ _ _ _ _ _ Hrl); by rewrite Hg).
  split; [done|]. by apply (size_facts _ _ _ _ _ _ _ _ o Hk Ho).
Qed.

Lemma new_place_block o p : g !! o = Some p → new_place rtti_of sp1 w1 (evac_allocator sp2) o p →
  let b := Block.get_block_ptr p in b ∈ evac_blocks (evac_allocator sp) ∧ b + 128 <= p ∧ p + size_of o < b + 32768.
Proof.
  intros Hg [_ _ (c & Hc & H1 & H2) _] b. destruct cleared_same as (Hsh & Ee & _). rewrite Ee in Hc.
  rewrite (sh_size _ _ _ Hsh) in H2. destruct (rm_blocks _ (er_room _ _ (eh_ready _ _ _ _ _ _ _ _ Hk)) c Hc) as [_ Hcm]. consts.
  destruct (block_ptr_facts p) as (Hpm & ? & _). destruct (moved_object o p Hg) as [_ Hs0].
  by assert (b = c) as -> by (eapply (aligned_block_eq b c p p); done || lia).
Qed.

Lemma phase_block o p : g !! o = Some p → immix w o → let b := Block.get_block_ptr p in
  immix w p ∧ (b ∈ blocks ∨ b ∈ evac_blocks (evac_allocator sp)) ∧ b + 128 <= p ∧ p + size_of o < b + 32768.
Proof.
  intros Hg Him b. destruct (lo_place _ _ _ _ _ _ _ _ _ _ _ Hrl o p Hg) as [->|Hnp].
  - destruct (eh_placed _ _ _ _ _ _ _ _ Hk o (proj1 (moved_object o o Hg)) Him) as (Hb & ? & ?). split_and!; try done. by left.
  - destruct (new_place_block o p Hg Hnp) as (Hb & Hb1 & Hb2). fold b in Hb1, Hb2. destruct (moved_object o p Hg) as [_ Hs0].
    split_and!; [|by right|done|done]. eapply (block_immix w b); [by apply (er_range _ _ (eh_ready _ _ _ _ _ _ _ _ Hk))|consts; lia].
Qed.

Lemma phase_starts o p : g !! o = Some p → immix w p → Space.marked (bitmap sp2) (Space.granule 16 (bitmap sp2) p) = true.
Proof.
  intros Hg Him. destruct cleared_same as (Hsh & _ & _).
  assert (Hbeg : heap_begin (bitmap sp2) = heap_begin (bitmap sp1)) by (by apply Space.same_shape_begin, Hrec).
  assert (Eg : Space.granule 16 (bitmap sp2) p = Space.granule 16 (bitmap sp1) p) by (unfold Space.granule; by rewrite Hbeg).
  rewrite Eg. apply (lo_marks _ _ _ _ _ _ _ _ _ _ _ Hrl); [|right; exists o, p; by rewrite (sh_immix _ _ _ Hsh)].
  unfold Space.granule. destruct (cl_bitmap _ _ _ _ _ Hcl) as [(_ & Hb & _) _]. rewrite Hb.
  unfold immix, BA.is_in_space in Him. apply andb_true_iff in Him as [?%bool_decide_eq_true _]. apply Z.div_pos; lia.
Qed.

(** Blocks of the headroom that are left are clean. *)
Lemma headroom_clean b l : b ∈ e_evac_headroom (evac_allocator sp2) → marked_line w2 b l = false.
Proof.
  intros Hb. destruct cleared_same as (Hsh & Ee & _). pose proof Hco as [[_ _ _ [_ _ _ Hcln] _ _ _ _] _ _ _ _ Hev _].
  destruct (rs_ready _ _ _ _ _ _ _ _ Hrec) as [Hroom _ _ _].
  assert (Hb2 : b ∈ evac_blocks (evac_allocator sp2)) by (rewrite evac_blocks_eq; apply elem_of_app; by right).
  assert (Hb0 : b ∈ evac_blocks (evac_allocator sp)) by (rewrite <- Ee; by apply (rl_blocks _ _ (rs_le _ _ _ _ _ _ _ _ Hrec))).
  assert (Hbh : b ∈ e_evac_headroom (evac_allocator sp)) by (rewrite evac_blocks_eq, Hdr in Hb0; exact Hb0).
  assert (Hnb : b ∉ blocks) by (intros Hin; by apply (Hev b Hin), evac_blocks_view).
  enough (Hpos : ∀ i, 0 <= i → marked_line w2 b i = false).
  { destruct (decide (0 <= l)) as [|Hl]; [by apply Hpos|]. unfold marked_line, line_bit. rewrite Words.bit_neg by lia.
    apply (Hpos (l mod 64)). apply Z.mod_pos_bound. lia. }
  intros i Hi. destruct (marked_line w2 b i) eqn:E; [exfalso|done].
  apply (rs_lines _ _ _ _ _ _ _ _ Hrec) in E as [E|(o & p & _ & Hg & (Him & Hbp & _))]; [| |done].
  - unfold marked_line in E. rewrite (cl_other _ _ _ _ _ Hcl) in E by done. pose proof (Hcln eq_refl b Hbh i) as E0.
    unfold marked_line in E0. congruence.
  - destruct (lo_place _ _ _ _ _ _ _ _ _ _ _ Hrl o p Hg) as [->|Hnp].
    + apply Hnb. rewrite <- Hbp. rewrite (sh_immix _ _ _ Hsh) in Him.
      by destruct (eh_placed _ _ _ _ _ _ _ _ Hk o (proj1 (moved_object o o Hg)) Him).
    + destruct (new_place_block o p Hg Hnp) as (_ & Hlo & Hhi). destruct (moved_object o p Hg) as [_ Hs0].
      destruct (np_room _ _ _ _ _ _ Hnp p) as [_ []]; [unfold within; rewrite (sh_size _ _ _ Hsh); lia|].
      exists b, 128. rewrite Hbp in Hlo, Hhi. consts. split; [|lia]. apply elem_of_app. right. apply list_elem_of_fmap. by exists b.
Qed.

Lemma moved_evac_blocks : v_blocks (evac_v sp2 w2) ≡ₚ v_blocks (evac_v sp w).
Proof. destruct cleared_same as (_ & Ee & _). rewrite !evac_view_blocks, <- Ee. symmetry. apply (rs_le _ _ _ _ _ _ _ _ Hrec). Qed.

Lemma moved_collecting : collecting self sp2 w2.
Proof.
  pose proof moved_evac_blocks as Hvb. destruct cleared_same as (Hsh & Ee & _). pose proof Hco as [Hok Hn Ho Hnd Hr Hdis Hh]. pose proof Hok as [[Hi _ Hfr] _ _ Hev _ _ _ _].
  pose proof Hcl as [A1 _ [A3 _] _ A5 _ _ _]. pose proof Hrec as [R Hle Esp [Eba Etl] _ _ Hot _ _].
  assert (Eb : w_ba w2 = w_ba w) by (rewrite Eba; by rewrite A3). assert (Et : w_tls w2 = w_tls w) by (rewrite Etl; by rewrite A3).
  assert (En : normal_v sp2 w2 = mkView None [] []).
  { rewrite <- Hn, Esp, A1. unfold normal_v. cbn. unfold normal_view. by rewrite Et. }
  assert (Eo : overflow_v sp2 w2 = mkView None [] []).
  { rewrite <- Ho, Esp, A1. unfold overflow_v. cbn. unfold overflow_view. by rewrite Et. }
  assert (Hnil : view_ok false w2 (mkView None [] [])).
  { constructor; [done|constructor| |done]. intros b Hb. by apply not_elem_of_nil in Hb. }
  constructor; rewrite ?Eb; try done.
  - constructor; rewrite ?En, ?Eo; try done; try (intros b Hb; by apply not_elem_of_nil in Hb).
    + constructor; rewrite ?Eb; [done|apply R|]. intros b Hb. assert (b ∉ blocks) by (intros Hin; by apply (Hr b Hin)).
      rewrite Hot, A5; [by apply Hfr|done|done|]. rewrite Ee. intros Hin%evac_blocks_view. by apply (vo_range _ _ _ Hev b Hin).
    + constructor; rewrite ?Eb; [done|rewrite Hvb; apply Hev|intros b; rewrite Hvb; apply Hev|].
      intros _ b Hb l. by apply headroom_clean.
    + apply (er_bitmap _ _ R).
  - intros b Hb. rewrite Hvb. by apply Hdis.
  - unfold evac_headroom, Evac.evac_headroom in *. pose proof (headroom_le (evac_allocator sp1) (evac_allocator sp2)) as Hl.
    rewrite Ee in Hl. specialize (Hl Hdr (er_room _ _ R)). rewrite Ee in Hle. specialize (Hl Hle). lia.
Qed.

Lemma relocated_evacuated : evacuated g visited sp2 w2.
Proof.
  destruct cleared_same as ([Ewd Esz Esl Eim Ere _] & Ee & Hk1).
  assert (Ero : word (w_store w1) <$> precise = word (w_store w) <$> precise) by (apply fmap_ext_in; intros; apply Ewd).
  pose proof Hrl as [B1 B2 B3 B4 B5 B6 B7 B8 B9 B10 B11 B12]. constructor.
  - apply moved_collecting.
  - apply Hrec.
  - destruct (rs_world _ _ _ _ _ _ _ _ Hrec) as [-> _]. by rewrite (proj1 (cl_world _ _ _ _ _ Hcl)).
  - intros o. by rewrite B1, Ere, Ero.
  - intros o p Hg. destruct (B2 o p Hg) as [|Hnp]; [by left|right]. split; [|split; [by apply (new_place_block o p)|apply Hnp]].
    destruct (np_movable _ _ _ _ _ _ Hnp) as (M1 & M2 & M3). unfold movable, ImmixSpaceM.pinned, ImmixSpaceM.candidate in *.
    by rewrite <- Eim, <- Ewd, <- (cl_candidate _ _ _ _ _ Hcl).
  - apply phase_block.
  - intros o o' p p' Hg Hg' Hne. rewrite <- !Esz. by apply (B3 o o' p p').
  - intros o p Hg. rewrite <- Ewd. apply (B4 o p Hg).
  - intros o p i Hg. rewrite <- Esz, <- Esl, <- Ewd. by apply B5.
  - intros o p a Hg. rewrite <- Esl, <- Ewd. by apply B6.
  - intros a Ha. rewrite <- Ewd. by apply B7.
  - intros o Ho Hg. pose proof (size_facts _ _ _ _ _ _ _ _ o Hk1 Ho) as (_ & _ & ?).
    specialize (B8 o 0 Ho Hg ltac:(lia)). by rewrite Z.mul_0_r, !Z.add_0_r, Ewd in B8.
  - intros o p l Hg Him Hcv. apply B10; [|right; exists o, p; split; [done|]].
    + unfold Block.covered_line in Hcv. pose proof (Z.div_pos (p mod 32768) 128). pose proof (Z.mod_pos_bound p 32768). lia.
    + split_and!; [by apply Eim|done|by rewrite Esz].
  - intros b l Hb Hl [E|(o & p & Hg & Him & Hbp & _)]%B10; [by rewrite (cl_lines _ _ _ _ _ Hcl) in E| |done].
    exists o, p. by rewrite <- Eim.
  - apply phase_starts.
  - rewrite B12. f_equal. apply fmap_ext_in. intros o _. apply Esz.
  - destruct (rs_world _ _ _ _ _ _ _ _ Hrec) as [_ Et]. rewrite (rs_space _ _ _ _ _ _ _ _ Hrec), (cl_space _ _ _ _ _ Hcl), Et.
    by rewrite (proj1 (cl_world _ _ _ _ _ Hcl)).
  - apply moved_evac_blocks.
  - rewrite <- (proj2 (cl_bitmap _ _ _ _ _ Hcl)). by apply Space.same_shape_begin, Hrec.
  - destruct (cl_bitmap _ _ _ _ _ Hcl) as [_ Hbeg]. intros q Hq [Hold|(o & p & Hg & Him & Eq)]%B11; [left; by apply (cl_marks _ _ _ _ _ Hcl)| |done].
    right. exists o, p. rewrite <- Eim. unfold Space.granule in *. by rewrite <- Hbeg.
  - intros a Ho Hf Hp. rewrite <- Ewd. apply B9; [|by rewrite Ee|done]. intros o Hin. unfold within. rewrite Esz. by apply Ho.
Qed.

End Phase.

Lemma evac_phase_ok fuel : evacuable fuel →
  ∃ g visited sp1 w1 sp2 w2, for_each clear_block blocks (sp, w) = Ok (sp1, w1) ∧
    ImmixCollector_collect rtti_of fuel ImmixEvacCollection roots precise sp1 w1 next = Ok (visited, sp2, w2) ∧
    evacuated g visited sp2 w2.
Proof.
  intros [Hco Hm Hdr Hk Hf _ _ _ _]. pose proof Hco as [Hok _ _ _ Hrange _ _]. pose proof Hok as [[_ Hwf _] _ _ _ _ _ _ Hcov].
  destruct (clear_all_ok blocks sp w Hcov Hwf) as (sp1 & w1 & E1 & Hcl); [intros b Hb; by apply Hrange|done|].
  destruct (cleared_same Hk sp1 w1 Hcl) as (Hsh & _ & Hk1).
  destruct (collect_moves rtti_of next objs blocks roots precise sp1 w1 fuel Hk1) as (g & visited & sp2 & w2 & E2 & Hrl & Hrec).
  { rewrite (fmap_ext_in (word (w_store w1)) (word (w_store w))) by (intros; apply Hsh).
    rewrite (fmap_ext_in (degree rtti_of w1) (degree rtti_of w)) by (intros; apply Hsh). done. }
  exists g, visited, sp1, w1, sp2, w2. split; [done|]. split; [done|]. by eapply relocated_evacuated.
Qed.

Section Swept.
Context (fuel : nat) (Hev : evacuable fuel).
Context (g : gmap Z Z) (visited : Z) (sp2 : ImmixSpace) (w2 : World) (Hed : evacuated g visited sp2 w2).
Context (self' : Collector) (sp' : ImmixSpace) (w' : World) (Hrc : reclaimed self sp2 w2 self' sp' w').

Lemma moved_size o p : g !! o = Some p → 0 < size_of o.
Proof.
  intros Hg. apply (size_facts _ _ _ _ _ _ _ _ o (ev_heap _ Hev)). apply (ed_reached _ _ _ _ Hed o). by rewrite Hg.
Qed.

(** Every byte of an object is in a marked line of its new block, or in the line behind one. *)
Lemma moved_line o p x : g !! o = Some p → immix w o → p <= x < p + size_of o →
  let b := Block.get_block_ptr p in
  b mod 32768 = 0 ∧ b + 128 <= x < b + 32768 ∧
  (marked_line w2 b ((x - b) / 128) = true ∨ marked_line w2 b ((x - b) / 128 - 1) = true).
Proof.
  intros Hg Him Hx b. destruct (ed_block _ _ _ _ Hed o p Hg Him) as (Hip & _ & Hlo & Hhi). fold b in Hlo, Hhi.
  destruct (block_ptr_facts p) as (Ha & Hpb & Em). fold b in Ha, Hpb, Em. pose proof (moved_size o p Hg).
  split_and!; [done|lia..|].
  apply (Block.object_lines_marked (marked_line w2 b) (p mod 32768) (size_of o) (x - b)); [lia|done| |lia].
  intros l Hl. by apply (ed_lines _ _ _ _ Hed o p).
Qed.

(** It is in no span of unmarked lines. *)
Lemma moved_not_in_span o p x c low : g !! o = Some p → immix w o → p <= x < p + size_of o →
  c mod 32768 = 0 → 0 <= low → ¬ in_span w2 c low x.
Proof.
  intros Hg Him Hx Hc Hlow [Hs Hl]. destruct (moved_line o p x Hg Him Hx) as (Hb & Hxb & Hm).
  assert (Block.get_block_ptr p = c) as <- by (eapply (aligned_block_eq _ c x x); done || lia).
  destruct Hm as [E|E]; rewrite Hl in E by lia; done.
Qed.

(** What is free lies in a span of unmarked lines of some block. *)
Lemma free_in_span x : free_space sp' w' x → ∃ c low, c mod 32768 = 0 ∧ 0 <= low ∧ in_span w2 c low x.
Proof.
  pose proof (ed_collecting _ _ _ _ Hed) as [Hok2 _ _ _ Hr _ _]. pose proof (so_world _ _ Hok2) as Hw2. destruct (rc_evac _ _ _ _ _ _ Hrc) as (k & Ee & _ & Ha).
  destruct (er_room _ _ (ed_ready _ _ _ _ Hed)) as [Hcur Hbl _].
  assert (Hsp : ∀ c low, c mod 32768 = 0 → in_span w' c low x → in_span w2 c low x).
  { intros c low Hc [Hs Hl]. split; [done|]. intros l Hll. rewrite <- (rc_lines _ _ _ _ _ _ Hrc) by done. auto. }
  assert (Hfr : ∀ c, c ∈ filter (is_free (w_store w2)) blocks → c mod 32768 = 0).
  { intros c [_ Hin]%list_elem_of_filter. by destruct (Hr c Hin) as [[? _] _]. }
  intros [Hx|[Hx|[Hx|(c & Hc & Hs)]]].
  - rewrite (rc_normal _ _ _ _ _ _ Hrc) in Hx. destruct Hx as [(? & ? & ? & [=] & _)|(c & [_ Hin]%list_elem_of_filter & Hs)].
    destruct (Hr c Hin) as [[? _] _]. exists c, 128. auto with lia.
  - rewrite (rc_overflow _ _ _ _ _ _ Hrc) in Hx. destruct Hx as [(? & ? & ? & [=] & _)|(c & Hin & _)]. by apply not_elem_of_nil in Hin.
  - rewrite Ee in Hx. destruct Hx as [(c & low & high & Ec & Hs)|(c & [Hin|Hin%elem_of_take_1]%elem_of_app & Hs)].
    + discriminate Ec.
    + assert (c mod 32768 = 0).
      { apply Hbl. unfold evac_blocks, evac_open. rewrite fmap_app. apply elem_of_app. right.
        rewrite <- list_fmap_compose. apply list_elem_of_fmap. exists c. split; [done|exact Hin]. }
      exists c, 128. auto with lia.
    + exists c, 128. auto with lia.
  - exists c, 128. apply Ha in Hc as [Hc%elem_of_drop_1|Hc]; [auto with lia|].
    destruct (available_range _ c (wo_ba _ Hw2) Hc) as [? _]. auto with lia.
Qed.

Lemma moved_not_free o p x : g !! o = Some p → immix w o → p <= x < p + size_of o → ¬ free_space sp' w' x.
Proof. intros Hg Him Hx (c & low & Hc & Hl & Hs)%free_in_span. by apply (moved_not_in_span o p x c low). Qed.

Lemma moved_kept o p a : g !! o = Some p → immix w o → p <= a < p + size_of o → word (w_store w') a = word (w_store w2) a.
Proof.
  intros Hg Him Ha. apply (rc_words _ _ _ _ _ _ Hrc). intros c Hin Hf Hx. destruct (moved_line o p a Hg Him Ha) as (Hb & Hxb & Hm).
  destruct (co_range _ _ _ (ed_collecting _ _ _ _ Hed) c Hin) as [[Hc _] _]. consts.
  assert (Block.get_block_ptr p = c) as <- by (eapply (aligned_block_eq _ c a a); done || lia).
  unfold is_free in Hf. rewrite no_marks_iff in Hf.
  destruct Hm as [E|E]; unfold marked_line in E; rewrite Hf in E; try done; Z.div_mod_to_equations; lia.
Qed.

(** Memory outside the space is not touched by the sweep. *)
Lemma outside_kept a : BA.is_in_space (w_ba w) a = false → word (w_store w') a = word (w_store w2) a.
Proof.
  intros Ha. apply (reclaimed_outside _ _ _ _ _ _ (ed_collecting _ _ _ _ Hed) Hrc). by rewrite (ed_ba _ _ _ _ Hed).
Qed.

(** The headers of large objects are in order when their sweep begins. *)
Lemma moved_cells : LOS.los_wf los pm (words (w_store w')).
Proof.
  destruct (ev_los _ Hev) as [Hn He]. split; [done|]. intros p Hp. destruct (He p Hp) as (h & ? & ? & ? & _).
  exists h. split_and!; try done; try lia. destruct (ev_cells _ Hev p Hp) as [Ho Hni]. set (o := Precise.cell p) in *.
  change (header_wf (word (w_store w') o)). rewrite outside_kept by (unfold immix in Hni; by destruct (BA.is_in_space _ _)).
  destruct (g !! o) as [q|] eqn:Eg.
  - destruct (ed_place _ _ _ _ Hed o q Eg) as [->|[[? _] _]]; [by apply (ed_header _ _ _ _ Hed o)|done].
  - rewrite (ed_dead _ _ _ _ Hed o Ho Eg). by apply (eh_header _ _ _ _ _ _ _ _ (ev_heap _ Hev)).
Qed.

(** A block in which no reachable object is left is free. *)
Lemma emptied_freed b : b ∈ blocks → (∀ o p, g !! o = Some p → immix w p → Block.get_block_ptr p ≠ b) →
  BA.available (w_ba w') b ∨ b ∈ v_pool (evac_v sp' w').
Proof.
  intros Hb Hno. assert (Hf : is_free (w_store w2) b).
  { unfold is_free. rewrite no_marks_iff. intros l Hl. destruct (line_bit _ l) eqn:E; [|done]. exfalso.
    apply (ed_garbage _ _ _ _ Hed b l Hb) in E as (o & p & Hg & Hi & Hbo); [|lia]. by apply (Hno o p). }
  assert (Hin : b ∈ filter (is_free (w_store w2)) blocks) by (by apply list_elem_of_filter).
  destruct (rc_evac _ _ _ _ _ _ Hrc) as (k & Ee & _ & Ha). rewrite <- (take_drop k) in Hin.
  apply elem_of_app in Hin as [Hin|Hin]; [right|left; apply Ha; by left].
  rewrite Ee. apply elem_of_app. by right.
Qed.

End Swept.

(** The heap after the collection: the reachable part of the heap before it, renamed by [g]. *)
Record moved_heap (g : gmap Z Z) (sp' : ImmixSpace) (w' : World) : Prop := {
  mh_reached : ∀ o, is_Some (g !! o) ↔ o ∈ objs ∧ reached o;
  mh_place : ∀ o p, g !! o = Some p → p = o ∨ movable w o ∧ Block.get_block_ptr p ∈ evac_blocks (evac_allocator sp);
  mh_apart : ∀ o o' p p', g !! o = Some p → g !! o' = Some p' → o ≠ o' → p + size_of o <= p' ∨ p' + size_of o' <= p;
  mh_roots : ∀ a, a ∈ precise → g !! word (w_store w) a = Some (word (w_store w') a);
  mh_header : ∀ o p, g !! o = Some p → immix w o → header_wf (word (w_store w') p) ∧ decode (word (w_store w') p) =
    mkHeader next false (hd_pinned (decode (word (w_store w) o))) (hd_pointer (decode (word (w_store w) o)));
  mh_data : ∀ o p i, g !! o = Some p → immix w o → 0 < i < size_of o / 8 → o + 8 * i ∉ slots_of o →
    word (w_store w') (p + 8 * i) = word (w_store w) (o + 8 * i);
  mh_refs : ∀ o p a, g !! o = Some p → immix w o → a ∈ slots_of o →
    g !! word (w_store w) a = Some (word (w_store w') (p + (a - o)));
  mh_free : ∀ o p x, g !! o = Some p → immix w o → p <= x < p + size_of o → ¬ free_space sp' w' x;
  mh_starts : ∀ o p, g !! o = Some p → immix w o → Space.marked (bitmap sp') (Space.granule 16 (bitmap sp') p) = true
}.

Lemma evac_collect_ok fuel : evacuable fuel →
  ∃ g visited sp2 w2 self' sp' w' los' pm' fins,
    collect rtti_of freed_size fuel self ImmixEvacCollection roots precise sp w los pm next =
      Ok (visited, self', sp', w', los', pm', fins) ∧
    (∃ n, LOS.sweep rtti_of freed_size los pm (words (w_store w')) = Ok (n, los', pm', fins)) ∧
    evacuated g visited sp2 w2 ∧ reclaimed self sp2 w2 self' sp' w' ∧ moved_heap g sp' w'.
Proof.
  intros Hev. unfold collect.
  destruct (evac_phase_ok fuel Hev) as (g & visited & sp1 & w1 & sp2 & w2 & -> & E2 & Hed). rewrite bind_Ok, E2, bind_Ok.
  destruct (reclaim_reclaimed self sp2 w2 (ed_collecting _ _ _ _ Hed)) as (self' & sp' & w' & -> & Hrc). rewrite bind_Ok.
  pose proof (moved_cells fuel Hev g visited sp2 w2 Hed self' sp' w' Hrc) as Hl. destruct (ev_freed _ Hev) as [Hf0 Hf1].
  destruct (LOS.sweep_ok rtti_of freed_size Hf0 los pm _ Hl Hf1) as (n & los' & pm' & E & _). rewrite E, bind_Ok.
  do 10 eexists. split; [done|]. split; [by exists n|]. split; [exact Hed|]. split; [exact Hrc|].
  pose proof (ev_heap _ Hev) as Hk. pose proof Hed as [_ _ _ H1 H2 H3 H4 H5 H6 H7 H8 _ _ _ H9 _ _ _ _ _ _].
  assert (Hkept : ∀ o p i, g !! o = Some p → immix w o → 0 <= i < size_of o / 8 → word (w_store w') (p + 8 * i) = word (w_store w2) (p + 8 * i)).
  { intros o p i Hg Him Hi. eapply moved_kept; [done..|]. Z.div_mod_to_equations. lia. }
  assert (Hsz : ∀ o p, g !! o = Some p → o ∈ objs ∧ 2 <= size_of o / 8).
  { intros o p Hg. assert (Ho : o ∈ objs) by (apply H1; by rewrite Hg). split; [done|]. by apply (size_facts _ _ _ _ _ _ _ _ o Hk Ho). }
  constructor; try done.
  - intros o p Hg. destruct (H2 o p Hg) as [?|(? & ? & _)]; tauto.
  - intros a Ha. rewrite (outside_kept g visited sp2 w2 Hed self' sp' w' Hrc) by (by apply (ev_precise _ Hev)). auto.
  - intros o p Hg Him. destruct (Hsz o p Hg). pose proof (Hkept o p 0 Hg Him ltac:(lia)) as E0.
    rewrite Z.mul_0_r, Z.add_0_r in E0. rewrite E0. auto.
  - intros o p i Hg Him Hi Hs. rewrite (Hkept o) by (done || lia). auto.
  - intros o p a Hg Him Ha. destruct (Hsz o p Hg) as [Ho _]. destruct (eh_slots _ _ _ _ _ _ _ _ Hk o a Ho Ha) as ((i & Hi & Ei) & _).
    replace (p + (a - o)) with (p + 8 * i) by lia. rewrite (Hkept o) by (done || lia). replace (p + 8 * i) with (p + (a - o)) by lia. auto.
  - intros o p x. by eapply moved_not_free.
  - intros o p Hg Him. rewrite (rc_bitmap _ _ _ _ _ _ Hrc). apply (H9 o p Hg). by apply (H3 o p).
Qed.

End Collect.

(** ** A small heap for the witnesses

    A candidate block with the object at 32896, which a precise root at 16 refers to, the
    object at 32928, which the first one refers to, and garbage at 33024; the block at 65536 is headroom. *)

Definition move_objs : list Z := [32896; 32928; 33024].
Definition move_space : ImmixSpace :=
  mkSpace (mkSpaceBitmap (replicate 68 0) 544 28672 98304) Normal.new Overflow.new (mkEvac [] [65536] None) false.
Definition move_world : World :=
  mkWorld (mkBA [] 98304 98304 (mkMmap 28672 98304 69632))
    (mkStore {[32768 := mkBlock [0; 0; 0; 0] true 0 true]}
       {[16 := 32896; 32896 := 8; 32904 := 32928; 32928 := 16; 33024 := 16]}) (mkTLS None None).
Definition move_collector : Collector := mkCollector [32768] ∅.

Lemma move_wf b : block_wf (header (w_store move_world) b).
Proof.
  unfold header. cbn. destruct (decide (b = 32768)) as [->|Hne].
  - rewrite lookup_singleton_eq. apply Block.zeroed_wf.
  - rewrite lookup_singleton_ne by done. apply Block.zeroed_wf.
Qed.

Lemma move_lines b l : marked_line move_world b l = false.
Proof.
  unfold marked_line, header. cbn. destruct (decide (b = 32768)) as [->|Hne].
  - rewrite lookup_singleton_eq. apply Block.zeroed_line.
  - rewrite lookup_singleton_ne by done. apply Block.zeroed_line.
Qed.

Lemma move_unavailable b : ¬ BA.available (w_ba move_world) b.
Proof. apply pair_unavailable. Qed.

Lemma move_range b : b = 32768 ∨ b = 65536 → BA.in_range (w_ba move_world) b.
Proof. intros [->| ->]; (split; [done|split; vm_compute; discriminate]). Qed.

Lemma move_collecting : let _ : Cfg := false in collecting move_collector move_space move_world.
Proof.
  intros cfg. assert (Hv : ∀ clean, view_ok clean move_world (mkView None [] [])).
  { intros. constructor; [done|constructor|..]; [intros b Hb|intros _ b Hb]; by apply not_elem_of_nil in Hb. }
  constructor; try done.
  - constructor; unfold normal_v, overflow_v, evac_v; cbn -[move_world]; try apply Hv; try (intros b Hb; by apply not_elem_of_nil in Hb).
    + constructor; [|apply move_wf|intros b Hb; by apply move_unavailable in Hb].
      constructor; cbn; try lia; [split; [done|split; vm_compute; discriminate]|constructor|].
      intros b Hb. by apply not_elem_of_nil in Hb.
    + constructor; [done|cbn; vm_decide|..].
      * intros b ->%list_elem_of_singleton. split; [apply move_range; by right|apply move_unavailable].
      * intros _ b _ l. apply move_lines.
    + split_and!; [apply (Words.wf_zeros 68)|done|vm_compute; discriminate].
  - vm_decide.
  - intros b ->%list_elem_of_singleton. split; [apply move_range; by left|apply move_unavailable].
  - intros b ->%list_elem_of_singleton Hb. cbn in Hb. apply list_elem_of_singleton in Hb. lia.
Qed.

Lemma move_free x : efree (evac_allocator move_space) x → 65664 <= x.
Proof. intros (b & low & Hin & Hx). cbn in Hin. apply list_elem_of_singleton in Hin. simplify_eq. lia. Qed.

Ltac move_cases H := unfold move_objs in H; rewrite !elem_of_cons in H; destruct H as [->|[->|[->|H%not_elem_of_nil]]]; [..|done].

Lemma move_size o : o ∈ move_objs → osize pair_rtti move_world o = 16.
Proof. intros Ho. by move_cases Ho. Qed.

Lemma move_slots o a : o ∈ move_objs → a ∈ slots pair_rtti move_world o → o = 32896 ∧ a = 32904.
Proof.
  intros Ho Ha. move_cases Ho; vm_compute in Ha; [by apply list_elem_of_singleton in Ha|by apply not_elem_of_nil in Ha..].
Qed.

Lemma move_ready : let _ : Cfg := false in evac_ready move_space move_world.
Proof.
  intros cfg. constructor.
  - constructor; [done| |vm_decide].
    intros b Hb. cbn in Hb. apply list_elem_of_singleton in Hb as ->. done.
  - intros b Hb. cbn in Hb. apply list_elem_of_singleton in Hb as ->. apply move_range. by right.
  - apply move_wf.
  - split_and!; [apply (Words.wf_zeros 68)|done|vm_compute; discriminate].
Qed.

Lemma move_heap_ok : let _ : Cfg := false in
  evac_heap_ok pair_rtti true move_objs [32768] [] [16] move_space move_world.
Proof.
  intros cfg. constructor.
  - intros o Ho. move_cases Ho; (split; [split; [split; [discriminate|reflexivity]|discriminate]|split; reflexivity]).
  - intros o _. cbn. lia.
  - intros o p m Ho _. split; [done|]. unfold slots, rtti, pair_rtti. cbn. case_decide; [|done]. cbn. f_equal. lia.
  - intros o a Ho Ha. destruct (move_slots o a Ho Ha) as [-> ->]. split; [exists 1; split; [split; vm_compute; done|done]|]. right. left.
  - intros o Ho. move_cases Ho; vm_decide.
  - intros o Ho _. move_cases Ho; (split; [change (Block.get_block_ptr _) with 32768; left|split; vm_compute; done]).
  - intros b ->%list_elem_of_singleton. apply move_range. by left.
  - vm_compute. done.
  - vm_compute. done.
  - vm_decide.
  - intros o o' Ho Ho' Hne. unfold disjoint_at. rewrite !move_size by done. move_cases Ho; move_cases Ho'; lia.
  - apply move_ready.
  - intros o x Ho. unfold within. rewrite move_size by done. intros Hx Hf%move_free. move_cases Ho; lia.
  - intros r Hr. by apply not_elem_of_nil in Hr.
  - intros a ->%list_elem_of_singleton. split; [left|]. split; [intros Hf%move_free; lia|].
    intros o Ho. unfold within. rewrite move_size by done. move_cases Ho; lia.
  - vm_decide.
  - intros a b ->%list_elem_of_singleton ->%list_elem_of_singleton. done.
  - intros a b (o & Ho & Ha) (o' & Ho' & Hb). destruct (move_slots o a Ho Ha) as [_ ->], (move_slots o' b Ho' Hb) as [_ ->]. done.
Qed.

Lemma move_evacuable : let _ : Cfg := false in
  evacuable pair_rtti true move_objs move_collector move_space move_world (λ _, 0) LOS.new ∅ [] [16] 3.
Proof.
  intros cfg. constructor.
  - apply move_collecting.
  - done.
  - done.
  - apply move_heap_ok.
  - vm_compute. done.
  - split; [constructor|]. intros p Hp. by apply not_elem_of_nil in Hp.
  - intros p Hp. by apply not_elem_of_nil in Hp.
  - intros a ->%list_elem_of_singleton. reflexivity.
  - split; [lia|done].
Qed.

(** The second object is reachable through the first. *)
Lemma move_reachable : reachable pair_rtti move_world ([] ++ (word (w_store move_world) <$> [16])) 32928.
Proof. exists 32896. split; [left|]. apply rtc_once. apply elem_of_cons. left. reflexivity. Qed.

(** ** Properties *)

(** The marking phase of an evacuating collection, with room to move objects to,
    keeps the heap up to a renaming: it ends with one unit of fuel per root and per
    reference, the renaming is of exactly the reachable objects, objects that stay are
    the ones that are pinned, outside the candidate blocks, or for which there is no
    room, moved ones lie apart from each other in blocks of the headroom, every object
    has its type, its mark and its data, every reference and every precise root leads to
    the new place of its object, and the line marks and object starts are those of the
    new places. *)
Theorem evacuation_relocates `{Cfg} rtti_of next objs blocks roots precise sp w fuel :
  evac_heap_ok rtti_of next objs blocks roots precise sp w →
  sum_list (degree rtti_of w <$> objs) +
    Z.of_nat (length (roots ++ (word (w_store w) <$> precise))) < Z.of_nat fuel →
  ∃ g visited sp' w', ImmixCollector_collect rtti_of fuel ImmixEvacCollection roots precise sp w next =
      Ok (visited, sp', w') ∧ relocated rtti_of next objs roots precise sp w g visited sp' w'.
Proof.
  intros Hk Hf. destruct (collect_moves rtti_of next objs blocks roots precise sp w fuel Hk Hf) as (g & v & sp' & w' & E & Hr & _).
  by exists g, v, sp', w'.
Qed.

Lemma evacuation_relocates_witness : let _ : Cfg := false in
  ∃ g visited sp' w', ImmixCollector_collect pair_rtti 3 ImmixEvacCollection [] [16] move_space move_world true = Ok (visited, sp', w') ∧
    relocated pair_rtti true move_objs [] [16] move_space move_world g visited sp' w' ∧ g !! 32928 = Some 65680.
Proof.
  intros cfg.
  destruct (evacuation_relocates pair_rtti true move_objs [32768] [] [16] move_space move_world 3 move_heap_ok ltac:(vm_compute; done))
    as (g & visited & sp' & w' & E & Hr).
  exists g, visited, sp', w'. split; [exact E|]. split; [exact Hr|].
  assert (H1 : g !! 32896 = Some (word (w_store w') 16)) by (apply (lo_precise _ _ _ _ _ _ _ _ _ _ _ Hr 16); left).
  assert (Hs : 32904 ∈ slots pair_rtti move_world 32896) by (vm_compute; left).
  pose proof (lo_refs _ _ _ _ _ _ _ _ _ _ _ Hr 32896 _ 32904 H1 Hs) as H2.
  change (word (w_store move_world) 32904) with 32928 in H2. rewrite H2. f_equal. clear H1 H2 Hr Hs.
  assert (Eq : ('(_, _, w') ← ImmixCollector_collect pair_rtti 3 ImmixEvacCollection [] [16] move_space move_world true;
      Ok (word (w_store w') (word (w_store w') 16 + (32904 - 32896)))) =
    Ok (word (w_store w') (word (w_store w') 16 + (32904 - 32896)))) by (rewrite E; reflexivity).
  clear E. revert Eq. generalize (word (w_store w') (word (w_store w') 16 + (32904 - 32896))). intros x Eq.
  vm_compute in Eq. injection Eq as <-. reflexivity.
Defined.

(** C9: An evacuating [Collector::collect] keeps the reachable part of a heap in which no
    object is shared in a way that would have it copied twice. It ends without a panic; the
    reachable objects are afterwards where the renaming says, apart from each other, and
    precise roots lead to them. For objects of the immix space (large objects are freed)
    type, pin, data and renamed references are there, with the new mark, their starts are in
    the bitmap, and none of their bytes is free for later allocations.
    The conditions, [evacuable]: an object that may move (not pinned, in a candidate block)
    is the object of at most one precise root, and if of none then at most one reference
    slot of the heap refers to it; types do not depend on the address of their objects, and
    visit each slot once, a multiple of 8 bytes into the object, all of them referring to
    objects; conservative roots are pinned; precise roots are given once, lie outside the
    heap and refer to objects; the cells of large objects are among the objects; the space
    is collected as [collect_internal] leaves it, with its allocators emptied; and the fuel
    allows one round per root and per reference. *)
Theorem evacuation_keeps_heap `{Cfg} rtti_of next objs self sp w freed_size los pm roots precise fuel :
  evacuable rtti_of next objs self sp w freed_size los pm roots precise fuel →
  ∃ g visited self' sp' w' los' pm' fins,
    collect rtti_of freed_size fuel self ImmixEvacCollection roots precise sp w los pm next =
      Ok (visited, self', sp', w', los', pm', fins) ∧
    moved_heap rtti_of next objs sp w roots precise g sp' w' ∧
    visited = sum_list (osize rtti_of w <$> filter (λ o, o ∈ dom g) objs).
Proof.
  intros Hev. destruct (evac_collect_ok rtti_of next objs self sp w freed_size los pm roots precise fuel Hev)
    as (g & v & sp2 & w2 & self' & sp' & w' & los' & pm' & fins & E & _ & Hed & _ & Hm). exists g, v, self', sp', w', los', pm', fins.
  split; [done|]. split; [done|apply Hed].
Qed.

Lemma evacuation_keeps_heap_witness : let _ : Cfg := false in
  ∃ (g : gmap Z Z) visited self' sp' w' los' pm' fins,
    collect pair_rtti (λ _, 0) 3 move_collector ImmixEvacCollection [] [16] move_space move_world LOS.new ∅ true =
      Ok (visited, self', sp', w', los', pm', fins) ∧
    is_Some (g !! 32928) ∧ ∀ p x, g !! 32928 = Some p → p <= x < p + 16 → ¬ free_space sp' w' x.
Proof.
  intros cfg. destruct (evacuation_keeps_heap pair_rtti true move_objs move_collector move_space move_world (λ _, 0) LOS.new ∅ [] [16] 3 move_evacuable)
    as (g & visited & self' & sp' & w' & los' & pm' & fins & E & Hm & _).
  exists g, visited, self', sp', w', los', pm', fins. split; [exact E|]. split.
  - apply (mh_reached _ _ _ _ _ _ _ _ _ _ Hm). split; [right; left|apply move_reachable].
  - intros p x Hg Hx. apply (mh_free _ _ _ _ _ _ _ _ _ _ Hm 32928 p x Hg); [reflexivity|exact Hx].
Defined.

(** C22: Evacuation empties blocks: a block of the collection in which no reachable object
    stays is available to the block allocator, or is headroom, after an evacuating
    [Collector::collect].
    The conditions, [evacuable]: an object that may move (not pinned, in a candidate block)
    is the object of at most one precise root, and if of none then at most one reference
    slot of the heap refers to it; types do not depend on the address of their objects, and
    visit each slot once, a multiple of 8 bytes into the object, all of them referring to
    objects; conservative roots are pinned; precise roots are given once, lie outside the
    heap and refer to objects; the cells of large objects are among the objects; the space
    is collected as [collect_internal] leaves it, with its allocators emptied; and the fuel
    allows one round per root and per reference. *)
Theorem evacuation_frees_blocks `{Cfg} rtti_of next objs self sp w freed_size los pm roots precise fuel :
  evacuable rtti_of next objs self sp w freed_size los pm roots precise fuel →
  ∃ g visited self' sp' w' los' pm' fins,
    collect rtti_of freed_size fuel self ImmixEvacCollection roots precise sp w los pm next =
      Ok (visited, self', sp', w', los', pm', fins) ∧ moved_heap rtti_of next objs sp w roots precise g sp' w' ∧
    ∀ b, b ∈ all_blocks self → (∀ o, Block.get_block_ptr o = b → g !! o ≠ Some o) →
      BA.available (w_ba w') b ∨ b ∈ v_pool (evac_v sp' w').
Proof.
  intros Hev. destruct (evac_collect_ok rtti_of next objs self sp w freed_size los pm roots precise fuel Hev)
    as (g & v & sp2 & w2 & self' & sp' & w' & los' & pm' & fins & E & _ & Hed & Hrc & Hm).
  exists g, v, self', sp', w', los', pm', fins. split; [exact E|]. split; [exact Hm|]. intros b Hb Hno.
  eapply emptied_freed; [exact Hed|exact Hrc|done|].
  intros o p Hgo _ Eb. destruct (mh_place _ _ _ _ _ _ _ _ _ _ Hm o p Hgo) as [->|[_ Hp]]; [by apply (Hno o)|].
  destruct (ev_collecting _ _ _ _ _ _ _ _ _ _ _ _ Hev) as [_ _ _ _ _ He _]. apply (He b Hb). rewrite <- Eb.
  by apply evac_blocks_view.
Qed.

Lemma evacuation_frees_blocks_witness : let _ : Cfg := false in
  ∃ visited self' sp' w' los' pm' fins,
    collect pair_rtti (λ _, 0) 3 move_collector ImmixEvacCollection [] [16] move_space move_world LOS.new ∅ true =
      Ok (visited, self', sp', w', los', pm', fins) ∧
    (BA.available (w_ba w') 32768 ∨ 32768 ∈ v_pool (evac_v sp' w')).
Proof.
  intros cfg. destruct (evacuation_frees_blocks pair_rtti true move_objs move_collector move_space move_world (λ _, 0) LOS.new ∅ [] [16] 3 move_evacuable)
    as (g & visited & self' & sp' & w' & los' & pm' & fins & E & Hm & Hf).
  exists visited, self', sp', w', los', pm', fins. split; [exact E|]. apply Hf; [left|]. intros o Ho Hg.
  pose proof (mh_roots _ _ _ _ _ _ _ _ _ _ Hm 16 ltac:(left)) as H1. change (word (w_store move_world) 16) with 32896 in H1.
  assert (Hs : 32904 ∈ slots pair_rtti move_world 32896) by (vm_compute; left).
  pose proof (mh_refs _ _ _ _ _ _ _ _ _ _ Hm 32896 _ 32904 H1 ltac:(reflexivity) Hs) as H2.
  change (word (w_store move_world) 32904) with 32928 in H2.
  assert (Eq : ('(_, _, _, w', _, _, _) ← collect pair_rtti (λ _, 0) 3 move_collector ImmixEvacCollection [] [16] move_space move_world LOS.new ∅ true;
      Ok (word (w_store w') 16, word (w_store w') (word (w_store w') 16 + (32904 - 32896)))) =
    Ok (word (w_store w') 16, word (w_store w') (word (w_store w') 16 + (32904 - 32896)))) by (rewrite E; reflexivity).
  assert (Eq' : (word (w_store w') 16, word (w_store w') (word (w_store w') 16 + (32904 - 32896))) = (65664, 65680)).
  { clear - Eq. revert Eq. generalize (word (w_store w') 16, word (w_store w') (word (w_store w') 16 + (32904 - 32896))).
    intros x Eq. vm_compute in Eq. injection Eq as <-. reflexivity. }
  injection Eq' as E1 E2. rewrite E2 in H2. rewrite E1 in H1.
  assert (Hin : is_Some (g !! o)) by (by rewrite Hg). apply (mh_reached _ _ _ _ _ _ _ _ _ _ Hm) in Hin as [Hin (r & Hr & Hrtc)].
  move_cases Hin; [congruence..|]. clear - Hr Hrtc. change (r ∈ [32896]) in Hr. apply list_elem_of_singleton in Hr as ->.
  assert (K1 : kids pair_rtti move_world 32896 = [32928]) by (vm_compute; reflexivity).
  assert (K2 : kids pair_rtti move_world 32928 = []) by (vm_compute; reflexivity).
  apply rtc_inv in Hrtc as [?|(y & Hxy & Hyz)]; [discriminate|]. unfold edge in Hxy. rewrite K1 in Hxy. apply list_elem_of_singleton in Hxy as ->.
  apply rtc_inv in Hyz as [?|(y & Hxy' & _)]; [discriminate|]. unfold edge in Hxy'. rewrite K2 in Hxy'. by apply not_elem_of_nil in Hxy'.
Defined.
