(* ===== verification/Immix.v ===== *)
(** * lib.rs: the heap as a whole

    [Immix] is the structure behind the global [SPACE]: the immix space, the large
    object space, the collector, the bytes allocated since the last collection and
    the threshold that triggers one.  [collect_roots] is the conservative scan of a
    memory range, [collect_internal] a whole collection with its roots and
    finalizers, [allocate] the entry of the mutator and [immix_init] the start.

    What the program gets from outside is an argument: the root callbacks of the
    user, the run-time type information, the stack pointer, the results of [malloc]
    and [mmap], the page size, and in a build with the feature [threaded] whether
    this thread won the race to start the collection.  [fuel] bounds the marking
    loop.  Timers, statistics and the text they print are left out, with the
    exception of the subtraction the verbose statistics make. *)

From stdpp Require Import base numbers list list_numbers gmap.
From Stdlib Require Import ZArith Lia.
From S2P Require Import Prelude Util Constants Bitmap Block SpaceBitmap Object BlockAllocator.
From S2P Require Import Allocation AllocatorLaws Allocators ImmixSpace LargeObjectSpace Collector.
Local Open Scope Z_scope.

(** ** Floating point

    The two thresholds are computed in [f64].  The operands are natural numbers, so
    a value is a natural number and rounding to nearest, ties to even, keeps its 53
    leading bits. *)

Module F64.

Definition round53 (n : Z) : Z :=
  if decide (n < 2 ^ 53) then n
  else
    let e := Z.log2 n - 52 in
    let q := n / 2 ^ e in
    let r := n mod 2 ^ e in
    (if decide (2 ^ (e - 1) < r ∨ (r = 2 ^ (e - 1) ∧ Z.odd q = true)) then q + 1 else q) * 2 ^ e.

(** [x as usize] saturates. *)
Definition as_usize (n : Z) : Z := Z.min n (2 ^ 64 - 1).

(** [(n as f64 * 1.75) as usize]; the product is 7 quarters of the converted value. *)
Definition times_1_75 (n : Z) : Z := as_usize (round53 (7 * round53 n) / 4).

(** [((30.0 * n as f64) / 100.0).floor() as usize].  The quotient is computed with
    120 further bits and a last bit that says whether a remainder was left, so that
    its rounding to 53 bits is the rounding of the exact quotient. *)
Definition percent_30 (n : Z) : Z :=
  let x := round53 (30 * round53 n) in
  let y := 2 * (x * 2 ^ 120 / 100) + (if decide (x * 2 ^ 120 mod 100 = 0) then 0 else 1) in
  as_usize (round53 y / 2 ^ 121).

Lemma round53_lower n : 0 <= n → 15 * n <= 16 * round53 n.
Proof.
  intros Hn. unfold round53. case_decide as C; [lia|].
  pose proof (Z.log2_spec n ltac:(lia)) as [Hlo _]. pose proof (Z.log2_le_mono (2 ^ 53) n ltac:(lia)) as Hl.
  rewrite Z.log2_pow2 in Hl by lia. set (e := Z.log2 n - 52) in *.
  assert (E : 2 ^ Z.log2 n = 2 ^ e * 2 ^ 52) by (rewrite <- Z.pow_add_r by lia; f_equal; lia).
  pose proof (Z.pow_pos_nonneg 2 e ltac:(lia) ltac:(lia)) as Hp.
  pose proof (Z.div_mod n (2 ^ e) ltac:(lia)) as Hd. pose proof (Z.mod_pos_bound n (2 ^ e) Hp) as Hm.
  set (q := n / 2 ^ e) in *. set (p := 2 ^ e) in *. case_decide; nia.
Qed.

(** The factor 1.75 always leaves room. *)
Lemma times_1_75_grows n : 2 <= n < 2 ^ 63 → n < times_1_75 n.
Proof.
  intros Hn. unfold times_1_75, as_usize. pose proof (round53_lower n ltac:(lia)).
  pose proof (round53_lower (7 * round53 n) ltac:(lia)).
  assert (n + 1 <= round53 (7 * round53 n) / 4); [|lia]. apply Z.div_le_lower_bound; lia.
Qed.

End F64.

(** ** The heap *)

Inductive GcStats : Type := StatsNone | Summary | Verbose.

#[global] Instance GcStats_eq_dec : EqDecision GcStats.
Proof. solve_decision. Defined.

(** A root callback gets its data pointer, and what it does with the two tracers is
    the result: the slots passed to [trace] and the ranges passed to [add]. *)
Abbreviation CollectRootsCallback := (Z → mem → list Z * list (Z * Z)).

(** [immix_noop_callback] *)
Definition immix_noop_callback : CollectRootsCallback := λ _ _, ([], []).

Record Immix : Type := mkImmix {
  im_los : LargeObjectSpace;
  im_immix : ImmixSpace;
  im_stack_bottom : Z;
  im_gc_stats : GcStats;
  im_stack_end : Z;
  im_allocated : Z;
  im_threshold : Z;
  im_live_mark : bool;
  im_callbacks : list (CollectRootsCallback * Z);
  im_collector : Collector;
  im_to_finalize : list Z
}.

(** A registered thread: the fields of [TLSState] a collection uses.  The blocks of
    the thread that collects are in the [World]. *)
Record Thread : Type := mkThread {
  th_collecting : bool;
  th_tls : TLSBlocks;
  th_stack_bottom : Z;
  th_stack_end : Z
}.

Module ImmixHeap.

(** ** Roots *)

Section Roots.
Context (sp : ImmixSpace) (los : LargeObjectSpace) (pm : pmem).

Definition pin_at (w : World) (p : Z) : R World :=
  h ← RawGc.pin (word (w_store w) p); Ok (set_store w (set_word (w_store w) p h)).
Definition unpin_at (w : World) (p : Z) : R World :=
  h ← RawGc.unpin (word (w_store w) p); Ok (set_store w (set_word (w_store w) p h)).

(** [if let Some(ptr) = immix.filter(ptr)]: pin the object and push it. *)
Definition filter_root (st : list Z * World) (ptr : Z) : R (list Z * World) :=
  let '(into, w) := st in
  r ← ImmixSpaceM.filter sp w ptr;
  match r with
  | Some p => w' ← pin_at w p; Ok (into ++ [p], w')
  | None => Ok st
  end.

(** The body of the loop for the word at [scan]. *)
Definition scan_word (st : list Z * World) (scan : Z) : R (list Z * World) :=
  let '(into, w) := st in
  let ptr := word (w_store w) scan in
  if decide (ptr = 0) then Ok st
  else
    large ← (if Precise.is_precise ptr then LOS.contains los pm ptr else Ok false);
    if large : bool then w' ← pin_at w ptr; Ok (into ++ [ptr], w')
    else
      st' ← filter_root st ptr;
      filter_root st' (trunc 64 (ptr - 8)).

(** The words the loop visits: [scan], [scan + 8], ... below [end_]. *)
Definition scan_addresses (scan end_ : Z) : list Z :=
  (λ i, scan + 8 * i) <$> range 0 (Rounding.ceil_div (end_ - scan) 8).

Definition collect_roots (from to : Z) (st : list Z * World) : R (list Z * World) :=
  scan ← Rounding.align_usize from 16;
  end_ ← Rounding.align_usize to 16;
  if decide (scan = 0 ∨ end_ = 0) then Ok st
  else
    let '(scan, end_) := if decide (end_ < scan) then (end_, scan) else (scan, end_) in
    for_each scan_word (scan_addresses scan end_) st.

End Roots.

(** The loop over [collect_roots_callback]: precise roots and conservative ranges. *)
Definition callback_roots (m : mem) (callbacks : list (CollectRootsCallback * Z)) : list Z * list (Z * Z) :=
  foldl (λ '(precise, conservative) '(callback, data),
      let '(slots, ranges) := callback data m in
      (precise ++ slots, foldl (λ c '(a, b), ConservativeTracer_add c a b) conservative ranges))
    ([], []) callbacks.

(** [thread.current_block.take()] and [thread.current_ovf_block.take()]. *)
Definition tls_blocks (t : TLSBlocks) : list Z :=
  ((λ b : BlockTuple, b.1.1) <$> option_list (tls_current_block t)) ++
  ((λ b : BlockTuple, b.1.1) <$> option_list (tls_current_ovf_block t)).
Definition no_blocks : TLSBlocks := mkTLS None None.

(** The body of the loop over the registered threads. *)
Definition thread_roots sp los pm (st : list Z * World * list Z * list Thread) (t : Thread)
    : R (list Z * World * list Z * list Thread) :=
  let '(roots, w, blocks, threads) := st in
  let '(taken, w1) := if th_collecting t then (tls_blocks (w_tls w), mkWorld (w_ba w) (w_store w) no_blocks)
                      else (tls_blocks (th_tls t), w) in
  '(roots', w') ← collect_roots sp los pm (th_stack_bottom t) (th_stack_end t) (roots, w1);
  Ok (roots', w', blocks ++ taken,
      threads ++ [mkThread (th_collecting t) no_blocks (th_stack_bottom t) (th_stack_end t)]).

(** ** Collection *)

Section Collection.
Context `{Cfg} (rtti_of : Z → GCRTTI) (freed_size : Z → Z).

(** The walk over [to_finalize]: the elements kept, and the finalizers called. *)
Fixpoint finalize (s : Store) (live_mark : bool) (l : list Z) : R (list Z * list Z) :=
  match l with
  | [] => Ok ([], [])
  | elem :: l' =>
      m ← RawGc.get_mark (word s elem);
      dead ← (if decide (m = live_mark) then v ← RawGc.vtable (word s elem); Ok (Some (rtti_of v)) else Ok None);
      '(kept, fins) ← finalize s live_mark l';
      Ok (match dead with
          | Some t => if needs_finalization t then (kept, if finalizer t then elem :: fins else fins)
                      else (elem :: kept, fins)
          | None => (elem :: kept, fins)
          end)
  end.

Definition next_threshold (threshold visited : Z) : Z :=
  if decide (threshold <= visited) then F64.times_1_75 visited else threshold.

(** The part of [collect_internal] behind the scans, from [extend_all_blocks] on: [sp1]
    is the space without its blocks, [blocks] are those and the ones of the threads,
    [roots] the pinned objects.  The finalizers called: those of large objects, then
    those of [to_finalize]. *)
Definition collect_rooted (fuel : nat) (self : Immix) (pm : pmem) (evacuation emergency : bool)
    (precise_roots : list Z) (sp1 : ImmixSpace) (blocks roots : list Z) (w3 : World)
    : R (Immix * World * pmem * list Z) :=
  let collector1 := CollectorM.extend_all_blocks (im_collector self) blocks in
  available ← BA.available_blocks (w_ba w3);
  total ← BA.total_blocks (w_ba w3);
  '(collection_type, s4) ←
    CollectorM.prepare_collection collector1 (w_store w3) evacuation available
      (ImmixSpaceM.evac_headroom sp1) total emergency;
  '(visited, collector2, sp2, w5, los', pm', large_fins) ←
    CollectorM.collect rtti_of freed_size fuel collector1 collection_type roots precise_roots sp1
      (set_store w3 s4) (im_los self) pm (negb (im_live_mark self));
  w6 ← for_each unpin_at roots w5;
  '(to_finalize, fins) ← finalize (w_store w6) (im_live_mark self) (im_to_finalize self);
  let mark := negb (im_live_mark self) in
  (if decide (im_gc_stats self = Verbose) then u_sub (im_allocated self) visited;; Ok () else Ok ());;
  Ok (mkImmix (mkLOS (allocations los') mark) (ImmixSpaceM.set_current_live_mark sp2 mark)
        (im_stack_bottom self) (im_gc_stats self) (im_stack_end self)
        visited (next_threshold (im_threshold self) visited) mark
        (im_callbacks self) collector2 to_finalize,
      w6, pm', large_fins ++ fins).

(** What [collect_internal] does between the handshakes with the other threads, with
    the finalizers it calls. *)
Definition collect_internal (fuel : nat) (started : bool) (stack_pointer : Z) (threads : list Thread)
    (self : Immix) (w : World) (pm : pmem) (evacuation emergency : bool)
    : R (Immix * World * pmem * list Thread * list Z) :=
  let threads0 :=
    (λ t, if th_collecting t then mkThread true (th_tls t) (th_stack_bottom t) stack_pointer else t) <$> threads in
  if threaded && negb started then Ok (self, w, pm, threads0, [])
  else
    let '(precise_roots, conservative) := callback_roots (words (w_store w)) (im_callbacks self) in
    let '(blocks, sp1) := ImmixSpaceM.get_all_blocks (im_immix self) in
    '(roots1, w1, all_blocks, threads') ←
      (if threaded then for_each (thread_roots sp1 (im_los self) pm) threads0 ([], w, blocks, [])
       else Ok ([], w, blocks, threads));
    '(roots2, w2) ← for_each (λ st '(bottom, end_), collect_roots sp1 (im_los self) pm bottom end_ st) conservative (roots1, w1);
    '(roots, w3) ←
      (if threaded then Ok (roots2, w2)
       else collect_roots sp1 (im_los self) pm (im_stack_bottom self) (im_stack_end self) (roots2, w2));
    '(self', w', pm', fins) ←
      collect_rooted fuel self pm evacuation emergency precise_roots sp1 all_blocks roots w3;
    Ok (self', w', pm', threads', fins).

(** ** Allocation *)

(** The inputs of one [allocate] from outside: the stack pointer, whether each of its
    two collections is this thread's to do, and the address [malloc] would return. *)
Record AllocEnv : Type := mkEnv {
  e_sp : Z;
  e_started1 : bool;
  e_started2 : bool;
  e_malloc : Z
}.

Definition set_stack_end (self : Immix) (sp : Z) : Immix :=
  mkImmix (im_los self) (im_immix self) (im_stack_bottom self) (im_gc_stats self) sp (im_allocated self)
    (im_threshold self) (im_live_mark self) (im_callbacks self) (im_collector self) (im_to_finalize self).
Definition set_los (self : Immix) (l : LargeObjectSpace) : Immix :=
  mkImmix l (im_immix self) (im_stack_bottom self) (im_gc_stats self) (im_stack_end self) (im_allocated self)
    (im_threshold self) (im_live_mark self) (im_callbacks self) (im_collector self) (im_to_finalize self).
Definition set_immix (self : Immix) (sp : ImmixSpace) : Immix :=
  mkImmix (im_los self) sp (im_stack_bottom self) (im_gc_stats self) (im_stack_end self) (im_allocated self)
    (im_threshold self) (im_live_mark self) (im_callbacks self) (im_collector self) (im_to_finalize self).

(** The collected heap, the new object's address (0 is null), the finalizers that ran. *)
Definition obtain (fuel : nat) (env : AllocEnv) (threads : list Thread) (self : Immix) (w : World) (pm : pmem)
    (size rtti : Z) : R (Z * Immix * World * pmem * list Thread * list Z) :=
  if decide (LARGE_OBJECT <= size) then
    '(p, los', pm', m') ← LOS.alloc (im_los self) pm (words (w_store w)) (e_malloc env) size rtti;
    Ok (p, set_los self los', set_store w (mkStore (headers (w_store w)) m'), pm', threads, [])
  else
    '(addr, sp1, w1) ← ImmixSpaceM.allocate (im_immix self) w size;
    if Address.is_null addr then
      '(self2, w2, pm2, threads2, fins) ←
        collect_internal fuel (e_started2 env) (e_sp env) threads (set_immix self sp1) w1 pm true true;
      '(addr2, sp3, w3) ← ImmixSpaceM.allocate (im_immix self2) w2 size;
      Ok (addr2, set_immix self2 sp3, w3, pm2, threads2, fins)
    else Ok (addr, set_immix self sp1, w1, pm, threads, []).

(** What [allocate] does with the memory it got: count it, write the header, mark it
    as live and register the object for finalization. *)
Definition finish (self : Immix) (w : World) (ptr size rtti : Z) : R (Immix * World) :=
  allocated' ← (if threaded then Ok (trunc 64 (im_allocated self + size)) else u_add 64 (im_allocated self) size);
  '(_, h) ← RawGc.mark (RawGc.new rtti) (im_live_mark self);
  v ← RawGc.vtable h;
  Ok (mkImmix (im_los self) (im_immix self) (im_stack_bottom self) (im_gc_stats self) (im_stack_end self)
        allocated' (im_threshold self) (im_live_mark self) (im_callbacks self) (im_collector self)
        (if needs_finalization (rtti_of v) && bool_decide (size < LARGE_OBJECT)
         then im_to_finalize self ++ [ptr] else im_to_finalize self),
      set_store w (set_word (w_store w) ptr h)).

Definition allocate (fuel : nat) (env : AllocEnv) (threads : list Thread) (self : Immix) (w : World) (pm : pmem)
    (size rtti : Z) : R (Z * Immix * World * pmem * list Thread * list Z) :=
  let self0 := set_stack_end self (e_sp env) in
  '(self1, w1, pm1, threads1, fins1) ←
    (if decide (im_threshold self0 <= im_allocated self0) then
       collect_internal fuel (e_started1 env) (e_sp env) threads self0 w pm false true
     else Ok (self0, w, pm, threads, []));
  size ← Rounding.align_usize size 16;
  '(ptr, self2, w2, pm2, threads2, fins2) ← obtain fuel env threads1 self1 w1 pm1 size rtti;
  if decide (ptr = 0 ∧ size < LARGE_OBJECT) then Ok (0, self2, w2, pm2, threads2, fins1 ++ fins2)
  else
    '(self3, w3) ← finish self2 w2 ptr size rtti;
    Ok (ptr, self3, w3, pm2, threads2, fins1 ++ fins2).

(** [immix_collect]. *)
Definition immix_collect (fuel : nat) (started : bool) (stack_pointer : Z) (threads : list Thread)
    (self : Immix) (w : World) (pm : pmem) (move_objects : bool)
    : R (Immix * World * pmem * list Thread * list Z) :=
  collect_internal fuel started stack_pointer threads self w pm move_objects false.

(** ** Start *)

Definition new (map pagesize size threshold : Z) : R (Immix * World) :=
  n ← u_add 64 size BLOCK_SIZE;
  total ← Rounding.align_usize n pagesize;
  '(sp, w) ← ImmixSpaceM.new map total;
  Ok (mkImmix LOS.new sp 0 StatsNone 0 0 threshold false [] CollectorM.new [], w).

(** [immix_init] when it runs first; [origin] is the origin of the stack. *)
Definition immix_init (map pagesize origin heap_size threshold : Z) (callback : CollectRootsCallback) (data : Z)
    : R (Immix * World) :=
  let '(heap_size, threshold) :=
    if decide (heap_size = 0 ∨ heap_size <= 512 * 1024) then (16 * BLOCK_SIZE, 100 * 1024)
    else if decide (threshold = 0) then (heap_size, F64.percent_30 heap_size)
    else (heap_size, threshold) in
  '(space, w) ← new map pagesize heap_size threshold;
  Ok (mkImmix (im_los space) (im_immix space) (if threaded then im_stack_bottom space else origin)
        (im_gc_stats space) (im_stack_end space) (im_allocated space) (im_threshold space)
        (im_live_mark space) (im_callbacks space ++ [(callback, data)]) (im_collector space) (im_to_finalize space), w).

(** [immix_register_ongc_callback]. *)
Definition immix_register_ongc_callback (self : Immix) (callback : CollectRootsCallback) (data : Z) : Immix :=
  mkImmix (im_los self) (im_immix self) (im_stack_bottom self) (im_gc_stats self) (im_stack_end self)
    (im_allocated self) (im_threshold self) (im_live_mark self) (im_callbacks self ++ [(callback, data)])
    (im_collector self) (im_to_finalize self).

(** [immix_enable_stats] *)
Definition immix_enable_stats (self : Immix) (val : GcStats) : Immix :=
  mkImmix (im_los self) (im_immix self) (im_stack_bottom self) val (im_stack_end self) (im_allocated self)
    (im_threshold self) (im_live_mark self) (im_callbacks self) (im_collector self) (im_to_finalize self).

End Collection.
End ImmixHeap.
