(* ===== verification/Roots.v ===== *)
(** * Conservative roots

    [Immix::collect_roots] over a range of words: what it takes for roots, and that
    it pins exactly those. *)

From stdpp Require Import base numbers list list_numbers gmap.
From Stdlib Require Import ZArith Lia.
From S2P Require Import Prelude Util Constants Bitmap Block SpaceBitmap Object BlockAllocator.
From S2P Require Import Allocation AllocatorLaws Allocators ImmixSpace LargeObjectSpace Collector Sweep Marking Collection Immix.
Import ImmixHeap.
Import ImmixSpaceM(space_ok(..), so_world, so_bitmap).
Local Open Scope Z_scope.

Lemma set_store_eta w : set_store w (mkStore (headers (w_store w)) (words (w_store w))) = w.
Proof. by destruct w as [? [] ?]. Qed.

Section Roots.
Context `{Cfg} (objs : list Z) (sp : ImmixSpace) (los : LargeObjectSpace) (pm : pmem) (w0 : World).

(** An address the bitmap has as the start of an object. *)
Definition object_start (a : Z) : Prop :=
  a mod 16 = 0 ∧ mm_start (mmap (w_ba w0)) < a < data_bound (w_ba w0) ∧
  Space.marked (bitmap sp) (Space.granule 16 (bitmap sp) a) = true.

#[global] Instance object_start_dec a : Decision (object_start a).
Proof. unfold object_start. apply _. Defined.

(** The word [v] makes the object [o] a root: it is the cell of a large object, or
    the address of an immix object or of its data, 8 bytes behind the header. *)
Definition refers (v o : Z) : Prop :=
  (o = v ∧ Precise.from_cell v ∈ allocations los) ∨ (object_start o ∧ (v = o ∨ v = o + 8)).

(** What the scan relies on. *)
Record scannable (addrs : list Z) : Prop := {
  sc_space : space_ok sp w0;
  sc_los : LOS.los_wf los pm (words (w_store w0)) ∧ LOS.sorted (allocations los);
  sc_large : ∀ p, p ∈ allocations los →
    0 < p ∧ p mod 16 = 0 ∧ Precise.cell p ∈ objs ∧ ¬ object_start (Precise.cell p - 8);
  sc_starts : ∀ a, object_start a → a ∈ objs;
  sc_headers : ∀ o, o ∈ objs → header_wf (word (w_store w0) o);
  sc_words : ∀ a, a ∈ addrs → (a ∉ objs) ∧ in_width 64 (word (w_store w0) a) ∧
    word (w_store w0) a ≠ data_bound (w_ba w0) ∧ word (w_store w0) a ≠ data_bound (w_ba w0) + 8
}.

(** The memory with the objects of [roots] pinned. *)
Record pinned (roots : list Z) (w : World) : Prop := {
  pi_world : w = set_store w0 (mkStore (headers (w_store w0)) (words (w_store w)));
  pi_same : same_outside objs (words (w_store w)) (words (w_store w0));
  pi_headers : ∀ o, o ∈ objs → header_wf (word (w_store w) o) ∧
    let d := decode (word (w_store w0) o) in
    decode (word (w_store w) o) =
      mkHeader (hd_mark d) (hd_forwarded d) (hd_pinned d || bool_decide (o ∈ roots)) (hd_pointer d)
}.

Lemma filter_start addrs w a : scannable addrs → w_ba w = w_ba w0 → 0 <= a → a ≠ data_bound (w_ba w0) →
  ImmixSpaceM.filter sp w a = Ok (if decide (object_start a) then Some a else None).
Proof.
  intros [Hok _ _ _ _ _] Eb Ha Hne. pose proof (so_world _ _ Hok) as [[_ [_ Hb] _ _ _] _ _].
  assert (E : ImmixSpaceM.filter sp w a = ImmixSpaceM.filter sp w0 a) by (unfold ImmixSpaceM.filter; by rewrite Eb).
  rewrite E. destruct (decide (a < 2 ^ 63)) as [C|C].
  - rewrite ImmixSpaceM.filter_ok by done. f_equal.
  - rewrite decide_False by (unfold object_start; lia). unfold ImmixSpaceM.filter, BA.is_in_space.
    case_decide; [done|]. by rewrite (bool_decide_eq_false_2 (a <= data_bound (w_ba w0))), andb_false_r by lia.
Qed.

Lemma pin_at_ok addrs roots w o : scannable addrs → pinned roots w → o ∈ objs →
  ∃ w', pin_at w o = Ok w' ∧ pinned (roots ++ [o]) w'.
Proof.
  intros Hsc [Hw Hs Hh] Ho. destruct (Hh o Ho) as [Hwf Hd].
  destruct (HeaderFacts.pin_ok _ Hwf) as (h & E & Hh' & Hd').
  unfold pin_at. rewrite E, bind_Ok. eexists. split; [done|]. constructor.
  - cbn. rewrite Hw. done.
  - intros a Ha. cbn. rewrite <- Hs by done. change (word (set_word (w_store w) o h) a = word (w_store w) a).
    rewrite word_set, decide_False; [done|]. by intros ->.
  - intros x Hx. cbn [set_store w_store]. rewrite word_set. destruct (decide (x = o)) as [->|Hne].
    + split; [done|]. rewrite Hd', Hd. cbn. rewrite (bool_decide_eq_true_2 (o ∈ roots ++ [o])), orb_true_r; [done|].
      apply elem_of_app. right. left.
    + destruct (Hh x Hx) as [Hx1 Hx2]. split; [done|]. rewrite Hx2. cbn. do 2 f_equal. apply bool_decide_ext.
      rewrite elem_of_app, list_elem_of_singleton. tauto.
Qed.

(** One attempt to take [a] for the start of an object. *)
Lemma filter_root_ok addrs roots w a : scannable addrs → pinned roots w → 0 <= a → a ≠ data_bound (w_ba w0) →
  let found := if decide (object_start a) then [a] else [] in
  ∃ w', filter_root sp (roots, w) a = Ok (roots ++ found, w') ∧ pinned (roots ++ found) w'.
Proof.
  intros Hsc Hp Ha Hne found. unfold filter_root.
  assert (Eb : w_ba w = w_ba w0) by (rewrite (pi_world _ _ Hp); done).
  rewrite (filter_start addrs w a Hsc Eb Ha Hne), bind_Ok. unfold found. destruct (decide (object_start a)) as [C|C].
  - destruct (pin_at_ok addrs roots w a Hsc Hp) as (w' & -> & Hp'); [by apply (sc_starts _ Hsc)|]. rewrite bind_Ok. by exists w'.
  - exists w. by rewrite app_nil_r.
Qed.

(** The roots a word stands for. *)
Definition found_in (v : Z) : list Z :=
  if decide (v = 0) then []
  else if decide (Precise.from_cell v ∈ allocations los) then [v]
  else (if decide (object_start v) then [v] else []) ++
       (if decide (object_start (trunc 64 (v - 8))) then [trunc 64 (v - 8)] else []).

Lemma scan_word_ok addrs roots w a : scannable addrs → pinned roots w → a ∈ addrs →
  let found := found_in (word (w_store w0) a) in
  ∃ w', scan_word sp los pm (roots, w) a = Ok (roots ++ found, w') ∧ pinned (roots ++ found) w'.
Proof.
  intros Hsc Hp Ha found. destruct (sc_words _ Hsc a Ha) as (Hna & Hv & Hb1 & Hb2).
  assert (Ev : word (w_store w) a = word (w_store w0) a) by (by apply (pi_same _ _ Hp)).
  unfold scan_word. rewrite Ev. unfold found, found_in. set (v := word (w_store w0) a) in *.
  destruct (decide (v = 0)) as [C0|C0]; [exists w; by rewrite app_nil_r|].
  destruct (sc_los _ Hsc) as [Hlw Hls]. destruct (LOS.contains_ok los pm _ v Hlw Hls) as (r & Er & Hr).
  assert (El : (if Precise.is_precise v then LOS.contains los pm v else Ok false) =
    Ok (bool_decide (Precise.from_cell v ∈ allocations los))).
  { destruct (Precise.is_precise v) eqn:Ep.
    - rewrite Er. f_equal. destruct r; symmetry; [apply bool_decide_eq_true; tauto|].
      apply bool_decide_eq_false. intros C%Hr. done.
    - f_equal. symmetry. apply bool_decide_eq_false. intros C. destruct (sc_large _ Hsc _ C) as (_ & Hm & _).
      unfold Precise.from_cell in Hm. rewrite LOS.header_size_eq in Hm.
      rewrite LOS.land_8 in Ep; [done|]. Z.div_mod_to_equations. lia. }
  rewrite El, bind_Ok. destruct (decide (Precise.from_cell v ∈ allocations los)) as [C|C].
  - rewrite (bool_decide_eq_true_2 _ C). destruct (sc_large _ Hsc _ C) as (_ & _ & Ho & _).
    unfold Precise.from_cell, Precise.cell in Ho. replace (v - _ + _) with v in Ho by lia.
    destruct (pin_at_ok addrs roots w v Hsc Hp Ho) as (w' & -> & Hp'). rewrite bind_Ok. by exists w'.
  - rewrite (bool_decide_eq_false_2 _ C).
    destruct (filter_root_ok addrs roots w v Hsc Hp) as (w1 & -> & Hp1); [apply Hv|done|]. rewrite bind_Ok.
    pose proof (so_world _ _ (sc_space _ Hsc)) as [[Hst [_ Hbd] _ _ _] _ _].
    assert (Et : trunc 64 (v - 8) = v - 8 ∨ 2 ^ 63 <= trunc 64 (v - 8)).
    { unfold trunc, in_width in *. destruct (decide (8 <= v)); [left; apply Z.mod_small; lia|right].
      rewrite <- (Z.mod_unique (v - 8) (2 ^ 64) (-1) (2 ^ 64 + v - 8)); lia. }
    destruct (filter_root_ok addrs _ w1 (trunc 64 (v - 8)) Hsc Hp1) as (w2 & -> & Hp2).
    + apply Z.mod_pos_bound. lia.
    + lia.
    + exists w2. by rewrite <- app_assoc in *.
Qed.

Lemma scan_ok addrs l roots w : scannable addrs → pinned roots w → (∀ a, a ∈ l → a ∈ addrs) →
  let found := l ≫= (λ a, found_in (word (w_store w0) a)) in
  ∃ w', for_each (scan_word sp los pm) l (roots, w) = Ok (roots ++ found, w') ∧ pinned (roots ++ found) w'.
Proof.
  intros Hsc. revert roots w. induction l as [|a l IH]; intros roots w Hp Hl found.
  { exists w. unfold found. cbn. by rewrite app_nil_r. }
  cbn [for_each]. destruct (scan_word_ok addrs roots w a Hsc Hp) as (w1 & -> & Hp1); [apply Hl; left|]. rewrite bind_Ok.
  destruct (IH _ w1 Hp1) as (w2 & -> & Hp2); [intros; apply Hl; by right|].
  exists w2. unfold found. rewrite bind_cons, app_assoc. done.
Qed.

Lemma found_in_refers addrs v o : scannable addrs → in_width 64 v → o ∈ found_in v ↔ refers v o.
Proof.
  intros Hsc Hv. pose proof (so_world _ _ (sc_space _ Hsc)) as [[Hst [_ Hbd] _ _ _] _ _].
  assert (Hcell : Precise.from_cell v ∈ allocations los → 24 < v ∧ ¬ object_start (v - 8) ∧ v mod 16 = 8).
  { intros C. destruct (sc_large _ Hsc _ C) as (Hp & Hm & _ & Hn). unfold Precise.from_cell, Precise.cell in *.
    rewrite LOS.header_size_eq in *. replace (v - 24 + 24) with v in Hn by lia.
    split_and!; [lia|done|Z.div_mod_to_equations; lia]. }
  unfold found_in, refers. destruct (decide (v = 0)) as [->|C0].
  - split; [intros Hx; by apply not_elem_of_nil in Hx|]. intros [[_ Hx]|[(_ & Hx & _) Hy]]; [apply Hcell in Hx|]; lia.
  - destruct (decide (Precise.from_cell v ∈ allocations los)) as [C|C].
    + rewrite list_elem_of_singleton. split; [intros ->; by left|]. intros [[-> _]|[Hs [->| ->]]]; [done|done|].
      exfalso. destruct (Hcell C) as (_ & Hn & _). apply Hn. by replace (o + 8 - 8) with o by lia.
    + assert (Et : object_start (trunc 64 (v - 8)) → trunc 64 (v - 8) = v - 8).
      { intros (_ & Hx & _). unfold trunc, in_width in *. destruct (decide (8 <= v)); [apply Z.mod_small; lia|].
        rewrite <- (Z.mod_unique (v - 8) (2 ^ 64) (-1) (2 ^ 64 + v - 8)) in Hx; lia. }
      assert (Et' : ∀ x, object_start x → v = x + 8 → trunc 64 (v - 8) = x).
      { intros x (_ & Hx & _) ->. unfold trunc, in_width in *. rewrite Z.mod_small; lia. }
      rewrite elem_of_app. split.
      * intros [Hx|Hx].
        -- destruct (decide (object_start v)); [|by apply not_elem_of_nil in Hx].
           apply list_elem_of_singleton in Hx as ->. right. by split; [|left].
        -- destruct (decide (object_start (trunc 64 (v - 8)))) as [Cs|]; [|by apply not_elem_of_nil in Hx].
           apply list_elem_of_singleton in Hx as ->. right. split; [done|]. right. rewrite (Et Cs). lia.
      * intros [[_ Hx]|[Hs [Hx|Hx]]]; [done|left|right].
        -- subst o. rewrite decide_True by done. left.
        -- pose proof (Et' o Hs Hx) as E. rewrite E, decide_True by done. left.
Qed.

Lemma pinned_start addrs : scannable addrs → pinned [] w0.
Proof.
  intros Hsc. constructor; [symmetry; apply set_store_eta|done|]. intros o Ho. split; [by apply (sc_headers _ Hsc)|].
  cbn zeta. rewrite bool_decide_eq_false_2, orb_false_r by apply not_elem_of_nil. by destruct (decode _).
Qed.

(** The range [collect_roots] scans: both ends rounded up to 16, in order. *)
Definition round16 (a : Z) : Z := Rounding.ceil_div a 16 * 16.
Definition scan_lo (from to : Z) : Z := Z.min (round16 from) (round16 to).
Definition scan_hi (from to : Z) : Z := Z.max (round16 from) (round16 to).

Lemma elem_of_scan lo hi a : lo mod 8 = 0 → hi mod 8 = 0 →
  a ∈ scan_addresses lo hi ↔ lo <= a < hi ∧ a mod 8 = 0.
Proof.
  intros Hl Hh. unfold scan_addresses. rewrite list_elem_of_fmap. setoid_rewrite elem_of_range. unfold Rounding.ceil_div.
  split.
  - intros (i & -> & Hi). Z.div_mod_to_equations. lia.
  - intros [Ha Hm]. exists ((a - lo) / 8). Z.div_mod_to_equations. lia.
Qed.

Lemma collect_roots_ok from to roots w : 0 < from < 2 ^ 63 → 0 < to < 2 ^ 63 →
  let addrs := scan_addresses (scan_lo from to) (scan_hi from to) in
  scannable addrs → pinned roots w →
  let found := addrs ≫= (λ a, found_in (word (w_store w0) a)) in
  ∃ w', collect_roots sp los pm from to (roots, w) = Ok (roots ++ found, w') ∧ pinned (roots ++ found) w'.
Proof.
  intros Hf Ht addrs Hsc Hp found. unfold collect_roots.
  rewrite !Rounding.align_usize_ok, bind_Ok, bind_Ok by lia. fold (round16 from) (round16 to).
  pose proof (Rounding.ceil_div_bounds from 16). pose proof (Rounding.ceil_div_bounds to 16).
  rewrite decide_False by (unfold round16; lia).
  assert (E : (if decide (round16 to < round16 from) then (round16 to, round16 from) else (round16 from, round16 to))
    = (scan_lo from to, scan_hi from to)) by (unfold scan_lo, scan_hi; case_decide; f_equal; lia).
  rewrite E. by apply (scan_ok addrs).
Qed.

End Roots.

(** ** A sample heap

    The heap of [Collection] with its object starts in the bitmap, and a stack of four
    words from address 16 on: it holds the data pointer of the first object, the
    address of the third, and two words that are no references. *)

Definition rooted_space : ImmixSpace :=
  set_bitmap pair_space (mkSpaceBitmap (<[4%nat := 1280]> (<[36%nat := 256]> (replicate 68 0))) 544 28672 98304).
Definition rooted_world : World :=
  set_store pair_world (mkStore ∅ (<[16 := 32904]> (<[24 := 12345]> (<[32 := 65664]> (words (w_store pair_world)))))).

Lemma rooted_starts a : object_start rooted_space rooted_world a → a ∈ pair_objs.
Proof.
  intros (Hm & Hr & Hs).
  assert (Hall : Forall (λ g, Space.marked (bitmap rooted_space) g = true → 28672 + 16 * g ∈ pair_objs) (range 0 4352))
    by (vm_decide).
  rewrite Forall_forall in Hall. cbn in Hr. specialize (Hall ((a - 28672) / 16)).
  replace (28672 + 16 * ((a - 28672) / 16)) with a in Hall by (Z.div_mod_to_equations; lia).
  apply Hall; [apply elem_of_range; Z.div_mod_to_equations; lia|done].
Qed.

Lemma rooted_space_ok : let _ : Cfg := false in ImmixSpaceM.space_ok rooted_space rooted_world.
Proof.
  intros cfg. apply (ImmixSpaceM.space_ok_words rooted_space pair_world (w_store rooted_world)); [done|].
  apply ImmixSpaceM.space_ok_bitmap; [apply pair_space_ok|].
  split_and!; [|done|vm_compute; discriminate].
  unfold Space.space_wf, Words.wf, in_width. vm_decide.
Qed.

(** ** Properties *)


