(* ===== verification/Evacuation.v ===== *)
(** * Evacuating collections, and the pass over the finalizers

    What the code does on the paths that move objects or look at dead ones: [trace]
    copies an object once per reference, [establish_hole_threshhold] picks the
    candidates, and the walk over [to_finalize] reads headers of blocks that were
    given back. *)

From stdpp Require Import base numbers list list_numbers gmap.
From Stdlib Require Import ZArith Lia.
From S2P Require Import Prelude Util Constants Bitmap Block SpaceBitmap Object BlockAllocator.
From S2P Require Import Allocation AllocatorLaws Allocators ImmixSpace LargeObjectSpace.
From S2P Require Import Collector Sweep Marking Collection Immix Roots.
Import CollectorM ImmixHeap.
Import ImmixSpaceM(evac_ok(..), evac_free).
Local Open Scope Z_scope.

(** ** Tracing with evacuation *)

Section Trace.
Context `{Cfg} (rtti_of : Z → GCRTTI) (next : bool).

(** An unmarked object at [c] of the immix space, of [n] bytes whatever the rest of
    the memory holds, none of them free. *)
Record movable (sp : ImmixSpace) (w : World) (c n : Z) : Prop := {
  mv_space : evac_ok sp w;
  mv_in : BA.is_in_space (w_ba w) c = true;
  mv_header : header_wf (word (w_store w) c) ∧ hd_forwarded (decode (word (w_store w) c)) = false ∧
    hd_mark (decode (word (w_store w) c)) = negb next;
  mv_size : (∀ m, RawGc.object_size (rtti_of (Bits.untagged (word (w_store w) c))) m c = Ok n) ∧ 0 < n <= 32639;
  mv_used : ∀ x, c <= x < c + n → ¬ evac_free sp w x
}.

Lemma movable_size sp w c n : movable sp w c n → ImmixSpaceM.object_size_at rtti_of (w_store w) c = Ok n.
Proof.
  intros [_ _ (Hh & _) [Hn _] _]. unfold ImmixSpaceM.object_size_at. rewrite HeaderFacts.vtable_ok, bind_Ok by done. apply Hn.
Qed.

(** A slot: a word that is neither free memory nor part of the header of [c]. *)
Definition slot_of (sp : ImmixSpace) (w : World) (c a : Z) : Prop :=
  word (w_store w) a = c ∧ ¬ evac_free sp w a ∧ a ≠ c.

Lemma trace_evac_ok sp w queue a c n : movable sp w c n → slot_of sp w c a →
  ∃ c' sp' w', trace rtti_of true next (sp, w, queue) a = Ok (sp', w', queue ++ [c']) ∧
    word (w_store w') a = c' ∧ movable sp' w' c n ∧
    (∀ x, evac_free sp' w' x → evac_free sp w x) ∧
    (∀ b, b ≠ a → ¬ evac_free sp w b → word (w_store w') b = word (w_store w) b) ∧
    (c' ≠ c → evac_free sp w c' ∧ ¬ evac_free sp' w' c').
Proof.
  intros Hm (Ha & Hna & Hac). pose proof (movable_size sp w c n Hm) as Hsz. pose proof Hm as [Hok Hin (Hh & Hf & Hmk) [Hn Hn1] Hu].
  unfold trace. rewrite Ha, HeaderFacts.is_forwarded_ok, bind_Ok, Hf. rewrite HeaderFacts.get_mark_ok, bind_Ok, Hmk by done.
  rewrite decide_True by (by destruct next). unfold ImmixSpaceM.filter_fast. rewrite Hin. cbn [negb andb].
  destruct (ImmixSpaceM.maybe_evacuate_ok rtti_of sp w c n Hok Hh Hsz Hn1 Hu) as (r & sp1 & w1 & -> & Hok1 & [Em Ed] & Hfree & Hr).
  assert (Hba : BA.is_in_space (w_ba w1) c = true) by (unfold BA.is_in_space; by rewrite Em, Ed).
  rewrite bind_Ok. destruct r as [c1|]; rewrite bind_Ok.
  - destruct Hr as (_ & _ & (_ & _ & Hreg) & _ & Hw & _).
    set (s := set_word (w_store w1) a c1). exists c1, sp1, (set_store w1 s). split; [done|].
    assert (Hws : ∀ b, b ≠ a → ¬ evac_free sp w b → word s b = word (w_store w) b).
    { intros b Hne Hnb. unfold s. rewrite word_set, decide_False by done. rewrite Hw, decide_False; [done|].
      intros [Hb _]. by destruct (Hreg b Hb) as (_ & ? & _). }
    assert (Hfr : ∀ x, evac_free sp1 (set_store w1 s) x ↔ evac_free sp1 w1 x)
      by (intros x; by apply (ImmixSpaceM.evac_free_words sp1 w1 s)).
    assert (Ec : word s c = word (w_store w) c) by (apply Hws; [done|apply Hu; lia]).
    split; [unfold s; cbn; by rewrite word_set, decide_True|]. split.
    { constructor; cbn; rewrite ?Ec; try done; [by apply (ImmixSpaceM.evac_ok_words sp1 w1 s)|].
      intros x Hx Hfx%Hfr%Hfree. by apply (Hu x). }
    split_and!; [intros x Hx%Hfr; auto|exact Hws|].
    intros Hne. destruct (Hreg c1 ltac:(lia)) as (_ & H1 & H2). split; [done|]. by rewrite Hfr.
  - destruct Hr as (Hw & _ & _). exists c, sp1, w1. split; [done|].
    assert (Hws : ∀ b, word (w_store w1) b = word (w_store w) b) by (intros b; unfold word; by rewrite Hw).
    split; [by rewrite Hws|]. split; [|split_and!; try done; by intros].
    constructor; rewrite ?Hws; try done. intros x Hx Hfx%Hfree. by apply (Hu x).
Qed.

(** ** Properties *)

(** C39: An evacuating [trace] does not leave a forwarding address behind, so an object
    that two slots refer to is copied twice: when both slots are moved to a copy they
    end up with different objects. *)
Theorem trace_copies_twice sp w queue a b c n : movable sp w c n → slot_of sp w c a → slot_of sp w c b → a ≠ b →
  ∃ c1 c2 sp' w', for_each (trace rtti_of true next) [a; b] (sp, w, queue) = Ok (sp', w', queue ++ [c1; c2]) ∧
    word (w_store w') a = c1 ∧ word (w_store w') b = c2 ∧ (c1 ≠ c → c2 ≠ c → c1 ≠ c2).
Proof.
  intros Hm Ha Hb Hab. destruct (trace_evac_ok sp w queue a c n Hm Ha) as (c1 & sp1 & w1 & E1 & Ha1 & Hm1 & Hf1 & Hw1 & Hc1).
  assert (Hb1 : slot_of sp1 w1 c b).
  { destruct Hb as (B1 & B2 & B3). split_and!; [by rewrite Hw1|by intros ?%Hf1|done]. }
  destruct (trace_evac_ok sp1 w1 (queue ++ [c1]) b c n Hm1 Hb1) as (c2 & sp2 & w2 & E2 & Hb2 & _ & _ & Hw2 & Hc2).
  exists c1, c2, sp2, w2. cbn [for_each]. rewrite E1, bind_Ok, E2, bind_Ok, <- app_assoc. split_and!; try done.
  - rewrite Hw2; [done|done|]. destruct Ha as (_ & A2 & _). by intros ?%Hf1.
  - intros N1 N2 ->. by apply (Hc1 N1), (Hc2 N2).
Qed.

End Trace.

(** The sample heap of [ImmixSpace] with a stack of two words that both refer to its
    object. *)
Definition shared_world : World :=
  set_store ImmixSpaceM.evac_sample_world
    (mkStore (headers (w_store ImmixSpaceM.evac_sample_world))
       (<[16 := 32896]> (<[24 := 32896]> (words (w_store ImmixSpaceM.evac_sample_world))))).

Lemma shared_free x : let _ : Cfg := false in evac_free ImmixSpaceM.evac_sample shared_world x → 65536 <= x.
Proof.
  intros cfg Hf. apply (ImmixSpaceM.evac_idle ImmixSpaceM.evac_sample) in Hf; [|reflexivity]. revert Hf.
  intros [[(b & low & high & [=] & _)|(b & Hb & _)]|[[(b & low & high & [=] & _)|(b & Hb & _)]|
      [[(b & low & high & [=] & _)|(b & Hb%list_elem_of_singleton & [Hs _])]|(b & Hb & _)]]];
      try (by apply not_elem_of_nil in Hb); [lia|]. by apply ImmixSpaceM.evac_sample_unavailable in Hb.
Qed.

Lemma trace_copies_twice_witness : let _ : Cfg := false in ∃ c1 c2 sp' w',
  for_each (trace (λ _, rtti_for_prim 8) true true) [16; 24] (ImmixSpaceM.evac_sample, shared_world, []) = Ok (sp', w', [c1; c2]) ∧
  word (w_store w') 16 = c1 ∧ word (w_store w') 24 = c2 ∧ c1 ≠ c2.
Proof.
  intros cfg.
  destruct (trace_copies_twice (λ _, rtti_for_prim 8) true ImmixSpaceM.evac_sample shared_world [] 16 24 32896 16)
    as (c1 & c2 & sp' & w' & E & E1 & E2 & Hne).
  - constructor.
    + apply (ImmixSpaceM.evac_ok_words _ ImmixSpaceM.evac_sample_world); [reflexivity|].
      apply (ImmixSpaceM.evac_idle ImmixSpaceM.evac_sample); [reflexivity|apply ImmixSpaceM.evac_sample_ok].
    + reflexivity.
    + split; [split; [split; [discriminate|reflexivity]|discriminate]|split; reflexivity].
    + split; [reflexivity|lia].
    + intros x Hx Hf%shared_free. lia.
  - split; [reflexivity|]. split; [intros Hf%shared_free; lia|discriminate].
  - split; [reflexivity|]. split; [intros Hf%shared_free; lia|discriminate].
  - discriminate.
  - exists c1, c2, sp', w'. split; [exact E|]. split; [exact E1|]. split; [exact E2|].
    assert (Eq : (λ st, st.2) <$> for_each (trace (λ _, rtti_for_prim 8) true true) [16; 24]
      (ImmixSpaceM.evac_sample, shared_world, []) = Ok [c1; c2]) by (rewrite E; reflexivity).
    clear E E1 E2. revert Hne. generalize c1 c2 Eq. clear. intros c1 c2 Eq Hne. vm_compute in Eq. injection Eq as <- <-. discriminate.
Defined.

(** ** Choosing the candidates *)

(** With [t] as the threshold, the lines marked in blocks with up to [t] holes are at
    least as many as the lines that remain. *)
Definition enough (marks avail : gmap Z Z) (lines t : Z) : Prop :=
  lines - hist_upto avail t <= hist_upto marks t.
#[global] Instance enough_dec marks avail lines t : Decision (enough marks avail lines t).
Proof. unfold enough. apply _. Defined.

Lemma hist_upto_step h t : 0 <= t → hist_upto h t = hist_upto h (t - 1) + hist_get h t.
Proof.
  intros Ht. unfold hist_upto. replace (t - 1 + 1) with t by lia. rewrite (range_app 0 t (t + 1)) by lia.
  rewrite fmap_app. unfold sum_list. rewrite foldr_app. rewrite (range_cons t (t + 1)), range_nil by lia. cbn.
  rewrite Z.add_0_r. generalize (hist_get h <$> range 0 t). intros l. induction l as [|x l IH]; cbn; lia.
Qed.

Lemma hist_upto_mono h j t : (∀ k, 0 <= hist_get h k) → j <= t → hist_upto h j <= hist_upto h t.
Proof.
  intros Hh Hjt. destruct (Z.lt_ge_cases j (-1)) as [Hj|Hj].
  { unfold hist_upto at 1. rewrite range_nil by lia. apply sum_nonneg. intros; apply Hh. }
  unfold hist_upto. rewrite (range_app 0 (j + 1) (t + 1)) by lia. rewrite fmap_app.
  pose proof (sum_nonneg (hist_get h) (range (j + 1) (t + 1)) ltac:(intros; apply Hh)) as Hs.
  unfold sum_list in *. rewrite foldr_app. revert Hs. generalize (hist_get h <$> range (j + 1) (t + 1)) (hist_get h <$> range 0 (j + 1)).
  intros l1 l2 Hs. induction l2 as [|x l2 IH]; cbn; lia.
Qed.

(** The loop over the thresholds from [t] on returns the first that is enough. *)
Lemma threshold_loop_ok marks avail lines n : (∀ k, 0 <= hist_get marks k) → (∀ k, 0 <= hist_get avail k) →
  hist_upto marks 255 < 2 ^ 64 → ∀ t, 0 <= t → t + Z.of_nat n = 256 →
  threshold_loop marks avail (range t 256) (hist_upto marks (t - 1)) (Z.max 0 (lines - hist_upto avail (t - 1))) =
    Ok (default 256 (first_such (λ t, bool_decide (enough marks avail lines t)) (range t 256))).
Proof.
  intros Hm Ha Hb. induction n as [|n IH]; intros t Ht Hn; [by rewrite range_nil by lia|].
  rewrite range_cons by lia. cbn [threshold_loop first_such].
  pose proof (hist_upto_step marks t Ht) as E1. pose proof (hist_upto_step avail t Ht) as E2.
  pose proof (hist_upto_mono marks t 255 Hm ltac:(lia)). pose proof (Hm t). pose proof (Ha t).
  pose proof (hist_upto_mono marks (-1) (t - 1) Hm ltac:(lia)) as Hp. unfold hist_upto in Hp at 1. rewrite range_nil in Hp by lia. cbn in Hp.
  rewrite u_add_ok, bind_Ok by lia. rewrite <- E1.
  replace (Z.max 0 (Z.max 0 (lines - hist_upto avail (t - 1)) - hist_get avail t)) with (Z.max 0 (lines - hist_upto avail t)) by lia.
  unfold enough. destruct (decide (Z.max 0 (lines - hist_upto avail t) <= hist_upto marks t)) as [C|C].
  - by rewrite bool_decide_eq_true_2 by lia.
  - rewrite bool_decide_eq_false_2 by lia. specialize (IH (t + 1) ltac:(lia) ltac:(lia)).
    replace (t + 1 - 1) with t in IH by lia. exact IH.
Qed.

(** The number of lines of a block that are marked, or not. *)
Definition lines_with (blk : ImmixBlock) (wanted : bool) : Z :=
  Z.of_nat (length (filter (λ l, line_bit blk l = wanted) (range 0 256))).

Lemma lines_with_bound blk wanted : 0 <= lines_with blk wanted <= 256.
Proof.
  unfold lines_with. pose proof (length_filter (λ l, line_bit blk l = wanted) (range 0 256)) as Hl.
  assert (length (range 0 256) = 256%nat) as E by reflexivity. rewrite E in Hl. lia.
Qed.

Lemma count_marked_exact blk b wanted : block_wf blk → Block.count_marked blk b wanted = Ok (lines_with blk wanted).
Proof.
  intros Hw. unfold Block.count_marked. consts.
  rewrite (for_each_pure _ (λ n l, if bool_decide (line_bit blk l = wanted) then n + 1 else n)).
  - f_equal. unfold lines_with. generalize (range 0 256). intros l.
    assert (Hg : ∀ n, foldl (λ n l, if bool_decide (line_bit blk l = wanted) then n + 1 else n) n l =
      n + Z.of_nat (length (filter (λ l, line_bit blk l = wanted) l))); [|by rewrite Hg].
    induction l as [|x l IH]; intros n; [cbn; lia|]. cbn [foldl]. rewrite IH, filter_cons.
    destruct (decide (line_bit blk x = wanted)) as [C|C].
    + rewrite (bool_decide_eq_true_2 _ C). cbn [length]. lia.
    + by rewrite (bool_decide_eq_false_2 _ C).
  - intros n l Hl. apply elem_of_range in Hl. rewrite (Z.add_comm (l * 128)), Block.test_line by (done || lia). done.
Qed.

(** The lines available in the blocks with [k] holes. *)
Definition available_at (s : Store) (blocks : list Z) (k : Z) : Z :=
  sum_list ((λ b, if decide (hole_count (header s b) = k) then lines_with (header s b) false else 0) <$> blocks).

Lemma available_histogram_ok s l h : (∀ b, block_wf (header s b)) → (∀ k, 0 <= hist_get h k) →
  (∀ k, hist_get h k + 256 * Z.of_nat (length l) < 2 ^ 64) →
  ∃ h', for_each (λ h block, '(holes, free_lines) ← Block.count_holes_and_available_lines (header s block) block;
      hist_add h holes free_lines) l h = Ok h' ∧ ∀ k, hist_get h' k = hist_get h k + available_at s l k.
Proof.
  intros Hw. revert h. induction l as [|b l IH]; intros h Hp Hb.
  { exists h. split; [done|]. intros k. unfold available_at, sum_list. cbn. lia. }
  cbn [for_each].
  assert (Ec : Block.count_holes_and_available_lines (header s b) b = Ok (hole_count (header s b), lines_with (header s b) false))
    by (unfold Block.count_holes_and_available_lines; by rewrite count_marked_exact).
  rewrite Ec, bind_Ok. clear Ec.
  set (k0 := hole_count (header s b)). set (v := lines_with (header s b) false). pose proof (lines_with_bound (header s b) false) as Hv. fold v in Hv.
  assert (Hadd : ∃ h1, hist_add h k0 v = Ok h1 ∧ ∀ k, hist_get h1 k = hist_get h k + (if decide (k0 = k) then v else 0)).
  { pose proof (Hb k0) as Hk. cbn [length] in Hk. apply hist_add_get; [lia|apply Hp|lia]. }
  destruct Hadd as (h1 & -> & Hh1). rewrite bind_Ok. destruct (IH h1) as (h' & -> & Hh').
  - intros k. rewrite Hh1. specialize (Hp k). case_decide; lia.
  - intros k. rewrite Hh1. specialize (Hb k). cbn [length] in Hb. case_decide; lia.
  - exists h'. split; [done|]. intros k. rewrite Hh', Hh1. unfold available_at, sum_list. rewrite fmap_cons. cbn [foldr]. fold k0 v. lia.
Qed.

(** [establish_hole_threshhold] returns the least number of holes [t] such that the
    lines marked in blocks with at most [t] holes are no fewer than the lines of the
    headroom less the available lines of these blocks, and 256 if there is none. *)
Theorem hole_threshold_least self s headroom : (∀ b, block_wf (header s b)) →
  (∀ k, 0 <= hist_get (mark_histogram self) k) → hist_upto (mark_histogram self) 255 < 2 ^ 64 →
  256 * Z.of_nat (length (all_blocks self)) < 2 ^ 64 → 0 <= headroom <= 5 →
  ∃ h t, (∀ k, hist_get h k = available_at s (all_blocks self) k) ∧
    establish_hole_threshhold self s headroom = Ok t ∧ 0 <= t <= 256 ∧
    (t < 256 → enough (mark_histogram self) h (headroom * 255) t) ∧
    ∀ j, 0 <= j < t → ¬ enough (mark_histogram self) h (headroom * 255) j.
Proof.
  intros Hw Hm Hb Hl Hh. destruct (available_histogram_ok s (all_blocks self) ∅ Hw) as (h & E & Hg); [done|done|].
  assert (Hg' : ∀ k, hist_get h k = available_at s (all_blocks self) k) by (intros k; by rewrite Hg).
  assert (Hpos : ∀ k, 0 <= hist_get h k).
  { intros k. rewrite Hg'. apply sum_nonneg. intros b _. case_decide; [|done]. apply lines_with_bound. }
  exists h. unfold establish_hole_threshhold. rewrite E, bind_Ok. consts. rewrite u_mul_ok, bind_Ok by lia. change (256 - 1) with 255.
  pose proof (threshold_loop_ok (mark_histogram self) h (headroom * 255) 256 Hm Hpos Hb 0 ltac:(lia) ltac:(lia)) as El.
  assert (E0 : ∀ g, hist_upto g (0 - 1) = 0) by (intros g; unfold hist_upto; by rewrite range_nil by lia).
  rewrite !E0, Z.sub_0_r, Z.max_r in El by lia. rewrite El.
  pose proof (first_such_range (λ t, bool_decide (enough (mark_histogram self) h (headroom * 255) t)) 0 256) as Hf.
  destruct (first_such _ _) as [t|]; cbn [default from_option id].
  - destruct Hf as (Ht & Hyes & Hno). exists t. apply bool_decide_eq_true in Hyes. split_and!; try done; try lia.
    intros j Hj. exact (proj1 (bool_decide_eq_false _) (Hno j Hj)).
  - exists 256. split_and!; try done; try lia. intros j Hj. exact (proj1 (bool_decide_eq_false _) (Hf j Hj)).
Qed.

Lemma hole_threshold_least_witness : ∃ t,
  establish_hole_threshhold (mkCollector [32768] {[3 := 100]}) (mkStore {[32768 := mkBlock [1; 0; 0; 0] true 3 false]} ∅) 1 = Ok t ∧
  0 <= t <= 256.
Proof.
  destruct (hole_threshold_least (mkCollector [32768] {[3 := 100]}) (mkStore {[32768 := mkBlock [1; 0; 0; 0] true 3 false]} ∅) 1)
    as (h & t & _ & E & Ht & _).
  - intros b. unfold header. cbn. destruct (decide (b = 32768)) as [->|Hne].
    + rewrite lookup_singleton_eq. split; [reflexivity|]. cbn. unfold Words.wf, in_width. repeat constructor; lia.
    + rewrite lookup_singleton_ne by done. apply Block.zeroed_wf.
  - intros k. unfold hist_get. cbn. destruct (decide (k = 3)) as [->|Hne]; [by rewrite lookup_singleton_eq|by rewrite lookup_singleton_ne].
  - vm_compute. reflexivity.
  - vm_compute. reflexivity.
  - lia.
  - exists t. split; [exact E|exact Ht].
Defined.

(** ** Finalizers of objects in returned blocks *)

Lemma return_zero ba s bs a b : b ∈ bs → b <= a < b + BLOCK_SIZE → word (BA.return_blocks ba s bs).2 a = 0.
Proof.
  unfold BA.return_blocks. revert ba s. induction bs as [|c bs IH]; intros ba s Hb Ha; [by apply not_elem_of_nil in Hb|]. cbn [foldl].
  destruct (decide (b ∈ bs)) as [Hin|Hnin]; [by apply IH|]. apply elem_of_cons in Hb as [<-|]; [|done].
  assert (Hz : ∀ ba' s', word s' a = 0 → word (BA.return_blocks ba' s' bs).2 a = 0).
  { clear. unfold BA.return_blocks. induction bs as [|c bs IH]; intros ba' s' Hs; [done|]. cbn [foldl]. apply IH.
    unfold word, mem_read, Mmap_dontneed in *. cbn [words]. destruct (filter _ (words s') !! a) as [x|] eqn:E; [|done].
    apply map_lookup_filter_Some in E as [E _]. by rewrite E in Hs. }
  apply Hz. unfold word, mem_read, Mmap_dontneed. cbn [words]. rewrite (proj2 (map_lookup_filter_None _ _ _)); [done|].
  right. intros x _. tauto.
Qed.

(** The object at [o] lies in one of the blocks [bs]. *)
Definition in_blocks (bs : list Z) (o : Z) : Prop := ∃ b, b ∈ bs ∧ b <= o < b + BLOCK_SIZE.

(** The walk over [to_finalize] after a collection reads the headers of dead objects:
    if the block of one of them was returned, its memory reads as zeros and the walk
    stops at the null type pointer before it has called the object's finalizer,
    whatever comes behind it in the list. *)
Theorem finalize_returned_panics rtti_of ba s blocks o l live_mark : in_blocks blocks o →
  ImmixHeap.finalize rtti_of (BA.return_blocks ba s blocks).2 live_mark (o :: l) = Panic AssertFailed.
Proof.
  intros (b & Hb & Ho). cbn [finalize]. by rewrite (return_zero ba s blocks o b Hb Ho).
Qed.

Lemma finalize_returned_panics_witness :
  ImmixHeap.finalize (λ _, make_rtti_for_finalize (λ _ _, 16) (λ _ _, []))
    (BA.return_blocks (mkBA [] 98304 98304 (mkMmap 28672 98304 69632)) (mkStore ∅ {[32896 := 64]}) [32768]).2 false [32896]
  = Panic AssertFailed.
Proof.
  apply (finalize_returned_panics _ _ _ [32768] 32896 [] false). exists 32768. split; [left|consts; lia].
Defined.
