(* ===== verification/Heap.v ===== *)
(** * The heap between the mutator and the collector

    The invariant [heap_inv] of the whole heap, as one thread sees it: which blocks the
    allocators, the collector and the thread hold, which objects lie in them, and that
    header, line marks and bitmap agree on them.  It covers the build with the feature
    [threaded] and the one without; [parked] is the heap no thread has a block of.  Here
    is also its preservation by a collection of [Collector] that moves nothing; HeapCollect,
    EvacHeap, HeapAlloc, HeapEmergency and Mutator go on to the operations of lib.rs. *)

From stdpp Require Import base numbers list list_numbers gmap relations.
From Stdlib Require Import ZArith Lia.
From S2P Require Import Prelude Util Constants Bitmap Block SpaceBitmap Object BlockAllocator.
From S2P Require Import Allocation AllocatorLaws Allocators ImmixSpace LargeObjectSpace.
From S2P Require Import Collector Sweep Marking Collection Immix Roots.
Import CollectorM ImmixHeap.
Import ImmixSpaceM(space_ok(..), free_space, normal_v, overflow_v, evac_v, evac_headroom, available_range,
  so_world, so_normal, so_overflow, so_evac, so_bitmap, covers, fields_none).
Local Open Scope Z_scope.

(** ** Taking the blocks for a collection *)

Section Blocks.
Context `{Cfg}.

(** The blocks a collection takes from an allocator. *)
Definition taken (sp : ImmixSpace) : list Z := (ImmixSpaceM.get_all_blocks sp).1.
Definition emptied (sp : ImmixSpace) : ImmixSpace := (ImmixSpaceM.get_all_blocks sp).2.

(** The current blocks of the thread. *)
Definition own (w : World) : list Z := if threaded then tls_blocks (w_tls w) else [].

(** The world after the thread has given up its blocks. *)
Definition parked (w : World) : World := if threaded then mkWorld (w_ba w) (w_store w) no_blocks else w.

Definition heap_blocks (self : Immix) (w : World) : list Z :=
  all_blocks (im_collector self) ++ taken (im_immix self) ++ own w.

(** The heap with another collector. *)
Definition set_collector (self : Immix) (c : Collector) : Immix :=
  mkImmix (im_los self) (im_immix self) (im_stack_bottom self) (im_gc_stats self) (im_stack_end self) (im_allocated self)
    (im_threshold self) (im_live_mark self) (im_callbacks self) c (im_to_finalize self).

(** What the collector keeps from earlier collections: full blocks that no allocator
    has. *)
Record kept_ok (c : Collector) (sp : ImmixSpace) (w : World) : Prop := {
  ke_nodup : NoDup (all_blocks c);
  ke_range : ∀ b, b ∈ all_blocks c → BA.in_range (w_ba w) b ∧ ¬ BA.available (w_ba w) b;
  ke_normal : all_blocks c ## v_blocks (normal_v sp w);
  ke_overflow : all_blocks c ## v_blocks (overflow_v sp w);
  ke_evac : all_blocks c ## v_blocks (evac_v sp w)
}.

Lemma parked_ba w : w_ba (parked w) = w_ba w.
Proof. unfold parked. by destruct threaded. Qed.

Lemma parked_store w : w_store (parked w) = w_store w.
Proof. unfold parked. by destruct threaded. Qed.

Lemma own_parked w : own (parked w) = [].
Proof. unfold own, parked. by destruct threaded. Qed.

Lemma parked_idemp w : parked (parked w) = parked w.
Proof. unfold parked. by destruct threaded. Qed.

Lemma parked_store_set w s : parked (set_store w s) = set_store (parked w) s.
Proof. unfold parked. by destruct threaded. Qed.

(** What each thread of a threaded build has of its own is in the thread-local state. *)
Definition own_fields (sp : ImmixSpace) : Prop := threaded = true → fields_none sp.

Lemma taken_perm sp w : own_fields sp → taken sp ++ own w ++ v_pool (evac_v sp w) ≡ₚ
  v_blocks (normal_v sp w) ++ v_blocks (overflow_v sp w) ++ v_blocks (evac_v sp w).
Proof.
  unfold own_fields, taken, own, normal_v, overflow_v, evac_v, tls_blocks. cbn.
  unfold normal_view, overflow_view, v_blocks, cur_block. cbn.
  destruct threaded.
  - intros []; [done|]. rewrite H0, H1. cbn. set (c1 := _ <$> option_list (tls_current_block _)).
    set (c2 := _ <$> option_list (tls_current_ovf_block _)). set (c3 := _ <$> option_list (e_current_block _)).
    rewrite !app_nil_r. solve_Permutation.
  - intros _. set (c1 := _ <$> option_list (n_current_block _)). set (c2 := _ <$> option_list (o_current_block _)).
    set (c3 := _ <$> option_list (e_current_block _)). rewrite app_nil_l. solve_Permutation.
Qed.

Lemma emptied_views sp w : normal_v (emptied sp) (parked w) = mkView None [] [] ∧
  overflow_v (emptied sp) (parked w) = mkView None [] [] ∧
  evac_v (emptied sp) (parked w) = mkView None (v_pool (evac_v sp w)) [].
Proof.
  unfold normal_v, overflow_v, evac_v, parked. cbn. unfold normal_view, overflow_view. cbn. by destruct threaded.
Qed.

Lemma emptied_ok c c1 sp w : own_fields sp → space_ok sp w → kept_ok c sp w → evac_headroom sp <= EVAC_HEADROOM →
  all_blocks c1 ≡ₚ all_blocks c ++ taken sp ++ own w → collecting c1 (emptied sp) (parked w).
Proof.
  intros Hof Hok [K1 K2 K3 K4 K5] Hh Hc1. pose proof Hok as [Hw Hn Ho He Dno Dne Doe Hbm].
  destruct (emptied_views sp w) as (En & Eo & Ee). pose proof (taken_perm sp w Hof) as Hp. rewrite app_assoc in Hp.
  set (mine := taken sp ++ own w) in *.
  assert (Hnd : NoDup (mine ++ v_pool (evac_v sp w))).
  { rewrite Hp. apply NoDup_app. split_and!; [apply Hn| |apply NoDup_app; split_and!; [apply Ho| |apply He]; intros b ? ?; by apply (Doe b)].
    intros b Hb. rewrite elem_of_app. intros [?|?]; [by apply (Dno b)|by apply (Dne b)]. }
  assert (Hin : ∀ b, b ∈ mine ∨ b ∈ v_pool (evac_v sp w) →
    b ∈ v_blocks (normal_v sp w) ∨ b ∈ v_blocks (overflow_v sp w) ∨ b ∈ v_blocks (evac_v sp w)).
  { intros b. rewrite <- elem_of_app, Hp, !elem_of_app. done. }
  assert (Hrange : ∀ b, b ∈ mine ∨ b ∈ v_pool (evac_v sp w) → BA.in_range (w_ba w) b ∧ ¬ BA.available (w_ba w) b).
  { intros b [Hb|[Hb|Hb]]%Hin; [by apply Hn|by apply Ho|by apply He]. }
  assert (Hapart : ∀ b, b ∈ all_blocks c → ¬ (b ∈ mine ∨ b ∈ v_pool (evac_v sp w))).
  { intros b Hb [?|[?|?]]%Hin; [by apply (K3 b)|by apply (K4 b)|by apply (K5 b)]. }
  apply NoDup_app in Hnd as (N1 & N2 & N3).
  assert (Hnil : view_ok false (parked w) (mkView None [] [])).
  { constructor; [done|constructor| |done]. intros b Hb. by apply not_elem_of_nil in Hb. }
  assert (Hw' : world_ok (parked w)) by (unfold parked; destruct threaded; [by destruct Hw|done]).
  constructor; rewrite ?parked_ba; try done.
  - constructor; rewrite ?En, ?Eo, ?Ee, ?parked_ba; try done; try (intros b Hb; by apply not_elem_of_nil in Hb).
    constructor; rewrite ?parked_ba; [done| | |].
    + unfold v_blocks, cur_block. cbn. by rewrite app_nil_r.
    + unfold v_blocks, cur_block. cbn. rewrite app_nil_r. auto.
    + intros _ b Hb l. unfold marked_line. rewrite parked_store. by apply (vo_clean _ _ _ He).
  - rewrite Hc1. apply NoDup_app. split_and!; [done| |done]. intros b Hb Hb'. apply (Hapart b Hb). by left.
  - intros b. rewrite Hc1, elem_of_app. intros [?|?]; auto.
  - rewrite Ee. unfold v_blocks, cur_block. cbn. rewrite app_nil_r. intros b. rewrite Hc1, elem_of_app. intros [Hb|Hb] Hb'.
    + apply (Hapart b Hb). by right.
    + by apply (N2 b).
Qed.

End Blocks.

(** ** Objects *)

Section Objects.
Context (rtti_of : Z → GCRTTI).

Abbreviation osize := (osize rtti_of).
Abbreviation slots := (slots rtti_of).

(** An object of the heap [objs]: what its type reports depends on its own words
    only, and its reference slots lie inside it and lead to objects. *)
Record object_ok (objs : list Z) (w : World) (o : Z) : Prop := {
  ob_size : 0 < heap_size (rtti rtti_of w o) (words (w_store w)) o < 2 ^ 63;
  ob_local : ∀ m, (∀ a, o < a < o + osize w o → mem_read m a = word (w_store w) a) →
    heap_size (rtti rtti_of w o) m o = heap_size (rtti rtti_of w o) (words (w_store w)) o ∧
    visit_references (rtti rtti_of w o) m o = slots w o;
  ob_slots : ∀ a, a ∈ slots w o → o < a < o + osize w o ∧ word (w_store w) a ∈ objs
}.

(** Two memories agree on an object: the same type and the same words behind the
    header. *)
Definition agree (w w' : World) (o : Z) : Prop :=
  vtable_of w' o = vtable_of w o ∧ ∀ a, o < a < o + osize w o → word (w_store w') a = word (w_store w) a.

Lemma agree_facts objs w w' o : object_ok objs w o → agree w w' o →
  osize w' o = osize w o ∧ slots w' o = slots w o ∧ kids rtti_of w' o = kids rtti_of w o.
Proof.
  intros [Hs Hl Hsl] [Ev Ea]. destruct (Hl (words (w_store w')) Ea) as [E1 E2].
  assert (Er : rtti rtti_of w' o = rtti rtti_of w o) by (unfold rtti; by rewrite Ev).
  assert (Esl : slots w' o = slots w o) by (unfold Marking.slots; rewrite Er; exact E2).
  split_and!; [unfold Marking.osize; by rewrite Er, E1|done|].
  unfold kids. rewrite Esl. apply fmap_ext_in. intros a Ha. apply Ea. by apply Hsl.
Qed.

Lemma agree_ok objs objs' w w' o : object_ok objs w o → agree w w' o →
  (∀ a, a ∈ slots w o → word (w_store w) a ∈ objs') → object_ok objs' w' o.
Proof.
  intros Ho Ha Hin. destruct (agree_facts objs w w' o Ho Ha) as (Eo & Es & _). destruct Ho as [Hs Hl Hsl], Ha as [Ev Ea].
  destruct (Hl (words (w_store w')) Ea) as [E1 E2].
  assert (Er : rtti rtti_of w' o = rtti rtti_of w o) by (unfold rtti; by rewrite Ev).
  constructor; rewrite ?Er, ?Eo, ?Es.
  - by rewrite E1.
  - intros m Hm. rewrite E1. apply Hl. intros a Har. rewrite Hm, Ea; done.
  - intros a Has. destruct (Hsl a Has) as [Hr _]. rewrite Ea by done. auto.
Qed.

Lemma osize_ge objs w o : object_ok objs w o →
  0 < heap_size (rtti rtti_of w o) (words (w_store w)) o <= osize w o ∧ osize w o mod 16 = 0.
Proof.
  intros [Hs _ _]. unfold Marking.osize. pose proof (Rounding.ceil_div_bounds (heap_size (rtti rtti_of w o) (words (w_store w)) o) 16).
  split; [lia|]. apply Z.mod_mul. lia.
Qed.

(** ** The invariant *)

Definition apart (w : World) (objs : list Z) : Prop :=
  ∀ o1 o2, o1 ∈ objs → o2 ∈ objs → o1 ≠ o2 → o1 + osize w o1 <= o2 ∨ o2 + osize w o2 <= o1.

Context `{Cfg}.

Record heap_inv (objs : list Z) (self : Immix) (w : World) : Prop := {
  hi_space : space_ok (im_immix self) w;
  hi_kept : kept_ok (im_collector self) (im_immix self) w;
  hi_fields : own_fields (im_immix self);
  hi_headroom : evac_headroom (im_immix self) <= EVAC_HEADROOM;
  hi_aligned : mm_start (mmap (w_ba w)) mod 16 = 0;
  hi_nodup : NoDup objs;
  hi_header : ∀ o, o ∈ objs → header_wf (word (w_store w) o) ∧
    hd_forwarded (decode (word (w_store w) o)) = false ∧ hd_mark (decode (word (w_store w) o)) = im_live_mark self;
  hi_object : ∀ o, o ∈ objs → object_ok objs w o;
  hi_placed : ∀ o, o ∈ objs → placed_in rtti_of (heap_blocks self w) w o;
  hi_apart : apart w objs;
  hi_not_free : ∀ o x, o ∈ objs → o <= x < o + osize w o → ¬ free_space (im_immix self) w x;
  hi_starts : ∀ a, object_start (im_immix self) w a ↔ a ∈ objs;
  hi_large : allocations (im_los self) = [];
  hi_finalize : ∀ o, o ∈ im_to_finalize self → o ∈ objs;
  hi_histogram : histogram_ok (mark_histogram (im_collector self))
}.

(** No object starts inside another. *)
Lemma apart_inside objs w o a : apart w objs → (∀ x, x ∈ objs → object_ok objs w x) → o ∈ objs →
  o < a < o + osize w o → a ∉ objs.
Proof.
  intros Hap Hob Ho Ha Hin. destruct (osize_ge _ _ _ (Hob a Hin)). destruct (Hap o a Ho Hin); lia.
Qed.

(** Objects that are apart fit into the address space together. *)
Lemma apart_total objs w N : NoDup objs → apart w objs → (∀ o, o ∈ objs → 0 <= osize w o) →
  (∀ o, o ∈ objs → 0 <= o ∧ o + osize w o <= N) → 0 <= N → sum_list (osize w <$> objs) <= N.
Proof.
  intros Hnd Hap Hpos Hr HN. set (bytes := λ o, range o (o + osize w o)).
  assert (Hlen : ∀ o, o ∈ objs → Z.of_nat (length (bytes o)) = osize w o).
  { intros o Ho. unfold bytes, range. rewrite length_seqZ. specialize (Hpos o Ho). lia. }
  assert (Hs : sum_list (osize w <$> objs) = Z.of_nat (length (objs ≫= bytes))).
  { clear Hnd Hap Hr. induction objs as [|o l IH]; [done|]. rewrite bind_cons, length_app, fmap_cons. unfold sum_list in *. cbn [foldr].
    rewrite IH by (intros; (apply Hlen || apply Hpos); by right). specialize (Hlen o ltac:(left)). lia. }
  assert (Hsub : objs ≫= bytes ⊆+ range 0 N).
  { apply NoDup_submseteq.
    - clear Hs Hlen Hr. induction Hnd as [|o l Hno Hnd IH]; [constructor|]. rewrite bind_cons. apply NoDup_app. split_and!.
      + unfold bytes, range. apply NoDup_seqZ.
      + intros x Hx (o' & Hx' & Ho')%list_elem_of_bind. unfold bytes in *. rewrite elem_of_range in Hx, Hx'.
        destruct (Hap o o'); [left|by right|congruence|lia..].
      + apply IH; [intros ? ? ? ?; apply Hap; by right|intros; apply Hpos; by right].
    - intros x (o & Hx & Ho)%list_elem_of_bind. unfold bytes in Hx. apply elem_of_range in Hx. apply elem_of_range.
      destruct (Hr o Ho). lia. }
  apply submseteq_length in Hsub. unfold range in Hsub. rewrite length_seqZ in Hsub. rewrite Hs. lia.
Qed.

Section Facts.
Context (objs : list Z) (self : Immix) (w : World) (Hi : heap_inv objs self w).

(** Every object is in the space, behind the header of its block. *)
Lemma object_range o : o ∈ objs → BA.in_range (w_ba w) (Block.get_block_ptr o) →
  immix w o ∧ 0 <= o ∧ o + osize w o <= data_bound (w_ba w).
Proof.
  intros Ho (_ & Hlo & Hhi). destruct (hi_placed _ _ _ Hi o Ho) as (_ & P1 & P2).
  pose proof (so_world _ _ (hi_space _ _ _ Hi)) as [[Hs _ _ _ _] _ _]. pose proof (BA.aligned_spec (mmap (w_ba w))).
  destruct (osize_ge _ _ _ (hi_object _ _ _ Hi o Ho)). consts. unfold immix, BA.is_in_space.
  rewrite andb_true_iff, !bool_decide_eq_true. lia.
Qed.

Lemma collecting_now c1 : all_blocks c1 ≡ₚ heap_blocks self w → collecting c1 (emptied (im_immix self)) (parked w).
Proof. intros Hc. eapply emptied_ok; [apply Hi..|done]. Qed.

Lemma blocks_range b : b ∈ heap_blocks self w → BA.in_range (w_ba w) b ∧ ¬ BA.available (w_ba w) b.
Proof.
  intros Hb. pose proof (collecting_now (mkCollector (heap_blocks self w) ∅) ltac:(done)) as Hco.
  rewrite <- parked_ba. by apply (co_range _ _ _ Hco).
Qed.

Lemma block_in_range o : o ∈ objs → BA.in_range (w_ba w) (Block.get_block_ptr o).
Proof. intros Ho. apply blocks_range. apply (hi_placed _ _ _ Hi o Ho). Qed.

Lemma object_immix o : o ∈ objs → immix w o.
Proof. intros Ho. by apply object_range, block_in_range. Qed.

Lemma outside_not_object a : BA.is_in_space (w_ba w) a = false → a ∉ objs.
Proof. intros Ha Ho%object_immix. unfold immix in Ho. congruence. Qed.

Lemma heap_total : sum_list (osize w <$> objs) < 2 ^ 63.
Proof.
  pose proof (so_world _ _ (hi_space _ _ _ Hi)) as [[Hs [_ Hbd] [_ Hd] _ _] _ _]. pose proof (BA.aligned_spec (mmap (w_ba w))).
  apply Z.le_lt_trans with (data_bound (w_ba w)); [|done]. apply apart_total; [apply Hi|apply Hi| | |lia].
  - intros o Ho. pose proof (osize_ge _ _ _ (hi_object _ _ _ Hi o Ho)). lia.
  - intros o Ho. by apply object_range, block_in_range.
Qed.

(** The heap is what the collector relies on. *)
Lemma heap_inv_ok : heap_ok rtti_of (negb (im_live_mark self)) objs (heap_blocks self w) w.
Proof.
  pose proof (hi_object _ _ _ Hi) as Hob. pose proof (hi_apart _ _ _ Hi) as Hap. constructor.
  - intros o Ho. rewrite negb_involutive. by apply (hi_header _ _ _ Hi).
  - intros o Ho. apply (Hob o Ho).
  - intros o m Ho Hm. apply (Hob o Ho). intros a Ha. apply Hm. by eapply apart_inside.
  - intros o a Ho Ha. destruct (ob_slots _ _ _ (Hob o Ho) a Ha) as [Hr Hw]. split; [by apply (apart_inside objs w o)|done].
  - intros o Ho _. by apply Hi.
  - intros b Hb. by apply blocks_range.
  - pose proof heap_total. lia.
  - apply Hi.
Qed.

End Facts.

Lemma heap_ok_perm next objs l l' w : l ≡ₚ l' → heap_ok rtti_of next objs l w → heap_ok rtti_of next objs l' w.
Proof.
  intros Hp []. constructor; try done.
  - intros o Ho Hm. destruct (hk_placed o Ho Hm) as (Hb & ?). split; [by rewrite <- Hp|done].
  - intros b. rewrite <- Hp. auto.
Qed.

(** The same headers of blocks, other words. *)
Definition with_words (w : World) (ws : mem) : World := set_store w (mkStore (headers (w_store w)) ws).

Lemma kept_ok_words c sp w ws : kept_ok c sp w → kept_ok c sp (with_words w ws).
Proof. destruct w as [ba [h m] t]. by intros []. Qed.

(** Memory that agrees on every object of [objs'] keeps the invariant for them. *)
Lemma heap_inv_words objs self w ws : heap_inv objs self w → let w' := with_words w ws in
  (∀ o, o ∈ objs → agree w w' o ∧ header_wf (word (w_store w') o) ∧
    hd_forwarded (decode (word (w_store w') o)) = false ∧
    hd_mark (decode (word (w_store w') o)) = hd_mark (decode (word (w_store w) o))) →
  heap_inv objs self w'.
Proof.
  intros Hi w' Hw. pose proof (hi_object _ _ _ Hi) as Hob.
  assert (Hag : ∀ o, o ∈ objs → agree w w' o) by (intros o Ho; by apply Hw).
  assert (Hsz : ∀ o, o ∈ objs → osize w' o = osize w o) by (intros o Ho; by eapply agree_facts; auto).
  constructor; try apply Hi.
  - by apply (ImmixSpaceM.space_ok_words (im_immix self) w), Hi.
  - apply kept_ok_words, Hi.
  - intros o Ho. destruct (Hw o Ho) as (_ & ? & ? & Em). destruct (hi_header _ _ _ Hi o Ho) as (_ & _ & ?).
    split_and!; congruence.
  - intros o Ho. eapply agree_ok; [by apply Hob|by apply Hag|]. intros a Ha. by apply (ob_slots _ _ _ (Hob o Ho)).
  - intros o Ho. destruct (hi_placed _ _ _ Hi o Ho) as (? & ? & ?). unfold placed_in. by rewrite Hsz.
  - intros o1 o2 H1 H2. rewrite !Hsz by done. by apply Hi.
  - intros o x Ho. rewrite Hsz by done. intros Hx Hf. apply (hi_not_free _ _ _ Hi o x Ho Hx).
    by apply (ImmixSpaceM.free_space_words (im_immix self) w (mkStore (headers (w_store w)) ws)) in Hf.
Qed.

(** Changes of tag bits of headers only. *)
Lemma heap_inv_tags objs self w ws : heap_inv objs self w → let w' := with_words w ws in
  heap_now objs w w' →
  (∀ o, o ∈ objs → hd_mark (decode (word (w_store w') o)) = hd_mark (decode (word (w_store w) o))) →
  heap_inv objs self w'.
Proof.
  intros Hi w' [Hs Hh] Hm. apply heap_inv_words; [done|]. intros o Ho. destruct (Hh o Ho) as (? & ? & Hp).
  split; [split; [exact Hp|]|split_and!; auto]. intros a Ha. apply Hs.
  apply (apart_inside objs w o); try done; apply Hi.
Qed.

End Objects.

(** The blocks the collector keeps after a sweep. *)
Lemma reclaimed_kept `{Cfg} c1 sp2 w2 c' sp' w' : collecting c1 sp2 w2 → reclaimed c1 sp2 w2 c' sp' w' → kept_ok c' sp' w'.
Proof.
  intros Hco Hrc. pose proof Hco as [_ _ _ Hnd Hr He _].
  assert (Hfull : ∀ b, b ∈ all_blocks c' → b ∈ all_blocks c1 ∧ is_full (w_store w2) b).
  { intros b. rewrite (rc_full _ _ _ _ _ _ Hrc). intros [? ?]%list_elem_of_filter. done. }
  constructor.
  - rewrite (rc_full _ _ _ _ _ _ Hrc). by apply NoDup_filter.
  - intros b [Hb Hf]%Hfull. destruct (Hr b Hb) as [Hr1 Hr2]. split; [by eapply rc_in_range|].
    eapply rc_unavailable; [exact Hrc|done|]. intros [Hfr _]%list_elem_of_filter.
    unfold is_full, is_free in *. destruct Hf. congruence.
  - rewrite (rc_normal _ _ _ _ _ _ Hrc). unfold v_blocks, cur_block. cbn. rewrite app_nil_r.
    intros b [_ [_ Hf]]%Hfull [[_ Hg] _]%list_elem_of_filter. congruence.
  - rewrite (rc_overflow _ _ _ _ _ _ Hrc). intros b _ Hb. by apply not_elem_of_nil in Hb.
  - destruct (rc_evac _ _ _ _ _ _ Hrc) as (k & -> & _). intros b [Hb [Hf _]]%Hfull. unfold v_blocks, cur_block. cbn [v_cur v_pool v_full].
    rewrite !elem_of_app. intros Hin. destruct (decide (b ∈ v_blocks (evac_v sp2 w2))) as [Hv|Hv]; [by apply (He b)|].
    unfold v_blocks, cur_block in Hv. rewrite !elem_of_app in Hv.
    destruct Hin as [?|[[?|[Hfr _]%elem_of_take_1%list_elem_of_filter]|?]]; try tauto.
    unfold is_free in Hfr. congruence.
Qed.

(** The objects matter as a set. *)
Lemma heap_inv_ext `{Cfg} rtti_of objs objs' self w : (∀ o, o ∈ objs' ↔ o ∈ objs) → NoDup objs' →
  heap_inv rtti_of objs self w → heap_inv rtti_of objs' self w.
Proof.
  intros E Hn [H1 H2 H3 H3' H4 _ H6 H7 H8 H9 H10 H11 H12 H13 H14]. constructor; try done; try (intros o Ho; rewrite ?E in *; auto; fail).
  - intros o Ho%E. destruct (H7 o Ho) as [A B C]. constructor; try done. intros a Ha. rewrite E. auto.
  - intros o x Ho%E. by apply H10.
  - intros a. by rewrite E.
Qed.

(** ** The heap after a collection *)

Section Collected.
Context `{Cfg} (rtti_of : Z → GCRTTI).
Context (objs : list Z) (self : Immix) (w : World) (Hi : heap_inv rtti_of objs self w).
Context (c1 : Collector) (Hc1 : all_blocks c1 ≡ₚ heap_blocks self w).

Abbreviation next := (negb (im_live_mark self)).
Abbreviation sp1 := (emptied (im_immix self)).

Context (all_roots : list Z) (visited : Z) (sp2 : ImmixSpace) (w2 : World).
Context (Hms : marked_state rtti_of next objs c1 sp1 w all_roots visited sp2 w2).
Context (c' : Collector) (sp' : ImmixSpace) (w' : World) (Hrc : reclaimed c1 sp2 w2 c' sp' w').

(** The objects that are left. *)
Definition survivors : list Z := filter (λ o, marked_obj next w2 o = true) objs.

Lemma elem_of_survivors o : o ∈ survivors ↔ o ∈ objs ∧ reachable rtti_of w all_roots o.
Proof.
  unfold survivors. rewrite list_elem_of_filter. split.
  - intros [Hm Ho]. split; [done|]. by apply (ms_marked _ _ _ _ _ _ _ _ _ _ Hms).
  - intros [Ho Hr]. split; [|done]. by apply (ms_marked _ _ _ _ _ _ _ _ _ _ Hms).
Qed.

Lemma collected_heap_ok : heap_ok rtti_of next objs (all_blocks c1) w.
Proof. eapply heap_ok_perm; [symmetry; exact Hc1|]. by apply heap_inv_ok. Qed.

Abbreviation Hk := collected_heap_ok.

Lemma survivor_words o a : o ∈ survivors → o <= a < o + osize rtti_of w o → word (w_store w') a = word (w_store w2) a.
Proof.
  intros [Ho Hr]%elem_of_survivors Ha.
  eapply (live_kept rtti_of next objs c1 _ w); [exact Hms|exact Hk|exact Hrc|done| |done|done].
  by eapply object_immix.
Qed.

(** The header of an unreachable object can still be read where a reachable one keeps
    the block: it has the old mark. *)
Lemma dead_header o o' : o ∈ objs → ¬ reachable rtti_of w all_roots o → o' ∈ survivors →
  Block.get_block_ptr o' = Block.get_block_ptr o →
  header_wf (word (w_store w') o) ∧ hd_mark (decode (word (w_store w') o)) = im_live_mark self ∧
  hd_pointer (decode (word (w_store w') o)) = vtable_of w o.
Proof.
  intros Ho Hd [Ho' Hr']%elem_of_survivors Eb.
  assert (Hnf : ¬ is_free (w_store w2) (Block.get_block_ptr o)).
  { rewrite <- Eb. eapply (live_block rtti_of next objs c1 _ w); [exact Hms|exact Hk|exact Ho'| |exact Hr']. by eapply object_immix. }
  assert (Ew : word (w_store w') o = word (w_store w2) o).
  { apply (rc_words _ _ _ _ _ _ Hrc). intros c Hc Hf Hx. apply Hnf. destruct (block_ptr_facts o) as (Hm & Hb & _).
    destruct (hk_blocks _ _ _ _ _ Hk c Hc) as [Hcm _]. consts.
    assert (Block.get_block_ptr o = c) as <-; [|done]. Z.div_mod_to_equations. lia. }
  rewrite Ew. destruct (hn_header _ _ _ (ms_now _ _ _ _ _ _ _ _ _ _ Hms) o Ho) as (Hwf & _ & Hp). split_and!; [done| |done].
  rewrite <- (ms_marked _ _ _ _ _ _ _ _ _ _ Hms) in Hd by done. unfold marked_obj in Hd. rewrite bool_decide_eq_true in Hd.
  by destruct (hd_mark _), (im_live_mark self).
Qed.

Lemma survivor_agree o : o ∈ survivors → agree rtti_of w w' o.
Proof.
  intros Hs. pose proof Hs as [Ho Hr]%elem_of_survivors. destruct (osize_ge _ _ _ _ (hi_object _ _ _ _ Hi o Ho)) as [? _].
  destruct (hn_header _ _ _ (ms_now _ _ _ _ _ _ _ _ _ _ Hms) o Ho) as (_ & _ & Hp). split.
  - unfold vtable_of at 1. rewrite (survivor_words o o Hs) by lia. exact Hp.
  - intros a Ha. rewrite (survivor_words o a Hs) by lia. apply (hn_same _ _ _ (ms_now _ _ _ _ _ _ _ _ _ _ Hms)).
    apply (apart_inside rtti_of objs w o); try done; apply Hi.
Qed.

(** Memory outside the space is what it was. *)
Lemma outside_swept a : BA.is_in_space (w_ba w) a = false → word (w_store w') a = word (w_store w) a.
Proof.
  intros Ha. assert (Ha2 : BA.is_in_space (w_ba w2) a = false) by (by rewrite (ms_ba _ _ _ _ _ _ _ _ _ _ Hms)).
  rewrite (reclaimed_outside _ _ _ _ _ _ (ms_collecting _ _ _ _ _ _ _ _ _ _ Hms) Hrc a Ha2).
  apply (hn_same _ _ _ (ms_now _ _ _ _ _ _ _ _ _ _ Hms)). by eapply outside_not_object.
Qed.

Lemma survivor_slots o a : o ∈ survivors → a ∈ slots rtti_of w o → word (w_store w) a ∈ survivors.
Proof.
  intros [Ho (r & Hr & Hrt)]%elem_of_survivors Ha. apply elem_of_survivors.
  split; [by apply (ob_slots _ _ _ _ (hi_object _ _ _ _ Hi o Ho))|]. exists r. split; [done|].
  eapply rtc_r; [exact Hrt|]. unfold edge, kids. apply list_elem_of_fmap. by exists a.
Qed.

(** Where the blocks are. *)
Lemma survivor_block o : o ∈ survivors →
  Block.get_block_ptr o ∈ all_blocks c' ∨ Block.get_block_ptr o ∈ v_pool (normal_v sp' w').
Proof.
  intros [Ho Hr]%elem_of_survivors. destruct (hi_placed _ _ _ _ Hi o Ho) as [Hb _].
  assert (Hnf : ¬ is_free (w_store w2) (Block.get_block_ptr o)).
  { eapply (live_block rtti_of next objs c1 _ w); [exact Hms|exact Hk|exact Ho| |exact Hr]. by eapply object_immix. }
  pose proof (block_partition (w_store w2) (all_blocks c1)) as Hp.
  assert (Hin : Block.get_block_ptr o ∈ all_blocks c1) by (rewrite Hc1; exact Hb).
  rewrite Hp, !elem_of_app in Hin. rewrite (rc_full _ _ _ _ _ _ Hrc), (rc_normal _ _ _ _ _ _ Hrc). cbn [v_pool].
  destruct Hin as [Hin|[[? _]%list_elem_of_filter|Hin]]; tauto.
Qed.

Lemma kept_after : kept_ok c' sp' w'.
Proof. eapply reclaimed_kept; [apply Hms|exact Hrc]. Qed.

Lemma starts_after a : object_start sp' w' a ↔ a ∈ survivors.
Proof.
  destruct (rc_ba _ _ _ _ _ _ Hrc) as [Em Ed]. rewrite (ms_ba _ _ _ _ _ _ _ _ _ _ Hms) in Em, Ed.
  destruct (ms_bitmap _ _ _ _ _ _ _ _ _ _ Hms) as [Eh Hmk].
  pose proof (so_bitmap _ _ (hi_space _ _ _ _ Hi)) as (_ & Hbeg & _). pose proof (hi_aligned _ _ _ _ Hi) as Hal.
  change (bitmap sp1) with (bitmap (im_immix self)) in Eh.
  assert (Hgr : ∀ x, Space.granule 16 (bitmap sp2) x = Space.granule 16 (bitmap (im_immix self)) x)
    by (intros; unfold Space.granule; by rewrite Eh).
  unfold object_start. rewrite (rc_bitmap _ _ _ _ _ _ Hrc), Em, Ed. split.
  - intros (Hm & Hr & Hg). assert (Hpos : 0 <= Space.granule 16 (bitmap sp2) a) by (apply Z.div_pos; lia).
    destruct (ms_starts _ _ _ _ _ _ _ _ _ _ Hms _ Hpos Hg) as [[Hold Hout]|(o & Ho & Hro & Hio & Hgo)]; [exfalso|].
    + rewrite Hgr in Hold. assert (Ha : a ∈ objs) by (apply (hi_starts _ _ _ _ Hi); split; [done|split; [exact Hr|exact Hold]]).
      destruct (hi_placed _ _ _ _ Hi a Ha) as (Hb & P1 & P2). pose proof (osize_ge _ _ _ _ (hi_object _ _ _ _ Hi a Ha)).
      apply (Hout (Block.get_block_ptr a)); [by rewrite Hc1|]. change (bitmap sp1) with (bitmap (im_immix self)). rewrite Hgr. unfold Space.granule.
      rewrite Hbeg in *. consts. Z.div_mod_to_equations. lia.
    + assert (Hos : object_start (im_immix self) w o) by (by apply (hi_starts _ _ _ _ Hi)). destruct Hos as (Hom & Hor & _).
      assert (o = a) as -> by (unfold Space.granule in Hgo; rewrite Eh, Hbeg in Hgo; Z.div_mod_to_equations; lia).
      by apply elem_of_survivors.
  - intros [Ho Hr]%elem_of_survivors. pose proof (proj2 (hi_starts _ _ _ _ Hi a) Ho) as (Hm & Hra & _).
    split; [done|]. split; [exact Hra|]. apply Hmk; [done|done|]. by eapply object_immix.
Qed.

Definition collected_immix (los : LargeObjectSpace) (fin : list Z) : Immix :=
  mkImmix los (ImmixSpaceM.set_current_live_mark sp' next) (im_stack_bottom self) (im_gc_stats self) (im_stack_end self)
    visited (next_threshold (im_threshold self) visited) next (im_callbacks self) c' fin.

Lemma collected_inv los fin : allocations los = [] → (∀ o, o ∈ fin → o ∈ survivors) →
  heap_inv rtti_of survivors (collected_immix los fin) w'.
Proof.
  intros Hlos Hfin. pose proof (ms_collecting _ _ _ _ _ _ _ _ _ _ Hms) as Hco.
  pose proof (reclaimed_space_ok _ _ _ _ _ _ Hco Hrc) as Hok.
  assert (Hsub : ∀ o, o ∈ survivors → o ∈ objs) by (intros o; rewrite elem_of_survivors; tauto).
  assert (Hsz : ∀ o, o ∈ survivors → osize rtti_of w' o = osize rtti_of w o).
  { intros o Ho. eapply agree_facts; [apply (hi_object _ _ _ _ Hi); auto|by apply survivor_agree]. }
  constructor; cbn [collected_immix im_immix im_los im_collector im_live_mark im_to_finalize].
  - by destruct Hok.
  - by destruct kept_after.
  - intros _. destruct (rc_fields _ _ _ _ _ _ Hrc) as [F1 F2]. destruct (ms_space _ _ _ _ _ _ _ _ _ _ Hms) as [-> _] in F1, F2.
    by split.
  - apply Hrc.
  - destruct (rc_ba _ _ _ _ _ _ Hrc) as [-> _]. rewrite (ms_ba _ _ _ _ _ _ _ _ _ _ Hms). apply Hi.
  - apply NoDup_filter, Hi.
  - intros o Ho. pose proof (proj1 (elem_of_survivors o) Ho) as [Hin Hr].
    pose proof (osize_ge _ _ _ _ (hi_object _ _ _ _ Hi o Hin)). rewrite (survivor_words o o Ho) by lia.
    destruct (hn_header _ _ _ (ms_now _ _ _ _ _ _ _ _ _ _ Hms) o Hin) as (? & ? & _). split_and!; try done.
    apply (ms_marked _ _ _ _ _ _ _ _ _ _ Hms) in Hr; [|done]. by apply bool_decide_eq_true in Hr.
  - intros o Ho. eapply agree_ok; [apply (hi_object _ _ _ _ Hi); auto|by apply survivor_agree|].
    intros a Ha. by eapply survivor_slots.
  - intros o Ho. destruct (hi_placed _ _ _ _ Hi o (Hsub o Ho)) as (_ & P1 & P2). unfold placed_in. rewrite Hsz by done.
    split_and!; try done. unfold heap_blocks. cbn [im_collector im_immix]. apply elem_of_app.
    destruct (survivor_block o Ho) as [?|Hb]; [by left|right].
    apply elem_of_app. left.
    assert (Hp : Block.get_block_ptr o ∈ taken (ImmixSpaceM.set_current_live_mark sp' next)); [|done].
    unfold taken. cbn. rewrite !elem_of_app. left. right. by left.
  - intros o1 o2 H1 H2. rewrite !Hsz by done. apply Hi; auto.
  - intros o x Ho. rewrite Hsz by done. intros Hx Hf. pose proof (proj1 (elem_of_survivors o) Ho) as [Hin Hr].
    eapply (live_not_free rtti_of next objs c1 _ w); [exact Hms|exact Hk|exact Hrc|exact Hin| |exact Hr|exact Hx|exact Hf].
    by eapply object_immix.
  - intros a. apply starts_after.
  - done.
  - done.
  - apply Hrc.
Qed.

End Collected.
