(* ===== verification/HeapCollect.v ===== *)
(** * A collection of the whole heap

    [collect_internal] without moving objects, from the callbacks and the stack scan to
    the flip of the live mark, on a heap that satisfies [heap_inv]: as [immix_collect]
    calls it, and as [allocate] does. *)

From stdpp Require Import base numbers list list_numbers gmap relations.
From Stdlib Require Import ZArith Lia.
From S2P Require Import Prelude Util Constants Bitmap Block SpaceBitmap Object BlockAllocator.
From S2P Require Import Allocation AllocatorLaws Allocators ImmixSpace LargeObjectSpace.
From S2P Require Import Collector Sweep Marking Collection Immix Roots Heap.
Import CollectorM ImmixHeap.
Import ImmixSpaceM(space_ok(..), free_space, normal_v, overflow_v, evac_v, evac_headroom, so_world).
Local Open Scope Z_scope.

(** ** The threshold *)

Lemma next_threshold_above t v : 0 < t → 0 <= v < 2 ^ 63 → v mod 16 = 0 → v < next_threshold t v.
Proof.
  intros Ht Hv Hm. unfold next_threshold. case_decide; [|lia].
  apply F64.times_1_75_grows. Z.div_mod_to_equations. lia.
Qed.

Lemma sum_mod16 {A} (f : A → Z) l : (∀ x, x ∈ l → f x mod 16 = 0) → sum_list (f <$> l) mod 16 = 0.
Proof.
  induction l as [|x l IH]; intros Hf; [done|]. rewrite fmap_cons. change (sum_list _) with (f x + sum_list (f <$> l)).
  rewrite Z.add_mod, Hf, IH by (done || left || (intros; apply Hf; by right)). done.
Qed.

(** ** The kind of collection *)

(** The blocks that are left, with the headroom; below a quarter of all blocks a
    collection starts to evacuate. *)
Definition plenty (self : Immix) (w : World) : Prop :=
  (mm_end (mmap (w_ba w)) - Mmap_aligned (mmap (w_ba w))) / BLOCK_SIZE / 4 <=
  (data_bound (w_ba w) - data (w_ba w)) / BLOCK_SIZE + Z.of_nat (length (free_blocks (w_ba w))) + evac_headroom (im_immix self).

Lemma prepare_plain c s available headroom total : 0 <= available → 0 <= headroom → available + headroom < 2 ^ 64 →
  total / 4 <= available + headroom →
  prepare_collection c s false available headroom total false = Ok (ImmixCollection, s).
Proof.
  intros Ha Hh Hs Ht. unfold prepare_collection. cbn [andb orb]. rewrite u_add_ok, bind_Ok by lia.
  unfold evac_trigger. by rewrite bool_decide_eq_false_2 by lia.
Qed.

(** ** Roots *)

Section Roots.
Context `{Cfg} (rtti_of : Z → GCRTTI) (pm : pmem) (objs : list Z) (self : Immix) (w : World).

Definition precise_roots : list Z := (callback_roots (words (w_store w)) (im_callbacks self)).1.
(** The ranges of the callbacks, then the stack. *)
Definition ranges : list (Z * Z) :=
  (callback_roots (words (w_store w)) (im_callbacks self)).2 ++ [(im_stack_bottom self, im_stack_end self)].
Definition range_words (r : Z * Z) : list Z := scan_addresses (scan_lo r.1 r.2) (scan_hi r.1 r.2).

(** The objects the words of a range refer to. *)
Definition range_roots (r : Z * Z) : list Z :=
  range_words r ≫= (λ a, found_in (emptied (im_immix self)) (im_los self) w (word (w_store w) a)).
(** With the given ranges to scan. *)
Definition roots_in (rs : list (Z * Z)) : list Z := rs ≫= range_roots.
Definition roots_from (rs : list (Z * Z)) : list Z := roots_in rs ++ (word (w_store w) <$> precise_roots).
(** With those of a build without threads. *)
Definition conservative_roots : list Z := roots_in ranges.
Definition all_roots : list Z := roots_from ranges.

(** What the collector relies on about the roots: precise slots are outside the
    objects and hold objects; conservative ranges are outside too, and no word of
    them is the end address of the heap. *)
Record rooted (rs : list (Z * Z)) : Prop := {
  ro_precise : ∀ a, a ∈ precise_roots → (a ∉ objs) ∧ word (w_store w) a ∈ objs;
  ro_ranges : ∀ r, r ∈ rs → 0 < r.1 < 2 ^ 63 ∧ 0 < r.2 < 2 ^ 63;
  ro_words : ∀ r a, r ∈ rs → a ∈ range_words r → (a ∉ objs) ∧ in_width 64 (word (w_store w) a) ∧
    word (w_store w) a ≠ data_bound (w_ba w) ∧ word (w_store w) a ≠ data_bound (w_ba w) + 8
}.

(** The scans work on the heap no thread has a block of. *)
Context (rs : list (Z * Z)) (Hpk : parked w = w) (Hi : heap_inv rtti_of objs self w) (Hro : rooted rs).

Lemma emptied_space_ok : space_ok (emptied (im_immix self)) w.
Proof.
  pose proof (collecting_now rtti_of objs self w Hi (mkCollector (heap_blocks self w) ∅) ltac:(done)) as Hco.
  rewrite Hpk in Hco. apply Hco.
Qed.

Lemma words_scannable addrs : (∀ a, a ∈ addrs → (a ∉ objs) ∧ in_width 64 (word (w_store w) a) ∧
    word (w_store w) a ≠ data_bound (w_ba w) ∧ word (w_store w) a ≠ data_bound (w_ba w) + 8) →
  scannable objs (emptied (im_immix self)) (im_los self) pm w addrs.
Proof.
  intros Ha. pose proof (hi_large _ _ _ _ Hi) as El. constructor.
  - apply emptied_space_ok.
  - unfold LOS.los_wf. rewrite El. split; [split; [constructor|]|constructor]. intros p Hp. by apply not_elem_of_nil in Hp.
  - rewrite El. intros p Hp. by apply not_elem_of_nil in Hp.
  - intros a Hs. by apply (hi_starts _ _ _ _ Hi).
  - intros o Ho. by apply (hi_header _ _ _ _ Hi).
  - exact Ha.
Qed.

Lemma range_scannable r : r ∈ rs → scannable objs (emptied (im_immix self)) (im_los self) pm w (range_words r).
Proof. intros Hr. apply words_scannable. intros a Ha. by apply (ro_words _ Hro r). Qed.

Lemma scan_start : pinned objs w [] w.
Proof.
  eapply (pinned_start objs (emptied (im_immix self)) (im_los self) pm). eapply (words_scannable []).
  intros a Ha. by apply not_elem_of_nil in Ha.
Qed.

(** One range. *)
Lemma collect_range_ok f t roots w1 : (f, t) ∈ rs → pinned objs w roots w1 →
  ∃ w', collect_roots (emptied (im_immix self)) (im_los self) pm f t (roots, w1) = Ok (roots ++ range_roots (f, t), w') ∧
    pinned objs w (roots ++ range_roots (f, t)) w'.
Proof.
  intros Hin Hp. destruct (ro_ranges _ Hro _ Hin) as [Hf Ht].
  exact (collect_roots_ok objs _ _ pm w f t roots w1 Hf Ht (range_scannable _ Hin) Hp).
Qed.

Lemma collect_ranges_ok l roots w1 : (∀ r, r ∈ l → r ∈ rs) → pinned objs w roots w1 →
  ∃ w', for_each (λ st '(bottom, end_), collect_roots (emptied (im_immix self)) (im_los self) pm bottom end_ st) l (roots, w1)
      = Ok (roots ++ roots_in l, w') ∧ pinned objs w (roots ++ roots_in l) w'.
Proof.
  revert roots w1. induction l as [|[f t] l IH]; intros roots w1 Hl Hp; [exists w1; cbn; by rewrite app_nil_r|].
  cbn [for_each]. destruct (collect_range_ok f t roots w1) as (w2 & -> & Hp2); [apply Hl; left|done|]. rewrite bind_Ok.
  destruct (IH _ w2 ltac:(intros; apply Hl; by right) Hp2) as (w' & -> & Hp'). exists w'.
  unfold roots_in in *. rewrite bind_cons, app_assoc. done.
Qed.

Lemma roots_in_objs r : r ∈ roots_in rs → r ∈ objs.
Proof.
  intros (rg & (a & Hf & Ha)%list_elem_of_bind & Hrg)%list_elem_of_bind.
  pose proof (range_scannable rg Hrg) as Hsc. destruct (ro_words _ Hro rg a Hrg Ha) as (_ & Hv & _).
  apply (found_in_refers objs _ _ pm w _ _ _ Hsc Hv) in Hf as [[-> Hl]|[Hs _]]; [|by apply (hi_starts _ _ _ _ Hi)].
  rewrite (hi_large _ _ _ _ Hi) in Hl. by apply not_elem_of_nil in Hl.
Qed.

Lemma roots_from_objs r : r ∈ roots_from rs → r ∈ objs.
Proof.
  unfold roots_from. rewrite elem_of_app. intros [Hr|(a & -> & Ha)%list_elem_of_fmap]; [by apply roots_in_objs|].
  by apply (ro_precise _ Hro).
Qed.

End Roots.

(** ** Worlds with the same objects have the same graph *)

Lemma reach_same rtti_of objs w w' roots o : (∀ x, x ∈ objs → object_ok rtti_of objs w x) →
  (∀ x, x ∈ objs → agree rtti_of w w' x) → (∀ r, r ∈ roots → r ∈ objs) →
  reachable rtti_of w' roots o ↔ reachable rtti_of w roots o.
Proof.
  intros Hob Hag Hr.
  assert (Hkid : ∀ x, x ∈ objs → kids rtti_of w' x = kids rtti_of w x) by (intros x Hx; eapply agree_facts; auto).
  assert (Hin : ∀ x y, x ∈ objs → edge rtti_of w x y → y ∈ objs).
  { intros x y Hx (a & -> & Ha)%list_elem_of_fmap. by apply (ob_slots _ _ _ _ (Hob x Hx)). }
  split; intros (r & Hrr & Hrt); exists r; (split; [done|]); apply Hr in Hrr; clear - Hrr Hrt Hkid Hin.
  - induction Hrt as [x|x y z Hxy Hyz IH]; [done|]. unfold edge in Hxy. rewrite Hkid in Hxy by done.
    eapply rtc_l; [exact Hxy|]. apply IH. by eapply Hin.
  - induction Hrt as [x|x y z Hxy Hyz IH]; [done|]. pose proof (Hin x y Hrr Hxy).
    eapply rtc_l; [unfold edge; by rewrite Hkid|]. by apply IH.
Qed.

(** ** Pinning, unpinning and finalization *)

Section Tags.
Context `{Cfg} (rtti_of : Z → GCRTTI) (objs : list Z) (self : Immix).

Lemma pinned_inv w roots w' : heap_inv rtti_of objs self w → pinned objs w roots w' →
  heap_inv rtti_of objs self w' ∧ ∀ o, o ∈ objs → agree rtti_of w w' o.
Proof.
  intros Hi [Hw Hs Hh].
  assert (Hn : heap_now objs w w').
  { constructor; [done|]. intros o Ho. destruct (Hh o Ho) as [Hwf ->]. destruct (hi_header _ _ _ _ Hi o Ho) as (_ & Hf & _).
    by split_and!. }
  rewrite Hw. rewrite Hw in Hn, Hh. split.
  - apply heap_inv_tags; [done|exact Hn|]. intros o Ho. destruct (Hh o Ho) as [_ E]. exact (f_equal hd_mark E).
  - intros o Ho. split; [by apply (hn_header _ _ _ Hn)|]. intros a Ha. apply (hn_same _ _ _ Hn).
    apply (apart_inside rtti_of objs w o); try done; apply Hi.
Qed.

Lemma unpin_at_ok w o : heap_inv rtti_of objs self w → o ∈ objs →
  ∃ w', unpin_at w o = Ok w' ∧ heap_inv rtti_of objs self w' ∧ heap_now objs w w' ∧ w_tls w' = w_tls w.
Proof.
  intros Hi Ho. destruct (hi_header _ _ _ _ Hi o Ho) as (Hwf & Hf & Hm).
  destruct (HeaderFacts.unpin_ok _ Hwf) as (h & E & Hwf' & Hd). unfold unpin_at. rewrite E, bind_Ok.
  assert (Hsame : ∀ a, a ∉ objs → word (set_word (w_store w) o h) a = word (w_store w) a).
  { intros a Ha. rewrite word_set, decide_False; [done|]. by intros ->. }
  set (w' := set_store w (set_word (w_store w) o h)).
  assert (Hn : heap_now objs w w').
  { constructor; [exact Hsame|]. intros x Hx. cbn [w' set_store w_store]. rewrite word_set.
    destruct (decide (x = o)) as [->|Hne]; [rewrite Hd; by split_and!|].
    destruct (hi_header _ _ _ _ Hi x Hx) as (? & ? & _). by split_and!. }
  exists w'. split; [done|]. split; [|split; [exact Hn|done]].
  apply (heap_inv_tags rtti_of objs self w (<[o := h]> (words (w_store w))) Hi Hn). intros x Hx.
  change (hd_mark (decode (word (set_word (w_store w) o h) x)) = hd_mark (decode (word (w_store w) x))).
  rewrite word_set. destruct (decide (x = o)) as [->|Hne]; [by rewrite Hd|done].
Qed.

Lemma heap_now_trans w w1 w2 : heap_now objs w w1 → heap_now objs w1 w2 → heap_now objs w w2.
Proof.
  intros [S1 H1] [S2 H2]. constructor; [intros a Ha; rewrite S2, S1; done|].
  intros o Ho. destruct (H2 o Ho) as (? & ? & E). split_and!; try done. rewrite E. by apply H1.
Qed.

Lemma heap_now_refl w : heap_inv rtti_of objs self w → heap_now objs w w.
Proof. intros Hi. constructor; [done|]. intros o Ho. destruct (hi_header _ _ _ _ Hi o Ho) as (? & ? & _). by split_and!. Qed.

Lemma unpin_all_ok w l : heap_inv rtti_of objs self w → (∀ o, o ∈ l → o ∈ objs) →
  ∃ w', for_each unpin_at l w = Ok w' ∧ heap_inv rtti_of objs self w' ∧ heap_now objs w w' ∧ w_tls w' = w_tls w.
Proof.
  revert w. induction l as [|o l IH]; intros w Hi Hl; [exists w; split_and!; try done; by apply heap_now_refl|]. cbn [for_each].
  destruct (unpin_at_ok w o Hi) as (w1 & -> & Hi1 & Hs1 & Et1); [apply Hl; left|]. rewrite bind_Ok.
  destruct (IH w1 Hi1) as (w2 & -> & Hi2 & Hs2 & Et2); [intros; apply Hl; by right|].
  exists w2. split_and!; try done; [by eapply heap_now_trans|congruence].
Qed.

End Tags.

(** The walk over the objects to finalize: those of [objs'] have the other mark and stay,
    the others are taken off the list and their finalizers called. *)
Lemma finalize_walk rtti_of s live_mark (objs' : list Z) (type : Z → GCRTTI) l :
  (∀ o, o ∈ l → o ∈ objs' → header_wf (word s o) ∧ hd_mark (decode (word s o)) = negb live_mark) →
  (∀ o, o ∈ l → o ∉ objs' → header_wf (word s o) ∧ hd_mark (decode (word s o)) = live_mark ∧
     rtti_of (hd_pointer (decode (word s o))) = type o ∧ needs_finalization (type o) = true) →
  finalize rtti_of s live_mark l = Ok (filter (.∈ objs') l, filter (λ o, (o ∉ objs') ∧ finalizer (type o) = true) l).
Proof.
  induction l as [|o l IH]; intros Hl Hd; [done|]. cbn [finalize].
  rewrite IH by (intros; (apply Hl || apply Hd); [by right|done]). rewrite !filter_cons.
  destruct (decide (o ∈ objs')) as [Ho|Ho].
  - destruct (Hl o ltac:(left) Ho) as [Hw Hm]. rewrite HeaderFacts.get_mark_ok, bind_Ok, Hm by done.
    rewrite decide_False by (by destruct live_mark). by rewrite !bind_Ok, decide_False by tauto.
  - destruct (Hd o ltac:(left) Ho) as (Hw & Hm & Ht & Hn). rewrite HeaderFacts.get_mark_ok, bind_Ok, Hm by done.
    rewrite decide_True, HeaderFacts.vtable_ok, !bind_Ok, Ht, Hn by done.
    destruct (finalizer (type o)); [by rewrite decide_True|by rewrite decide_False by (by intros [_ ?])].
Qed.

(** ** Finalization *)

Section Final.
Context `{Cfg} (rtti_of : Z → GCRTTI) (objs : list Z) (self : Immix) (w : World) (rs : list (Z * Z)).

Abbreviation live := (reachable rtti_of w (roots_from self w rs)).

(** An object to finalize that a collection can deal with.  It is live and stays at its
    place, as the list has its address; or it is dead, of a type to be finalized, and a
    live object that stays keeps its block, as its header is read after the sweep. *)
Definition finalizable (stays : Z → Prop) (o : Z) : Prop :=
  live o ∧ stays o ∨
  ¬ live o ∧ needs_finalization (rtti rtti_of w o) = true ∧
    ∃ o', o' ∈ objs ∧ live o' ∧ stays o' ∧ Block.get_block_ptr o' = Block.get_block_ptr o.

(** Whose finalizers a collection calls that leaves [objs']. *)
Definition finalized (objs' : list Z) : list Z :=
  filter (λ o, (o ∉ objs') ∧ finalizer (rtti rtti_of w o) = true) (im_to_finalize self).

Lemma finalized_ext objs1 objs2 : (∀ o, o ∈ objs1 ↔ o ∈ objs2) → finalized objs1 = finalized objs2.
Proof. intros E. apply list_filter_iff. intros o. by rewrite E. Qed.

End Final.

(** ** Candidates for evacuation *)

(** The blocks of [l] that [f] chooses as candidates, and no other block of [l]. *)
Definition flagged (f : Store → Z → bool) (w : World) (l : list Z) : World :=
  set_store w (foldl (λ s b, set_candidate s b (f s b)) (w_store w) l).

Lemma flag_facts f l s : let s' := foldl (λ s b, set_candidate s b (f s b)) s l in
  words s' = words s ∧ (∀ b, line_map (header s' b) = line_map (header s b)) ∧ ∀ b, b ∉ l → header s' b = header s b.
Proof.
  revert s. induction l as [|x l IH]; intros s; [done|]. cbn [foldl]. destruct (IH (set_candidate s x (f s x))) as (I1 & I2 & I3).
  split; [exact I1|]. split.
  - intros b. rewrite I2. unfold set_candidate. rewrite header_set. case_decide; by subst.
  - intros b [Hx Hl]%not_elem_of_cons. rewrite I3 by done. unfold set_candidate. by rewrite header_set, decide_False.
Qed.

Lemma flagged_word f w l a : word (w_store (flagged f w l)) a = word (w_store w) a.
Proof. unfold word. cbn. by rewrite (proj1 (flag_facts f l (w_store w))). Qed.

(** What is free depends on the line marks only. *)
Lemma free_space_lines `{Cfg} sp ba s s' t x :
  (∀ b i, marked_line (mkWorld ba s' t) b i = marked_line (mkWorld ba s t) b i) →
  free_space sp (mkWorld ba s' t) x → free_space sp (mkWorld ba s t) x.
Proof.
  intros E. assert (Hs : ∀ b lo, in_span (mkWorld ba s' t) b lo x → in_span (mkWorld ba s t) b lo x).
  { intros b lo [? Hm]. split; [done|]. intros i Hi. rewrite <- E. auto. }
  assert (Hv : ∀ v, free_in_view (mkWorld ba s' t) v x → free_in_view (mkWorld ba s t) v x).
  { intros v [(b & lo & hi & ? & ?)|(b & ? & ?)]; [left; eauto 6|right; eauto]. }
  intros [Hf|[Hf|[Hf|(b & Hb & Hf)]]]; [left|right; left|right; right; left|right; right; right; eauto]; by apply Hv.
Qed.

(** The heap does not depend on which blocks are candidates. *)
Lemma heap_inv_flagged `{Cfg} rtti_of objs self f w l : (∀ b, b ∈ l → ¬ BA.available (w_ba w) b) →
  heap_inv rtti_of objs self w → heap_inv rtti_of objs self (flagged f w l).
Proof.
  intros Hl. destruct (flag_facts f l (w_store w)) as (Ew & Elm & Eh). unfold flagged.
  destruct w as [ba [h ws] t], (foldl _ _ l) as [h' ws']. cbn in Ew, Elm, Eh, Hl. subst ws'.
  assert (Eml : ∀ b i, marked_line (mkWorld ba (mkStore h' ws) t) b i = marked_line (mkWorld ba (mkStore h ws) t) b i).
  { intros b i. unfold marked_line, line_bit. cbn. by rewrite Elm. }
  assert (Hv : ∀ clean v, view_ok clean (mkWorld ba (mkStore h ws) t) v → view_ok clean (mkWorld ba (mkStore h' ws) t) v).
  { intros clean v [V1 V2 V3 V4]. constructor; try done.
    - intros [[b lo] hi] E. destruct (V1 _ E) as (? & ? & ? & Hm). split_and!; try done; try lia. intros i Hi. rewrite Eml. auto.
    - intros Hc b Hb i. rewrite Eml. auto. }
  intros [[[W1 W2 W3] S2 S3 S4 S5 S6 S7 S8] H2 H3 H4 H5 H6 H7 H8 H9 H10 H11 H12 H13 H14 H15].
  constructor; try done.
  - constructor; try done; try by apply Hv. constructor; [done|..].
    + intros b. unfold block_wf. cbn. rewrite Elm. apply (W2 b).
    + intros b Hb. rewrite <- (W3 b Hb). apply Eh. intros Hin. by apply (Hl b).
  - by destruct H2; constructor.
  - intros o Ho. destruct (H8 o Ho). by constructor.
  - intros o x Ho Hx Hf. apply (H11 o x Ho Hx). by apply (free_space_lines _ _ _ _ _ _ Eml) in Hf.
Qed.

(** ** The collection *)

Section Collect.
Context `{Cfg} (rtti_of : Z → GCRTTI) (freed_size : Z → Z) (Hfs : ∀ p, 0 <= freed_size p).
Context (objs : list Z) (self : Immix) (w : World) (pm : pmem) (rs : list (Z * Z)).
Context (emergency : bool).

(** A heap no thread has a block of, ready for a collection that scans the ranges [rs]
    and moves nothing: a requested one that finds enough blocks, or one of an allocation
    (an emergency, which wants to evacuate) that finds no headroom to move objects to.
    The verbose statistics subtract what is visited from what was counted. *)
Record ready_for : Prop := {
  rd_parked : parked w = w;
  rd_inv : heap_inv rtti_of objs self w;
  rd_rooted : rooted objs self w rs;
  rd_calm : if emergency then e_evac_headroom (evac_allocator (im_immix self)) = [] else plenty self w;
  rd_stats : im_gc_stats self = Verbose → sum_list (osize rtti_of w <$> objs) <= im_allocated self;
  rd_finalize : ∀ o, o ∈ im_to_finalize self → finalizable rtti_of objs self w rs (λ _, True) o
}.

(** The same without what the choice of the kind of collection depends on. *)
Record calm : Prop := {
  ca_parked : parked w = w;
  ca_inv : heap_inv rtti_of objs self w;
  ca_rooted : rooted objs self w rs;
  ca_stats : im_gc_stats self = Verbose → sum_list (osize rtti_of w <$> objs) <= im_allocated self;
  ca_finalize : ∀ o, o ∈ im_to_finalize self → finalizable rtti_of objs self w rs (λ _, True) o
}.

Lemma ready_calm : ready_for → calm.
Proof. by intros []. Qed.

Abbreviation sp1 := (emptied (im_immix self)).
Abbreviation next := (negb (im_live_mark self)).
Abbreviation precise := (precise_roots self w).
Abbreviation conservative := (roots_in self w rs).

(** What the scans, and the choice of blocks to evacuate, leave of the heap. *)
Record scanned (w3 : World) : Prop := {
  sd_inv : heap_inv rtti_of objs self w3;
  sd_agree : ∀ o, o ∈ objs → agree rtti_of w w3 o;
  sd_world : w_ba w3 = w_ba w ∧ w_tls w3 = w_tls w;
  sd_words : ∀ a, a ∉ objs → word (w_store w3) a = word (w_store w) a
}.

Lemma pinned_scanned roots w3 : heap_inv rtti_of objs self w → pinned objs w roots w3 → scanned w3.
Proof.
  intros Hi Hp. destruct (pinned_inv rtti_of objs self w _ w3 Hi Hp) as [Hi3 Hag].
  constructor; [done|done|by rewrite (pi_world _ _ _ _ Hp)|apply (pi_same _ _ _ _ Hp)].
Qed.

Lemma scanned_flagged f w3 l : (∀ b, b ∈ l → ¬ BA.available (w_ba w3) b) → scanned w3 → scanned (flagged f w3 l).
Proof.
  intros Hl [Hi Hag Hw Hd]. constructor; [by apply heap_inv_flagged|..|done|].
  - intros o Ho. destruct (Hag o Ho) as [V A].
    split; [unfold vtable_of in *; by rewrite flagged_word|]. intros a Ha. rewrite flagged_word. auto.
  - intros a Ha. rewrite flagged_word. auto.
Qed.

Lemma scanned_facts w3 : parked w = w → heap_inv rtti_of objs self w → rooted objs self w rs → scanned w3 →
  parked w3 = w3 ∧ heap_blocks self w3 = heap_blocks self w ∧ word (w_store w3) <$> precise = word (w_store w) <$> precise ∧
  sum_list (degree rtti_of w3 <$> objs) = sum_list (degree rtti_of w <$> objs).
Proof.
  intros Hpk Hi Hro [Hi3 Hag [Eb Et] Hd]. split_and!.
  - assert (E : w3 = set_store w (w_store w3)) by (destruct w3; cbn in *; by subst). by rewrite E, parked_store_set, Hpk.
  - unfold heap_blocks, own. by rewrite Et.
  - apply fmap_ext_in. intros a Ha. apply Hd. by apply (ro_precise _ _ _ _ Hro).
  - f_equal. apply fmap_ext_in. intros o Ho. unfold degree. do 2 f_equal. eapply agree_facts; [by apply (hi_object _ _ _ _ Hi)|auto].
Qed.

(** The heap as [Collector::collect] finds it. *)
Lemma ready_collectable c1 w3 fuel : all_blocks c1 ≡ₚ heap_blocks self w → calm → scanned w3 →
  sum_list (degree rtti_of w <$> objs) + Z.of_nat (length (roots_from self w rs)) < Z.of_nat fuel →
  collectable rtti_of next objs c1 sp1 w3 freed_size (im_los self) pm fuel conservative precise ∧
  conservative ++ (word (w_store w3) <$> precise) = roots_from self w rs ∧
  heap_blocks self w3 = heap_blocks self w.
Proof.
  intros Hc1 [Hpk Hi Hro _ _] Hsc Hf. pose proof (hi_large _ _ _ _ Hi) as El.
  destruct (scanned_facts w3 Hpk Hi Hro Hsc) as (Hpk3 & Hhb & Er & Ed). destruct Hsc as [Hi3 Hag [Eb Et] Hd].
  rewrite <- Hhb in Hc1.
  split; [|by rewrite Er]. constructor.
  - rewrite <- Hpk3. by eapply collecting_now.
  - apply Hi3.
  - by eapply collected_heap_ok.
  - intros r Hr. by apply (roots_in_objs rtti_of pm objs self w rs Hpk Hi Hro).
  - intros a Ha. rewrite Hd; by apply (ro_precise _ _ _ _ Hro).
  - rewrite Er, Ed. exact Hf.
  - unfold LOS.los_wf. rewrite El. split; [constructor|]. intros p Hx. by apply not_elem_of_nil in Hx.
  - rewrite El. intros p Hx. by apply not_elem_of_nil in Hx.
  - rewrite El. by split.
Qed.

(** The kind of collection that [collect_rooted] chooses. *)
Definition choice (c1 : Collector) (w3 : World) (evacuation : bool) : R (CollectionType * Store) :=
  available ← BA.available_blocks (w_ba w3);
  total ← BA.total_blocks (w_ba w3);
  prepare_collection c1 (w_store w3) evacuation available (evac_headroom sp1) total emergency.

(** One that moves nothing. *)
Definition prepared (c1 : Collector) (w3 : World) (evacuation : bool) : Prop := ∃ ct w4,
  choice c1 w3 evacuation = Ok (ct, w_store w4) ∧ w4 = set_store w3 (w_store w4) ∧ scanned w4 ∧ still ct sp1.

Lemma prepare_ok c1 w3 : (∀ b, b ∈ all_blocks c1 → ¬ BA.available (w_ba w3) b) → ready_for → scanned w3 → prepared c1 w3 false.
Proof.
  intros Hb [_ Hi _ Hpl _ _] Hsc. pose proof (sd_world _ Hsc) as [Eb _].
  pose proof (wo_ba _ (so_world _ _ (hi_space _ _ _ _ Hi))) as Hba. pose proof Hba as [Hs [Hb1 Hb2] [Hd1 Hd2] Hnd Hfr].
  pose proof (BA.aligned_spec (mmap (w_ba w))) as [Ha1 Ha2].
  unfold prepared, choice. rewrite Eb, BA.available_blocks_ok, bind_Ok by done. unfold BA.total_blocks. rewrite u_sub_ok, bind_Ok, bind_Ok by lia.
  destruct emergency.
  { exists ImmixEvacCollection, (flagged (λ _ _, true) w3 (all_blocks c1)). split; [done|]. split; [done|].
    split; [by apply scanned_flagged|]. intros _. split; [exact Hpl|done]. }
  exists ImmixCollection, w3. split; [|split; [by destruct w3|split; [done|apply still_plain]]].
  assert (Hlen : Z.of_nat (length (free_blocks (w_ba w))) <= 2 ^ 50).
  { apply aligned_count; [lia|done|]. intros b Hb'. destruct (Hfr b Hb') as (? & ? & ?). consts. lia. }
  pose proof (hi_headroom _ _ _ _ Hi) as Hh. unfold EVAC_HEADROOM in Hh.
  change (evac_headroom sp1) with (evac_headroom (im_immix self)).
  assert (0 <= evac_headroom (im_immix self)) by (unfold evac_headroom, Evac.evac_headroom; lia).
  assert (0 <= (data_bound (w_ba w) - data (w_ba w)) / BLOCK_SIZE <= 2 ^ 63)
    by (consts; Z.div_mod_to_equations; lia).
  apply prepare_plain; try lia. exact Hpl.
Qed.

(** What is left of the heap, in full. *)
Record collected (objs' : list Z) (self' : Immix) (w' : World) : Prop := {
  cd_objs : ∀ o, o ∈ objs' ↔ o ∈ objs ∧ reachable rtti_of w (roots_from self w rs) o;
  cd_inv : heap_inv rtti_of objs' self' w';
  cd_words : ∀ o, o ∈ objs' → agree rtti_of w w' o;
  cd_mark : im_live_mark self' = next;
  cd_allocated : im_allocated self' = sum_list (osize rtti_of w <$> objs');
  cd_threshold : im_threshold self' = next_threshold (im_threshold self) (im_allocated self');
  cd_frame : ∀ a, BA.is_in_space (w_ba w) a = false → word (w_store w') a = word (w_store w) a;
  cd_finalize : im_to_finalize self' = filter (.∈ objs') (im_to_finalize self)
}.

(** The end of [collect_rooted], from the chosen kind on: when the heap is in order after
    [Collector::collect] for objects among which are the roots, and the headers of the
    other objects to finalize can be read, only the pins are taken back and those objects
    finalized. *)
Lemma collect_rooted_end c blocks w3 evacuation fuel ct w4 visited c' sp' w' los' pm' fins objs' :
  let c1 := extend_all_blocks c blocks in
  let self' := collected_immix self visited c' sp' (mkLOS [] next) (filter (.∈ objs') (im_to_finalize self)) in
  choice c1 w3 evacuation = Ok (ct, w_store w4) → w4 = set_store w3 (w_store w4) →
  collect rtti_of freed_size fuel c1 ct conservative precise sp1 w4 (im_los self) pm next = Ok (visited, c', sp', w', los', pm', fins) →
  (∃ n, LOS.sweep rtti_of freed_size (im_los self) pm (words (w_store w')) = Ok (n, los', pm', fins)) →
  allocations (im_los self) = [] → (im_gc_stats self = Verbose → visited <= im_allocated self) →
  (∀ r, r ∈ conservative → r ∈ objs') →
  (∀ o, o ∈ im_to_finalize self → o ∉ objs' → header_wf (word (w_store w') o) ∧
     hd_mark (decode (word (w_store w') o)) = im_live_mark self ∧
     hd_pointer (decode (word (w_store w') o)) = vtable_of w o ∧ needs_finalization (rtti rtti_of w o) = true) →
  heap_inv rtti_of objs' self' w' →
  ∃ w6, collect_rooted rtti_of freed_size fuel (set_collector self c) pm evacuation emergency precise sp1 blocks conservative w3 =
      Ok (self', w6, pm, finalized rtti_of self w objs') ∧
    heap_inv rtti_of objs' self' w6 ∧ heap_now objs' w' w6 ∧ w_tls w6 = w_tls w'.
Proof.
  intros c1 self' Epr Ew4 Ec [n Esw] El Hgs Hroot Hfl Hinv.
  assert (Elos : los' = mkLOS [] (los_live_mark (im_los self)) ∧ pm' = pm ∧ fins = []).
  { unfold LOS.sweep in Esw. rewrite El in Esw. cbn in Esw. by injection Esw as _ <- <- <-. }
  destruct Elos as (-> & -> & ->).
  destruct (unpin_all_ok rtti_of objs' _ w' conservative Hinv Hroot) as (w6 & Eu & Hi6 & Hs6 & Et6).
  exists w6. split; [|done]. unfold collect_rooted. cbn [im_collector im_immix im_los im_live_mark im_to_finalize im_gc_stats im_stack_bottom
    im_stack_end im_threshold im_callbacks im_allocated set_collector]. fold c1.
  unfold choice in Epr. apply bind_Ok_inv in Epr as (av & -> & Epr). apply bind_Ok_inv in Epr as (tot & -> & Epr).
  rewrite !bind_Ok, Epr, bind_Ok, <- Ew4, Ec, bind_Ok, Eu, bind_Ok. clear Ec Eu.
  rewrite (finalize_walk rtti_of _ _ objs' (rtti rtti_of w)), bind_Ok.
  - case_decide as Hv; [rewrite u_sub_ok, !bind_Ok by auto|]; done.
  - intros o _ Ho. by destruct (hi_header _ _ _ _ Hi6 o Ho) as (? & _ & ?).
  - intros o Hf Ho. pose proof (hn_same _ _ _ Hs6 o Ho) as Ew. change (word (w_store w6) o = word (w_store w') o) in Ew. rewrite Ew.
    destruct (Hfl o Hf Ho) as (? & ? & Ep & ?). split_and!; try done. unfold rtti. by rewrite Ep.
Qed.

(** What [collect_rooted] does with the roots the scans have found; [c] and [blocks]
    are the blocks of the heap however they are divided. *)
Lemma collect_rooted_still c blocks w3 evacuation fuel : all_blocks c ++ blocks ≡ₚ heap_blocks self w → calm →
  pinned objs w conservative w3 → prepared (extend_all_blocks c blocks) w3 evacuation →
  sum_list (degree rtti_of w <$> objs) + Z.of_nat (length (roots_from self w rs)) < Z.of_nat fuel →
  ∃ objs' self' w',
    collect_rooted rtti_of freed_size fuel (set_collector self c) pm evacuation emergency precise sp1 blocks conservative w3 =
      Ok (self', w', pm, finalized rtti_of self w objs') ∧ collected objs' self' w' ∧ w_tls w' = w_tls w.
Proof.
  intros Hcb0 Hr Hp (ct & w4 & Epr & Ew4 & Hsc & Hstill) Hf. pose proof Hr as [Hpk Hi Hro Hgs Hfi]. set (c1 := extend_all_blocks c blocks).
  destruct (ready_collectable c1 w4 fuel Hcb0 Hr Hsc Hf) as (Hcb & Ear & Hhb).
  pose proof Hsc as [Hi4 Hag [Eba Etl] _].
  assert (Hc1 : all_blocks c1 ≡ₚ heap_blocks self w4) by (by rewrite Hhb).
  destruct (collect_ok _ _ _ _ _ _ _ Hstill _ _ _ _ _ _ Hcb) as (visited & c' & sp' & w' & los' & pm' & fins & sp2 & w2 & Ec & Esw & Hms & Hrc).
  rewrite Ear in Hms. set (surv := survivors objs self w2). pose proof (roots_from_objs rtti_of pm objs self w rs Hpk Hi Hro) as Hrin.
  assert (Hsurv : ∀ o, o ∈ surv ↔ o ∈ objs ∧ reachable rtti_of w (roots_from self w rs) o).
  { intros o. unfold surv. rewrite (elem_of_survivors rtti_of objs self w4 _ _ _ _ _ Hms).
    rewrite (reach_same rtti_of objs w w4); [done|apply Hi|done|done]. }
  assert (Hroot : ∀ r, r ∈ roots_from self w rs → r ∈ surv).
  { intros r Hrr. apply Hsurv. split; [by apply Hrin|]. by exists r. }
  assert (Hsub : ∀ o, o ∈ surv → o ∈ objs) by (intros o; rewrite Hsurv; tauto).
  assert (Hvis : visited = sum_list (osize rtti_of w <$> surv)).
  { rewrite (ms_visited _ _ _ _ _ _ _ _ _ _ Hms). f_equal. apply fmap_ext_in. intros o Ho%Hsub.
    eapply agree_facts; [by apply (hi_object _ _ _ _ Hi)|auto]. }
  set (self' := collected_immix self visited c' sp' (mkLOS [] next) (filter (.∈ surv) (im_to_finalize self))).
  assert (Hinv : heap_inv rtti_of surv self' w').
  { eapply (collected_inv rtti_of objs self w4 Hi4); [exact Hc1|exact Hms|exact Hrc|done|]. by intros o [? _]%list_elem_of_filter. }
  destruct (collect_rooted_end c blocks w3 evacuation fuel ct w4 visited c' sp' w' los' pm' fins surv) as (w6 & E6 & Hi6 & Hs6 & Et6);
    try done; [apply (hi_large _ _ _ _ Hi)| |intros r Hrr; apply Hroot, elem_of_app; by left| |].
  { intros Hv. rewrite Hvis. etrans; [|by apply Hgs]. unfold surv, survivors. apply sum_filter_le. intros o Ho.
    pose proof (osize_ge _ _ _ _ (hi_object _ _ _ _ Hi o Ho)). lia. }
  { intros o Ho Hns. pose proof (hi_finalize _ _ _ _ Hi o Ho) as Hin. destruct (Hfi o Ho) as [[Hl _]|(Hd & Hn & o' & Ho' & Hl' & _ & Eb)];
      [destruct Hns; by apply Hsurv|].
    destruct (dead_header rtti_of objs self w4 Hi4 _ Hc1 _ _ _ _ Hms _ _ _ Hrc o o') as (? & ? & ?); try done.
    - by rewrite (reach_same rtti_of objs w w4); [|apply Hi|..].
    - by apply Hsurv.
    - split_and!; try done. etrans; [done|]. by apply Hag. }
  exists surv, self', w6. split_and!; [exact E6| |].
  - constructor; [exact Hsurv|exact Hi6| |done|exact Hvis|done| |done].
    + intros o Ho. pose proof (survivor_agree rtti_of objs self w4 Hi4 _ Hc1 _ _ _ _ Hms _ _ _ Hrc o Ho) as [V1 A1].
      destruct (Hag o (Hsub o Ho)) as [V0 A0]. destruct (agree_facts rtti_of objs w w4 o) as (Eo & _);
        [apply (hi_object _ _ _ _ Hi); auto|by split|]. split.
      * destruct (hn_header _ _ _ Hs6 o Ho) as (_ & _ & V2). change (vtable_of w6 o = vtable_of w' o) in V2. congruence.
      * intros a Ha. rewrite <- A0 by done. rewrite <- A1 by (by rewrite Eo). apply (hn_same _ _ _ Hs6).
        intros Hin%Hsub. revert Hin. apply (apart_inside rtti_of objs w o); auto; apply Hi.
    + intros a Ha. pose proof (outside_not_object rtti_of objs self w Hi a Ha) as Hno.
      etrans; [apply (hn_same _ _ _ Hs6); auto|]. rewrite <- Eba in Ha. change (word (w_store w') a = word (w_store w) a).
      rewrite (outside_swept rtti_of objs self w4 Hi4 _ _ _ _ _ Hms _ _ _ Hrc a Ha).
      by apply (sd_words _ Hsc).
  - rewrite Et6, (rc_tls _ _ _ _ _ _ Hrc). destruct (ms_space _ _ _ _ _ _ _ _ _ _ Hms) as [_ ->]. done.
Qed.

(** As [immix_collect] and [allocate] call it. *)
Lemma collect_rooted_ok c blocks w3 fuel : all_blocks c ++ blocks ≡ₚ heap_blocks self w → ready_for →
  pinned objs w conservative w3 →
  sum_list (degree rtti_of w <$> objs) + Z.of_nat (length (roots_from self w rs)) < Z.of_nat fuel →
  ∃ objs' self' w',
    collect_rooted rtti_of freed_size fuel (set_collector self c) pm false emergency precise sp1 blocks conservative w3 =
      Ok (self', w', pm, finalized rtti_of self w objs') ∧ collected objs' self' w' ∧ w_tls w' = w_tls w.
Proof.
  intros Hcb Hr Hp Hf. pose proof (pinned_scanned _ w3 (rd_inv Hr) Hp) as Hsc3.
  apply collect_rooted_still; [done|apply (ready_calm Hr)|done| |done].
  destruct (scanned_facts w3 (rd_parked Hr) (rd_inv Hr) (rd_rooted Hr) Hsc3) as (_ & Hhb & _).
  apply prepare_ok; [|done|done]. intros b Hb. apply (blocks_range rtti_of objs self w3 (sd_inv _ Hsc3)). by rewrite Hhb, <- Hcb.
Qed.

(** What is counted and when the next collection is due. *)
Lemma collected_count objs' self' w' : collected objs' self' w' → heap_inv rtti_of objs self w → 0 < im_threshold self →
  im_allocated self' < im_threshold self'.
Proof.
  intros [C1 C2 C3 C4 C5 C6 _ _] Hi Ht. rewrite C6. pose proof (hi_object _ _ _ _ Hi) as Hob.
  assert (Hsz : ∀ o, o ∈ objs' → osize rtti_of w' o = osize rtti_of w o ∧ 0 <= osize rtti_of w o ∧ osize rtti_of w o mod 16 = 0).
  { intros o Ho. pose proof (C1 o) as [C1o _]. destruct (C1o Ho) as [Hin _]. pose proof (osize_ge _ _ _ _ (Hob o Hin)) as [? ?].
    split; [|lia]. eapply agree_facts; auto. }
  apply next_threshold_above; [done| |rewrite C5; apply sum_mod16; intros o Ho; by apply Hsz].
  rewrite C5. split; [apply sum_nonneg; intros o Ho; by apply Hsz|].
  replace (sum_list (osize rtti_of w <$> objs')) with (sum_list (osize rtti_of w' <$> objs'))
    by (f_equal; apply fmap_ext_in; intros o Ho; by apply Hsz).
  by apply (heap_total rtti_of objs' self' w' C2).
Qed.

End Collect.

(** The collected heap is below its threshold, with room in the count. *)
Lemma collected_bounds `{Cfg} rtti_of objs self w rs objs' self' w' : collected rtti_of objs self w rs objs' self' w' →
  heap_inv rtti_of objs self w → 0 < im_threshold self →
  0 <= im_allocated self' < im_threshold self' ∧ im_allocated self' <= 2 ^ 63.
Proof.
  intros Hcd Hi Hth. pose proof (collected_count _ _ _ _ _ _ _ _ Hcd Hi Hth).
  destruct Hcd as [C1 C2 C3 _ C5 _].
  assert (Hsz : ∀ o, o ∈ objs' → osize rtti_of w' o = osize rtti_of w o ∧ 0 <= osize rtti_of w o).
  { intros o Ho. pose proof (proj1 (C1 o) Ho) as [Hin _]. pose proof (osize_ge _ _ _ _ (hi_object _ _ _ _ Hi o Hin)).
    split; [|lia]. eapply agree_facts; [by apply (hi_object _ _ _ _ Hi)|auto]. }
  assert (Esum : sum_list (osize rtti_of w <$> objs') = sum_list (osize rtti_of w' <$> objs'))
    by (f_equal; apply fmap_ext_in; intros o Ho; by rewrite (proj1 (Hsz o Ho))).
  pose proof (heap_total rtti_of objs' self' w' C2).
  assert (0 <= sum_list (osize rtti_of w <$> objs')) by (apply sum_nonneg; intros o Ho; by apply Hsz). lia.
Qed.

(** ** The build without threads *)

(** A heap ready for a collection that does not move objects. *)
Definition ready `{Cfg} (rtti_of : Z → GCRTTI) (objs : list Z) (self : Immix) (w : World) : Prop :=
  ready_for rtti_of objs self w (ranges self w) false.

Section Single.
Context `{Cfg} (rtti_of : Z → GCRTTI) (freed_size : Z → Z) (Hst : threaded = false) (Hfs : ∀ p, 0 <= freed_size p).
Context (objs : list Z) (self : Immix) (w : World) (pm : pmem).

(** The two scans. *)
Lemma scans_ok : heap_inv rtti_of objs self w → rooted objs self w (ranges self w) → ∃ w3,
  ('(roots2, w2) ← for_each (λ st '(bottom, end_), collect_roots (emptied (im_immix self)) (im_los self) pm bottom end_ st)
     (callback_roots (words (w_store w)) (im_callbacks self)).2 ([], w);
   collect_roots (emptied (im_immix self)) (im_los self) pm (im_stack_bottom self) (im_stack_end self) (roots2, w2)) =
     Ok (conservative_roots self w, w3) ∧
  pinned objs w (conservative_roots self w) w3.
Proof.
  intros Hi Hro. assert (Hpk : parked w = w) by (unfold parked; by rewrite Hst).
  destruct (collect_ranges_ok rtti_of pm objs self w _ Hpk Hi Hro (ranges self w) [] w ltac:(done) (scan_start rtti_of pm objs self w Hpk Hi))
    as (w3 & E & Hp3).
  exists w3. split; [|exact Hp3]. unfold ranges in E at 1. rewrite for_each_app in E.
  destruct (for_each _ _ ([], w)) as [[roots2 w2]| |]; try discriminate E. rewrite bind_Ok in E |- *.
  cbn [for_each] in E. destruct (collect_roots _ _ _ _ _ _) as [[r3 w3']| |]; try discriminate E.
  rewrite bind_Ok in E. exact E.
Qed.

(** [collect_internal] is the two scans and [collect_rooted]. *)
Lemma internal_rooted evacuation emergency fuel started stack_pointer threads :
  heap_inv rtti_of objs self w → rooted objs self w (ranges self w) → ∃ w3, pinned objs w (roots_in self w (ranges self w)) w3 ∧
  ∀ self' w' fins, collect_rooted rtti_of freed_size fuel (set_collector self (im_collector self)) pm evacuation emergency (precise_roots self w)
      (emptied (im_immix self)) (taken (im_immix self)) (roots_in self w (ranges self w)) w3 = Ok (self', w', pm, fins) →
    collect_internal rtti_of freed_size fuel started stack_pointer threads self w pm evacuation emergency = Ok (self', w', pm, threads, fins).
Proof.
  intros Hi Hro. destruct (scans_ok Hi Hro) as (w3 & Es & Hp). exists w3. split; [exact Hp|]. intros self' w' fins Ec.
  unfold collect_internal. rewrite Hst. cbn [andb].
  assert (set_collector self (im_collector self) = self) as E0 by (by destruct self). rewrite E0 in Ec. clear E0.
  unfold precise_roots in Ec. destruct (callback_roots _ _) as [pr cr]. cbn [fst snd] in Ec, Es.
  unfold taken, emptied in *. destruct (ImmixSpaceM.get_all_blocks _) as [blocks sp1']. cbn [fst snd] in *.
  rewrite bind_Ok. destruct (for_each _ cr ([], w)) as [[r2 w2']| |]; try discriminate Es.
  change (collect_roots sp1' (im_los self) pm (im_stack_bottom self) (im_stack_end self) (r2, w2') = Ok (conservative_roots self w, w3)) in Es.
  rewrite bind_Ok, Es, bind_Ok. clear Es. unfold conservative_roots. by rewrite Ec, bind_Ok.
Qed.

(** The blocks a collection of this build takes. *)
Lemma single_blocks : all_blocks (im_collector self) ++ taken (im_immix self) ≡ₚ heap_blocks self w.
Proof. unfold heap_blocks, own. by rewrite Hst, app_nil_r. Qed.

Lemma collect_internal_ok emergency fuel started stack_pointer threads :
  ready_for rtti_of objs self w (ranges self w) emergency →
  sum_list (degree rtti_of w <$> objs) + Z.of_nat (length (all_roots self w)) < Z.of_nat fuel →
  ∃ objs' self' w',
    collect_internal rtti_of freed_size fuel started stack_pointer threads self w pm false emergency =
      Ok (self', w', pm, threads, finalized rtti_of self w objs') ∧ collected rtti_of objs self w (ranges self w) objs' self' w'.
Proof.
  intros Hr Hf. pose proof Hr as [Hpk Hi Hro _ _ _]. destruct (internal_rooted false emergency fuel started stack_pointer threads Hi Hro) as (w3 & Hp & Hint).
  destruct (collect_rooted_ok rtti_of freed_size Hfs objs self w pm (ranges self w) emergency (im_collector self) (taken (im_immix self)) w3 fuel)
    as (objs' & self' & w' & Ec & Hcd & _); [apply single_blocks|done..|].
  exists objs', self', w'. split; [by apply Hint|exact Hcd].
Qed.

End Single.

(** ** A sample heap: the stack from 16 to 32 refers to the first of the objects. *)

Definition sample_immix : Immix :=
  mkImmix LOS.new rooted_space 16 StatsNone 32 48 1024 false [] pair_collector [].

Lemma sample_not_free x : let _ : Cfg := false in ¬ free_space rooted_space rooted_world x.
Proof.
  intros cfg [Hx|[Hx|[Hx|(b & Hb & _)]]]; [..|by apply pair_unavailable in Hb];
    (destruct Hx as [(? & ? & ? & [=] & _)|(? & Hx & _)]; by apply not_elem_of_nil in Hx).
Qed.

Lemma sample_object o : o ∈ pair_objs → object_ok pair_rtti pair_objs rooted_world o.
Proof.
  intros Ho. constructor; [cbn; lia|done|]. revert o Ho. intros o. unfold pair_objs. rewrite !elem_of_cons.
  intros [->|[->|[->|Ho]]] a; [..|by apply not_elem_of_nil in Ho].
  - intros ->%list_elem_of_singleton. split; [vm_compute; done|]. right. left.
  - intros Ha. by apply not_elem_of_nil in Ha.
  - intros Ha. by apply not_elem_of_nil in Ha.
Qed.

Lemma sample_heap_inv : let _ : Cfg := false in heap_inv pair_rtti pair_objs sample_immix rooted_world.
Proof.
  intros cfg. constructor.
  - apply rooted_space_ok.
  - constructor; try (intros b _ Hb; by apply not_elem_of_nil in Hb).
    + vm_decide.
    + intros b Hb. split; [by apply pair_range|apply pair_unavailable].
  - by intros [=].
  - done.
  - done.
  - vm_decide.
  - intros o. unfold pair_objs. rewrite !elem_of_cons. intros [->|[->|[->|Ho]]]; [..|by apply not_elem_of_nil in Ho];
      (split; [split; [split; [discriminate|reflexivity]|discriminate]|split; reflexivity]).
  - apply sample_object.
  - intros o. unfold pair_objs. rewrite !elem_of_cons. intros [->|[->|[->|Ho]]]; [..|by apply not_elem_of_nil in Ho];
      (split; [change (Block.get_block_ptr _) with 32768 || change (Block.get_block_ptr _) with 65536;
               (left || (right; left))|split; vm_compute; done]).
  - intros o1 o2 H1 H2 Hne. change (osize pair_rtti rooted_world o1) with 16. change (osize pair_rtti rooted_world o2) with 16.
    unfold pair_objs in *. rewrite !elem_of_cons, elem_of_nil in H1, H2. lia.
  - intros o x _ _. apply sample_not_free.
  - intros a. split; [apply rooted_starts|]. unfold pair_objs. rewrite !elem_of_cons.
    intros [->|[->|[->|Ho]]]; [..|by apply not_elem_of_nil in Ho]; split_and!; vm_compute; done.
  - done.
  - intros o Ho. by apply not_elem_of_nil in Ho.
  - apply histogram_empty.
Qed.

Lemma sample_ready : let _ : Cfg := false in ready pair_rtti pair_objs sample_immix rooted_world.
Proof.
  intros cfg. constructor.
  - done.
  - apply sample_heap_inv.
  - constructor.
    + intros a Ha. by apply not_elem_of_nil in Ha.
    + intros r ->%list_elem_of_singleton. cbn. lia.
    + intros r a ->%list_elem_of_singleton Ha. apply elem_of_scan in Ha as [Ha Hm]; [|reflexivity..].
      change (16 <= a < 32) in Ha. assert (Hc : a = 16 ∨ a = 24) by (Z.div_mod_to_equations; lia).
      destruct Hc as [->| ->]; (split; [vm_decide|]; split; [split; vm_compute; done|split; vm_compute; done]).
  - vm_compute. done.
  - by intros [=].
  - intros o Ho. by apply not_elem_of_nil in Ho.
Qed.

(** The same heap with objects to finalize, the first two: the word at 16 now refers
    to the second one, which keeps the block of the first. *)
Definition final_rtti (v : Z) : GCRTTI := mkRTTI (heap_size (pair_rtti v)) (visit_references (pair_rtti v)) true true.
Definition final_world : World := with_words rooted_world (<[16 := 32928]> (words (w_store rooted_world))).
Definition final_immix : Immix :=
  mkImmix LOS.new rooted_space 16 Verbose 32 48 1024 false [] pair_collector [32896; 32928].

Lemma final_heap_inv : let _ : Cfg := false in heap_inv final_rtti pair_objs final_immix final_world.
Proof.
  intros cfg. assert (Hi : heap_inv pair_rtti pair_objs sample_immix final_world).
  { apply heap_inv_words; [apply sample_heap_inv|]. intros o. unfold pair_objs. rewrite !elem_of_cons.
    intros [->|[->|[->|Ho]]]; [..|by apply not_elem_of_nil in Ho];
      (split; [split; [reflexivity|]; intros a Ha; change (osize pair_rtti rooted_world _) with 16 in Ha;
               unfold word, mem_read; cbn; rewrite lookup_insert_ne by lia; done|]);
      (split; [split; [split; [discriminate|reflexivity]|discriminate]|split; reflexivity]). }
  destruct Hi as [H1 H2 H3 H4 H5 H6 H7 H8 H9 H10 H11 H12 H13 _ H15]. constructor; try done.
  - intros o Ho. destruct (H8 o Ho). by constructor.
  - intros o. cbn. rewrite !elem_of_cons, elem_of_nil. intros [->|[->|[]]]; [left|right; left].
Qed.

Lemma final_reachable o : let _ : Cfg := false in
  reachable final_rtti final_world (roots_from final_immix final_world (ranges final_immix final_world)) o ↔ o = 32928.
Proof.
  intros cfg. split.
  - intros (r & Hr & Hrt). assert (Er : roots_from final_immix final_world (ranges final_immix final_world) = [32928]) by (vm_compute; reflexivity).
    rewrite Er in Hr. apply list_elem_of_singleton in Hr as ->. apply rtc_inv in Hrt as [?|(y & Hxy & _)]; [done|].
    assert (Ek : kids final_rtti final_world 32928 = []) by (vm_compute; reflexivity).
    unfold edge in Hxy. rewrite Ek in Hxy. by apply not_elem_of_nil in Hxy.
  - intros ->. exists 32928. split; [vm_compute; left|done].
Qed.

Lemma final_ready : let _ : Cfg := false in ready final_rtti pair_objs final_immix final_world.
Proof.
  intros cfg. constructor.
  - done.
  - apply final_heap_inv.
  - constructor.
    + intros a Ha. by apply not_elem_of_nil in Ha.
    + intros r ->%list_elem_of_singleton. cbn. lia.
    + intros r a ->%list_elem_of_singleton Ha. apply elem_of_scan in Ha as [Ha Hm]; [|reflexivity..].
      change (16 <= a < 32) in Ha. assert (Hc : a = 16 ∨ a = 24) by (Z.div_mod_to_equations; lia).
      destruct Hc as [->| ->]; (split; [vm_decide|]; split; [split; vm_compute; done|split; vm_compute; done]).
  - vm_compute. done.
  - intros _. vm_compute. done.
  - intros o Ho. cbn in Ho. rewrite !elem_of_cons, elem_of_nil in Ho. destruct Ho as [->|[->|[]]].
    + right. rewrite final_reachable. split; [done|]. split; [done|]. exists 32928. rewrite final_reachable.
      split_and!; try done. right. left.
    + left. by rewrite final_reachable.
Qed.

(** ** Properties *)

(** C5: [immix_collect] without moving objects, in the build without threads, keeps the
    whole heap consistent: given enough fuel it returns, the objects left are exactly those
    reachable from the callbacks' roots and the words of the scanned ranges, they have the
    contents they had, and the invariant of the heap holds again with the live mark flipped;
    the objects to finalize that are left stay on their list, and for the others the
    finalizer is called; the count of allocated bytes is the total size of what is left, and
    the next collection is due only after that count has grown.
    The heap has to be in order ([heap_inv], which has no large objects: these a collection
    frees) and [ready]: a quarter of its blocks are available or headroom, so that the
    collection does not choose to move objects; the ranges it scans are below 2^63 and hold
    no object, and no word in them is the end address of the heap or 8 bytes behind it;
    precise roots are slots outside objects that refer to objects; an object to finalize is
    reachable, or is of a type to be finalized and lies in a block in which a reachable
    object lies (otherwise its header may be gone when it is read); and with verbose
    statistics the count of allocated bytes is no less than the sizes of the objects. *)
Theorem immix_collect_correct `{Cfg} rtti_of freed_size objs self w pm started stack_pointer threads :
  threaded = false → (∀ p, 0 <= freed_size p) → ready rtti_of objs self w → 0 < im_threshold self →
  ∃ n, ∀ fuel, (n <= fuel)%nat → ∃ objs' self' w' fins,
    immix_collect rtti_of freed_size fuel started stack_pointer threads self w pm false = Ok (self', w', pm, threads, fins) ∧
    (∀ o, o ∈ objs' ↔ o ∈ objs ∧ reachable rtti_of w (all_roots self w) o) ∧
    (∀ o, o ∈ objs' → agree rtti_of w w' o) ∧
    heap_inv rtti_of objs' self' w' ∧ im_live_mark self' = negb (im_live_mark self) ∧
    im_to_finalize self' = filter (.∈ objs') (im_to_finalize self) ∧
    fins = filter (λ o, (o ∉ objs') ∧ finalizer (rtti rtti_of w o) = true) (im_to_finalize self) ∧
    im_allocated self' = sum_list (osize rtti_of w <$> objs') ∧ im_allocated self' < im_threshold self'.
Proof.
  intros Hst Hfs Hr Ht.
  set (cost := sum_list (degree rtti_of w <$> objs) + Z.of_nat (length (all_roots self w))).
  exists (S (Z.to_nat cost)). intros fuel Hf.
  destruct (collect_internal_ok rtti_of freed_size Hst Hfs objs self w pm false fuel started stack_pointer threads Hr)
    as (objs' & self' & w' & E & Hcd); [fold cost; lia|]. pose proof Hcd as [C1 C2 C3 C4 C5 C6 _ C8].
  pose proof (rd_inv _ _ _ _ _ _ Hr) as Hi. exists objs', self', w'. eexists. split; [exact E|]. split_and!; try done. by eapply collected_count.
Qed.

Lemma immix_collect_correct_witness : let _ : Cfg := false in
  ∃ n, ∀ fuel, (n <= fuel)%nat → ∃ (objs' : list Z) self' w' fins,
    immix_collect final_rtti (λ _, 0) fuel true 0 [] final_immix final_world ∅ false = Ok (self', w', ∅, [], fins) ∧
    32928 ∈ objs' ∧ 32896 ∈ fins ∧ 32928 ∈ im_to_finalize self' ∧ im_live_mark self' = true ∧ im_allocated self' < im_threshold self'.
Proof.
  intros cfg. destruct (immix_collect_correct final_rtti (λ _, 0) pair_objs final_immix final_world ∅ true 0 []) as [n Hn];
    [reflexivity|intros; lia|apply final_ready|reflexivity|].
  exists n. intros fuel Hf. destruct (Hn fuel Hf) as (objs' & self' & w' & fins & E & Ho & _ & _ & Hm & Hk & Hfin & _ & Ht).
  exists objs', self', w', fins. split; [exact E|]. clear E.
  assert (H2 : 32928 ∈ objs') by (apply Ho; split; [right; left|by apply final_reachable]).
  assert (H1 : 32896 ∉ objs') by (intros [_ Hr]%Ho; by apply final_reachable in Hr).
  split; [exact H2|]. split; [rewrite Hfin; apply list_elem_of_filter; split; [split; [exact H1|reflexivity]|left]|].
  split; [rewrite Hk; apply list_elem_of_filter; split; [exact H2|right; left]|]. split; [exact Hm|exact Ht].
Defined.
