(* ===== verification/EvacHeap.v ===== *)
(** * A collection of the whole heap that moves objects

    [collect_internal] when blocks of the heap are candidates for evacuation and
    there is headroom, as in the emergency collections of [allocate]: the objects found
    on the stack stay, the others move as long as there is room, and afterwards
    [heap_inv] holds for the objects at their new places.  [collect_rooted_any] puts the
    collections that move objects and those of [HeapCollect] together, for both builds. *)

From stdpp Require Import base numbers list list_numbers gmap relations.
From Stdlib Require Import ZArith Lia.
From S2P Require Import Prelude Util Constants Bitmap Block SpaceBitmap Object BlockAllocator.
From S2P Require Import Allocation AllocatorLaws Allocators ImmixSpace LargeObjectSpace.
From S2P Require Import Collector Sweep Marking Collection Immix Roots Evacuation EvacRoom Moving EvacCollect Heap HeapCollect.
Import CollectorM ImmixHeap.
Import ImmixSpaceM(space_ok(..), free_space, normal_v, overflow_v, evac_v, evac_headroom, so_world, so_evac, so_bitmap).
Local Open Scope Z_scope.

(** ** Types of objects that can be moved *)

(** Size and references depend on the data of the object, that is on its words that are
    not references, and not on its place. *)
Definition relocatable (t : GCRTTI) : Prop := ∀ m o m' p,
  (∀ i, 0 < i < Rounding.ceil_div (heap_size t m o) 16 * 16 / 8 → o + 8 * i ∉ visit_references t m o →
     mem_read m' (p + 8 * i) = mem_read m (o + 8 * i)) →
  heap_size t m' p = heap_size t m o ∧ visit_references t m' p = (λ a, p + (a - o)) <$> visit_references t m o.

Lemma NoDup_omap {A B} (f : A → option B) l : NoDup l → (∀ x y z, f x = Some z → f y = Some z → x = y) → NoDup (omap f l).
Proof.
  intros Hn Hinj. induction Hn as [|x l Hx Hn IH]; [constructor|]. cbn. destruct (f x) as [z|] eqn:E; [|exact IH].
  constructor; [|exact IH]. intros (y & Hy & Ey)%list_elem_of_omap. by rewrite (Hinj x y z E Ey) in Hx.
Qed.

Section Moved.
Context `{Cfg} (rtti_of : Z → GCRTTI) (Hrel : ∀ v, relocatable (rtti_of v)).
Context (objs : list Z) (self : Immix) (w : World) (Hi : heap_inv rtti_of objs self w) (Hpk : parked w = w).
Context (c1 : Collector) (Hc1 : all_blocks c1 ≡ₚ heap_blocks self w) (roots precise : list Z).

Abbreviation next := (negb (im_live_mark self)).
Abbreviation sp1 := (emptied (im_immix self)).

Context (g : gmap Z Z) (visited : Z) (sp2 : ImmixSpace) (w2 : World).
Context (Hed : evacuated rtti_of next objs c1 sp1 w roots precise g visited sp2 w2).
Context (c' : Collector) (sp' : ImmixSpace) (w' : World) (Hrc : reclaimed c1 sp2 w2 c' sp' w').
Context (Hmh : moved_heap rtti_of next objs sp1 w roots precise g sp' w').

(** Where the objects are afterwards. *)
Definition places : list Z := omap (λ o, g !! o) objs.

Lemma place_facts o p : g !! o = Some p → o ∈ objs ∧ immix w o ∧ 0 < osize rtti_of w o.
Proof.
  intros Hg. assert (Ho : o ∈ objs) by (apply (mh_reached _ _ _ _ _ _ _ _ _ _ Hmh); by rewrite Hg).
  split; [done|]. split; [by eapply object_immix|]. pose proof (osize_ge _ _ _ _ (hi_object _ _ _ _ Hi o Ho)). lia.
Qed.

Lemma elem_of_places p : p ∈ places ↔ ∃ o, g !! o = Some p.
Proof.
  unfold places. rewrite list_elem_of_omap. split; [intros (o & _ & ?); by exists o|].
  intros [o Hg]. exists o. split; [by eapply place_facts|done].
Qed.

Lemma place_inj o o' p : g !! o = Some p → g !! o' = Some p → o = o'.
Proof.
  intros Hg Hg'. destruct (decide (o = o')) as [|Hne]; [done|].
  pose proof (place_facts o p Hg) as (_ & _ & ?). pose proof (place_facts o' p Hg') as (_ & _ & ?).
  destruct (mh_apart _ _ _ _ _ _ _ _ _ _ Hmh o o' p p Hg Hg' Hne); lia.
Qed.

Lemma places_nodup : NoDup places.
Proof. apply NoDup_omap; [apply Hi|]. apply place_inj. Qed.

(** An object at its new place has its type, its size and its references. *)
Lemma place_shape o p : g !! o = Some p →
  vtable_of w' p = vtable_of w o ∧ heap_size (rtti rtti_of w' p) (words (w_store w')) p = heap_size (rtti rtti_of w o) (words (w_store w)) o ∧
  slots rtti_of w' p = (λ a, p + (a - o)) <$> slots rtti_of w o ∧ osize rtti_of w' p = osize rtti_of w o.
Proof.
  intros Hg. destruct (place_facts o p Hg) as (Ho & Him & _).
  assert (Ev : vtable_of w' p = vtable_of w o).
  { destruct (mh_header _ _ _ _ _ _ _ _ _ _ Hmh o p Hg Him) as [_ Hd]. exact (f_equal hd_pointer Hd). }
  assert (Er : rtti rtti_of w' p = rtti rtti_of w o) by (unfold rtti; by rewrite Ev).
  destruct (Hrel (vtable_of w o) (words (w_store w)) o (words (w_store w')) p) as [E1 E2].
  { intros i Hii Hns. exact (mh_data _ _ _ _ _ _ _ _ _ _ Hmh o p i Hg Him Hii Hns). }
  split; [done|]. unfold slots, osize. rewrite Er. split; [exact E1|]. split; [exact E2|]. by rewrite (E1 : heap_size (rtti rtti_of w o) _ p = _).
Qed.

Lemma place_object o p : g !! o = Some p → object_ok rtti_of places w' p.
Proof.
  intros Hg. destruct (place_facts o p Hg) as (Ho & Him & Hs0). destruct (place_shape o p Hg) as (Ev & Eh & Es & Eo).
  destruct (hi_object _ _ _ _ Hi o Ho) as [Hs _ Hsl]. constructor.
  - by rewrite Eh.
  - intros m Hm. destruct (Hrel (vtable_of w' p) (words (w_store w')) p m p) as [E1 E2].
    { intros i Hii _. apply Hm. change (0 < i < osize rtti_of w' p / 8) in Hii. Z.div_mod_to_equations. lia. }
    split; [exact E1|]. unfold slots. etrans; [exact E2|]. etrans; [|apply list_fmap_id]. apply fmap_ext_in. intros a _. cbn. lia.
  - rewrite Es, Eo. intros a' (a & -> & Ha)%list_elem_of_fmap. destruct (Hsl a Ha) as [Hr Hw]. split; [lia|].
    apply elem_of_places. exists (word (w_store w) a). by apply (mh_refs _ _ _ _ _ _ _ _ _ _ Hmh).
Qed.

(** The block of an object has a marked line. *)
Lemma place_marked o p : g !! o = Some p → marked_line w2 (Block.get_block_ptr p) (p mod 32768 / 128) = true ∧
  Block.get_block_ptr p + 128 <= p ∧ p + osize rtti_of w o < Block.get_block_ptr p + BLOCK_SIZE ∧ 0 <= p mod 32768 / 128 < 256.
Proof.
  intros Hg. destruct (place_facts o p Hg) as (Ho & Him & Hs0). destruct (ed_block _ _ _ _ _ _ _ _ _ _ _ _ Hed o p Hg Him) as (Hip & _ & Hlo & Hhi).
  pose proof (Z.mod_pos_bound p 32768 ltac:(lia)). consts. split_and!; try lia; [|Z.div_mod_to_equations; lia..].
  apply (ed_lines _ _ _ _ _ _ _ _ _ _ _ _ Hed o p); [done|done|]. unfold Block.covered_line. pose proof (Z.div_pos (osize rtti_of w o) 128). lia.
Qed.

Lemma place_not_free o p : g !! o = Some p → ¬ is_free (w_store w2) (Block.get_block_ptr p).
Proof.
  intros Hg Hf. destruct (place_marked o p Hg) as (Hm & _ & _ & Hl). unfold is_free in Hf. rewrite no_marks_iff in Hf.
  unfold marked_line in Hm. rewrite Hf in Hm by lia. done.
Qed.

(** The blocks of the objects are known to the next collection. *)
Lemma place_known o p : g !! o = Some p → Block.get_block_ptr p ∈ all_blocks c' ∨ Block.get_block_ptr p ∈ taken sp'.
Proof.
  intros Hg. pose proof (place_not_free o p Hg) as Hnf. destruct (place_facts o p Hg) as (Ho & Him & _).
  destruct (place_marked o p Hg) as (Hm & _). set (b := Block.get_block_ptr p) in *.
  destruct (ed_block _ _ _ _ _ _ _ _ _ _ _ _ Hed o p Hg Him) as (_ & [Hb|Hb] & _); fold b in Hb.
  - pose proof (block_partition (w_store w2) (all_blocks c1)) as Hp. rewrite Hp, !elem_of_app in Hb.
    rewrite (rc_full _ _ _ _ _ _ Hrc). destruct Hb as [Hb|[[? _]%list_elem_of_filter|Hb]]; [right|done|by left].
    pose proof (rc_normal _ _ _ _ _ _ Hrc) as En. apply (f_equal v_pool) in En. cbn [v_pool] in En. rewrite <- En in Hb.
    unfold taken. cbn. rewrite !elem_of_app. left. right. by left.
  - right. apply evac_blocks_view with (w := w) in Hb. rewrite <- (ed_evac _ _ _ _ _ _ _ _ _ _ _ _ Hed) in Hb.
    destruct (ed_collecting _ _ _ _ _ _ _ _ _ _ _ _ Hed) as [[_ _ _ [_ _ _ Hcl] _ _ _ _] _ _ _ _ Hdis _].
    assert (Hfull : b ∈ v_full (evac_v sp2 w2)).
    { unfold v_blocks in Hb. cbn [cur_block v_cur evac_v ImmixSpaceM.closed_view] in Hb. rewrite !elem_of_app in Hb.
      destruct Hb as [Hb|[Hb|Hb]]; [by apply not_elem_of_nil in Hb| |done]. by rewrite (Hcl eq_refl b Hb) in Hm. }
    destruct (rc_evac _ _ _ _ _ _ Hrc) as (k & Ee & _). apply (f_equal v_full) in Ee. cbn [v_full] in Ee. rewrite <- Ee in Hfull.
    cbn in Hfull. unfold taken. cbn. rewrite !elem_of_app in *. tauto.
Qed.

Lemma place_aligned o p : g !! o = Some p →
  p mod 16 = 0 ∧ mm_start (mmap (w_ba w)) < p < data_bound (w_ba w) ∧ immix w p.
Proof.
  intros Hg. destruct (place_facts o p Hg) as (Ho & Him & Hs0). destruct (place_marked o p Hg) as (_ & Hlo & Hhi & _).
  destruct (ed_block _ _ _ _ _ _ _ _ _ _ _ _ Hed o p Hg Him) as (Hip & Hb & _).
  assert (Hr : BA.in_range (w_ba w) (Block.get_block_ptr p)).
  { destruct Hb as [Hb|Hb]; [rewrite Hc1 in Hb; by apply (blocks_range rtti_of objs self w Hi)|].
    apply evac_blocks_view with (w := w) in Hb. by apply (vo_range _ _ _ (so_evac _ _ (emptied_space_ok rtti_of objs self w Hpk Hi))). }
  split_and!; [|pose proof (BA.aligned_spec (mmap (w_ba w))); destruct Hr as (_ & ? & ?); consts; lia..|done].
  destruct (ed_place _ _ _ _ _ _ _ _ _ _ _ _ Hed o p Hg) as [->|(_ & _ & ?)]; [|done]. by apply (hi_starts _ _ _ _ Hi).
Qed.

Lemma moved_starts a : object_start sp' w' a ↔ a ∈ places.
Proof.
  destruct (rc_ba _ _ _ _ _ _ Hrc) as [Em Ed]. rewrite (ed_ba _ _ _ _ _ _ _ _ _ _ _ _ Hed) in Em, Ed.
  pose proof (so_bitmap _ _ (hi_space _ _ _ _ Hi)) as (_ & Hbeg & _). pose proof (hi_aligned _ _ _ _ Hi) as Hal.
  pose proof (ed_begin _ _ _ _ _ _ _ _ _ _ _ _ Hed) as Eb. change (bitmap sp1) with (bitmap (im_immix self)) in Eb.
  assert (Hgr : ∀ x, Space.granule 16 (bitmap sp2) x = Space.granule 16 (bitmap (im_immix self)) x)
    by (intros; unfold Space.granule; by rewrite Eb).
  unfold object_start. rewrite (rc_bitmap _ _ _ _ _ _ Hrc), Em, Ed, elem_of_places. split.
  - intros (Hm & Hr & Hg). assert (Hpos : 0 <= Space.granule 16 (bitmap sp2) a) by (apply Z.div_pos; lia).
    destruct (ed_marks _ _ _ _ _ _ _ _ _ _ _ _ Hed _ Hpos Hg) as [[Hold Hout]|(o & p & Hgo & Hip & Eq)]; [exfalso|].
    + rewrite Hgr in Hold. assert (Ha : a ∈ objs) by (apply (hi_starts _ _ _ _ Hi); split; [done|split; [exact Hr|exact Hold]]).
      destruct (hi_placed _ _ _ _ Hi a Ha) as (Hb & P1 & P2). pose proof (osize_ge _ _ _ _ (hi_object _ _ _ _ Hi a Ha)).
      apply (Hout (Block.get_block_ptr a)); [by rewrite Hc1|]. change (bitmap sp1) with (bitmap (im_immix self)). rewrite Hgr. unfold Space.granule.
      rewrite Hbeg in *. consts. Z.div_mod_to_equations. lia.
    + exists o. assert (p = a) as <-; [|done]. change (bitmap sp1) with (bitmap (im_immix self)) in Eq. rewrite Hgr in Eq.
      destruct (place_aligned o p Hgo) as [Hpm _].
      unfold Space.granule in Eq. rewrite Hbeg in Eq. Z.div_mod_to_equations. lia.
  - intros (o & Hg). destruct (place_facts o a Hg) as (Ho & Him & _). destruct (place_aligned o a Hg) as (Hpm & Hr & Hip).
    split; [done|]. split; [done|]. by apply (ed_starts _ _ _ _ _ _ _ _ _ _ _ _ Hed o).
Qed.

(** The heap is in order for the objects at their new places. *)
Lemma moved_inv los fin : allocations los = [] → (∀ o, o ∈ fin → o ∈ places) →
  heap_inv rtti_of places (collected_immix self visited c' sp' los fin) w'.
Proof.
  intros Hlos Hfin. pose proof (ed_collecting _ _ _ _ _ _ _ _ _ _ _ _ Hed) as Hco.
  constructor; cbn [collected_immix im_immix im_los im_collector im_live_mark im_to_finalize]; try done.
  - by destruct (reclaimed_space_ok _ _ _ _ _ _ Hco Hrc).
  - by destruct (reclaimed_kept _ _ _ _ _ _ Hco Hrc).
  - intros _. destruct (rc_fields _ _ _ _ _ _ Hrc) as [F1 F2]. destruct (ed_space _ _ _ _ _ _ _ _ _ _ _ _ Hed) as (E1 & E2 & _).
    rewrite E1 in F1. rewrite E2 in F2. by split.
  - apply Hrc.
  - destruct (rc_ba _ _ _ _ _ _ Hrc) as [-> _]. rewrite (ed_ba _ _ _ _ _ _ _ _ _ _ _ _ Hed). apply Hi.
  - apply places_nodup.
  - intros p [o Hg]%elem_of_places. destruct (place_facts o p Hg) as (_ & Him & _).
    destruct (mh_header _ _ _ _ _ _ _ _ _ _ Hmh o p Hg Him) as [Hwf Hd]. by rewrite Hd.
  - intros p [o Hg]%elem_of_places. by apply (place_object o).
  - intros p [o Hg]%elem_of_places. destruct (place_shape o p Hg) as (_ & _ & _ & Eo). destruct (place_marked o p Hg) as (_ & Hlo & Hhi & _).
    unfold placed_in. rewrite Eo. split_and!; try done. unfold heap_blocks. cbn [im_collector im_immix]. rewrite !elem_of_app.
    destruct (place_known o p Hg); [by left|right; by left].
  - intros p1 p2 [o1 H1]%elem_of_places [o2 H2]%elem_of_places Hne.
    destruct (place_shape o1 p1 H1) as (_ & _ & _ & ->). destruct (place_shape o2 p2 H2) as (_ & _ & _ & ->).
    apply (mh_apart _ _ _ _ _ _ _ _ _ _ Hmh); try done. congruence.
  - intros p x [o Hg]%elem_of_places. destruct (place_shape o p Hg) as (_ & _ & _ & ->). destruct (place_facts o p Hg) as (_ & Him & _).
    by apply (mh_free _ _ _ _ _ _ _ _ _ _ Hmh o).
  - apply moved_starts.
  - apply Hrc.
Qed.

End Moved.

(** ** Heaps that can be moved *)

Section Ready.
Context `{Cfg} (rtti_of : Z → GCRTTI) (Hrel : ∀ v, relocatable (rtti_of v)).
Context (freed_size : Z → Z) (Hfs : ∀ p, 0 <= freed_size p).
Context (objs : list Z) (self : Immix) (w : World) (pm : pmem) (rs : list (Z * Z)).

Abbreviation sp1 := (emptied (im_immix self)).
Abbreviation next := (negb (im_live_mark self)).
Abbreviation precise := (precise_roots self w).
Abbreviation conservative := (roots_in self w rs).

(** An object a collection may move: no word of the stack refers to it. *)
Definition loose (o : Z) : Prop := hd_pinned (decode (word (w_store w) o)) = false ∧ o ∉ conservative.

(** A heap no thread has a block of, ready for a collection that scans the ranges [rs]
    and moves objects.  References are aligned, and an object that may move has one
    precise root, or one reference: it is copied once for each reference that finds it
    at its old place, and only the move by way of a root leaves a forwarding address. *)
Record ready_to_move : Prop := {
  rv_parked : parked w = w;
  rv_inv : heap_inv rtti_of objs self w;
  rv_rooted : rooted objs self w rs;
  rv_outside : ∀ a, a ∈ precise → BA.is_in_space (w_ba w) a = false;
  rv_precise : NoDup precise;
  rv_slots : ∀ o a, o ∈ objs → a ∈ slots rtti_of w o → (a - o) mod 8 = 0;
  rv_slots_nodup : ∀ o, o ∈ objs → NoDup (slots rtti_of w o);
  rv_precise_once : ∀ a b, a ∈ precise → b ∈ precise → word (w_store w) a = word (w_store w) b → loose (word (w_store w) a) → a = b;
  rv_once : ∀ o o' a b, o ∈ objs → o' ∈ objs → a ∈ slots rtti_of w o → b ∈ slots rtti_of w o' →
    word (w_store w) a = word (w_store w) b → loose (word (w_store w) a) → word (w_store w) a ∉ (word (w_store w) <$> precise) → a = b;
  rv_stats : im_gc_stats self = Verbose → sum_list (osize rtti_of w <$> objs) <= im_allocated self;
  rv_finalize : ∀ o, o ∈ im_to_finalize self → finalizable rtti_of objs self w rs (λ x, ¬ loose x) o
}.

(** The evacuation allocator of the emptied space can be used. *)
Lemma emptied_ready w4 : parked w4 = w4 → heap_inv rtti_of objs self w4 → evac_ready sp1 w4 ∧
  ∀ o x, o ∈ objs → o <= x < o + osize rtti_of w4 o → ¬ efree (evac_allocator sp1) x.
Proof.
  intros Hpk Hi. pose proof (emptied_space_ok rtti_of objs self w4 Hpk Hi) as [[_ Hwf _] _ _ Hev _ _ _ Hbm].
  pose proof (collecting_now rtti_of objs self w4 Hi (mkCollector (heap_blocks self w4) ∅) ltac:(done)) as Hco. rewrite Hpk in Hco.
  assert (Hr : ∀ b, b ∈ evac_blocks (evac_allocator sp1) → BA.in_range (w_ba w4) b).
  { intros b Hb%(evac_blocks_view _ w4). by apply (vo_range _ _ _ Hev). }
  pose proof (so_world _ _ (hi_space _ _ _ _ Hi)) as [[Hs _ _ _ _] _ _]. pose proof (BA.aligned_spec (mmap (w_ba w4))).
  split.
  - constructor; try done. constructor; [done| |].
    + intros b Hb%Hr. destruct Hb as (? & ? & ?). consts. split; [lia|done].
    + pose proof (vo_nodup _ _ _ Hev) as Hn. rewrite evac_view_blocks in Hn. by apply NoDup_app in Hn as (_ & _ & ?).
  - intros o x Ho Hx (b & low & Hin & Hxb). assert (Hb : b ∈ evac_blocks (evac_allocator sp1)).
    { unfold evac_blocks. apply list_elem_of_fmap. by exists (b, low). }
    destruct (hi_placed _ _ _ _ Hi o Ho) as (Hob & P1 & P2). destruct (Hr b Hb) as (Hbm0 & _). consts.
    assert (Hlow : 0 <= low) by (cbn in Hin; apply list_elem_of_fmap in Hin as (? & [= -> ->] & _); lia).
    assert (Block.get_block_ptr o = b) as <- by (eapply (aligned_block_eq _ b x x); [apply block_ptr_facts|done|lia..]).
    apply (co_evac _ _ _ Hco (Block.get_block_ptr o) Hob). by apply evac_blocks_view.
Qed.

Section Scanned.
Context (Hr : ready_to_move) (w4 : World) (Hsc : scanned rtti_of objs self w w4).
(** What the scans have not pinned is loose. *)
Context (Hpin : ∀ o, o ∈ objs → hd_pinned (decode (word (w_store w4) o)) = false → loose o).

Lemma scanned_object o : o ∈ objs → osize rtti_of w4 o = osize rtti_of w o ∧ slots rtti_of w4 o = slots rtti_of w o.
Proof.
  intros Ho. edestruct (agree_facts rtti_of objs w w4 o) as (? & ? & _); [by apply (hi_object _ _ _ _ (rv_inv Hr))| |done].
  by apply (sd_agree _ _ _ _ _ Hsc).
Qed.

(** A reference is the same before and after the scans. *)
Lemma scanned_slot o a : o ∈ objs → a ∈ slots rtti_of w o → word (w_store w4) a = word (w_store w) a.
Proof.
  intros Ho Ha. apply (sd_agree _ _ _ _ _ Hsc o Ho). by apply (ob_slots _ _ _ _ (hi_object _ _ _ _ (rv_inv Hr) o Ho)).
Qed.

Lemma scanned_root a : a ∈ precise → word (w_store w4) a = word (w_store w) a ∧ word (w_store w) a ∈ objs.
Proof. intros Ha. destruct (ro_precise _ _ _ _ (rv_rooted Hr) a Ha) as [Hn ?]. split; [by apply (sd_words _ _ _ _ _ Hsc)|done]. Qed.

Lemma movable_loose o : o ∈ objs → movable w4 o → loose o.
Proof. intros Ho (_ & Hp & _). by apply Hpin. Qed.

Lemma scanned_evac_heap c1 : all_blocks c1 ≡ₚ heap_blocks self w →
  evac_heap_ok rtti_of next objs (all_blocks c1) conservative precise sp1 w4.
Proof.
  intros Hc1. pose proof (sd_inv _ _ _ _ _ Hsc) as Hi4. destruct (sd_world _ _ _ _ _ Hsc) as [Eb _].
  destruct (scanned_facts rtti_of objs self w rs w4 (rv_parked Hr) (rv_inv Hr) (rv_rooted Hr) Hsc) as (Hpk4 & Hhb & Er & _).
  destruct (emptied_ready w4 Hpk4 Hi4) as [Hev Hroom].
  pose proof (heap_inv_ok rtti_of objs self w4 Hi4) as Hok.
  assert (Hob : ∀ o, o ∈ objs → object_ok rtti_of objs w4 o) by apply Hi4.
  assert (Hslot : ∀ a, slot_in rtti_of objs w4 a → ∃ o, o ∈ objs ∧ a ∈ slots rtti_of w o ∧ word (w_store w4) a = word (w_store w) a).
  { intros a (o & Ho & Ha). destruct (scanned_object o Ho) as [_ Es]. rewrite Es in Ha. exists o. split_and!; try done. by apply (scanned_slot o). }
  constructor; rewrite ?Eb; try done.
  - intros o Ho. rewrite negb_involutive. by apply (hi_header _ _ _ _ Hi4).
  - intros o Ho. apply (Hob o Ho).
  - intros o p m Ho Hm. apply (Hrel (vtable_of w4 o) (words (w_store w4)) o m p). intros i Hii _. by apply Hm.
  - intros o a Ho Ha. destruct (ob_slots _ _ _ _ (Hob o Ho) a Ha) as [Hin Hw]. split; [|done].
    destruct (osize_ge _ _ _ _ (Hob o Ho)) as [_ Hm16]. destruct (scanned_object o Ho) as [_ Es].
    pose proof (rv_slots Hr o a Ho ltac:(by rewrite <- Es)) as Hm8. exists ((a - o) / 8). Z.div_mod_to_equations. lia.
  - intros o Ho. destruct (scanned_object o Ho) as [_ ->]. by apply (rv_slots_nodup Hr).
  - intros o Ho _. destruct (hi_placed _ _ _ _ Hi4 o Ho) as [Hin ?]. split; [|done]. by rewrite Hc1, <- Hhb.
  - intros b Hin. rewrite <- Eb. rewrite Hc1, <- Hhb in Hin. by apply (blocks_range rtti_of objs self w4 Hi4).
  - pose proof (so_world _ _ (hi_space _ _ _ _ (rv_inv Hr))) as [[_ [_ Hd] _ _ _] _ _]. lia.
  - pose proof (heap_total rtti_of objs self w4 Hi4). lia.
  - apply Hi4.
  - intros o o' Ho Ho' Hne. by apply (hi_apart _ _ _ _ Hi4).
  - intros r Hin. pose proof (roots_in_objs rtti_of pm objs self w rs (rv_parked Hr) (rv_inv Hr) (rv_rooted Hr) r Hin) as Ho.
    split; [done|]. intros Hm. by destruct (movable_loose r Ho Hm).
  - intros a Ha. destruct (scanned_root a Ha) as [-> Hin]. split; [done|].
    pose proof (rv_outside Hr a Ha) as Hout. rewrite <- Eb in Hout. split.
    + intros (b & low & Hb & Hx). assert (Hbe : b ∈ evac_blocks (evac_allocator sp1)) by (apply list_elem_of_fmap; by exists (b, low)).
      destruct (room_low _ _ _ (er_room _ _ Hev) Hb) as [Hlow _].
      assert (Him : immix w4 a); [|unfold immix in Him; congruence].
      eapply (block_immix w4 b); [by apply (er_range _ _ Hev)|lia].
    + intros o Ho Hx. destruct (hi_placed _ _ _ _ Hi4 o Ho) as (_ & P1 & P2). unfold within in Hx.
      assert (Him : immix w4 a); [|unfold immix in Him; congruence].
      eapply (block_immix w4 (Block.get_block_ptr o)); [by eapply block_in_range|lia].
  - apply (rv_precise Hr).
  - intros a b Ha Hb. destruct (scanned_root a Ha) as [-> Hin]. destruct (scanned_root b Hb) as [-> _]. intros E Hm.
    apply (rv_precise_once Hr); try done. by apply movable_loose.
  - intros a b (o & Ho & Ha & ->)%Hslot (o' & Ho' & Hb & ->)%Hslot E Hm. rewrite Er. intros Hn.
    apply (rv_once Hr o o'); try done. apply movable_loose; [|done].
    by apply (ob_slots _ _ _ _ (hi_object _ _ _ _ (rv_inv Hr) o Ho)).
Qed.

End Scanned.

(** ** The collection *)

(** What is left of the heap: its reachable part, with the object [o] at [g !! o]. *)
Record moved (g : gmap Z Z) (self' : Immix) (w' : World) : Prop := {
  md_reached : ∀ o, is_Some (g !! o) ↔ o ∈ objs ∧ reachable rtti_of w (roots_from self w rs) o;
  md_place : ∀ o p, g !! o = Some p → p = o ∨ loose o;
  md_inv : heap_inv rtti_of (places objs g) self' w';
  md_type : ∀ o p, g !! o = Some p → vtable_of w' p = vtable_of w o ∧ osize rtti_of w' p = osize rtti_of w o;
  md_data : ∀ o p i, g !! o = Some p → 0 < i < osize rtti_of w o / 8 → o + 8 * i ∉ slots rtti_of w o →
    word (w_store w') (p + 8 * i) = word (w_store w) (o + 8 * i);
  md_refs : ∀ o p a, g !! o = Some p → a ∈ slots rtti_of w o → g !! word (w_store w) a = Some (word (w_store w') (p + (a - o)));
  md_roots : ∀ a, a ∈ precise → g !! word (w_store w) a = Some (word (w_store w') a);
  md_frame : ∀ a, BA.is_in_space (w_ba w) a = false → a ∉ precise → word (w_store w') a = word (w_store w) a;
  md_mark : im_live_mark self' = next;
  md_allocated : im_allocated self' = sum_list (osize rtti_of w <$> filter (λ o, o ∈ dom g) objs);
  md_threshold : im_threshold self' = next_threshold (im_threshold self) (im_allocated self');
  md_finalize : im_to_finalize self' = filter (.∈ places objs g) (im_to_finalize self)
}.

(** From the sweep to the end of the collection. *)
Section Result.
Context (Hr : ready_to_move) (w4 : World) (Hsc : scanned rtti_of objs self w w4).
Context (Hpin : ∀ o, o ∈ objs → hd_pinned (decode (word (w_store w4) o)) = false → loose o).
Context (c1 : Collector) (Hc1 : all_blocks c1 ≡ₚ heap_blocks self w4) (g : gmap Z Z) (visited : Z) (sp2 : ImmixSpace) (w2 : World).
Context (Hed : evacuated rtti_of next objs c1 sp1 w4 conservative precise g visited sp2 w2).
Context (c' : Collector) (sp' : ImmixSpace) (w' : World) (Hrc : reclaimed c1 sp2 w2 c' sp' w').
Context (Hmh : moved_heap rtti_of next objs sp1 w4 conservative precise g sp' w').

Abbreviation objs' := (places objs g).
Abbreviation Hi4 := (sd_inv _ _ _ _ _ Hsc).

Lemma scanned_parked : parked w4 = w4.
Proof. apply (scanned_facts rtti_of objs self w rs w4 (rv_parked Hr) (rv_inv Hr) (rv_rooted Hr) Hsc). Qed.

Lemma result_reached o : is_Some (g !! o) ↔ o ∈ objs ∧ reachable rtti_of w (roots_from self w rs) o.
Proof.
  rewrite (mh_reached _ _ _ _ _ _ _ _ _ _ Hmh).
  destruct (scanned_facts rtti_of objs self w rs w4 (rv_parked Hr) (rv_inv Hr) (rv_rooted Hr) Hsc) as (_ & _ & Er & _). rewrite Er.
  by rewrite (reach_same rtti_of objs w w4 (roots_from self w rs) o (hi_object _ _ _ _ (rv_inv Hr)) (sd_agree _ _ _ _ _ Hsc)
    (roots_from_objs rtti_of pm objs self w rs (rv_parked Hr) (rv_inv Hr) (rv_rooted Hr))).
Qed.

Lemma result_place o p : g !! o = Some p → p = o ∨ loose o.
Proof.
  intros Hg. destruct (mh_place _ _ _ _ _ _ _ _ _ _ Hmh o p Hg) as [?|[Hm _]]; [by left|right].
  apply (movable_loose w4 Hpin); [|done]. apply result_reached. by rewrite Hg.
Qed.

(** Objects on the stack, and those to finalize, stay. *)
Lemma result_stays o : o ∈ objs → reachable rtti_of w (roots_from self w rs) o → ¬ loose o → o ∈ objs'.
Proof.
  intros Ho Hro Hnl. destruct (proj2 (result_reached o) (conj Ho Hro)) as [p Hg]. eapply (elem_of_places rtti_of objs self w4); [exact Hi4|exact Hmh|].
  exists o. destruct (result_place o p Hg) as [->|?]; done.
Qed.

(** Of an unreachable object whose block is kept by one that stays, the header is there. *)
Lemma result_dead o o' : o ∈ objs → ¬ reachable rtti_of w (roots_from self w rs) o →
  o' ∈ objs → reachable rtti_of w (roots_from self w rs) o' → ¬ loose o' → Block.get_block_ptr o' = Block.get_block_ptr o →
  header_wf (word (w_store w') o) ∧ hd_mark (decode (word (w_store w') o)) = im_live_mark self ∧
  hd_pointer (decode (word (w_store w') o)) = vtable_of w o.
Proof.
  intros Ho Hd Ho' Hr' Hnl Eb. destruct (proj2 (result_reached o') (conj Ho' Hr')) as [p Hg].
  destruct (result_place o' p Hg) as [->|?]; [|done].
  pose proof (place_not_free rtti_of objs self w4 Hi4 c1 _ _ g visited sp2 w2 Hed _ _ Hmh o' o' Hg) as Hnf. rewrite Eb in Hnf.
  assert (Ew : word (w_store w') o = word (w_store w2) o).
  { apply (rc_words _ _ _ _ _ _ Hrc). intros c Hc Hf Hx. apply Hnf. destruct (block_ptr_facts o) as (Hm & Hb & _).
    rewrite Hc1 in Hc. destruct (blocks_range rtti_of objs self w4 Hi4 c Hc) as [(Hcm & _) _]. consts.
    assert (Block.get_block_ptr o = c) as <-; [|done]. Z.div_mod_to_equations. lia. }
  assert (Hn : g !! o = None).
  { destruct (g !! o) as [q|] eqn:Eg; [|done]. destruct Hd. by apply result_reached. }
  rewrite Ew, (ed_dead _ _ _ _ _ _ _ _ _ _ _ _ Hed o Ho Hn). destruct (hi_header _ _ _ _ Hi4 o Ho) as (? & _ & ?).
  split_and!; try done. by apply (sd_agree _ _ _ _ _ Hsc o Ho).
Qed.

(** Objects are inside the space. *)
Lemma result_outside a : BA.is_in_space (w_ba w) a = false → (a ∉ objs') ∧ (a ∉ objs) ∧ ∀ o, o ∈ objs → ¬ (o <= a < o + osize rtti_of w4 o).
Proof.
  destruct (sd_world _ _ _ _ _ Hsc) as [Eb _]. rewrite <- Eb. intros Hout. split_and!.
  - intros [o Hg]%(elem_of_places rtti_of objs self w4 Hi4 _ _ g _ _ Hmh).
    destruct (place_aligned rtti_of objs self w4 Hi4 scanned_parked c1 Hc1 _ _ g visited sp2 w2 Hed _ _ Hmh o a Hg) as (_ & _ & Him).
    unfold immix in Him. congruence.
  - intros Ho%(object_immix rtti_of objs self w4 Hi4). unfold immix in Ho. congruence.
  - intros o Ho Hx. destruct (hi_placed _ _ _ _ Hi4 o Ho) as (_ & P1 & P2).
    assert (Him : immix w4 a); [|unfold immix in Him; congruence].
    eapply (block_immix w4 (Block.get_block_ptr o)); [eapply block_in_range; [exact Hi4|done]|lia].
Qed.

Context (w6 : World) (Hn6 : heap_now objs' w' w6).
Abbreviation self' := (collected_immix self visited c' sp' (mkLOS [] next) (filter (.∈ objs') (im_to_finalize self))).

(** The last pass changes headers only. *)
Lemma result_agree o p : g !! o = Some p → agree rtti_of w' w6 p ∧ object_ok rtti_of objs' w' p.
Proof.
  intros Hg. pose proof (place_object rtti_of Hrel objs self w4 Hi4 _ _ g _ _ Hmh o p Hg) as Hob. split; [|done]. split.
  - apply (hn_header _ _ _ Hn6). eapply elem_of_places; [exact Hi4|exact Hmh|]. by exists o.
  - intros a Ha. apply (hn_same _ _ _ Hn6). intros [o2 Hg2]%(elem_of_places rtti_of objs self w4 Hi4 _ _ g _ _ Hmh).
    assert (o2 ≠ o) by (intros ->; rewrite Hg in Hg2; injection Hg2; lia).
    destruct (place_facts rtti_of objs self w4 Hi4 _ _ g _ _ Hmh o2 a Hg2) as (_ & _ & Hs2).
    destruct (place_shape rtti_of Hrel objs self w4 Hi4 _ _ g _ _ Hmh o p Hg) as (_ & _ & _ & Eo). rewrite Eo in Ha.
    destruct (mh_apart _ _ _ _ _ _ _ _ _ _ Hmh o2 o a p Hg2 Hg); [done|lia..].
Qed.

Lemma result_moved : heap_inv rtti_of objs' self' w6 → moved g self' w6.
Proof.
  intros Hi6.
  assert (Hobj : ∀ o p, g !! o = Some p → o ∈ objs ∧ immix w4 o ∧ 0 < osize rtti_of w4 o)
    by (intros o p Hg; exact (place_facts rtti_of objs self w4 Hi4 _ _ g _ _ Hmh o p Hg)).
  assert (Hin : ∀ o p i, g !! o = Some p → 0 < i < osize rtti_of w o / 8 → word (w_store w6) (p + 8 * i) = word (w_store w') (p + 8 * i)).
  { intros o p i Hg Hi. destruct (Hobj o p Hg) as (Ho & _ & _). destruct (scanned_object Hr w4 Hsc o Ho) as [Eo _].
    destruct (result_agree o p Hg) as [[_ Ha] _]. apply Ha.
    destruct (place_shape rtti_of Hrel objs self w4 Hi4 _ _ g _ _ Hmh o p Hg) as (_ & _ & _ & ->). rewrite Eo. Z.div_mod_to_equations. lia. }
  constructor; try done.
  - apply result_reached.
  - apply result_place.
  - intros o p Hg. destruct (Hobj o p Hg) as (Ho & _ & _). destruct (result_agree o p Hg) as [Hag Hob].
    destruct (place_shape rtti_of Hrel objs self w4 Hi4 _ _ g _ _ Hmh o p Hg) as (Ev & _ & _ & Eo).
    destruct (sd_agree _ _ _ _ _ Hsc o Ho) as [Ev4 _]. destruct (scanned_object Hr w4 Hsc o Ho) as [Eo4 _].
    destruct (agree_facts rtti_of objs' w' w6 p Hob Hag) as (Eo6 & _). destruct Hag as [Ev6 _]. split; congruence.
  - intros o p i Hg Hi Hns. destruct (Hobj o p Hg) as (Ho & Him & _). destruct (scanned_object Hr w4 Hsc o Ho) as [Eo Es].
    rewrite (Hin o p i Hg Hi), (mh_data _ _ _ _ _ _ _ _ _ _ Hmh o p i Hg Him) by (by rewrite ?Eo, ?Es).
    apply (sd_agree _ _ _ _ _ Hsc o Ho). Z.div_mod_to_equations. lia.
  - intros o p a Hg Ha. destruct (Hobj o p Hg) as (Ho & Him & _). destruct (scanned_object Hr w4 Hsc o Ho) as [Eo Es].
    rewrite <- (scanned_slot Hr w4 Hsc o a Ho Ha), (mh_refs _ _ _ _ _ _ _ _ _ _ Hmh o p a Hg Him) by (by rewrite Es). f_equal. symmetry.
    destruct (ob_slots _ _ _ _ (hi_object _ _ _ _ (rv_inv Hr) o Ho) a Ha) as [Hra _]. pose proof (rv_slots Hr o a Ho Ha) as Hm8.
    destruct (osize_ge _ _ _ _ (hi_object _ _ _ _ (rv_inv Hr) o Ho)) as [_ Hm16].
    replace (p + (a - o)) with (p + 8 * ((a - o) / 8)) by (Z.div_mod_to_equations; lia). apply (Hin o); [done|]. Z.div_mod_to_equations. lia.
  - intros a Ha. destruct (scanned_root Hr w4 Hsc a Ha) as [<- _]. rewrite (mh_roots _ _ _ _ _ _ _ _ _ _ Hmh a Ha). f_equal. symmetry.
    apply (hn_same _ _ _ Hn6). by apply result_outside, (rv_outside Hr).
  - intros a Ha Hp. destruct (result_outside a Ha) as (N1 & N2 & N3). pose proof (sd_world _ _ _ _ _ Hsc) as [Eb _].
    etrans; [by apply (hn_same _ _ _ Hn6)|]. change (mem_read (words (w_store w')) a) with (word (w_store w') a).
    rewrite (outside_kept rtti_of next objs c1 sp1 w4 _ _ g visited sp2 w2 Hed c' sp' w' Hrc a) by (by rewrite Eb).
    rewrite (ed_frame _ _ _ _ _ _ _ _ _ _ _ _ Hed a N3); [by apply (sd_words _ _ _ _ _ Hsc)| |done].
    destruct (emptied_ready w4 scanned_parked Hi4) as [Hev _]. intros (b & low & Hb & Hx).
    assert (Hbe : b ∈ evac_blocks (evac_allocator sp1)) by (apply list_elem_of_fmap; by exists (b, low)).
    destruct (room_low _ _ _ (er_room _ _ Hev) Hb) as [Hlow _].
    assert (Him : immix w4 a); [|unfold immix in Him; congruence]. eapply (block_immix w4 b); [by apply (er_range _ _ Hev)|lia].
  - cbn. rewrite (ed_visited _ _ _ _ _ _ _ _ _ _ _ _ Hed). f_equal. apply fmap_ext_in. intros o [_ Ho]%list_elem_of_filter.
    by apply (scanned_object Hr w4 Hsc).
Qed.

End Result.

Lemma pinned_loose roots w3 o : pinned objs w roots w3 → o ∈ objs → hd_pinned (decode (word (w_store w3) o)) = false →
  hd_pinned (decode (word (w_store w) o)) = false ∧ o ∉ roots.
Proof.
  intros Hp Ho. destruct (pi_headers _ _ _ _ Hp o Ho) as [_ ->]. cbn. intros [? E]%orb_false_iff. by apply bool_decide_eq_false in E.
Qed.

(** The choice of an evacuating collection. *)
Definition prepared_move (emergency : bool) (c1 : Collector) (w3 : World) (evacuation : bool) : Prop := ∃ f,
  choice self emergency c1 w3 evacuation = Ok (ImmixEvacCollection, w_store (flagged f w3 (all_blocks c1))).

Lemma collect_rooted_moves emergency c blocks evacuation w3 fuel : all_blocks c ++ blocks ≡ₚ heap_blocks self w → ready_to_move →
  pinned objs w conservative w3 → prepared_move emergency (extend_all_blocks c blocks) w3 evacuation →
  sum_list (degree rtti_of w <$> objs) + Z.of_nat (length (roots_from self w rs)) < Z.of_nat fuel →
  ∃ g self' w',
    collect_rooted rtti_of freed_size fuel (set_collector self c) pm evacuation emergency precise sp1 blocks conservative w3 =
      Ok (self', w', pm, finalized rtti_of self w (places objs g)) ∧ moved g self' w' ∧ w_tls w' = w_tls w.
Proof.
  intros Hcb Hr Hp [f Epr] Hf. pose proof Hr as [Hpk Hi Hro Hout _ _ _ _ _ Hgs Hfi]. set (c1 := extend_all_blocks c blocks) in *.
  pose proof (pinned_scanned rtti_of objs self w _ w3 Hi Hp) as Hsc3.
  destruct (scanned_facts rtti_of objs self w rs w3 Hpk Hi Hro Hsc3) as (_ & Hhb3 & _ & _).
  set (w4 := flagged f w3 (all_blocks c1)) in *.
  assert (Hsc : scanned rtti_of objs self w w4).
  { apply scanned_flagged; [|done]. intros b Hb. apply (blocks_range rtti_of objs self w3 (sd_inv _ _ _ _ _ Hsc3)). rewrite Hhb3, <- Hcb. exact Hb. }
  destruct (scanned_facts rtti_of objs self w rs w4 Hpk Hi Hro Hsc) as (Hpk4 & Hhb & Er & Ed). pose proof Hsc as [Hi4 Hag [Eba Etl] Hwd].
  assert (Hpin : ∀ o, o ∈ objs → hd_pinned (decode (word (w_store w4) o)) = false → loose o).
  { intros o Ho. unfold w4. rewrite flagged_word. by apply pinned_loose. }
  pose proof (scanned_evac_heap Hr w4 Hsc Hpin c1 Hcb) as Hk. pose proof (hi_large _ _ _ _ Hi) as El.
  assert (Hc1 : all_blocks c1 ≡ₚ heap_blocks self w4) by (rewrite Hhb; exact Hcb).
  assert (Hev : evacuable rtti_of next objs c1 sp1 w4 freed_size (im_los self) pm conservative precise fuel).
  { constructor; try done.
    - rewrite <- Hpk4. by eapply collecting_now.
    - apply Hi4.
    - by rewrite Er, Ed.
    - unfold LOS.los_wf. rewrite El. split; [constructor|]. intros p Hx. by apply not_elem_of_nil in Hx.
    - rewrite El. intros p Hx. by apply not_elem_of_nil in Hx.
    - intros a Ha. rewrite Eba. auto.
    - rewrite El. by split. }
  destruct (evac_collect_ok _ _ _ _ _ _ _ _ _ _ _ _ Hev) as (g & visited & sp2 & w2 & c' & sp' & w' & los' & pm' & fins & Ec & Esw & Hed & Hrc & Hmh).
  pose proof (roots_from_objs rtti_of pm objs self w rs Hpk Hi Hro) as Hrin.
  set (fin := filter (.∈ places objs g) (im_to_finalize self)).
  assert (Hinv : heap_inv rtti_of (places objs g) (collected_immix self visited c' sp' (mkLOS [] next) fin) w').
  { eapply (moved_inv rtti_of Hrel objs self w4 Hi4); try done. by intros o [? _]%list_elem_of_filter. }
  destruct (collect_rooted_end rtti_of freed_size self w pm rs emergency c blocks w3 evacuation fuel ImmixEvacCollection w4
    visited c' sp' w' los' pm' fins (places objs g)) as (w6 & E6 & Hi6 & Hs6 & Et6); try done.
  { intros Hv. rewrite (ed_visited _ _ _ _ _ _ _ _ _ _ _ _ Hed). etrans; [|by apply Hgs].
    rewrite (fmap_ext_in _ (osize rtti_of w)) by (intros o [_ Ho]%list_elem_of_filter; by apply (scanned_object Hr w4 Hsc)).
    apply sum_filter_le. intros o Ho. pose proof (osize_ge _ _ _ _ (hi_object _ _ _ _ Hi o Ho)). lia. }
  { intros r Hrr. assert (Hra : r ∈ roots_from self w rs) by (unfold roots_from; apply elem_of_app; by left).
    eapply (result_stays Hr w4 Hsc Hpin); [exact Hmh|by apply Hrin|by exists r|]. by intros [_ ?]. }
  { intros o Ho Hns. pose proof (hi_finalize _ _ _ _ Hi o Ho) as Hin. destruct (Hfi o Ho) as [[Hl Hnl]|(Hd & Hn & o' & Ho' & Hl' & Hnl' & Eb)].
    - destruct Hns. by eapply (result_stays Hr w4 Hsc Hpin).
    - destruct (result_dead Hr w4 Hsc Hpin c1 Hc1 g visited sp2 w2 Hed c' sp' w' Hrc Hmh o o') as (? & ? & ?); done || by split_and!. }
  eexists g, _, w6. split_and!; [exact E6|by eapply (result_moved Hr w4 Hsc Hpin)|].
  - rewrite Et6, (rc_tls _ _ _ _ _ _ Hrc). destruct (ed_space _ _ _ _ _ _ _ _ _ _ _ _ Hed) as (_ & _ & ->). done.
Qed.

(** ** When it is chosen *)

Lemma counts_ok w3 : heap_inv rtti_of objs self w3 →
  ∃ av tot, BA.available_blocks (w_ba w3) = Ok av ∧ BA.total_blocks (w_ba w3) = Ok tot ∧ 0 <= av <= 2 ^ 63 + 2 ^ 50.
Proof.
  intros Hi. pose proof (wo_ba _ (so_world _ _ (hi_space _ _ _ _ Hi))) as Hba. rewrite BA.available_blocks_ok by done.
  destruct Hba as [Hs [Hb1 Hb2] [Hd1 Hd2] Hnd Hfr]. pose proof (BA.aligned_spec (mmap (w_ba w3))) as [Ha1 Ha2]. unfold BA.total_blocks.
  rewrite u_sub_ok, bind_Ok by lia. eexists _, _. split; [done|]. split; [done|].
  assert (Hlen : Z.of_nat (length (free_blocks (w_ba w3))) <= 2 ^ 50).
  { apply aligned_count; [lia|done|]. intros b Hb'. destruct (Hfr b Hb') as (? & ? & ?). consts. lia. }
  consts. Z.div_mod_to_equations. lia.
Qed.

(** An emergency. *)
Lemma emergency_moves c1 w3 evacuation : heap_inv rtti_of objs self w3 → prepared_move true c1 w3 evacuation.
Proof.
  intros Hi. destruct (counts_ok w3 Hi) as (av & tot & E1 & E2 & _). exists (λ _ _, true). unfold choice. by rewrite E1, E2, !bind_Ok.
Qed.

(** The number of blocks is small. *)
Lemma blocks_count c1 w3 : heap_inv rtti_of objs self w3 → all_blocks c1 ≡ₚ heap_blocks self w3 →
  Z.of_nat (length (all_blocks c1)) <= 2 ^ 50.
Proof.
  intros Hi Hc1. pose proof (collecting_now rtti_of objs self w3 Hi c1 Hc1) as [_ _ _ Hnd Hr _ _].
  pose proof (so_world _ _ (hi_space _ _ _ _ Hi)) as [[Hs [Hb1 Hb2] _ _ _] _ _]. pose proof (BA.aligned_spec (mmap (w_ba w3))).
  apply aligned_count; [lia|done|]. intros b Hb. destruct (Hr b Hb) as [(? & Hlo & Hhi) _]. rewrite parked_ba in Hlo, Hhi. consts. lia.
Qed.

(** A collection that is no emergency moves objects when it is asked to, or has few
    blocks, and finds blocks with enough holes; otherwise it moves nothing. *)
Lemma requested_choice c1 w3 evacuation : scanned rtti_of objs self w w3 → all_blocks c1 ≡ₚ heap_blocks self w3 →
  histogram_ok (mark_histogram c1) →
  prepared_move false c1 w3 evacuation ∨ prepared rtti_of objs self w false c1 w3 evacuation.
Proof.
  intros Hsc Hc1 [Hh1 Hh2]. pose proof (sd_inv _ _ _ _ _ Hsc) as Hi. destruct (counts_ok w3 Hi) as (av & tot & E1 & E2 & Hav).
  pose proof (blocks_count c1 w3 Hi Hc1) as Hlen. pose proof (hi_headroom _ _ _ _ Hi) as Hh. unfold EVAC_HEADROOM in Hh.
  change (evac_headroom (im_immix self)) with (evac_headroom sp1) in Hh.
  assert (0 <= evac_headroom sp1) by (unfold evac_headroom, Evac.evac_headroom; lia).
  destruct (hole_threshold_least c1 (w_store w3) (evac_headroom sp1)) as (h & t & _ & Et & Ht & _);
    [intros b; apply (so_world _ _ (hi_space _ _ _ _ Hi))|done|done|lia|lia|].
  set (few := evacuation || bool_decide (av + evac_headroom sp1 < evac_trigger tot)).
  assert (Ec : choice self false c1 w3 evacuation = Ok (if few && bool_decide (0 < t) then ImmixEvacCollection else ImmixCollection,
    if few && bool_decide (0 < t) then w_store (flagged (λ s b, bool_decide (t <= hole_count (header s b))) w3 (all_blocks c1)) else w_store w3)).
  { unfold choice. rewrite E1, E2, !bind_Ok. unfold prepare_collection. cbn [andb]. rewrite u_add_ok, bind_Ok by lia.
    fold few. destruct few eqn:Ef.
    - rewrite Et, bind_Ok. change USE_EVACUATION with true. cbn [andb]. by destruct (bool_decide (0 < t)).
    - unfold few in Ef. apply orb_false_iff in Ef as [-> _]. done. }
  destruct (few && bool_decide (0 < t)).
  - left. by eexists.
  - right. exists ImmixCollection, w3. split; [exact Ec|]. split; [by destruct w3|]. split; [done|apply still_plain].
Qed.

Lemma ready_to_calm : ready_to_move → calm rtti_of objs self w rs.
Proof.
  intros []. constructor; try done. intros o Ho. destruct (rv_finalize0 o Ho) as [[? _]|(? & ? & o' & ? & ? & _ & ?)]; [by left|right].
  split; [done|]. split; [done|]. by exists o'.
Qed.

End Ready.

(** A collection that moves nothing leaves every object at its place. *)
Definition stay (l : list Z) : gmap Z Z := set_to_map (λ o, (o, o)) (list_to_set l : gset Z).

Lemma lookup_stay l o p : stay l !! o = Some p ↔ p = o ∧ o ∈ l.
Proof.
  unfold stay. rewrite lookup_set_to_map by (by intros). setoid_rewrite elem_of_list_to_set. split.
  - by intros (x & ? & [= -> ->]).
  - intros [-> ?]. by exists o.
Qed.

Lemma elem_of_places_stay objs l p : (∀ o, o ∈ l → o ∈ objs) → p ∈ places objs (stay l) ↔ p ∈ l.
Proof. intros Hl. unfold places. rewrite list_elem_of_omap. setoid_rewrite lookup_stay. naive_solver. Qed.

Lemma collected_moved `{Cfg} rtti_of objs self w rs objs' self' w' : calm rtti_of objs self w rs →
  (∀ a, a ∈ precise_roots self w → BA.is_in_space (w_ba w) a = false) →
  collected rtti_of objs self w rs objs' self' w' → moved rtti_of objs self w rs (stay objs') self' w'.
Proof.
  intros [Hpk Hi Hro _ _] Hout [C1 C2 C3 C4 C5 C6 C7 C8].
  pose proof (roots_from_objs rtti_of ∅ objs self w rs Hpk Hi Hro) as Hrin.
  assert (Hsub : ∀ o, o ∈ objs' → o ∈ objs) by (intros o; rewrite C1; tauto).
  assert (Hsome : ∀ o, is_Some (stay objs' !! o) ↔ o ∈ objs').
  { intros o. split; [by intros [p [_ ?]%lookup_stay]|]. intros ?. exists o. by apply lookup_stay. }
  assert (Hag : ∀ o, o ∈ objs' → object_ok rtti_of objs w o ∧ osize rtti_of w' o = osize rtti_of w o).
  { intros o Ho. pose proof (hi_object _ _ _ _ Hi o (Hsub o Ho)) as Hob. split; [done|]. eapply agree_facts; [exact Hob|auto]. }
  assert (Hperm : filter (λ o, o ∈ dom (stay objs')) objs ≡ₚ objs').
  { apply NoDup_Permutation; [apply NoDup_filter, Hi|apply C2|]. intros o. rewrite list_elem_of_filter, elem_of_dom, Hsome. naive_solver. }
  assert (Hplaces : ∀ p, p ∈ places objs (stay objs') ↔ p ∈ objs').
  { intros p. by apply elem_of_places_stay. }
  constructor; try done.
  - intros o. by rewrite Hsome, C1.
  - intros o p [-> _]%lookup_stay. by left.
  - apply (heap_inv_ext rtti_of objs'); [done|..|done].
    + apply NoDup_omap; [apply Hi|]. intros o o' p [-> _]%lookup_stay [-> _]%lookup_stay. done.
  - intros o p [-> Ho]%lookup_stay. split; [by apply C3|by apply Hag].
  - intros o p i [-> Ho]%lookup_stay Hin _. apply (C3 o Ho). destruct (Hag o Ho) as [Hob _].
    pose proof (osize_ge _ _ _ _ Hob). Z.div_mod_to_equations. lia.
  - intros o p a [-> Ho]%lookup_stay Ha. apply lookup_stay. destruct (Hag o Ho) as [Hob _]. destruct (ob_slots _ _ _ _ Hob a Ha) as [Hra Hwa].
    replace (o + (a - o)) with a by lia. split; [by apply (C3 o Ho)|]. apply C1. split; [done|].
    apply C1 in Ho as [_ (r & Hr & Hrt)]. exists r. split; [done|]. eapply rtc_r; [exact Hrt|]. unfold edge, kids. apply list_elem_of_fmap. by exists a.
  - intros a Ha. apply lookup_stay. split; [by apply C7, Hout|]. assert (Hr : word (w_store w) a ∈ roots_from self w rs).
    { apply elem_of_app. right. by apply list_elem_of_fmap_2. }
    apply C1. split; [by apply Hrin|]. by exists (word (w_store w) a).
  - intros a Ha _. by apply C7.
  - by rewrite C5, Hperm.
  - rewrite C8. apply list_filter_iff. intros o. by rewrite Hplaces.
Qed.

(** What is counted: the objects at their new places. *)
Lemma places_sum objs (g : gmap Z Z) (f f' : Z → Z) : (∀ o p, g !! o = Some p → f' p = f o) →
  sum_list (f' <$> places objs g) = sum_list (f <$> filter (λ o, o ∈ dom g) objs).
Proof.
  intros Hf. unfold places, sum_list. induction objs as [|o l IH]; [done|]. cbn [omap list_omap]. rewrite filter_cons.
  destruct (g !! o) as [p|] eqn:Eg.
  - rewrite decide_True by (by apply elem_of_dom). rewrite !fmap_cons. cbn [foldr]. rewrite (Hf o p Eg). by f_equal.
  - rewrite decide_False; [done|]. by apply not_elem_of_dom.
Qed.

Lemma moved_bounds `{Cfg} rtti_of objs self w rs g self' w' : moved rtti_of objs self w rs g self' w' →
  heap_inv rtti_of objs self w → 0 < im_threshold self → 0 <= im_allocated self' < im_threshold self' ∧ im_allocated self' <= 2 ^ 63.
Proof.
  intros [M1 M2 M3 M4 M5 M6 M7 M8 M9 M10 M11 _] Hi Ht.
  pose proof (places_sum objs g (osize rtti_of w) (osize rtti_of w') (λ o p Hg, proj2 (M4 o p Hg))) as Es.
  pose proof (heap_total rtti_of _ self' w' M3) as Hb. rewrite Es, <- M10 in Hb.
  assert (Hsz : ∀ o, o ∈ filter (λ o, o ∈ dom g) objs → 0 <= osize rtti_of w o ∧ osize rtti_of w o mod 16 = 0).
  { intros o [_ Ho]%list_elem_of_filter. pose proof (osize_ge _ _ _ _ (hi_object _ _ _ _ Hi o Ho)) as [? ?]. lia. }
  assert (0 <= im_allocated self') by (rewrite M10; apply sum_nonneg; intros o Ho; by apply Hsz).
  assert (Hlt : im_allocated self' < im_threshold self'); [|lia]. rewrite M11. apply next_threshold_above; [done|lia|].
  rewrite M10. apply sum_mod16. intros o Ho. by apply Hsz.
Qed.

(** ** Collections of either kind *)

Section Either.
Context `{Cfg} (rtti_of : Z → GCRTTI) (freed_size : Z → Z) (Hfs : ∀ p, 0 <= freed_size p).
Context (objs : list Z) (self : Immix) (w : World) (pm : pmem) (rs : list (Z * Z)).

(** A heap ready for a collection: one that moves nothing, or one that may. *)
Definition collectible (evacuation emergency : bool) : Prop :=
  (emergency = true ∨ evacuation = false) ∧ ready_for rtti_of objs self w rs emergency ∨
  (∀ v, relocatable (rtti_of v)) ∧ ready_to_move rtti_of objs self w rs.

Definition rounds_bound : Z := sum_list (degree rtti_of w <$> objs) + Z.of_nat (length (roots_from self w rs)).

Section Rooted.
Context (c : Collector) (blocks : list Z) (Hcb : all_blocks c ++ blocks ≡ₚ heap_blocks self w).
Context (Hch : mark_histogram c = mark_histogram (im_collector self)).
Context (w3 : World) (Hp : pinned objs w (roots_in self w rs) w3).

Lemma ready_choice evacuation emergency : let c1 := extend_all_blocks c blocks in
  ready_to_move rtti_of objs self w rs →
  prepared_move self emergency c1 w3 evacuation ∨ prepared rtti_of objs self w emergency c1 w3 evacuation.
Proof.
  intros c1 Hr. pose proof (rv_inv _ _ _ _ _ Hr) as Hi. pose proof (pinned_scanned rtti_of objs self w _ w3 Hi Hp) as Hsc.
  destruct emergency; [left; by apply (emergency_moves rtti_of objs), Hsc|].
  destruct (scanned_facts rtti_of objs self w rs w3 (rv_parked _ _ _ _ _ Hr) Hi (rv_rooted _ _ _ _ _ Hr) Hsc) as (_ & Hhb & _).
  apply requested_choice; [done|by rewrite Hhb|]. change (mark_histogram c1) with (mark_histogram c). rewrite Hch. apply Hi.
Qed.

Lemma collect_rooted_moved evacuation emergency fuel : (∀ v, relocatable (rtti_of v)) → ready_to_move rtti_of objs self w rs →
  rounds_bound < Z.of_nat fuel →
  ∃ g self' w',
    collect_rooted rtti_of freed_size fuel (set_collector self c) pm evacuation emergency (precise_roots self w)
      (emptied (im_immix self)) blocks (roots_in self w rs) w3 = Ok (self', w', pm, finalized rtti_of self w (places objs g)) ∧
    moved rtti_of objs self w rs g self' w' ∧ w_tls w' = w_tls w.
Proof.
  intros Hrel Hr Hf. destruct (ready_choice evacuation emergency Hr) as [Hpr|Hpr].
  - by apply (collect_rooted_moves rtti_of Hrel).
  - pose proof (ready_to_calm _ _ _ _ _ Hr) as Hca.
    destruct (collect_rooted_still rtti_of freed_size Hfs objs self w pm rs emergency c blocks w3 evacuation fuel)
      as (objs' & self' & w' & Ec & Hm & Et); [done..|]. exists (stay objs'), self', w'. split_and!; [| |done].
    { rewrite Ec. do 2 f_equal. apply finalized_ext. intros o. symmetry. apply elem_of_places_stay. intros x Hx. by apply (cd_objs _ _ _ _ _ _ _ _ Hm). }
    apply collected_moved; [done|apply Hr|done].
Qed.

(** Whatever the kind, the heap is in order for some objects, below its threshold. *)
Lemma collect_rooted_any evacuation emergency fuel : collectible evacuation emergency → rounds_bound < Z.of_nat fuel →
  ∃ objs' self' w',
    collect_rooted rtti_of freed_size fuel (set_collector self c) pm evacuation emergency (precise_roots self w)
      (emptied (im_immix self)) blocks (roots_in self w rs) w3 = Ok (self', w', pm, finalized rtti_of self w objs') ∧
    heap_inv rtti_of objs' self' w' ∧ w_tls w' = w_tls w ∧
    (0 < im_threshold self → 0 <= im_allocated self' < im_threshold self' ∧ im_allocated self' <= 2 ^ 63).
Proof.
  intros [(Hev & Hr)|(Hrel & Hr)] Hf.
  - destruct (collect_rooted_ok rtti_of freed_size Hfs objs self w pm rs emergency c blocks w3 fuel) as (objs' & self' & w' & Ec & Hcd & Et); [done..|].
    exists objs', self', w'. split_and!; [by destruct Hev as [->| ->]|apply Hcd|done|]. by apply (collected_bounds _ _ _ _ _ _ _ _ Hcd), Hr.
  - destruct (collect_rooted_moved evacuation emergency fuel) as (g & self' & w' & Ec & Hm & Et); [done..|].
    exists (places objs g), self', w'. split_and!; [done|apply Hm|done|]. by apply (moved_bounds _ _ _ _ _ _ _ _ Hm), Hr.
Qed.

End Rooted.

End Either.

(** ** The build without threads *)

Section Single.
Context `{Cfg} (rtti_of : Z → GCRTTI) (freed_size : Z → Z) (Hst : threaded = false) (Hfs : ∀ p, 0 <= freed_size p).
Context (objs : list Z) (self : Immix) (w : World) (pm : pmem).

Abbreviation rs := (ranges self w).

Lemma moves_ok evacuation emergency fuel started stack_pointer threads : (∀ v, relocatable (rtti_of v)) →
  ready_to_move rtti_of objs self w rs → rounds_bound rtti_of objs self w rs < Z.of_nat fuel →
  ∃ g self' w',
    collect_internal rtti_of freed_size fuel started stack_pointer threads self w pm evacuation emergency =
      Ok (self', w', pm, threads, finalized rtti_of self w (places objs g)) ∧ moved rtti_of objs self w rs g self' w'.
Proof.
  intros Hrel Hr Hf.
  destruct (internal_rooted rtti_of freed_size Hst objs self w pm evacuation emergency fuel started stack_pointer threads) as (w3 & Hp & Hint); [apply Hr..|].
  destruct (collect_rooted_moved rtti_of freed_size Hfs objs self w pm rs _ _ (single_blocks Hst self w) eq_refl w3 Hp evacuation emergency fuel)
    as (g & self' & w' & Ec & Hm & _); [done..|]. exists g, self', w'. split; [by apply Hint|done].
Qed.

Lemma collectible_ok evacuation emergency fuel started stack_pointer threads : collectible rtti_of objs self w rs evacuation emergency →
  rounds_bound rtti_of objs self w rs < Z.of_nat fuel →
  ∃ objs' self' w',
    collect_internal rtti_of freed_size fuel started stack_pointer threads self w pm evacuation emergency =
      Ok (self', w', pm, threads, finalized rtti_of self w objs') ∧ heap_inv rtti_of objs' self' w' ∧
    (0 < im_threshold self → 0 <= im_allocated self' < im_threshold self' ∧ im_allocated self' <= 2 ^ 63).
Proof.
  intros Hc Hf. assert (Hir : heap_inv rtti_of objs self w ∧ rooted objs self w rs) by (by destruct Hc as [(_ & [])|(_ & [])]).
  destruct (internal_rooted rtti_of freed_size Hst objs self w pm evacuation emergency fuel started stack_pointer threads) as (w3 & Hp & Hint); [apply Hir..|].
  destruct (collect_rooted_any rtti_of freed_size Hfs objs self w pm rs _ _ (single_blocks Hst self w) eq_refl w3 Hp evacuation emergency fuel)
    as (objs' & self' & w' & Ec & Hi & _ & Hb); [done..|]. exists objs', self', w'. split; [by apply Hint|done].
Qed.

End Single.

(** ** A sample heap

    That of [EvacCollect] with its object starts in the bitmap; the precise root at 16
    comes from a callback, and the word at 40 of the stack refers to the third object. *)

Definition spare_space : ImmixSpace :=
  set_bitmap move_space (mkSpaceBitmap (<[4%nat := 66816]> (replicate 68 0)) 544 28672 98304).
Definition spare_world : World :=
  set_store move_world (mkStore (headers (w_store move_world)) (<[40 := 33024]> (words (w_store move_world)))).
Definition spare_immix : Immix :=
  mkImmix LOS.new spare_space 32 StatsNone 48 48 1024 false [((λ _ _, ([16], [])) : CollectRootsCallback, 0)] move_collector [].

Lemma spare_starts a : object_start spare_space spare_world a → a ∈ move_objs.
Proof.
  intros (Hm & Hr & Hs).
  assert (Hall : Forall (λ g, Space.marked (bitmap spare_space) g = true → 28672 + 16 * g ∈ move_objs) (range 0 4352)) by vm_decide.
  rewrite Forall_forall in Hall. cbn in Hr. specialize (Hall ((a - 28672) / 16)).
  replace (28672 + 16 * ((a - 28672) / 16)) with a in Hall by (Z.div_mod_to_equations; lia).
  apply Hall; [apply elem_of_range; Z.div_mod_to_equations; lia|done].
Qed.

Lemma spare_space_ok : let _ : Cfg := false in space_ok spare_space spare_world.
Proof.
  intros cfg. apply (ImmixSpaceM.space_ok_words spare_space move_world (w_store spare_world)); [done|].
  apply ImmixSpaceM.space_ok_bitmap; [apply move_collecting|].
  split_and!; [|done|vm_compute; discriminate]. unfold Space.space_wf, Words.wf, in_width. vm_decide.
Qed.

Lemma spare_free x : let _ : Cfg := false in free_space spare_space spare_world x → 65664 <= x.
Proof.
  intros cfg [Hx|[Hx|[Hx|(b & Hb & _)]]]; [..|by apply move_unavailable in Hb];
    (destruct Hx as [(? & ? & ? & [=] & _)|(b & Hb & [Hx _])]); [by apply not_elem_of_nil in Hb..|].
  cbn in Hb. apply list_elem_of_singleton in Hb as ->. lia.
Qed.

Lemma spare_slots o a : o ∈ move_objs → a ∈ slots pair_rtti spare_world o → o = 32896 ∧ a = 32904.
Proof.
  intros Ho Ha. move_cases Ho; vm_compute in Ha; [by apply list_elem_of_singleton in Ha|by apply not_elem_of_nil in Ha..].
Qed.

Lemma spare_size o : o ∈ move_objs → osize pair_rtti spare_world o = 16.
Proof. intros Ho. by move_cases Ho. Qed.

Lemma pair_relocatable v : relocatable (pair_rtti v).
Proof. intros m o m' p _. split; [done|]. unfold pair_rtti. cbn. case_decide; [|done]. cbn. f_equal. lia. Qed.

Lemma spare_inv : let _ : Cfg := false in heap_inv pair_rtti move_objs spare_immix spare_world.
Proof.
  intros cfg. constructor.
  - apply spare_space_ok.
  - constructor; try (intros b _ Hb; by apply not_elem_of_nil in Hb).
    + vm_decide.
    + intros b Hb. cbn in Hb. apply list_elem_of_singleton in Hb as ->. split; [apply move_range; by left|apply move_unavailable].
    + intros b Hb Hb'. cbn in Hb, Hb'. apply list_elem_of_singleton in Hb, Hb'. lia.
  - by intros [=].
  - done.
  - done.
  - vm_decide.
  - intros o Ho. move_cases Ho; (split; [split; [split; [discriminate|reflexivity]|discriminate]|split; reflexivity]).
  - intros o Ho. constructor; [cbn; lia|done|]. intros a Ha. destruct (spare_slots o a Ho Ha) as [-> ->]. split; [vm_compute; done|]. right. left.
  - intros o Ho. move_cases Ho; (split; [change (Block.get_block_ptr _) with 32768; left|split; vm_compute; done]).
  - intros o o' Ho Ho' Hne. rewrite !spare_size by done. move_cases Ho; move_cases Ho'; lia.
  - intros o x Ho. rewrite spare_size by done. intros Hx Hf%spare_free. move_cases Ho; lia.
  - intros a. split; [apply spare_starts|]. intros Ho. move_cases Ho; split_and!; vm_compute; done.
  - done.
  - intros o Ho. by apply not_elem_of_nil in Ho.
  - apply histogram_empty.
Qed.

Lemma spare_ready : let _ : Cfg := false in ready_to_move pair_rtti move_objs spare_immix spare_world (ranges spare_immix spare_world).
Proof.
  intros cfg. constructor.
  - done.
  - apply spare_inv.
  - constructor.
    + intros a ->%list_elem_of_singleton. split; [vm_decide|]. left.
    + intros r ->%list_elem_of_singleton. cbn. lia.
    + intros r a ->%list_elem_of_singleton Ha. apply elem_of_scan in Ha as [Ha Hm]; [|reflexivity..].
      change (32 <= a < 48) in Ha. assert (Hc : a = 32 ∨ a = 40) by (Z.div_mod_to_equations; lia).
      destruct Hc as [->| ->]; (split; [vm_decide|]; split; [split; vm_compute; done|split; vm_compute; done]).
  - intros a ->%list_elem_of_singleton. reflexivity.
  - vm_decide.
  - intros o a Ho Ha. by destruct (spare_slots o a Ho Ha) as [-> ->].
  - intros o Ho. move_cases Ho; vm_decide.
  - intros a b ->%list_elem_of_singleton ->%list_elem_of_singleton. done.
  - intros o o' a b Ho Ho' Ha Hb. destruct (spare_slots o a Ho Ha) as [_ ->], (spare_slots o' b Ho' Hb) as [_ ->]. done.
  - done.
  - intros o Ho. by apply not_elem_of_nil in Ho.
Qed.

(** The same with objects to finalize, the first and the third: the precise root now
    refers to the second object, which moves, and the third one keeps the block. *)
Definition spare_final_world : World := with_words spare_world (<[16 := 32928]> (words (w_store spare_world))).
Definition spare_final_immix : Immix :=
  mkImmix LOS.new spare_space 32 Verbose 48 48 1024 false (im_callbacks spare_immix) move_collector [32896; 33024].

Lemma spare_final_word a : a ≠ 16 → word (w_store spare_final_world) a = word (w_store spare_world) a.
Proof. intros Ha. unfold spare_final_world, word, mem_read. cbn. by rewrite lookup_insert_ne. Qed.

Lemma spare_final_inv : let _ : Cfg := false in heap_inv final_rtti move_objs spare_final_immix spare_final_world.
Proof.
  intros cfg. assert (Hi : heap_inv pair_rtti move_objs spare_immix spare_final_world).
  { apply heap_inv_words; [apply spare_inv|]. intros o Ho. change (with_words spare_world _) with spare_final_world.
    pose proof (hi_header _ _ _ _ spare_inv o Ho) as (? & ? & ?).
    assert (Hoa : ∀ a, o <= a < o + 16 → word (w_store spare_final_world) a = word (w_store spare_world) a)
      by (intros a Ha; apply spare_final_word; move_cases Ho; lia).
    unfold agree, vtable_of. rewrite spare_size, Hoa by (done || lia). split_and!; try done. intros a Ha. apply Hoa. lia. }
  destruct Hi as [H1 H2 H3 H4 H5 H6 H7 H8 H9 H10 H11 H12 H13 _ H15]. constructor; try done.
  - intros o Ho. destruct (H8 o Ho). by constructor.
  - intros o. cbn. rewrite !elem_of_cons, elem_of_nil. intros [->|[->|[]]]; [left|right; right; left].
Qed.

Lemma spare_final_slots o a : o ∈ move_objs → a ∈ slots final_rtti spare_final_world o → o = 32896 ∧ a = 32904.
Proof.
  intros Ho Ha. move_cases Ho; vm_compute in Ha; [by apply list_elem_of_singleton in Ha|by apply not_elem_of_nil in Ha..].
Qed.

Lemma spare_final_reachable o : let _ : Cfg := false in
  reachable final_rtti spare_final_world (roots_from spare_final_immix spare_final_world (ranges spare_final_immix spare_final_world)) o ↔
  o = 32928 ∨ o = 33024.
Proof.
  intros cfg. assert (Er : roots_from spare_final_immix spare_final_world (ranges spare_final_immix spare_final_world) = [33024; 32928])
    by (vm_compute; reflexivity). rewrite Er. split.
  - intros (r & Hr & Hrt). assert (Hk : kids final_rtti spare_final_world r = [] ∧ (r = 32928 ∨ r = 33024)).
    { rewrite !elem_of_cons, elem_of_nil in Hr. destruct Hr as [->|[->|[]]]; (split; [vm_compute; reflexivity|auto]). }
    destruct Hk as [Ek Hc]. apply rtc_inv in Hrt as [<-|(y & Hxy & _)]; [done|]. unfold edge in Hxy. rewrite Ek in Hxy. by apply not_elem_of_nil in Hxy.
  - intros [->| ->]; [exists 32928|exists 33024]; (split; [|done]); [right|]; left.
Qed.

Lemma spare_final_ready : let _ : Cfg := false in
  ready_to_move final_rtti move_objs spare_final_immix spare_final_world (ranges spare_final_immix spare_final_world).
Proof.
  intros cfg. constructor.
  - done.
  - apply spare_final_inv.
  - constructor.
    + intros a ->%list_elem_of_singleton. split; [vm_decide|]. right. left.
    + intros r ->%list_elem_of_singleton. cbn. lia.
    + intros r a ->%list_elem_of_singleton Ha. apply elem_of_scan in Ha as [Ha Hm]; [|reflexivity..].
      change (32 <= a < 48) in Ha. assert (Hc : a = 32 ∨ a = 40) by (Z.div_mod_to_equations; lia).
      destruct Hc as [->| ->]; (split; [vm_decide|]; split; [split; vm_compute; done|split; vm_compute; done]).
  - intros a ->%list_elem_of_singleton. reflexivity.
  - vm_decide.
  - intros o a Ho Ha. by destruct (spare_final_slots o a Ho Ha) as [-> ->].
  - intros o Ho. move_cases Ho; vm_decide.
  - intros a b ->%list_elem_of_singleton ->%list_elem_of_singleton. done.
  - intros o o' a b Ho Ho' Ha Hb. destruct (spare_final_slots o a Ho Ha) as [_ ->], (spare_final_slots o' b Ho' Hb) as [_ ->]. done.
  - intros _. vm_compute. done.
  - assert (Hstay : ¬ loose spare_final_immix spare_final_world (ranges spare_final_immix spare_final_world) 33024)
      by (intros [_ Hn]; apply Hn; vm_compute; left).
    intros o Ho. cbn in Ho. rewrite !elem_of_cons, elem_of_nil in Ho. destruct Ho as [->|[->|[]]].
    + right. rewrite spare_final_reachable. split; [lia|]. split; [done|]. exists 33024. rewrite spare_final_reachable.
      split; [right; right; left|]. split; [by right|]. by split.
    + left. rewrite spare_final_reachable. split; [by right|done].
Qed.

(** ** Properties *)

(** C2: A collection of the whole heap in the build without threads, whether or not it is an
    emergency and asked to move objects, keeps the heap up to a renaming of its objects:
    given enough fuel it returns, the renaming is of exactly the objects reachable from the
    callbacks' roots and the words of the scanned ranges, what the stack refers to stays
    where it is, every object has its type, size and data, references and precise roots lead
    to the new places, memory outside the heap is what it was, and the invariant of the heap
    holds for the objects at their new places; the objects to finalize that are left stay on
    their list, for the others the finalizer is called; the next collection is not due yet.
    The heap has to be in order ([heap_inv], which has no large objects: these a collection
    frees) and [ready_to_move]: an object that is not pinned and not on the stack is the
    object of at most one precise root, and if of none then at most one reference leads to
    it, as it is copied once for each reference that finds it at its old place; types do not
    depend on addresses or on what references lead to, and visit each slot once, a multiple
    of 8 bytes into the object; precise roots are given once, lie outside the heap and refer
    to objects; the ranges it scans are below 2^63 and hold no object, and no word in them
    is the end address of the heap or 8 bytes behind it; an object to finalize is reachable
    and on the stack or pinned, or it is not reachable, of a type to be finalized, and lies
    in a block that such an object keeps (otherwise it would be finalized alive, or its
    header be gone when it is read); and with verbose statistics the count of allocated
    bytes is no less than the sizes of the objects. *)
Theorem moving_collection_keeps_heap `{Cfg} rtti_of freed_size objs self w pm evacuation emergency started stack_pointer threads :
  threaded = false → (∀ p, 0 <= freed_size p) → (∀ v, relocatable (rtti_of v)) →
  ready_to_move rtti_of objs self w (ranges self w) → 0 < im_threshold self →
  ∃ n, ∀ fuel, (n <= fuel)%nat → ∃ g self' w' fins,
    collect_internal rtti_of freed_size fuel started stack_pointer threads self w pm evacuation emergency = Ok (self', w', pm, threads, fins) ∧
    moved rtti_of objs self w (ranges self w) g self' w' ∧ fins = finalized rtti_of self w (places objs g) ∧
    0 <= im_allocated self' < im_threshold self'.
Proof.
  intros Hst Hfs Hrel Hr Ht. exists (S (Z.to_nat (rounds_bound rtti_of objs self w (ranges self w)))). intros fuel Hf.
  destruct (moves_ok rtti_of freed_size Hst Hfs objs self w pm evacuation emergency fuel started stack_pointer threads Hrel Hr ltac:(lia))
    as (g & self' & w' & E & Hm). exists g, self', w'. eexists. split; [exact E|]. split; [exact Hm|]. split; [done|].
  eapply moved_bounds; [exact Hm|apply Hr|exact Ht].
Qed.

Lemma moving_collection_keeps_heap_witness : let _ : Cfg := false in
  ∃ n, ∀ fuel, (n <= fuel)%nat → ∃ (g : gmap Z Z) self' w' fins,
    collect_internal final_rtti (λ _, 0) fuel true 48 [] spare_final_immix spare_final_world ∅ false true = Ok (self', w', ∅, [], fins) ∧
    g !! 33024 = Some 33024 ∧ g !! 32928 = Some (word (w_store w') 16) ∧ 33024 ∈ im_to_finalize self' ∧ (33024 ∉ fins) ∧
    heap_inv final_rtti (places move_objs g) self' w' ∧ im_allocated self' < im_threshold self'.
Proof.
  intros cfg.
  destruct (moving_collection_keeps_heap final_rtti (λ _, 0) move_objs spare_final_immix spare_final_world ∅ false true true 48 []) as [n Hn];
    [reflexivity|intros; lia|exact pair_relocatable|apply spare_final_ready|reflexivity|].
  exists n. intros fuel Hf. destruct (Hn fuel Hf) as (g & self' & w' & fins & E & Hm & Hfin & Hb). exists g, self', w', fins. split; [exact E|]. clear E.
  assert (Hg : g !! 33024 = Some 33024).
  { destruct (proj2 (md_reached _ _ _ _ _ _ _ _ Hm 33024)) as [p Hg].
    { split; [right; right; left|]. apply spare_final_reachable. by right. }
    destruct (md_place _ _ _ _ _ _ _ _ Hm 33024 p Hg) as [->|[_ Hl]]; [exact Hg|]. destruct Hl. vm_compute. left. }
  assert (Hin : 33024 ∈ places move_objs g) by (apply list_elem_of_omap; exists 33024; split; [right; right; left|exact Hg]).
  split; [exact Hg|]. split; [apply (md_roots _ _ _ _ _ _ _ _ Hm 16); vm_compute; left|].
  split; [rewrite (md_finalize _ _ _ _ _ _ _ _ Hm); apply list_elem_of_filter; split; [exact Hin|right; left]|].
  split; [rewrite Hfin; by intros [[Hn' _] _]%list_elem_of_filter|]. split; [apply Hm|apply Hb].
Defined.

(** A moved object with a finalizer is finalized although it is reachable, as here the
    second object of the sample: the list of objects to finalize has its old address,
    where the header still has the mark of the last collection, so that the walk over
    the list takes it for dead, calls its finalizer and forgets it. *)
Theorem moved_object_finalized : let _ : Cfg := false in
  let fin_rtti v := mkRTTI (heap_size (pair_rtti v)) (visit_references (pair_rtti v)) true true in
  let self := mkImmix LOS.new spare_space 32 StatsNone 48 48 1024 false (im_callbacks spare_immix) move_collector [32928] in
  reachable fin_rtti spare_world (all_roots self spare_world) 32928 ∧
  ∃ self' w', collect_internal fin_rtti (λ _, 0) 8 true 48 [] self spare_world ∅ false true = Ok (self', w', ∅, [], [32928]) ∧
    word (w_store w') (word (w_store w') 16 + 8) ≠ 32928 ∧ im_to_finalize self' = [].
Proof.
  intros cfg fin_rtti self. split.
  - exists 32896. split; [vm_compute; right; left|]. apply rtc_once. vm_compute. left.
  - set (run := collect_internal fin_rtti (λ _, 0) 8 true 48 [] self spare_world ∅ false true).
    assert (E : ('(self', w', pm', threads', fins) ← run;
      Ok (bool_decide (pm' = ∅), threads', fins, word (w_store w') (word (w_store w') 16 + 8), im_to_finalize self')) =
      Ok (true, [], [32928], 65680, [])) by (vm_compute; reflexivity).
    destruct run as [[[[[self' w'] pm'] threads'] fins]| |]; [|discriminate..]. rewrite bind_Ok in E.
    injection E as E1 -> -> E2 E3. apply bool_decide_eq_true in E1 as ->. exists self', w'. split; [done|]. split; [|done]. by rewrite E2.
Qed.
