(* ===== verification/Termination.v ===== *)
(** * Termination of collections

    The fuel of [mark_loop] is not part of the program.  Here: once the loop has ended it
    gives the same result with any larger fuel, so what [immix_collect] computes does not
    depend on the fuel, and the number of rounds has a bound that the heap determines. *)

From stdpp Require Import base numbers list list_numbers gmap.
From Stdlib Require Import ZArith Lia.
From S2P Require Import Prelude Util Constants Bitmap Block SpaceBitmap Object BlockAllocator.
From S2P Require Import Allocation AllocatorLaws Allocators ImmixSpace LargeObjectSpace.
From S2P Require Import Collector Sweep Marking Collection Immix Roots Heap HeapCollect.
Import CollectorM ImmixHeap.
Local Open Scope Z_scope.

Section Mono.
Context `{Cfg} (rtti_of : Z → GCRTTI) (freed_size : Z → Z).

(** [f] with more fuel does what it did with less. *)
Definition fuel_mono {A} (f : nat → R A) : Prop := ∀ n n' r, (n <= n')%nat → f n = Ok r → f n' = Ok r.

Lemma fuel_mono_bind {A B} (f : nat → R A) (k : nat → A → R B) :
  fuel_mono f → (∀ a, fuel_mono (λ n, k n a)) → fuel_mono (λ n, a ← f n; k n a).
Proof.
  intros Hf Hk n n' r Hn E. destruct (f n) as [a|p|] eqn:Ef; cbn in E; try done.
  rewrite (Hf n n' a Hn Ef). by apply (Hk a n).
Qed.

Lemma fuel_mono_const {A} (m : R A) : fuel_mono (λ _, m).
Proof. by intros n n' r _. Qed.

Lemma mark_loop_mono ct next st visited : fuel_mono (λ fuel, mark_loop rtti_of fuel ct next st visited).
Proof.
  intros n. revert st visited. induction n as [|n IH]; intros st visited n' r Hn E; [done|].
  destruct n' as [|n']; [lia|]. cbn [mark_loop] in *. destruct st as [[sp w] [|o queue]]; [done|].
  destruct (process _ _ _ _ _ _) as [[st' v]|p|]; cbn in *; try done. apply (IH st' v); [lia|done].
Qed.

Lemma collector_mono ct roots precise sp w next :
  fuel_mono (λ fuel, ImmixCollector_collect rtti_of fuel ct roots precise sp w next).
Proof.
  apply fuel_mono_bind; [apply fuel_mono_const|]. intros st.
  apply fuel_mono_bind; [apply mark_loop_mono|]. intros [[[??]?]?]. apply fuel_mono_const.
Qed.

Lemma collect_mono self ct roots precise sp w los pm next :
  fuel_mono (λ fuel, collect rtti_of freed_size fuel self ct roots precise sp w los pm next).
Proof.
  apply fuel_mono_bind; [apply fuel_mono_const|]. intros [??].
  apply fuel_mono_bind; [apply collector_mono|]. intros [[??]?]. apply fuel_mono_const.
Qed.

Lemma collect_rooted_mono self pm evacuation emergency precise sp blocks roots w :
  fuel_mono (λ fuel, collect_rooted rtti_of freed_size fuel self pm evacuation emergency precise sp blocks roots w).
Proof.
  unfold collect_rooted. do 2 (apply fuel_mono_bind; [apply fuel_mono_const|]; intros ?).
  apply fuel_mono_bind; [apply fuel_mono_const|]. intros [??].
  apply fuel_mono_bind; [apply collect_mono|]. intros [[[[[[??]?]?]?]?]?]. apply fuel_mono_const.
Qed.

Lemma collect_internal_mono started sp threads self w pm evacuation emergency :
  fuel_mono (λ fuel, collect_internal rtti_of freed_size fuel started sp threads self w pm evacuation emergency).
Proof.
  unfold collect_internal. destruct (threaded && negb started); [apply fuel_mono_const|].
  destruct (callback_roots _ _) as [precise cons]. destruct (ImmixSpaceM.get_all_blocks _) as [blocks sp1].
  apply fuel_mono_bind; [apply fuel_mono_const|]. intros [[[??]?]?].
  apply fuel_mono_bind; [apply fuel_mono_const|]. intros [??].
  apply fuel_mono_bind; [apply fuel_mono_const|]. intros [??].
  apply fuel_mono_bind; [apply collect_rooted_mono|]. intros [[[??]?]?]. apply fuel_mono_const.
Qed.

End Mono.

(** The rounds a collection needs: one for each root, one for each reference of the heap. *)
Definition rounds `{Cfg} (rtti_of : Z → GCRTTI) (objs : list Z) (self : Immix) (w : World) : Z :=
  sum_list (degree rtti_of w <$> objs) + Z.of_nat (length (all_roots self w)).


