(* ===== verification/HeapAlloc.v ===== *)
(** * Allocation on the whole heap

    [Immix::allocate] of a small object that needs no collection, and the object's
    initialisation by the mutator, keep [heap_inv]; so does [immix_init] establish it. *)

From stdpp Require Import base numbers list list_numbers gmap relations.
From Stdlib Require Import ZArith Lia.
From S2P Require Import Prelude Util Constants Bitmap Block SpaceBitmap Object BlockAllocator.
From S2P Require Import Allocation AllocatorLaws Allocators ImmixSpace LargeObjectSpace.
From S2P Require Import Collector Sweep Marking Collection Immix Roots Heap HeapCollect.
Import CollectorM ImmixHeap.
Import ImmixSpaceM(space_ok(..), free_space, normal_v, overflow_v, evac_v, evac_headroom, available_range,
  so_world, so_normal, so_overflow, so_evac, so_bitmap, covers, held).
Local Open Scope Z_scope.

Section Space.
Context `{Cfg} (rtti_of : Z → GCRTTI).
Context (objs : list Z) (self : Immix) (w : World) (Hi : heap_inv rtti_of objs self w).
Context (size p : Z) (sp1 : ImmixSpace) (w1 : World).
Context (Hsz : 0 < size <= 32639 ∧ size mod 16 = 0).

Abbreviation sp := (im_immix self).

(** What the space has done, whether it found memory or not. *)
Record space_step : Prop := {
  ss_space : space_ok sp1 w1;
  ss_le : world_le w w1;
  ss_free : ∀ x, free_space sp1 w1 x → free_space sp w x;
  ss_evac : evac_allocator sp1 = evac_allocator sp;
  ss_fields : own_fields sp1;
  ss_blocks : ∀ b, held sp1 w1 b ∨ BA.available (w_ba w1) b ↔ held sp w b ∨ BA.available (w_ba w) b
}.

(** What it has done when it found the region at [p]. *)
Record taken_region : Prop := {
  tr_step : space_step;
  tr_region : ImmixSpaceM.region_taken sp w sp1 w1 p size;
  tr_shape : Space.same_shape (bitmap sp) (bitmap sp1);
  tr_marks : ∀ g, 0 <= g → Space.marked (bitmap sp1) g =
    if decide (g = Space.granule 16 (bitmap sp) p) then true else Space.marked (bitmap sp) g
}.

Lemma allocate_step : ImmixSpaceM.allocate sp w size = Ok (p, sp1, w1) →
  space_step ∧ (p = 0 → bitmap sp1 = bitmap sp ∧ ∀ b, ¬ BA.available (w_ba w1) b).
Proof.
  intros E. destruct Hsz as [Hs Hm]. pose proof (hi_space _ _ _ _ Hi) as Hok.
  destruct (ImmixSpaceM.allocate_blocks _ _ _ _ _ _ Hok Hs Hm E) as [He Hb].
  destruct (ImmixSpaceM.allocate_ok _ _ _ Hok Hs Hm) as (r & s & w2 & E' & H1 & H2 & H3 & H4).
  rewrite E in E'. injection E' as <- <- <-. split.
  - constructor; try done. intros Hth. eapply ImmixSpaceM.allocate_fields; [done|exact E|]. by apply (hi_fields _ _ _ _ Hi).
  - intros ->. destruct H4 as [(_ & ? & ?)|((? & _) & _)]; [done|lia].
Qed.

Lemma allocate_taken : ImmixSpaceM.allocate sp w size = Ok (p, sp1, w1) → p ≠ 0 → taken_region.
Proof.
  intros E Hp. destruct (allocate_step E) as [Hst _]. destruct Hsz as [Hs Hm].
  destruct (ImmixSpaceM.allocate_ok _ _ _ (hi_space _ _ _ _ Hi) Hs Hm) as (r & s & w2 & E' & _ & _ & _ & H4).
  rewrite E in E'. injection E' as <- <- <-. destruct H4 as [[-> _]|(H4 & H5 & H6)]; [done|]. by constructor.
Qed.

Section Step.
Context (Hst : space_step).

Lemma le_in_range b : BA.in_range (w_ba w1) b ↔ BA.in_range (w_ba w) b.
Proof. destruct (le_mmap _ _ (ss_le Hst)) as [E1 E2]. unfold BA.in_range. by rewrite E1, E2. Qed.

(** Blocks of objects stay in the heap. *)
Lemma heap_blocks_kept b : b ∈ heap_blocks self w → b ∈ all_blocks (im_collector self) ∨ b ∈ taken sp1 ++ own w1.
Proof.
  clear Hsz. intros Hbl. destruct (blocks_range rtti_of objs self w Hi b Hbl) as [_ Hna]. revert Hbl.
  unfold heap_blocks. rewrite elem_of_app. intros [?|Hb]; [by left|right].
  pose proof (collecting_now rtti_of objs self w Hi (mkCollector (heap_blocks self w) ∅) ltac:(done)) as Hco.
  pose proof (co_evac _ _ _ Hco b ltac:(apply elem_of_app; by right)) as Hne.
  assert (Hh : held sp w b).
  { pose proof (taken_perm sp w (hi_fields _ _ _ _ Hi)) as Hperm. rewrite app_assoc in Hperm.
    assert (Hin : b ∈ (taken sp ++ own w) ++ v_pool (evac_v sp w)) by (apply elem_of_app; by left).
    by rewrite Hperm, !elem_of_app in Hin. }
  destruct (proj2 (ss_blocks Hst b) (or_introl Hh)) as [Hh1|Hav]; [|by apply (le_avail _ _ (ss_le Hst)) in Hav].
  pose proof (taken_perm sp1 w1 (ss_fields Hst)) as Hperm. rewrite app_assoc in Hperm.
  assert (Hin : b ∈ (taken sp1 ++ own w1) ++ v_pool (evac_v sp1 w1)) by (by rewrite Hperm, !elem_of_app).
  apply elem_of_app in Hin as [?|Hpool]; [done|]. exfalso. apply Hne.
  destruct (emptied_views sp w) as (_ & _ & ->). unfold v_blocks. apply elem_of_app. right. apply elem_of_app. left.
  cbn [v_pool evac_v]. unfold evac_v in Hpool. cbn in Hpool |- *. by rewrite (ss_evac Hst) in Hpool.
Qed.

Lemma kept_still : kept_ok (im_collector self) sp1 w1.
Proof.
  clear Hsz. destruct (hi_kept _ _ _ _ Hi) as [K1 K2 K3 K4 K5].
  assert (Hnot : ∀ b, b ∈ all_blocks (im_collector self) → ¬ held sp1 w1 b).
  { intros b Hb Hh. destruct (proj1 (ss_blocks Hst b) (or_introl Hh)) as [[?|[?|?]]|Hav];
      [by apply (K3 b)|by apply (K4 b)|by apply (K5 b)|by apply (K2 b Hb)]. }
  constructor; [done| |intros b Hb Hv; apply (Hnot b Hb); unfold held; tauto..].
  intros b Hb. destruct (K2 b Hb). split; [by apply le_in_range|]. intros Hav. by apply (le_avail _ _ (ss_le Hst)) in Hav.
Qed.

End Step.

Context (Ht : taken_region).

(** No byte of the region belongs to an object. *)
Lemma region_fresh o x : o ∈ objs → o <= x < o + osize rtti_of w o → ¬ (p <= x < p + size).
Proof.
  intros Ho Hx Hpx. destruct (tr_region Ht) as (_ & _ & Hr). destruct (Hr x Hpx) as (_ & Hf & _).
  by apply (hi_not_free _ _ _ _ Hi o x).
Qed.

Lemma region_new : p ∉ objs.
Proof.
  intros Ho. pose proof (osize_ge _ _ _ _ (hi_object _ _ _ _ Hi p Ho)). destruct Hsz.
  apply (region_fresh p p Ho); lia.
Qed.

(** A free byte lies in a block that is held or available, behind its header. *)
Lemma free_block x : free_space sp w x → ∃ b, (held sp w b ∨ BA.available (w_ba w) b) ∧ BA.in_range (w_ba w) b ∧
  b + 128 <= x < b + 32767 ∧ ∀ l, (x - b) / 128 - 1 <= l <= (x - b) / 128 → marked_line w b l = false.
Proof.
  pose proof (hi_space _ _ _ _ Hi) as Hok. unfold held. intros [Hf|[Hf|[Hf|(b & Hb & Hs)]]].
  - destruct (ImmixSpaceM.free_in_view_block _ _ _ _ (so_normal _ _ Hok) Hf) as (b & ? & ? & _ & Hs & ?). exists b. tauto.
  - destruct (ImmixSpaceM.free_in_view_block _ _ _ _ (so_overflow _ _ Hok) Hf) as (b & ? & ? & _ & Hs & ?). exists b. tauto.
  - destruct (ImmixSpaceM.free_in_view_block _ _ _ _ (so_evac _ _ Hok) Hf) as (b & ? & ? & _ & Hs & ?). exists b. tauto.
  - destruct Hs. exists b. split_and!; try tauto; try lia. by apply available_range; [apply (so_world _ _ Hok)|].
Qed.

(** All of the region lies in one block, which is not available any more and not part
    of the headroom. *)
Lemma region_block : let b := Block.get_block_ptr p in
  b + 128 <= p ∧ p + size < b + BLOCK_SIZE ∧ b ∈ taken sp1 ++ own w1.
Proof.
  destruct (tr_region Ht) as (Hp0 & Hp16 & Hr). destruct Hsz as [Hs Hm].
  destruct (Hr p ltac:(lia)) as (_ & Hf & Hnf). destruct (free_block p Hf) as (b & Hb & Hbr & Hx & Hl).
  destruct (block_ptr_facts p) as (Ha & Hob & _). pose proof Hbr as (Hba & _ & _).
  assert (Eb : Block.get_block_ptr p = b) by (consts; Z.div_mod_to_equations; lia). cbn zeta. rewrite Eb.
  split; [lia|]. split.
  - destruct (Hr (p + size - 1) ltac:(lia)) as (_ & Hf2 & _). destruct (free_block _ Hf2) as (c & _ & (Hca & _) & Hy & _).
    destruct (decide (c = b)) as [->|Hne]; [consts; lia|].
    (* the last byte in another block: then a byte of that block's header is free *)
    assert (Hc : p < c) by (consts; Z.div_mod_to_equations; lia).
    destruct (Hr c ltac:(lia)) as (_ & Hf3 & _). destruct (free_block _ Hf3) as (d & _ & (Hda & _) & Hz & _).
    consts. exfalso. Z.div_mod_to_equations. lia.
  - assert (Hspan : in_span w1 b 128 p) by (split; [lia|]; intros l Hll; rewrite (le_lines _ _ (ss_le (tr_step Ht))); auto).
    pose proof (taken_perm sp1 w1 (ss_fields (tr_step Ht))) as Hperm. rewrite app_assoc in Hperm.
    destruct (proj2 (ss_blocks (tr_step Ht) b) Hb) as [Hh|Hav].
    + assert (Hin : b ∈ (taken sp1 ++ own w1) ++ v_pool (evac_v sp1 w1)) by (rewrite Hperm, !elem_of_app; exact Hh).
      apply elem_of_app in Hin as [?|Hpool]; [done|]. exfalso. apply Hnf. right. right. left. right. by exists b.
    + exfalso. apply Hnf. right. right. right. by exists b.
Qed.

Lemma starts_with_new a : object_start sp1 w1 a ↔ a = p ∨ a ∈ objs.
Proof.
  destruct (le_mmap _ _ (ss_le (tr_step Ht))) as [E1 E2]. destruct (tr_region Ht) as (Hp0 & Hp16 & Hr). destruct Hsz as [Hs Hm].
  destruct (Hr p ltac:(lia)) as (Hrange & _). rewrite <- (hi_starts _ _ _ _ Hi). unfold object_start. rewrite E1, E2.
  pose proof (so_bitmap _ _ (hi_space _ _ _ _ Hi)) as (_ & Hbeg & _). pose proof (hi_aligned _ _ _ _ Hi) as Hal.
  assert (Hg : ∀ x, Space.granule 16 (bitmap sp1) x = Space.granule 16 (bitmap sp) x)
    by (intros x; unfold Space.granule; by rewrite (Space.same_shape_begin _ _ (tr_shape Ht))).
  assert (Hinj : a mod 16 = 0 → Space.granule 16 (bitmap sp) a = Space.granule 16 (bitmap sp) p → a = p)
    by (unfold Space.granule; rewrite Hbeg; Z.div_mod_to_equations; lia).
  rewrite Hg. split.
  - intros (Ha & Hra & Hmk). rewrite (tr_marks Ht) in Hmk by (apply Z.div_pos; lia). case_decide as C; [left; auto|right; done].
  - intros [->|(Ha & Hra & Hmk)]; (split; [done|]; split; [done|]); rewrite (tr_marks Ht) by (apply Z.div_pos; lia);
      [by rewrite decide_True|by case_decide].
Qed.

End Space.

(** ** The heap with the new object *)

Section New.
Context `{Cfg} (rtti_of : Z → GCRTTI).
Context (objs : list Z) (self : Immix) (w : World) (Hi : heap_inv rtti_of objs self w).
Context (size p : Z) (sp1 : ImmixSpace) (w1 : World) (Hsz : 0 < size <= 32639 ∧ size mod 16 = 0).
Context (Ht : taken_region self w size p sp1 w1).
Context (ws : mem).

Abbreviation w' := (with_words w1 ws).

(** The words after initialisation: a header with the live mark at [p], anything in
    the rest of the region that makes an object of at most [size] bytes, and the old
    words everywhere else. *)
Record initialised : Prop := {
  in_header : header_wf (mem_read ws p) ∧ hd_forwarded (decode (mem_read ws p)) = false ∧
    hd_mark (decode (mem_read ws p)) = im_live_mark self;
  in_other : ∀ a, ¬ (p <= a < p + size) → mem_read ws a = word (w_store w) a;
  in_object : object_ok rtti_of (p :: objs) w' p;
  in_size : osize rtti_of w' p <= size
}.

Context (Hin : initialised).

Lemma old_word o a : o ∈ objs → o <= a < o + osize rtti_of w o → word (w_store w') a = word (w_store w) a.
Proof. intros Ho Ha. apply (in_other Hin). by eapply region_fresh. Qed.

Lemma old_agree o : o ∈ objs → agree rtti_of w w' o.
Proof.
  intros Ho. pose proof (osize_ge _ _ _ _ (hi_object _ _ _ _ Hi o Ho)). split.
  - unfold vtable_of. by rewrite (old_word o o) by (done || lia).
  - intros a Ha. apply (old_word o a Ho). lia.
Qed.

Lemma old_apart o : o ∈ objs → o + osize rtti_of w o <= p ∨ p + size <= o.
Proof.
  intros Ho. pose proof (osize_ge _ _ _ _ (hi_object _ _ _ _ Hi o Ho)).
  destruct (decide (o + osize rtti_of w o <= p)) as [?|C1]; [by left|]. destruct (decide (p + size <= o)) as [?|C2]; [by right|].
  exfalso. destruct (decide (o <= p)).
  - apply (region_fresh _ _ _ _ Hi _ _ _ _ Ht o p Ho); lia.
  - apply (region_fresh _ _ _ _ Hi _ _ _ _ Ht o o Ho); lia.
Qed.

(** The heap after [finish], with the count and the finalization list it sets. *)
Lemma new_object_inv allocated' fin : (∀ o, o ∈ fin → o = p ∨ o ∈ objs) →
  heap_inv rtti_of (p :: objs)
    (mkImmix (im_los self) sp1 (im_stack_bottom self) (im_gc_stats self) (im_stack_end self) allocated'
       (im_threshold self) (im_live_mark self) (im_callbacks self) (im_collector self) fin) w'.
Proof.
  intros Hfin. pose proof (ss_le _ _ _ _ (tr_step _ _ _ _ _ _ Ht)) as Hle. destruct (le_mmap _ _ Hle) as [E1 E2].
  assert (Hos : ∀ o, o ∈ objs → osize rtti_of w' o = osize rtti_of w o).
  { intros o Ho. eapply agree_facts; [by apply (hi_object _ _ _ _ Hi)|by apply old_agree]. }
  assert (Hblk : ∀ b, b ∈ all_blocks (im_collector self) ∨ b ∈ taken sp1 ++ own w1 →
    b ∈ all_blocks (im_collector self) ++ taken sp1 ++ own w') by (intros b; rewrite (elem_of_app (all_blocks _)); exact id).
  pose proof (region_new _ _ _ _ Hi _ _ _ _ Hsz Ht) as Hnew. pose proof (in_size Hin) as Hps.
  constructor; cbn [im_immix im_collector im_los im_live_mark im_to_finalize].
  - apply (ImmixSpaceM.space_ok_words sp1 w1); [done|apply Ht].
  - apply kept_ok_words, (kept_still rtti_of objs self w Hi). apply Ht.
  - exact (ss_fields _ _ _ _ (tr_step _ _ _ _ _ _ Ht)).
  - unfold evac_headroom. rewrite (ss_evac _ _ _ _ (tr_step _ _ _ _ _ _ Ht)). apply Hi.
  - cbn. rewrite E1. apply Hi.
  - constructor; [done|apply Hi].
  - intros o [->|Ho]%elem_of_cons; [apply (in_header Hin)|].
    pose proof (osize_ge _ _ _ _ (hi_object _ _ _ _ Hi o Ho)). rewrite (old_word o o) by (done || lia). by apply Hi.
  - intros o [->|Ho]%elem_of_cons; [apply (in_object Hin)|].
    eapply agree_ok; [by apply (hi_object _ _ _ _ Hi)|by apply old_agree|]. intros a Ha. right.
    by apply (ob_slots _ _ _ _ (hi_object _ _ _ _ Hi o Ho)).
  - unfold heap_blocks. cbn [im_immix im_collector]. intros o [->|Ho]%elem_of_cons.
    + destruct (region_block rtti_of objs self w Hi size p sp1 w1 Hsz Ht) as (B1 & B2 & B3).
      split_and!; [apply Hblk; by right|done|lia].
    + destruct (hi_placed _ _ _ _ Hi o Ho) as (B1 & B2 & B3). unfold placed_in. rewrite Hos by done.
      split_and!; [|done..]. apply Hblk. eapply (heap_blocks_kept rtti_of objs self w Hi); [apply Ht|done].
  - intros o1 o2 [->|H1]%elem_of_cons [->|H2]%elem_of_cons Hne; [done|..].
    + rewrite (Hos o2 H2). destruct (old_apart o2 H2); lia.
    + rewrite (Hos o1 H1). destruct (old_apart o1 H1); lia.
    + rewrite (Hos o1 H1), (Hos o2 H2). by apply Hi.
  - intros o x Ho Hx Hf. apply (ImmixSpaceM.free_space_words sp1 w1 (mkStore (headers (w_store w1)) ws)) in Hf; [|done].
    apply elem_of_cons in Ho as [->|Ho].
    + destruct (tr_region _ _ _ _ _ _ Ht) as (_ & _ & Hr). destruct (Hr x ltac:(lia)) as (_ & _ & Hn). done.
    + rewrite Hos in Hx by done. apply (hi_not_free _ _ _ _ Hi o x Ho Hx). by apply (ss_free _ _ _ _ (tr_step _ _ _ _ _ _ Ht)).
  - intros a. rewrite elem_of_cons. apply (starts_with_new rtti_of objs self w Hi size p sp1 w1 Hsz Ht).
  - apply Hi.
  - intros o Ho. apply elem_of_cons. by apply Hfin.
  - apply Hi.
Qed.

End New.

(** ** Allocate *)

Section Allocate.
Context `{Cfg} (rtti_of : Z → GCRTTI) (freed_size : Z → Z).

(** [finish] writes a header with the live mark. *)
Lemma finish_ok self w p size rtti : 0 <= im_allocated self → 0 <= size → im_allocated self + size < 2 ^ 64 → size < LARGE_OBJECT →
  in_width 64 rtti → rtti mod 8 = 0 → rtti ≠ 0 →
  ∃ h, header_wf h ∧ decode h = mkHeader (im_live_mark self) false false rtti ∧
    finish rtti_of self w p size rtti =
      Ok (mkImmix (im_los self) (im_immix self) (im_stack_bottom self) (im_gc_stats self) (im_stack_end self)
            (im_allocated self + size) (im_threshold self) (im_live_mark self) (im_callbacks self) (im_collector self)
            (if needs_finalization (rtti_of rtti) then im_to_finalize self ++ [p] else im_to_finalize self),
          set_store w (set_word (w_store w) p h)).
Proof.
  intros Ha0 Hs0 Ha Hl Hw Hm Hz. destruct (HeaderFacts.new_decode rtti Hw Hm Hz) as [Hn Hd].
  destruct (HeaderFacts.mark_ok _ (im_live_mark self) Hn) as (h & E & Hwf & Hdh). rewrite Hd in E, Hdh. cbn in Hdh.
  exists h. split_and!; [done|done|]. unfold finish.
  assert ((if threaded then Ok (trunc 64 (im_allocated self + size)) else u_add 64 (im_allocated self) size) =
    Ok (im_allocated self + size)) as ->.
  { destruct threaded; [|by apply u_add_ok; lia]. f_equal. apply trunc_small. unfold in_width. lia. }
  rewrite bind_Ok. rewrite E, bind_Ok.
  rewrite HeaderFacts.vtable_ok, bind_Ok, Hdh by done. cbn [hd_pointer].
  by rewrite (bool_decide_eq_true_2 (size < LARGE_OBJECT)), andb_true_r by lia.
Qed.

Lemma heap_inv_stack objs self w sp : heap_inv rtti_of objs self w → heap_inv rtti_of objs (set_stack_end self sp) w.
Proof. by intros []. Qed.

(** The result of an allocation without a collection. *)
Record allocated_at (objs : list Z) (self : Immix) (w : World) (size rtti p : Z) (self' : Immix) (w' : World) : Prop := {
  al_pos : 0 < p ∧ p mod 16 = 0;
  al_apart : ∀ o, o ∈ objs → o + osize rtti_of w o <= p ∨ p + size <= o;
  al_fresh : ∀ x, p <= x < p + size → free_space (im_immix self) w x;
  al_lines : ∀ b l, marked_line w' b l = marked_line w b l;
  al_header : decode (word (w_store w') p) = mkHeader (im_live_mark self) false false rtti;
  al_words : ∀ a, a ≠ p → word (w_store w') a = word (w_store w) a;
  al_collector : im_collector self' = im_collector self;
  al_count : im_allocated self' = im_allocated self + size ∧ im_threshold self' = im_threshold self;
  al_finalize : im_to_finalize self' = im_to_finalize self ++ (if needs_finalization (rtti_of rtti) then [p] else []);
  al_inv : ∀ ws, (∀ a, ¬ (p < a < p + size) → mem_read ws a = word (w_store w') a) →
    object_ok rtti_of (p :: objs) (with_words w' ws) p → osize rtti_of (with_words w' ws) p <= size →
    heap_inv rtti_of (p :: objs) self' (with_words w' ws)
}.

Lemma allocate_below fuel env threads objs self w pm size rtti : heap_inv rtti_of objs self w →
  0 <= im_allocated self < im_threshold self → im_allocated self <= 2 ^ 63 → 0 < size <= LARGE_OBJECT - 16 →
  in_width 64 rtti → rtti mod 8 = 0 → rtti ≠ 0 →
  (∃ p self' w', allocate rtti_of freed_size fuel env threads self w pm size rtti = Ok (p, self', w', pm, threads, []) ∧
     allocated_at objs self w (round16 size) rtti p self' w') ∨
  (∃ sp' w', ImmixSpaceM.allocate (im_immix self) w (round16 size) = Ok (0, sp', w') ∧ ∀ b, ¬ BA.available (w_ba w') b).
Proof.
  intros Hi Ha Ht Hs Hw Hm Hz. unfold LARGE_OBJECT in Hs. pose proof (Rounding.ceil_div_bounds size 16 ltac:(lia)) as Hc.
  assert (Hsz : 0 < round16 size <= 8176 ∧ round16 size mod 16 = 0)
    by (unfold round16, Rounding.ceil_div in *; Z.div_mod_to_equations; lia).
  destruct (ImmixSpaceM.allocate_ok (im_immix self) w (round16 size) (hi_space _ _ _ _ Hi)) as (p & sp1 & w1 & E & Hrest); [lia..|].
  destruct (decide (p = 0)) as [->|Hp].
  { right. exists sp1, w1. split; [done|]. destruct Hrest as (_ & _ & _ & [(_ & ? & _)|((? & _) & _)]); [done|lia]. }
  left. clear Hrest. assert (Hsz' : 0 < round16 size <= 32639 ∧ round16 size mod 16 = 0) by lia.
  pose proof (heap_inv_stack objs self w (e_sp env) Hi) as Hi'. set (self0 := set_stack_end self (e_sp env)) in *.
  pose proof (allocate_taken rtti_of objs self0 w Hi' (round16 size) p sp1 w1 Hsz' E Hp) as Htk.
  destruct (finish_ok (set_immix self0 sp1) w1 p (round16 size) rtti) as (h & Hwf & Hd & Ef);
    [cbn; lia|lia|cbn; lia|unfold LARGE_OBJECT; lia|done..|].
  destruct (tr_region _ _ _ _ _ _ Htk) as (Hp0 & Hp16 & Hr).
  assert (Hww : ∀ a, word (set_word (w_store w1) p h) a = if decide (a = p) then h else word (w_store w) a).
  { intros a. rewrite word_set. case_decide; [done|]. unfold word. by rewrite (le_words _ _ (ss_le _ _ _ _ (tr_step _ _ _ _ _ _ Htk))). }
  do 3 eexists. split.
  - unfold allocate. fold self0. rewrite decide_False by (cbn; lia). rewrite bind_Ok.
    rewrite Rounding.align_usize_ok, bind_Ok by lia. fold (round16 size). unfold obtain.
    rewrite decide_False by (unfold LARGE_OBJECT; lia). change (im_immix self0) with (im_immix self). rewrite E, bind_Ok.
    unfold Address.is_null. rewrite (bool_decide_eq_false_2 (p = 0)) by done. rewrite bind_Ok, decide_False by tauto.
    rewrite Ef, bind_Ok. cbn [app]. reflexivity.
  - constructor; cbn [im_allocated im_threshold im_to_finalize set_immix self0 set_stack_end w_store set_store].
    + done.
    + intros o Ho. by apply (old_apart rtti_of objs self0 w Hi' (round16 size) p sp1 w1 Hsz' Htk).
    + intros x Hx. apply Hr. exact Hx.
    + exact (le_lines _ _ (ss_le _ _ _ _ (tr_step _ _ _ _ _ _ Htk))).
    + by rewrite Hww, decide_True.
    + intros a Hne. by rewrite Hww, decide_False.
    + done.
    + done.
    + destruct (needs_finalization _); [done|by rewrite app_nil_r].
    + intros ws Hws Hob Hos. eapply (new_object_inv rtti_of objs self0 w Hi' (round16 size) p sp1 w1 Hsz' Htk ws).
      * constructor; [|..|exact Hob|exact Hos].
        -- rewrite Hws, Hww, decide_True by (done || lia). by rewrite Hd.
        -- intros a Hna. rewrite Hws, Hww, decide_False by lia. done.
      * intros o. destruct (needs_finalization _); cbn; rewrite ?elem_of_app; intros Hfi.
        -- destruct Hfi as [?|?%list_elem_of_singleton]; [right; by apply (hi_finalize _ _ _ _ Hi)|by left].
        -- right. by apply (hi_finalize _ _ _ _ Hi).
Qed.

Lemma allocate_small fuel env threads objs self w pm size rtti : heap_inv rtti_of objs self w →
  0 <= im_allocated self < im_threshold self → im_threshold self <= 2 ^ 63 → 0 < size <= LARGE_OBJECT - 16 →
  in_width 64 rtti → rtti mod 8 = 0 → rtti ≠ 0 →
  (∃ p self' w', allocate rtti_of freed_size fuel env threads self w pm size rtti = Ok (p, self', w', pm, threads, []) ∧
     allocated_at objs self w (round16 size) rtti p self' w') ∨
  (∃ sp' w', ImmixSpaceM.allocate (im_immix self) w (round16 size) = Ok (0, sp', w') ∧ ∀ b, ¬ BA.available (w_ba w') b).
Proof. intros Hi Ha Ht. apply allocate_below; [done|done|lia]. Qed.

End Allocate.

(** ** Start *)

Lemma new_heap_inv `{Cfg} rtti_of map pagesize size threshold :
  0 <= map → map mod 16 = 0 → 0 <= size → 0 < pagesize → pagesize mod 2048 = 0 → map + size + 2 * BLOCK_SIZE + pagesize < 2 ^ 63 →
  ∃ self w, new map pagesize size threshold = Ok (self, w) ∧ heap_inv rtti_of [] self w ∧
    im_allocated self = 0 ∧ im_threshold self = threshold ∧ im_callbacks self = [] ∧ w_tls w = no_blocks.
Proof.
  intros Hm Hal Hs Hp Hpm Hb. consts. pose proof (Rounding.ceil_div_bounds (size + 32768) pagesize Hp) as Hc.
  unfold new. consts. rewrite u_add_ok, bind_Ok, Rounding.align_usize_ok, bind_Ok by lia.
  set (total := Rounding.ceil_div (size + 32768) pagesize * pagesize) in *.
  assert (Ht : total mod 2048 = 0).
  { unfold total. rewrite Z.mul_mod, Hpm, Z.mul_0_r by lia. done. }
  destruct (ImmixSpaceM.new_ok map total) as (sp & w & -> & Hok & _ & Etls & Est & _ & Esp & Hmk); [lia|consts; lia|lia|done|].
  rewrite bind_Ok. do 2 eexists. split; [done|]. split; [|done].
  constructor; cbn [im_immix im_collector im_live_mark im_to_finalize im_los]; try (intros o Ho; by apply not_elem_of_nil in Ho); try done.
  - constructor; try (intros b Hb0; by apply not_elem_of_nil in Hb0). constructor.
  - intros _. by rewrite Esp.
  - unfold evac_headroom. by rewrite Esp.
  - by rewrite Est.
  - constructor.
  - intros o1 o2 Ho. by apply not_elem_of_nil in Ho.
  - intros o x Ho. by apply not_elem_of_nil in Ho.
  - intros a. split; [intros (_ & _ & Hx); by rewrite Hmk in Hx|intros Hx; by apply not_elem_of_nil in Hx].
Qed.

(** ** Properties *)

(** C13: [allocate] of a small object below the collection threshold hands out memory
    that overlaps no object, with a header that carries the type and the live mark,
    changes no other word, counts the bytes and registers the object if its type
    needs finalization; once the mutator has initialised the object, the heap with
    the object added satisfies the heap invariant.  The only alternative is that
    the space had no memory left, with no block available. *)
Theorem allocate_keeps_heap `{Cfg} rtti_of freed_size fuel env threads objs self w pm size rtti :
  heap_inv rtti_of objs self w →
  0 <= im_allocated self < im_threshold self → im_threshold self <= 2 ^ 63 → 0 < size <= LARGE_OBJECT - 16 →
  in_width 64 rtti → rtti mod 8 = 0 → rtti ≠ 0 →
  (∃ p self' w', allocate rtti_of freed_size fuel env threads self w pm size rtti = Ok (p, self', w', pm, threads, []) ∧
     allocated_at rtti_of objs self w (round16 size) rtti p self' w') ∨
  (∃ sp' w', ImmixSpaceM.allocate (im_immix self) w (round16 size) = Ok (0, sp', w') ∧ ∀ b, ¬ BA.available (w_ba w') b).
Proof. by apply allocate_small. Qed.

Lemma allocate_keeps_heap_witness : let _ : Cfg := true in
  ∃ self w p self' w', new 28672 4096 65536 1024 = Ok (self, w) ∧
    allocate pair_rtti (λ _, 0) 0 (mkEnv 0 true true 0) [] self w ∅ 24 8 = Ok (p, self', w', ∅, [], []) ∧
    p mod 16 = 0 ∧ im_allocated self' = 32.
Proof.
  intros cfg. destruct (new_heap_inv pair_rtti 28672 4096 65536 1024) as (self & w & E & Hi & Ea & Et & _);
    [lia|reflexivity|lia|lia|reflexivity|reflexivity|].
  exists self, w. 
  destruct (allocate_keeps_heap pair_rtti (λ _, 0) 0 (mkEnv 0 true true 0) [] [] self w ∅ 24 8)
    as [(p & self' & w' & Eal & Hal)|(sp' & w' & Eal & _)];
    [exact Hi|rewrite Ea, Et; lia|rewrite Et; lia|unfold LARGE_OBJECT; lia|split; [lia|reflexivity]|reflexivity|discriminate|..].
  - exists p, self', w'. split; [exact E|]. split; [exact Eal|]. clear E Eal.
    split; [apply (al_pos _ _ _ _ _ _ _ _ _ Hal)|]. rewrite (proj1 (al_count _ _ _ _ _ _ _ _ _ Hal)), Ea. reflexivity.
  - exfalso. change (round16 24) with 32 in Eal.
    assert (C : ('(s, w0) ← new 28672 4096 65536 1024; '(p, _, _) ← ImmixSpaceM.allocate (im_immix s) w0 32; Ok p) = Ok 0)
      by (rewrite E, bind_Ok, Eal, bind_Ok; reflexivity).
    clear E Eal. vm_compute in C. discriminate C.
Defined.
