(* ===== verification/HeapEmergency.v ===== *)
(** * Allocations that collect

    [Immix::allocate] collects in two places: first when the count of allocated bytes has
    reached the threshold, and again when the space has no memory left.  Both are
    emergencies, for which every block becomes a candidate for evacuation; without
    headroom, as from the start until a collection has found an empty block, nothing is
    moved all the same ([allocate_collects]), and with it objects move
    ([allocate_moves]).  The theorems are about the
    build without threads; [ThreadCollect] uses the lemmas for the other one. *)

From stdpp Require Import base numbers list list_numbers gmap relations.
From Stdlib Require Import ZArith Lia.
From S2P Require Import Prelude Util Constants Bitmap Block SpaceBitmap Object BlockAllocator.
From S2P Require Import Allocation AllocatorLaws Allocators ImmixSpace LargeObjectSpace.
From S2P Require Import Collector Sweep Marking Collection Immix Roots EvacCollect Heap HeapCollect EvacHeap HeapAlloc.
Import CollectorM ImmixHeap.
Import ImmixSpaceM(space_ok(..), free_space, normal_v, overflow_v, evac_v, evac_headroom,
  so_world, so_normal, so_overflow, so_evac, so_bitmap, covers, held).
Local Open Scope Z_scope.

(** ** Heaps with the same objects *)

(** The two heaps differ in which blocks belong to whom, at most. *)
Record unchanged (self : Immix) (w : World) (self' : Immix) (w' : World) : Prop := {
  un_words : words (w_store w') = words (w_store w);
  un_mmap : mmap (w_ba w') = mmap (w_ba w) ∧ data_bound (w_ba w') = data_bound (w_ba w);
  un_bitmap : bitmap (im_immix self') = bitmap (im_immix self);
  un_evac : evac_allocator (im_immix self') = evac_allocator (im_immix self);
  un_roots : im_callbacks self' = im_callbacks self ∧ im_los self' = im_los self ∧ im_to_finalize self' = im_to_finalize self;
  un_counts : im_gc_stats self' = im_gc_stats self ∧ im_live_mark self' = im_live_mark self ∧
    im_threshold self' = im_threshold self ∧ im_allocated self' = im_allocated self
}.

Section Unchanged.
Context `{Cfg} (rtti_of : Z → GCRTTI) (objs : list Z) (self : Immix) (w : World) (self' : Immix) (w' : World).
Context (Hi : heap_inv rtti_of objs self w) (Hun : unchanged self w self' w').

Lemma unchanged_word a : word (w_store w') a = word (w_store w) a.
Proof. unfold word. by rewrite (un_words _ _ _ _ Hun). Qed.

Lemma unchanged_agree o : agree rtti_of w w' o.
Proof. split; [unfold vtable_of; by rewrite unchanged_word|]. intros a _. apply unchanged_word. Qed.

Lemma unchanged_size o : o ∈ objs → osize rtti_of w' o = osize rtti_of w o ∧ degree rtti_of w' o = degree rtti_of w o.
Proof.
  intros Ho. destruct (agree_facts rtti_of objs w w' o (hi_object _ _ _ _ Hi o Ho) (unchanged_agree o)) as (? & _ & Ek).
  split; [done|]. unfold degree. by rewrite Ek.
Qed.

Lemma unchanged_start a : object_start (im_immix self') w' a ↔ object_start (im_immix self) w a.
Proof. destruct (un_mmap _ _ _ _ Hun) as [E1 E2]. unfold object_start. by rewrite (un_bitmap _ _ _ _ Hun), E1, E2. Qed.

(** Roots, and what is collected, are the same. *)
Lemma unchanged_precise : precise_roots self' w' = precise_roots self w.
Proof. destruct (un_roots _ _ _ _ Hun) as (Ec & _). unfold precise_roots. by rewrite Ec, (un_words _ _ _ _ Hun). Qed.

Lemma unchanged_roots_in rs : roots_in self' w' rs = roots_in self w rs.
Proof.
  destruct (un_roots _ _ _ _ Hun) as (_ & El & _). unfold roots_in, range_roots. rewrite El.
  apply list_bind_ext; [|done]. intros r. apply list_bind_ext; [|done]. intros a. rewrite unchanged_word. unfold found_in.
  assert (Ho : ∀ x, object_start (emptied (im_immix self')) w' x ↔ object_start (emptied (im_immix self)) w x) by (intros x; apply unchanged_start).
  by rewrite !(decide_ext _ _ _ _ (Ho _)).
Qed.

Lemma unchanged_roots rs : roots_from self' w' rs = roots_from self w rs.
Proof.
  unfold roots_from. rewrite unchanged_roots_in, unchanged_precise. f_equal. apply fmap_ext_in. intros a _. apply unchanged_word.
Qed.

Lemma unchanged_ranges : im_stack_bottom self' = im_stack_bottom self → im_stack_end self' = im_stack_end self → ranges self' w' = ranges self w.
Proof.
  destruct (un_roots _ _ _ _ Hun) as (Ec & _). intros E1 E2. unfold ranges. by rewrite Ec, (un_words _ _ _ _ Hun), E1, E2.
Qed.

Lemma unchanged_inside a : BA.is_in_space (w_ba w') a = BA.is_in_space (w_ba w) a.
Proof. destruct (un_mmap _ _ _ _ Hun) as [E1 E2]. unfold BA.is_in_space. by rewrite E1, E2. Qed.

Lemma unchanged_rooted rs : rooted objs self w rs → rooted objs self' w' rs.
Proof.
  intros [R1 R2 R3]. destruct (un_mmap _ _ _ _ Hun) as [_ E2]. constructor; [|exact R2|].
  - rewrite unchanged_precise. intros a Ha. rewrite unchanged_word. by apply R1.
  - intros r a Hr Ha. rewrite unchanged_word, E2. by apply (R3 r).
Qed.

Lemma unchanged_reachable roots o : (∀ r, r ∈ roots → r ∈ objs) → reachable rtti_of w' roots o ↔ reachable rtti_of w roots o.
Proof. intros Hr. apply (reach_same rtti_of objs w w'); [apply Hi|intros x _; apply unchanged_agree|done]. Qed.

Lemma unchanged_bound rs : rounds_bound rtti_of objs self' w' rs = rounds_bound rtti_of objs self w rs.
Proof.
  unfold rounds_bound. rewrite unchanged_roots. do 2 f_equal. apply fmap_ext_in. intros o Ho. by apply unchanged_size.
Qed.

Lemma unchanged_total : im_allocated self' = im_allocated self →
  (im_gc_stats self = Verbose → sum_list (osize rtti_of w <$> objs) <= im_allocated self) →
  im_gc_stats self' = Verbose → sum_list (osize rtti_of w' <$> objs) <= im_allocated self'.
Proof.
  intros -> Hgs. destruct (un_counts _ _ _ _ Hun) as (-> & _). intros Hv.
  rewrite (fmap_ext_in _ (osize rtti_of w)) by (intros o Ho; by apply unchanged_size). auto.
Qed.

Lemma unchanged_rtti o : rtti rtti_of w' o = rtti rtti_of w o.
Proof. unfold rtti, vtable_of. by rewrite unchanged_word. Qed.

Lemma unchanged_finalizable rs (stays stays' : Z → Prop) o : (∀ r, r ∈ roots_from self w rs → r ∈ objs) → (∀ x, stays' x ↔ stays x) →
  finalizable rtti_of objs self w rs stays o → finalizable rtti_of objs self' w' rs stays' o.
Proof.
  intros Hrin Hs. unfold finalizable. rewrite unchanged_roots, unchanged_rtti.
  setoid_rewrite unchanged_reachable; [|done..]. setoid_rewrite Hs. done.
Qed.

Lemma unchanged_finalized objs' : finalized rtti_of self' w' objs' = finalized rtti_of self w objs'.
Proof.
  destruct (un_roots _ _ _ _ Hun) as (_ & _ & Ef). unfold finalized. rewrite Ef. apply list_filter_iff. intros o. by rewrite unchanged_rtti.
Qed.

Lemma unchanged_ready rs : parked w' = w' → heap_inv rtti_of objs self' w' →
  ready_for rtti_of objs self w rs true → ready_for rtti_of objs self' w' rs true.
Proof.
  intros Hpk' Hi' [Hpk _ Hro Hcalm Hgs Hfi]. destruct (un_roots _ _ _ _ Hun) as (_ & _ & Ef). destruct (un_counts _ _ _ _ Hun) as (Eg & _ & _ & Ea).
  pose proof (roots_from_objs rtti_of ∅ objs self w rs Hpk Hi Hro) as Hrin. constructor; try done.
  - by apply unchanged_rooted.
  - by rewrite (un_evac _ _ _ _ Hun).
  - by apply unchanged_total.
  - intros o Ho. rewrite Ef in Ho. apply (unchanged_finalizable rs (λ _, True)); [done..|]. by apply Hfi.
Qed.

(** A heap that can be moved, likewise. *)
Lemma unchanged_loose rs o : loose self' w' rs o ↔ loose self w rs o.
Proof. unfold loose. by rewrite unchanged_word, unchanged_roots_in. Qed.

Lemma unchanged_slots o : o ∈ objs → slots rtti_of w' o = slots rtti_of w o.
Proof. intros Ho. by apply (agree_facts rtti_of objs w w' o (hi_object _ _ _ _ Hi o Ho) (unchanged_agree o)). Qed.

Lemma unchanged_ready_to_move rs : parked w' = w' → heap_inv rtti_of objs self' w' →
  ready_to_move rtti_of objs self w rs → ready_to_move rtti_of objs self' w' rs.
Proof.
  intros Hpk' Hi' [Hpk _ Hro R4 R5 R6 R7 R8 R9 Hgs Hfi]. destruct (un_roots _ _ _ _ Hun) as (_ & _ & Ef). destruct (un_counts _ _ _ _ Hun) as (Eg & _ & _ & Ea).
  pose proof (roots_from_objs rtti_of ∅ objs self w rs Hpk Hi Hro) as Hrin.
  constructor; rewrite ?unchanged_precise, ?Ef; try done.
  - by apply unchanged_rooted.
  - intros a Ha. rewrite unchanged_inside. auto.
  - intros o a Ho. rewrite unchanged_slots by done. auto.
  - intros o Ho. rewrite unchanged_slots by done. auto.
  - intros a b. rewrite !unchanged_word, unchanged_loose. auto.
  - intros o o' a b Ho Ho'. rewrite !unchanged_slots, !unchanged_word, unchanged_loose by done.
    rewrite (fmap_ext_in _ (word (w_store w))) by (intros; apply unchanged_word). by apply R9.
  - by apply unchanged_total.
  - intros o Ho. apply (unchanged_finalizable rs (λ x, ¬ loose self w rs x)); [done| |by apply Hfi]. intros x. by rewrite unchanged_loose.
Qed.

Lemma unchanged_moved rs g self2 w2 : rooted objs self w rs → parked w = w →
  moved rtti_of objs self' w' rs g self2 w2 → moved rtti_of objs self w rs g self2 w2.
Proof.
  intros Hro Hpk [M1 M2 M3 M4 M5 M6 M7 M8 M9 M10 M11 M12]. pose proof (roots_from_objs rtti_of ∅ objs self w rs Hpk Hi Hro) as Hrin.
  destruct (un_counts _ _ _ _ Hun) as (_ & Em & Et & _).
  rewrite unchanged_roots in M1. rewrite unchanged_precise in M7, M8. rewrite Em in M9. rewrite Et in M11. destruct (un_roots _ _ _ _ Hun) as (_ & _ & Ef). rewrite Ef in M12.
  assert (Hin : ∀ o p, g !! o = Some p → o ∈ objs) by (intros o p Hg; apply M1; by rewrite Hg).
  constructor; try done.
  - intros o. by rewrite M1, unchanged_reachable.
  - intros o p Hg. rewrite <- unchanged_loose. auto.
  - intros o p Hg. destruct (M4 o p Hg) as [-> ->]. split; [apply unchanged_agree|]. by apply unchanged_size, (Hin o p).
  - intros o p i Hg. rewrite <- (proj1 (unchanged_size o (Hin o p Hg))), <- (unchanged_slots o (Hin o p Hg)), <- unchanged_word. auto.
  - intros o p a Hg. rewrite <- (unchanged_slots o (Hin o p Hg)), <- unchanged_word. auto.
  - intros a Ha. rewrite <- unchanged_word. auto.
  - intros a. rewrite <- unchanged_inside, <- unchanged_word. auto.
  - rewrite M10. f_equal. apply fmap_ext_in. intros o [_ Ho]%list_elem_of_filter. by apply unchanged_size.
Qed.

Lemma unchanged_collected rs objs' self2 w2 : rooted objs self w rs → parked w = w →
  collected rtti_of objs self' w' rs objs' self2 w2 → collected rtti_of objs self w rs objs' self2 w2.
Proof.
  intros Hro Hpk [C1 C2 C3 C4 C5 C6 C7 C8]. pose proof (roots_from_objs rtti_of ∅ objs self w rs Hpk Hi Hro) as Hrin.
  rewrite unchanged_roots in C1. destruct (un_counts _ _ _ _ Hun) as (_ & Em & Et & _).
  assert (Hsub : ∀ o, o ∈ objs' → o ∈ objs) by (intros o; rewrite C1; tauto).
  assert (Hos : ∀ o, o ∈ objs' → osize rtti_of w' o = osize rtti_of w o) by (intros o Ho; apply unchanged_size; auto).
  constructor.
  - intros o. by rewrite C1, unchanged_reachable.
  - done.
  - intros o Ho. destruct (C3 o Ho) as [V A]. rewrite Hos in A by done. split; [by rewrite V; apply unchanged_agree|].
    intros a Ha. rewrite A by done. apply unchanged_word.
  - by rewrite C4, Em.
  - rewrite C5. f_equal. by apply fmap_ext_in.
  - by rewrite C6, Et.
  - intros a Ha. rewrite <- unchanged_word. apply C7. by rewrite unchanged_inside.
  - rewrite C8. by destruct (un_roots _ _ _ _ Hun) as (_ & _ & ->).
Qed.

End Unchanged.

(** ** A space without memory *)

Section Full.
Context `{Cfg} (rtti_of : Z → GCRTTI).
Context (objs : list Z) (self : Immix) (w : World) (Hi : heap_inv rtti_of objs self w).
Context (size : Z) (sp1 : ImmixSpace) (w1 : World).
Context (Hsz : 0 < size <= 32639 ∧ size mod 16 = 0).
Context (Ef : ImmixSpaceM.allocate (im_immix self) w size = Ok (0, sp1, w1)).

Abbreviation full := (set_immix self sp1).

Lemma full_step : space_step self w sp1 w1 ∧ bitmap sp1 = bitmap (im_immix self) ∧ ∀ b, ¬ BA.available (w_ba w1) b.
Proof. destruct (allocate_step rtti_of objs self w Hi size 0 sp1 w1 Hsz Ef) as [Hs Hb]. split; [done|]. by apply Hb. Qed.

Lemma full_unchanged : unchanged self w full w1.
Proof.
  destruct full_step as (Hs & Eb & _). constructor; try done; [apply (ss_le _ _ _ _ Hs)|apply (le_mmap _ _ (ss_le _ _ _ _ Hs))|].
  apply (ss_evac _ _ _ _ Hs).
Qed.

(** The heap is in order also when there was no memory. *)
Lemma full_inv : heap_inv rtti_of objs full w1.
Proof.
  destruct full_step as (Hs & Eb & _). destruct (le_mmap _ _ (ss_le _ _ _ _ Hs)) as [E1 E2].
  pose proof full_unchanged as Hun.
  assert (Hos : ∀ o, o ∈ objs → osize rtti_of w1 o = osize rtti_of w o) by (intros o Ho; by apply (unchanged_size rtti_of objs self w full w1 Hi Hun)).
  constructor; cbn [im_immix im_collector im_los im_live_mark im_to_finalize set_immix].
  - apply Hs.
  - by apply (kept_still rtti_of objs self w Hi).
  - apply Hs.
  - unfold evac_headroom. rewrite (ss_evac _ _ _ _ Hs). apply Hi.
  - rewrite E1. apply Hi.
  - apply Hi.
  - intros o Ho. rewrite (unchanged_word _ _ _ _ Hun). by apply Hi.
  - intros o Ho. eapply agree_ok; [by apply (hi_object _ _ _ _ Hi)|apply (unchanged_agree _ _ _ _ _ Hun)|].
    apply (ob_slots _ _ _ _ (hi_object _ _ _ _ Hi o Ho)).
  - intros o Ho. destruct (hi_placed _ _ _ _ Hi o Ho) as (B1 & B2 & B3). unfold placed_in. rewrite Hos by done.
    split_and!; [|done..]. apply (heap_blocks_kept rtti_of objs self w Hi sp1 w1 Hs) in B1.
    unfold heap_blocks. cbn [im_collector im_immix set_immix]. by rewrite elem_of_app.
  - intros o1 o2 H1 H2. rewrite !Hos by done. by apply Hi.
  - intros o x Ho. rewrite Hos by done. intros Hx Hf. by apply (hi_not_free _ _ _ _ Hi o x Ho Hx), Hs.
  - intros a. change sp1 with (im_immix full). rewrite (unchanged_start _ _ _ _ Hun). apply Hi.
  - apply Hi.
  - apply Hi.
  - apply Hi.
Qed.

End Full.

(** ** Allocate *)

(** A collection leaves the recorded end of the stack alone. *)
Lemma collect_stack_end `{Cfg} rtti_of freed_size fuel started sp threads self w pm ev em r :
  collect_internal rtti_of freed_size fuel started sp threads self w pm ev em = Ok r →
  im_stack_end r.1.1.1.1 = im_stack_end self.
Proof.
  unfold collect_internal. destruct (threaded && negb started); [by intros [= <-]|].
  destruct (callback_roots _ _) as [pr co], (ImmixSpaceM.get_all_blocks _) as [bs sp1].
  intros ([[[roots1 w1] all] ths] & _ & E)%bind_Ok_inv. apply bind_Ok_inv in E as ([roots2 w2] & _ & E). apply bind_Ok_inv in E as ([roots w3] & _ & E).
  apply bind_Ok_inv in E as ([[[self' w'] pm'] fins] & E & [= <-]). revert E. unfold collect_rooted.
  intros (av & _ & E)%bind_Ok_inv. apply bind_Ok_inv in E as (tot & _ & E). apply bind_Ok_inv in E as ([ct s4] & _ & E).
  apply bind_Ok_inv in E as ([[[[[[? ?] ?] ?] ?] ?] ?] & _ & E). apply bind_Ok_inv in E as (w6 & _ & E).
  apply bind_Ok_inv in E as ([? ?] & _ & E). apply bind_Ok_inv in E as (? & _ & [= <- <- <- <-]). done.
Qed.

(** In an emergency it makes no difference whether moving was asked for. *)
Lemma emergency_evacuates `{Cfg} rtti_of freed_size fuel started sp threads self w pm ev :
  collect_internal rtti_of freed_size fuel started sp threads self w pm ev true =
  collect_internal rtti_of freed_size fuel started sp threads self w pm false true.
Proof. reflexivity. Qed.

Lemma small_rounded size : 0 < size <= LARGE_OBJECT - 16 →
  0 < round16 size <= 8176 ∧ round16 size mod 16 = 0 ∧ Rounding.align_usize size 16 = Ok (round16 size).
Proof.
  unfold LARGE_OBJECT. intros Hs. pose proof (Rounding.ceil_div_bounds size 16 ltac:(lia)) as Hc.
  rewrite Rounding.align_usize_ok by lia.
  split_and!; [..|done]; unfold round16, Rounding.ceil_div in *; Z.div_mod_to_equations; lia.
Qed.

(** What a call returns that has called finalizers before. *)
Definition add_fins (fins : list Z) (r : Z * Immix * World * pmem * list Thread * list Z) : Z * Immix * World * pmem * list Thread * list Z :=
  (r.1, fins ++ r.2).

(** [allocate] at the threshold is one on the collected heap. *)
Lemma allocate_after `{Cfg} rtti_of freed_size fuel env threads self w pm size rtti self1 w1 threads1 fins :
  im_threshold self <= im_allocated self →
  collect_internal rtti_of freed_size fuel (e_started1 env) (e_sp env) threads (set_stack_end self (e_sp env)) w pm false true =
    Ok (self1, w1, pm, threads1, fins) → im_allocated self1 < im_threshold self1 →
  allocate rtti_of freed_size fuel env threads self w pm size rtti =
    (r ← allocate rtti_of freed_size fuel env threads1 self1 w1 pm size rtti; Ok (add_fins fins r)).
Proof.
  intros Ht E Hb. pose proof (collect_stack_end _ _ _ _ _ _ _ _ _ _ _ _ E) as Es. cbn in Es.
  assert (E1 : set_stack_end self1 (e_sp env) = self1) by (rewrite <- Es; by destruct self1).
  unfold allocate at 1. rewrite decide_True by exact Ht. rewrite E, bind_Ok. unfold allocate. rewrite E1, decide_False by lia. rewrite bind_Ok.
  destruct (Rounding.align_usize size 16) as [size'| |]; [rewrite !bind_Ok|done..].
  destruct (obtain _ _ _ _ _ _ _ _ _ _) as [[[[[[ptr self2] w2] pm2] threads2] fins2]| |]; [rewrite !bind_Ok|done..].
  case_decide; [done|]. destruct (finish _ _ _ _ _ _) as [[self3 w3]| |]; done.
Qed.

(** [allocate] when the space has no memory: what the second allocation finds after the
    collection is null, or the allocation is one on the collected heap. *)
Lemma allocate_again `{Cfg} rtti_of freed_size fuel env threads self w pm size rtti sp1 w1 self2 w2 threads2 fins p sp3 w3 :
  0 < size <= LARGE_OBJECT - 16 → im_allocated self < im_threshold self →
  ImmixSpaceM.allocate (im_immix self) w (round16 size) = Ok (0, sp1, w1) →
  collect_internal rtti_of freed_size fuel (e_started2 env) (e_sp env) threads (set_immix (set_stack_end self (e_sp env)) sp1) w1 pm
    false true = Ok (self2, w2, pm, threads2, fins) →
  im_allocated self2 < im_threshold self2 →
  ImmixSpaceM.allocate (im_immix self2) w2 (round16 size) = Ok (p, sp3, w3) →
  allocate rtti_of freed_size fuel env threads self w pm size rtti =
    if decide (p = 0) then Ok (0, set_immix self2 sp3, w3, pm, threads2, fins)
    else r ← allocate rtti_of freed_size fuel env threads2 self2 w2 pm size rtti; Ok (add_fins fins r).
Proof.
  intros Hs Ht Ef E Hb E3. destruct (small_rounded size Hs) as (Hs1 & _ & Ea).
  assert (Hl : ¬ LARGE_OBJECT <= round16 size) by (unfold LARGE_OBJECT; lia).
  pose proof (collect_stack_end _ _ _ _ _ _ _ _ _ _ _ _ E) as Es. cbn in Es.
  assert (E2 : set_stack_end self2 (e_sp env) = self2) by (rewrite <- Es; by destruct self2).
  unfold allocate at 1. rewrite decide_False by (cbn; lia). rewrite bind_Ok, Ea, bind_Ok. unfold obtain.
  rewrite (decide_False (P := LARGE_OBJECT <= round16 size)) by done.
  change (im_immix (set_stack_end self (e_sp env))) with (im_immix self). rewrite Ef, bind_Ok.
  unfold Address.is_null at 1. rewrite (bool_decide_eq_true_2 (0 = 0)) by done.
  rewrite emergency_evacuates, E, bind_Ok, E3, !bind_Ok. destruct (decide (p = 0)) as [->|Hp].
  { by rewrite decide_True by lia. }
  rewrite decide_False by tauto. unfold allocate. rewrite E2, decide_False by lia. rewrite bind_Ok, Ea, bind_Ok. unfold obtain.
  rewrite (decide_False (P := LARGE_OBJECT <= round16 size)) by done. rewrite E3, bind_Ok. unfold Address.is_null.
  rewrite (bool_decide_eq_false_2 (p = 0)) by done. rewrite bind_Ok, decide_False by tauto.
  destruct (finish _ _ _ _ _ _) as [[self4 w4]| |]; [|done..]. rewrite !bind_Ok. unfold add_fins. cbn. by rewrite app_nil_r.
Qed.

(** The count has reached the threshold, or the space has no memory. *)
Definition needs_collection `{Cfg} (self : Immix) (w : World) (size : Z) : Prop :=
  im_threshold self <= im_allocated self ∨ ∃ sp1 w1, ImmixSpaceM.allocate (im_immix self) w (round16 size) = Ok (0, sp1, w1).

(** What [allocate] on [self] returns when its collection has left [objs'], [self1] and
    [w1] and called the finalizers of [fins]: a new object, or null if there is no memory
    even then.  (Left open is
    a second collection in the same call, when the first one was due to the threshold.) *)
Definition outcome `{Cfg} (rtti_of : Z → GCRTTI) (freed_size : Z → Z) (env : AllocEnv) (threads : list Thread) (self : Immix) (w : World)
    (pm : pmem) (size rtti : Z) (fuel : nat) (fins : list Z) (objs' : list Z) (self1 : Immix) (w1 : World) : Prop :=
  (∃ p self' w', allocate rtti_of freed_size fuel env threads self w pm size rtti = Ok (p, self', w', pm, threads, fins) ∧
     allocated_at rtti_of objs' self1 w1 (round16 size) rtti p self' w') ∨
  (∃ self' w', allocate rtti_of freed_size fuel env threads self w pm size rtti = Ok (0, self', w', pm, threads, fins) ∧
     heap_inv rtti_of objs' self' w' ∧ ∀ b, ¬ BA.available (w_ba w') b) ∨
  (im_threshold self <= im_allocated self ∧
   ∃ sp' w', ImmixSpaceM.allocate (im_immix self1) w1 (round16 size) = Ok (0, sp', w')).

(** An allocation that collects, whatever [Left] its collection leaves: it is said of the
    heap when [allocate] has recorded the stack pointer, and after an attempt to find
    memory. *)
Section Emergency.
Context `{Cfg} (rtti_of : Z → GCRTTI) (freed_size : Z → Z).
Context (env : AllocEnv) (threads : list Thread) (objs : list Z) (self : Immix) (w : World) (pm : pmem) (size rtti : Z) (fuel : nat).

Abbreviation self0 := (set_stack_end self (e_sp env)).

Context (Left : list Z → Immix → World → Prop) (fins_of : list Z → list Z).
Context (Hleft : ∀ objs' self' w', Left objs' self' w' → heap_inv rtti_of objs' self' w' ∧
  0 <= im_allocated self' < im_threshold self' ∧ im_allocated self' <= 2 ^ 63).
Context (Hcol : ∀ started self1 w1, unchanged self0 w self1 w1 → heap_inv rtti_of objs self1 w1 →
  im_stack_bottom self1 = im_stack_bottom self0 → im_stack_end self1 = im_stack_end self0 →
  ∃ objs' self' w', collect_internal rtti_of freed_size fuel started (e_sp env) threads self1 w1 pm false true =
    Ok (self', w', pm, threads, fins_of objs') ∧ Left objs' self' w').
Context (Hi : heap_inv rtti_of objs self0 w).
Context (Hs : 0 < size <= LARGE_OBJECT - 16) (Hw : in_width 64 rtti) (Hm : rtti mod 8 = 0) (Hz : rtti ≠ 0).

(** At the threshold it is an allocation on the collected heap. *)
Lemma allocate_at_threshold : im_threshold self <= im_allocated self →
  ∃ objs' self1 w1, Left objs' self1 w1 ∧
    allocate rtti_of freed_size fuel env threads self w pm size rtti =
      (r ← allocate rtti_of freed_size fuel env threads self1 w1 pm size rtti; Ok (add_fins (fins_of objs') r)).
Proof.
  intros Ht. destruct (Hcol (e_started1 env) self0 w) as (objs' & self1 & w1 & E & Hl); [by constructor|done..|].
  exists objs', self1, w1. split; [done|]. destruct (Hleft _ _ _ Hl) as (_ & Hb & _). apply allocate_after; [done|exact E|lia].
Qed.

(** Below the threshold and without memory it is one on the collected
    heap, or returns null with that heap in order. *)
Lemma allocate_retries sp1 w1 : im_allocated self < im_threshold self →
  ImmixSpaceM.allocate (im_immix self) w (round16 size) = Ok (0, sp1, w1) →
  ∃ objs' self2 w2, Left objs' self2 w2 ∧
    (allocate rtti_of freed_size fuel env threads self w pm size rtti =
       (r ← allocate rtti_of freed_size fuel env threads self2 w2 pm size rtti; Ok (add_fins (fins_of objs') r)) ∧
     (∃ p sp3 w3, ImmixSpaceM.allocate (im_immix self2) w2 (round16 size) = Ok (p, sp3, w3) ∧ p ≠ 0) ∨
     ∃ self' w', allocate rtti_of freed_size fuel env threads self w pm size rtti = Ok (0, self', w', pm, threads, fins_of objs') ∧
       heap_inv rtti_of objs' self' w' ∧ ∀ b, ¬ BA.available (w_ba w') b).
Proof.
  intros Ht Ef. destruct (small_rounded size Hs) as (Hs1 & Hs2 & Ea).
  assert (Hsz : 0 < round16 size <= 32639 ∧ round16 size mod 16 = 0) by lia.
  destruct (Hcol (e_started2 env) (set_immix self0 sp1) w1) as (objs' & self2 & w2 & E & Hl);
    [by apply (full_unchanged rtti_of objs self0 w Hi (round16 size))|by apply (full_inv rtti_of objs self0 w Hi (round16 size))|done..|].
  exists objs', self2, w2. split; [done|]. destruct (Hleft _ _ _ Hl) as (Hi2 & Hb & _).
  destruct (ImmixSpaceM.allocate_ok (im_immix self2) w2 (round16 size) (hi_space _ _ _ _ Hi2)) as (p & sp3 & w3 & E3 & _); [lia..|].
  rewrite (allocate_again rtti_of freed_size fuel env threads self w pm size rtti sp1 w1 self2 w2 threads _ p sp3 w3 Hs Ht Ef E ltac:(lia) E3).
  destruct (decide (p = 0)) as [->|Hp]; [|left; by eauto 6].
  right. do 2 eexists. split; [done|]. split; [by apply (full_inv rtti_of objs' self2 w2 Hi2 (round16 size))|].
  by destruct (full_step rtti_of objs' self2 w2 Hi2 (round16 size) sp3 w3 Hsz E3) as (_ & _ & ?).
Qed.

(** Either way. *)
Lemma allocate_needs_collection :
  needs_collection self w size →
  ∃ objs' self1 w1, Left objs' self1 w1 ∧
    outcome rtti_of freed_size env threads self w pm size rtti fuel (fins_of objs') objs' self1 w1.
Proof.
  intros Hneed. destruct (decide (im_threshold self <= im_allocated self)) as [Ht|Ht].
  - destruct (allocate_at_threshold Ht) as (objs' & self1 & w1 & Hl & Ea). exists objs', self1, w1. unfold outcome. rewrite Ea. split; [done|].
    destruct (Hleft _ _ _ Hl) as (Hi1 & Hb1 & Hb2).
    destruct (allocate_below rtti_of freed_size fuel env threads objs' self1 w1 pm size rtti Hi1 Hb1 Hb2 Hs Hw Hm Hz)
      as [(p & self' & w' & -> & Hal)|(sp' & w' & E & _)].
    + left. exists p, self', w'. rewrite bind_Ok. unfold add_fins. cbn. by rewrite app_nil_r.
    + right. right. eauto.
  - destruct Hneed as [?|(sp1 & w0 & Ef)]; [lia|].
    destruct (allocate_retries sp1 w0 ltac:(lia) Ef) as (objs' & self2 & w2 & Hl & Hres). exists objs', self2, w2. unfold outcome. split; [done|].
    destruct (Hleft _ _ _ Hl) as (Hi2 & Hb1 & Hb2).
    destruct Hres as [(-> & p & sp3 & w3 & E3 & Hp)|Hnull]; [|right; by left]. left.
    destruct (allocate_below rtti_of freed_size fuel env threads objs' self2 w2 pm size rtti Hi2 Hb1 Hb2 Hs Hw Hm Hz)
      as [(q & self' & w' & -> & Hal)|(sp' & w' & E & _)]; [|rewrite E3 in E; by injection E as ->].
    exists q, self', w'. rewrite bind_Ok. unfold add_fins. cbn. by rewrite app_nil_r.
Qed.

End Emergency.

(** ** A sample: the heap of [HeapCollect] has no memory left. *)

Lemma sample_emergency : let _ : Cfg := false in
  ready_for final_rtti pair_objs (set_stack_end final_immix 32) final_world (ranges (set_stack_end final_immix 32) final_world) true.
Proof. intros cfg. destruct final_ready as [H1 H2 H3 _ H5 H6]. by constructor. Qed.

(** ** Properties *)

(** C12: An allocation that needs a collection, in the build without threads: when the
    threshold is reached, or the space has no memory, and there is no headroom, [allocate]
    of a small object returns; it has collected, leaving exactly the reachable objects with
    their contents and a heap in order, and moved nothing although such a collection asks
    for evacuation; of the objects to finalize it has called the finalizers of those that
    are not left. The object it returns is in memory that overlaps none of the objects left,
    as without a collection. It returns null only if after the collection there still was no
    memory and no block, and then the heap is in order too. (Left open is what a second
    collection does in the same call, when the first one was due to the threshold.)
    The heap has to be in order ([heap_inv], which has no large objects: these a collection
    frees) and [ready_for] an emergency: the ranges it scans are below 2^63 and hold no
    object, and no word in them is the end address of the heap or 8 bytes behind it; precise
    roots are slots outside objects that refer to objects; an object to finalize is
    reachable, or is of a type to be finalized and lies in a block in which a reachable
    object lies (otherwise its header may be gone when it is read); and with verbose
    statistics the count of allocated bytes is no less than the sizes of the objects. *)
Theorem allocate_collects `{Cfg} rtti_of freed_size env threads objs self w pm size rtti :
  let self0 := set_stack_end self (e_sp env) in
  threaded = false → (∀ p, 0 <= freed_size p) → ready_for rtti_of objs self0 w (ranges self0 w) true →
  0 < im_threshold self → 0 < size <= LARGE_OBJECT - 16 → in_width 64 rtti → rtti mod 8 = 0 → rtti ≠ 0 →
  needs_collection self w size →
  ∃ n, ∀ fuel, (n <= fuel)%nat → ∃ objs' self1 w1,
    (∀ o, o ∈ objs' ↔ o ∈ objs ∧ reachable rtti_of w (all_roots self0 w) o) ∧
    (∀ o, o ∈ objs' → agree rtti_of w w1 o) ∧ heap_inv rtti_of objs' self1 w1 ∧
    im_to_finalize self1 = filter (.∈ objs') (im_to_finalize self) ∧
    outcome rtti_of freed_size env threads self w pm size rtti fuel (finalized rtti_of self w objs') objs' self1 w1.
Proof.
  intros self0 Hst Hfs Hr Hth Hs Hw Hm Hz Hneed. pose proof Hr as [Hpk Hi Hro _ _ _].
  exists (S (Z.to_nat (rounds_bound rtti_of objs self0 w (ranges self0 w)))). intros fuel Hf.
  destruct (allocate_needs_collection rtti_of freed_size env threads objs self w pm size rtti fuel
    (collected rtti_of objs self0 w (ranges self0 w)) (finalized rtti_of self w)) as (objs' & self1 & w1 & [C1 C2 C3 _ _ _ _ C8] & Hres); [..|by eauto 10]; try done.
  - intros objs' self' w' Hcd. split; [apply Hcd|]. by apply (collected_bounds _ _ _ _ _ _ _ _ Hcd).
  - intros started self1 w1 Hun Hi1 E1 E2. pose proof (unchanged_ranges self0 w self1 w1 Hun E1 E2) as Ers.
    destruct (collect_internal_ok rtti_of freed_size Hst Hfs objs self1 w1 pm true fuel started (e_sp env) threads) as (objs' & self2 & w2 & E & Hcd).
    + rewrite Ers. apply (unchanged_ready rtti_of objs self0 w); try done. unfold parked. by rewrite Hst.
    + change (rounds_bound rtti_of objs self1 w1 (ranges self1 w1) < Z.of_nat fuel).
      rewrite Ers, (unchanged_bound rtti_of objs self0 w self1 w1 Hi Hun). lia.
    + exists objs', self2, w2. split; [rewrite E; do 2 f_equal; by apply (unchanged_finalized rtti_of self0 w self1 w1)|].
      rewrite Ers in Hcd. by apply (unchanged_collected rtti_of objs self0 w self1 w1 Hi Hun).
Qed.

Lemma allocate_collects_witness : let _ : Cfg := false in
  ∃ n, ∀ fuel, (n <= fuel)%nat → ∃ p self' w' fins,
    allocate final_rtti (λ _, 0) fuel (mkEnv 32 true true 0) [] final_immix final_world ∅ 24 8 = Ok (p, self', w', ∅, [], fins) ∧ 32896 ∈ fins.
Proof.
  intros cfg. destruct (allocate_collects final_rtti (λ _, 0) (mkEnv 32 true true 0) [] pair_objs final_immix final_world ∅ 24 8)
    as [n Hn]; [reflexivity|intros; lia|exact sample_emergency|reflexivity|unfold LARGE_OBJECT; lia|split; [lia|reflexivity]
    |reflexivity|discriminate|right; vm_compute; eauto|].
  exists n. intros fuel Hf. destruct (Hn fuel Hf) as (objs' & self1 & w1 & Ho & _ & _ & _ & Hres).
  assert (Hin : 32896 ∈ finalized final_rtti final_immix final_world objs').
  { apply list_elem_of_filter. split; [|left]. split; [|reflexivity]. intros [_ Hr]%Ho. by apply final_reachable in Hr. }
  destruct Hres as [(p & self' & w' & E & _)|[(self' & w' & E & _)|[Ht _]]].
  - exists p, self', w'. eexists. split; [exact E|exact Hin].
  - exists 0, self', w'. eexists. split; [exact E|exact Hin].
  - exfalso. vm_compute in Ht. by apply Ht.
Defined.

(** C11: An allocation whose collection may move objects, in the build without threads: when
    the threshold is reached, or the space has no memory, [allocate] of a small object
    returns; it has collected, and left exactly the reachable objects, where the renaming
    says, with their types, data and references, those the stack refers to at their old
    places, and a heap in order; of the objects to finalize it has called the finalizers of
    those that are not left. The object it returns overlaps none of the objects left. It
    returns null only if after the collection there still was no memory and no block. (Left
    open is what a second collection does in the same call, when the first one was due to
    the threshold.)
    The heap has to be in order ([heap_inv], which has no large objects: these a collection
    frees) and [ready_to_move]: an object that is not pinned and not on the stack is the
    object of at most one precise root, and if of none then at most one reference leads to
    it, as it is copied once for each reference that finds it at its old place; types do not
    depend on addresses or on what references lead to, and visit each slot once, a multiple
    of 8 bytes into the object; precise roots are given once, lie outside the heap and refer
    to objects; the ranges it scans are below 2^63 and hold no object, and no word in them
    is the end address of the heap or 8 bytes behind it; an object to finalize is reachable
    and on the stack or pinned, or it is not reachable, of a type to be finalized, and lies
    in a block that such an object keeps (otherwise it would be finalized alive, or its
    header be gone when it is read); and with verbose statistics the count of allocated
    bytes is no less than the sizes of the objects. *)
Theorem allocate_moves `{Cfg} rtti_of freed_size env threads objs self w pm size rtti :
  let self0 := set_stack_end self (e_sp env) in
  threaded = false → (∀ p, 0 <= freed_size p) → (∀ v, relocatable (rtti_of v)) → ready_to_move rtti_of objs self0 w (ranges self0 w) →
  0 < im_threshold self → 0 < size <= LARGE_OBJECT - 16 → in_width 64 rtti → rtti mod 8 = 0 → rtti ≠ 0 →
  needs_collection self w size →
  ∃ n, ∀ fuel, (n <= fuel)%nat → ∃ g self1 w1, moved rtti_of objs self0 w (ranges self0 w) g self1 w1 ∧
    outcome rtti_of freed_size env threads self w pm size rtti fuel (finalized rtti_of self w (places objs g)) (places objs g) self1 w1.
Proof.
  intros self0 Hst Hfs Hrel Hr Hth Hs Hw Hm Hz Hneed. pose proof (rv_inv _ _ _ _ _ Hr) as Hi.
  exists (S (Z.to_nat (rounds_bound rtti_of objs self0 w (ranges self0 w)))). intros fuel Hf.
  destruct (allocate_needs_collection rtti_of freed_size env threads objs self w pm size rtti fuel
    (λ objs' self' w', ∃ g, moved rtti_of objs self0 w (ranges self0 w) g self' w' ∧ objs' = places objs g) (finalized rtti_of self w))
    as (objs' & self1 & w1 & (g & Hmv & ->) & Hres); [..|by eauto 10]; try done.
  - intros objs' self' w' (g & Hmv & ->). split; [apply Hmv|]. by apply (moved_bounds _ _ _ _ _ _ _ _ Hmv).
  - intros started self1 w1 Hun Hi1 E1 E2. pose proof (unchanged_ranges self0 w self1 w1 Hun E1 E2) as Ers.
    destruct (moves_ok rtti_of freed_size Hst Hfs objs self1 w1 pm false true fuel started (e_sp env) threads Hrel) as (g & self2 & w2 & E & Hmv).
    + rewrite Ers. apply (unchanged_ready_to_move rtti_of objs self0 w); try done. unfold parked. by rewrite Hst.
    + rewrite Ers, (unchanged_bound rtti_of objs self0 w self1 w1 Hi Hun). lia.
    + exists (places objs g), self2, w2. split; [rewrite E; do 2 f_equal; by apply (unchanged_finalized rtti_of self0 w self1 w1)|].
      exists g. split; [|done]. rewrite Ers in Hmv.
      apply (unchanged_moved rtti_of objs self0 w self1 w1 Hi Hun); [apply Hr|apply Hr|done].
Qed.

Lemma allocate_moves_witness : let _ : Cfg := false in
  ∃ n, ∀ fuel, (n <= fuel)%nat → ∃ (g : gmap Z Z) self1 w1 p self' w' fins,
    moved final_rtti move_objs (set_stack_end spare_final_immix 48) spare_final_world (ranges spare_final_immix spare_final_world) g self1 w1 ∧
    allocate final_rtti (λ _, 0) fuel (mkEnv 48 true true 0) [] spare_final_immix spare_final_world ∅ 24 8 = Ok (p, self', w', ∅, [], fins).
Proof.
  intros cfg. destruct (allocate_moves final_rtti (λ _, 0) (mkEnv 48 true true 0) [] move_objs spare_final_immix spare_final_world ∅ 24 8)
    as [n Hn]; [reflexivity|intros; lia|exact pair_relocatable|exact spare_final_ready|reflexivity|unfold LARGE_OBJECT; lia|split; [lia|reflexivity]
    |reflexivity|discriminate|right; vm_compute; eauto|].
  exists n. intros fuel Hf. destruct (Hn fuel Hf) as (g & self1 & w1 & Hm & [(p & self' & w' & E & _)|[(self' & w' & E & _)|[Ht _]]]).
  - exists g, self1, w1, p, self', w'. eexists. split; [exact Hm|exact E].
  - exists g, self1, w1, 0, self', w'. eexists. split; [exact Hm|exact E].
  - exfalso. vm_compute in Ht. by apply Ht.
Defined.
