(* ===== verification/Mutator.v ===== *)
(** * A program running on the heap

    The heap together with the objects on it as a transition system.  A program
    starts with [immix_init], allocates and initialises small objects, writes words
    into its objects and outside the heap, and asks for collections; allocations collect
    by themselves.  Collections may move objects, and are steps on heaps that are
    [collectible].  Every state it can reach satisfies [heap_inv]. *)

From stdpp Require Import base numbers list list_numbers gmap relations.
From Stdlib Require Import ZArith Lia.
From S2P Require Import Prelude Util Constants Bitmap Block SpaceBitmap Object BlockAllocator.
From S2P Require Import Allocation AllocatorLaws Allocators ImmixSpace LargeObjectSpace.
From S2P Require Import Collector Sweep Marking Collection Immix Roots EvacCollect Heap HeapCollect EvacHeap HeapAlloc HeapEmergency.
Import CollectorM ImmixHeap.
Local Open Scope Z_scope.

Record State : Type := mkState {
  st_objs : list Z;
  st_immix : Immix;
  st_world : World
}.

Section Steps.
Context `{Cfg} (rtti_of : Z → GCRTTI) (freed_size : Z → Z) (pm : pmem).

(** The object at [p] with [size] bytes is initialised: of the words of [w] only those
    behind its header are overwritten, and what results is an object. *)
Definition initialises (objs : list Z) (w : World) (p size : Z) (ws : mem) : Prop :=
  (∀ a, ¬ (p < a < p + size) → mem_read ws a = word (w_store w) a) ∧
  object_ok rtti_of (p :: objs) (with_words w ws) p ∧ osize rtti_of (with_words w ws) p <= size.

(** A small object of a type at [rtti]. *)
Definition small (size rtti : Z) : Prop :=
  0 < size <= LARGE_OBJECT - 16 ∧ in_width 64 rtti ∧ rtti mod 8 = 0 ∧ rtti ≠ 0.

(** A collection of a heap that is ready for it, also with objects to move.  [objs'] are the
    objects afterwards, at their places: those the bitmap has the starts of; [fins] are the
    objects whose finalizers it has called.  The conditions of [collectible] are part of it, so
    that the runs below are those of programs that collect on such heaps only; on others a
    collection may panic, or lose what it moves. *)
Record collection (evacuation emergency : bool) (fuel : nat) (started : bool) (stack_pointer : Z) (threads : list Thread)
    (objs : list Z) (self : Immix) (w : World) (objs' : list Z) (self' : Immix) (w' : World) (fins : list Z) : Prop := {
  cn_ready : collectible rtti_of objs self w (ranges self w) evacuation emergency;
  cn_fuel : rounds_bound rtti_of objs self w (ranges self w) < Z.of_nat fuel;
  cn_run : collect_internal rtti_of freed_size fuel started stack_pointer threads self w pm evacuation emergency =
    Ok (self', w', pm, threads, fins);
  cn_nodup : NoDup objs';
  cn_objs : ∀ a, a ∈ objs' ↔ object_start (im_immix self') w' a
}.

(** A call of [allocate], together with the initialisation of the object: [r] is what
    the call returns. *)
Inductive allocating (fuel : nat) (env : AllocEnv) (threads : list Thread) (size rtti : Z) :
    State → Z * Immix * World * pmem * list Thread * list Z → State → Prop :=
(** the space has memory *)
| allocating_found objs self w p sp1 w1 self' w' ws :
    0 <= im_allocated self < im_threshold self → im_allocated self <= 2 ^ 63 →
    ImmixSpaceM.allocate (im_immix self) w (round16 size) = Ok (p, sp1, w1) → p ≠ 0 →
    allocate rtti_of freed_size fuel env threads self w pm size rtti = Ok (p, self', w', pm, threads, []) →
    initialises objs w' p (round16 size) ws →
    allocating fuel env threads size rtti (mkState objs self w) (p, self', w', pm, threads, [])
      (mkState (p :: objs) self' (with_words w' ws))
(** the threshold is reached: it collects, and goes on *)
| allocating_threshold objs self w objs' self1 w1 fins r st' :
    0 < im_threshold self <= im_allocated self →
    collection false true fuel (e_started1 env) (e_sp env) threads objs (set_stack_end self (e_sp env)) w objs' self1 w1 fins →
    allocating fuel env threads size rtti (mkState objs' self1 w1) r st' →
    allocating fuel env threads size rtti (mkState objs self w) (add_fins fins r) st'
(** the space has no memory: it collects, and tries again *)
| allocating_retry objs self w sp1 w1 objs' self2 w2 fins p sp3 w3 r st' :
    0 <= im_allocated self < im_threshold self →
    ImmixSpaceM.allocate (im_immix self) w (round16 size) = Ok (0, sp1, w1) →
    collection true true fuel (e_started2 env) (e_sp env) threads objs (set_immix (set_stack_end self (e_sp env)) sp1) w1 objs' self2 w2 fins →
    ImmixSpaceM.allocate (im_immix self2) w2 (round16 size) = Ok (p, sp3, w3) → p ≠ 0 →
    allocating fuel env threads size rtti (mkState objs' self2 w2) r st' →
    allocating fuel env threads size rtti (mkState objs self w) (add_fins fins r) st'
(** there is still no memory: it returns null *)
| allocating_null objs self w sp1 w1 objs' self2 w2 fins sp3 w3 :
    0 <= im_allocated self < im_threshold self →
    ImmixSpaceM.allocate (im_immix self) w (round16 size) = Ok (0, sp1, w1) →
    collection true true fuel (e_started2 env) (e_sp env) threads objs (set_immix (set_stack_end self (e_sp env)) sp1) w1 objs' self2 w2 fins →
    ImmixSpaceM.allocate (im_immix self2) w2 (round16 size) = Ok (0, sp3, w3) →
    allocating fuel env threads size rtti (mkState objs self w) (0, set_immix self2 sp3, w3, pm, threads, fins)
      (mkState objs' (set_immix self2 sp3) w3).

Inductive step : State → State → Prop :=
| step_allocate st fuel env threads size rtti r st' :
    small size rtti → allocating fuel env threads size rtti st r st' → step st st'
(** a write into an object that leaves it an object of the same size *)
| step_write objs self w o a x : let w' := with_words w (<[a := x]> (words (w_store w))) in
    o ∈ objs → o < a < o + osize rtti_of w o → object_ok rtti_of objs w' o → osize rtti_of w' o = osize rtti_of w o →
    step (mkState objs self w) (mkState objs self w')
(** a write to the stack or to global data *)
| step_outside objs self w a x :
    BA.is_in_space (w_ba w) a = false →
    step (mkState objs self w) (mkState objs self (with_words w (<[a := x]> (words (w_store w)))))
| step_stats objs self w stats :
    step (mkState objs self w) (mkState objs (immix_enable_stats self stats) w)
| step_callback objs self w callback data :
    step (mkState objs self w) (mkState objs (immix_register_ongc_callback self callback data) w)
| step_collect objs self w move_objects fuel started stack_pointer threads objs' self' w' fins :
    collection move_objects false fuel started stack_pointer threads objs self w objs' self' w' fins →
    step (mkState objs self w) (mkState objs' self' w').

Definition good (st : State) : Prop := heap_inv rtti_of (st_objs st) (st_immix st) (st_world st).

(** A write into one object leaves the others alone. *)
Lemma write_inv objs self w o a x : let w' := with_words w (<[a := x]> (words (w_store w))) in
  heap_inv rtti_of objs self w → o ∈ objs → o < a < o + osize rtti_of w o →
  object_ok rtti_of objs w' o → osize rtti_of w' o = osize rtti_of w o →
  heap_inv rtti_of objs self w' ∧ ∀ x, x ∈ objs → osize rtti_of w' x = osize rtti_of w x.
Proof.
  intros w' Hi Ho Ha Hob Hsz.
  assert (Hw : ∀ b, b ≠ a → word (w_store w') b = word (w_store w) b).
  { intros b Hne. unfold word, w'. cbn. unfold mem_read. by rewrite lookup_insert_ne. }
  assert (Hna : a ∉ objs) by (apply (apart_inside rtti_of objs w o); try done; apply Hi).
  assert (Hwo : ∀ o', o' ∈ objs → word (w_store w') o' = word (w_store w) o') by (intros o' Ho'; apply Hw; by intros ->).
  assert (Hag : ∀ o', o' ∈ objs → o' ≠ o → agree rtti_of w w' o').
  { intros o' Ho' Hne. split; [unfold vtable_of; by rewrite Hwo|]. intros b Hb. apply Hw. intros ->.
    destruct (hi_apart _ _ _ _ Hi o o' Ho Ho'); [done|lia|lia]. }
  assert (Hs : ∀ o', o' ∈ objs → osize rtti_of w' o' = osize rtti_of w o').
  { intros o' Ho'. destruct (decide (o' = o)) as [->|Hne]; [done|]. eapply agree_facts; [by apply (hi_object _ _ _ _ Hi)|auto]. }
  split; [|exact Hs]. constructor; try apply Hi.
  - apply (ImmixSpaceM.space_ok_words (im_immix self) w); [done|apply Hi].
  - apply kept_ok_words, Hi.
  - intros o' Ho'. rewrite Hwo by done. by apply Hi.
  - intros o' Ho'. destruct (decide (o' = o)) as [->|Hne]; [done|].
    eapply agree_ok; [by apply (hi_object _ _ _ _ Hi)|auto|]. intros b Hb. by apply (ob_slots _ _ _ _ (hi_object _ _ _ _ Hi o' Ho')).
  - intros o' Ho'. unfold placed_in. rewrite Hs by done. by apply Hi.
  - intros o1 o2 H1 H2. rewrite !Hs by done. by apply Hi.
  - intros o' y Ho'. rewrite Hs by done. intros Hy Hf. apply (hi_not_free _ _ _ _ Hi o' y Ho' Hy).
    by apply (ImmixSpaceM.free_space_words (im_immix self) w (mkStore (headers (w_store w)) (<[a := x]> (words (w_store w))))) in Hf.
Qed.

Context (Hst : threaded = false) (Hfs : ∀ p, 0 <= freed_size p).

(** A write outside the mapping touches no object. *)
Lemma outside_inv objs self w a x : heap_inv rtti_of objs self w → BA.is_in_space (w_ba w) a = false →
  let w' := with_words w (<[a := x]> (words (w_store w))) in
  heap_inv rtti_of objs self w' ∧ ∀ o, o ∈ objs → osize rtti_of w' o = osize rtti_of w o.
Proof.
  intros Hi Ha w'.
  assert (Hall : ∀ o, o ∈ objs → agree rtti_of w w' o ∧ word (w_store w') o = word (w_store w) o).
  2: { split.
    - apply heap_inv_words; [done|]. intros o Ho. destruct (Hall o Ho) as [? E].
      change (word (w_store (with_words w _)) o) with (word (w_store w') o). rewrite E.
      destruct (hi_header _ _ _ _ Hi o Ho) as (? & ? & ?). by split_and!.
    - intros o Ho. eapply agree_facts; [by apply (hi_object _ _ _ _ Hi)|by apply Hall]. }
  intros o Ho.
  pose proof (hi_placed _ _ _ _ Hi o Ho) as (_ & P1 & P2). pose proof (block_in_range rtti_of objs self w Hi o Ho) as (_ & B1 & B2).
  pose proof (BA.aligned_spec (mmap (w_ba w))). pose proof (osize_ge _ _ _ _ (hi_object _ _ _ _ Hi o Ho)).
  assert (Hw : ∀ b, o <= b < o + osize rtti_of w o →
    word (w_store w') b = word (w_store w) b).
  { intros b Hb. unfold word, w'. cbn. unfold mem_read. rewrite lookup_insert_ne; [done|]. intros ->.
    unfold BA.is_in_space in Ha. apply andb_false_iff in Ha as [C|C]; apply bool_decide_eq_false in C; consts; lia. }
  unfold agree, vtable_of. rewrite Hw by lia. split_and!; try done. intros b Hb. apply Hw. lia.
Qed.

(** The heap after a collection. *)
Lemma collection_ok evacuation emergency fuel started stack_pointer threads objs self w objs' self' w' fins :
  collection evacuation emergency fuel started stack_pointer threads objs self w objs' self' w' fins →
  heap_inv rtti_of objs' self' w' ∧
  (0 < im_threshold self → 0 <= im_allocated self' < im_threshold self' ∧ im_allocated self' <= 2 ^ 63).
Proof.
  intros [Hr Hf E Hn Ho].
  destruct (collectible_ok rtti_of freed_size Hst Hfs objs self w pm evacuation emergency fuel started stack_pointer threads Hr Hf)
    as (o2 & self2 & w2 & E2 & Hi & Hb). rewrite E in E2. injection E2 as <- <- _. split; [|exact Hb].
  apply (heap_inv_ext rtti_of o2); [|done|exact Hi]. intros o. by rewrite Ho, (hi_starts _ _ _ _ Hi).
Qed.

(** What a call does to the heap, and that [r] is what [allocate] returns. *)
Lemma allocating_good fuel env threads size rtti st r st' : small size rtti → allocating fuel env threads size rtti st r st' → good st →
  good st' ∧ allocate rtti_of freed_size fuel env threads (st_immix st) (st_world st) pm size rtti = Ok r.
Proof.
  intros (Hs & Hs2 & Hs3 & Hs4) Hal. unfold good. destruct (small_rounded size Hs) as (Hsr & Hsm & _).
  induction Hal as [objs self w p sp1 w1 self' w' ws Ha Hb E Hp Eal (I1 & I2 & I3)|objs self w objs' self1 w1 fins r st' Ht Hco Hal IH
    |objs self w sp1 w1 objs' self2 w2 fins p sp3 w3 r st' Ha E Hco E3 Hp Hal IH
    |objs self w sp1 w1 objs' self2 w2 fins sp3 w3 Ha E Hco E3]; cbn [st_objs st_immix st_world] in *; intros Hi.
  - split; [|exact Eal].
    destruct (allocate_below rtti_of freed_size fuel env threads objs self w pm size rtti Hi Ha Hb Hs Hs2 Hs3 Hs4)
      as [(p2 & self2 & w2 & E2 & Hal)|(sp2 & w2 & E2 & _)]; [|rewrite E in E2; by injection E2 as ->].
    rewrite Eal in E2. injection E2 as <- <- <-. by apply (al_inv _ _ _ _ _ _ _ _ _ Hal).
  - destruct (collection_ok _ _ _ _ _ _ _ _ _ _ _ _ _ Hco) as [Hi1 Hb]. destruct (IH Hi1) as [Hg Eal]. split; [exact Hg|].
    destruct (Hb ltac:(cbn; lia)) as [Hb1 _].
    rewrite (allocate_after rtti_of freed_size fuel env threads self w pm size rtti self1 w1 threads fins ltac:(lia)
      (cn_run _ _ _ _ _ _ _ _ _ _ _ _ _ Hco) ltac:(lia)). by rewrite Eal.
  - destruct (collection_ok _ _ _ _ _ _ _ _ _ _ _ _ _ Hco) as [Hi2 Hb]. destruct (IH Hi2) as [Hg Eal]. split; [exact Hg|].
    destruct (Hb ltac:(cbn; lia)) as [Hb1 _].
    rewrite (allocate_again rtti_of freed_size fuel env threads self w pm size rtti sp1 w1 self2 w2 threads fins p sp3 w3 Hs ltac:(lia) E
      (cn_run _ _ _ _ _ _ _ _ _ _ _ _ _ Hco) ltac:(lia) E3). rewrite decide_False by done. by rewrite Eal.
  - destruct (collection_ok _ _ _ _ _ _ _ _ _ _ _ _ _ Hco) as [Hi2 Hb]. destruct (Hb ltac:(cbn; lia)) as [Hb1 _].
    split; [by apply (full_inv rtti_of objs' self2 w2 Hi2 (round16 size) sp3 w3 ltac:(lia))|].
    rewrite (allocate_again rtti_of freed_size fuel env threads self w pm size rtti sp1 w1 self2 w2 threads fins 0 sp3 w3 Hs ltac:(lia) E
      (cn_run _ _ _ _ _ _ _ _ _ _ _ _ _ Hco) ltac:(lia) E3). by rewrite decide_True.
Qed.

Lemma step_good st st' : step st st' → good st → good st'.
Proof.
  intros Hs. unfold good. destruct Hs as [st fuel env threads size rtti r st' Hsm Hal| |objs self w a x Ha|objs self w stats|objs self w cb d
    |objs self w mo fuel started sp threads objs' self' w' fins Hco]; cbn [st_objs st_immix st_world]; intros Hi.
  - by eapply allocating_good.
  - by eapply write_inv.
  - by apply (outside_inv objs self w a x).
  - by destruct Hi.
  - by destruct Hi.
  - by eapply collection_ok.
Qed.

End Steps.

(** A step that collects with objects to move: the heap of [EvacHeap]. *)
Lemma spare_step : let _ : Cfg := false in
  ∃ st', step pair_rtti (λ _, 0) ∅ (mkState move_objs spare_immix spare_world) st' ∧ 33024 ∈ st_objs st'.
Proof.
  intros cfg. destruct (moves_ok pair_rtti (λ _, 0) eq_refl (λ _, Z.le_refl 0) move_objs spare_immix spare_world ∅ true false 100 true 48 [])
    as (g & self' & w' & E & Hm); [exact pair_relocatable|apply spare_ready|vm_compute; done|].
  exists (mkState (places move_objs g) self' w'). split.
  - eapply (step_collect _ _ _ _ _ _ true 100). econstructor; [right|vm_compute; reflexivity|exact E|apply (md_inv _ _ _ _ _ _ _ _ Hm)|].
    + split; [exact pair_relocatable|apply spare_ready].
    + intros a. symmetry. apply (hi_starts _ _ _ _ (md_inv _ _ _ _ _ _ _ _ Hm)).
  - cbn [st_objs]. assert (Hroot : 33024 ∈ roots_in spare_immix spare_world (ranges spare_immix spare_world)) by (vm_compute; left).
    destruct (proj2 (md_reached _ _ _ _ _ _ _ _ Hm 33024)) as [p Hg].
    { split; [right; right; left|]. exists 33024. split; [|done]. apply elem_of_app. by left. }
    unfold places. apply list_elem_of_omap. exists 33024. split; [right; right; left|].
    destruct (md_place _ _ _ _ _ _ _ _ Hm 33024 p Hg) as [->|[_ Hl]]; [exact Hg|]. by destruct Hl.
Qed.

(** ** Start *)

Lemma init_heap_inv `{Cfg} rtti_of map pagesize origin size threshold callback data :
  0 <= map → map mod 16 = 0 → 0 <= size → 0 < pagesize → pagesize mod 2048 = 0 →
  map + size + 18 * BLOCK_SIZE + pagesize < 2 ^ 63 →
  ∃ self w, immix_init map pagesize origin size threshold callback data = Ok (self, w) ∧ heap_inv rtti_of [] self w ∧
    w_tls w = no_blocks.
Proof.
  intros Hm Hal Hs Hp Hpm Hb. unfold immix_init.
  set (args := if decide _ then _ else _). destruct args as [size' threshold'] eqn:Eargs.
  assert (Hs' : 0 <= size' <= size + 16 * BLOCK_SIZE).
  { unfold args in Eargs. consts. repeat case_decide; injection Eargs as <- <-; lia. }
  destruct (new_heap_inv rtti_of map pagesize size' threshold' Hm Hal) as (self & w & -> & Hi & _ & _ & _ & Et); [consts; lia..|].
  rewrite bind_Ok. do 2 eexists. split; [done|]. split; [by destruct Hi|exact Et].
Qed.

(** ** A run: an object is allocated, the stack refers to it, and the heap is collected *)

Definition run_callback : CollectRootsCallback := λ _ _, ([], []).
Definition value_of {A} (default : A) (r : R A) : A := match r with Ok x => x | _ => default end.
Definition run_start `{Cfg} : Immix * World :=
  value_of (sample_immix, rooted_world) (immix_init 28672 4096 48 65536 0 run_callback 0).

Section Run.
#[local] Instance run_cfg : Cfg := false.

Definition run_alloc : Z * Immix * World * pmem * list Thread * list Z :=
  value_of (0, sample_immix, rooted_world, ∅, [], [])
    (allocate pair_rtti (λ _, 0) 1 (mkEnv 16 true true 0) [] run_start.1 run_start.2 ∅ 16 16).
Definition run_immix : Immix := run_alloc.1.1.1.1.2.
Definition run_world : World := run_alloc.1.1.1.2.
(** The word at 16, on the stack, refers to the object. *)
Definition run_rooted : World := with_words run_world (<[16 := 32896]> (words (w_store run_world))).

Lemma run_allocates : step pair_rtti (λ _, 0) ∅ (mkState [] run_start.1 run_start.2)
  (mkState [32896] run_immix (with_words run_world (words (w_store run_world)))).
Proof.
  eapply (step_allocate _ _ _ _ 1 (mkEnv 16 true true 0) [] 16 16); [split_and!; vm_compute; done|].
  eapply (allocating_found _ _ _ _ _ _ _ _ [] run_start.1 run_start.2 32896).
  - vm_compute. done.
  - vm_compute. done.
  - vm_compute. reflexivity.
  - done.
  - vm_compute. reflexivity.
  - split_and!; [done| |vm_compute; done]. constructor; [vm_compute; done|done|].
    intros a. change (slots pair_rtti _ 32896) with (@nil Z). by intros ?%not_elem_of_nil.
Qed.

Lemma run_writes : step pair_rtti (λ _, 0) ∅ (mkState [32896] run_immix (with_words run_world (words (w_store run_world))))
  (mkState [32896] run_immix run_rooted).
Proof. by apply (step_outside _ _ _ [32896] run_immix (with_words run_world (words (w_store run_world))) 16 32896). Qed.

Lemma run_ready : heap_inv pair_rtti [32896] run_immix run_rooted → ready pair_rtti [32896] run_immix run_rooted.
Proof.
  intros Hi. constructor; [done|done| |vm_compute; done|by intros [=]|by intros o ?%not_elem_of_nil].
  constructor.
  - intros a Ha. by apply not_elem_of_nil in Ha.
  - intros r ->%list_elem_of_singleton. vm_compute. done.
  - intros r a ->%list_elem_of_singleton Ha. apply elem_of_scan in Ha as [Ha Hm]; [|reflexivity..].
    change (16 <= a < 48) in Ha. assert (Hc : a = 16 ∨ a = 24 ∨ a = 32 ∨ a = 40) by (Z.div_mod_to_equations; lia).
    destruct Hc as [->|[->|[->| ->]]]; (split; [vm_decide|]; split; [split; vm_compute; done|split; vm_compute; done]).
Qed.

Lemma run_collects : heap_inv pair_rtti [32896] run_immix run_rooted →
  ∃ objs' self' w', step pair_rtti (λ _, 0) ∅ (mkState [32896] run_immix run_rooted) (mkState objs' self' w') ∧
    32896 ∈ objs' ∧ im_live_mark self' = true.
Proof.
  intros Hi. destruct (collect_internal_ok pair_rtti (λ _, 0) eq_refl (λ _, Z.le_refl 0) [32896] run_immix run_rooted ∅ false 100 true 16 [])
    as (objs' & self' & w' & E & Hcd); [by apply run_ready|vm_compute; done|].
  exists objs', self', w'. split_and!.
  - eapply (step_collect _ _ _ _ _ _ false 100 true 16 []). econstructor; [left|vm_compute; reflexivity|exact E|apply (cd_inv _ _ _ _ _ _ _ _ Hcd)|].
    + split; [by right|by apply run_ready].
    + intros a. symmetry. apply (hi_starts _ _ _ _ (cd_inv _ _ _ _ _ _ _ _ Hcd)).
  - apply (cd_objs _ _ _ _ _ _ _ _ Hcd). split; [left|]. exists 32896. split; [vm_compute; left|apply rtc_refl].
  - rewrite (cd_mark _ _ _ _ _ _ _ _ Hcd). reflexivity.
Qed.

End Run.

(** ** Properties *)

(** C4: A program keeps the heap in order, in the build without threads: [immix_init]
    succeeds, and every state a program reaches from it by allocating and initialising small
    objects, writing into its objects and outside the heap, registering callbacks, choosing
    statistics and collecting, with the collections that allocations start by themselves,
    satisfies the heap invariant for the objects where they are then: objects never overlap,
    no byte of an object is free for a later allocation, every reference leads to an object,
    and the bitmap has exactly the starts of the objects.
    Which programs: large objects are not allocated; a write into an object leaves it an
    object of its size; and every collection, also that of an allocation, finds the heap
    [collectible], which is up to the program. For a collection that moves nothing (asked
    for without moving while a quarter of the blocks is available or headroom, or an
    emergency without headroom): the ranges it scans are below 2^63 and hold no object, and
    no word in them is the end address of the heap or 8 bytes behind it; precise roots are
    slots outside objects that refer to objects; an object to finalize is reachable, or is
    of a type to be finalized and lies in a block in which a reachable object lies
    (otherwise its header may be gone when it is read); and with verbose statistics the
    count of allocated bytes is no less than the sizes of the objects.
    For one that may move objects: an object that is not pinned and not on the stack is the
    object of at most one precise root, and if of none then at most one reference leads to
    it, as it is copied once for each reference that finds it at its old place; types do not
    depend on addresses or on what references lead to, and visit each slot once, a multiple
    of 8 bytes into the object; precise roots are given once, lie outside the heap and refer
    to objects; the ranges it scans are below 2^63 and hold no object, and no word in them
    is the end address of the heap or 8 bytes behind it; an object to finalize is reachable
    and on the stack or pinned, or it is not reachable, of a type to be finalized, and lies
    in a block that such an object keeps (otherwise it would be finalized alive, or its
    header be gone when it is read); and with verbose statistics the count of allocated
    bytes is no less than the sizes of the objects. *)
Theorem program_keeps_heap `{Cfg} rtti_of freed_size pm map pagesize origin size threshold callback data :
  threaded = false → (∀ p, 0 <= freed_size p) →
  0 <= map → map mod 16 = 0 → 0 <= size → 0 < pagesize → pagesize mod 2048 = 0 →
  map + size + 18 * BLOCK_SIZE + pagesize < 2 ^ 63 →
  ∃ self w, immix_init map pagesize origin size threshold callback data = Ok (self, w) ∧
    ∀ st, rtc (step rtti_of freed_size pm) (mkState [] self w) st →
      heap_inv rtti_of (st_objs st) (st_immix st) (st_world st).
Proof.
  intros Hst Hfs Hm Hal Hs Hp Hpm Hb.
  destruct (init_heap_inv rtti_of map pagesize origin size threshold callback data Hm Hal Hs Hp Hpm Hb) as (self & w & E & Hi & _).
  exists self, w. split; [exact E|]. intros st Hsteps.
  assert (Hgood : good rtti_of st); [|exact Hgood].
  refine (rtc_ind_r (good rtti_of) _ _ _ st Hsteps); [exact Hi|].
  intros y z _ Hyz Hy. by eapply step_good.
Qed.

Lemma program_keeps_heap_witness : let _ : Cfg := false in
  ∃ objs' self' w', rtc (step pair_rtti (λ _, 0) ∅) (mkState [] run_start.1 run_start.2) (mkState objs' self' w') ∧
    32896 ∈ objs' ∧ im_live_mark self' = true ∧ heap_inv pair_rtti objs' self' w'.
Proof.
  intros cfg.
  destruct (program_keeps_heap pair_rtti (λ _, 0) ∅ 28672 4096 48 65536 0 run_callback 0) as (self & w & E & Hall);
    [reflexivity|intros; lia|lia|reflexivity|lia|lia|reflexivity|reflexivity|].
  assert (E1 : self = run_start.1) by (unfold run_start; by rewrite E). assert (E2 : w = run_start.2) by (unfold run_start; by rewrite E).
  subst self w.
  assert (Hpre : rtc (step pair_rtti (λ _, 0) ∅) (mkState [] run_start.1 run_start.2) (mkState [32896] run_immix run_rooted)).
  { eapply rtc_l; [exact run_allocates|apply rtc_once, run_writes]. }
  destruct run_collects as (objs' & self' & w' & Hs & Hin & Hm); [exact (Hall _ Hpre)|].
  assert (Hrun : rtc (step pair_rtti (λ _, 0) ∅) (mkState [] run_start.1 run_start.2) (mkState objs' self' w')) by (eapply rtc_r; [exact Hpre|exact Hs]).
  exists objs', self', w'. split; [exact Hrun|]. split; [exact Hin|]. split; [exact Hm|]. exact (Hall _ Hrun).
Defined.
