(* ===== verification/ThreadHeap.v ===== *)
(** * The heap shared by several threads

    The build with the feature [threaded].  Every registered thread has current blocks
    of its own, and all share the rest of the heap.  [threads_inv] is the invariant
    between the calls of the threads: with the blocks of all threads counted among those
    of the collector the heap is in order, and the free part of a thread's block is
    nobody else's.  [enter] and [leave] go between it and the heap as one thread sees
    it, so that allocations are those of HeapAlloc; a collection takes the blocks of
    all threads and is that of HeapCollect. *)

From stdpp Require Import base numbers list list_numbers gmap relations.
From Stdlib Require Import ZArith Lia.
From S2P Require Import Prelude Util Constants Bitmap Block SpaceBitmap Object BlockAllocator.
From S2P Require Import Allocation AllocatorLaws Allocators ImmixSpace Threads LargeObjectSpace.
From S2P Require Import Collector Sweep Marking Collection Immix Roots Heap HeapCollect HeapAlloc Mutator.
Import CollectorM ImmixHeap.
Import ImmixSpaceM(space_ok(..), free_space, normal_v, overflow_v, evac_v, evac_headroom, available_range,
  so_world, so_normal, so_overflow, so_evac, so_bitmap, covers, held, fields_none).
Local Open Scope Z_scope.

(** What the threads share, and the registered threads; the blocks of a thread are in
    [th_tls], and [th_collecting] is set only while the thread collects. *)
Record HeapState : Type := mkHeap {
  hp_immix : Immix;
  hp_ba : BlockAllocator;
  hp_store : Store;
  hp_threads : list Thread
}.

(** The world in which a thread works, and the one of no thread. *)
Definition view_of (h : HeapState) (t : Thread) : World := mkWorld (hp_ba h) (hp_store h) (th_tls t).
Definition common_world (h : HeapState) : World := mkWorld (hp_ba h) (hp_store h) no_blocks.

Definition owns (ts : list Thread) : list Z := ts ≫= (λ t, tls_blocks (th_tls t)).

(** The heap with blocks given to the collector. *)
Definition give (self : Immix) (bs : list Z) : Immix := set_collector self (extend_all_blocks (im_collector self) bs).

Definition with_tls (t : Thread) (tls : TLSBlocks) : Thread :=
  mkThread (th_collecting t) tls (th_stack_bottom t) (th_stack_end t).

Lemma owns_app l1 l2 : owns (l1 ++ l2) = owns l1 ++ owns l2.
Proof. apply bind_app. Qed.

Lemma owns_split l1 t l2 : owns (l1 ++ t :: l2) ≡ₚ tls_blocks (th_tls t) ++ owns (l1 ++ l2).
Proof. rewrite !owns_app. unfold owns at 2. rewrite bind_cons. fold (owns l2). solve_Permutation. Qed.

(** [kept_ok] in terms of the blocks a thread sees. *)
Lemma kept_ok_held `{Cfg} c sp w : kept_ok c sp w ↔ NoDup (all_blocks c) ∧
  ∀ b, b ∈ all_blocks c → BA.in_range (w_ba w) b ∧ ¬ BA.available (w_ba w) b ∧ ¬ held sp w b.
Proof.
  unfold held. split.
  - intros [K1 K2 K3 K4 K5]. split; [done|]. intros b Hb. destruct (K2 b Hb). split_and!; try done.
    intros [?|[?|?]]; [by apply (K3 b)|by apply (K4 b)|by apply (K5 b)].
  - intros [K1 K2]. constructor; [done|intros b Hb; by destruct (K2 b Hb) as (?&?&?)|..];
      intros b Hb Hv; destruct (K2 b Hb) as (_&_&[]); tauto.
Qed.

Section Views.
Context `{Cfg} (Hth : threaded = true) (rtti_of : Z → GCRTTI).

Record threads_inv (objs : list Z) (h : HeapState) : Prop := {
  ti_heap : heap_inv rtti_of objs (give (hp_immix h) (owns (hp_threads h))) (common_world h);
  ti_tuple : ∀ t tp, t ∈ hp_threads h → tls_current_block (th_tls t) = Some tp ∨ tls_current_ovf_block (th_tls t) = Some tp →
    tuple_ok (common_world h) tp;
  ti_free : ∀ t o x, t ∈ hp_threads h → o ∈ objs → o <= x < o + osize rtti_of (common_world h) o →
    ¬ own_free (view_of h t) x;
  ti_idle : ∀ t, t ∈ hp_threads h → th_collecting t = false
}.

Lemma held_common sp ba s b : held sp (mkWorld ba s no_blocks) b ↔ common sp b.
Proof. rewrite (held_iff Hth). cbn. split; [intros [Hx|?]; [by apply not_elem_of_nil in Hx|done]|by right]. Qed.

Lemma own_threaded w : own w = own_blocks (w_tls w).
Proof. unfold own. by rewrite Hth. Qed.

Lemma object_ok_store objs w w' o : w_store w' = w_store w → object_ok rtti_of objs w o → object_ok rtti_of objs w' o.
Proof. destruct w, w'. cbn. intros ->. by intros []. Qed.

(** The heap as thread [t] sees it, with the blocks of the others given away. *)
Lemma enter objs self ba s l1 t l2 : let h := mkHeap self ba s (l1 ++ t :: l2) in
  threads_inv objs h → heap_inv rtti_of objs (give self (owns (l1 ++ l2))) (view_of h t).
Proof.
  intros h [Hi Ht Hf _]. pose proof Hi as [Hsp Hke Hfi Hhe Hal Hnd Hhd Hob Hpl Hap Hnf Hst Hla Hfz Hhi].
  apply kept_ok_held in Hke as [K1 K2]. cbn [h hp_threads hp_immix give set_collector im_collector extend_all_blocks all_blocks im_immix] in *.
  pose proof (owns_split l1 t l2) as Hperm.
  assert (Hmem : ∀ b, b ∈ tls_blocks (th_tls t) ∨ b ∈ all_blocks (im_collector self) ++ owns (l1 ++ l2) →
    BA.in_range ba b ∧ ¬ BA.available ba b ∧ ¬ common (im_immix self) b).
  { intros b Hb. rewrite <- (held_common _ ba s). apply K2. rewrite Hperm, !elem_of_app. rewrite elem_of_app in Hb. tauto. }
  assert (Hnd2 : NoDup (tls_blocks (th_tls t) ++ all_blocks (im_collector self) ++ owns (l1 ++ l2))).
  { rewrite Hperm in K1. by rewrite Permutation_app_swap_app. }
  apply NoDup_app in Hnd2 as (N1 & N2 & N3).
  assert (Hhb : ∀ b, b ∈ heap_blocks (give self (owns (l1 ++ t :: l2))) (common_world h) →
    b ∈ heap_blocks (give self (owns (l1 ++ l2))) (view_of h t)).
  { intros b. unfold heap_blocks. rewrite !own_threaded.
    cbn [give set_collector im_collector extend_all_blocks all_blocks im_immix w_tls view_of common_world].
    change (own_blocks no_blocks) with (@nil Z). change (own_blocks (th_tls t)) with (tls_blocks (th_tls t)).
    rewrite Hperm, !elem_of_app. rewrite elem_of_nil. tauto. }
  constructor; try exact Hhe; try exact Hal; try exact Hnd; try exact Hhd; try exact Hap; try exact Hst; try exact Hla; try exact Hfz; try exact Hhi.
  - apply (space_ok_other Hth _ (common_world h)); [exact Hsp| |exact N1|].
    + intros tp Htp. apply (Ht t); [apply elem_of_app; right; left|done].
    + intros b Hb. destruct (Hmem b) as (? & ? & ?); [by left|done].
  - apply kept_ok_held. split; [exact N3|]. intros b Hb. destruct (Hmem b) as (? & ? & ?); [by right|].
    split_and!; [done|done|]. rewrite (held_iff Hth). intros [Ho|?]; [|done]. by apply (N2 b).
  - exact Hfi.
  - intros o Ho. by apply (object_ok_store objs (common_world h)), Hob.
  - intros o Ho. destruct (Hpl o Ho) as (Hb & P). split; [by apply Hhb|exact P].
  - intros o x Ho Hx. rewrite (free_split Hth). intros [Hown|Hcom].
    + eapply Hf; [|exact Ho|exact Hx|exact Hown]. apply elem_of_app. right. left.
    + apply (Hnf o x Ho Hx). apply (free_split Hth). by right.
Qed.

(** Back from what thread [t] has done, with the blocks it has now. *)
Lemma leave objs self w l1 t l2 : heap_inv rtti_of objs (give self (owns (l1 ++ l2))) w →
  (∀ u tp, u ∈ l1 ++ l2 → tls_current_block (th_tls u) = Some tp ∨ tls_current_ovf_block (th_tls u) = Some tp → tuple_ok w tp) →
  (∀ u o x, u ∈ l1 ++ l2 → o ∈ objs → o <= x < o + osize rtti_of w o → ¬ own_free (mkWorld (w_ba w) (w_store w) (th_tls u)) x) →
  (∀ u, u ∈ l1 ++ l2 → th_collecting u = false) → th_tls t = w_tls w → th_collecting t = false →
  threads_inv objs (mkHeap self (w_ba w) (w_store w) (l1 ++ t :: l2)).
Proof.
  intros Hi Ht Hf Hid Etls Eid. pose proof Hi as [Hsp Hke Hfi Hhe Hal Hnd Hhd Hob Hpl Hap Hnf Hst Hla Hfz Hhi].
  apply kept_ok_held in Hke as [K1 K2]. cbn [give set_collector im_collector extend_all_blocks all_blocks im_immix] in *.
  pose proof (owns_split l1 t l2) as Hperm. rewrite Etls in Hperm. change (tls_blocks (w_tls w)) with (own_blocks (w_tls w)) in Hperm.
  destruct (own_shape Hth _ _ Hsp) as [N1 Hown].
  assert (Hsplit : ∀ u, u ∈ l1 ++ t :: l2 ↔ u = t ∨ u ∈ l1 ++ l2) by (intros u; rewrite !elem_of_app, elem_of_cons; tauto).
  assert (Hblk : ∀ b, b ∈ own_blocks (w_tls w) ∨ b ∈ all_blocks (im_collector self) ++ owns (l1 ++ l2) →
    BA.in_range (w_ba w) b ∧ ¬ BA.available (w_ba w) b ∧ ¬ common (im_immix self) b).
  { intros b [Hb|Hb].
    - destruct (own_facts Hth _ _ b Hsp Hb) as (? & ? & ?). done.
    - destruct (K2 b Hb) as (? & ? & Hnh). split_and!; try done. intros Hc. apply Hnh. apply (held_iff Hth). by right. }
  constructor; cbn [hp_threads hp_immix hp_ba hp_store common_world].
  - constructor; try exact Hhe; try exact Hal; try exact Hnd; try exact Hhd; try exact Hap; try exact Hst; try exact Hla; try exact Hfz; try exact Hhi.
    + apply (space_ok_other Hth _ w); [exact Hsp|by intros tp [?|?]|constructor|]. intros b Hb. by apply not_elem_of_nil in Hb.
    + apply kept_ok_held. cbn [give set_collector im_collector extend_all_blocks all_blocks im_immix]. split.
      * rewrite Hperm.
        assert (Hnd2 : NoDup (own_blocks (w_tls w) ++ all_blocks (im_collector self) ++ owns (l1 ++ l2))).
        { apply NoDup_app. split_and!; [done| |done]. intros b Hb Hc. destruct (K2 b Hc) as (_ & _ & []). by apply own_held. }
        by rewrite Permutation_app_swap_app.
      * intros b. rewrite Hperm, !elem_of_app. intros Hb. unfold common_world. rewrite held_common. apply Hblk. rewrite elem_of_app. tauto.
    + exact Hfi.
    + intros o Ho. by apply (object_ok_store objs w), Hob.
    + intros o Ho. destruct (Hpl o Ho) as (Hb & P). split; [|exact P]. revert Hb.
      unfold heap_blocks. rewrite !own_threaded.
      cbn [give set_collector im_collector extend_all_blocks all_blocks im_immix w_tls common_world].
      change (own_blocks no_blocks) with (@nil Z). rewrite Hperm, !elem_of_app, elem_of_nil. tauto.
    + intros o x Ho Hx. rewrite (free_split Hth). intros [(b & lo & hi & [[=]|[=]] & _)|Hcom].
      apply (Hnf o x Ho Hx). apply (free_split Hth). by right.
  - intros u tp [->|Hu]%Hsplit Htp; [|by apply (Ht u)]. rewrite Etls in Htp. exact (Hown tp Htp).
  - intros u o x [->|Hu]%Hsplit Ho Hx; [|by apply Hf with (o := o)].
    intros Hfr. apply (Hnf o x Ho Hx). apply (free_split Hth). left. unfold view_of in Hfr. rewrite Etls in Hfr. exact Hfr.
  - intros u [->|Hu]%Hsplit; [done|by apply Hid].
Qed.

End Views.

(** ** Allocation by one of the threads *)

Section Operations.
Context `{Cfg} (Hth : threaded = true) (rtti_of : Z → GCRTTI) (freed_size : Z → Z) (pm : pmem).

(** The registered threads while [t] is in a call. *)
Definition calling (t : Thread) : Thread := mkThread true (th_tls t) (th_stack_bottom t) (th_stack_end t).
Definition idle (t : Thread) : Thread := mkThread false (th_tls t) (th_stack_bottom t) (th_stack_end t).

Lemma finish_collector self c w p size rtti : finish rtti_of (set_collector self c) w p size rtti =
  ('(self', w') ← finish rtti_of self w p size rtti; Ok (set_collector self' c, w')).
Proof.
  unfold finish. cbn [im_allocated im_live_mark set_collector].
  destruct (if threaded then _ else _) as [a| |]; [|done..]. cbn.
  destruct (RawGc.mark _ _) as [[r hd]| |]; [|done..]. cbn. by destruct (RawGc.vtable hd).
Qed.

(** Without a collection the collector takes no part. *)
Lemma allocate_collector fuel env threads self c w size rtti p sp1 w1 r : im_allocated self < im_threshold self →
  0 < size <= LARGE_OBJECT - 16 → ImmixSpaceM.allocate (im_immix self) w (round16 size) = Ok (p, sp1, w1) → p ≠ 0 →
  allocate rtti_of freed_size fuel env threads self w pm size rtti = Ok r →
  let '(p', self', w', pm', threads', fins) := r in
  allocate rtti_of freed_size fuel env threads (set_collector self c) w pm size rtti =
    Ok (p', set_collector self' c, w', pm', threads', fins).
Proof.
  intros Ha Hs E Hp. unfold LARGE_OBJECT in Hs. pose proof (Rounding.ceil_div_bounds size 16 ltac:(lia)) as Hc.
  unfold allocate. rewrite !decide_False by (cbn; lia). rewrite !bind_Ok.
  rewrite Rounding.align_usize_ok, !bind_Ok by lia. fold (round16 size). unfold obtain.
  rewrite !(decide_False (P := LARGE_OBJECT <= _)) by (unfold LARGE_OBJECT, round16; lia).
  cbn [im_immix set_stack_end set_collector]. rewrite E, !bind_Ok. unfold Address.is_null.
  rewrite (bool_decide_eq_false_2 (p = 0)) by done. rewrite !bind_Ok, !(decide_False (P := p = 0 ∧ _)) by tauto.
  change (set_immix (set_stack_end (set_collector self c) (e_sp env)) sp1)
    with (set_collector (set_immix (set_stack_end self (e_sp env)) sp1) c).
  rewrite finish_collector. destruct (finish _ _ _ _ _ _) as [[self' w']| |]; [|discriminate..].
  rewrite !bind_Ok. by intros [= <-].
Qed.

(** A free byte of a thread is in a block of its own. *)
Lemma own_free_other objs h l1 t l2 u x : threads_inv rtti_of objs h → hp_threads h = l1 ++ t :: l2 → u ∈ l1 ++ l2 →
  own_free (view_of h u) x → ¬ free_space (im_immix (hp_immix h)) (view_of h t) x.
Proof.
  destruct h as [self ba s ts]. cbn. intros Hti -> Hu (b & lo & hi & E & Hs) Hft.
  pose proof (enter Hth rtti_of objs self ba s l1 t l2 Hti) as Ht. pose proof (hi_space _ _ _ _ Ht) as Hsp.
  assert (Hb : b ∈ owns (l1 ++ l2)).
  { apply list_elem_of_bind. exists u. split; [|done]. unfold tls_blocks. rewrite elem_of_app.
    destruct E as [E|E]; cbn in E; rewrite E; cbn; [left|right]; left. }
  pose proof (proj1 (kept_ok_held _ _ _) (hi_kept _ _ _ _ Ht)) as [_ K2].
  destruct (K2 b) as ((Hba & _) & Hna & Hnh); [apply elem_of_app; by right|].
  assert (Hlo : 128 <= lo).
  { destruct (ti_tuple _ _ _ Hti u (b, lo, hi)) as [? _]; [|exact E|lia].
    cbn. rewrite !elem_of_app, elem_of_cons. rewrite elem_of_app in Hu. tauto. }
  destruct (free_space_block _ _ x Hsp Hft) as (c & Hc & (Hca & _) & Hcs). consts.
  assert (b = c) as -> by (eapply (span_block _ _ b c lo 128); [lia|lia|exact Hba|exact Hca|exact Hs|exact Hcs]).
  by destruct Hc.
Qed.

(** What [allocate] of one thread does to the heap of all. *)
Lemma thread_allocates fuel env objs self ba s l1 t l2 size rtti p sp1 w1 self' w' : let h := mkHeap self ba s (l1 ++ t :: l2) in
  threads_inv rtti_of objs h →
  0 <= im_allocated self < im_threshold self → im_allocated self <= 2 ^ 63 → 0 < size <= LARGE_OBJECT - 16 →
  in_width 64 rtti → rtti mod 8 = 0 → rtti ≠ 0 →
  ImmixSpaceM.allocate (im_immix self) (view_of h t) (round16 size) = Ok (p, sp1, w1) → p ≠ 0 →
  allocate rtti_of freed_size fuel env (l1 ++ calling t :: l2) self (view_of h t) pm size rtti =
    Ok (p, self', w', pm, l1 ++ calling t :: l2, []) →
  ∀ ws, initialises rtti_of objs w' p (round16 size) ws →
  threads_inv rtti_of (p :: objs) (mkHeap self' (w_ba w') (mkStore (headers (w_store w')) ws) (l1 ++ with_tls t (w_tls w') :: l2)).
Proof.
  intros h Hti Ha Ht Hs Hr1 Hr2 Hr3 Es Hp E ws (I1 & I2 & I3).
  pose proof (enter Hth rtti_of objs self ba s l1 t l2 Hti) as Hi. set (selfg := give self (owns (l1 ++ l2))) in *.
  destruct (allocate_below rtti_of freed_size fuel env (l1 ++ calling t :: l2) objs selfg (view_of h t) pm size rtti Hi Ha Ht Hs Hr1 Hr2 Hr3)
    as [(p2 & self2 & w2 & E2 & Hal)|(sp2 & w2 & E2 & _)];
    [|change (im_immix selfg) with (im_immix self) in E2; rewrite Es in E2; by injection E2 as ->].
  pose proof (allocate_collector fuel env _ selfg (im_collector self) (view_of h t) size rtti p sp1 w1 _ ltac:(apply Ha) Hs Es Hp E2) as E3.
  assert (set_collector selfg (im_collector self) = self) as Eself by (by destruct self). rewrite Eself, E in E3. injection E3 as <- -> <-.
  pose proof (al_inv _ _ _ _ _ _ _ _ _ Hal ws I1 I2 I3) as Hi'. set (w2 := with_words w' ws) in *.
  assert (Eg : give (set_collector self2 (im_collector self)) (owns (l1 ++ l2)) = self2).
  { unfold give. cbn. change (extend_all_blocks (im_collector self) (owns (l1 ++ l2))) with (im_collector selfg).
    rewrite <- (al_collector _ _ _ _ _ _ _ _ _ Hal). by destruct self2. }
  assert (Hin : ∀ u, u ∈ l1 ++ l2 → u ∈ l1 ++ t :: l2) by (intros u; rewrite !elem_of_app, elem_of_cons; tauto).
  assert (Hof : ∀ u x, own_free (mkWorld (w_ba w2) (w_store w2) (th_tls u)) x → own_free (view_of h u) x).
  { intros u x (b & lo & hi & Hb & Hsp & Hl). exists b, lo, hi. split; [done|]. split; [done|]. intros l Hll.
    rewrite <- (Hl l Hll). symmetry. apply (al_lines _ _ _ _ _ _ _ _ _ Hal). }
  apply (leave Hth rtti_of (p :: objs) _ w2 l1 (with_tls t (w_tls w')) l2).
  - by rewrite Eg.
  - intros u tp Hu Htp. apply (tuple_ok_lines (common_world h)); [apply (al_lines _ _ _ _ _ _ _ _ _ Hal)|].
    apply (ti_tuple _ _ _ Hti u); [by apply Hin|done].
  - intros u o x Hu Ho Hx Hfr%Hof. apply elem_of_cons in Ho as [->|Ho].
    + assert (Hx2 : p <= x < p + round16 size) by lia.
      pose proof (al_fresh _ _ _ _ _ _ _ _ _ Hal x Hx2) as Hft.
      by eapply (own_free_other objs h l1 t l2 u x Hti).
    + apply (ti_free _ _ _ Hti u o x (Hin u Hu) Ho); [|done].
      assert (Eos : osize rtti_of w2 o = osize rtti_of (common_world h) o); [|lia].
      eapply (agree_facts rtti_of objs (common_world h)); [by apply (hi_object _ _ _ _ (ti_heap _ _ _ Hti))|].
      pose proof (osize_ge _ _ _ _ (hi_object _ _ _ _ (ti_heap _ _ _ Hti) o Ho)) as [? _].
      assert (Hsame : ∀ a, o <= a < o + osize rtti_of (common_world h) o → word (w_store w2) a = word s a).
      { intros a Haa. pose proof (al_apart _ _ _ _ _ _ _ _ _ Hal o Ho) as Hap.
        change (osize rtti_of (view_of h t) o) with (osize rtti_of (common_world h) o) in Hap.
        etrans; [apply I1; lia|]. apply (al_words _ _ _ _ _ _ _ _ _ Hal). unfold LARGE_OBJECT in Hs. pose proof (Rounding.ceil_div_bounds size 16 ltac:(lia)).
        unfold round16 in Hap. lia. }
      split; [unfold vtable_of; cbn; by rewrite Hsame by lia|]. intros a Haa. apply Hsame. lia.
  - intros u Hu. by apply (ti_idle _ _ _ Hti), Hin.
  - done.
  - apply (ti_idle _ _ _ Hti t). apply elem_of_app. right. left.
Qed.

End Operations.
