(* ===== verification/ThreadCollect.v ===== *)
(** * Collections of a threaded program

    One of the registered threads collects while the others are stopped: it scans the
    stacks of all, takes their blocks and reclaims what is not reachable.  Here is that
    such a collection keeps [threads_inv], and with it every run of a program of several
    threads: a transition system whose steps are the calls of its threads in any order. *)

From stdpp Require Import base numbers list list_numbers gmap relations.
From Stdlib Require Import ZArith Lia.
From S2P Require Import Prelude Util Constants Bitmap Block SpaceBitmap Object BlockAllocator.
From S2P Require Import Allocation AllocatorLaws Allocators ImmixSpace Threads LargeObjectSpace.
From S2P Require Import Collector Sweep Marking Collection Immix Roots Heap HeapCollect EvacHeap HeapAlloc HeapEmergency Mutator ThreadHeap.
Import CollectorM ImmixHeap.
Local Open Scope Z_scope.

(** ** The scans do not look at the blocks of threads *)

Definition set_tls (w : World) (tls : TLSBlocks) : World := mkWorld (w_ba w) (w_store w) tls.

(** A result with other blocks. *)
Definition map_tls (tls : TLSBlocks) (r : R (list Z * World)) : R (list Z * World) :=
  '(roots, w) ← r; Ok (roots, set_tls w tls).

Section Tls.
Context (sp : ImmixSpace) (los : LargeObjectSpace) (pm : pmem) (tls : TLSBlocks).

Lemma pin_at_tls w p : pin_at (set_tls w tls) p = (w' ← pin_at w p; Ok (set_tls w' tls)).
Proof. unfold pin_at. cbn. by destruct (RawGc.pin _). Qed.

Lemma filter_root_tls roots w ptr : filter_root sp (roots, set_tls w tls) ptr = map_tls tls (filter_root sp (roots, w) ptr).
Proof.
  unfold filter_root. change (ImmixSpaceM.filter sp (set_tls w tls) ptr) with (ImmixSpaceM.filter sp w ptr).
  destruct (ImmixSpaceM.filter sp w ptr) as [[p|]| |]; [|done..]. rewrite !bind_Ok, pin_at_tls. by destruct (pin_at w p).
Qed.

Lemma scan_word_tls roots w a : scan_word sp los pm (roots, set_tls w tls) a = map_tls tls (scan_word sp los pm (roots, w) a).
Proof.
  unfold scan_word. cbn [w_store set_tls]. case_decide; [done|].
  destruct (if Precise.is_precise _ then _ else _) as [[]| |]; [..|done|done]; rewrite !bind_Ok.
  - rewrite pin_at_tls. by destruct (pin_at w _).
  - rewrite filter_root_tls. destruct (filter_root sp (roots, w) _) as [[r1 w1]| |]; [|done..].
    unfold map_tls at 1. rewrite !bind_Ok. apply filter_root_tls.
Qed.

Lemma scan_tls l roots w : for_each (scan_word sp los pm) l (roots, set_tls w tls) =
  map_tls tls (for_each (scan_word sp los pm) l (roots, w)).
Proof.
  revert roots w. induction l as [|a l IH]; intros roots w; [done|]. cbn [for_each]. rewrite scan_word_tls.
  destruct (scan_word _ _ _ (roots, w) a) as [[r1 w1]| |]; [|done..]. unfold map_tls at 1. rewrite !bind_Ok. apply IH.
Qed.

Lemma collect_roots_tls f t roots w : collect_roots sp los pm f t (roots, set_tls w tls) =
  map_tls tls (collect_roots sp los pm f t (roots, w)).
Proof.
  unfold collect_roots. destruct (Rounding.align_usize f 16) as [lo| |]; [|done..]. rewrite !bind_Ok.
  destruct (Rounding.align_usize t 16) as [hi| |]; [|done..]. rewrite !bind_Ok.
  case_decide; [done|]. case_decide; apply scan_tls.
Qed.

End Tls.

Section Collect.
Context `{Cfg} (Hth : threaded = true) (rtti_of : Z → GCRTTI) (freed_size : Z → Z) (Hfs : ∀ p, 0 <= freed_size p) (pm : pmem).

(** The part of a stack that is scanned. *)
Definition stack_range (t : Thread) : Z * Z := (th_stack_bottom t, th_stack_end t).
Definition stopped (t : Thread) : Thread := mkThread (th_collecting t) no_blocks (th_stack_bottom t) (th_stack_end t).

(** ** The loop over the threads *)

Section Loop.
Context (objs : list Z) (self : Immix) (wp : World) (rs : list (Z * Z)).
Context (Hpk : parked wp = wp) (Hi : heap_inv rtti_of objs self wp) (Hro : rooted objs self wp rs).

Lemma thread_scan_ok t tls roots w1 blocks done : stack_range t ∈ rs → pinned objs wp roots w1 →
  let '(taken, tls') := if th_collecting t then (tls_blocks tls, no_blocks) else (tls_blocks (th_tls t), tls) in
  ∃ w2, thread_roots (emptied (im_immix self)) (im_los self) pm (roots, set_tls w1 tls, blocks, done) t =
      Ok (roots ++ range_roots self wp (stack_range t), set_tls w2 tls', blocks ++ taken, done ++ [stopped t]) ∧
    pinned objs wp (roots ++ range_roots self wp (stack_range t)) w2.
Proof.
  intros Hr Hp. destruct (collect_range_ok rtti_of pm objs self wp rs Hpk Hi Hro _ _ roots w1 Hr Hp) as (w2 & E & Hp2).
  destruct (th_collecting t) eqn:Ec; exists w2; (split; [|exact Hp2]); unfold thread_roots; rewrite Ec.
  - change (mkWorld (w_ba (set_tls w1 tls)) (w_store (set_tls w1 tls)) no_blocks) with (set_tls w1 no_blocks).
    rewrite collect_roots_tls, E. unfold map_tls. rewrite !bind_Ok. unfold stopped. by rewrite Ec.
  - rewrite collect_roots_tls, E. unfold map_tls. rewrite !bind_Ok. unfold stopped. by rewrite Ec.
Qed.

(** Threads that do not collect give up their blocks. *)
Lemma idle_scans_ok l tls roots w1 blocks done : (∀ t, t ∈ l → th_collecting t = false ∧ stack_range t ∈ rs) →
  pinned objs wp roots w1 →
  ∃ w2, for_each (thread_roots (emptied (im_immix self)) (im_los self) pm) l (roots, set_tls w1 tls, blocks, done) =
      Ok (roots ++ roots_in self wp (stack_range <$> l), set_tls w2 tls, blocks ++ owns l, done ++ (stopped <$> l)) ∧
    pinned objs wp (roots ++ roots_in self wp (stack_range <$> l)) w2.
Proof.
  revert roots w1 blocks done. induction l as [|t l IH]; intros roots w1 blocks done Hl Hp.
  { exists w1. cbn. by rewrite !app_nil_r. }
  destruct (Hl t ltac:(left)) as [Ei Hr]. pose proof (thread_scan_ok t tls roots w1 blocks done Hr Hp) as Ht. rewrite Ei in Ht.
  destruct Ht as (w2 & E & Hp2). cbn [for_each]. rewrite E, bind_Ok.
  destruct (IH _ w2 (blocks ++ tls_blocks (th_tls t)) (done ++ [stopped t]) ltac:(intros; apply Hl; by right) Hp2) as (w3 & E3 & Hp3).
  exists w3. unfold roots_in, owns in *. rewrite fmap_cons, !bind_cons, !app_assoc. split; [|exact Hp3].
  rewrite E3. by rewrite <- (app_assoc done).
Qed.

(** All of them, with [t] the one that collects. *)
Lemma all_scans_ok l1 t l2 : (∀ u, u ∈ l1 ++ l2 → th_collecting u = false) → th_collecting t = true →
  (∀ u, u ∈ l1 ++ t :: l2 → stack_range u ∈ rs) → ∀ tls blocks, ∃ w2,
  for_each (thread_roots (emptied (im_immix self)) (im_los self) pm) (l1 ++ t :: l2) ([], set_tls wp tls, blocks, []) =
    Ok (roots_in self wp (stack_range <$> l1 ++ t :: l2), set_tls w2 no_blocks,
        blocks ++ owns l1 ++ tls_blocks tls ++ owns l2, stopped <$> l1 ++ t :: l2) ∧
  pinned objs wp (roots_in self wp (stack_range <$> l1 ++ t :: l2)) w2.
Proof.
  intros Hid Et Hr tls blocks. rewrite for_each_app.
  destruct (idle_scans_ok l1 tls [] wp blocks []) as (w1 & -> & Hp1).
  { intros u Hu. split; [apply Hid|apply Hr]; rewrite elem_of_app; by left. }
  { by apply (scan_start rtti_of pm objs self wp Hpk Hi). }
  rewrite bind_Ok. cbn [for_each]. pose proof (thread_scan_ok t tls _ w1 (blocks ++ owns l1) ([] ++ (stopped <$> l1))
    (Hr t ltac:(rewrite elem_of_app; right; left)) Hp1) as Ht. rewrite Et in Ht. destruct Ht as (w2 & -> & Hp2). rewrite bind_Ok.
  assert (Hl2 : ∀ u, u ∈ l2 → th_collecting u = false ∧ stack_range u ∈ rs).
  { intros u Hu. split; [apply Hid; rewrite elem_of_app; by right|apply Hr; rewrite elem_of_app; right; by right]. }
  destruct (idle_scans_ok l2 no_blocks _ w2 ((blocks ++ owns l1) ++ tls_blocks tls) (([] ++ (stopped <$> l1)) ++ [stopped t]) Hl2 Hp2)
    as (w3 & E3 & Hp3).
  assert (Er : roots_in self wp (stack_range <$> l1 ++ t :: l2) = (([] ++ roots_in self wp (stack_range <$> l1)) ++
    range_roots self wp (stack_range t)) ++ roots_in self wp (stack_range <$> l2)).
  { unfold roots_in. by rewrite fmap_app, bind_app, fmap_cons, bind_cons, app_nil_l, app_assoc. }
  exists w3. rewrite Er. split; [|exact Hp3]. rewrite E3, fmap_app, fmap_cons, app_nil_l. by rewrite <- !app_assoc.
Qed.

End Loop.

(** ** A whole collection *)

(** The thread that collects, with its stack up to [sp]. *)
Definition collecting_at (t : Thread) (sp : Z) : Thread := mkThread true (th_tls t) (th_stack_bottom t) sp.

(** The stacks of all threads, then the ranges of the callbacks. *)
Definition thread_ranges (self : Immix) (s : Store) (threads : list Thread) : list (Z * Z) :=
  (stack_range <$> threads) ++ (callback_roots (words s) (im_callbacks self)).2.

(** The threads of a heap ready for a collection by [t]: the others are stopped.  The
    collection is one [t] asks for, or one of an allocation. *)
Definition ready_threads (objs : list Z) (self : Immix) (ba : BlockAllocator) (s : Store) (l1 : list Thread) (t : Thread)
    (l2 : list Thread) (sp : Z) (emergency : bool) : Prop :=
  ready_for rtti_of objs (give self (owns (l1 ++ t :: l2))) (mkWorld ba s no_blocks)
    (thread_ranges self s (l1 ++ collecting_at t sp :: l2)) emergency.

Definition thread_roots_from (self : Immix) (ba : BlockAllocator) (s : Store) (l1 : list Thread) (t : Thread) (l2 : list Thread)
    (sp : Z) : list Z :=
  roots_from (give self (owns (l1 ++ t :: l2))) (mkWorld ba s no_blocks) (thread_ranges self s (l1 ++ collecting_at t sp :: l2)).

(** The threads after a collection. *)
Definition released (threads : list Thread) : list Thread := idle <$> (stopped <$> threads).

Lemma owns_released l : owns (released l) = [].
Proof. induction l as [|t l IH]; [done|]. exact IH. Qed.

Lemma elem_of_released t l : t ∈ released l → th_tls t = no_blocks ∧ th_collecting t = false.
Proof. by intros (u & -> & (v & -> & _)%list_elem_of_fmap)%list_elem_of_fmap. Qed.

Lemma give_nothing self : give self [] = self.
Proof. destruct self as [? ? ? ? ? ? ? ? ? [b h] ?]. unfold give, set_collector, extend_all_blocks. cbn. by rewrite app_nil_r. Qed.

(** With no blocks left the heap of the threads is that of none. *)
Lemma released_inv objs self w l : heap_inv rtti_of objs self w → w_tls w = no_blocks →
  threads_inv rtti_of objs (mkHeap self (w_ba w) (w_store w) (released l)).
Proof.
  intros Hi Et. constructor; cbn [hp_threads hp_immix].
  - rewrite owns_released, give_nothing. unfold common_world. cbn. rewrite <- Et. by destruct w.
  - intros t tp [Ht _]%elem_of_released. rewrite Ht. by intros [E|E].
  - intros t o x [Ht _]%elem_of_released _ _ (b & lo & hi & E & _). unfold view_of in E. rewrite Ht in E. by destruct E.
  - by intros t [_ Ht]%elem_of_released.
Qed.

(** [collect_internal] is the scans of all stacks, then those of the ranges of the
    callbacks, and [collect_rooted]. *)
Section Internal.
Context (objs : list Z) (self : Immix) (ba : BlockAllocator) (s : Store) (l1 : list Thread) (t : Thread) (l2 : list Thread) (sp : Z).

Abbreviation h := (mkHeap self ba s (l1 ++ t :: l2)).
Abbreviation selfg := (give self (owns (l1 ++ t :: l2))).
Abbreviation wp := (mkWorld ba s no_blocks).
Abbreviation ts := (l1 ++ collecting_at t sp :: l2).
Abbreviation rs := (thread_ranges self s ts).
Abbreviation blocks := (taken (im_immix self) ++ owns l1 ++ tls_blocks (th_tls t) ++ owns l2).

Lemma threads_blocks : all_blocks (im_collector self) ++ blocks ≡ₚ heap_blocks selfg wp.
Proof.
  unfold heap_blocks, own. rewrite Hth. change (tls_blocks (w_tls wp)) with (@nil Z).
  cbn [give set_collector im_collector extend_all_blocks all_blocks im_immix].
  rewrite owns_app. change (owns (t :: l2)) with (tls_blocks (th_tls t) ++ owns l2). solve_Permutation.
Qed.

Lemma threads_internal ev em fuel : threads_inv rtti_of objs h → parked wp = wp → heap_inv rtti_of objs selfg wp → rooted objs selfg wp rs →
  ∃ w3, pinned objs wp (roots_in selfg wp rs) w3 ∧
  ∀ self' w' fins, collect_rooted rtti_of freed_size fuel (set_collector selfg (im_collector self)) pm ev em (precise_roots selfg wp)
      (emptied (im_immix selfg)) blocks (roots_in selfg wp rs) w3 = Ok (self', w', pm, fins) →
    collect_internal rtti_of freed_size fuel true sp (l1 ++ calling t :: l2) self (view_of h t) pm ev em =
      Ok (self', w', pm, stopped <$> ts, fins).
Proof.
  intros Hti Hpk Hi Hro.
  assert (Hid : ∀ u, u ∈ l1 ++ l2 → th_collecting u = false).
  { intros u Hu. apply (ti_idle _ _ _ Hti). cbn. rewrite !elem_of_app, elem_of_cons in *. tauto. }
  assert (Hin : ∀ u, u ∈ ts → stack_range u ∈ rs).
  { intros u Hu. unfold thread_ranges. rewrite elem_of_app. left. by apply list_elem_of_fmap_2. }
  destruct (all_scans_ok objs selfg wp rs Hpk Hi Hro l1 (collecting_at t sp) l2 Hid eq_refl Hin (th_tls t) (taken (im_immix self)))
    as (w1 & Es1 & Hp1).
  assert (Hcr : ∀ r, r ∈ (callback_roots (words s) (im_callbacks self)).2 → r ∈ rs).
  { intros r Hrr. unfold thread_ranges. rewrite elem_of_app. by right. }
  destruct (collect_ranges_ok rtti_of pm objs selfg wp rs Hpk Hi Hro _ _ w1 Hcr Hp1) as (w3 & Es2 & Hp3).
  assert (Er : roots_in selfg wp (stack_range <$> ts) ++ roots_in selfg wp (callback_roots (words s) (im_callbacks self)).2 = roots_in selfg wp rs).
  { unfold thread_ranges, roots_in. by rewrite bind_app. }
  rewrite Er in Es2, Hp3. exists w3. split; [exact Hp3|]. intros self' w' fins Ec.
  assert (Ew1 : set_tls w1 no_blocks = w1) by (rewrite (pi_world _ _ _ _ Hp1); done). rewrite Ew1 in Es1.
  assert (set_collector selfg (im_collector self) = self) as Eself by (by destruct self). rewrite Eself in Ec.
  unfold collect_internal. rewrite Hth. cbn [andb negb].
  assert (Et0 : (λ u, if th_collecting u then mkThread true (th_tls u) (th_stack_bottom u) sp else u) <$> (l1 ++ calling t :: l2) = ts).
  { rewrite fmap_app, fmap_cons. cbn. f_equal; [|f_equal]; (etrans; [apply fmap_ext_in|apply list_fmap_id]);
      intros u Hu; (rewrite Hid; [done|]); rewrite elem_of_app; tauto. }
  rewrite Et0. clear Et0. change (view_of h t) with (set_tls wp (th_tls t)). unfold precise_roots in Ec.
  change (w_store (set_tls wp (th_tls t))) with s. change (w_store wp) with s in Ec. change (im_callbacks selfg) with (im_callbacks self) in Ec.
  destruct (callback_roots (words s) (im_callbacks self)) as [pr cr]. cbn [fst snd] in Ec, Es2.
  unfold taken, emptied in *. change (im_immix selfg) with (im_immix self) in *. change (im_los selfg) with (im_los self) in *.
  destruct (ImmixSpaceM.get_all_blocks (im_immix self)) as [bs sp1]. cbn [fst snd] in *.
  rewrite Es1, bind_Ok, Es2, !bind_Ok. by rewrite Ec, bind_Ok.
Qed.

Lemma threads_collect_ok emergency fuel : threads_inv rtti_of objs h → ready_threads objs self ba s l1 t l2 sp emergency →
  rounds_bound rtti_of objs selfg wp rs < Z.of_nat fuel →
  ∃ objs' self' w',
    collect_internal rtti_of freed_size fuel true sp (l1 ++ calling t :: l2) self (view_of h t) pm false emergency =
      Ok (self', w', pm, stopped <$> ts, finalized rtti_of self wp objs') ∧
    collected rtti_of objs selfg wp rs objs' self' w' ∧ w_tls w' = no_blocks.
Proof.
  intros Hti Hr Hf. pose proof Hr as [Hpk Hi Hro _ _ _]. destruct (threads_internal false emergency fuel Hti Hpk Hi Hro) as (w3 & Hp & Hint).
  destruct (collect_rooted_ok rtti_of freed_size Hfs objs selfg wp pm rs emergency _ _ w3 fuel threads_blocks Hr Hp Hf) as (objs' & self' & w' & Ec & Hcd & Et).
  exists objs', self', w'. split; [by apply Hint|done].
Qed.

(** A collection of either kind. *)
Lemma threads_collectible_ok ev em fuel : threads_inv rtti_of objs h → collectible rtti_of objs selfg wp rs ev em →
  rounds_bound rtti_of objs selfg wp rs < Z.of_nat fuel →
  ∃ objs' self' w',
    collect_internal rtti_of freed_size fuel true sp (l1 ++ calling t :: l2) self (view_of h t) pm ev em =
      Ok (self', w', pm, stopped <$> ts, finalized rtti_of self wp objs') ∧
    heap_inv rtti_of objs' self' w' ∧ w_tls w' = no_blocks ∧
    (0 < im_threshold self → 0 <= im_allocated self' < im_threshold self' ∧ im_allocated self' <= 2 ^ 63).
Proof.
  intros Hti Hc Hf.
  assert (Hir : parked wp = wp ∧ heap_inv rtti_of objs selfg wp ∧ rooted objs selfg wp rs) by (by destruct Hc as [(_ & [])|(_ & [])]).
  destruct Hir as (Hpk & Hi & Hro). destruct (threads_internal ev em fuel Hti Hpk Hi Hro) as (w3 & Hp & Hint).
  destruct (collect_rooted_any rtti_of freed_size Hfs objs selfg wp pm rs _ _ threads_blocks eq_refl w3 Hp ev em fuel Hc Hf)
    as (objs' & self' & w' & Ec & Hi' & Et & Hb). exists objs', self', w'. split; [by apply Hint|done].
Qed.

End Internal.

(** One collection by [t] of a heap that is ready for it, also with objects to move.
    [objs'] are the objects afterwards, at their places, and [fins] those whose finalizers it
    has called.  As in [Mutator] it is a condition on the program that the heap is ready. *)
Record collects (ev em : bool) (fuel : nat) (sp : Z) (objs : list Z) (self : Immix) (ba : BlockAllocator) (s : Store)
    (l1 : list Thread) (t : Thread) (l2 : list Thread) (objs' : list Z) (self' : Immix) (w' : World) (fins : list Z) : Prop := {
  co_ready : collectible rtti_of objs (give self (owns (l1 ++ t :: l2))) (mkWorld ba s no_blocks)
    (thread_ranges self s (l1 ++ collecting_at t sp :: l2)) ev em;
  co_fuel : rounds_bound rtti_of objs (give self (owns (l1 ++ t :: l2))) (mkWorld ba s no_blocks)
    (thread_ranges self s (l1 ++ collecting_at t sp :: l2)) < Z.of_nat fuel;
  co_run : collect_internal rtti_of freed_size fuel true sp (l1 ++ calling t :: l2) self (mkWorld ba s (th_tls t)) pm ev em =
    Ok (self', w', pm, stopped <$> l1 ++ collecting_at t sp :: l2, fins);
  co_nodup : NoDup objs';
  co_objs : ∀ a, a ∈ objs' ↔ object_start (im_immix self') w' a
}.

(** The thread [t] after it, without blocks. *)
Definition rested (t : Thread) (sp : Z) : Thread := idle (stopped (collecting_at t sp)).
(** The heap after it. *)
Definition swept (self : Immix) (w : World) (l1 : list Thread) (t : Thread) (l2 : list Thread) (sp : Z) : HeapState :=
  mkHeap self (w_ba w) (w_store w) (released l1 ++ rested t sp :: released l2).

Lemma collects_ok ev em fuel sp objs self ba s l1 t l2 objs' self' w' fins :
  threads_inv rtti_of objs (mkHeap self ba s (l1 ++ t :: l2)) →
  collects ev em fuel sp objs self ba s l1 t l2 objs' self' w' fins →
  threads_inv rtti_of objs' (swept self' w' l1 t l2 sp) ∧ w_tls w' = no_blocks ∧ heap_inv rtti_of objs' self' w' ∧
  (0 < im_threshold self → 0 <= im_allocated self' < im_threshold self' ∧ im_allocated self' <= 2 ^ 63).
Proof.
  intros Hti [Hr Hf E Hn Ho].
  destruct (threads_collectible_ok objs self ba s l1 t l2 sp ev em fuel Hti Hr Hf) as (o2 & self2 & w2 & E2 & Hi2 & Et & Hb).
  unfold view_of in E2. cbn in E2. rewrite E in E2. injection E2 as <- <- _.
  assert (Hi : heap_inv rtti_of objs' self' w').
  { apply (heap_inv_ext rtti_of o2); [|done|exact Hi2]. intros o. by rewrite Ho, (hi_starts _ _ _ _ Hi2). }
  split_and!; [|done|done|exact Hb].
  pose proof (released_inv objs' self' w' (l1 ++ collecting_at t sp :: l2) Hi Et) as Hx.
  unfold released in Hx. by rewrite !fmap_app, !fmap_cons in Hx.
Qed.

(** Threads that are not collecting are those left after a collection. *)
Lemma released_idle l : (∀ u, u ∈ l → th_collecting u = false) → stopped <$> l = released l.
Proof.
  intros Hl. unfold released. rewrite <- list_fmap_compose. apply fmap_ext_in. intros u Hu. cbn. unfold idle, stopped. cbn.
  by rewrite Hl.
Qed.

(** The threads a collection leaves, with [t] still in its call. *)
Lemma stopped_calling objs self ba s l1 t l2 sp : threads_inv rtti_of objs (mkHeap self ba s (l1 ++ t :: l2)) →
  stopped <$> l1 ++ collecting_at t sp :: l2 = released l1 ++ calling (rested t sp) :: released l2.
Proof.
  intros Hti. pose proof (ti_idle _ _ _ Hti) as Hid. cbn in Hid.
  rewrite fmap_app, fmap_cons, !released_idle; [done|..]; intros u Hu; apply Hid; rewrite elem_of_app, elem_of_cons; tauto.
Qed.

(** The blocks of the thread that collects are those of the world, not those recorded in the list. *)
Lemma collect_internal_tls fuel sp l1 t tls l2 self w ev em :
  collect_internal rtti_of freed_size fuel true sp (l1 ++ calling (with_tls t tls) :: l2) self w pm ev em =
  collect_internal rtti_of freed_size fuel true sp (l1 ++ calling t :: l2) self w pm ev em.
Proof.
  unfold collect_internal. rewrite Hth. cbn [andb negb]. rewrite !fmap_app, !fmap_cons.
  destruct (callback_roots _ _) as [pr co], (ImmixSpaceM.get_all_blocks _) as [bs sp1]. by rewrite !for_each_app.
Qed.

(** ** Allocations that collect *)

(** When the space has no memory for [t], the heap is in order with the blocks [t] has then. *)
Lemma threads_full objs self ba s l1 t l2 size sp1 w1 : let h := mkHeap self ba s (l1 ++ t :: l2) in
  threads_inv rtti_of objs h → 0 < size <= 32639 ∧ size mod 16 = 0 →
  ImmixSpaceM.allocate (im_immix self) (view_of h t) size = Ok (0, sp1, w1) →
  threads_inv rtti_of objs (mkHeap (set_immix self sp1) (w_ba w1) (w_store w1) (l1 ++ with_tls t (w_tls w1) :: l2)).
Proof.
  intros h Hti Hs E. pose proof (enter Hth rtti_of objs self ba s l1 t l2 Hti) as Hi. set (selfg := give self (owns (l1 ++ l2))) in *.
  destruct (full_step rtti_of objs selfg _ Hi size sp1 w1 Hs E) as (Hst & _ & _).
  pose proof (full_unchanged rtti_of objs selfg _ Hi size sp1 w1 Hs E) as Hun.
  pose proof (le_lines _ _ (ss_le _ _ _ _ Hst)) as Hl.
  assert (Hin : ∀ u, u ∈ l1 ++ l2 → u ∈ l1 ++ t :: l2) by (intros u; rewrite !elem_of_app, elem_of_cons; tauto).
  apply (leave Hth rtti_of objs _ w1 l1 (with_tls t (w_tls w1)) l2).
  - exact (full_inv rtti_of objs selfg _ Hi size sp1 w1 Hs E).
  - intros u tp Hu Htp. apply (tuple_ok_lines (common_world h)); [exact Hl|]. apply (ti_tuple _ _ _ Hti u); [by apply Hin|done].
  - intros u o x Hu Ho Hx (b & lo & hi & Hb & Hsp & Hz). destruct (unchanged_size rtti_of objs selfg _ _ _ Hi Hun o Ho) as [Eo _].
    apply (ti_free _ _ _ Hti u o x (Hin u Hu) Ho); [rewrite Eo in Hx; exact Hx|].
    exists b, lo, hi. split; [done|]. split; [done|]. intros l Hll. rewrite <- (Hz l Hll). symmetry. apply Hl.
  - intros u Hu. by apply (ti_idle _ _ _ Hti), Hin.
  - done.
  - apply (ti_idle _ _ _ Hti t). apply elem_of_app. right. left.
Qed.

Lemma threads_inv_stack objs self ba s ts x : threads_inv rtti_of objs (mkHeap self ba s ts) →
  threads_inv rtti_of objs (mkHeap (set_stack_end self x) ba s ts).
Proof. intros [Hi T1 T2 T3]. constructor; [|done..]. by apply (heap_inv_stack rtti_of objs _ _ x) in Hi. Qed.

End Collect.

(** ** Programs of several threads *)

Record TState : Type := mkTState {
  ts_objs : list Z;
  ts_heap : HeapState
}.

Section Steps.
Context `{Cfg} (rtti_of : Z → GCRTTI) (freed_size : Z → Z) (pm : pmem).

(** A call of [allocate] by [t], together with the initialisation of its object: there is
    no yieldpoint in between.  [r] is the result of the call. *)
Inductive allocation (fuel : nat) (env : AllocEnv) (size rtti : Z) :
    TState → list Thread → Thread → list Thread → Z * Immix * World * pmem * list Thread * list Z → TState → Prop :=
(** the space has memory *)
| allocation_found objs self ba s l1 t l2 p sp1 w1 self' w' ws :
    let h := mkHeap self ba s (l1 ++ t :: l2) in let ts := l1 ++ calling t :: l2 in
    0 <= im_allocated self < im_threshold self → im_allocated self <= 2 ^ 63 →
    ImmixSpaceM.allocate (im_immix self) (view_of h t) (round16 size) = Ok (p, sp1, w1) → p ≠ 0 →
    allocate rtti_of freed_size fuel env ts self (view_of h t) pm size rtti = Ok (p, self', w', pm, ts, []) →
    initialises rtti_of objs w' p (round16 size) ws →
    allocation fuel env size rtti (mkTState objs h) l1 t l2 (p, self', w', pm, ts, [])
      (mkTState (p :: objs) (mkHeap self' (w_ba w') (mkStore (headers (w_store w')) ws) (l1 ++ with_tls t (w_tls w') :: l2)))
(** the threshold is reached: it collects, and goes on *)
| allocation_threshold objs self ba s l1 t l2 objs' self1 w1 fins r st' :
    let sp := e_sp env in
    0 < im_threshold self <= im_allocated self → e_started1 env = true →
    collects rtti_of freed_size pm false true fuel sp objs (set_stack_end self sp) ba s l1 t l2 objs' self1 w1 fins →
    allocation fuel env size rtti (mkTState objs' (swept self1 w1 l1 t l2 sp)) (released l1) (rested t sp) (released l2) r st' →
    allocation fuel env size rtti (mkTState objs (mkHeap self ba s (l1 ++ t :: l2))) l1 t l2 (add_fins fins r) st'
(** the space has no memory: it collects, and tries again *)
| allocation_retry objs self ba s l1 t l2 sp1 w1 objs' self2 w2 fins p sp3 w3 r st' :
    let h := mkHeap self ba s (l1 ++ t :: l2) in let sp := e_sp env in
    0 <= im_allocated self < im_threshold self → e_started2 env = true →
    ImmixSpaceM.allocate (im_immix self) (view_of h t) (round16 size) = Ok (0, sp1, w1) →
    collects rtti_of freed_size pm true true fuel sp objs (set_immix (set_stack_end self sp) sp1) (w_ba w1) (w_store w1)
      l1 (with_tls t (w_tls w1)) l2 objs' self2 w2 fins →
    ImmixSpaceM.allocate (im_immix self2) w2 (round16 size) = Ok (p, sp3, w3) → p ≠ 0 →
    allocation fuel env size rtti (mkTState objs' (swept self2 w2 l1 t l2 sp)) (released l1) (rested t sp) (released l2) r st' →
    allocation fuel env size rtti (mkTState objs h) l1 t l2 (add_fins fins r) st'
(** there is still no memory: it returns null *)
| allocation_null objs self ba s l1 t l2 sp1 w1 objs' self2 w2 fins sp3 w3 :
    let h := mkHeap self ba s (l1 ++ t :: l2) in let sp := e_sp env in
    0 <= im_allocated self < im_threshold self → e_started2 env = true →
    ImmixSpaceM.allocate (im_immix self) (view_of h t) (round16 size) = Ok (0, sp1, w1) →
    collects rtti_of freed_size pm true true fuel sp objs (set_immix (set_stack_end self sp) sp1) (w_ba w1) (w_store w1)
      l1 (with_tls t (w_tls w1)) l2 objs' self2 w2 fins →
    ImmixSpaceM.allocate (im_immix self2) w2 (round16 size) = Ok (0, sp3, w3) →
    allocation fuel env size rtti (mkTState objs h) l1 t l2
      (0, set_immix self2 sp3, w3, pm, stopped <$> l1 ++ collecting_at t sp :: l2, fins)
      (mkTState objs' (mkHeap (set_immix self2 sp3) (w_ba w3) (w_store w3)
         (released l1 ++ with_tls (rested t sp) (w_tls w3) :: released l2))).

(** A step is a call of one thread [t], at any place in the list of threads.  A
    collection, also one of an allocation, is one step: the others are stopped. *)
Inductive tstep : TState → TState → Prop :=
| tstep_allocate objs h l1 t l2 fuel env size rtti r st' :
    small size rtti → allocation fuel env size rtti (mkTState objs h) l1 t l2 r st' → tstep (mkTState objs h) st'
(** a write into an object that leaves it an object of the same size *)
| tstep_write objs self ba s ts o a x :
    let w := mkWorld ba s no_blocks in let w' := with_words w (<[a := x]> (words s)) in
    o ∈ objs → o < a < o + osize rtti_of w o → object_ok rtti_of objs w' o → osize rtti_of w' o = osize rtti_of w o →
    tstep (mkTState objs (mkHeap self ba s ts)) (mkTState objs (mkHeap self ba (w_store w') ts))
(** a write to a stack or to global data *)
| tstep_outside objs self ba s ts a x :
    BA.is_in_space ba a = false →
    tstep (mkTState objs (mkHeap self ba s ts)) (mkTState objs (mkHeap self ba (mkStore (headers s) (<[a := x]> (words s))) ts))
| tstep_callback objs self ba s ts callback data :
    tstep (mkTState objs (mkHeap self ba s ts)) (mkTState objs (mkHeap (immix_register_ongc_callback self callback data) ba s ts))
(** a thread registers: it has no block *)
| tstep_register objs self ba s ts bottom end_ :
    tstep (mkTState objs (mkHeap self ba s ts)) (mkTState objs (mkHeap self ba s (ts ++ [mkThread false no_blocks bottom end_])))
(** a thread unregisters that has no block *)
| tstep_unregister objs self ba s l1 t l2 :
    th_tls t = no_blocks →
    tstep (mkTState objs (mkHeap self ba s (l1 ++ t :: l2))) (mkTState objs (mkHeap self ba s (l1 ++ l2)))
(** a yieldpoint records the stack pointer *)
| tstep_yieldpoint objs self ba s l1 t l2 end_ :
    tstep (mkTState objs (mkHeap self ba s (l1 ++ t :: l2)))
      (mkTState objs (mkHeap self ba s (l1 ++ mkThread (th_collecting t) (th_tls t) (th_stack_bottom t) end_ :: l2)))
| tstep_collect objs self ba s l1 t l2 move_objects fuel sp objs' self' w' fins :
    collects rtti_of freed_size pm move_objects false fuel sp objs self ba s l1 t l2 objs' self' w' fins →
    tstep (mkTState objs (mkHeap self ba s (l1 ++ t :: l2))) (mkTState objs' (swept self' w' l1 t l2 sp)).

Definition tgood (st : TState) : Prop := threads_inv rtti_of (ts_objs st) (ts_heap st).

(** Other words, with the same sizes of objects. *)
Lemma threads_inv_words objs self ba s ts ws : let h := mkHeap self ba s ts in
  threads_inv rtti_of objs h →
  heap_inv rtti_of objs (give self (owns ts)) (with_words (common_world h) ws) →
  (∀ o, o ∈ objs → osize rtti_of (with_words (common_world h) ws) o = osize rtti_of (common_world h) o) →
  threads_inv rtti_of objs (mkHeap self ba (mkStore (headers s) ws) ts).
Proof.
  intros h [Hi Ht Hf Hid] Hi' Hs. constructor; [exact Hi'|exact Ht| |exact Hid].
  intros t o x Htt Ho Hx. apply (Hf t o x Htt Ho). cbn [hp_ba hp_store common_world] in Hx.
  change (mkWorld ba (mkStore (headers s) ws) no_blocks) with (with_words (common_world h) ws) in Hx. by rewrite Hs in Hx.
Qed.

(** Threads with the same blocks. *)
Lemma threads_inv_threads objs self ba s ts ts' : threads_inv rtti_of objs (mkHeap self ba s ts) →
  owns ts' = owns ts →
  (∀ t, t ∈ ts' → th_collecting t = false ∧ (th_tls t = no_blocks ∨ ∃ u, u ∈ ts ∧ th_tls t = th_tls u)) →
  threads_inv rtti_of objs (mkHeap self ba s ts').
Proof.
  intros [Hi Ht Hf Hid] Eo Hts. constructor; cbn [hp_threads hp_immix hp_ba hp_store] in *.
  - rewrite Eo. exact Hi.
  - intros t tp [_ [E|(u & Hu & E)]]%Hts; rewrite E; [by intros [?|?]|by apply Ht].
  - intros t o x [_ [E|(u & Hu & E)]]%Hts Ho Hx; unfold view_of; rewrite E.
    + by intros (b & lo & hi & [?|?] & _).
    + by apply (Hf u o x Hu Ho Hx).
  - intros t Htt. by apply Hts.
Qed.

Context (Hth : threaded = true) (Hfs : ∀ p, 0 <= freed_size p).

(** The collection of a retry is one of [allocate]. *)
Lemma retry_collects fuel env size rtti objs self ba s l1 t l2 sp1 w1 objs' self2 w2 fins p sp3 w3 : 0 < size <= LARGE_OBJECT - 16 →
  let h := mkHeap self ba s (l1 ++ t :: l2) in let sp := e_sp env in
  threads_inv rtti_of objs h → 0 <= im_allocated self < im_threshold self → e_started2 env = true →
  ImmixSpaceM.allocate (im_immix self) (view_of h t) (round16 size) = Ok (0, sp1, w1) →
  collects rtti_of freed_size pm true true fuel sp objs (set_immix (set_stack_end self sp) sp1) (w_ba w1) (w_store w1)
      l1 (with_tls t (w_tls w1)) l2 objs' self2 w2 fins →
  ImmixSpaceM.allocate (im_immix self2) w2 (round16 size) = Ok (p, sp3, w3) →
  threads_inv rtti_of objs' (swept self2 w2 l1 t l2 sp) ∧ view_of (swept self2 w2 l1 t l2 sp) (rested t sp) = w2 ∧
  allocate rtti_of freed_size fuel env (l1 ++ calling t :: l2) self (view_of h t) pm size rtti =
    if decide (p = 0) then Ok (0, set_immix self2 sp3, w3, pm, stopped <$> l1 ++ collecting_at t sp :: l2, fins)
    else r ← allocate rtti_of freed_size fuel env (released l1 ++ calling (rested t sp) :: released l2) self2 w2 pm size rtti; Ok (add_fins fins r).
Proof.
  intros Hs h sp Hti Ha Hst E Hco E3. destruct (small_rounded size Hs) as (Hs1 & Hs2 & _).
  pose proof (threads_inv_stack rtti_of objs self ba s _ sp Hti) as Hti0.
  pose proof (threads_full Hth rtti_of objs _ ba s l1 t l2 (round16 size) sp1 w1 Hti0 ltac:(lia) E) as Hti1.
  destruct (collects_ok Hth rtti_of freed_size Hfs pm true true fuel sp objs _ _ _ l1 _ l2 objs' self2 w2 fins Hti1 Hco) as (Hti2 & Et & _ & Hb).
  split; [exact Hti2|]. split; [unfold view_of; cbn; rewrite <- Et; by destruct w2|].
  rewrite <- (stopped_calling rtti_of objs self ba s l1 t l2 sp Hti).
  refine (allocate_again rtti_of freed_size fuel env _ self (view_of h t) pm size rtti sp1 w1 self2 w2 _ fins p sp3 w3 Hs ltac:(lia) E _ _ E3).
  - rewrite Hst, <- (collect_internal_tls Hth rtti_of freed_size pm _ _ _ _ (w_tls w1)).
    pose proof (co_run _ _ _ _ _ _ _ _ _ _ _ _ _ _ _ _ _ _ Hco) as Er. rewrite fmap_app, fmap_cons in Er |- *.
    destruct w1. exact Er.
  - apply Hb. cbn. lia.
Qed.

(** What it does to the heap, and that [r] is what [allocate] returns. *)
Lemma allocation_good fuel env size rtti st l1 t l2 r st' : small size rtti → allocation fuel env size rtti st l1 t l2 r st' →
  tgood st →
  tgood st' ∧ allocate rtti_of freed_size fuel env (l1 ++ calling t :: l2) (hp_immix (ts_heap st)) (view_of (ts_heap st) t) pm size rtti = Ok r.
Proof.
  intros (Hs & Hs2 & Hs3 & Hs4) Hal. unfold tgood.
  induction Hal as [objs self ba s l1 t l2 p sp1 w1 self' w' ws h ts Ha Hb E Hp Eal Hin
    |objs self ba s l1 t l2 objs' self1 w1 fins r st' sp Ht Hst Hco Hal IH
    |objs self ba s l1 t l2 sp1 w1 objs' self2 w2 fins p sp3 w3 r st' h sp Ha Hst E Hco E3 Hp Hal IH
    |objs self ba s l1 t l2 sp1 w1 objs' self2 w2 fins sp3 w3 h sp Ha Hst E Hco E3]; cbn [ts_objs ts_heap hp_immix] in *; intros Hti.
  - split; [|exact Eal]. by eapply (thread_allocates Hth rtti_of freed_size pm fuel env objs self ba s l1 t l2).
  - pose proof (threads_inv_stack rtti_of objs self ba s _ sp Hti) as Hti0.
    destruct (collects_ok Hth rtti_of freed_size Hfs pm false true fuel sp objs _ ba s l1 t l2 objs' self1 w1 fins Hti0 Hco) as (Hti1 & Et & _ & Hb).
    destruct (IH Hti1) as [Hg Eal]. split; [exact Hg|]. clear IH Hal.
    pose proof (co_run _ _ _ _ _ _ _ _ _ _ _ _ _ _ _ _ _ _ Hco) as Er.
    assert (Ew : view_of (swept self1 w1 l1 t l2 sp) (rested t sp) = w1) by (unfold view_of; cbn; rewrite <- Et; by destruct w1).
    rewrite Ew, <- (stopped_calling rtti_of objs self ba s l1 t l2 sp Hti) in Eal. destruct (Hb ltac:(apply Ht)) as [Hb1 _].
    etrans; [apply (allocate_after rtti_of freed_size fuel env); [apply Ht|rewrite Hst; exact Er|lia]|].
    change (hp_immix (swept self1 w1 l1 t l2 sp)) with self1 in Eal. by rewrite Eal.
  - destruct (retry_collects fuel env size rtti objs self ba s l1 t l2 sp1 w1 objs' self2 w2 fins p sp3 w3 Hs Hti Ha Hst E Hco E3) as (Hti2 & Ew & Er).
    destruct (IH Hti2) as [Hg Eal]. split; [exact Hg|]. refine (eq_trans Er _). rewrite decide_False by done.
    fold sp in Ew |- *. rewrite Ew in Eal. change (hp_immix (swept self2 w2 l1 t l2 sp)) with self2 in Eal. by rewrite Eal.
  - destruct (retry_collects fuel env size rtti objs self ba s l1 t l2 sp1 w1 objs' self2 w2 fins 0 sp3 w3 Hs Hti Ha Hst E Hco E3) as (Hti2 & Ew & Er).
    split; [|rewrite decide_True in Er by done; exact Er]. destruct (small_rounded size Hs) as (Hs1 & Hs5 & _). fold sp in Ew.
    apply (threads_full Hth rtti_of objs' self2 _ _ (released l1) (rested t sp) (released l2) (round16 size) sp3 w3 Hti2); [lia|].
    unfold swept in Ew. by rewrite Ew.
Qed.

Lemma tstep_good st st' : tstep st st' → tgood st → tgood st'.
Proof.
  intros Hs. unfold tgood. destruct Hs as [objs h l1 t l2 fuel env size rtti r st' Hsm Hal
    |objs self ba s ts o a x w w' Ho Ha Hob Hsz|objs self ba s ts a x Ha|objs self ba s ts cb d|objs self ba s ts bottom end_
    |objs self ba s l1 t l2 Et|objs self ba s l1 t l2 end_|objs self ba s l1 t l2 mo fuel sp objs' self' w' fins Hco];
    cbn [ts_objs ts_heap]; intros Hti.
  - by eapply (allocation_good fuel env size rtti (mkTState objs h)).
  - destruct (write_inv rtti_of objs (give self (owns ts)) w o a x (ti_heap _ _ _ Hti) Ho Ha Hob Hsz) as [Hi' Hs'].
    by apply (threads_inv_words objs self ba s ts).
  - destruct (outside_inv rtti_of objs (give self (owns ts)) _ a x (ti_heap _ _ _ Hti) Ha) as [Hi' Hs'].
    by apply (threads_inv_words objs self ba s ts).
  - destruct Hti as [[] Ht Hf Hid]. by constructor.
  - apply (threads_inv_threads objs self ba s ts); [done|by rewrite owns_app, app_nil_r|].
    intros t [Htt| ->%list_elem_of_singleton]%elem_of_app; [|by split; [|left]].
    split; [by apply (ti_idle _ _ _ Hti)|right; by exists t].
  - apply (threads_inv_threads objs self ba s (l1 ++ t :: l2)); [done| |].
    + rewrite !owns_app. f_equal. unfold owns. by rewrite bind_cons, Et.
    + intros u Hu. assert (Hu' : u ∈ l1 ++ t :: l2) by (rewrite !elem_of_app, elem_of_cons in *; tauto).
      split; [by apply (ti_idle _ _ _ Hti)|right; by exists u].
  - apply (threads_inv_threads objs self ba s (l1 ++ t :: l2)); [done|by rewrite !owns_app|].
    assert (Ht : t ∈ l1 ++ t :: l2) by (rewrite elem_of_app; right; left).
    intros u Hu. assert (Hv : ∃ v, v ∈ l1 ++ t :: l2 ∧ th_tls u = th_tls v ∧ th_collecting u = th_collecting v).
    { rewrite elem_of_app, elem_of_cons in Hu. destruct Hu as [Hu|[->|Hu]]; [exists u|by exists t|exists u];
        (split; [rewrite elem_of_app, elem_of_cons; tauto|done]). }
    destruct Hv as (v & Hv & E1 & E2). rewrite E1, E2. split; [by apply (ti_idle _ _ _ Hti)|right; by exists v].
  - by eapply (collects_ok Hth rtti_of freed_size Hfs pm mo false fuel sp objs self ba s l1 t l2).
Qed.

(** A heap no thread has used. *)
Lemma start_inv self w : heap_inv rtti_of [] self w → w_tls w = no_blocks →
  threads_inv rtti_of [] (mkHeap self (w_ba w) (w_store w) []).
Proof. intros Hi Et. exact (released_inv rtti_of [] self w [] Hi Et). Qed.

End Steps.

(** ** A sample: the heap of HeapCollect with objects to finalize, and two threads

    The stacks are the words from 16 to 32 and those from 32 to 48; on each of them is a
    reference to an object.  The first object is dead. *)

(** On a heap whose blocks no thread has, both builds have the same invariant. *)
Lemma heap_inv_cfg (cfg cfg' : Cfg) rtti_of objs self w : ImmixSpaceM.fields_none (im_immix self) → w_tls w = no_blocks →
  @heap_inv rtti_of cfg objs self w → @heap_inv rtti_of cfg' objs self w.
Proof.
  destruct self as [los [bm [un rec cur] [oun ocur] ev lm] bottom st end_ al th mk cbs c fin], w as [ba s tls].
  unfold ImmixSpaceM.fields_none. cbn. intros [-> ->] -> [[] [] ? ? ? ? ? ? Hpl ? Hnf ? ? ? ?].
  destruct cfg, cfg'; constructor; try done; by constructor.
Qed.

Definition first_thread : Thread := mkThread false no_blocks 16 32.
Definition second_thread : Thread := mkThread false no_blocks 32 0.

Lemma sample_threads_inv : let _ : Cfg := true in
  threads_inv final_rtti pair_objs (mkHeap final_immix (w_ba final_world) (w_store final_world) [first_thread; second_thread]).
Proof.
  intros cfg. apply (released_inv final_rtti pair_objs final_immix final_world [first_thread; second_thread]); [|done].
  apply (heap_inv_cfg false); [done|done|apply final_heap_inv].
Qed.

Lemma sample_threads_reachable o : let _ : Cfg := true in
  reachable final_rtti final_world (thread_roots_from final_immix (w_ba final_world) (w_store final_world) [first_thread] second_thread [] 48) o ↔
  o = 32928 ∨ o = 65664.
Proof.
  intros cfg. assert (Er : thread_roots_from final_immix (w_ba final_world) (w_store final_world) [first_thread] second_thread [] 48 = [32928; 65664])
    by (vm_compute; reflexivity). rewrite Er. split.
  - intros (r & Hr & Hrt). rewrite !elem_of_cons, elem_of_nil in Hr. assert (Ek : kids final_rtti final_world r = []).
    { destruct Hr as [->|[->|[]]]; vm_compute; reflexivity. }
    apply rtc_inv in Hrt as [->|(y & Hxy & _)]; [tauto|]. unfold edge in Hxy. rewrite Ek in Hxy. by apply not_elem_of_nil in Hxy.
  - intros Ho. exists o. split; [|done]. rewrite !elem_of_cons. tauto.
Qed.

(** Ranges of the stack below the address 48. *)
Lemma stack_words_below (r : Z * Z) a : r ∈ [(16, 32); (32, 48)] → a ∈ range_words r → a = 16 ∨ a = 24 ∨ a = 32 ∨ a = 40.
Proof.
  rewrite !elem_of_cons, elem_of_nil. intros [->|[->|[]]] Ha; apply elem_of_scan in Ha as [Ha Hm]; try reflexivity;
    [change (16 <= a < 32) in Ha|change (32 <= a < 48) in Ha]; Z.div_mod_to_equations; lia.
Qed.

Lemma sample_threads_ready : let _ : Cfg := true in
  ready_threads final_rtti pair_objs final_immix (w_ba final_world) (w_store final_world) [first_thread] second_thread [] 48 false.
Proof.
  intros cfg. constructor; [done|apply (heap_inv_cfg false); [done|done|apply final_heap_inv]| |vm_compute; done|intros _; vm_compute; done|].
  - constructor.
    + intros a Ha. by apply not_elem_of_nil in Ha.
    + intros r. cbn. rewrite !elem_of_cons, elem_of_nil. intros [->|[->|[]]]; cbn; lia.
    + intros r a Hr Ha. destruct (stack_words_below r a Hr Ha) as [->|[->|[->| ->]]];
        (split; [vm_decide|]; split; [split; vm_compute; done|split; vm_compute; done]).
  - intros o Ho. cbn in Ho. rewrite !elem_of_cons, elem_of_nil in Ho. pose proof sample_threads_reachable as Hre. cbn zeta in Hre.
    destruct Ho as [->|[->|[]]]; [right|left; split; [|done]; apply Hre; by left].
    split; [intros [?|?]%Hre; lia|]. split; [done|]. exists 32928. split_and!; [right; left|apply Hre; by left|done|done].
Qed.

(** ** A run of a thread: it registers, allocates an object, refers to it and collects *)

Section Run.
#[local] Instance trun_cfg : Cfg := true.

Definition trun_thread : Thread := mkThread false no_blocks 48 16.
Definition trun_alloc : Z * Immix * World * pmem * list Thread * list Z :=
  value_of (0, sample_immix, rooted_world, ∅, [], [])
    (allocate pair_rtti (λ _, 0) 1 (mkEnv 16 true true 0) [calling trun_thread] run_start.1 run_start.2 ∅ 16 16).
Definition trun_immix : Immix := trun_alloc.1.1.1.1.2.
Definition trun_world : World := trun_alloc.1.1.1.2.
(** It has the block of the object now. *)
Definition trun_owner : Thread := with_tls trun_thread (w_tls trun_world).
Definition trun_rooted : Store := mkStore (headers (w_store trun_world)) (<[16 := 32896]> (words (w_store trun_world))).
Definition trun_heap : HeapState := mkHeap trun_immix (w_ba trun_world) trun_rooted [trun_owner].

Lemma trun_allocates : tstep pair_rtti (λ _, 0) ∅
  (mkTState [] (mkHeap run_start.1 (w_ba run_start.2) (w_store run_start.2) [trun_thread]))
  (mkTState [32896] (mkHeap trun_immix (w_ba trun_world) (mkStore (headers (w_store trun_world)) (words (w_store trun_world))) [trun_owner])).
Proof.
  eapply (tstep_allocate _ _ _ [] _ [] trun_thread [] 1 (mkEnv 16 true true 0) 16 16); [split_and!; vm_compute; done|].
  eapply (allocation_found _ _ _ _ _ _ _ [] run_start.1 (w_ba run_start.2) (w_store run_start.2) [] trun_thread [] 32896).
  - vm_compute. done.
  - vm_compute. done.
  - vm_compute. reflexivity.
  - done.
  - vm_compute. reflexivity.
  - split_and!; [done| |vm_compute; done]. constructor; [vm_compute; done|done|].
    intros a. change (slots pair_rtti _ 32896) with (@nil Z). by intros ?%not_elem_of_nil.
Qed.

Lemma trun_ready : threads_inv pair_rtti [32896] trun_heap →
  ready_threads pair_rtti [32896] trun_immix (w_ba trun_world) trun_rooted [] trun_owner [] 16 false.
Proof.
  intros Hti. constructor; [done|apply (ti_heap _ _ _ Hti)| |vm_compute; done|by intros [=]|by intros o ?%not_elem_of_nil].
  constructor.
  - intros a Ha. by apply not_elem_of_nil in Ha.
  - intros r ->%list_elem_of_singleton. vm_compute. done.
  - intros r a ->%list_elem_of_singleton Ha. apply elem_of_scan in Ha as [Ha Hm]; [|reflexivity..].
    change (16 <= a < 48) in Ha. assert (Hc : a = 16 ∨ a = 24 ∨ a = 32 ∨ a = 40) by (Z.div_mod_to_equations; lia).
    destruct Hc as [->|[->|[->| ->]]]; (split; [vm_decide|]; split; [split; vm_compute; done|split; vm_compute; done]).
Qed.

Lemma trun_collects : threads_inv pair_rtti [32896] trun_heap →
  ∃ objs' h', tstep pair_rtti (λ _, 0) ∅ (mkTState [32896] trun_heap) (mkTState objs' h') ∧
    32896 ∈ objs' ∧ im_live_mark (hp_immix h') = true.
Proof.
  intros Hti. destruct (threads_collect_ok eq_refl pair_rtti (λ _, 0) (λ _, Z.le_refl 0) ∅ [32896] trun_immix (w_ba trun_world) trun_rooted
    [] trun_owner [] 16 false 100 Hti) as (objs' & self' & w' & E & Hcd & Et); [by apply trun_ready|vm_compute; done|].
  exists objs', (swept self' w' [] trun_owner [] 16). split_and!.
  - eapply (tstep_collect _ _ _ _ _ _ _ [] trun_owner [] false 100).
    econstructor; [left|vm_compute; reflexivity|exact E|apply (cd_inv _ _ _ _ _ _ _ _ Hcd)|].
    + split; [by right|by apply trun_ready].
    + intros a. symmetry. apply (hi_starts _ _ _ _ (cd_inv _ _ _ _ _ _ _ _ Hcd)).
  - apply (cd_objs _ _ _ _ _ _ _ _ Hcd). split; [left|]. exists 32896. split; [vm_compute; left|apply rtc_refl].
  - cbn. rewrite (cd_mark _ _ _ _ _ _ _ _ Hcd). reflexivity.
Qed.

End Run.

(** ** Properties *)



(** C7: A program of several threads keeps the heap in order: from [immix_init] on, whatever
    threads register, allocate and initialise small objects, write into objects and outside
    the heap, and collect, also within an allocation at the threshold or without memory,
    which may return null, while the others are stopped, in any order, the heap stays in
    order for all of them, with the objects where they are then: objects never overlap, no
    byte of an object is in what some thread may be given next, every reference leads to an
    object and no block belongs to two threads.
    Which programs: a thread that unregisters has no block; large objects are not allocated;
    a write into an object leaves it an object of its size; a thread whose allocation
    collects is the one that has stopped the others, not one that lost the race for it; and
    every collection, also that of an allocation, finds the heap [collectible] with the
    stacks of all threads as ranges to scan, which is up to the program. For a collection
    that moves nothing (asked for without moving while a quarter of the blocks is available
    or headroom, or an emergency without headroom): the ranges it scans are below 2^63 and
    hold no object, and no word in them is the end address of the heap or 8 bytes behind it;
    precise roots are slots outside objects that refer to objects; an object to finalize is
    reachable, or is of a type to be finalized and lies in a block in which a reachable
    object lies (otherwise its header may be gone when it is read); and with verbose
    statistics the count of allocated bytes is no less than the sizes of the objects.
    For one that may move objects: an object that is not pinned and not on the stack is the
    object of at most one precise root, and if of none then at most one reference leads to
    it, as it is copied once for each reference that finds it at its old place; types do not
    depend on addresses or on what references lead to, and visit each slot once, a multiple
    of 8 bytes into the object; precise roots are given once, lie outside the heap and refer
    to objects; the ranges it scans are below 2^63 and hold no object, and no word in them
    is the end address of the heap or 8 bytes behind it; an object to finalize is reachable
    and on the stack or pinned, or it is not reachable, of a type to be finalized, and lies
    in a block that such an object keeps (otherwise it would be finalized alive, or its
    header be gone when it is read); and with verbose statistics the count of allocated
    bytes is no less than the sizes of the objects. *)
Theorem threaded_program_keeps_heap `{Cfg} rtti_of freed_size pm map pagesize origin size threshold callback data :
  threaded = true → (∀ p, 0 <= freed_size p) →
  0 <= map → map mod 16 = 0 → 0 <= size → 0 < pagesize → pagesize mod 2048 = 0 →
  map + size + 18 * BLOCK_SIZE + pagesize < 2 ^ 63 →
  ∃ self w, immix_init map pagesize origin size threshold callback data = Ok (self, w) ∧
    ∀ st, rtc (tstep rtti_of freed_size pm) (mkTState [] (mkHeap self (w_ba w) (w_store w) [])) st →
      threads_inv rtti_of (ts_objs st) (ts_heap st).
Proof.
  intros Hth Hfs Hm Hal Hs Hp Hpm Hb.
  destruct (init_heap_inv rtti_of map pagesize origin size threshold callback data Hm Hal Hs Hp Hpm Hb) as (self & w & E & Hi & Et).
  exists self, w. split; [exact E|]. intros st Hsteps.
  assert (Hgood : tgood rtti_of st); [|exact Hgood].
  refine (rtc_ind_r (tgood rtti_of) _ _ _ st Hsteps); [by apply start_inv|].
  intros y z _ Hyz Hy. by eapply tstep_good.
Qed.

Lemma threaded_program_keeps_heap_witness : let _ : Cfg := true in
  ∃ objs' h', rtc (tstep pair_rtti (λ _, 0) ∅)
      (mkTState [] (mkHeap run_start.1 (w_ba run_start.2) (w_store run_start.2) [])) (mkTState objs' h') ∧
    32896 ∈ objs' ∧ im_live_mark (hp_immix h') = true ∧ threads_inv pair_rtti objs' h'.
Proof.
  intros cfg.
  destruct (threaded_program_keeps_heap pair_rtti (λ _, 0) ∅ 28672 4096 48 65536 0 run_callback 0) as (self & w & E & Hall);
    [reflexivity|intros; lia|lia|reflexivity|lia|lia|reflexivity|reflexivity|].
  assert (E1 : self = run_start.1) by (unfold run_start; by rewrite E). assert (E2 : w = run_start.2) by (unfold run_start; by rewrite E).
  subst self w.
  assert (Hpre : rtc (tstep pair_rtti (λ _, 0) ∅) (mkTState [] (mkHeap run_start.1 (w_ba run_start.2) (w_store run_start.2) []))
    (mkTState [32896] trun_heap)).
  { eapply rtc_l; [apply (tstep_register _ _ _ _ _ _ _ _ 48 16)|]. eapply rtc_l; [exact trun_allocates|].
    apply rtc_once. by apply (tstep_outside _ _ _ _ trun_immix (w_ba trun_world) _ [trun_owner] 16 32896). }
  destruct trun_collects as (objs' & h' & Hs & Hin & Hm); [exact (Hall _ Hpre)|].
  assert (Hrun : rtc (tstep pair_rtti (λ _, 0) ∅) (mkTState [] (mkHeap run_start.1 (w_ba run_start.2) (w_store run_start.2) []))
    (mkTState objs' h')) by (eapply rtc_r; [exact Hpre|exact Hs]).
  exists objs', h'. split; [exact Hrun|]. split; [exact Hin|]. split; [exact Hm|]. exact (Hall _ Hrun).
Defined.

(** A thread must not unregister while an object lies in one of its blocks: the block
    then belongs to nobody, so that no later collection looks at it, and the heap is out
    of order.  ([immix_unregister_thread] does not look at the blocks.) *)
Theorem unregister_loses_block `{Cfg} rtti_of objs self ba s l1 t l2 o : threaded = true →
  threads_inv rtti_of objs (mkHeap self ba s (l1 ++ t :: l2)) → o ∈ objs →
  Block.get_block_ptr o ∈ tls_blocks (th_tls t) → ¬ threads_inv rtti_of objs (mkHeap self ba s (l1 ++ l2)).
Proof.
  intros Hth Hti Ho Hb Hti'. pose proof (enter Hth rtti_of objs self ba s l1 t l2 Hti) as Hi.
  pose proof (proj1 (kept_ok_held _ _ _) (hi_kept _ _ _ _ Hi)) as [_ K2].
  destruct (hi_placed _ _ _ _ (ti_heap _ _ _ Hti') o Ho) as [Hin _]. unfold heap_blocks in Hin.
  rewrite elem_of_app in Hin. destruct Hin as [Hin|Hin].
  - destruct (K2 _ Hin) as (_ & _ & []). by apply (own_held Hth).
  - rewrite own_threaded in Hin by done. change (own_blocks _) with (@nil Z) in Hin. rewrite app_nil_r in Hin.
    destruct (own_facts Hth _ _ _ (hi_space _ _ _ _ Hi) Hb) as [Hnc _]. apply Hnc.
    apply (held_common Hth _ ba s). pose proof (taken_perm _ (mkWorld ba s no_blocks) (hi_fields _ _ _ _ Hi)) as Hperm.
    unfold ImmixSpaceM.held. rewrite <- !elem_of_app, <- Hperm, !elem_of_app. by left.
Qed.

(** A thread with both blocks of the sample, nearly full. *)
Definition owner : Thread := mkThread false (mkTLS (Some (32768, 32752, 32752)) (Some (65536, 32752, 32752))) 16 32.

Lemma owner_inv : let _ : Cfg := true in
  threads_inv pair_rtti pair_objs (mkHeap (set_collector sample_immix CollectorM.new) (w_ba rooted_world) (w_store rooted_world) [owner]).
Proof.
  intros cfg. constructor.
  - apply (heap_inv_cfg false); [done|done|apply sample_heap_inv].
  - intros t tp ->%list_elem_of_singleton [E|E]; injection E as <-; (split_and!; try lia; try done); intros l _; apply Block.zeroed_line.
  - intros t o x ->%list_elem_of_singleton Ho Hx (b & lo & hi & E & [Hs _]).
    change (osize pair_rtti _ o) with 16 in Hx. unfold pair_objs in Ho. rewrite !elem_of_cons, elem_of_nil in Ho.
    destruct E as [E|E]; injection E as <- <- <-; lia.
  - by intros t ->%list_elem_of_singleton.
Qed.

Lemma unregister_loses_block_witness : let _ : Cfg := true in
  ¬ threads_inv pair_rtti pair_objs (mkHeap (set_collector sample_immix CollectorM.new) (w_ba rooted_world) (w_store rooted_world) []).
Proof.
  intros cfg. apply (unregister_loses_block pair_rtti pair_objs (set_collector sample_immix CollectorM.new) (w_ba rooted_world)
    (w_store rooted_world) [] owner [] 32896); [reflexivity|apply owner_inv|left|vm_compute; left].
Defined.
