(* ===== verification/Api.v ===== *)
(** * lib.rs, object.rs: allocation as the mutator sees it

    [immix_alloc] is the C entry point, [immix_alloc_safe] the Rust one: it allocates
    [value.heap_size()] bytes, which is [size_of_val] unless the type overrides it, and
    writes the value behind the header.  A value is given by its bytes, which are written into
    the words of the memory, lowest byte first.  Writing
    through the null pointer of a failed allocation is [Panic BadAccess]. *)

From stdpp Require Import base numbers list list_numbers gmap.
From Stdlib Require Import ZArith Lia.
From S2P Require Import Prelude Util Constants Bitmap Block SpaceBitmap Object BlockAllocator.
From S2P Require Import Allocation AllocatorLaws Allocators ImmixSpace LargeObjectSpace.
From S2P Require Import Collector Sweep Marking Collection Immix Roots Heap HeapCollect HeapAlloc.
Import CollectorM ImmixHeap.
Local Open Scope Z_scope.

(** [RawGc::is_precise_allocation], [RawGc::precise_allocation] *)
Definition is_precise_allocation (self : Z) : bool := Precise.is_precise self.
Definition precise_allocation (self : Z) : Z := Precise.from_cell self.

Section Api.
Context `{Cfg} (rtti_of : Z → GCRTTI) (freed_size : Z → Z).

Definition immix_alloc (fuel : nat) (env : AllocEnv) (threads : list Thread) (self : Immix) (w : World) (pm : pmem)
    (size rtti : Z) : R (Z * Immix * World * pmem * list Thread * list Z) :=
  allocate rtti_of freed_size fuel env threads self w pm size rtti.

(** The byte at [a]: byte [a mod 8] of its word. *)
Definition read_byte (s : Store) (a : Z) : Z := Z.land (Z.shiftr (word s (a - a mod 8)) (8 * (a mod 8))) 255.
Definition write_byte (s : Store) (a b : Z) : Store :=
  let k := 8 * (a mod 8) in
  set_word s (a - a mod 8) (Z.lor (Z.ldiff (word s (a - a mod 8)) (Z.shiftl 255 k)) (Z.shiftl b k)).

(** [ptr.write(value)]: the [size_of::<T>()] bytes of the value *)
Fixpoint write_value (s : Store) (ptr : Z) (value : list Z) : Store :=
  match value with
  | [] => s
  | b :: value' => write_value (write_byte s ptr b) (ptr + 1) value'
  end.

(** [Gc::deref]: the value behind the header, [n] bytes long *)
Definition deref (w : World) (ptr : Z) (n : nat) : list Z :=
  (λ i, read_byte (w_store w) (RawGc.data ptr + i)) <$> seqZ 0 (Z.of_nat n).

(** [RawGc::rtti], [Gc::get_rtti] and [immix_object_get_rtti] *)
Definition get_rtti (w : World) (object : Z) : R GCRTTI :=
  v ← RawGc.vtable (word (w_store w) object); Ok (rtti_of v).

Definition immix_alloc_safe (fuel : nat) (env : AllocEnv) (threads : list Thread) (self : Immix) (w : World) (pm : pmem)
    (heap_size : Z) (value : list Z) (rtti : Z) : R (Z * Immix * World * pmem * list Thread * list Z) :=
  '(ptr, self', w', pm', threads', fins) ← immix_alloc fuel env threads self w pm heap_size rtti;
  if decide (ptr = 0) then Panic BadAccess
  else Ok (ptr, self', set_store w' (write_value (w_store w') (RawGc.data ptr) value), pm', threads', fins).

End Api.

(** ** Bytes *)

Lemma byte_bit x k i : 0 <= i → 0 <= k → Z.testbit (Z.land (Z.shiftr x k) 255) i = Z.testbit x (i + k) && bool_decide (i < 8).
Proof.
  intros Hi Hk. change 255 with (Z.ones 8). rewrite Z.land_spec, Z.shiftr_spec by done. f_equal.
  case_bool_decide; [apply Z.ones_spec_low|apply Z.ones_spec_high]; lia.
Qed.

Lemma byte_high b i : 0 <= b < 256 → 8 <= i → Z.testbit b i = false.
Proof.
  intros Hb Hi. destruct (decide (b = 0)) as [->|]; [apply Z.testbit_0_l|].
  apply Z.bits_above_log2; [lia|]. assert (Z.log2 b < 8) by (apply Z.log2_lt_pow2; lia). lia.
Qed.

Lemma read_write_byte s a b c : 0 <= b < 256 → read_byte (write_byte s a b) c = if decide (c = a) then b else read_byte s c.
Proof.
  intros Hb. unfold read_byte, write_byte. rewrite word_set.
  pose proof (Z.mod_pos_bound a 8 ltac:(lia)) as Ha. pose proof (Z.mod_pos_bound c 8 ltac:(lia)) as Hc.
  destruct (decide (c - c mod 8 = a - a mod 8)) as [E|E]; [|rewrite decide_False by (by intros ->); done].
  rewrite E. apply Z.bits_inj'. intros i Hi. rewrite byte_bit by lia.
  rewrite Z.lor_spec, Z.ldiff_spec, !Z.shiftl_spec by lia. change 255 with (Z.ones 8).
  case_decide as D.
  - subst c. replace (i + 8 * (a mod 8) - 8 * (a mod 8)) with i by lia. case_bool_decide as L.
    + rewrite Z.ones_spec_low by lia. by rewrite andb_false_r, andb_true_r.
    + by rewrite andb_false_r, byte_high by lia.
  - rewrite (byte_bit (word s (a - a mod 8))) by lia. case_bool_decide as L; [|by rewrite !andb_false_r]. rewrite !andb_true_r.
    assert (Hd : i + 8 * (c mod 8) < 8 * (a mod 8) ∨ 8 + 8 * (a mod 8) <= i + 8 * (c mod 8)) by lia.
    destruct Hd as [Hd|Hd].
    + rewrite !(Z.testbit_neg_r _ (_ - _)) by lia. by rewrite andb_true_r, orb_false_r.
    + rewrite Z.ones_spec_high, (byte_high b) by lia. by rewrite andb_true_r, orb_false_r.
Qed.

Lemma read_write_value value s ptr c : Forall (λ b, 0 <= b < 256) value →
  read_byte (write_value s ptr value) c =
    if decide (ptr <= c < ptr + Z.of_nat (length value)) then value !!! Z.to_nat (c - ptr) else read_byte s c.
Proof.
  revert s ptr. induction value as [|b value IH]; intros s ptr Hv; cbn [write_value length]; [by rewrite decide_False by lia|].
  apply Forall_cons in Hv as [Hb Hv]. rewrite IH, read_write_byte by done.
  destruct (decide (c = ptr)) as [->|Hne].
  - rewrite (decide_False (P := ptr + 1 <= _ < _)), decide_True by lia. by rewrite Z.sub_diag.
  - case_decide; [rewrite decide_True by lia|by rewrite decide_False by lia].
    by replace (Z.to_nat (c - ptr)) with (S (Z.to_nat (c - (ptr + 1)))) by lia.
Qed.

(** Words without a byte of the value are left alone, and so are the headers of blocks. *)
Lemma write_value_frame value s ptr : headers (write_value s ptr value) = headers s ∧
  ∀ a, (∀ c, ptr <= c < ptr + Z.of_nat (length value) → c - c mod 8 ≠ a) → word (write_value s ptr value) a = word s a.
Proof.
  revert s ptr. induction value as [|b value IH]; intros s ptr; [done|]. cbn [write_value length].
  destruct (IH (write_byte s ptr b) (ptr + 1)) as [E1 E2]. split; [by rewrite E1|]. intros a Ha.
  rewrite E2 by (intros; apply Ha; lia). unfold write_byte. rewrite word_set, decide_False; [done|]. intros ->. apply (Ha ptr); lia.
Qed.

(** The word behind the header of an object. *)
Lemma data_word p c : p mod 16 = 0 → p + 8 <= c < p + 16 → c - c mod 8 = p + 8.
Proof. intros. Z.div_mod_to_equations. lia. Qed.

Lemma deref_written w value p : Forall (λ b, 0 <= b < 256) value →
  deref (set_store w (write_value (w_store w) (RawGc.data p) value)) p (length value) = value.
Proof.
  intros Hv. apply list_eq. intros i. unfold deref. rewrite list_lookup_fmap. cbn [w_store set_store].
  destruct (decide (i < length value)%nat) as [Hi|Hi].
  - rewrite lookup_seqZ_lt by lia. cbn. rewrite read_write_value, decide_True by (done || lia).
    replace (Z.to_nat _) with i by lia. symmetry. by apply list_lookup_lookup_total_lt.
  - rewrite lookup_seqZ_ge, lookup_ge_None_2 by lia. done.
Qed.

Lemma from_raw_data p : RawGc.from_raw (RawGc.data p) = p.
Proof. unfold RawGc.from_raw, RawGc.data. lia. Qed.

(** Objects of the immix space are at multiples of 16, cells of large objects at odd
    multiples of 8. *)
Lemma immix_not_precise p : p mod 16 = 0 → is_precise_allocation p = false.
Proof.
  intros Hp. unfold is_precise_allocation, Precise.is_precise. apply bool_decide_eq_false. intros Hn. apply Hn.
  change Precise.HALF_ALIGNMENT with (Z.land (Z.ones 4) 8). rewrite Z.land_assoc, Z.land_ones by lia.
  change (2 ^ 4) with 16. by rewrite Hp.
Qed.

(** ** Properties *)

(** C31: [immix_alloc_safe] of a value of a primitive type of at most 8 bytes, on a heap in
    order below the collection threshold and in both builds, returns an object that reads
    back as the bytes of the value, whose type is that of the value and which is not taken for a large
    object, has written those bytes only behind the header, leaves every other object as it was and the heap in order with the object
    added.  The only alternative is that the space has no memory left at the first attempt,
    before the collection that [immix_alloc] starts then; what it does after it is not part
    of this property. *)
Theorem alloc_safe_prim `{Cfg} rtti_of freed_size fuel env threads objs self w pm value rtti :
  let size := Z.of_nat (length value) in
  heap_inv rtti_of objs self w →
  0 <= im_allocated self < im_threshold self → im_threshold self <= 2 ^ 63 →
  0 < size <= 8 → Forall (λ b, 0 <= b < 256) value →
  in_width 64 rtti → rtti mod 8 = 0 → rtti ≠ 0 → rtti_of rtti = HeapObject.RTTI (HeapObject.prim size) →
  (∃ p self' w1 w', immix_alloc rtti_of freed_size fuel env threads self w pm size rtti = Ok (p, self', w1, pm, threads, []) ∧
     immix_alloc_safe rtti_of freed_size fuel env threads self w pm size value rtti = Ok (p, self', w', pm, threads, []) ∧
     deref w' p (length value) = value ∧
     (∀ c, ¬ (p + 8 <= c < p + 8 + size) → read_byte (w_store w') c = read_byte (w_store w1) c) ∧
     get_rtti rtti_of w' p = Ok (HeapObject.RTTI (HeapObject.prim size)) ∧
     RawGc.from_raw (RawGc.data p) = p ∧ is_precise_allocation p = false ∧ heap_inv rtti_of (p :: objs) self' w' ∧ ∀ o, o ∈ objs → agree rtti_of w w' o) ∨
  (∃ sp' w', ImmixSpaceM.allocate (im_immix self) w 16 = Ok (0, sp', w') ∧ ∀ b, ¬ BA.available (w_ba w') b).
Proof.
  intros size Hi Ha Ht Hs Hv Hw Hm Hz Hr.
  assert (E16 : round16 size = 16) by (unfold round16, Rounding.ceil_div; Z.div_mod_to_equations; lia).
  destruct (allocate_small rtti_of freed_size fuel env threads objs self w pm size rtti Hi Ha Ht)
    as [(p & self' & w' & E & Hal)|(sp' & w' & E & Hno)]; [unfold LARGE_OBJECT; lia|done..| |].
  2: { right. rewrite E16 in E. eauto. }
  left. rewrite E16 in Hal. destruct (al_pos _ _ _ _ _ _ _ _ _ Hal) as [Hp0 Hp16].
  set (s' := write_value (w_store w') (RawGc.data p) value). set (ws := words s').
  destruct (write_value_frame value (w_store w') (RawGc.data p)) as [Eh Hfr]. fold s' in Eh, Hfr.
  assert (Ews : set_store w' s' = with_words w' ws) by (unfold with_words, ws; rewrite <- Eh; by destruct s').
  assert (Hws : ∀ a, a ≠ p + 8 → mem_read ws a = word (w_store w') a).
  { intros a Hne. apply Hfr. intros c Hc <-. apply Hne, (data_word p c Hp16). unfold RawGc.data, RawGc.size_of_RawGc, size in *. lia. }
  assert (Hwp : word (w_store (with_words w' ws)) p = word (w_store w') p) by (apply Hws; lia).
  assert (Hvt : vtable_of (with_words w' ws) p = rtti).
  { unfold vtable_of. rewrite Hwp. exact (f_equal hd_pointer (al_header _ _ _ _ _ _ _ _ _ Hal)). }
  assert (Hrt : Marking.rtti rtti_of (with_words w' ws) p = rtti_for_prim size) by (unfold Marking.rtti; by rewrite Hvt).
  assert (Hos : osize rtti_of (with_words w' ws) p = 16).
  { unfold osize. rewrite Hrt. cbn. unfold Rounding.ceil_div. Z.div_mod_to_equations. lia. }
  assert (Hin : heap_inv rtti_of (p :: objs) self' (with_words w' ws)).
  { apply (al_inv _ _ _ _ _ _ _ _ _ Hal); [intros a Hna; apply Hws; lia| |by rewrite Hos].
    constructor; unfold slots; rewrite ?Hrt; cbn; [lia|by intros|]. intros a Hin. by apply not_elem_of_nil in Hin. }
  exists p, self', w', (with_words w' ws). split_and!; [exact E|..|by apply immix_not_precise|exact Hin|].
  - unfold immix_alloc_safe, immix_alloc. rewrite E, bind_Ok, decide_False by lia. fold s'. by rewrite Ews.
  - rewrite <- Ews. by apply deref_written.
  - intros c Hc. rewrite <- Ews. cbn [w_store set_store]. unfold s'. rewrite read_write_value, decide_False; [done|exact Hc|done].
  - unfold get_rtti. rewrite Hwp, HeaderFacts.vtable_ok, bind_Ok 
      by (rewrite <- Hwp; apply (hi_header _ _ _ _ Hin); left).
    by rewrite (al_header _ _ _ _ _ _ _ _ _ Hal), <- Hr.
  - apply from_raw_data.
  - intros o Ho. pose proof (osize_ge _ _ _ _ (hi_object _ _ _ _ Hi o Ho)) as [? ?].
    assert (Hsame : ∀ a, o <= a < o + osize rtti_of w o → word (w_store (with_words w' ws)) a = word (w_store w) a).
    { intros a Hao. destruct (al_apart _ _ _ _ _ _ _ _ _ Hal o Ho); (etrans; [apply Hws; lia|]);
        apply (al_words _ _ _ _ _ _ _ _ _ Hal); lia. }
    split; [unfold vtable_of; by rewrite Hsame by lia|]. intros a Hao. apply Hsame. lia.
Qed.

Lemma alloc_safe_prim_witness : let _ : Cfg := true in
  ∃ self w p self' w', new 28672 4096 65536 1024 = Ok (self, w) ∧
    immix_alloc_safe (λ _, rtti_for_prim 2) (λ _, 0) 0 (mkEnv 0 true true 0) [] self w ∅ 2 [42; 7] 8 = Ok (p, self', w', ∅, [], []) ∧
    deref w' p 2 = [42; 7].
Proof.
  intros cfg. destruct (new_heap_inv (λ _, rtti_for_prim 2) 28672 4096 65536 1024) as (self & w & E & Hi & Ea & Et & _);
    [lia|reflexivity|lia|lia|reflexivity|reflexivity|].
  exists self, w.
  destruct (alloc_safe_prim (λ _, rtti_for_prim 2) (λ _, 0) 0 (mkEnv 0 true true 0) [] [] self w ∅ [42; 7] 8)
    as [(p & self' & w1 & w' & _ & Eal & Hd & _)|(sp' & w' & Eal & _)];
    [exact Hi|rewrite Ea, Et; lia|rewrite Et; lia|cbn; lia|repeat constructor; lia|split; [lia|reflexivity]|reflexivity|discriminate|reflexivity|..].
  - exists p, self', w'. split; [exact E|]. split; [exact Eal|exact Hd].
  - exfalso.
    assert (C : ('(s, w0) ← new 28672 4096 65536 1024; '(p, _, _) ← ImmixSpaceM.allocate (im_immix s) w0 16; Ok p) = Ok 0)
      by (rewrite E, bind_Ok, Eal, bind_Ok; reflexivity).
    clear E Eal. vm_compute in C. discriminate C.
Defined.

(** Two values of 16 bytes, allocated one after the other on a new heap: the
    addresses, and what the first one reads back as. *)
Definition alloc_two (x y : list Z) : R (Z * Z * list Z) :=
  let cfg : Cfg := false in
  let rtti_of := λ _ : Z, rtti_for_prim 16 in
  '(s0, w0) ← new 28672 4096 65536 1024;
  '(p, s1, w1, pm1, _, _) ← immix_alloc_safe rtti_of (λ _, 0) 0 (mkEnv 0 true true 0) [] s0 w0 ∅ 16 x 8;
  '(q, s2, w2, _, _, _) ← immix_alloc_safe rtti_of (λ _, 0) 0 (mkEnv 0 true true 0) [] s1 w1 pm1 16 y 8;
  Ok (p, q, deref w2 p 16).

(** [immix_alloc_safe] asks for the bytes of the value without those of the header,
    so a value whose size is a multiple of 16 does not fit: of two 16-byte values
    allocated one after the other the second one's header replaces the last 8 bytes of the
    first. *)
Theorem alloc_safe_overwrites : ∃ p,
  alloc_two [1; 2; 3; 4; 5; 6; 7; 8; 9; 10; 11; 12; 13; 14; 15; 16] (replicate 16 17) =
    Ok (p, p + 16, [1; 2; 3; 4; 5; 6; 7; 8; 8; 0; 0; 0; 0; 0; 0; 0]).
Proof. exists 32896. vm_compute. reflexivity. Qed.
