(* ===== verification/Registry.v ===== *)
(** * stack_bounds.rs, threading.rs: the registered threads and their stacks

    How the bounds of a stack follow from what the operating system reports, what a thread
    stores about itself when it registers and at a yieldpoint, the changes of its
    [gc_state], and the vector of registered threads.  When a thread stops, and for how
    long, is the subject of [Safepoint]; a yieldpoint here stores the stack pointer. *)

From stdpp Require Import functions base numbers list list_numbers sorting gmap.
From Stdlib Require Import ZArith Lia.
From S2P Require Import Prelude Util Constants Bitmap Block SpaceBitmap Object BlockAllocator.
From S2P Require Import Allocation ImmixSpace LargeObjectSpace Collector Immix Roots.
Import ImmixHeap.
Local Open Scope Z_scope.

(** ** stack_bounds.rs *)

Record StackBounds : Type := mkBounds { origin : Z; bound : Z }.

Module Bounds.

(** macOS: [pthread_get_stackaddr_np] and [pthread_get_stacksize_np]. *)
Definition macos (stackaddr size : Z) : StackBounds := mkBounds stackaddr (stackaddr + size).

(** Linux, FreeBSD, NetBSD: the lowest address and the size of [pthread_attr_getstack]. *)
Definition posix (lowest stack_size : Z) : StackBounds := mkBounds (lowest + stack_size) lowest.

(** Windows: [query] is [VirtualQuery], [local] the address of a local variable. *)
Record MemInfo : Type := mkInfo { BaseAddress : Z; AllocationBase : Z; RegionSize : Z }.
Definition windows (query : Z → MemInfo) (local : Z) : StackBounds :=
  let stack_origin := query local in
  let uncommitted_memory := query (AllocationBase stack_origin) in
  let guard_page := query (BaseAddress uncommitted_memory + RegionSize uncommitted_memory) in
  mkBounds (BaseAddress stack_origin + RegionSize stack_origin) (AllocationBase stack_origin + RegionSize guard_page).

End Bounds.

(** ** threading.rs: the state of a thread *)

Record TLSState : Type := mkTLSState {
  stack_bounds : StackBounds;
  safepoint : Z;
  gc_state : Z;
  blocks : TLSBlocks;
  stack_bottom : Z;
  stack_end : Z
}.

Definition TLS : TLSState := mkTLSState (mkBounds 0 0) 0 0 (mkTLS None None) 0 0.

(** [immix_prepare_thread]; [page] is [SAFEPOINT_PAGE]. *)
Definition immix_prepare_thread (page : Z) (bounds : StackBounds) (ptls : TLSState) : bool * TLSState :=
  if decide (safepoint ptls ≠ 0) then (false, ptls)
  else (true, mkTLSState bounds page (gc_state ptls) (blocks ptls) (origin bounds) (stack_end ptls)).

(** [yieldpoint] at stack pointer [sp]; [willdebug] has no assertion. *)
Definition yieldpoint (willdebug : bool) (sp : Z) (self : TLSState) : R TLSState :=
  if decide (willdebug = false ∧ safepoint self = 0) then Panic AssertFailed
  else Ok (mkTLSState (stack_bounds self) (safepoint self) (gc_state self) (blocks self) (stack_bottom self) sp).

Definition store_state (self : TLSState) (state : Z) : TLSState :=
  mkTLSState (stack_bounds self) (safepoint self) state (blocks self) (stack_bottom self) (stack_end self).

Definition gc_state_set (willdebug : bool) (sp : Z) (self : TLSState) (state old_state : Z) : R (Z * TLSState) :=
  let self1 := store_state self state in
  self2 ← (if decide (old_state ≠ 0 ∧ state = 0) then yieldpoint willdebug sp self1 else Ok self1);
  Ok (old_state, self2).

Definition gc_state_save_and_set (willdebug : bool) (sp : Z) (self : TLSState) (state : Z) : R (Z * TLSState) :=
  gc_state_set willdebug sp self state (gc_state self).

Definition immix_unsafe_enter willdebug sp self : R (Z * TLSState) := gc_state_save_and_set willdebug sp self 0.
Definition immix_unsafe_leave willdebug sp self state : R (Z * TLSState) := gc_state_set willdebug sp self state 0.
Definition immix_safe_enter willdebug sp self : R (Z * TLSState) := gc_state_save_and_set willdebug sp self 2.
Definition immix_safe_leave willdebug sp self state : R (Z * TLSState) := gc_state_set willdebug sp self state 2.

(** ** threading.rs: the registered threads *)

(** A thread is known by the address of its [TLSState], here a number. *)
Record Threads : Type := mkThreads { threads : list nat; tls : nat → TLSState }.
Definition Threads_new : Threads := mkThreads [] (λ _, TLS).

Definition immix_register_thread (page : Z) (bounds : nat → StackBounds) (s : Threads) (t : nat) : Threads :=
  let '(fresh, ptls) := immix_prepare_thread page (bounds t) (tls s t) in
  mkThreads (if fresh then threads s ++ [t] else threads s) (<[t := ptls]> (tls s)).

Definition immix_unregister_thread (s : Threads) (t : nat) : Threads :=
  mkThreads (filter (λ x, x ≠ t) (threads s)) (tls s).

Inductive Call : Type := Register (t : nat) | Unregister (t : nat).
#[global] Instance Call_eq_dec : EqDecision Call.
Proof. solve_decision. Defined.

Section Registry.
Context (page : Z) (bounds : nat → StackBounds).

Definition call (s : Threads) (c : Call) : Threads :=
  match c with
  | Register t => immix_register_thread page bounds s t
  | Unregister t => immix_unregister_thread s t
  end.

Definition history (calls : list Call) : Threads := foldl call Threads_new calls.

Lemma history_snoc calls c : history (calls ++ [c]) = call (history calls) c.
Proof. unfold history. by rewrite foldl_app. Qed.

(** [t] has registered, and not unregistered since its first registration. *)
Definition registered (calls : list Call) (t : nat) : Prop :=
  ∃ before after, calls = before ++ Register t :: after ∧ (Register t ∉ before) ∧ (Unregister t ∉ after).

Lemma registered_snoc calls c t : registered (calls ++ [c]) t ↔
  (registered calls t ∧ c ≠ Unregister t) ∨ (c = Register t ∧ (Register t ∉ calls)).
Proof.
  split.
  - intros (before & after & E & Hb & Ha). destruct after as [|x after _] using rev_ind.
    + apply app_inj_tail in E as [-> ->]. by right.
    + rewrite app_comm_cons, app_assoc in E. apply app_inj_tail in E as [-> ->]. left. split.
      * exists before, after. split_and!; [done|done|set_solver].
      * intros ->. set_solver.
  - intros [[(before & after & -> & Hb & Ha) Hc]|[-> Hc]].
    + exists before, (after ++ [c]). rewrite <-app_assoc. split_and!; [done|done|set_solver].
    + exists calls, []. split_and!; [done|done|set_solver].
Qed.

(** What a registration of [u] does to the states of the threads. *)
Lemma registers_snoc calls (f : nat → TLSState) (p : nat → TLSState) u :
  (∀ t, f t = if decide (Register t ∈ calls) then p t else TLS) →
  ∀ t, <[u := p u]> f t = if decide (Register t ∈ calls ++ [Register u]) then p t else TLS.
Proof.
  intros Hf t. rewrite fn_insert_eq. case_decide as C; [subst|].
  - rewrite decide_True; [done|]. apply elem_of_app. right. by apply list_elem_of_singleton.
  - rewrite Hf. apply decide_ext. rewrite elem_of_app, list_elem_of_singleton. split; [auto|].
    intros [?|[= ?]]; [done|congruence].
Qed.

Context (Hpage : page ≠ 0).

Lemma history_ok calls : NoDup (threads (history calls)) ∧ ∀ t,
  (t ∈ threads (history calls) ↔ registered calls t) ∧
  tls (history calls) t = if decide (Register t ∈ calls) then (immix_prepare_thread page (bounds t) TLS).2 else TLS.
Proof.
  induction calls as [|c calls [Hnd IH]] using rev_ind.
  { split; [constructor|]. intros t. split; [|done]. split; [set_solver|].
    intros (before & after & E & _). by destruct before. }
  rewrite history_snoc. destruct c as [u|u]; cbn [call].
  - pose proof (registers_snoc calls _ (λ t, (immix_prepare_thread page (bounds t) TLS).2) u (λ t, proj2 (IH t))) as Hreg.
    unfold immix_register_thread. destruct (IH u) as [_ Eu]. rewrite Eu. case_decide as Cu; cbn [immix_prepare_thread snd].
    + unfold immix_prepare_thread. cbn. rewrite decide_True by done. cbn. split; [done|]. intros t. split.
      * rewrite registered_snoc, (proj1 (IH t)). split; [intros ?; left; by split|].
        intros [[? _]|[[= <-] ?]]; [done|by destruct H0].
      * apply Hreg.
    + cbn. assert (Hu : u ∉ threads (history calls)).
      { rewrite (proj1 (IH u)). intros (before & after & -> & _). set_solver. }
      split; [apply NoDup_app; split_and!; [done|set_solver|apply NoDup_singleton]|]. intros t. split.
      * change (t ∈ threads (history calls) ++ [u] ↔ registered (calls ++ [Register u]) t).
        rewrite registered_snoc, elem_of_app, list_elem_of_singleton, (proj1 (IH t)).
        split; [intros [?|[= <-]]; [left|right]; by split|intros [[? _]|[[= <-] _]]; auto].
      * apply Hreg.
  - cbn. split; [by apply NoDup_filter|]. intros t. split.
    + rewrite list_elem_of_filter, registered_snoc, (proj1 (IH t)). split; [|naive_solver].
      intros [? ?]. left. split; [done|congruence].
    + rewrite (proj2 (IH t)). apply decide_ext. set_solver.
Qed.

End Registry.

(** ** threading.rs without the feature [threaded]

    Nothing is registered and states are constants; [immix_unregister_thread] frees the
    heap.  [SPACE] is null before [immix_init], then the heap, then a freed pointer. *)

Module UnsyncThreads.

Inductive Space : Type := Null | Live | Freed.

Definition immix_register_thread (space : Space) : R Space := Ok space.
Definition immix_unregister_thread (space : Space) : R Space :=
  match space with Live => Ok Freed | Null | Freed => Panic BadAccess end.
Definition yieldpoint (space : Space) : Space := space.
Definition immix_unsafe_enter : Z := 0.
Definition immix_unsafe_leave (state : Z) : Z := state.
Definition immix_safe_enter : Z := 0.
Definition immix_safe_leave (state : Z) : Z := state.
Definition gc_state_set (_state _old_state : Z) : Z := 0.
Definition gc_state_save_and_set (_state : Z) : Z := 0.

(** Threads that register and unregister one after the other: the second one frees the
    heap again. *)
Lemma second_thread_double_free :
  for_each (λ s _, s1 ← immix_register_thread s; immix_unregister_thread s1) [1; 2]%nat Live = Panic BadAccess.
Proof. reflexivity. Qed.

End UnsyncThreads.

(** ** util.rs: the macro [get_sp!]

    The branches by target; [reg] is the stack pointer register and [local] the address
    of a local variable of [generic_get_sp].  The branches for [riscv64gc] and
    [riscv64imac] are for no target, whose name is [riscv64]: there the variable stays
    without a value, and the crate does not compile.  [addiu] is an addition of 32 bits
    also on [mips64], and has no defined result for a register that does not hold a
    sign-extended word. *)

Module StackPointer.

Inductive Arch : Type := x86_64 | x86 | aarch64 | arm | riscv64 | sparc64 | powerpc64 | mips | mips64.

Definition get_sp (target_arch : Arch) (reg local : Z) : option Z :=
  match target_arch with
  | x86_64 | x86 | arm => Some reg
  | aarch64 => Some (trunc 64 (reg + 8))
  | sparc64 | powerpc64 => Some local
  | mips => Some (trunc 32 (reg + 4))
  | mips64 => if decide (reg + 8 < 2 ^ 31) then Some (reg + 8) else None
  | riscv64 => None
  end.

(** lib.rs: [stack_pointer], the address of a local variable *)
Definition stack_pointer (local : Z) : Z := local.

(** object.rs: [immix_noop1] and [keep_on_stack!] store addresses in [NOOP_SINK]. *)
Definition immix_noop1 (NOOP_SINK word : Z) : Z := word.
Definition keep_on_stack (NOOP_SINK : Z) (addresses : list Z) : Z := foldl immix_noop1 NOOP_SINK addresses.

(** util.rs: [save_regs] has no body. *)
Definition save_regs (registers : list Z) (stack : list Z) : list Z := stack.

End StackPointer.

(** ** The stack of a thread that has reached a yieldpoint *)

(** The state of a thread that has registered and then stopped at stack pointer [sp]. *)
Definition stopped (page : Z) (bounds : StackBounds) (sp : Z) : R TLSState :=
  yieldpoint false sp (immix_prepare_thread page bounds TLS).2.

(** What is pushed below the origin and above the stack pointer. *)
Lemma scan_stack immix los pm org sp st : 0 < sp <= org → org mod 16 = 0 → org < 2 ^ 63 →
  collect_roots immix los pm org sp st =
    for_each (scan_word immix los pm) (scan_addresses (round16 sp) org) st.
Proof.
  intros Hsp Hm Ho. unfold collect_roots. rewrite !Rounding.align_usize_ok, !bind_Ok by lia.
  fold (round16 org) (round16 sp). assert (Eo : round16 org = org).
  { unfold round16, Rounding.ceil_div. Z.div_mod_to_equations. lia. }
  pose proof (Rounding.ceil_div_bounds sp 16 ltac:(lia)). unfold round16 in *.
  rewrite Eo, decide_False by lia. case_decide; [done|].
  assert (Rounding.ceil_div sp 16 * 16 <= org) by (Z.div_mod_to_equations; lia).
  replace (Rounding.ceil_div sp 16 * 16) with org by lia. done.
Qed.

(** The addresses of a scan ascend. *)
Lemma seqZ_ascends k m n : Z.to_nat n = k → StronglySorted Z.lt (seqZ m n).
Proof.
  revert m n. induction k as [|k IH]; intros m n En; [rewrite seqZ_nil by lia; constructor|].
  rewrite seqZ_cons by lia. constructor; [apply IH; lia|]. apply Forall_seqZ. intros i Hi. lia.
Qed.

Lemma scan_ascends lo hi : StronglySorted Z.lt (scan_addresses lo hi).
Proof.
  unfold scan_addresses, range. eapply (StronglySorted_fmap _ Z.lt); [intros x y; cbn; lia|]. by eapply seqZ_ascends.
Qed.

(** The words of a stopped thread's stack that are visited. *)
Lemma stack_scan_ok page lowest size sp immix los pm st : page ≠ 0 →
  0 < lowest → (lowest + size) mod 16 = 0 → lowest <= sp <= lowest + size → lowest + size < 2 ^ 63 →
  ∃ t words, stopped page (Bounds.posix lowest size) sp = Ok t ∧
    collect_roots immix los pm (stack_bottom t) (stack_end t) st = for_each (scan_word immix los pm) words st ∧
    StronglySorted Z.lt words ∧ ∀ a, a ∈ words ↔ round16 sp <= a < lowest + size ∧ a mod 8 = 0.
Proof.
  intros Hp Hl Hm Hsp Hh. unfold stopped, yieldpoint. cbn. rewrite decide_False by (intros [_ ?]; done).
  eexists _, (scan_addresses (round16 sp) (lowest + size)). split; [done|]. cbn. split_and!.
  - apply scan_stack; lia.
  - apply scan_ascends.
  - intros a. apply elem_of_scan; unfold round16; Z.div_mod_to_equations; lia.
Qed.

(** ** Properties *)

(** C30: The registry is exact up to the first unregistration: after any sequence of calls
    the vector of threads has no duplicates and holds the threads that have registered and
    not unregistered since their first registration, each with the origin of its stack. *)
Theorem registry_exact page bounds calls : page ≠ 0 →
  NoDup (threads (history page bounds calls)) ∧
  ∀ t, (t ∈ threads (history page bounds calls) ↔ registered calls t) ∧
    (registered calls t → stack_bottom (tls (history page bounds calls) t) = origin (bounds t) ∧
       safepoint (tls (history page bounds calls) t) = page).
Proof.
  intros Hp. destruct (history_ok page bounds Hp calls) as [Hnd H]. split; [done|]. intros t.
  destruct (H t) as [Ht Et]. split; [done|]. intros (before & after & -> & _). rewrite Et, decide_True by set_solver. done.
Qed.

Lemma registry_exact_witness :
  threads (history 4096 (λ _, Bounds.posix 65536 8192) [Register 1; Register 2; Register 1; Unregister 1]) = [2]%nat ∧
  stack_bottom (tls (history 4096 (λ _, Bounds.posix 65536 8192) [Register 1; Register 2; Register 1; Unregister 1]) 2%nat) = 73728.
Proof.
  split; [reflexivity|].
  assert (Hp : 4096 ≠ 0) by lia.
  apply (registry_exact 4096 (λ _, Bounds.posix 65536 8192) [Register 1; Register 2; Register 1; Unregister 1] Hp).
  exists [Register 1], [Register 1; Unregister 1]. split; [reflexivity|]. split; set_solver.
Defined.

(** A thread that has unregistered cannot register again: [safepoint] of its state
    stays set, [immix_prepare_thread] takes the thread for prepared, and whatever calls
    follow it is not in the vector, so its stack is not scanned. *)
Theorem reregister_ignored page bounds before between after t : page ≠ 0 → Register t ∈ before →
  t ∉ threads (history page bounds (before ++ Unregister t :: between ++ Register t :: after)).
Proof.
  intros Hp Hr. rewrite (proj1 (proj2 (history_ok page bounds Hp _) t)). intros (b & a & E & Hb & Ha).
  assert (Hpre : ∃ mid, before = b ++ Register t :: mid).
  { apply app_eq_inv in E as [(k & -> & Ek)|(k & -> & Ek)].
    - destruct k as [|c k]; cbn in Ek; [by injection Ek|]. injection Ek as -> Ek. set_solver.
    - destruct k as [|c k]; cbn in Ek; [by injection Ek|]. injection Ek as <- Ek. set_solver. }
  destruct Hpre as (mid & ->). rewrite <-app_assoc in E. apply app_inv_head in E. injection E as <-. set_solver.
Qed.

Lemma reregister_ignored_witness :
  1%nat ∉ threads (history 4096 (λ _, Bounds.posix 65536 8192) ([Register 1] ++ Unregister 1 :: [] ++ Register 1 :: [])).
Proof. apply (reregister_ignored 4096 (λ _, Bounds.posix 65536 8192) [Register 1] [] [] 1); [lia|left]. Defined.

(** C29: What is scanned of a stack: for a thread stopped at [sp] on a stack that
    [pthread_attr_getstack] reports, whose top is a multiple of 16, [collect_roots] visits
    the aligned words from [sp], rounded up to 16, to the end of the stack, each once and
    in ascending order, and nothing else; where [sp] is not a multiple of 16 the word at
    [sp] is not visited. *)
Theorem stack_words_scanned page lowest size sp immix los pm st : page ≠ 0 →
  0 < lowest → (lowest + size) mod 16 = 0 → lowest <= sp <= lowest + size → lowest + size < 2 ^ 63 →
  ∃ t words, stopped page (Bounds.posix lowest size) sp = Ok t ∧
    collect_roots immix los pm (stack_bottom t) (stack_end t) st = for_each (scan_word immix los pm) words st ∧
    StronglySorted Z.lt words ∧ (∀ a, a ∈ words ↔ round16 sp <= a < lowest + size ∧ a mod 8 = 0) ∧
    (sp mod 16 ≠ 0 → sp ∉ words).
Proof.
  intros Hp Hl Hm Hsp Hh.
  destruct (stack_scan_ok page lowest size sp immix los pm st Hp Hl Hm Hsp Hh) as (t & words & E & Es & Hn & Hin).
  exists t, words. split_and!; try done. intros Hne [[Hle _] _]%Hin.
  pose proof (Rounding.ceil_div_bounds sp 16 ltac:(lia)). unfold round16 in Hle.
  assert (sp = Rounding.ceil_div sp 16 * 16) by lia. apply Hne. Z.div_mod_to_equations. lia.
Qed.

Lemma stack_words_scanned_witness : let _ : Cfg := false in
  ∃ t words, stopped 4096 (Bounds.posix 65536 8192) 73704 = Ok t ∧
    collect_roots rooted_space LOS.new ∅ (stack_bottom t) (stack_end t) ([], rooted_world) =
      for_each (scan_word rooted_space LOS.new ∅) words ([], rooted_world) ∧
    73712 ∈ words ∧ (73704 ∉ words).
Proof.
  intros cfg. destruct (stack_words_scanned 4096 65536 8192 73704 rooted_space LOS.new ∅ ([], rooted_world))
    as (t & words & E & Es & _ & Hin & Hn); [lia|lia|reflexivity|lia|lia|].
  exists t, words. split; [exact E|]. split; [exact Es|]. split; [|apply Hn; discriminate].
  apply Hin. split; [|reflexivity]. change (73712 <= 73712 < 65536 + 8192). lia.
Defined.

(** The stack pointer a thread records depends on the target: on AArch64 it is 8
    bytes above the register, so that with a stack pointer that is a multiple of 16, as
    the ABI has it, the two lowest words of the stack are not visited; on x86-64 all of
    them are. *)
Theorem stack_pointer_skips page lowest size reg local target skip immix los pm st : page ≠ 0 →
  (target, skip) ∈ [(StackPointer.x86_64, 0); (StackPointer.aarch64, 16)] →
  0 < lowest → (lowest + size) mod 16 = 0 → reg mod 16 = 0 → lowest <= reg < lowest + size → lowest + size < 2 ^ 63 →
  ∃ sp t words, StackPointer.get_sp target reg local = Some sp ∧ stopped page (Bounds.posix lowest size) sp = Ok t ∧
    collect_roots immix los pm (stack_bottom t) (stack_end t) st = for_each (scan_word immix los pm) words st ∧
    ∀ a, a ∈ words ↔ reg + skip <= a < lowest + size ∧ a mod 8 = 0.
Proof.
  intros Hp Ht Hl Hm Hr Hreg Hh.
  assert (Hsp : ∃ sp, StackPointer.get_sp target reg local = Some sp ∧ lowest <= sp <= lowest + size ∧ round16 sp = reg + skip).
  { rewrite !elem_of_cons, elem_of_nil in Ht. destruct Ht as [[= -> ->]|[[= -> ->]|[]]];
      (eexists; split; [done|]); rewrite ?trunc_small by (unfold in_width; lia);
      (split; [Z.div_mod_to_equations; lia|unfold round16, Rounding.ceil_div; Z.div_mod_to_equations; lia]). }
  destruct Hsp as (sp & E & Hsp & Er). exists sp.
  destruct (stack_scan_ok page lowest size sp immix los pm st Hp Hl Hm Hsp Hh) as (t & words & Et & Es & _ & Hin).
  exists t, words. rewrite Er in Hin. done.
Qed.

Lemma stack_pointer_skips_witness : let _ : Cfg := false in
  ∃ sp t words, StackPointer.get_sp StackPointer.aarch64 73696 0 = Some sp ∧ stopped 4096 (Bounds.posix 65536 8192) sp = Ok t ∧
    collect_roots rooted_space LOS.new ∅ (stack_bottom t) (stack_end t) ([], rooted_world) =
      for_each (scan_word rooted_space LOS.new ∅) words ([], rooted_world) ∧ (73704 ∉ words).
Proof.
  intros cfg. destruct (stack_pointer_skips 4096 65536 8192 73696 0 StackPointer.aarch64 16 rooted_space LOS.new ∅ ([], rooted_world))
    as (sp & t & words & E & Et & Es & Hin); [lia|right; left|lia|reflexivity|reflexivity|lia|lia|].
  exists sp, t, words. split; [exact E|]. split; [exact Et|]. split; [exact Es|]. intros [[Hle _] _]%Hin. lia.
Defined.
