(* ===== verification/Stats.v ===== *)
(** * util/timer.rs, lib.rs: timers, statistics of collections, the summary

    [f32] is the specification of binary floating point of the Standard Library with 24
    bits of precision.  The clock is an argument: [now] is what [timestamp()] returned, in
    nanoseconds.  A report is the record of the numbers [immix_dump_summary] prints. *)

From stdpp Require Import base numbers list list_numbers.
From Stdlib Require Import ZArith Lia SpecFloat.
From S2P Require Import Prelude Immix.
Local Open Scope Z_scope.

Definition f32 : Type := spec_float.

Module F32.

Definition of_Z (n : Z) : f32 := binary_normalize 24 128 n 0 false.
Definition add : f32 → f32 → f32 := SFadd 24 128.
Definition sub : f32 → f32 → f32 := SFsub 24 128.
Definition mul : f32 → f32 → f32 := SFmul 24 128.
Definition div : f32 → f32 → f32 := SFdiv 24 128.
(** [f32::round]: to the nearest integer, halves away from zero. *)
Definition round (x : f32) : f32 :=
  match x with
  | S754_finite s m e =>
      if decide (0 <= e) then x
      else
        let q := (Z.pos m + 2 ^ (- e - 1)) / 2 ^ (- e) in
        if decide (q = 0) then S754_zero s else binary_normalize 24 128 (if s then - q else q) 0 s
  | _ => x
  end.

End F32.

(** ** util/timer.rs *)

Definition in_ms (ns : Z) : f32 := F32.div (F32.div (F32.of_Z ns) (F32.of_Z 1000)) (F32.of_Z 1000).

Record Timer : Type := mkTimer { active : bool; timestamp : Z }.

Definition Timer_new (active : bool) (now : Z) : Timer := mkTimer active (if active then now else 0).

Definition stop (self : Timer) (now : Z) : R (f32 * Timer) :=
  if active self then
    d ← u_sub now (timestamp self);
    Ok (in_ms d, mkTimer (active self) now)
  else Panic AssertFailed.

(** [stop_with]: the argument of the call of [f], if there is one, and the result. *)
Definition stop_with (self : Timer) (now : Z) : R (option f32 * Z) :=
  if active self then ts ← u_sub now (timestamp self); Ok (Some (in_ms ts), ts) else Ok (None, 0).

(** [Timer::ms]: the clock before and after [f()]. *)
Definition ms (active : bool) (before after : Z) : R f32 :=
  if active then diff ← u_sub after before; Ok (in_ms diff) else Ok (S754_zero false).

(** ** lib.rs: [CollectionStats] *)

Record CollectionStats : Type := mkStats { collections : Z; total_pause : f32; pauses : list f32 }.

Definition CollectionStats_new : CollectionStats := mkStats 0 (S754_zero false) [].

Definition add (self : CollectionStats) (pause : f32) : R CollectionStats :=
  n ← u_add 64 (collections self) 1;
  Ok (mkStats n (F32.add (total_pause self) pause) (pauses self ++ [pause])).

Definition pause (self : CollectionStats) : f32 := total_pause self.
Definition mutator (self : CollectionStats) (runtime : f32) : f32 := F32.sub runtime (total_pause self).

Definition percentage (self : CollectionStats) (runtime : f32) : f32 * f32 :=
  let gc_percentage := F32.round (F32.mul (F32.div (total_pause self) runtime) (F32.of_Z 100)) in
  let mutator_percentage := F32.sub (F32.of_Z 100) gc_percentage in
  (mutator_percentage, gc_percentage).

(** What [collect_internal] does about statistics, from its start to its end. *)
Definition record_pause (gc_stats : GcStats) (stats : CollectionStats) (start finish : Z) : R CollectionStats :=
  let timer := Timer_new (negb (bool_decide (gc_stats = StatsNone))) start in
  if decide (gc_stats = StatsNone) then Ok stats
  else '(duration, _) ← stop timer finish; add stats duration.

(** ** lib.rs: [immix_dump_summary] *)

Record Report : Type := mkReport {
  s_total : f32; s_mutator : f32; s_collection : f32; s_count : Z; s_mutator_pct : f32; s_gc_pct : f32 }.

(** [x as i32] *)
Definition as_i32 (x : Z) : Z := let y := trunc 32 x in if decide (y < 2 ^ 31) then y else y - 2 ^ 32.

Definition immix_dump_summary (stats : CollectionStats) (timer : Timer) (now : Z) : R (Report * Timer) :=
  '(runtime, timer') ← stop timer now;
  let '(m, gc) := percentage stats runtime in
  Ok (mkReport runtime (mutator stats runtime) (pause stats) (as_i32 (collections stats)) m gc, timer').

(** ** Sequences of stops and of collections *)

Fixpoint stops (timer : Timer) (nows : list Z) : R (list f32 * Timer) :=
  match nows with
  | [] => Ok ([], timer)
  | now :: nows' => '(d, timer1) ← stop timer now; '(ds, timer2) ← stops timer1 nows'; Ok (d :: ds, timer2)
  end.

(** The readings of a clock from [t0] on: they do not decrease; the times between them. *)
Fixpoint monotone (t0 : Z) (nows : list Z) : bool :=
  match nows with [] => true | t :: nows' => bool_decide (t0 <= t) && monotone t nows' end.
Fixpoint intervals (t0 : Z) (nows : list Z) : list Z :=
  match nows with [] => [] | t :: nows' => (t - t0) :: intervals t nows' end.

Definition last_reading (t0 : Z) (nows : list Z) : Z := default t0 (last nows).

Lemma last_reading_cons t0 t nows : last_reading t0 (t :: nows) = last_reading t nows.
Proof. unfold last_reading. rewrite last_cons. by destruct (last nows). Qed.

Lemma stops_ok t0 nows : stops (mkTimer true t0) nows =
  if monotone t0 nows then Ok (in_ms <$> intervals t0 nows, mkTimer true (last_reading t0 nows)) else Panic Overflow.
Proof.
  revert t0. induction nows as [|t nows IH]; intros t0; [done|]. cbn [stops monotone intervals]. unfold stop, u_sub.
  cbn [active timestamp]. case_decide as C; cbn; [|by rewrite bool_decide_eq_false_2].
  rewrite bool_decide_eq_true_2, IH by done. cbn. destruct (monotone t nows); [|done]. cbn. by rewrite last_reading_cons.
Qed.

Lemma sum_intervals t0 nows : sum_list (intervals t0 nows) = last_reading t0 nows - t0.
Proof.
  revert t0. induction nows as [|t nows IH]; intros t0; [unfold last_reading; cbn; lia|].
  rewrite last_reading_cons. cbn [intervals]. unfold sum_list in *. cbn [foldr]. rewrite IH. lia.
Qed.

Definition run_collections (g : GcStats) (times : list (Z * Z)) (stats : CollectionStats) : R CollectionStats :=
  for_each (λ s '(start, finish), record_pause g s start finish) times stats.

Lemma record_pause_ok g stats start finish : g ≠ StatsNone → start <= finish → 0 <= collections stats < 2 ^ 64 - 1 →
  record_pause g stats start finish = Ok (mkStats (collections stats + 1)
    (F32.add (total_pause stats) (in_ms (finish - start))) (pauses stats ++ [in_ms (finish - start)])).
Proof.
  intros Hg Ht Hc. unfold record_pause. rewrite decide_False, bool_decide_eq_false_2 by done. cbn.
  rewrite u_sub_ok by done. cbn. unfold add. rewrite u_add_ok by lia. done.
Qed.

Lemma run_collections_ok g times stats : g ≠ StatsNone → Forall (λ t : Z * Z, t.1 <= t.2) times →
  0 <= collections stats → collections stats + Z.of_nat (length times) < 2 ^ 64 →
  let ds := (λ t : Z * Z, in_ms (t.2 - t.1)) <$> times in
  run_collections g times stats = Ok (mkStats (collections stats + Z.of_nat (length times))
    (foldl F32.add (total_pause stats) ds) (pauses stats ++ ds)).
Proof.
  intros Hg. revert stats. induction times as [|[a b] times IH]; intros stats Ht H0 Hc; cbn [length] in Hc.
  { unfold run_collections. cbn. destruct stats. cbn. by rewrite app_nil_r, Z.add_0_r. }
  apply Forall_cons in Ht as [Hab Ht]. cbn in Hab. unfold run_collections in *. cbn [for_each].
  rewrite record_pause_ok, bind_Ok, IH by (done || cbn; lia). cbn. rewrite <-app_assoc. do 2 f_equal. lia.
Qed.

(** ** Properties *)

(** The timer measures intervals: stopping it at a series of times returns the time
    since the stop before, in milliseconds, and the intervals add up to the whole time;
    a clock that goes back is an arithmetic overflow, an inactive timer an assertion. *)
Theorem timer_intervals t nows :
  stops t nows =
    (if active t then
       if monotone (timestamp t) nows
       then Ok (in_ms <$> intervals (timestamp t) nows, mkTimer true (last_reading (timestamp t) nows))
       else Panic Overflow
     else match nows with [] => Ok ([], t) | _ :: _ => Panic AssertFailed end) ∧
  sum_list (intervals (timestamp t) nows) = last_reading (timestamp t) nows - timestamp t.
Proof.
  split; [|apply sum_intervals]. destruct t as [[|] t0]; cbn [active timestamp]; [apply stops_ok|by destruct nows].
Qed.

(** The statistics are those of the collections: after collections with the given
    start and end times, with statistics switched on, their number, the list of pauses in
    order, and the total pause as the sum in that order are recorded; switched off,
    nothing is. *)
Theorem stats_of_collections g times : Forall (λ t : Z * Z, t.1 <= t.2) times → Z.of_nat (length times) < 2 ^ 64 →
  let ds := (λ t : Z * Z, in_ms (t.2 - t.1)) <$> times in
  run_collections g times CollectionStats_new =
    Ok (if decide (g = StatsNone) then CollectionStats_new
        else mkStats (Z.of_nat (length times)) (foldl F32.add (S754_zero false) ds) ds).
Proof.
  intros Ht Hn. case_decide as Hg; [|by apply (run_collections_ok g times CollectionStats_new Hg Ht)].
  clear Ht Hn. unfold run_collections. induction times as [|[a b] times IH]; [done|]. cbn [for_each].
  unfold record_pause. by rewrite decide_True, bind_Ok.
Qed.

Lemma stats_of_collections_witness :
  run_collections Summary [(0, 250000000); (1000000000, 1500000000)] CollectionStats_new =
    Ok (mkStats 2 (F32.of_Z 750) [F32.of_Z 250; F32.of_Z 500]).
Proof.
  rewrite (stats_of_collections Summary [(0, 250000000); (1000000000, 1500000000)]);
    [vm_compute; reflexivity|repeat constructor; cbn; lia|reflexivity].
Defined.

(** A second summary is wrong: [immix_dump_summary] stops the timer, so the next one
    takes the time since then for the run time, while pauses are counted from the start.
    With a pause of 600 ms and summaries after 1000 ms and 1100 ms the first reports 60%
    for collections, the second 600%, and a negative time for the mutator. *)
Theorem second_summary_wrong :
  (stats ← run_collections Summary [(100000000, 700000000)] CollectionStats_new;
   '(r1, timer1) ← immix_dump_summary stats (Timer_new true 0) 1000000000;
   '(r2, _) ← immix_dump_summary stats timer1 1100000000;
   Ok (s_gc_pct r1, s_gc_pct r2, s_mutator r2, s_collection r2)) =
  Ok (F32.of_Z 60, F32.of_Z 600, F32.of_Z (-500), F32.of_Z 600).
Proof. vm_compute. reflexivity. Qed.
