(* ===== verification/Format.v ===== *)
(** * util.rs, lib.rs: text output

    The [Display] implementations: sizes with a unit, addresses, regions, and the list of
    pauses.  A text is a list of characters.  [size as f64] is [F64.round53], and divisions
    by 1024 are exact.  How [{:.1}] breaks a tie, and whether it prints the sign of a
    negative zero, differs between versions of the Rust library and is an argument. *)

From Stdlib Require Import ZArith Lia Ascii String SpecFloat.
From stdpp Require Import base numbers list list_numbers.
From S2P Require Import Prelude Util SpaceBitmap Immix Stats.
Local Open Scope Z_scope.
Local Open Scope list_scope.

Abbreviation text := (list ascii).
Definition lit (s : string) : text := list_ascii_of_string s.

(** ** Numbers in a base *)

Definition digit (d : Z) : ascii := ascii_of_nat (Z.to_nat (if decide (d < 10) then 48 + d else 87 + d)).
Definition digit_value (c : ascii) : Z :=
  let n := Z.of_nat (nat_of_ascii c) in if decide (n < 58) then n - 48 else n - 87.

Fixpoint digits (fuel : nat) (base n : Z) (acc : text) : text :=
  match fuel with
  | O => acc
  | S fuel' =>
      let acc' := digit (n mod base) :: acc in
      if decide (n / base = 0) then acc' else digits fuel' base (n / base) acc'
  end.

(** A number below 2^64 has at most 64 digits, and so has an [f32] in base 10. *)
Definition show (base n : Z) : text := digits 64 base n [].
Definition read (base : Z) (l : text) : Z := foldl (λ n c, n * base + digit_value c) 0 l.

Lemma digit_value_digit d : 0 <= d < 16 → digit_value (digit d) = d.
Proof.
  intros Hd. assert (Hall : Forall (λ d, digit_value (digit d) = d) (seqZ 0 16)) by (vm_decide).
  rewrite Forall_forall in Hall. apply Hall, elem_of_seqZ. lia.
Qed.

Lemma digits_spec fuel base n acc : 2 <= base <= 16 → 0 <= n < base ^ Z.of_nat fuel → (0 < fuel)%nat →
  ∃ ds, digits fuel base n acc = ds ++ acc ∧ read base ds = n ∧ ∀ c, c ∈ ds → ∃ d, 0 <= d < 16 ∧ c = digit d.
Proof.
  intros Hb. revert n acc. induction fuel as [|fuel IH]; intros n acc Hn Hf; [lia|]. cbn [digits].
  pose proof (Z.mod_pos_bound n base ltac:(lia)) as Hm. pose proof (Z.div_mod n base ltac:(lia)) as Hd.
  case_decide as E.
  - exists [digit (n mod base)]. split; [done|]. split; [cbn; rewrite digit_value_digit by lia; lia|].
    intros c ->%list_elem_of_singleton. exists (n mod base). split; [lia|done].
  - rewrite Nat2Z.inj_succ, Z.pow_succ_r in Hn by lia.
    assert (0 <= n / base) by (apply Z.div_pos; lia).
    assert (n / base < base ^ Z.of_nat fuel) by (apply Z.div_lt_upper_bound; lia).
    assert ((0 < fuel)%nat) by (destruct fuel; [cbn in *; lia|lia]).
    destruct (IH (n / base) (digit (n mod base) :: acc)) as (ds & -> & Hr & Hc); [lia|done|].
    exists (ds ++ [digit (n mod base)]). rewrite <- app_assoc. split; [done|]. split.
    + unfold read in *. rewrite foldl_app, Hr. cbn. rewrite digit_value_digit by lia. lia.
    + intros c [?|Hc1%list_elem_of_singleton]%elem_of_app; [by apply Hc|]. exists (n mod base). split; [lia|done].
Qed.

Lemma show_spec base n : 2 <= base <= 16 → 0 <= n < base ^ 64 →
  read base (show base n) = n ∧ ∀ c, c ∈ show base n → ∃ d, 0 <= d < 16 ∧ c = digit d.
Proof.
  intros Hb Hn. destruct (digits_spec 64 base n [] Hb Hn ltac:(lia)) as (ds & E & Hr & Hc).
  unfold show. rewrite E, app_nil_r. done.
Qed.

Lemma pow64_le base : 2 <= base → 2 ^ 64 <= base ^ 64.
Proof. intros. apply Z.pow_le_mono_l. lia. Qed.

(** ** [{:.1}] *)

Section Tenths.
Context (half_up neg_zero : bool).

(** [num / den] to the nearest integer. *)
Definition round_div (num den : Z) : Z :=
  let q := num / den in
  let r := num mod den in
  if decide (den < 2 * r ∨ (2 * r = den ∧ (half_up || Z.odd q) = true)) then q + 1 else q.

Definition show_tenths (t : Z) : text := show 10 (t / 10) ++ lit "." ++ [digit (t mod 10)].
Definition fmt_1 (num den : Z) : text := show_tenths (round_div (10 * num) den).

Lemma round_div_near num den : 0 < den → Z.abs (2 * (round_div num den * den - num)) <= den.
Proof. intros Hd. unfold round_div. pose proof (Z.div_mod num den ltac:(lia)). pose proof (Z.mod_pos_bound num den Hd). case_decide; nia. Qed.

(** ** [FormattedSize] *)

Definition FormattedSize_fmt (size : Z) : text :=
  let k := F64.round53 size in
  if decide (k < 2 ^ 10) then show 10 size ++ lit "B"
  else if decide (k < 2 ^ 20) then fmt_1 k (2 ^ 10) ++ lit "K"
  else if decide (k < 2 ^ 30) then fmt_1 k (2 ^ 20) ++ lit "M"
  else fmt_1 k (2 ^ 30) ++ lit "G".

(** ** [Address], [Region] *)

Definition Address_fmt (self : Z) : text := lit "0x" ++ show 16 self.
Definition Region_fmt (self : Region.Region) : text :=
  Address_fmt (Region.start self) ++ lit "-" ++ Address_fmt (Region.end_ self).

(** ** [SpaceBitmap], as [Debug] *)

(** [{:p}] prints an address like [Address]. *)
Definition SpaceBitmap_fmt (self : SpaceBitmap) : text :=
  lit "[begin=" ++ Address_fmt (heap_begin self) ++ lit ",end=" ++ Address_fmt (heap_limit self) ++ lit "]".

(** ** [AllNumbers] *)

Definition f32_fmt_1 (x : f32) : text :=
  match x with
  | S754_nan => lit "NaN"
  | S754_infinity s => (if s then lit "-" else []) ++ lit "inf"
  | S754_zero s => (if s && neg_zero then lit "-" else []) ++ lit "0.0"
  | S754_finite s m e =>
      (if s then lit "-" else []) ++
      (if decide (0 <= e) then fmt_1 (Z.pos m * 2 ^ e) 1 else fmt_1 (Z.pos m) (2 ^ (- e)))
  end.

(** The loop with its flag [first]. *)
Definition AllNumbers_fmt (nums : list f32) : text :=
  (foldl (λ '(out, first) num,
       ((if first : bool then out else out ++ lit ",") ++ f32_fmt_1 num, false)) (lit "[", true) nums).1 ++ lit "]".

(** [CollectionStats::pauses], as it is printed. *)
Definition pauses_fmt (self : CollectionStats) : text := AllNumbers_fmt (pauses self).

(** ** Reading back *)

Fixpoint upto (c : ascii) (l : text) : text * text :=
  match l with
  | [] => ([], [])
  | x :: l' => if decide (x = c) then ([], l') else let '(a, b) := upto c l' in (x :: a, b)
  end.

Definition read_address (l : text) : Z := read 16 (drop 2 l).
Definition read_region (l : text) : Z * Z := let '(a, b) := upto "-"%char l in (read_address a, read_address b).

(** The bounds of the heap behind the equality signs. *)
Definition read_bitmap (l : text) : Z * Z :=
  let '(_, r1) := upto "="%char l in let '(a, r2) := upto ","%char r1 in
  let '(_, r3) := upto "="%char r2 in let '(b, _) := upto "]"%char r3 in (read_address a, read_address b).

(** Tenths and the unit of a size. *)
Definition read_size (l : text) : option (Z * Z) :=
  let '(whole, rest) := upto "."%char l in
  match rest with
  | [d; u] => (λ unit, (10 * read 10 whole + digit_value d, unit)) <$>
      (if decide (u = "K"%char) then Some (2 ^ 10) else if decide (u = "M"%char) then Some (2 ^ 20)
       else if decide (u = "G"%char) then Some (2 ^ 30) else None)
  | [] => match last l with
          | Some u => if decide (u = "B"%char) then Some (10 * read 10 (take (List.length l - 1) l), 1) else None
          | None => None
          end
  | _ => None
  end.

Lemma upto_app c l r : c ∉ l → upto c (l ++ c :: r) = (l, r).
Proof.
  induction l as [|x l IH]; intros Hc; cbn; [by rewrite decide_True|].
  apply not_elem_of_cons in Hc as [Hne Hc]. rewrite decide_False by congruence. by rewrite IH.
Qed.

Lemma upto_none c l : c ∉ l → upto c l = (l, []).
Proof.
  induction l as [|x l IH]; intros Hc; cbn; [done|].
  apply not_elem_of_cons in Hc as [Hne Hc]. rewrite decide_False by congruence. by rewrite IH.
Qed.

Lemma show_no base n c : 2 <= base <= 16 → 0 <= n < base ^ 64 → (∀ d, 0 <= d < 16 → digit d ≠ c) → c ∉ show base n.
Proof. intros Hb Hn Hc Hin. destruct (show_spec base n Hb Hn) as [_ Hs]. destruct (Hs c Hin) as (d & Hd & E). by apply (Hc d Hd). Qed.

Lemma no_digit c : Forall (λ d, digit d ≠ c) (seqZ 0 16) → ∀ d, 0 <= d < 16 → digit d ≠ c.
Proof. rewrite Forall_forall. intros Hall d Hd. apply Hall, elem_of_seqZ. lia. Qed.

Lemma read_tenths t u unit : 0 <= t < 10 ^ 64 →
  ((u = "K"%char ∧ unit = 2 ^ 10) ∨ (u = "M"%char ∧ unit = 2 ^ 20) ∨ (u = "G"%char ∧ unit = 2 ^ 30)) →
  read_size (show_tenths t ++ [u]) = Some (t, unit).
Proof.
  intros Ht Hu. assert (Hn : 0 <= t / 10 < 10 ^ 64) by (split; [apply Z.div_pos; lia|apply Z.div_lt_upper_bound; lia]).
  unfold read_size, show_tenths. rewrite <- !app_assoc. cbn [app lit list_ascii_of_string].
  rewrite upto_app by (apply show_no; [lia|done|apply no_digit; vm_decide]).
  pose proof (Z.mod_pos_bound t 10 ltac:(lia)). rewrite digit_value_digit by lia. destruct (show_spec 10 (t / 10) ltac:(lia) Hn) as [-> _].
  replace (10 * (t / 10) + t mod 10) with t by (pose proof (Z.div_mod t 10); lia).
  by destruct Hu as [[-> ->]|[[-> ->]|[-> ->]]].
Qed.

Lemma round53_upper n : 0 <= n < 2 ^ 64 → F64.round53 n <= 2 ^ 65.
Proof.
  intros Hn. unfold F64.round53. case_decide as C; [lia|].
  pose proof (Z.log2_le_mono (2 ^ 53) n ltac:(lia)) as Hl. rewrite Z.log2_pow2 in Hl by lia. set (e := Z.log2 n - 52) in *.
  pose proof (Z.log2_lt_pow2 n 64 ltac:(lia)) as [Hl2 _]. specialize (Hl2 ltac:(lia)).
  pose proof (Z.pow_pos_nonneg 2 e ltac:(lia) ltac:(lia)) as Hp. pose proof (Z.div_mod n (2 ^ e) ltac:(lia)) as Hd.
  pose proof (Z.mod_pos_bound n (2 ^ e) Hp) as Hm.
  assert (2 ^ e <= 2 ^ 11) by (apply Z.pow_le_mono_r; lia). set (p := 2 ^ e) in *. set (q := n / p) in *. case_decide; nia.
Qed.

End Tenths.

(** ** Properties *)

(** C36: A size is printed so that what is printed can be read back: the number and the
    unit differ from the size (rounded to [f64], so exactly the size below 2^53) by at
    most a twentieth of the unit, and the unit is the largest power of 1024 up to 2^30
    that is not above the size.  Bytes are printed exactly. *)
Theorem formatted_size_accurate half_up size : in_width 64 size → ∃ tenths unit,
  read_size (FormattedSize_fmt half_up size) = Some (tenths, unit) ∧
  Z.abs (2 * (tenths * unit - 10 * F64.round53 size)) <= unit ∧
  unit ∈ [1; 2 ^ 10; 2 ^ 20; 2 ^ 30] ∧ (unit = 1 → tenths = 10 * size) ∧
  (unit ≠ 1 → unit <= F64.round53 size) ∧ (unit ≠ 2 ^ 30 → F64.round53 size < 1024 * unit).
Proof.
  intros [Hs0 Hs1]. change (2 ^ 64) with 18446744073709551616 in *. pose proof (F64.round53_lower size Hs0) as Hlo.
  pose proof (round53_upper size ltac:(lia)) as Hhi. unfold FormattedSize_fmt.
  set (k := F64.round53 size) in *.
  assert (Hten : ∀ den, 2 ^ 10 <= den → 0 <= round_div half_up (10 * k) den < 10 ^ 64).
  { intros den Hd. pose proof (round_div_near half_up (10 * k) den ltac:(lia)). split; [|].
    - unfold round_div. assert (0 <= 10 * k / den) by (apply Z.div_pos; lia). case_decide; lia.
    - assert (round_div half_up (10 * k) den <= 10 * k + den) by nia.
      unfold round_div in *. assert (10 * k / den <= 10 * k) by (apply Z.div_le_upper_bound; nia). case_decide; lia. }
  repeat case_decide.
  - assert (size < 2 ^ 53) by (unfold k, F64.round53 in *; case_decide; lia).
    assert (k = size) as Ek by (unfold k, F64.round53; rewrite decide_True by lia; done).
    exists (10 * size), 1. split_and!; try lia; [|left].
    unfold read_size. rewrite upto_none; cycle 1.
    { rewrite not_elem_of_app. split; [apply show_no; [lia|lia|apply no_digit; vm_decide]|].
      vm_decide. }
    destruct (show_spec 10 size ltac:(lia) ltac:(lia)) as [Hr _]. generalize dependent (show 10 size). intros l Hr.
    rewrite last_app, length_app. cbn [last lit list_ascii_of_string List.length from_option option_union].
    rewrite Nat.add_sub, take_app_length, Hr. done.
  - exists (round_div half_up (10 * k) (2 ^ 10)), (2 ^ 10). split_and!; try lia;
      [by apply read_tenths; [apply Hten; lia|tauto]|apply round_div_near; lia|by right; left].
  - exists (round_div half_up (10 * k) (2 ^ 20)), (2 ^ 20). split_and!; try lia;
      [by apply read_tenths; [apply Hten; lia|tauto]|apply round_div_near; lia|by right; right; left].
  - exists (round_div half_up (10 * k) (2 ^ 30)), (2 ^ 30). split_and!; try lia;
      [by apply read_tenths; [apply Hten; lia|tauto]|apply round_div_near; lia|by right; right; right; left].
Qed.

Lemma formatted_size_accurate_witness : ∃ tenths unit,
  read_size (FormattedSize_fmt false 1536000) = Some (tenths, unit) ∧ Z.abs (2 * (tenths * unit - 10 * 1536000)) <= unit.
Proof.
  destruct (formatted_size_accurate false 1536000) as (tenths & unit & E & Hn & _); [split; [lia|reflexivity]|].
  exists tenths, unit. split; [exact E|exact Hn].
Defined.

(** The unit is chosen before the number is rounded: just below a unit the number is
    that unit in the smaller one. *)
Lemma size_just_below_a_unit half_up : FormattedSize_fmt half_up (2 ^ 20 - 1) = lit "1024.0K".
Proof. by destruct half_up. Qed.

(** Addresses and regions can be read back from what is printed. *)
Theorem address_display_roundtrip a : in_width 64 a → read_address (Address_fmt a) = a.
Proof.
  intros [? ?]. unfold read_address, Address_fmt. change (drop 2 (lit "0x" ++ show 16 a)) with (show 16 a).
  pose proof (pow64_le 16). by apply show_spec; lia.
Qed.

Lemma address_no c a : in_width 64 a → Forall (λ d, digit d ≠ c) (seqZ 0 16) → c ∉ lit "0x" → c ∉ Address_fmt a.
Proof.
  intros [Ha1 Ha2] Hc Hx. pose proof (pow64_le 16). unfold Address_fmt. rewrite not_elem_of_app. split; [done|].
  apply show_no; [lia|lia|]. by apply no_digit.
Qed.

Theorem region_display_roundtrip r : in_width 64 (Region.start r) → in_width 64 (Region.end_ r) →
  read_region (Region_fmt r) = (Region.start r, Region.end_ r).
Proof.
  intros Hs He. unfold read_region, Region_fmt. cbn [lit list_ascii_of_string app].
  rewrite upto_app; [by rewrite !address_display_roundtrip|]. apply address_no; [done|vm_decide..].
Qed.

Theorem bitmap_debug_roundtrip self : in_width 64 (heap_begin self) → in_width 64 (heap_limit self) →
  read_bitmap (SpaceBitmap_fmt self) = (heap_begin self, heap_limit self).
Proof.
  intros Hb He. unfold read_bitmap, SpaceBitmap_fmt.
  assert (Hs : ∀ c l m r, c ∉ l → upto c ((l ++ [c] ++ m) ++ r) = (l, m ++ r)).
  { intros c l m r Hc. rewrite <- app_assoc. by apply upto_app. }
  change (lit "[begin=") with (lit "[begin" ++ ["="%char] ++ []). rewrite Hs by vm_decide.
  change (lit ",end=") with ([","%char] ++ lit "end="). rewrite app_nil_l, (app_assoc (Address_fmt _)), Hs by (apply address_no; [done|vm_decide..]).
  change (lit "end=") with (lit "end" ++ ["="%char] ++ []). rewrite Hs, app_nil_l by vm_decide.
  change (lit "]") with ["]"%char]. rewrite upto_app by (apply address_no; [done|vm_decide..]). by rewrite !address_display_roundtrip.
Qed.

(** The loop over the pauses puts a comma between numbers and nowhere else. *)
Fixpoint separated (l : list text) : text :=
  match l with
  | [] => []
  | [x] => x
  | x :: l' => x ++ lit "," ++ separated l'
  end.

Theorem all_numbers_separated half_up neg_zero nums :
  AllNumbers_fmt half_up neg_zero nums = lit "[" ++ separated (f32_fmt_1 half_up neg_zero <$> nums) ++ lit "]".
Proof.
  unfold AllNumbers_fmt. set (step := λ '(out, first) num, _). set (fm := f32_fmt_1 half_up neg_zero).
  set (rest := λ l : list f32, l ≫= (λ x, lit "," ++ fm x)).
  assert (Hl : ∀ l out, foldl step (out, false) l = (out ++ rest l, false)).
  { induction l as [|x l IH]; intros out; [cbn; by rewrite app_nil_r|]. cbn [foldl].
    change (step (out, false) x) with ((out ++ lit ",") ++ fm x, false). rewrite IH. unfold rest. rewrite bind_cons.
    by rewrite !app_assoc. }
  assert (Hsep : ∀ l x, separated (fm <$> x :: l) = fm x ++ rest l).
  { induction l as [|y l IH]; intros x; [cbn; by rewrite app_nil_r|]. rewrite !fmap_cons.
    change (separated (fm x :: fm y :: (fm <$> l))) with (fm x ++ lit "," ++ separated (fm <$> y :: l)).
    rewrite IH. unfold rest. rewrite bind_cons. by rewrite <- !app_assoc. }
  destruct nums as [|x l]; [done|]. cbn [foldl]. change (step (lit "[", true) x) with (lit "[" ++ fm x, false).
  rewrite Hl, Hsep. cbn [fst]. by rewrite <- !app_assoc.
Qed.
