(* ===== verification/Signals.v ===== *)
(** * signals/unix.rs, signals/windows.rs: faults as safepoints

    A thread that touches the protected page gets a signal; the handler waits for the end
    of the collection and returns, and the processor runs the instruction again.  Any other
    fault puts the default action back and returns, so the next try ends the process.  The
    handlers are lists of the system calls they make; [access] plays an instruction that
    faults against them. *)

From stdpp Require Import functions base numbers list.
From Stdlib Require Import ZArith Lia.
From S2P Require Import Prelude Util.
Local Open Scope Z_scope.

(** ** Handlers for Unix *)

Inductive Signal : Type := SIGSEGV | SIGBUS | SIGILL | OtherSignal (n : Z).
#[global] Instance Signal_eq_dec : EqDecision Signal.
Proof. solve_decision. Defined.

Inductive Action : Type :=
| set_gc_and_wait
| unblock_all
| set_default (sig : Signal)
| raise (sig : Signal).

Inductive Disposition : Type := SIG_DFL | segv_handler_.

(** The actions set for signals; [faults i] is whether the [i]-th try of an access faults. *)
Definition Table : Type := Signal → Disposition.

Section Unix.
Context (threaded : bool) (SAFEPOINT_PAGE : Z).

Definition addr_in_safepoint (addr : Z) : bool := bool_decide (addr = SAFEPOINT_PAGE).

Definition sigdie_handler (sig : Signal) : list Action :=
  [unblock_all; set_default sig] ++
  (if decide (sig ≠ SIGSEGV ∧ sig ≠ SIGBUS ∧ sig ≠ SIGILL) then [raise sig] else []).

Definition segv_handler (sig : Signal) (si_addr : Z) : list Action :=
  if threaded && addr_in_safepoint si_addr then [set_gc_and_wait] else sigdie_handler sig.

(** [sigaction] is the result of the system call. *)
Definition allocate_segv_handler (sigaction : Signal → Z) (table : Table) : R Table :=
  if decide (sigaction SIGSEGV < 0) then Panic AssertFailed
  else if decide (sigaction SIGBUS < 0) then Panic AssertFailed
  else Ok (<[SIGBUS := segv_handler_]> (<[SIGSEGV := segv_handler_]> table)).

Definition install_default_signal_handlers (sigaction : Signal → Z) (table : Table) : R Table :=
  allocate_segv_handler sigaction table.

(** ** An instruction that faults *)

Inductive Outcome : Type :=
| Done (table : Table) (waits : nat)
| Killed (sig : Signal) (waits : nat)
| Running.

(** What the kernel does for an action; a raised signal is dealt with at once. *)
Definition perform (st : option (Table * nat)) (a : Action) : option (Table * nat) :=
  '(table, waits) ← st;
  match a with
  | set_gc_and_wait => Some (table, S waits)
  | unblock_all => Some (table, waits)
  | set_default sig => Some (<[sig := SIG_DFL]> table, waits)
  | raise sig => match table sig with SIG_DFL => None | segv_handler_ => Some (table, waits) end
  end.

Fixpoint access (fuel : nat) (faults : nat → bool) (i : nat) (sig : Signal) (addr : Z) (table : Table) (waits : nat)
    : Outcome :=
  match fuel with
  | O => Running
  | S fuel' =>
      if faults i then
        match table sig with
        | SIG_DFL => Killed sig waits
        | segv_handler_ =>
            match foldl perform (Some (table, waits)) (segv_handler sig addr) with
            | Some (table', waits') => access fuel' faults (S i) sig addr table' waits'
            | None => Killed sig waits
            end
        end
      else Done table waits
  end.

End Unix.

(** ** Handlers for Windows *)

Inductive ExceptionResult : Type := EXCEPTION_CONTINUE_EXECUTION | EXCEPTION_CONTINUE_SEARCH.
Inductive ExceptionCode : Type := EXCEPTION_ACCESS_VIOLATION | OtherException (code : Z).

(** The result, and whether the handler has waited for the collection. *)
Definition exception_handler (threaded : bool) (SAFEPOINT_PAGE : Z) (flags : Z) (code : ExceptionCode) (info1 : Z)
    : ExceptionResult * bool :=
  if threaded then
    if decide (flags = 0) then
      match code with
      | EXCEPTION_ACCESS_VIOLATION =>
          if decide (info1 = SAFEPOINT_PAGE) then (EXCEPTION_CONTINUE_EXECUTION, true) else (EXCEPTION_CONTINUE_SEARCH, false)
      | OtherException _ => (EXCEPTION_CONTINUE_SEARCH, false)
      end
    else (EXCEPTION_CONTINUE_SEARCH, false)
  else (EXCEPTION_CONTINUE_SEARCH, false).

(** ** Theory *)

Lemma access_waits page faults sig addr table fuel n i waits : table sig = segv_handler_ → addr = page →
  (∀ k, (k < n)%nat → faults (i + k)%nat = true) → faults (i + n)%nat = false → (n < fuel)%nat →
  access true page fuel faults i sig addr table waits = Done table (waits + n).
Proof.
  intros Ht ->. revert fuel i waits. induction n as [|n IH]; intros fuel i waits Hf Hn Hfuel; destruct fuel as [|fuel]; try lia;
    cbn [access].
  - rewrite Nat.add_0_r in Hn. by rewrite Hn, Nat.add_0_r.
  - pose proof (Hf 0%nat ltac:(lia)) as H0. rewrite Nat.add_0_r in H0. rewrite H0, Ht. unfold segv_handler, addr_in_safepoint.
    rewrite bool_decide_eq_true_2 by done. cbn. rewrite (IH fuel (S i)); [f_equal; lia| |by rewrite <-Hn; f_equal; lia|lia].
    intros k Hk. rewrite <-(Hf (S k)) by lia. f_equal. lia.
Qed.

(** ** Properties *)

(** Faults are safepoints or fatal.  After [install_default_signal_handlers], with the
    feature [threaded], an access to the safepoint page that faults until the page is
    opened waits for the collection at each fault, is then done, and the handlers are
    still installed; an access elsewhere, whose cause does not go away, kills the process
    with its signal at the second try without waiting. *)
Theorem fault_outcome page sigaction table0 table faults sig addr n fuel : (∀ s, 0 <= sigaction s) →
  install_default_signal_handlers sigaction table0 = Ok table → sig = SIGSEGV ∨ sig = SIGBUS → (n + 1 < fuel)%nat →
  (addr = page → (∀ k, (k < n)%nat → faults k = true) → faults n = false →
     access true page fuel faults 0 sig addr table 0 = Done table n) ∧
  (addr ≠ page → faults 0%nat = true → faults 1%nat = true → access true page fuel faults 0 sig addr table 0 = Killed sig 0).
Proof.
  intros Ha Hi Hs Hf. unfold install_default_signal_handlers, allocate_segv_handler in Hi.
  rewrite !decide_False in Hi by (apply Z.le_ngt, Ha). injection Hi as <-.
  assert (Ht : (<[SIGBUS := segv_handler_]> (<[SIGSEGV := segv_handler_]> table0) : Table) sig = segv_handler_)
    by (by destruct Hs as [-> | ->]).
  split; [intros He Hk Hn; apply (access_waits page faults sig addr _ fuel n 0 0 Ht He Hk Hn); lia|].
  intros Hne H0 H1. destruct fuel as [|[|fuel]]; try lia. cbn [access]. rewrite H0, Ht.
  unfold segv_handler, addr_in_safepoint. rewrite bool_decide_eq_false_2 by done. cbn [andb].
  assert (Hd : sigdie_handler sig = [unblock_all; set_default sig]) by (by destruct Hs as [-> | ->]).
  rewrite Hd. cbn. rewrite H1. by destruct Hs as [-> | ->].
Qed.

Lemma fault_outcome_witness : ∃ table, install_default_signal_handlers (λ _, 0) (λ _, SIG_DFL) = Ok table ∧
  access true 4096 5 (λ k, bool_decide (k < 3)%nat) 0 SIGSEGV 4096 table 0 = Done table 3 ∧
  access true 4096 5 (λ _, true) 0 SIGSEGV 8 table 0 = Killed SIGSEGV 0.
Proof.
  eexists. split; [reflexivity|]. split.
  - apply (fault_outcome 4096 (λ _, 0) (λ _, SIG_DFL) _ (λ k, bool_decide (k < 3)%nat) SIGSEGV 4096 3 5);
      [intros; lia|reflexivity|by left|lia|reflexivity| |reflexivity].
    intros k Hk. by apply bool_decide_eq_true_2.
  - apply (fault_outcome 4096 (λ _, 0) (λ _, SIG_DFL) _ (λ _, true) SIGSEGV 8 3 5);
      [intros; lia|reflexivity|by left|lia|lia|reflexivity|reflexivity].
Defined.
