(* ===== verification/Safepoint.v ===== *)
(** * safepoint.rs, threading.rs: stopping the threads for a collection

    The handshake between the thread that collects and the others, as a transition
    system over interleavings.  Each rule is one access to shared state: a lock, an
    atomic, the registry, or the protection of the safepoint page.  [pc] says where
    a thread is inside the functions of the two files; the argument of most of its
    constructors is the [gc_state] to restore later ([old_state]).

    [willdebug] is the build feature of that name: with it a yieldpoint loads
    [GC_RUNNING]; without it a yieldpoint writes to the safepoint page and only a
    fault stops the thread.  [compare_exchange_weak] may fail spuriously. *)

From stdpp Require Import base numbers list relations functions.
From Stdlib Require Import ZArith Lia.
From S2P Require Import Prelude.
Local Open Scope Z_scope.

Definition GC_STATE_WAITING : Z := 1.
Definition GC_STATE_SAFE : Z := 2.

Inductive pc : Type :=
(** the program; managed code if the [gc_state] is 0 *)
| Run
(** [TLSState::yieldpoint] *)
| Yield
(** [set_gc_and_wait]: before and after storing [GC_STATE_WAITING], and after the wait *)
| SetWait
| Waiting (state : Z)
| Resume (state : Z)
(** [safepoint_start_gc] *)
| StartLock (old : Z) | StartCas (old : Z) | StartEnable (old : Z) | StartProtect (old : Z) | StartUnlock (old : Z)
| LoserUnlock (old : Z) | LoserWait (old : Z)
(** [safepoint_wait_for_the_world]: the threads left, and whether the first of the two
    loads for the next one has seen a state other than 0 *)
| WorldLock (old : Z) | WorldWait (old : Z) (rest : list nat) (seen : bool)
(** the collection itself *)
| Collecting (old : Z)
(** [safepoint_end_gc], [drop(threads)] *)
| EndLock (old : Z) | EndStore (old : Z) | EndUnlock (old : Z) | DropThreads (old : Z)
(** [gc_state_set(old, GC_STATE_WAITING)] *)
| Restore (old : Z)
(** [immix_register_thread], [immix_unregister_thread] *)
| RegisterLock | RegisterPush
| UnregisterLock | UnregisterRetain.

Record Shared : Type := mkShared {
  GC_RUNNING : bool;
  page_writable : bool;
  SAFEPOINT_LOCK : option nat;
  threads_lock : option nat;
  threads : list nat;
  (** thread-local: the [safepoint] pointer is set *)
  prepared : nat → bool;
  gc_state : nat → Z;
  at_pc : nat → pc
}.

Definition goto (s : Shared) (t : nat) (p : pc) : Shared :=
  mkShared (GC_RUNNING s) (page_writable s) (SAFEPOINT_LOCK s) (threads_lock s) (threads s) (prepared s)
    (gc_state s) (<[t := p]> (at_pc s)).
Definition set_gc_state (s : Shared) (t : nat) (x : Z) : Shared :=
  mkShared (GC_RUNNING s) (page_writable s) (SAFEPOINT_LOCK s) (threads_lock s) (threads s) (prepared s)
    (<[t := x]> (gc_state s)) (at_pc s).
Definition set_running (s : Shared) (b : bool) : Shared :=
  mkShared b (page_writable s) (SAFEPOINT_LOCK s) (threads_lock s) (threads s) (prepared s) (gc_state s) (at_pc s).
Definition set_page (s : Shared) (b : bool) : Shared :=
  mkShared (GC_RUNNING s) b (SAFEPOINT_LOCK s) (threads_lock s) (threads s) (prepared s) (gc_state s) (at_pc s).
Definition set_sp_lock (s : Shared) (o : option nat) : Shared :=
  mkShared (GC_RUNNING s) (page_writable s) o (threads_lock s) (threads s) (prepared s) (gc_state s) (at_pc s).
Definition set_threads_lock (s : Shared) (o : option nat) : Shared :=
  mkShared (GC_RUNNING s) (page_writable s) (SAFEPOINT_LOCK s) o (threads s) (prepared s) (gc_state s) (at_pc s).
Definition set_threads (s : Shared) (l : list nat) : Shared :=
  mkShared (GC_RUNNING s) (page_writable s) (SAFEPOINT_LOCK s) (threads_lock s) l (prepared s) (gc_state s) (at_pc s).
Definition set_prepared (s : Shared) (t : nat) : Shared :=
  mkShared (GC_RUNNING s) (page_writable s) (SAFEPOINT_LOCK s) (threads_lock s) (threads s) (<[t := true]> (prepared s))
    (gc_state s) (at_pc s).

(** [gc_state_set(state, old_state)]: store the state, then yield if managed code is
    entered again. *)
Definition gc_state_set (s : Shared) (t : nat) (state old : Z) : Shared :=
  goto (set_gc_state s t state) t (if decide (old ≠ 0 ∧ state = 0) then Yield else Run).

(** Both [mprotect] calls ask for a page that can be read and written. *)
Definition enable_safepoint (s : Shared) : Shared := set_page s true.
Definition disable_safepoint (s : Shared) : Shared := set_page s true.

(** After [safepoint_init], with no thread registered. *)
Definition init : Shared :=
  mkShared false true None None [] (λ _, false) (λ _, 0) (λ _, Run).

(** [safepoint_alloc_page] and [safepoint_init]; [reply] is what [mmap] or [VirtualAlloc]
    returned. *)
Inductive Family : Type := Unix | Windows.
Definition MAP_FAILED : Z := 2 ^ 64 - 1.
Definition safepoint_alloc_page (os : Family) (reply : Z) : R Z :=
  let addr := match os with Unix => if decide (reply = MAP_FAILED) then 0 else reply | Windows => reply end in
  if decide (addr = 0) then Panic AssertFailed else Ok addr.
Definition safepoint_init (os : Family) (reply : Z) : R (Z * Shared) :=
  let addr := match os with Unix => if decide (reply = MAP_FAILED) then 0 else reply | Windows => reply end in
  if decide (addr = 0) then Panic AssertFailed else Ok (addr, init).

(** A page that was refused stops the program; there is never a null safepoint page. *)
Lemma safepoint_init_page os reply : in_width 64 reply →
  (∃ addr, safepoint_init os reply = Ok (addr, init) ∧ safepoint_alloc_page os reply = Ok addr ∧ 0 < addr) ∨
  (safepoint_init os reply = Panic AssertFailed ∧ (reply = 0 ∨ os = Unix ∧ reply = MAP_FAILED)).
Proof.
  intros [? ?]. unfold safepoint_init, safepoint_alloc_page.
  destruct os; repeat case_decide; try done; try (right; tauto); left; exists reply; (split_and!; [done..|lia]).
Qed.

Section Steps.
Context (willdebug : bool).

(** threading.rs: the states of a thread, yieldpoints and the registry. *)
Inductive thread_step (t : nat) (s : Shared) : Shared → Prop :=
(** [immix_unsafe_enter], [immix_safe_enter]: from the current state *)
| t_save_and_set state : at_pc s t = Run → state = 0 ∨ state = GC_STATE_SAFE →
    thread_step t s (gc_state_set s t state (gc_state s t))
(** [immix_unsafe_leave], [immix_safe_leave] *)
| t_unsafe_leave state : at_pc s t = Run → thread_step t s (gc_state_set s t state 0)
| t_safe_leave state : at_pc s t = Run → thread_step t s (gc_state_set s t state GC_STATE_SAFE)
(** [immix_mutator_yieldpoint] *)
| t_yieldpoint : at_pc s t = Run → thread_step t s (goto s t Yield)
| t_yield_check : at_pc s t = Yield → willdebug = true →
    thread_step t s (goto s t (if GC_RUNNING s then SetWait else Run))
| t_yield_store : at_pc s t = Yield → willdebug = false →
    thread_step t s (goto s t (if page_writable s then Run else SetWait))
(** [set_gc_and_wait] and [safepoint_wait_gc]; after a fault the faulting store is
    executed again *)
| t_set_wait : at_pc s t = SetWait →
    thread_step t s (goto (set_gc_state s t GC_STATE_WAITING) t (Waiting (gc_state s t)))
| t_waited state : at_pc s t = Waiting state → GC_RUNNING s = false → thread_step t s (goto s t (Resume state))
| t_resume state : at_pc s t = Resume state →
    thread_step t s (goto (set_gc_state s t state) t (if willdebug then Run else Yield))
(** registration *)
| t_register : at_pc s t = Run → thread_step t s (goto s t RegisterLock)
| t_register_lock : at_pc s t = RegisterLock → threads_lock s = None →
    thread_step t s (goto (set_threads_lock s (Some t)) t RegisterPush)
| t_register_push : at_pc s t = RegisterPush →
    thread_step t s (goto (set_threads_lock
      (if prepared s t then s else set_prepared (set_threads s (threads s ++ [t])) t) None) t Run)
| t_unregister : at_pc s t = Run → thread_step t s (goto s t UnregisterLock)
| t_unregister_lock : at_pc s t = UnregisterLock → threads_lock s = None →
    thread_step t s (goto (set_threads_lock s (Some t)) t UnregisterRetain)
| t_unregister_retain : at_pc s t = UnregisterRetain →
    thread_step t s (goto (set_threads_lock (set_threads s (filter (λ u, u ≠ t) (threads s))) None) t Run).

(** safepoint.rs and its calls in [collect_internal]: one collection from its request to
    its end. *)
Inductive gc_step (t : nat) (s : Shared) : Shared → Prop :=
(** up to [safepoint_start_gc] *)
| t_collect : at_pc s t = Run →
    gc_step t s (goto (set_gc_state s t GC_STATE_WAITING) t (StartLock (gc_state s t)))
| t_start_lock old : at_pc s t = StartLock old → SAFEPOINT_LOCK s = None →
    gc_step t s (goto (set_sp_lock s (Some t)) t (StartCas old))
| t_start_won old : at_pc s t = StartCas old → GC_RUNNING s = false →
    gc_step t s (goto (set_running s true) t (StartEnable old))
| t_start_lost old : at_pc s t = StartCas old → gc_step t s (goto s t (LoserUnlock old))
| t_start_enable old : at_pc s t = StartEnable old → threads_lock s = None →
    gc_step t s (goto (set_threads_lock s (Some t)) t (StartProtect old))
| t_start_protect old : at_pc s t = StartProtect old →
    gc_step t s (goto (set_threads_lock (enable_safepoint s) None) t (StartUnlock old))
| t_start_unlock old : at_pc s t = StartUnlock old →
    gc_step t s (goto (set_sp_lock s None) t (WorldLock old))
| t_loser_unlock old : at_pc s t = LoserUnlock old →
    gc_step t s (goto (set_sp_lock s None) t (LoserWait old))
| t_loser_wait old : at_pc s t = LoserWait old → GC_RUNNING s = false → gc_step t s (goto s t (Restore old))
(** [safepoint_wait_for_the_world] *)
| t_world_lock old : at_pc s t = WorldLock old → threads_lock s = None →
    gc_step t s (goto (set_threads_lock s (Some t)) t (WorldWait old (threads s) false))
| t_world_self old rest seen : at_pc s t = WorldWait old (t :: rest) seen →
    gc_step t s (goto s t (WorldWait old rest false))
| t_world_first old u rest : at_pc s t = WorldWait old (u :: rest) false → u ≠ t → gc_state s u ≠ 0 →
    gc_step t s (goto s t (WorldWait old (u :: rest) true))
| t_world_again old u rest : at_pc s t = WorldWait old (u :: rest) true → u ≠ t → gc_state s u = 0 →
    gc_step t s (goto s t (WorldWait old (u :: rest) false))
| t_world_second old u rest : at_pc s t = WorldWait old (u :: rest) true → u ≠ t → gc_state s u ≠ 0 →
    gc_step t s (goto s t (WorldWait old rest false))
| t_world_stopped old seen : at_pc s t = WorldWait old [] seen → gc_step t s (goto s t (Collecting old))
(** the end of the collection *)
| t_collected old : at_pc s t = Collecting old → gc_step t s (goto s t (EndLock old))
| t_end_lock old : at_pc s t = EndLock old → SAFEPOINT_LOCK s = None →
    gc_step t s (goto (set_sp_lock s (Some t)) t (EndStore old))
| t_end_store old : at_pc s t = EndStore old →
    gc_step t s (goto (set_running (disable_safepoint s) false) t (EndUnlock old))
| t_end_unlock old : at_pc s t = EndUnlock old → gc_step t s (goto (set_sp_lock s None) t (DropThreads old))
| t_drop_threads old : at_pc s t = DropThreads old → gc_step t s (goto (set_threads_lock s None) t (Restore old))
| t_restore old : at_pc s t = Restore old → gc_step t s (gc_state_set s t old GC_STATE_WAITING).

Definition tstep (t : nat) (s s' : Shared) : Prop := thread_step t s s' ∨ gc_step t s s'.
Definition step (s s' : Shared) : Prop := ∃ t, tstep t s s'.
Definition reachable (s : Shared) : Prop := rtc step init s.

End Steps.

(** ** Invariants *)

(** The thread has won [GC_RUNNING] and not yet given it back. *)
Definition owns (p : pc) : Prop :=
  match p with
  | StartEnable _ | StartProtect _ | StartUnlock _ | WorldLock _ | WorldWait _ _ _ | Collecting _ | EndLock _ | EndStore _ => True
  | _ => False
  end.

Definition holds_sp (p : pc) : Prop :=
  match p with
  | StartCas _ | StartEnable _ | StartProtect _ | StartUnlock _ | LoserUnlock _ | EndStore _ | EndUnlock _ => True
  | _ => False
  end.

Definition holds_threads (p : pc) : Prop :=
  match p with
  | StartProtect _ | WorldWait _ _ _ | Collecting _ | EndLock _ | EndStore _ | EndUnlock _ | DropThreads _
  | RegisterPush | UnregisterRetain => True
  | _ => False
  end.

Record inv (s : Shared) : Prop := {
  iv_running : ∀ t, owns (at_pc s t) → GC_RUNNING s = true;
  iv_one : ∀ t u, owns (at_pc s t) → owns (at_pc s u) → t = u;
  iv_sp : ∀ t, holds_sp (at_pc s t) → SAFEPOINT_LOCK s = Some t;
  iv_threads : ∀ t, holds_threads (at_pc s t) → threads_lock s = Some t;
  iv_page : page_writable s = true
}.

(** A step changes the position of one thread only. *)
Lemma at_goto s t p u : at_pc (goto s t p) u = if decide (u = t) then p else at_pc s u.
Proof. cbn. case_decide as C; [subst; by rewrite fn_lookup_insert|by rewrite fn_lookup_insert_ne]. Qed.

(** The invariant for a state that differs at [t]: what has to be checked. *)
Lemma inv_goto s s' t p : inv s → at_pc s' = at_pc s → page_writable s' = true →
  (owns p → GC_RUNNING s' = true ∧ ∀ u, u ≠ t → ¬ owns (at_pc s u)) →
  ((∀ u, u ≠ t → ¬ owns (at_pc s u)) ∨ GC_RUNNING s' = GC_RUNNING s) →
  (holds_sp p → SAFEPOINT_LOCK s' = Some t) →
  (holds_threads p → threads_lock s' = Some t) →
  ((∀ u, u ≠ t → ¬ holds_sp (at_pc s u)) ∨ SAFEPOINT_LOCK s' = SAFEPOINT_LOCK s) →
  ((∀ u, u ≠ t → ¬ holds_threads (at_pc s u)) ∨ threads_lock s' = threads_lock s) →
  inv (goto s' t p).
Proof.
  intros [I1 I2 I3 I4 I5] Ea Hp Ho Hr Hs Ht Hs' Ht'. constructor; [intros u|intros u v|intros u|intros u|done]; rewrite ?at_goto, ?Ea; cbn.
  - case_decide; [by intros [? _]%Ho|]. intros Hu. destruct Hr as [Hr| ->]; [by apply Hr in Hu|eauto].
  - destruct (decide (u = t)) as [->|], (decide (v = t)) as [->|]; try done.
    + intros Hpo Hv. apply Ho in Hpo as [_ Hn]. by apply Hn in Hv.
    + intros Hu Hpo. apply Ho in Hpo as [_ Hn]. by apply Hn in Hu.
    + apply I2.
  - case_decide; [subst; auto|]. intros Hu. destruct Hs' as [Hn| ->]; [by apply Hn in Hu|auto].
  - case_decide; [subst; auto|]. intros Hu. destruct Ht' as [Hn| ->]; [by apply Hn in Hu|auto].
Qed.

(** Others do not own what [t] owns or holds. *)
Lemma others_own s t u : inv s → owns (at_pc s t) → u ≠ t → ¬ owns (at_pc s u).
Proof. intros Hi Ht Hne Hu. apply Hne. by eapply iv_one. Qed.
Lemma none_owns s u : inv s → GC_RUNNING s = false → ¬ owns (at_pc s u).
Proof. intros Hi E Hu. apply (iv_running _ Hi) in Hu. congruence. Qed.
Lemma others_sp s t u : inv s → SAFEPOINT_LOCK s = Some t ∨ SAFEPOINT_LOCK s = None → u ≠ t → ¬ holds_sp (at_pc s u).
Proof. intros Hi E Hne Hu. apply (iv_sp _ Hi) in Hu. destruct E; congruence. Qed.
Lemma others_threads s t u : inv s → threads_lock s = Some t ∨ threads_lock s = None → u ≠ t → ¬ holds_threads (at_pc s u).
Proof. intros Hi E Hne Hu. apply (iv_threads _ Hi) in Hu. destruct E; congruence. Qed.

Ltac at_t := match goal with H : at_pc ?s ?t = _ |- _ => rewrite ?H in *; cbn in * end.

Lemma handshake_inv willdebug s s' : inv s → step willdebug s s' → inv s'.
Proof.
  intros Hi [t Hs]. pose proof (iv_page _ Hi) as Hpg.
  pose proof (iv_running _ Hi t) as Hr. pose proof (iv_sp _ Hi t) as Hsp. pose proof (iv_threads _ Hi t) as Hth.
  pose proof (others_own s t) as Ho. pose proof (λ u, none_owns s u Hi) as Hn.
  pose proof (others_sp s t) as Hos. pose proof (others_threads s t) as Hot.
  destruct Hs as [Hs|Hs]; destruct Hs; at_t; unfold gc_state_set; repeat case_match; repeat case_decide; apply (inv_goto s); cbn; auto; try tauto; try congruence.
Qed.

Lemma init_inv : inv init.
Proof. constructor; done. Qed.

Lemma reachable_inv willdebug s : reachable willdebug s → inv s.
Proof.
  intros Hr. refine (rtc_ind_r inv _ init_inv _ s Hr). intros y z _ Hyz Hy. by eapply handshake_inv.
Qed.

(** Without [willdebug], no thread ever gets to [set_gc_and_wait]. *)
Definition not_waiting (p : pc) : Prop :=
  match p with SetWait | Waiting _ | Resume _ => False | _ => True end.

Lemma step_not_waiting s s' : page_writable s = true → (∀ t, not_waiting (at_pc s t)) → step false s s' →
  ∀ t, not_waiting (at_pc s' t).
Proof.
  intros Hp Hn [t Hs] u. pose proof (Hn u) as Hu. pose proof (Hn t) as Ht.
  destruct Hs as [Hs|Hs]; destruct Hs; unfold gc_state_set; rewrite at_goto; destruct (decide (u = t)); subst; try at_t; repeat case_match; repeat case_decide;
    cbn in *; try done; try congruence.
Qed.

(** The collector waits for [u] while [u] waits for the lock the collector holds. *)
Record deadlocked (t u : nat) (old : Z) (rest : list nat) (s : Shared) : Prop := {
  dl_waits : at_pc s t = WorldWait old (u :: rest) false;
  dl_blocked : at_pc s u = UnregisterLock;
  dl_state : gc_state s u = 0;
  dl_other : u ≠ t
}.

Lemma step_deadlocked willdebug t u old rest s s' : inv s → deadlocked t u old rest s → step willdebug s s' →
  deadlocked t u old rest s'.
Proof.
  intros Hi [D1 D2 D3 D4] [x Hs].
  assert (Hlock : threads_lock s = Some t) by (apply (iv_threads _ Hi); by rewrite D1).
  assert (Hx : x ≠ t ∧ x ≠ u).
  { split; intros ->; destruct Hs as [Hs|Hs]; destruct Hs; at_t; congruence. }
  destruct Hx as [Hxt Hxu].
  assert (Hsame : at_pc s' t = at_pc s t ∧ at_pc s' u = at_pc s u ∧ gc_state s' u = gc_state s u).
  { destruct Hs as [Hs|Hs]; destruct Hs; unfold gc_state_set; repeat case_match; cbn; rewrite ?fn_lookup_insert_ne by done; done. }
  destruct Hsame as (E1 & E2 & E3). constructor; congruence.
Qed.

(** ** Runs *)

(** One more step of the given thread by the given rule. *)
Tactic Notation "run" constr(t) uconstr(rule) :=
  eapply rtc_l; [exists t; first [left; eapply rule|right; eapply rule]; try reflexivity; try discriminate; try (left; reflexivity); try (right; reflexivity)|].

Ltac register t := run t t_register; run t t_register_lock; run t t_register_push.
(** From the request of a collection to the wait for the other threads. *)
Ltac start t := run t t_collect; run t t_start_lock; run t t_start_won; run t t_start_enable; run t t_start_protect;
  run t t_start_unlock; run t t_world_lock.

(** ** Properties *)

(** C26: At most one thread collects at a time: while a thread is in its collection,
    [GC_RUNNING] is set, the thread holds the lock of the registry, so that no thread
    registers or leaves, and no other thread is between winning [GC_RUNNING] and
    giving it back. *)
Theorem one_collector willdebug s t old : reachable willdebug s → at_pc s t = Collecting old →
  GC_RUNNING s = true ∧ threads_lock s = Some t ∧ ∀ u, u ≠ t → ¬ owns (at_pc s u).
Proof.
  intros Hi%reachable_inv E. split_and!.
  - apply (iv_running _ Hi t). by rewrite E.
  - apply (iv_threads _ Hi t). by rewrite E.
  - intros u Hne. apply (others_own s t); [done|by rewrite E|done].
Qed.

Lemma one_collector_witness : ∃ s, at_pc s 0%nat = Collecting 0 ∧ GC_RUNNING s = true ∧ threads_lock s = Some 0%nat.
Proof.
  assert (Hr : ∃ s, reachable false s ∧ at_pc s 0%nat = Collecting 0).
  { eexists. split.
    - unfold reachable. register 1%nat. run 1%nat (t_save_and_set false _ _ GC_STATE_SAFE).
      start 0%nat. run 0%nat t_world_first. run 0%nat t_world_second. run 0%nat t_world_stopped. apply rtc_refl.
    - reflexivity. }
  destruct Hr as (s & Hr & E). destruct (one_collector false s 0%nat 0 Hr E) as (H1 & H2 & _). eauto.
Defined.

(** The safepoint page never stops a thread: both [mprotect] calls leave the page
    writable, so in a build without [willdebug] no thread ever enters
    [set_gc_and_wait] from a yieldpoint, whatever the other threads do. *)
Theorem yieldpoint_never_stops s t : reachable false s →
  at_pc s t ≠ SetWait ∧ ∀ state, at_pc s t ≠ Waiting state.
Proof.
  intros Hr. assert (Hn : page_writable s = true ∧ ∀ u, not_waiting (at_pc s u)).
  { refine (rtc_ind_r (λ s, page_writable s = true ∧ ∀ u, not_waiting (at_pc s u)) _ _ _ s Hr); [done|].
    intros y z Hy Hyz [Hp Hn]. split; [|by eapply step_not_waiting].
    apply (handshake_inv false y z); [|done]. by apply (reachable_inv false). }
  destruct Hn as [_ Hn]. specialize (Hn t). destruct (at_pc s t); done.
Qed.

Lemma yieldpoint_never_stops_witness : ∃ s, GC_RUNNING s = true ∧ at_pc s 1%nat = Yield ∧ at_pc s 1%nat ≠ SetWait.
Proof.
  assert (Hr : ∃ s, reachable false s ∧ GC_RUNNING s = true ∧ at_pc s 1%nat = Yield).
  { eexists. split; [|split].
    - unfold reachable. register 1%nat. start 0%nat. run 1%nat t_yieldpoint. apply rtc_refl.
    - reflexivity.
    - reflexivity. }
  destruct Hr as (s & Hr & E1 & E2). destruct (yieldpoint_never_stops s 1%nat Hr) as [H1 _]. eauto.
Defined.

(** The world is not stopped: with and without [willdebug] a collection can run
    while another registered thread executes managed code.  Without it, a thread
    leaves a safe region and its yieldpoint does not stop it; with it, a thread that
    has waited for one collection restores its state after the next one has started. *)
Theorem world_not_stopped willdebug : ∃ s t u old, reachable willdebug s ∧ t ≠ u ∧
  at_pc s t = Collecting old ∧ u ∈ threads s ∧ at_pc s u = Run ∧ gc_state s u = 0.
Proof.
  destruct willdebug.
  - eexists _, 0%nat, 1%nat, 0. split.
    + unfold reachable. register 1%nat. start 0%nat.
      run 1%nat t_yieldpoint. run 1%nat t_yield_check. run 1%nat t_set_wait.
      run 0%nat t_world_first. run 0%nat t_world_second. run 0%nat t_world_stopped. run 0%nat t_collected.
      run 0%nat t_end_lock. run 0%nat t_end_store. run 0%nat t_end_unlock. run 0%nat t_drop_threads. run 0%nat t_restore.
      run 1%nat t_waited. run 0%nat t_yield_check.
      start 0%nat. run 0%nat t_world_first. run 0%nat t_world_second. run 0%nat t_world_stopped.
      run 1%nat t_resume. apply rtc_refl.
    + split_and!; try reflexivity; [discriminate|]. vm_compute. left.
  - eexists _, 0%nat, 1%nat, 0. split.
    + unfold reachable. register 1%nat. run 1%nat (t_save_and_set false _ _ GC_STATE_SAFE).
      start 0%nat. run 0%nat t_world_first. run 0%nat t_world_second. run 0%nat t_world_stopped.
      run 1%nat (t_safe_leave false _ _ 0). run 1%nat t_yield_store. apply rtc_refl.
    + split_and!; try reflexivity; [discriminate|]. vm_compute. left.
Qed.

(** C40: A thread that unregisters while a collection waits for it blocks the program for
    good: it waits for the lock of the registry with its [gc_state] at 0, the
    collector holds that lock and waits for the state to change, and no step of any
    thread ever changes this. *)
Theorem unregister_deadlock willdebug s t u old rest : reachable willdebug s → deadlocked t u old rest s →
  ∀ s', rtc (step willdebug) s s' → deadlocked t u old rest s'.
Proof.
  intros Hr Hd s' Hs.
  assert (H : inv s' ∧ deadlocked t u old rest s'); [|by destruct H].
  refine (rtc_ind_r (λ s', inv s' ∧ deadlocked t u old rest s') s _ _ s' Hs).
  - split; [by apply (reachable_inv willdebug)|done].
  - intros y z _ Hyz [Hy Hdy]. split; [by eapply handshake_inv|by eapply step_deadlocked].
Qed.

Lemma unregister_deadlock_witness : ∃ s, reachable false s ∧
  ∀ s', rtc (step false) s s' → at_pc s' 1%nat = UnregisterLock ∧ at_pc s' 0%nat = WorldWait 0 [1%nat] false.
Proof.
  assert (Hr : ∃ s, reachable false s ∧ deadlocked 0%nat 1%nat 0 [] s).
  { eexists. split.
    - unfold reachable. register 1%nat. run 1%nat t_unregister. start 0%nat. apply rtc_refl.
    - constructor; [reflexivity|reflexivity|reflexivity|discriminate]. }
  destruct Hr as (s & Hr & Hd). exists s. split; [exact Hr|]. intros s' Hs.
  destruct (unregister_deadlock false s 0%nat 1%nat 0 [] Hr Hd s' Hs) as [D1 D2 _ _]. split; [exact D2|exact D1].
Defined.
