(* ===== verification/Locks.v ===== *)
(** * util/locks.rs: the recursive spin lock

    [GCSpinLock] as a transition system over the threads that use it.  Each rule is
    one access to [owner], or the accesses to [count] that only the owner makes.
    [depth] is not part of the lock: it counts how often a thread has locked and not
    yet unlocked, and a thread unlocks only what it has locked.  A count that would
    leave 32 bits panics and has no rule. *)

From stdpp Require Import base numbers list relations functions.
From Stdlib Require Import ZArith Lia.
From S2P Require Import Prelude.
Local Open Scope Z_scope.

Module GCSpinLock.

(** Where a thread is: outside; in [wait] with the owner it has loaded, before the loop
    and in it; in [try_lock] with the owner it has loaded; after the successful
    [compare_exchange]; in [unlock] with the count at 0. *)
Inductive lpc : Type :=
| Idle
| Loaded (owner : option nat)
| Spin (owner : option nat)
| Reload
| TryLoaded (owner : option nat)
| Won
| Releasing.

Record Lock : Type := mkLock {
  owner : option nat;
  count : Z;
  depth : nat → Z;
  l_pc : nat → lpc
}.

Definition new : Lock := mkLock None 0 (λ _, 0) (λ _, Idle).

Definition at_ (s : Lock) (t : nat) (p : lpc) : Lock := mkLock (owner s) (count s) (depth s) (<[t := p]> (l_pc s)).
Definition own (s : Lock) (o : option nat) : Lock := mkLock o (count s) (depth s) (l_pc s).
(** The count and the depth of [t]. *)
Definition counted (s : Lock) (t : nat) (c d : Z) : Lock := mkLock (owner s) c (<[t := d]> (depth s)) (l_pc s).

Inductive tstep (t : nat) (s : Lock) : Lock → Prop :=
(** [lock], [lock_nogc]: [wait] *)
| l_load : l_pc s t = Idle → tstep t s (at_ s t (Loaded (owner s)))
| l_again : l_pc s t = Loaded (Some t) → count s + 1 < 2 ^ 32 →
    tstep t s (at_ (counted s t (count s + 1) (depth s t + 1)) t Idle)
| l_loop o : l_pc s t = Loaded o → o ≠ Some t → tstep t s (at_ s t (Spin o))
| l_won : l_pc s t = Spin None → owner s = None → tstep t s (at_ (own s (Some t)) t Won)
| l_lost : l_pc s t = Spin None → owner s ≠ None → tstep t s (at_ s t Reload)
| l_busy u : l_pc s t = Spin (Some u) → tstep t s (at_ s t Reload)
| l_reload : l_pc s t = Reload → tstep t s (at_ s t (Spin (owner s)))
| l_first : l_pc s t = Won → tstep t s (at_ (counted s t 1 (depth s t + 1)) t Idle)
(** [try_lock] *)
| y_load : l_pc s t = Idle → tstep t s (at_ s t (TryLoaded (owner s)))
| y_again : l_pc s t = TryLoaded (Some t) → count s + 1 < 2 ^ 32 →
    tstep t s (at_ (counted s t (count s + 1) (depth s t + 1)) t Idle)
| y_won : l_pc s t = TryLoaded None → owner s = None → tstep t s (at_ (own s (Some t)) t Won)
| y_lost : l_pc s t = TryLoaded None → owner s ≠ None → tstep t s (at_ s t Idle)
| y_busy u : l_pc s t = TryLoaded (Some u) → u ≠ t → tstep t s (at_ s t Idle)
(** [unlock] *)
| u_dec : l_pc s t = Idle → 0 < depth s t → count s - 1 ≠ 0 →
    tstep t s (counted s t (count s - 1) (depth s t - 1))
| u_zero : l_pc s t = Idle → 0 < depth s t → count s - 1 = 0 →
    tstep t s (at_ (counted s t 0 (depth s t - 1)) t Releasing)
| u_release : l_pc s t = Releasing → tstep t s (at_ (own s None) t Idle).

Definition step (s s' : Lock) : Prop := ∃ t, tstep t s s'.

(** ** Invariant *)

(** The position of a thread that does not own the lock. *)
Definition outside (t : nat) (p : lpc) : Prop :=
  match p with
  | Loaded o | TryLoaded o | Spin o => o ≠ Some t
  | Won | Releasing => False
  | _ => True
  end.

(** The owner: just won, about to release, or holding with the right count. *)
Definition owning (s : Lock) (t : nat) : Prop :=
  match l_pc s t with
  | Won => depth s t = 0
  | Releasing => depth s t = 0
  | Idle => 0 < depth s t ∧ count s = depth s t
  | Loaded (Some u) | TryLoaded (Some u) => u = t ∧ 0 < depth s t ∧ count s = depth s t
  | _ => False
  end.

Record lock_inv (s : Lock) : Prop := {
  li_owner : ∀ t, owner s = Some t → owning s t;
  li_other : ∀ t, owner s ≠ Some t → depth s t = 0 ∧ outside t (l_pc s t)
}.

(** A step of [t] that leaves the owner alone. *)
Lemma inv_same s s' t : lock_inv s → owner s' = owner s →
  (∀ u, u ≠ t → l_pc s' u = l_pc s u ∧ depth s' u = depth s u) →
  (owner s = Some t ∨ count s' = count s) →
  (owner s = Some t → owning s' t) → (owner s ≠ Some t → depth s' t = 0 ∧ outside t (l_pc s' t)) →
  lock_inv s'.
Proof.
  intros [Hown Hoth] Eo Hu Hc Ht Ht'. constructor; intros v Hv; rewrite Eo in Hv; destruct (decide (v = t)) as [->|Hne]; auto.
  - destruct (Hu v Hne) as [E1 E2]. specialize (Hown v Hv). unfold owning in *. rewrite E1, E2.
    destruct Hc as [?| ->]; [congruence|done].
  - destruct (Hu v Hne) as [E1 E2]. rewrite E1, E2. auto.
Qed.

Ltac others := let v := fresh in intros v ?; cbn; rewrite ?fn_insert_eq, ?decide_False by done; done.

(** A step of [t] that takes or releases the lock. *)
Lemma inv_change s s' t : lock_inv s → (owner s = None ∧ owner s' = Some t ∨ owner s = Some t ∧ owner s' = None) →
  (∀ u, u ≠ t → l_pc s' u = l_pc s u ∧ depth s' u = depth s u) →
  (owner s' = Some t → owning s' t) → (owner s' = None → depth s' t = 0 ∧ outside t (l_pc s' t)) →
  lock_inv s'.
Proof.
  intros [Hown Hoth] Eo Hu Ht Ht'. constructor; intros v Hv; destruct (decide (v = t)) as [->|Hne].
  - auto.
  - destruct Eo as [[_ Eo]|[_ Eo]]; congruence.
  - apply Ht'. destruct Eo as [[_ Eo]|[_ Eo]]; congruence.
  - destruct (Hu v Hne) as [E1 E2]. rewrite E1, E2. apply Hoth. destruct Eo as [[Eo _]|[Eo _]]; congruence.
Qed.

Lemma step_lock_inv s s' : lock_inv s → step s s' → lock_inv s'.
Proof.
  intros Hi [t Hs]. pose proof (li_owner _ Hi t) as Ho. pose proof (li_other _ Hi t) as Hn. unfold owning in Ho.
  destruct (decide (owner s = Some t)) as [C|C]; [specialize (Ho C); clear Hn|specialize (Hn C); clear Ho].
  - destruct Hs as [E|E Hc|o E Hne|E Eo|E Eo|u E|E|E|E|E Hc|E Eo|E Eo|u E Hne|E Hd Hc|E Hd Hc|E]; rewrite E in Ho; try done.
    all: first
      [ apply (inv_same s _ t Hi); [reflexivity|others|by left| |done]; intros _
      | apply (inv_change s _ t Hi); [by right|others|done|]; intros _ ].
    all: unfold owning; cbn; rewrite ?fn_insert_eq, ?decide_True, ?E, ?C by done; cbn.
    all: try (destruct o as [o|]; [|done]); destruct_and?; subst; try done; try lia; try congruence.
    all: split_and?; try done; try lia.
  - destruct Hn as [Hd0 Hn].
    destruct Hs as [E|E Hc|o E Hne|E Eo|E Eo|u E|E|E|E|E Hc|E Eo|E Eo|u E Hne|E Hd Hc|E Hd Hc|E]; rewrite E in Hn; cbn in Hn; try done; try lia.
    all: first
      [ apply (inv_same s _ t Hi); [reflexivity|others|by right|done|]; intros _
      | apply (inv_change s _ t Hi); [by left|others| |done]; intros _ ].
    all: unfold owning; cbn; rewrite ?fn_insert_eq, ?decide_True by done; cbn; try done.
Qed.

(** ** Properties *)

(** The spin lock excludes and counts: in every state that threads using the lock
    can reach, a thread that has locked more often than unlocked is the owner, the
    count is the number of its locks, so [unlock] does not underflow, and no other
    thread has the lock. *)
Theorem spin_lock_exclusive s t : rtc step new s → 0 < depth s t →
  owner s = Some t ∧ count s = depth s t ∧ ∀ u, u ≠ t → depth s u = 0.
Proof.
  intros Hr Hd. assert (Hi : lock_inv s).
  { refine (rtc_ind_r lock_inv new _ _ s Hr); [constructor; [done|by intros]|]. intros y z _ Hyz Hy. by eapply step_lock_inv. }
  destruct (decide (owner s = Some t)) as [E|E]; [|apply (li_other _ Hi) in E as [E _]; lia].
  pose proof (li_owner _ Hi t E) as Ho. unfold owning in Ho. split_and!; [done| |].
  - repeat case_match; destruct_and?; try done; lia.
  - intros u Hne. apply (li_other _ Hi). congruence.
Qed.

Lemma spin_lock_exclusive_witness : ∃ s, rtc step new s ∧ depth s 0%nat = 2 ∧ count s = 2 ∧ depth s 1%nat = 0.
Proof.
  assert (Hr : ∃ s, rtc step new s ∧ depth s 0%nat = 2).
  { eexists. split; [|shelve].
    eapply rtc_l; [exists 0%nat; apply l_load; reflexivity|].
    eapply rtc_l; [exists 0%nat; eapply l_loop; [reflexivity|discriminate]|].
    eapply rtc_l; [exists 0%nat; apply l_won; reflexivity|].
    eapply rtc_l; [exists 0%nat; apply l_first; reflexivity|].
    eapply rtc_l; [exists 1%nat; apply l_load; reflexivity|].
    eapply rtc_l; [exists 0%nat; apply l_load; reflexivity|].
    eapply rtc_l; [exists 0%nat; apply l_again; reflexivity|]. apply rtc_refl.
    Unshelve. reflexivity. }
  destruct Hr as (s & Hr & Hd). destruct (spin_lock_exclusive s 0%nat Hr) as (_ & Hc & Hu); [rewrite Hd; reflexivity|].
  exists s. split; [exact Hr|]. split; [exact Hd|]. split; [rewrite Hc; exact Hd|]. apply Hu. discriminate.
Defined.

End GCSpinLock.
