(* ===== verification/Mutex.v ===== *)
(** * util/locks.rs: the mutex on the parking lot

    [mutex::Mutex] as a transition system.  Each rule is one access to the atomic
    [state], or one acquisition of the lock of the parking lot's queue.  What the code
    does under the queue lock with the queue alone is part of the rule with the access
    to [state] next to it, and so is the release of the queue lock.

    The queues belong to the crate parking_lot_core: [ParkingLot] names the operations
    of one queue, [ParkingLotLaws] what the documentation of [park] and [unpark_one]
    says of them.  [be_fair] of an [UnparkResult] and the outcome of [SpinWait::spin]
    are open choices, [compare_exchange_weak] may fail spuriously, and the registration
    of resources for the deadlock detector is left out, as it has no effect without it.
    A yieldpoint does not touch the mutex; what it does is in the file Safepoint. *)

From stdpp Require Import functions base numbers list relations.
From Stdlib Require Import ZArith Lia.
From S2P Require Import Prelude.
Local Open Scope Z_scope.

(** ** The parking lot *)

Class ParkingLot (Q : Type) : Type := {
  no_queue : Q;
  (** the threads parked in the queue *)
  parked : Q → list nat;
  (** a thread is put into the queue, after [validate] *)
  park : nat → Q → Q;
  (** [unpark_one] takes a thread out *)
  unpark : Q → option (nat * Q);
  (** a thread whose time is over leaves the queue *)
  expire : nat → Q → Q
}.

Class ParkingLotLaws (Q : Type) `{ParkingLot Q} : Prop := {
  no_queue_parked : parked no_queue = [];
  park_parked t q : parked (park t q) ≡ₚ t :: parked q;
  unpark_none q : unpark q = None → parked q = [];
  unpark_some q t q' : unpark q = Some (t, q') → parked q ≡ₚ t :: parked q';
  expire_parked t q : NoDup (parked q) → t ∈ parked q → parked q ≡ₚ t :: parked (expire t q)
}.

(** A queue in the order of arrival. *)
#[global] Instance fifo : ParkingLot (list nat) := {
  no_queue := [];
  parked q := q;
  park t q := q ++ [t];
  unpark q := match q with [] => None | t :: q' => Some (t, q') end;
  expire t q := filter (.≠ t) q
}.

#[global] Instance fifo_laws : ParkingLotLaws (list nat).
Proof.
  constructor; cbn.
  - done.
  - intros t q. by rewrite Permutation_app_comm.
  - by intros [].
  - intros [|u q] t q' [=]; by subst.
  - intros t q Hn Ht. apply NoDup_Permutation; [done| |].
    + constructor; [rewrite list_elem_of_filter; tauto|by apply NoDup_filter].
    + intros u. rewrite elem_of_cons, list_elem_of_filter. destruct (decide (u = t)); intuition congruence.
Qed.

Module Mutex.

(** ** Constants and data *)

Definition LOCKED_BIT : Z := 1.
Definition PARKED_BIT : Z := 2.

Inductive UnparkToken : Type := TOKEN_NORMAL | TOKEN_HANDOFF.
Inductive ParkResult : Type := Unparked (token : UnparkToken) | Invalid | TimedOut.

(** [unparked_threads], which is 0 or 1 after [unpark_one], as a boolean *)
Record UnparkResult : Type := mkUnparkResult {
  unparked_threads : bool;
  have_more_threads : bool;
  be_fair : bool
}.

Definition GC_STATE_SAFE : Z := 2.

(** A call of [lock_slow]: its parameter [SAFEPOINT], and whether [timeout] is [Some]. *)
Record Call : Type := mkCall { safepoint : bool; timeout : bool }.

(** The calls by which a thread enters the code of the mutex. *)
Inductive Op : Type :=
| OpLock (c : Call)
| OpTryLock
| OpUnlock (fair : bool)
| OpBump
| OpMark.

(** [lock] and [bump] call [lock_slow::<true>(None)]. *)
Definition plain : Call := mkCall true false.
(** [lock_nogc] *)
Definition nogc : Call := mkCall false false.

(** Where a thread is.  [prev] is the [gc_state] to restore after parking. *)
Inductive mpc : Type :=
| Idle
| Hold
| Entry (c : Call)
| Slow (c : Call)
| Loop (c : Call) (st : Z)
| Park (c : Call)
| Enter (c : Call) (prev : Z)
| Validate (c : Call) (prev : Z)
| Enqueue (c : Call) (prev : Z)
| Parked (c : Call) (prev : Z)
| Expired (c : Call) (prev : Z)
| Awake (c : Call) (prev : Z) (r : ParkResult)
| Try (st : Z)
| Unlock (fair bump : bool)
| Unparking (fair bump : bool)
| Marking
| MarkLocked (st : Z).

Section Steps.
Context {Q : Type} `{ParkingLot Q}.

(** [state] is the field of the mutex; [qlock] is the thread that has the queue lock,
    [queue] the queue of the mutex, [gc] the [gc_state] of each thread. *)
Record Mutex : Type := mkMutex {
  state : Z;
  qlock : option nat;
  queue : Q;
  gc : nat → Z;
  pc : nat → mpc
}.

Definition new : Mutex := mkMutex 0 None no_queue (λ _, 0) (λ _, Idle).

Definition at_ (s : Mutex) (t : nat) (p : mpc) : Mutex :=
  mkMutex (state s) (qlock s) (queue s) (gc s) (<[t := p]> (pc s)).
Definition put (s : Mutex) (st : Z) : Mutex := mkMutex st (qlock s) (queue s) (gc s) (pc s).
Definition locked_queue (s : Mutex) (o : option nat) : Mutex := mkMutex (state s) o (queue s) (gc s) (pc s).
Definition requeue (s : Mutex) (q : Q) : Mutex := mkMutex (state s) (qlock s) q (gc s) (pc s).
Definition set_gc (s : Mutex) (t : nat) (g : Z) : Mutex :=
  mkMutex (state s) (qlock s) (queue s) (<[t := g]> (gc s)) (pc s).

Definition is_locked (st : Z) : bool := negb (bool_decide (Z.land st LOCKED_BIT = 0)).
Definition is_parked (st : Z) : bool := negb (bool_decide (Z.land st PARKED_BIT = 0)).

(** ** [lock_slow] around [park] *)

Definition validate (st : Z) : bool := bool_decide (st = Z.lor LOCKED_BIT PARKED_BIT).
Definition timed_out (st : Z) (was_last_thread : bool) : Z :=
  if was_last_thread then Z.land st (u_not 8 PARKED_BIT) else st.

Definition before_park (s : Mutex) (t : nat) (c : Call) : Mutex :=
  if safepoint c then at_ (set_gc s t GC_STATE_SAFE) t (Enter c (gc s t)) else at_ s t (Enter c 0).

(** What [lock_slow] does with the result of [park]. *)
Definition resume (c : Call) (r : ParkResult) : mpc :=
  match r with
  | Unparked TOKEN_HANDOFF => Hold
  | Unparked TOKEN_NORMAL | Invalid => Slow c
  | TimedOut => Idle
  end.

Definition after_park (s : Mutex) (t : nat) (c : Call) (prev : Z) (r : ParkResult) : Mutex :=
  at_ (if safepoint c then set_gc s t prev else s) t (resume c r).

(** ** [unlock_slow] *)

Definition callback (force_fair : bool) (st : Z) (result : UnparkResult) : Z * UnparkToken :=
  if unparked_threads result && (force_fair || be_fair result) then
    (if negb (have_more_threads result) then LOCKED_BIT else st, TOKEN_HANDOFF)
  else
    (if have_more_threads result then PARKED_BIT else 0, TOKEN_NORMAL).

(** Where [unlock_slow] returns to: [bump_slow] locks again. *)
Definition unlocked (bump : bool) : mpc := if bump then Entry plain else Idle.

Definition some_parked (q : Q) : bool := negb (bool_decide (parked q = [])).

(** The steps of thread [t], except those inside [lock_slow] and [unlock_slow]; the label is
    the call that a thread outside makes. *)
Inductive call_step (t : nat) (s : Mutex) : option Op → Mutex → Prop :=
(** outside: the thread may change its [gc_state] *)
| m_gc g : pc s t = Idle ∨ pc s t = Hold → call_step t s None (set_gc s t g)
(** [lock], [lock_nogc], [try_lock_until], [try_lock_for] *)
| m_lock c : pc s t = Idle → call_step t s (Some (OpLock c)) (at_ s t (Entry c))
| lock_fast c : pc s t = Entry c → state s = 0 → call_step t s None (at_ (put s LOCKED_BIT) t Hold)
| lock_fail c : pc s t = Entry c → call_step t s None (at_ s t (Slow c))
(** [try_lock] *)
| m_try : pc s t = Idle → call_step t s (Some OpTryLock) (at_ s t (Try (state s)))
| try_busy st : pc s t = Try st → is_locked st = true → call_step t s None (at_ s t Idle)
| try_take st : pc s t = Try st → is_locked st = false → state s = st →
    call_step t s None (at_ (put s (Z.lor st LOCKED_BIT)) t Hold)
| try_retry st : pc s t = Try st → is_locked st = false → call_step t s None (at_ s t (Try (state s)))
(** [unlock], [unlock_nogc], [unlock_fair] *)
| unlock_fast fair : pc s t = Hold → state s = LOCKED_BIT → call_step t s (Some (OpUnlock fair)) (at_ (put s 0) t Idle)
| unlock_slow fair : pc s t = Hold → state s ≠ LOCKED_BIT →
    call_step t s (Some (OpUnlock fair)) (at_ s t (Unlock fair false))
(** [bump] *)
| bump_none : pc s t = Hold → is_parked (state s) = false → call_step t s (Some OpBump) s
| bump_slow : pc s t = Hold → is_parked (state s) = true → call_step t s (Some OpBump) (at_ s t (Unlock true true))
(** [mark_parked], [mark_parked_if_locked], called with the queue lock *)
| m_mark : pc s t = Idle → qlock s = None → call_step t s (Some OpMark) (at_ (locked_queue s (Some t)) t Marking)
| mark_parked : pc s t = Marking →
    call_step t s None (at_ (locked_queue (put s (Z.lor (state s) PARKED_BIT)) None) t Idle)
| mark_load : pc s t = Marking → call_step t s None (at_ s t (MarkLocked (state s)))
| mark_free st : pc s t = MarkLocked st → is_locked st = false → call_step t s None (at_ (locked_queue s None) t Idle)
| mark_locked st : pc s t = MarkLocked st → is_locked st = true → state s = st →
    call_step t s None (at_ (locked_queue (put s (Z.lor st PARKED_BIT)) None) t Idle)
| mark_retry st : pc s t = MarkLocked st → is_locked st = true → call_step t s None (at_ s t (MarkLocked (state s))).

Inductive lock_slow_step (t : nat) (s : Mutex) : Mutex → Prop :=
| slow_load c : pc s t = Slow c → lock_slow_step t s (at_ s t (Loop c (state s)))
| loop_take c st : pc s t = Loop c st → is_locked st = false → state s = st →
    lock_slow_step t s (at_ (put s (Z.lor st LOCKED_BIT)) t Hold)
| loop_retry c st : pc s t = Loop c st → is_locked st = false → lock_slow_step t s (at_ s t (Loop c (state s)))
| loop_spin c st : pc s t = Loop c st → is_locked st = true → is_parked st = false →
    lock_slow_step t s (at_ s t (Loop c (state s)))
| loop_mark c st : pc s t = Loop c st → is_locked st = true → is_parked st = false → state s = st →
    lock_slow_step t s (at_ (put s (Z.lor st PARKED_BIT)) t (Park c))
| loop_mark_retry c st : pc s t = Loop c st → is_locked st = true → is_parked st = false →
    lock_slow_step t s (at_ s t (Loop c (state s)))
| loop_park c st : pc s t = Loop c st → is_locked st = true → is_parked st = true → lock_slow_step t s (at_ s t (Park c))
| park_before c : pc s t = Park c → lock_slow_step t s (before_park s t c)
| park_enter c prev : pc s t = Enter c prev → qlock s = None →
    lock_slow_step t s (at_ (locked_queue s (Some t)) t (Validate c prev))
| park_valid c prev : pc s t = Validate c prev → validate (state s) = true → lock_slow_step t s (at_ s t (Enqueue c prev))
| park_invalid c prev : pc s t = Validate c prev → validate (state s) = false →
    lock_slow_step t s (at_ (locked_queue s None) t (Awake c prev Invalid))
| park_queue c prev : pc s t = Enqueue c prev →
    lock_slow_step t s (at_ (locked_queue (requeue s (park t (queue s))) None) t (Parked c prev))
| park_expire c prev : pc s t = Parked c prev → timeout c = true → qlock s = None →
    lock_slow_step t s (at_ (locked_queue s (Some t)) t (Expired c prev))
| park_timed_out c prev q' : pc s t = Expired c prev → q' = expire t (queue s) →
    lock_slow_step t s (at_ (locked_queue (requeue (put s (timed_out (state s) (negb (some_parked q')))) q') None)
      t (Awake c prev TimedOut))
| park_after c prev r : pc s t = Awake c prev r → lock_slow_step t s (after_park s t c prev r).

Inductive unlock_slow_step (t : nat) (s : Mutex) : Mutex → Prop :=
| unlock_enter fair bump : pc s t = Unlock fair bump → qlock s = None →
    unlock_slow_step t s (at_ (locked_queue s (Some t)) t (Unparking fair bump))
| unlock_nobody fair bump b st tok : pc s t = Unparking fair bump → unpark (queue s) = None →
    callback fair (state s) (mkUnparkResult false false b) = (st, tok) →
    unlock_slow_step t s (at_ (locked_queue (put s st) None) t (unlocked bump))
| unlock_one fair bump u c prev q' b st tok : pc s t = Unparking fair bump → unpark (queue s) = Some (u, q') →
    pc s u = Parked c prev → callback fair (state s) (mkUnparkResult true (some_parked q') b) = (st, tok) →
    unlock_slow_step t s
      (at_ (at_ (locked_queue (requeue (put s st) q') None) u (Awake c prev (Unparked tok))) t (unlocked bump)).

Inductive mstep (t : nat) (s : Mutex) : option Op → Mutex → Prop :=
| m_call l s' : call_step t s l s' → mstep t s l s'
| m_lock_slow s' : lock_slow_step t s s' → mstep t s None s'
| m_unlock_slow s' : unlock_slow_step t s s' → mstep t s None s'.

Definition step (s s' : Mutex) : Prop := ∃ t l, mstep t s l s'.

(** ** Invariant *)

(** The thread has the mutex. *)
Definition has (p : mpc) : bool :=
  match p with Hold | Unlock _ _ | Unparking _ _ | Awake _ _ (Unparked TOKEN_HANDOFF) => true | _ => false end.
(** The thread is in the queue. *)
Definition in_queue (p : mpc) : bool := match p with Parked _ _ | Expired _ _ => true | _ => false end.
(** The thread has the queue lock. *)
Definition in_qlock (p : mpc) : bool :=
  match p with Validate _ _ | Enqueue _ _ | Expired _ _ | Unparking _ _ | Marking | MarkLocked _ => true | _ => false end.
(** The thread is on its way to an attempt to take the mutex. *)
Definition coming (p : mpc) : bool :=
  match p with
  | Entry _ | Slow _ | Loop _ _ | Park _ | Enter _ _ | Validate _ _ | Enqueue _ _ => true
  | Awake _ _ (Unparked TOKEN_NORMAL) | Awake _ _ Invalid => true
  | _ => false
  end.
(** The thread is between the two changes of its [gc_state]. *)
Definition asleep (p : mpc) : option (Call * Z) :=
  match p with
  | Enter c prev | Validate c prev | Enqueue c prev | Parked c prev | Expired c prev | Awake c prev _ => Some (c, prev)
  | _ => None
  end.

Record inv (s : Mutex) : Prop := {
  i_range : 0 <= state s < 4;
  i_locked : is_locked (state s) = true ↔ ∃ t, has (pc s t) = true;
  i_unique t u : has (pc s t) = true → has (pc s u) = true → t = u;
  i_queue t : t ∈ parked (queue s) ↔ in_queue (pc s t) = true;
  i_nodup : NoDup (parked (queue s));
  i_qlock t : in_qlock (pc s t) = true ↔ qlock s = Some t;
  i_parked : parked (queue s) ≠ [] → is_parked (state s) = true;
  i_enqueue t c prev : pc s t = Enqueue c prev → state s = 3;
  i_wake : parked (queue s) ≠ [] → is_locked (state s) = true ∨ ∃ t, coming (pc s t) = true;
  i_gc t c prev : asleep (pc s t) = Some (c, prev) → safepoint c = true → gc s t = GC_STATE_SAFE
}.

(** What a step of one thread from [p] to [p'] may do to the rest. *)
Record step_ok (s s' : Mutex) (t : nat) (p' : mpc) : Prop := {
  k_pc u : pc s' u = if decide (u = t) then p' else pc s u;
  k_gc u : u ≠ t → gc s' u = gc s u;
  k_range : 0 <= state s' < 4;
  k_has : has p' = has (pc s t) ∧ is_locked (state s') = is_locked (state s) ∨
    has p' = true ∧ is_locked (state s) = false ∧ is_locked (state s') = true ∨
    has (pc s t) = true ∧ has p' = false ∧ is_locked (state s') = false;
  k_queue : queue s' = queue s ∧ in_queue p' = in_queue (pc s t) ∨
    parked (queue s') ≡ₚ t :: parked (queue s) ∧ in_queue (pc s t) = false ∧ in_queue p' = true ∨
    parked (queue s) ≡ₚ t :: parked (queue s') ∧ in_queue p' = false;
  k_qlock : qlock s' = qlock s ∧ in_qlock p' = in_qlock (pc s t) ∨
    qlock s = None ∧ qlock s' = Some t ∧ in_qlock p' = true ∨
    in_qlock (pc s t) = true ∧ qlock s' = None ∧ in_qlock p' = false;
  k_parked : parked (queue s') ≠ [] → is_parked (state s') = true;
  k_enqueue : (state s = 3 → state s' = 3) ∨ in_qlock (pc s t) = true;
  k_enqueue' c prev : p' = Enqueue c prev → state s' = 3;
  k_wake : parked (queue s') ≠ [] → is_locked (state s') = true ∨ coming p' = true ∨
    (∃ u, u ≠ t ∧ coming (pc s u) = true) ∨ parked (queue s) ≠ [] ∧ is_locked (state s') = is_locked (state s) ∧ coming (pc s t) = false;
  k_asleep c prev : asleep p' = Some (c, prev) → safepoint c = true → gc s' t = GC_STATE_SAFE
}.

Lemma inv_step s s' t p' : inv s → step_ok s s' t p' → inv s'.
Proof.
  intros Hi Hk. assert (Et : pc s' t = p') by (rewrite (k_pc _ _ _ _ Hk), decide_True; done).
  assert (Eu : ∀ u, u ≠ t → pc s' u = pc s u) by (intros u Hu; rewrite (k_pc _ _ _ _ Hk), decide_False; done).
  pose proof (i_unique _ Hi) as Hun. pose proof (i_locked _ Hi) as Hlo. constructor.
  - apply Hk.
  - destruct (k_has _ _ _ _ Hk) as [[Eh ->]|[(Eh & El & ->)|(Eh & Eh' & ->)]].
    + rewrite Hlo. split; intros [u Hu]; exists u; destruct (decide (u = t)) as [->|]; revert Hu; rewrite ?Et, ?Eu; congruence.
    + split; [intros _; exists t; congruence|done].
    + split; [done|]. intros [u Hu]. destruct (decide (u = t)) as [->|Hne]; [congruence|].
      rewrite Eu in Hu by done. by destruct (Hne (Hun u t Hu Eh)).
  - intros u v. destruct (decide (u = t)) as [->|Hu], (decide (v = t)) as [->|Hv]; rewrite ?Et, ?Eu by done; auto.
    all: destruct (k_has _ _ _ _ Hk) as [[Eh El]|[(Eh & El & _)|(Eh & Eh' & El)]]; rewrite ?Eh; eauto; try congruence.
    all: intros H1 H2; assert (is_locked (state s) = true) by (apply Hlo; eauto); congruence.
  - intros u. destruct (k_queue _ _ _ _ Hk) as [[-> Eq]|[(-> & _ & Eq)|(Eq & Eq')]].
    + rewrite (i_queue _ Hi). destruct (decide (u = t)) as [->|]; rewrite ?Et, ?Eq, ?Eu by done; done.
    + rewrite elem_of_cons, (i_queue _ Hi). destruct (decide (u = t)) as [->|]; rewrite ?Et, ?Eu, ?Eq by done; intuition congruence.
    + pose proof (i_nodup _ Hi) as Hn. rewrite Eq in Hn. apply NoDup_cons in Hn as [Hn _].
      pose proof (i_queue _ Hi u) as Hu. rewrite Eq, elem_of_cons in Hu.
      destruct (decide (u = t)) as [->|]; rewrite ?Et, ?Eu, ?Eq', <- ?Hu by done; intuition congruence.
  - pose proof (i_nodup _ Hi) as Hn. destruct (k_queue _ _ _ _ Hk) as [[-> _]|[(-> & Eq & _)|(Eq & _)]]; [done| |].
    + constructor; [rewrite (i_queue _ Hi); congruence|done].
    + rewrite Eq in Hn. by apply NoDup_cons in Hn as [_ ?].
  - intros u. pose proof (i_qlock _ Hi u) as Hu. pose proof (i_qlock _ Hi t) as Ht.
    destruct (k_qlock _ _ _ _ Hk) as [[-> Eq]|[(Eq & -> & Eq')|(Eq & -> & Eq')]];
      destruct (decide (u = t)) as [->|]; rewrite ?Et, ?Eu by done; clear Hlo Hun Et Eu; first [by rewrite Eq|intuition congruence].
  - apply Hk.
  - intros u c prev. destruct (decide (u = t)) as [->|Hne]; rewrite ?Et, ?Eu by done; [apply Hk|]. intros E.
    pose proof (i_enqueue _ Hi u c prev E) as E3. destruct (k_enqueue _ _ _ _ Hk) as [?|Hl]; [auto|].
    destruct Hne. apply (i_qlock _ Hi) in Hl. pose proof (proj1 (i_qlock _ Hi u)) as Hu. rewrite E in Hu. specialize (Hu eq_refl). congruence.
  - intros Hq. destruct (k_wake _ _ _ _ Hk Hq) as [?|[Hc|[(u & Hu & Hc)|(Hq' & El & Hc)]]];
      [by left|right; exists t; congruence|right; exists u; by rewrite Eu|].
    rewrite El. destruct (i_wake _ Hi Hq') as [?|[u Hu]]; [by left|]. right. exists u. rewrite Eu; [done|congruence].
  - intros u c prev. destruct (decide (u = t)) as [->|Hne]; rewrite ?Et, ?Eu by done; [apply Hk|].
    rewrite (k_gc _ _ _ _ Hk u Hne). apply Hi.
Qed.

Lemma state_cases s : inv s → state s = 0 ∨ state s = 1 ∨ state s = 2 ∨ state s = 3.
Proof. intros Hi. pose proof (i_range _ Hi). lia. Qed.

Lemma has_locked s t : inv s → has (pc s t) = true → is_locked (state s) = true.
Proof. intros Hi Ht. apply (i_locked _ Hi). by exists t. Qed.

(** The two conditions of [step_ok] that hold by construction. *)
Ltac updates := intros; cbn; rewrite ?fn_insert_eq; repeat case_decide; congruence.

Lemma local_step s s' t p' : inv s → state s' = state s → queue s' = queue s → qlock s' = qlock s →
  (∀ u, pc s' u = if decide (u = t) then p' else pc s u) → (∀ u, u ≠ t → gc s' u = gc s u) →
  has p' = has (pc s t) → in_queue p' = in_queue (pc s t) → in_qlock p' = in_qlock (pc s t) →
  (coming (pc s t) = true → coming p' = true ∨ is_locked (state s) = true) →
  (∀ c prev, p' = Enqueue c prev → state s = 3) →
  (∀ c prev, asleep p' = Some (c, prev) → safepoint c = true → gc s' t = GC_STATE_SAFE) → inv s'.
Proof.
  intros Hi Es Eq El Hp Hg Hh Hq Hl Hc He Ha. apply (inv_step s s' t p' Hi). constructor; rewrite ?Es, ?Eq, ?El; auto.
  - apply Hi.
  - apply Hi.
  - intros Hn. destruct (coming (pc s t)) eqn:C; [|auto 10]. destruct (Hc eq_refl); auto.
Qed.

(** A thread takes the free mutex. *)
Lemma take_step s t : inv s → is_locked (state s) = false →
  has (pc s t) = false → in_queue (pc s t) = false → in_qlock (pc s t) = false →
  inv (at_ (put s (Z.lor (state s) LOCKED_BIT)) t Hold).
Proof.
  intros Hi Hl Hh Hq Hk.
  assert (Hs : is_locked (Z.lor (state s) LOCKED_BIT) = true ∧ 0 <= Z.lor (state s) LOCKED_BIT < 4 ∧
    is_parked (Z.lor (state s) LOCKED_BIT) = is_parked (state s) ∧ state s ≠ 3).
  { by destruct (state_cases s Hi) as [E|[E|[E|E]]]; rewrite E in *. }
  destruct Hs as (Hs1 & Hs2 & Hs3 & Hs4). apply (inv_step s _ t Hold Hi).
  constructor; cbn; rewrite ?Hh, ?Hq, ?Hk, ?Hl, ?Hs1; try updates; auto 10; try done.
  - rewrite Hs3. apply Hi.
  - by left.
Qed.

(** A thread sets the parked bit, with or without a release of the queue lock. *)
Lemma parked_step s t p' (o : option nat) : inv s →
  has p' = has (pc s t) → in_queue p' = in_queue (pc s t) → (coming (pc s t) = true → coming p' = true) →
  asleep p' = None →
  (o = qlock s ∧ in_qlock p' = in_qlock (pc s t) ∨ in_qlock (pc s t) = true ∧ o = None ∧ in_qlock p' = false) →
  inv (at_ (locked_queue (put s (Z.lor (state s) PARKED_BIT)) o) t p').
Proof.
  intros Hi Hh Hq Hc Ha Ho.
  assert (Hs : is_locked (Z.lor (state s) PARKED_BIT) = is_locked (state s) ∧ 0 <= Z.lor (state s) PARKED_BIT < 4 ∧
    is_parked (Z.lor (state s) PARKED_BIT) = true ∧ (state s = 3 → Z.lor (state s) PARKED_BIT = 3)).
  { by destruct (state_cases s Hi) as [E|[E|[E|E]]]; rewrite E in *. }
  destruct Hs as (Hs1 & Hs2 & Hs3 & Hs4). apply (inv_step s _ t p' Hi).
  constructor; cbn; rewrite ?Hh, ?Hq, ?Hs1; try updates; auto; try done.
  - destruct Ho as [[? ?]|?]; auto.
  - intros c prev ->. done.
  - intros Hn. destruct (coming (pc s t)) eqn:C; auto 10.
Qed.

(** A thread takes the queue lock. *)
Lemma enter_step s t p' : inv s → qlock s = None → in_qlock p' = true →
  has p' = has (pc s t) → in_queue p' = in_queue (pc s t) → (coming (pc s t) = true → coming p' = true) →
  (∀ c prev, p' ≠ Enqueue c prev) → (asleep p' = asleep (pc s t) ∨ asleep p' = None) →
  inv (at_ (locked_queue s (Some t)) t p').
Proof.
  intros Hi Hn Hk Hh Hq Hc He Ha. apply (inv_step s _ t p' Hi).
  constructor; cbn; rewrite ?Hh, ?Hq; try updates; auto; try apply Hi.
  - intros Hp. destruct (coming (pc s t)) eqn:C; auto 10.
  - intros c prev E. destruct Ha as [Ha|Ha]; rewrite Ha in E; [by eapply (i_gc _ Hi)|done].
Qed.

(** A thread leaves the queue lock and does nothing else. *)
Lemma leave_step s t p' : inv s → in_qlock (pc s t) = true → in_qlock p' = false →
  has p' = has (pc s t) → in_queue p' = in_queue (pc s t) → (coming (pc s t) = true → coming p' = true) →
  (asleep p' = asleep (pc s t) ∨ asleep p' = None) → inv (at_ (locked_queue s None) t p').
Proof.
  intros Hi Hk Hk' Hh Hq Hc Ha. apply (inv_step s _ t p' Hi).
  constructor; cbn; rewrite ?Hh, ?Hq; try updates; auto; try apply Hi.
  - intros c prev ->. done.
  - intros Hp. destruct (coming (pc s t)) eqn:C; auto 10.
  - intros c prev E. destruct Ha as [Ha|Ha]; rewrite Ha in E; [by eapply (i_gc _ Hi)|done].
Qed.

Context `{!ParkingLotLaws Q}.

(** The thread that validated enters the queue. *)
Lemma queue_step s t c prev : inv s → pc s t = Enqueue c prev →
  inv (at_ (locked_queue (requeue s (park t (queue s))) None) t (Parked c prev)).
Proof.
  intros Hi E. pose proof (i_enqueue _ Hi t c prev E) as E3. apply (inv_step s _ t (Parked c prev) Hi).
  constructor; cbn; rewrite ?E, ?E3; try updates; auto; try done.
  - right; left. by rewrite park_parked.
  - intros c' prev' [= <- <-]. apply (i_gc _ Hi t c prev). by rewrite E.
Qed.

Lemma timed_out_step s t c prev q' : inv s → pc s t = Expired c prev → q' = expire t (queue s) →
  inv (at_ (locked_queue (requeue (put s (timed_out (state s) (negb (some_parked q')))) q') None)
    t (Awake c prev TimedOut)).
Proof.
  intros Hi E ->. assert (Hin : t ∈ parked (queue s)) by (apply (i_queue _ Hi); by rewrite E).
  pose proof (expire_parked t (queue s) (i_nodup _ Hi) Hin) as Hp. set (q' := expire t (queue s)) in *.
  assert (Hne : parked (queue s) ≠ []) by (intros E0; rewrite E0 in Hin; by apply not_elem_of_nil in Hin).
  pose proof (i_parked _ Hi Hne) as Hb.
  assert (Hs : let st := timed_out (state s) (negb (some_parked q')) in
    is_locked st = is_locked (state s) ∧ 0 <= st < 4 ∧ (parked q' ≠ [] → is_parked st = true)).
  { cbn. unfold some_parked. case_bool_decide; cbn; [|split_and!; [done|apply Hi|apply Hi|done]].
    by destruct (state_cases s Hi) as [E'|[E'|[E'|E']]]; rewrite E' in *. }
  destruct Hs as (Hs1 & Hs2 & Hs3). apply (inv_step s _ t (Awake c prev TimedOut) Hi).
  constructor; cbn; rewrite ?E, ?Hs1; try updates; auto; try done.
  - intros Hq. by do 3 right.
  - intros c' prev' [= <- <-]. apply (i_gc _ Hi t c prev). by rewrite E.
Qed.

(** The owner gives the mutex up: the queue is empty, or somebody was woken. *)
Lemma release_step s t st p' (o : option nat) : inv s → has (pc s t) = true → in_queue (pc s t) = false →
  st = (if some_parked (queue s) then PARKED_BIT else 0) → has p' = false → in_queue p' = false → asleep p' = None →
  (o = qlock s ∧ in_qlock (pc s t) = false ∧ state s = 1 ∨ in_qlock (pc s t) = true ∧ o = None) → in_qlock p' = false →
  (parked (queue s) ≠ [] → ∃ u, u ≠ t ∧ coming (pc s u) = true) →
  inv (at_ (locked_queue (put s st) o) t p').
Proof.
  intros Hi Hh Hq Hst Hh' Hq' Ha Ho Hk Hw.
  assert (Hs : is_locked st = false ∧ 0 <= st < 4 ∧ (parked (queue s) ≠ [] → is_parked st = true)).
  { rewrite Hst. unfold some_parked. case_bool_decide; done. }
  destruct Hs as (Hs1 & Hs2 & Hs3).
  apply (inv_step s _ t p' Hi).
  constructor; cbn; rewrite ?Hh, ?Hq, ?Hs1, ?Hq', ?Hh', ?Hk; try updates; auto; try done.
  - destruct Ho as [(? & -> & ?)|[? ?]]; auto.
  - destruct Ho as [(? & ? & ?)|[? ?]]; [left; lia|auto].
  - by intros c prev ->.
Qed.

(** Taking a thread out of the queue and making it runnable, while its waker has both
    locks. *)
Lemma wake_step s u c prev q' : inv s → is_locked (state s) = true → pc s u = Parked c prev →
  unpark (queue s) = Some (u, q') → inv (at_ (requeue s q') u (Awake c prev (Unparked TOKEN_NORMAL))).
Proof.
  intros Hi Hl E Eq. pose proof (unpark_some _ _ _ Eq) as Hp.
  assert (Hb : is_parked (state s) = true).
  { apply (i_parked _ Hi). intros E0. rewrite E0 in Hp. by apply Permutation_nil_cons in Hp. }
  apply (inv_step s _ u (Awake c prev (Unparked TOKEN_NORMAL)) Hi).
  constructor; cbn; rewrite ?E, ?Hl; try updates; auto; try done; try apply Hi.
  intros c' prev' [= <- <-]. apply (i_gc _ Hi u c prev). by rewrite E.
Qed.

(** The woken thread has been given the mutex. *)
Lemma handoff_step s s' u c prev : inv s → is_locked (state s) = false →
  pc s u = Awake c prev (Unparked TOKEN_NORMAL) →
  state s' = Z.lor (state s) LOCKED_BIT → queue s' = queue s → qlock s' = qlock s → (∀ v, gc s' v = gc s v) →
  (∀ v, pc s' v = if decide (v = u) then Awake c prev (Unparked TOKEN_HANDOFF) else pc s v) → inv s'.
Proof.
  intros Hi Hl E Es Eq Ek Eg Ep.
  assert (Hs : is_locked (state s') = true ∧ 0 <= state s' < 4 ∧ is_parked (state s') = is_parked (state s) ∧ state s ≠ 3).
  { rewrite Es. by destruct (state_cases s Hi) as [E'|[E'|[E'|E']]]; rewrite E' in *. }
  destruct Hs as (Hs1 & Hs2 & Hs3 & Hs4). apply (inv_step s _ u (Awake c prev (Unparked TOKEN_HANDOFF)) Hi).
  constructor; rewrite ?Eq, ?Ek, ?E, ?Hl, ?Hs1; auto 10; try done.
  - rewrite Hs3. apply Hi.
  - by left.
  - intros c' prev' [= <- <-]. rewrite Eg. apply (i_gc _ Hi u c prev). by rewrite E.
Qed.

Lemma unlock_step s t u fair bump c prev q' b st tok : inv s → pc s t = Unparking fair bump →
  unpark (queue s) = Some (u, q') → pc s u = Parked c prev →
  callback fair (state s) (mkUnparkResult true (some_parked q') b) = (st, tok) →
  inv (at_ (at_ (locked_queue (requeue (put s st) q') None) u (Awake c prev (Unparked tok))) t (unlocked bump)).
Proof.
  intros Hi E Eq Eu Ecb. assert (Hne : u ≠ t) by (intros ->; congruence).
  assert (Hl : is_locked (state s) = true) by (apply (has_locked s t Hi); by rewrite E).
  assert (E3 : state s = 3).
  { assert (Hb : is_parked (state s) = true).
    { apply (i_parked _ Hi). intros E0. pose proof (unpark_some _ _ _ Eq) as Hp. rewrite E0 in Hp. by apply Permutation_nil_cons in Hp. }
    by destruct (state_cases s Hi) as [E'|[E'|[E'|E']]]; rewrite E' in *. }
  pose proof (wake_step s u c prev q' Hi Hl Eu Eq) as Hi1. set (s1 := at_ (requeue s q') u _) in Hi1.
  assert (E1 : pc s1 t = Unparking fair bump) by (cbn; rewrite fn_insert_eq, decide_False; done).
  assert (E2 : pc s1 u = Awake c prev (Unparked TOKEN_NORMAL)) by (cbn; rewrite fn_insert_eq, decide_True; done).
  pose proof (release_step s1 t (if some_parked q' then PARKED_BIT else 0) (unlocked bump) None Hi1) as Hi2.
  rewrite E1 in Hi2. assert (Hi3 : inv (at_ (locked_queue (put s1 (if some_parked q' then PARKED_BIT else 0)) None) t (unlocked bump))).
  { destruct bump; apply Hi2; auto; intros _; exists u; by rewrite E2. }
  clear Hi2. unfold callback in Ecb. cbn in Ecb. destruct (fair || b).
  - injection Ecb as <- <-. refine (handoff_step _ _ u c prev Hi3 _ _ _ _ _ _ _); cbn; try done.
    + by destruct (some_parked q').
    + rewrite fn_insert_eq, decide_False, fn_insert_eq, decide_True; done.
    + rewrite E3. by destruct (some_parked q').
    + intros v. rewrite !fn_insert_eq. repeat case_decide; congruence.
  - injection Ecb as <- <-. apply (local_step _ _ u (Awake c prev (Unparked TOKEN_NORMAL)) Hi3); cbn; try done.
    all: rewrite ?fn_insert_eq, ?(decide_False (P := u = t)), ?fn_insert_eq, ?(decide_True (P := u = u)) by done; auto.
    + intros v. rewrite !fn_insert_eq. repeat case_decide; congruence.
    + intros ?? [= <- <-]. apply (i_gc _ Hi u c prev). by rewrite Eu.
Qed.

(** A step that changes nothing but the place of the thread and its [gc_state]. *)
Ltac local s t p' Hi E :=
  apply (local_step s _ t p' Hi); cbn; rewrite ?E; try done; try updates; auto.

Lemma call_inv s s' t l : inv s → call_step t s l s' → inv s'.
Proof.
  intros Hi Hs. destruct Hs as
    [g E|c E|c E E0|c E|E|st E Hl|st E Hl E0|st E Hl|fair E E0|fair E E0|E Hp|E Hp|E Eq|E|E|st E Hl|st E Hl E0|st E Hl].
  - apply (local_step s _ t (pc s t) Hi); cbn; auto; try updates.
    + intros ?? E'. destruct E as [E|E]; congruence.
    + intros ?? E'. destruct E as [E|E]; by rewrite E in E'.
  - local s t (Entry c) Hi E.
  - pose proof (take_step s t Hi) as Ht. rewrite E, E0 in Ht. by apply Ht.
  - local s t (Slow c) Hi E.
  - local s t (Try (state s)) Hi E.
  - local s t Idle Hi E.
  - subst st. apply (take_step s t Hi Hl); by rewrite E.
  - local s t (Try (state s)) Hi E.
  - assert (Hq : parked (queue s) = []).
    { destruct (decide (parked (queue s) = [])) as [|Hne]; [done|]. pose proof (i_parked _ Hi Hne) as Hp. by rewrite E0 in Hp. }
    apply (release_step s t 0 Idle (qlock s) Hi); rewrite ?E; auto; [|done].
    unfold some_parked. by rewrite bool_decide_eq_true_2.
  - local s t (Unlock fair false) Hi E.
  - done.
  - local s t (Unlock true true) Hi E.
  - apply (enter_step s t _ Hi Eq); rewrite ?E; auto.
  - apply (parked_step s t Idle None Hi); rewrite ?E; auto.
  - local s t (MarkLocked (state s)) Hi E.
  - apply (leave_step s t _ Hi); rewrite ?E; auto.
  - subst st. apply (parked_step s t Idle None Hi); rewrite ?E; auto.
  - local s t (MarkLocked (state s)) Hi E.
Qed.

Lemma lock_slow_inv s s' t : inv s → lock_slow_step t s s' → inv s'.
Proof.
  intros Hi Hs. destruct Hs as
    [c E|c st E Hl E0|c st E Hl|c st E Hl Hp|c st E Hl Hp E0|c st E Hl Hp|c st E Hl Hp|c E|c prev E Eq
    |c prev E Hv|c prev E Hv|c prev E|c prev E Ht Eq|c prev q' E Eq|c prev r E].
  - local s t (Loop c (state s)) Hi E.
  - subst st. apply (take_step s t Hi Hl); by rewrite E.
  - local s t (Loop c (state s)) Hi E.
  - local s t (Loop c (state s)) Hi E.
  - subst st. apply (parked_step s t (Park c) (qlock s) Hi); rewrite ?E; auto.
  - local s t (Loop c (state s)) Hi E.
  - local s t (Park c) Hi E.
  - unfold before_park. destruct (safepoint c) eqn:Ec.
    + local s t (Enter c (gc s t)) Hi E.
    + local s t (Enter c 0) Hi E.
  - apply (enter_step s t _ Hi Eq); rewrite ?E; auto.
  - apply bool_decide_eq_true in Hv. local s t (Enqueue c prev) Hi E.
    intros ?? [= <- <-]. apply (i_gc _ Hi t c prev). by rewrite E.
  - apply (leave_step s t _ Hi); rewrite ?E; auto.
  - by apply queue_step.
  - apply (enter_step s t _ Hi Eq); rewrite ?E; auto.
  - by eapply timed_out_step.
  - apply (local_step s _ t (resume c r) Hi); unfold after_park;
      destruct (safepoint c), r as [[]| |]; cbn; rewrite ?E; try done; try updates; auto.
Qed.

Lemma unlock_slow_inv s s' t : inv s → unlock_slow_step t s s' → inv s'.
Proof.
  intros Hi Hs. destruct Hs as
    [fair bump E Eq|fair bump b st tok E Eq Ecb|fair bump u c prev q' b st tok E Eq Eu Ecb].
  - apply (enter_step s t _ Hi Eq); rewrite ?E; auto.
  - pose proof (unpark_none _ Eq) as Hq. injection Ecb as <- <-.
    apply (release_step s t 0 (unlocked bump) None Hi); rewrite ?E; auto; try by destruct bump.
    unfold some_parked. by rewrite bool_decide_eq_true_2.
  - by eapply unlock_step.
Qed.

Lemma mstep_inv s s' t l : inv s → mstep t s l s' → inv s'.
Proof. intros Hi [l' s1 Hs|s1 Hs|s1 Hs]; [by eapply call_inv|by eapply lock_slow_inv|by eapply unlock_slow_inv]. Qed.

Lemma new_mutex_inv : inv new.
Proof.
  constructor; cbn; try done.
  - split; [done|by intros [t ?]].
  - intros t. rewrite no_queue_parked. split; [by intros ?%not_elem_of_nil|done].
  - rewrite no_queue_parked. constructor.
  - by rewrite no_queue_parked.
  - by rewrite no_queue_parked.
Qed.

Lemma mutex_inv s : rtc step new s → inv s.
Proof.
  intros Hr. refine (rtc_ind_r inv new _ _ s Hr); [exact new_mutex_inv|].
  intros y z _ (t & l & Hs) Hy. by eapply mstep_inv.
Qed.

(** Whom [unpark_one] finds is asleep: nobody but the caller has the queue lock. *)
Lemma unpark_asleep s t u fair bump q' : inv s → pc s t = Unparking fair bump → unpark (queue s) = Some (u, q') →
  ∃ c prev, pc s u = Parked c prev.
Proof.
  intros Hi E Eq. assert (Hu : u ∈ parked (queue s)) by (rewrite (unpark_some _ _ _ Eq); left).
  apply (i_queue _ Hi) in Hu. destruct (pc s u) as [] eqn:Eu; try done; [eauto|].
  assert (qlock s = Some t) by (apply (i_qlock _ Hi); by rewrite E).
  assert (qlock s = Some u) by (apply (i_qlock _ Hi); by rewrite Eu). congruence.
Qed.

(** ** Getting the mutex *)

(** A step of the code of a call that was made before, or the unlock of an owner: no
    thread makes another call, and [gc_state] changes only where the code changes it. *)
Inductive work (u : nat) (s s' : Mutex) : Prop :=
| work_on : pc s u ≠ Idle → pc s u ≠ Hold → mstep u s None s' → work u s s'
| work_unlock fair : mstep u s (Some (OpUnlock fair)) s' → work u s s'.
Definition works (s s' : Mutex) : Prop := ∃ u, work u s s'.

(** The thread is in a call that waits for the mutex, or has come out of it with the
    mutex.  ([Expired]: its time is over.) *)
Definition waits (p : mpc) : bool :=
  match p with
  | Hold | Entry _ | Slow _ | Loop _ _ | Park _ | Enter _ _ | Validate _ _ | Enqueue _ _ | Parked _ _ => true
  | Awake _ _ (Unparked _) | Awake _ _ Invalid => true
  | _ => false
  end.

(** Runs in which thread [t] goes on waiting. *)
Definition onward (t : nat) (s s' : Mutex) : Prop := rtc works s s' ∧ inv s' ∧ waits (pc s' t) = true.

Lemma onward_refl t s : inv s → waits (pc s t) = true → onward t s s.
Proof. by split. Qed.

Lemma onward_trans t s s1 s2 : rtc works s s1 → onward t s1 s2 → onward t s s2.
Proof. intros Hr [H1 H2]. split; [by etrans|done]. Qed.

Lemma work_inv u s s' : inv s → work u s s' → inv s'.
Proof. intros Hi [_ _ Hs|fair Hs]; by eapply mstep_inv. Qed.

Lemma at_other s t u p : u ≠ t → pc (at_ s t p) u = pc s u.
Proof. intros Hne. cbn. by rewrite fn_insert_eq, decide_False. Qed.
Lemma at_same s t p : pc (at_ s t p) t = p.
Proof. cbn. by rewrite fn_insert_eq, decide_True. Qed.

(** Steps of others leave a waiting thread waiting. *)
Lemma mstep_waits s s' t u l : u ≠ t → mstep u s l s' → waits (pc s t) = true → waits (pc s' t) = true.
Proof.
  intros Hne Hs Hw. assert (Hne' : t ≠ u) by done.
  destruct Hs as [? ? Hs|? Hs|? Hs]; destruct Hs; unfold before_park, after_park; try destruct (safepoint _);
    rewrite ?(at_other _ u t) by done; try done.
  match goal with |- context [at_ _ ?v (Awake _ _ _)] => destruct (decide (t = v)) as [->|] end;
    [rewrite at_same; done|by rewrite at_other].
Qed.

Lemma onward_step t u s s' s2 : inv s → u ≠ t → waits (pc s t) = true → work u s s' →
  (inv s' → waits (pc s' t) = true → onward t s' s2) → onward t s s2.
Proof.
  intros Hi Hne Hw Hs Hk. apply (onward_trans t s s'); [apply rtc_once; by exists u|].
  apply Hk; [by eapply work_inv|]. destruct Hs as [_ _ Hs|fair Hs]; by eapply mstep_waits.
Qed.

(** A step by the rule [r], with the place [E] of the thread. *)
Ltac by_rule r E := apply work_on; [by rewrite E|by rewrite E|first [by eapply m_call, r|by eapply m_lock_slow, r|by eapply m_unlock_slow, r]].

(** Thread [u] alone gets the free mutex. *)
Definition took (u : nat) (s s' : Mutex) : Prop :=
  rtc works s s' ∧ pc s' u = Hold ∧ qlock s' = qlock s ∧ ∀ v, v ≠ u → pc s' v = pc s v.

Lemma took_rtc u s s1 s2 : rtc works s s1 → qlock s1 = qlock s → (∀ v, v ≠ u → pc s1 v = pc s v) → took u s1 s2 → took u s s2.
Proof.
  intros Hr Eq Ep (H1 & H2 & H3 & H4). split_and!; [by etrans|done|congruence|]. intros v Hv. by rewrite H4, Ep.
Qed.

Lemma loop_takes s u c : pc s u = Loop c (state s) → is_locked (state s) = false → ∃ s', took u s s'.
Proof.
  intros E Hl. eexists. split_and!; [apply rtc_once; exists u; by_rule loop_take E|apply at_same|done|intros v Hv; by rewrite at_other].
Qed.

Lemma slow_takes s u c : pc s u = Slow c → is_locked (state s) = false → ∃ s', took u s s'.
Proof.
  intros E Hl. set (s1 := at_ s u (Loop c (state s))).
  destruct (loop_takes s1 u c) as [s' Ht]; [apply at_same|done|]. exists s'.
  eapply (took_rtc u s s1); [apply rtc_once; exists u; by_rule slow_load E|done|intros v Hv; by apply at_other|done].
Qed.

Lemma awake_takes s u c prev r : pc s u = Awake c prev r → resume c r = Slow c → is_locked (state s) = false → ∃ s', took u s s'.
Proof.
  intros E Er Hl. set (s1 := after_park s u c prev r).
  destruct (slow_takes s1 u c) as [s' Ht]; [unfold s1, after_park; by rewrite at_same|unfold s1, after_park; by destruct (safepoint c)|].
  exists s'. eapply (took_rtc u s s1); [apply rtc_once; exists u; by_rule park_after E|..|done];
    unfold s1, after_park; [by destruct (safepoint c)|]. intros v Hv. rewrite at_other by done. by destruct (safepoint c).
Qed.

Lemma enter_takes s u c prev : pc s u = Enter c prev → qlock s = None → is_locked (state s) = false → ∃ s', took u s s'.
Proof.
  intros E Eq Hl. set (s1 := at_ (locked_queue s (Some u)) u (Validate c prev)).
  set (s2 := at_ (locked_queue s1 None) u (Awake c prev Invalid)).
  assert (E1 : pc s1 u = Validate c prev) by apply at_same.
  assert (Hv : validate (state s1) = false).
  { unfold validate. apply bool_decide_eq_false. intros E3. change (state s1) with (state s) in E3. by rewrite E3 in Hl. }
  destruct (awake_takes s2 u c prev Invalid) as [s' Ht]; [apply at_same|done|done|]. exists s'.
  eapply (took_rtc u s s2); [|done|intros v Hv'; etrans; [by apply at_other|exact (at_other _ u v _ Hv')]|done].
  apply (rtc_l _ s s1 s2); [exists u; by_rule park_enter E|]. apply rtc_once. exists u. by_rule park_invalid E1.
Qed.

Lemma park_takes s u c : pc s u = Park c → qlock s = None → is_locked (state s) = false → ∃ s', took u s s'.
Proof.
  intros E Eq Hl. set (s1 := before_park s u c).
  assert (H1 : ∃ prev, pc s1 u = Enter c prev) by (unfold s1, before_park; destruct (safepoint c); rewrite at_same; eauto).
  destruct H1 as [prev E1]. destruct (enter_takes s1 u c prev) as [s' Ht]; [done|unfold s1, before_park; by destruct (safepoint c)..|].
  exists s'. eapply (took_rtc u s s1); [apply rtc_once; exists u; by_rule park_before E|..|done];
    unfold s1, before_park; [by destruct (safepoint c)|]. intros v Hv. destruct (safepoint c); by rewrite at_other.
Qed.

(** Whoever is on its way gets the mutex when it is free and nobody has the queue lock. *)
Lemma coming_takes s u : inv s → qlock s = None → is_locked (state s) = false → coming (pc s u) = true → ∃ s', took u s s'.
Proof.
  intros Hi Eq Hl Hc. pose proof (i_qlock _ Hi u) as Hq. rewrite Eq in Hq.
  destruct (pc s u) as [| |c|c|c st|c|c prev|c prev|c prev| | |c prev [[]| |]| | | | |] eqn:E; try done; try (by destruct Hq as [Hq _]; specialize (Hq eq_refl)).
  - set (s1 := at_ s u (Slow c)). destruct (slow_takes s1 u c) as [s' Ht]; [apply at_same|done|]. exists s'.
    eapply (took_rtc u s s1); [apply rtc_once; exists u; by_rule lock_fail E|done|intros v Hv; by apply at_other|done].
  - by eapply slow_takes.
  - destruct (is_locked st) eqn:Hst; [destruct (is_parked st) eqn:Hp|].
    + set (s1 := at_ s u (Park c)). destruct (park_takes s1 u c) as [s' Ht]; [apply at_same|done..|]. exists s'.
      eapply (took_rtc u s s1); [apply rtc_once; exists u; by_rule loop_park E|done|intros v Hv; by apply at_other|done].
    + set (s1 := at_ s u (Loop c (state s))). destruct (loop_takes s1 u c) as [s' Ht]; [apply at_same|done|]. exists s'.
      eapply (took_rtc u s s1); [apply rtc_once; exists u; by_rule loop_spin E|done|intros v Hv; by apply at_other|done].
    + set (s1 := at_ s u (Loop c (state s))). destruct (loop_takes s1 u c) as [s' Ht]; [apply at_same|done|]. exists s'.
      eapply (took_rtc u s s1); [apply rtc_once; exists u; by_rule loop_retry E|done|intros v Hv; by apply at_other|done].
  - by eapply park_takes.
  - by eapply enter_takes.
  - by eapply awake_takes.
  - by eapply awake_takes.
Qed.

(** The callback of [unlock_slow] releases the mutex, or hands it to the thread it takes
    out of the queue. *)
Lemma unparking_works s u fair bump : inv s → pc s u = Unparking fair bump →
  ∃ s', work u s s' ∧ qlock s' = None ∧
    (is_locked (state s') = false ∧ parked (queue s') = [] ∨
     ∃ v, has (pc s' v) = true ∧ parked (queue s) ≡ₚ v :: parked (queue s')).
Proof.
  intros Hi E. destruct (unpark (queue s)) as [[v q']|] eqn:Eq.
  - destruct (unpark_asleep s u v _ _ q' Hi E Eq) as (c & prev & Ev). assert (Hne : v ≠ u) by (intros ->; congruence).
    destruct (callback fair (state s) (mkUnparkResult true (some_parked q') true)) as [st tok] eqn:Ec.
    eexists. split; [by_rule unlock_one E|]. split; [done|right]. exists v. split; [|by apply unpark_some].
    rewrite at_other, at_same by done. unfold callback in Ec. cbn in Ec. rewrite orb_true_r in Ec. by injection Ec as <- <-.
  - destruct (callback fair (state s) (mkUnparkResult false false false)) as [st tok] eqn:Ec.
    eexists. split; [by_rule unlock_nobody E|]. split; [done|left]. injection Ec as <- <-. split; [done|by apply unpark_none].
Qed.

(** The queue lock becomes free. *)
Lemma qlock_leaves s t : inv s → waits (pc s t) = true → ∃ s', onward t s s' ∧ qlock s' = None.
Proof.
  intros Hi Hw. destruct (qlock s) as [u|] eqn:El; [|exists s; split; [by apply onward_refl|done]].
  apply (i_qlock _ Hi) in El.
  assert (Hone : ∀ s', work u s s' → (u = t → waits (pc s' t) = true) → qlock s' = None → ∃ s', onward t s s' ∧ qlock s' = None).
  { intros s' Hs Hut Hn. exists s'. split; [|done]. destruct (decide (u = t)) as [->|Hne].
    - split; [apply rtc_once; by exists t|]. split; [by eapply work_inv|auto].
    - eapply (onward_step t u); [done..|]. intros. by apply onward_refl. }
  assert (Hnq : ∀ c prev, pc s u = Enqueue c prev → ∃ s', onward t s s' ∧ qlock s' = None).
  { intros c prev E. eapply Hone; [by_rule park_queue E|intros <-; by rewrite at_same|done]. }
  destruct (pc s u) as [| | | | | | |c prev|c prev| |c prev| | | |fair bump| |st] eqn:E; try done.
  - destruct (validate (state s)) eqn:Ev; [|eapply Hone; [by_rule park_invalid E|intros <-; by rewrite at_same|done]].
    set (s1 := at_ s u (Enqueue c prev)). assert (E1 : pc s1 u = Enqueue c prev) by apply at_same.
    assert (Hs1 : work u s s1) by (by_rule park_valid E). pose proof (work_inv _ _ _ Hi Hs1) as Hi1.
    set (s2 := at_ (locked_queue (requeue s1 (park u (queue s1))) None) u (Parked c prev)).
    assert (Hs2 : work u s1 s2) by (by_rule park_queue E1). exists s2. split; [|done].
    split; [eapply rtc_l; [by exists u|]; apply rtc_once; by exists u|]. split; [by eapply work_inv|].
    unfold s2. destruct (decide (t = u)) as [->|Hne]; [by rewrite at_same|]. rewrite at_other by done.
    change (waits (pc s1 t) = true). unfold s1. by rewrite at_other.
  - by eapply Hnq.
  - eapply Hone; [by_rule park_timed_out E|intros <-; by rewrite E in Hw|done].
  - destruct (unparking_works s u fair bump Hi E) as (s' & Hs & Hn & _). eapply (Hone s'); [done| |done].
    intros <-. by rewrite E in Hw.
  - eapply Hone; [by_rule mark_parked E|intros <-; by rewrite E in Hw|done].
  - assert (Hne : u ≠ t) by (intros ->; by rewrite E in Hw).
    destruct (is_locked st) eqn:Hl; [|eapply Hone; [by_rule mark_free E|done|done]].
    set (s1 := at_ s u (MarkLocked (state s))). assert (E1 : pc s1 u = MarkLocked (state s1)) by apply at_same.
    assert (Hs1 : work u s s1) by (by_rule mark_retry E).
    assert (Hend : ∃ s2, work u s1 s2 ∧ qlock s2 = None).
    { destruct (is_locked (state s1)) eqn:Hl1; eexists; [split; [by_rule mark_locked E1|done]|split; [by_rule mark_free E1|done]]. }
    destruct Hend as (s2 & Hs2 & Hn). exists s2. split; [|done].
    eapply (onward_step t u); [done..|]. intros. eapply (onward_step t u); [done..|]. intros. by apply onward_refl.
Qed.

(** The mutex becomes free with nobody in the queue, unless [t] has got it before. *)
Definition frees (t : nat) (s : Mutex) : Prop := ∃ s', onward t s s' ∧
  (pc s' t = Hold ∨ qlock s' = None ∧ is_locked (state s') = false ∧ parked (queue s') = []).

Lemma frees_step t u s s' : inv s → u ≠ t → waits (pc s t) = true → work u s s' →
  (inv s' → waits (pc s' t) = true → frees t s') → frees t s.
Proof.
  intros Hi Hne Hw Hs Hk. assert (Hw' : waits (pc s' t) = true) by (destruct Hs as [_ _ Hs|fair Hs]; by eapply mstep_waits).
  destruct (Hk (work_inv _ _ _ Hi Hs) Hw') as (s2 & H2 & Hf). exists s2. split; [|done].
  eapply onward_trans; [apply rtc_once; by exists u|done].
Qed.

(** Owners give the mutex up, or hand it on along the queue. *)
Lemma owner_frees n s t o : inv s → waits (pc s t) = true → qlock s = None → has (pc s o) = true →
  length (parked (queue s)) = n → frees t s.
Proof.
  revert s o. induction n as [n IH] using lt_wf_ind. intros s o Hi Hw Hq Ho Hn.
  assert (Hunlock : ∀ s fair bump, inv s → o ≠ t → waits (pc s t) = true → qlock s = None → length (parked (queue s)) = n →
    pc s o = Unlock fair bump → frees t s).
  { clear s Hi Hw Hq Ho Hn. intros s fair bump Hi Hne Hw Hq Hn E. set (s1 := at_ (locked_queue s (Some o)) o (Unparking fair bump)).
    eapply (frees_step t o s s1 Hi Hne Hw); [by_rule unlock_enter E|]. intros Hi1 Hw1.
    destruct (unparking_works s1 o fair bump Hi1) as (s2 & Hs2 & Hq2 & Hf); [apply at_same|].
    apply (frees_step t o s1 s2 Hi1 Hne Hw1 Hs2). intros Hi2 Hw2. destruct Hf as [Hf|(v & Hv & Hp)].
    - exists s2. split; [by apply onward_refl|auto].
    - change (queue s1) with (queue s) in Hp. apply (IH (length (parked (queue s2)))) with v; try done.
      rewrite <- Hn, Hp. cbn. lia. }
  assert (Hhold : ∀ s, inv s → o ≠ t → waits (pc s t) = true → qlock s = None → length (parked (queue s)) = n →
    pc s o = Hold → frees t s).
  { clear s Hi Hw Hq Ho Hn. intros s Hi Hne Hw Hq Hn E. destruct (decide (state s = LOCKED_BIT)) as [E1|E1].
    - eapply (frees_step t o s _ Hi Hne Hw); [by eapply (work_unlock _ _ _ true), m_call, unlock_fast|]. intros Hi1 Hw1.
      eexists. split; [by apply onward_refl|]. right. split_and!; [done|done|]. cbn.
      destruct (decide (parked (queue s) = [])) as [|Hp]; [done|]. apply (i_parked _ Hi) in Hp. by rewrite E1 in Hp.
    - eapply (frees_step t o s _ Hi Hne Hw); [by eapply (work_unlock _ _ _ true), m_call, unlock_slow|]. intros Hi1 Hw1.
      eapply Hunlock; [done..|apply at_same]. }
  assert (Hall : o = t → frees t s).
  { intros ->. destruct (pc s t) as [| | | | | | | | | | |c prev [[]| |]| | | | |] eqn:E; try done.
    - exists s. rewrite E. split; [split; [done|by rewrite E]|auto].
    - set (s1 := after_park s t c prev (Unparked TOKEN_HANDOFF)). assert (Hs : work t s s1) by (by_rule park_after E).
      assert (E1 : pc s1 t = Hold) by apply at_same. exists s1. split; [|auto].
      split; [apply rtc_once; by exists t|]. split; [by eapply work_inv|by rewrite E1]. }
  destruct (decide (o = t)) as [|Hne]; [auto|].
  destruct (pc s o) as [| | | | | | | | | | |c prev [[]| |]| |fair bump|fair bump| |] eqn:E; try done.
  - by apply Hhold.
  - eapply (frees_step t o s _ Hi Hne Hw); [by_rule park_after E|]. intros Hi1 Hw1.
    apply Hhold; try done; unfold after_park; [by destruct (safepoint c)..|apply at_same].
  - by eapply Hunlock.
  - assert (qlock s = Some o) by (apply (i_qlock _ Hi); by rewrite E). congruence.
Qed.

(** A waiting thread gets the mutex when it is free and nobody is in the queue. *)
Lemma waiting_takes s t : inv s → waits (pc s t) = true → qlock s = None → is_locked (state s) = false →
  ¬ (t ∈ parked (queue s)) → ∃ s', took t s s'.
Proof.
  intros Hi Hw Hq Hl Hp. rewrite (i_queue _ Hi) in Hp. apply coming_takes; try done.
  assert (Hh : has (pc s t) = false).
  { destruct (has (pc s t)) eqn:Hh; [|done]. rewrite (has_locked s t Hi Hh) in Hl. done. }
  destruct (pc s t) as [| | | | | | | | | | |c prev [[]| |]| | | | |]; done.
Qed.

Lemma works_obtain s t : inv s → waits (pc s t) = true → ∃ s', rtc works s s' ∧ pc s' t = Hold.
Proof.
  intros Hi Hw. destruct (qlock_leaves s t Hi Hw) as (s1 & (Hr1 & Hi1 & Hw1) & Hq1).
  assert (Hend : ∀ s2, rtc works s s2 → inv s2 → waits (pc s2 t) = true → qlock s2 = None → is_locked (state s2) = true →
    ∃ s', rtc works s s' ∧ pc s' t = Hold).
  { intros s2 Hr2 Hi2 Hw2 Hq2 Hl2. apply (i_locked _ Hi2) in Hl2 as [o Ho].
    destruct (owner_frees _ s2 t o Hi2 Hw2 Hq2 Ho eq_refl) as (s3 & (Hr3 & Hi3 & Hw3) & [E|(Hq3 & Hl3 & Hp3)]).
    - exists s3. split; [by etrans|done].
    - destruct (waiting_takes s3 t Hi3 Hw3 Hq3 Hl3) as (s4 & Hr4 & E & _); [rewrite Hp3; apply not_elem_of_nil|].
      exists s4. split; [do 2 (etrans; [done|]); done|done]. }
  destruct (is_locked (state s1)) eqn:Hl1; [by apply (Hend s1)|].
  destruct (decide (t ∈ parked (queue s1))) as [Hin|Hin].
  - assert (Hne : parked (queue s1) ≠ []) by (intros E0; rewrite E0 in Hin; by apply not_elem_of_nil in Hin).
    destruct (i_wake _ Hi1 Hne) as [?|[u Hu]]; [congruence|].
    destruct (coming_takes s1 u Hi1 Hq1 Hl1 Hu) as (s2 & Hr2 & E2 & Eq2 & Ep2).
    assert (Hut : t ≠ u). { intros ->. apply (i_queue _ Hi1) in Hin. by destruct (pc s1 u). }
    assert (Hi2 : inv s2). { clear - Hr2 Hi1 ParkingLotLaws0. induction Hr2 as [|x y z [v Hv] _ IH]; [done|]. apply IH. by eapply work_inv. }
    apply (Hend s2); [by etrans|done|by rewrite Ep2|congruence|]. apply (has_locked s2 u Hi2). by rewrite E2.
  - destruct (waiting_takes s1 t Hi1 Hw1 Hq1 Hl1 Hin) as (s2 & Hr2 & E2 & _). exists s2. split; [by etrans|done].
Qed.

(** ** Properties *)

(** C14: The mutex excludes: in every state the threads can reach, at most one thread is
    between a successful lock and its unlock, the bit [LOCKED_BIT] is set exactly when
    one is (or the mutex is on its way to one by a hand-off), and [state] never leaves
    the four values of its table. *)
Theorem mutex_exclusive s : rtc step new s →
  (∀ t u, pc s t = Hold → pc s u = Hold → t = u) ∧
  (is_locked (state s) = true ↔ ∃ t, has (pc s t) = true) ∧ 0 <= state s < 4.
Proof.
  intros Hr. pose proof (mutex_inv s Hr) as Hi. split_and!; try apply Hi.
  intros t u Ht Hu. apply (i_unique _ Hi); [by rewrite Ht|by rewrite Hu].
Qed.

(** C17: No wakeup is lost: while a thread is in the queue of the mutex the bit
    [PARKED_BIT] is set, so the owner cannot unlock past the queue, and there is an
    owner or another thread is on its way to take the mutex. *)
Theorem no_lost_wakeup s t : rtc step new s → t ∈ parked (queue s) →
  is_parked (state s) = true ∧ ((∃ u, has (pc s u) = true) ∨ ∃ u, coming (pc s u) = true) ∧
  (is_locked (state s) = true → ∀ u, u ≠ t → pc s u = Hold → ∀ s' fair, mstep u s (Some (OpUnlock fair)) s' →
     pc s' u = Unlock fair false).
Proof.
  intros Hr Ht. pose proof (mutex_inv s Hr) as Hi.
  assert (Hne : parked (queue s) ≠ []) by (intros E0; rewrite E0 in Ht; by apply not_elem_of_nil in Ht).
  pose proof (i_parked _ Hi Hne) as Hp. split_and!; [done| |].
  - destruct (i_wake _ Hi Hne) as [Hl|Hc]; [left; by apply (i_locked _ Hi)|by right].
  - intros _ u _ _ s' fair Hs. inversion Hs as [l s1 Hc| |]; subst. inversion Hc; subst;
      [match goal with E : state s = LOCKED_BIT |- _ => by rewrite E in Hp end|]. cbn. by rewrite fn_insert_eq, decide_True.
Qed.


(** A thread that waits for the mutex through [lock] does not hold up a collection:
    from before it parks until it has come back its [gc_state] is [GC_STATE_SAFE], and
    then it is what it was. *)
Theorem parked_thread_safe s t c prev : rtc step new s → asleep (pc s t) = Some (c, prev) → safepoint c = true →
  gc s t = GC_STATE_SAFE ∧ ∀ r l s', pc s t = Awake c prev r → mstep t s l s' → gc s' t = prev.
Proof.
  intros Hr Ha Hc. split; [by eapply (i_gc _ (mutex_inv s Hr))|]. intros r l s' E Hs.
  destruct Hs as [? ? Hs|? Hs|? Hs]; inversion Hs; try congruence; try (destruct_or!; congruence). subst. rewrite E in *. simplify_eq.
  unfold after_park. rewrite Hc. cbn. by rewrite fn_insert_eq, decide_True.
Qed.

End Steps.

(** ** Concrete runs *)

(** One step of thread [t] by the rule [r]. *)
Tactic Notation "go" constr(t) uconstr(r) := eapply rtc_l; [exists t; eexists; (eapply m_call, r || eapply m_lock_slow, r); reflexivity|].

(** Thread 0 locks; thread 1 waits in the queue. *)
Lemma contended : ∃ s : Mutex (Q := list nat), rtc step new s ∧
  pc s 0%nat = Hold ∧ pc s 1%nat = Parked plain 0 ∧ state s = 3 ∧ queue s = [1%nat].
Proof.
  eexists. split; [|shelve].
  go 0%nat (m_lock _ _ plain). go 0%nat lock_fast.
  go 1%nat (m_lock _ _ plain). go 1%nat lock_fail. go 1%nat slow_load. go 1%nat loop_mark.
  go 1%nat park_before. go 1%nat park_enter. go 1%nat park_valid. go 1%nat park_queue.
  apply rtc_refl.
  Unshelve. split_and!; reflexivity.
Defined.

Lemma mutex_exclusive_witness : ∃ s : Mutex (Q := list nat), rtc step new s ∧ pc s 0%nat = Hold ∧
  is_locked (state s) = true ∧ ∀ u, pc s u = Hold → u = 0%nat.
Proof.
  destruct contended as (s & Hr & E0 & _). exists s. split; [exact Hr|]. split; [exact E0|].
  destruct (mutex_exclusive s Hr) as (Hu & Hl & _). split; [apply Hl; exists 0%nat; by rewrite E0|].
  intros u Eu. by apply Hu.
Defined.

Lemma no_lost_wakeup_witness : ∃ s : Mutex (Q := list nat), rtc step new s ∧ 1%nat ∈ parked (queue s) ∧
  is_parked (state s) = true.
Proof.
  destruct contended as (s & Hr & _ & _ & _ & Eq). exists s. split; [exact Hr|].
  assert (Hin : 1%nat ∈ parked (queue s)) by (rewrite Eq; left). split; [exact Hin|]. by apply (no_lost_wakeup s 1%nat Hr Hin).
Defined.


Lemma parked_thread_safe_witness : ∃ s : Mutex (Q := list nat), rtc step new s ∧ pc s 1%nat = Parked plain 0 ∧
  gc s 1%nat = GC_STATE_SAFE.
Proof.
  destruct contended as (s & Hr & _ & E1 & _). exists s. split; [exact Hr|]. split; [exact E1|].
  apply (parked_thread_safe s 1%nat plain 0 Hr); [by rewrite E1|reflexivity].
Defined.

End Mutex.
