(* ===== verification/ReentrantMutex.v ===== *)
(** * util/locks.rs: the recursive mutex

    [ReentrantMutex] is built on [Mutex]: its transition system contains the one of the
    mutex, and every step inside [mtx.lock()] or [mtx.unlock()] is a step of that one.
    [depth] is not part of the code: it counts how often a thread has locked and not yet
    unlocked.  A count that would leave 32 bits panics and has no rule; an [unlock] by a
    thread that is not the owner fails its assertion and leads to [Panicked]. *)

From stdpp Require Import functions base numbers list relations.
From Stdlib Require Import ZArith Lia.
From S2P Require Import Prelude Mutex.
Local Open Scope Z_scope.

Module Reentrant.

(** Where a thread is: outside; in [mtx.lock()]; with [owner] stored and [count] not;
    in [unlock] with the count at 0, with [owner] cleared, and in [mtx.unlock()]. *)
Inductive rpc : Type :=
| Out
| Locking
| Owned
| Clearing
| Cleared
| Unlocking
| Panicked.

Section Steps.
Context {Q : Type} `{ParkingLot Q}.

Record ReentrantMutex : Type := mkReentrant {
  owner : option nat;
  count : Z;
  mtx : Mutex.Mutex (Q := Q);
  depth : nat → Z;
  r_pc : nat → rpc
}.

Definition new : ReentrantMutex := mkReentrant None 0 Mutex.new (λ _, 0) (λ _, Out).

Definition at_ (s : ReentrantMutex) (t : nat) (p : rpc) : ReentrantMutex :=
  mkReentrant (owner s) (count s) (mtx s) (depth s) (<[t := p]> (r_pc s)).
Definition own (s : ReentrantMutex) (o : option nat) : ReentrantMutex :=
  mkReentrant o (count s) (mtx s) (depth s) (r_pc s).
(** The count and the depth of [t]. *)
Definition counted (s : ReentrantMutex) (t : nat) (c d : Z) : ReentrantMutex :=
  mkReentrant (owner s) c (mtx s) (<[t := d]> (depth s)) (r_pc s).
Definition with_mtx (s : ReentrantMutex) (m : Mutex.Mutex) : ReentrantMutex :=
  mkReentrant (owner s) (count s) m (depth s) (r_pc s).

Inductive rstep (t : nat) (s : ReentrantMutex) : ReentrantMutex → Prop :=
(** outside: the thread may change its [gc_state] *)
| r_gc g : r_pc s t = Out → rstep t s (with_mtx s (Mutex.set_gc (mtx s) t g))
(** [lock] with [c = plain], [lock_nogc] with [c = nogc] *)
| r_again : r_pc s t = Out → owner s = Some t → count s + 1 < 2 ^ 32 →
    rstep t s (counted s t (count s + 1) (depth s t + 1))
| r_lock c m : r_pc s t = Out → owner s ≠ Some t → c = Mutex.plain ∨ c = Mutex.nogc →
    Mutex.mstep t (mtx s) (Some (Mutex.OpLock c)) m → rstep t s (at_ (with_mtx s m) t Locking)
| r_locking m : r_pc s t = Locking → Mutex.pc (mtx s) t ≠ Mutex.Hold → Mutex.mstep t (mtx s) None m →
    rstep t s (with_mtx s m)
| r_locked : r_pc s t = Locking → Mutex.pc (mtx s) t = Mutex.Hold → rstep t s (at_ (own s (Some t)) t Owned)
| r_first : r_pc s t = Owned → rstep t s (at_ (counted s t 1 (depth s t + 1)) t Out)
(** [unlock], [unlock_nogc] *)
| r_other : r_pc s t = Out → owner s ≠ Some t → rstep t s (at_ s t Panicked)
| r_dec : r_pc s t = Out → owner s = Some t → count s - 1 ≠ 0 → 0 <= count s - 1 →
    rstep t s (counted s t (count s - 1) (depth s t - 1))
| r_zero : r_pc s t = Out → owner s = Some t → count s - 1 = 0 →
    rstep t s (at_ (counted s t 0 (depth s t - 1)) t Clearing)
| r_clear : r_pc s t = Clearing → rstep t s (at_ (own s None) t Cleared)
| r_unlock m : r_pc s t = Cleared → Mutex.mstep t (mtx s) (Some (Mutex.OpUnlock false)) m →
    rstep t s (at_ (with_mtx s m) t Unlocking)
| r_unlocking m : r_pc s t = Unlocking → Mutex.pc (mtx s) t ≠ Mutex.Idle → Mutex.mstep t (mtx s) None m →
    rstep t s (with_mtx s m)
| r_done : r_pc s t = Unlocking → Mutex.pc (mtx s) t = Mutex.Idle → rstep t s (at_ s t Out).

Definition step (s s' : ReentrantMutex) : Prop := ∃ t, rstep t s s'.

(** ** Invariant *)

(** The places of a thread inside [mtx.lock()], with the mutex at the end. *)
Definition locking (p : Mutex.mpc) : bool :=
  match p with
  | Mutex.Entry c | Mutex.Slow c | Mutex.Loop c _ | Mutex.Park c | Mutex.Enter c _ | Mutex.Validate c _
  | Mutex.Enqueue c _ | Mutex.Parked c _ => negb (Mutex.timeout c)
  | Mutex.Awake c _ (Mutex.Unparked _) | Mutex.Awake c _ Mutex.Invalid => negb (Mutex.timeout c)
  | Mutex.Hold => true
  | _ => false
  end.

(** The places of a thread inside [mtx.unlock()]. *)
Definition unlocking (p : Mutex.mpc) : bool :=
  match p with Mutex.Idle | Mutex.Unlock _ false | Mutex.Unparking _ false => true | _ => false end.

(** What the place of a thread says of the owner, the count and the mutex. *)
Definition thread_ok (o : option nat) (n : Z) (d : Z) (t : nat) (r : rpc) (p : Mutex.mpc) : Prop :=
  match r with
  | Out => if decide (o = Some t) then p = Mutex.Hold ∧ 0 < d ∧ n = d else p = Mutex.Idle ∧ d = 0
  | Locking => o ≠ Some t ∧ d = 0 ∧ locking p = true
  | Owned | Clearing => o = Some t ∧ d = 0 ∧ p = Mutex.Hold
  | Cleared => o ≠ Some t ∧ d = 0 ∧ p = Mutex.Hold
  | Unlocking => o ≠ Some t ∧ d = 0 ∧ unlocking p = true
  | Panicked => o ≠ Some t ∧ d = 0 ∧ p = Mutex.Idle
  end.

Definition thread_inv (s : ReentrantMutex) (t : nat) : Prop :=
  thread_ok (owner s) (count s) (depth s t) t (r_pc s t) (Mutex.pc (mtx s) t).

Record rinv (s : ReentrantMutex) : Prop := {
  ri_mtx : Mutex.inv (mtx s);
  ri_thread t : thread_inv s t
}.

Lemma owner_has s t : rinv s → owner s = Some t → Mutex.has (Mutex.pc (mtx s) t) = true.
Proof.
  intros Hi E. pose proof (ri_thread _ Hi t) as Ht. unfold thread_inv, thread_ok in Ht.
  destruct (r_pc s t); rewrite ?E, ?decide_True in Ht by done; destruct_and?; try done.
  all: match goal with E' : Mutex.pc _ _ = _ |- _ => by rewrite E' end.
Qed.

(** A step of [t] inside the mutex moves [t], and wakes at most a parked thread. *)
Lemma mstep_other t u m l m' : Mutex.mstep t m l m' → u ≠ t →
  Mutex.pc m' u = Mutex.pc m u ∨
  ∃ c prev tok, Mutex.pc m u = Mutex.Parked c prev ∧ Mutex.pc m' u = Mutex.Awake c prev (Mutex.Unparked tok).
Proof.
  intros Hs Hu. destruct Hs as [? ? Hs|? Hs|? Hs]; destruct Hs; unfold Mutex.before_park, Mutex.after_park; try (destruct (Mutex.safepoint c));
    cbn; rewrite ?fn_insert_eq, ?(decide_False (P := u = t)) by done; auto.
  all: case_decide; [subst; right; eauto|auto].
Qed.

Lemma other_ok o n d u r p p' : thread_ok o n d u r p →
  p' = p ∨ (∃ c prev tok, p = Mutex.Parked c prev ∧ p' = Mutex.Awake c prev (Mutex.Unparked tok)) →
  thread_ok o n d u r p'.
Proof.
  intros Ht [->|(c & prev & tok & -> & ->)]; [done|]. unfold thread_ok in *.
  destruct r; try case_decide; destruct_and?; try done.
Qed.

(** A step of [t] in the code around the mutex. *)
Lemma outer_inv s s' t : rinv s → mtx s' = mtx s →
  (∀ u, u ≠ t → r_pc s' u = r_pc s u ∧ depth s' u = depth s u) → thread_inv s' t →
  (owner s' = owner s ∧ (owner s = Some t ∨ count s' = count s) ∨
   Mutex.has (Mutex.pc (mtx s) t) = true ∧ owner s' ≠ owner s ∧ (owner s' = Some t ∨ owner s' = None)) →
  rinv s'.
Proof.
  intros Hi Em Hu Ht Ho. constructor; [rewrite Em; apply Hi|]. intros u.
  destruct (decide (u = t)) as [->|Hne]; [done|]. pose proof (ri_thread _ Hi u) as Hold.
  unfold thread_inv in *. destruct (Hu u Hne) as [-> ->]. rewrite Em.
  assert (Hown : owner s ≠ Some u ∧ owner s' ≠ Some u ∨ owner s' = owner s ∧ count s' = count s).
  { destruct Ho as [[-> [E|?]]|(Hh & _ & Ho)]; [left; split; congruence|by right|left].
    split; [|destruct Ho; congruence]. intros E. apply Hne.
    apply (Mutex.i_unique _ (ri_mtx _ Hi)); [by apply owner_has|done]. }
  destruct Hown as [[H1 H2]|[-> ->]]; [|done]. unfold thread_ok in *.
  destruct (r_pc s u); rewrite ?decide_False in * by done; destruct_and?; auto; congruence.
Qed.

Context `{!ParkingLotLaws Q}.

(** A step of [t] inside the mutex. *)
Lemma inner_inv s m l t r : rinv s → Mutex.mstep t (mtx s) l m →
  thread_ok (owner s) (count s) (depth s t) t r (Mutex.pc m t) → rinv (at_ (with_mtx s m) t r).
Proof.
  intros Hi Hm Ht. constructor; [by eapply Mutex.mstep_inv; [apply Hi|]|]. intros u. unfold thread_inv. cbn.
  rewrite fn_insert_eq. case_decide as C; [by subst|]. eapply other_ok; [apply (ri_thread _ Hi)|by eapply mstep_other].
Qed.

(** Where a step of [t] inside the mutex leads it. *)
Lemma mstep_here t m m' : Mutex.mstep t m None m' →
  (locking (Mutex.pc m t) = true → Mutex.pc m t ≠ Mutex.Hold → locking (Mutex.pc m' t) = true) ∧
  (unlocking (Mutex.pc m t) = true → Mutex.pc m t ≠ Mutex.Idle → unlocking (Mutex.pc m' t) = true).
Proof.
  intros Hm. inversion Hm as [l s' Hs|s' Hs|s' Hs]; subst; [inversion Hs as
      [g E|c E|c E E0|c E|E|st E Hl|st E Hl E0|st E Hl|fair E E0|fair E E0|E Hp|E Hp|E Eq|E|E|st E Hl|st E Hl E0|st E Hl]
    |inversion Hs as [c E|c st E Hl E0|c st E Hl|c st E Hl Hp|c st E Hl Hp E0|c st E Hl Hp|c st E Hl Hp|c E|c prev E Eq
      |c prev E Hv|c prev E Hv|c prev E|c prev E Ht Eq|c prev q' E Eq|c prev r E]
    |inversion Hs as [fair bump E Eq|fair bump b st tok E Eq Ecb|fair bump u c prev q' b st tok E Eq Eu Ecb]];
    subst; try destruct E as [E|E]; rewrite E; try done.
  all: unfold Mutex.before_park, Mutex.after_park; try destruct (Mutex.safepoint c); cbn;
    rewrite ?fn_insert_eq, ?decide_True by done; try done.
  all: try (rewrite Ht; done).
  all: try (destruct r as [[]| |]; done).
  all: destruct bump; done.
Qed.

Ltac others := let v := fresh in intros v ?; cbn; rewrite ?fn_insert_eq, ?decide_False by done; done.

(** A step inside the mutex that leaves the place of the thread outside alone. *)
Lemma inside_inv s m l t : rinv s → Mutex.mstep t (mtx s) l m →
  thread_ok (owner s) (count s) (depth s t) t (r_pc s t) (Mutex.pc m t) → rinv (with_mtx s m).
Proof.
  intros Hi Hm Ht. destruct (inner_inv s m l t (r_pc s t) Hi Hm Ht) as [Hi' Hth]. constructor; [done|].
  intros u. specialize (Hth u). unfold thread_inv in *. cbn in *. rewrite fn_insert_eq in Hth.
  case_decide; [by subst|done].
Qed.

Lemma rstep_inv s s' t : rinv s → rstep t s s' → rinv s'.
Proof.
  intros Hi Hs. pose proof (ri_thread _ Hi t) as Ht. unfold thread_inv in Ht.
  destruct Hs as [g E|E Eo Hc|c m E Eo Hc Hm|m E Hh Hm|E Hh|E|E Eo|E Eo Hc Hc'|E Eo Hc|E|m E Hm|m E Hh Hm|E Hh];
    rewrite E in Ht; cbn in Ht; rewrite ?Eo, ?decide_True, ?decide_False in Ht by done.
  - assert (Hp : Mutex.pc (mtx s) t = Mutex.Idle ∨ Mutex.pc (mtx s) t = Mutex.Hold) by (case_decide; tauto).
    apply (inside_inv s _ None t Hi (Mutex.m_call _ _ _ _ (Mutex.m_gc t (mtx s) g Hp))). by rewrite E.
  - apply (outer_inv s _ t Hi); [done|others| |by left; auto]. unfold thread_inv. cbn.
    rewrite E, fn_insert_eq, decide_True by done. cbn. rewrite Eo, decide_True by done. destruct_and!. split_and!; [done|lia|lia].
  - apply (inner_inv s m _ t Locking Hi Hm). inversion Hm as [l s' Hs| |]; subst. inversion Hs; subst. cbn. rewrite fn_insert_eq, decide_True by done.
    split_and!; [done|tauto|]. by destruct Hc as [-> | ->].
  - destruct (mstep_here t _ _ Hm) as [Hl _]. destruct_and!. apply (inside_inv s m _ t Hi Hm). rewrite E. cbn. auto.
  - apply (outer_inv s _ t Hi); [done|others| |].
    + unfold thread_inv. cbn. rewrite fn_insert_eq, decide_True by done. cbn. tauto.
    + right. cbn. rewrite Hh. destruct_and!. split_and!; [done|congruence|by left].
  - apply (outer_inv s _ t Hi); [done|others| |left; cbn; tauto]. unfold thread_inv. cbn.
    rewrite !fn_insert_eq, !decide_True by done. cbn. destruct_and!. rewrite decide_True by done. split_and!; [done|lia|lia].
  - apply (outer_inv s _ t Hi); [done|others| |by left; auto]. unfold thread_inv. cbn.
    rewrite fn_insert_eq, decide_True by done. cbn. tauto.
  - apply (outer_inv s _ t Hi); [done|others| |by left; auto]. unfold thread_inv. cbn.
    rewrite E, fn_insert_eq, decide_True by done. cbn. rewrite Eo, decide_True by done. destruct_and!. split_and!; [done|lia|lia].
  - apply (outer_inv s _ t Hi); [done|others| |by left; auto]. unfold thread_inv. cbn.
    rewrite !fn_insert_eq, !decide_True by done. cbn. destruct_and!. split_and!; [done|lia|done].
  - apply (outer_inv s _ t Hi); [done|others| |].
    + unfold thread_inv. cbn. rewrite fn_insert_eq, decide_True by done. cbn. destruct_and!. by split_and!.
    + right. cbn. destruct Ht as (Eo & _ & ->). rewrite Eo. split_and!; [done|done|by right].
  - apply (inner_inv s m _ t Unlocking Hi Hm). cbn. destruct_and!. split_and!; [done|done|].
    inversion Hm as [l s' Hs| |]; subst. inversion Hs; subst; cbn; by rewrite fn_insert_eq, decide_True.
  - destruct (mstep_here t _ _ Hm) as [_ Hl]. destruct_and!. apply (inside_inv s m _ t Hi Hm). rewrite E. cbn. auto.
  - apply (outer_inv s _ t Hi); [done|others| |by left; auto]. unfold thread_inv. cbn.
    rewrite fn_insert_eq, decide_True by done. cbn. rewrite decide_False; tauto.
Qed.

Lemma new_reentrant_inv : rinv new.
Proof. constructor; [apply Mutex.new_mutex_inv|]. by intros t. Qed.

Lemma reentrant_inv s : rtc step new s → rinv s.
Proof.
  intros Hr. refine (rtc_ind_r rinv new _ _ s Hr); [exact new_reentrant_inv|].
  intros y z _ (t & Hs) Hy. by eapply rstep_inv.
Qed.

(** ** Properties *)

(** C19: The recursive mutex excludes and counts: in every state the threads can reach, a
    thread that has locked more often than unlocked is the owner, holds the mutex inside,
    [count] is the number of its locks, and no other thread has the lock; a thread that
    has not locked is not taken for the owner, so its [unlock] fails the assertion. *)
Theorem reentrant_exclusive s t : rtc step new s →
  (0 < depth s t → owner s = Some t ∧ count s = depth s t ∧ Mutex.pc (mtx s) t = Mutex.Hold ∧
     ∀ u, u ≠ t → depth s u = 0) ∧
  (r_pc s t = Out → depth s t = 0 → owner s ≠ Some t).
Proof.
  intros Hr. pose proof (reentrant_inv s Hr) as Hi. pose proof (ri_thread _ Hi t) as Ht. unfold thread_inv, thread_ok in Ht. split.
  - intros Hd. destruct (r_pc s t); destruct_and?; try lia. case_decide as Eo; destruct_and!; [|lia].
    split_and!; try done. intros u Hu. pose proof (ri_thread _ Hi u) as H'. unfold thread_inv, thread_ok in H'.
    destruct (r_pc s u); rewrite ?decide_False in H' by congruence; tauto.
  - intros Ep Hd. rewrite Ep in Ht. case_decide; [lia|done].
Qed.

End Steps.

Tactic Notation "run" constr(t) uconstr(r) := eapply rtc_l; [exists t; eapply r; reflexivity|].

Lemma reentrant_exclusive_witness : ∃ s : ReentrantMutex (Q := list nat), rtc step new s ∧
  depth s 0%nat = 2 ∧ count s = 2 ∧ depth s 1%nat = 0 ∧ r_pc s 1%nat = Out ∧ owner s ≠ Some 1%nat.
Proof.
  assert (Hr : ∃ s : ReentrantMutex (Q := list nat), rtc step new s ∧ depth s 0%nat = 2 ∧ r_pc s 1%nat = Out ∧ depth s 1%nat = 0).
  { eexists. split; [|shelve].
    eapply rtc_l; [exists 0%nat; eapply (r_lock _ _ Mutex.plain); [reflexivity|discriminate|by left|eapply Mutex.m_call, Mutex.m_lock; reflexivity]|].
    eapply rtc_l; [exists 0%nat; eapply r_locking; [reflexivity|discriminate|eapply Mutex.m_call, Mutex.lock_fast; reflexivity]|].
    run 0%nat r_locked. run 0%nat r_first. run 0%nat r_again. apply rtc_refl.
    Unshelve. split_and!; reflexivity. }
  destruct Hr as (s & Hr & Hd & Ep & Hd1). exists s.
  destruct (reentrant_exclusive s 0%nat Hr) as [H0 _]. destruct (reentrant_exclusive s 1%nat Hr) as [_ H1].
  destruct H0 as (_ & Hc & _ & _); [rewrite Hd; reflexivity|].
  split_and!; [exact Hr|exact Hd|congruence|exact Hd1|exact Ep|by apply H1].
Defined.

End Reentrant.
